(* ===== verification/_CoqProject ===== *)
-Q . S2P
Prelude.v
Bytes.v
SmtUtils.v
SmtKeys.v
SmtDb.v
SmtTree.v
Smt.v
SmtInsert.v
SmtRefine.v
SmtProof.v
SmtBatch.v
SmtBatchEntries.v
SmtBatchSpec.v
SmtBatchRefine.v
SmtSources.v
SmtCreate.v
SmtCreateSpec.v
SmtCreateHash.v
SmtCreateRefine.v
ContractHash.v
ContractHashSpec.v
TxHash.v
TxHashSpec.v
EntityStorage.v
EntityStorageSpec.v
SmtReader.v
SmtReaderSpec.v
SmtMaintain.v
BlockInfo.v
BlockInfoSpec.v
L1InfoTree.v
Rlp.v
RlpSpec.v
L2Data.v
L2DataSpec.v
Float64.v
ZkCounters.v
ZkOpcodes.v
ZkCountersSpec.v
BatchCounters.v
BatchCountersSpec.v
Kv.v
MemBatch.v
MemBatchSpec.v
SmtHeap.v
SmtCacheList.v
SmtCache.v
SmtCacheSpec.v
ZkTypes.v
HermezDb.v
HermezDbSpec.v
