(* ===== verification/Prelude.v ===== *)
(** * A verification of the zk components of X Layer Erigon

    X Layer Erigon is an Ethereum client in Go that follows, executes and
    sequences a zk rollup.  This development models the parts that are specific
    to the rollup and compute something others rely on: the state tree with the
    accounts on it, its batches and its asynchronous commit, the block info tree,
    the L1 info tree, the codecs of the batch data, the prover counters and the
    tables of the node.  Go functions are
    translated into Rocq functions with the same name and the same branches; the
    theorems say what they compute.

    ** How Go is modelled

    A function that returns a value and an error is a function to [outcome]:
    [Ok], [Err] with the message, or [Panic] (index out of range, nil
    dereference, explicit panic).  A pointer receiver that is changed is state
    that is passed in and returned; where several owners share an object (the
    counters of transactions, the operations of a jump table, the nodes of a linked
    list) it lives in a store and is named by its address.
    Integers are [Z], with the wrap-around of uint64, uint32 and, in the counters, of
    int written out; math/big integers are [Z] without bounds; float64 is Float64.v.  Byte slices
    are lists of bytes.  A map whose iteration order matters is given with the
    order as an argument.  Goroutines that communicate over channels are a
    transition system; those that only fill arrays of their own are a function.

    ** Parts and files

    - Prelude, Bytes: outcomes, folds that can fail, tactics and the hint
      database; digits in any base, big- and little-endian bytes, hexadecimal.
    - The state tree (src/smt/pkg).  SmtUtils and SmtKeys: utils.go, the keys,
      values, paths and their encodings.  SmtDb: the interface of the stores
      as the class [SmtDB] with its laws, and the stores mem-db.go and mdbx.go,
      both instances of it.  SmtTree: the specification, a canonical tree.
      Smt: smt.go, the single insertion.  SmtInsert and SmtRefine: it
      implements a finite map.  SmtProof: proof.go and traverse.
      SmtBatch: smt_batch.go, the insertion of a batch into a tree that is
      partly loaded into memory, with its nodes on a heap.  SmtBatchEntries,
      SmtBatchSpec and SmtBatchRefine: the entries, the tree in memory, and that
      a batch implements the updates of the map.  SmtSources: the records of
      where keys come from, as a class of their own.  SmtCreate: smt_create.go and
      job_queue.go, the creation of a tree from all its keys by three goroutines.
      SmtCreateSpec, SmtCreateHash and SmtCreateRefine: the tree they share, its
      hashing by jobs, and that every schedule creates the tree of the map.
    - Accounts on the state tree.  ContractHash and ContractHashSpec: the hash
      of contract code (utils.go).  EntityStorage and EntityStorageSpec:
      entity_storage.go, accounts, code and storage slots, one by one and as the
      changes of a block.  SmtReader and SmtReaderSpec: smt_state_reader.go and
      smt_utils.go, the readers of accounts, and the code tables of the stores.
      SmtMaintain: orphaned nodes and nodes of which only the hash is known
      (the end of smt.go).
    - Batches and the asynchronous commit.  MemBatch and MemBatchSpec: batches of
      writes over a transaction (src/erigon-lib/kv/membatch, the loader of
      src/erigon-lib/etl/collector.go) and the batches of the mdbx stores; a batch
      is an instance of the class of transactions, so the store over a batch is an
      instance of the store.  SmtHeap, SmtCacheList and SmtCache: src/zk/smt, a
      heap of heights with container/heap, the doubly linked list of recent blocks
      with its pointers, and the cache that records the writes of blocks and hands
      them to the workers of src/turbo/stages/stageloop_xlayer.go, as a transition
      system.  SmtCacheSpec: its invariant.
    - The block info tree.  TxHash and TxHashSpec: the hash of a transaction
      (src/zk/tx/tx.go, src/zkevm/hex, erigon-lib/common/address.go).  BlockInfo
      and BlockInfoSpec: src/smt/pkg/blockinfo, the entries of a block and the
      workers that compute them.
    - The L1 info tree (src/zk/l1infotree/tree.go, hash.go): L1InfoTree.
    - Codecs.  Rlp and RlpSpec: src/rlp, lists of byte strings.  L2Data and
      L2DataSpec: src/zk/tx/tx.go, the batch data, on top of RLP.
    - Prover counters (src/core/vm/zk_*.go, virtual_counters_util.go).
      Float64: the arithmetic of the limits.  ZkCounters: counters, collector,
      precompiles.  ZkOpcodes: every opcode, the jump table that
      NewZKEVMInterpreter copies and wraps in place, and the main loop of RunZk
      (interpreter_zkevm.go).
      ZkCountersSpec: what holds of them.  BatchCounters and BatchCountersSpec:
      transactions and batches.
    - Tables of the node (src/zk/hermez_db).  Kv: ordered tables and cursors
      of a transaction, the class [KVCursor] with its laws.  ZkTypes: stored
      records (src/zk/types, src/zk/datastream/types/ger_update.go).  HermezDb
      and HermezDbSpec: the tables and their readers and writers.

    ** What is shown

    - State tree: insertion in all its modes implements the update of a finite
      map on every lawful store, and the root is a function of the map alone;
      a Merkle proof that verifies tells the truth about the map, and the proofs
      that the code builds verify.  The batch insertion implements the same
      updates and agrees with the single one.  The creation from scratch yields
      the same tree under every schedule of its goroutines, and without
      cancellation every schedule ends.  Collision freedom of the hash is
      assumed only of the values at hand, as a hypothesis.
    - Accounts: the changes of a block become one update of the map, whatever
      the order in which the Go maps are iterated, and the source of every key
      can be read back; setting fields one by one leads to the same root; both
      versions of the code hash agree.  What a block sets is what the readers
      return, a zero where no other key answers for it.  A subtree of which only the hash is known gives the same root as
      the subtree itself.
    - Batches: inserting through a batch and committing it leaves a database that
      holds the updated tree, whatever the iteration orders.  The linked list
      implements a list of blocks, the heap yields its minimum.  With workers that
      finish in order and a sequencer that hands over batches with blocks and resets at
      most two blocks, every state that the asynchronous commit reaches reads as
      the newest writes of all blocks, and at a shutdown every schedule ends with
      everything in the database; workers that finish in another order leave older
      values.
    - Block info tree: every run of the workers ends and delivers every result,
      so the concurrent construction returns the root that the serial one
      returns; the hash of a transaction determines its fields.
    - L1 info tree: the incremental tree, the tree of a list and the computed
      proofs agree.
    - Codecs: the encoder produces the reference encoding, decoding inverts
      encoding, RLP decoding accepts only canonical input; the batch decoder
      terminates on every input, with its panics and silent truncations
      characterised.
    - Counters: an interpreter with counters leaves the shared instruction set alone
      and its runs end as those without; a run charges every counter a bounded amount
      per operation, exactly as long as the bound fits into an int, and an overflow
      lasts; the limits have bounds for every percentage; the overflow check of a batch
      is exact with respect to its transactions, those that were cleared included;
      removing a transaction undoes adding it.
    - Tables: blocks and batches are one finite map in two tables, under every
      sequence of writes and range deletions that does not move a block from one
      batch to another; rolling sequences back terminates
      and is exact; the progress of the L1 info tree is monotone; records are
      read back as written; the cache of fork blocks agrees with its table
      within a transaction and not beyond it.
    - Several theorems establish defects of the code by proof: the depth that
      is recorded by an insertion, values that a proof does not bind, batches
      that are empty or that empty the tree, a slot without a value, errors of
      workers, a creation that hangs when it is cancelled, readers that do not
      compare keys, values that are deleted as orphans, workers that overwrite
      newer values, batches that cannot be reset, rolled back or committed, a heap
      that stops the truncation, the cost of signature checks and of modular
      exponentiation, the sums that are left by clearing a batch, a block that stays in
      the list of its old batch, the byte order of one field, deletions up to the largest number.

    ** Parameters

    Poseidon and Keccak-256 are parameters [hash] and [keccak], the text of a
    uint256 number is [uint256_Hex]; the mdbx transaction is any instance of
    [KVTx] and [KVCursor]; the state of the EVM is any instance of [EVMState], and the
    original operations of the interpreter with their gas are the contents of the
    jump table, of which [operation_ok] says what is relied on.  Witnesses
    instantiate them.

    ** Recursion

    Go loops over a path, a list or a number of levels are structural.  The
    other loops have fuel, and a theorem says how much is enough: the traversal
    needs the number of nodes, the RLP and batch decoders the length of the
    input, the rollback of sequences the number of entries, a range of uint64
    the number of its elements, the loops of a batch over the bits of a key 256.
    Loops over the linked list have the number of its nodes, those of the heap the
    number of its elements, and truncation the number of confirmed heights; that
    they are enough is part of the specification of each operation.  The main loop of
    the interpreter has the number of operations to execute; its runs are compared for
    every such number, whether they have ended or not.

    ** Not modelled

    The dump of the tree only prints.  The operations of the asynchronous commit
    are single steps, as the locks make the parts of them; what can happen between
    the sending of a save and the recording of its height is left out.  The
    unwinding of the tree (unwind_smt.go) reads change sets of the core tables
    and ends in the modelled SetStorage.  The hashes of a batch are sent to a consumer goroutine, which is modelled as a list in
    the order of sending.  Of the interpreter, extra EIPs, tracers and the deferred
    second execution of the last opcode after an error are left out; the nested runs of
    calls are part of the original operations.  RLP by reflection on arbitrary Go types, signatures and
    sender recovery are not modelled.  Of hermez_db, the functions that delete
    while a cursor is open depend on how mdbx moves such a cursor and are left
    out, as are witnesses, versions and JSON values.  The data stream, the L1
    clients, the stages, the pool, the RPC handlers and the real-time feed are
    input and output around these parts, and the rest is the upstream client. *)

From stdpp Require Export base list list_numbers gmap strings.
From Stdlib Require Export ZArith Lia ZifyNat ZifyBool.

#[export] Set Default Goal Selector "!".

(** * Outcomes of Go code

    A Go function that returns [(value, error)] ends in one of three ways: it
    returns a value, it returns an error, or it panics (index out of range,
    nil dereference). *)

Inductive outcome (A : Type) : Type :=
| Ok (a : A)
| Err (msg : string)
| Panic.
Arguments Ok {A} a.
Arguments Err {A} msg.
Arguments Panic {A}.

#[export] Instance outcome_ret : MRet outcome := λ A a, Ok a.

#[export] Instance outcome_bind : MBind outcome := λ A B f m,
  match m with
  | Ok a => f a
  | Err e => Err e
  | Panic => Panic
  end.

#[export] Instance outcome_fmap : FMap outcome := λ A B f m,
  match m with
  | Ok a => Ok (f a)
  | Err e => Err e
  | Panic => Panic
  end.

#[export] Instance outcome_eq_dec {A} `{EqDecision A} : EqDecision (outcome A).
Proof. solve_decision. Defined.

Definition is_ok {A} (m : outcome A) : bool :=
  match m with Ok _ => true | _ => false end.

Definition is_panic {A} (m : outcome A) : bool :=
  match m with Panic => true | _ => false end.

(** [go_index l i] is [l[i]]; [go_slice l a b] is [l[a:b]] for a slice whose
    capacity equals its length (or an array, or a string). *)

Definition go_index {A} (l : list A) (i : Z) : outcome A :=
  if (i <? 0)%Z then Panic
  else match l !! Z.to_nat i with Some x => Ok x | None => Panic end.

Definition go_slice {A} (l : list A) (lo hi : Z) : outcome (list A) :=
  if ((0 <=? lo) && (lo <=? hi) && (hi <=? Z.of_nat (length l)))%Z
  then Ok (take (Z.to_nat (hi - lo)) (drop (Z.to_nat lo) l))
  else Panic.

(** Loops whose body may fail: [for _, x := range l { s = f(s, x) }]. *)

Fixpoint foldM {A S} (f : S → A → outcome S) (s : S) (l : list A) : outcome S :=
  match l with
  | [] => Ok s
  | x :: l => s' ← f s x; foldM f s' l
  end.

(** * Tactics and hint databases *)

Create HintDb words.
#[export] Hint Extern 5 (_ ≤ _)%nat => lia : words.
#[export] Hint Extern 5 (_ < _)%nat => lia : words.
#[export] Hint Extern 5 (_ ≤ _)%Z => lia : words.
#[export] Hint Extern 5 (_ < _)%Z => lia : words.
#[export] Hint Extern 5 (_ = _ :> nat) => lia : words.

(** [split_auto] closes conjunctions of side conditions. *)
Ltac split_auto := split_and?; auto with words.

(** [inv_ok] turns hypotheses about successful runs into equations on the
    intermediate results. *)
Ltac inv_ok :=
  repeat match goal with
  | H : Ok _ = Ok _ |- _ => injection H as H; subst
  | H : Ok _ = Err _ |- _ => discriminate H
  | H : Ok _ = Panic |- _ => discriminate H
  | H : Err _ = Ok _ |- _ => discriminate H
  | H : Panic = Ok _ |- _ => discriminate H
  | H : mbind _ ?m = Ok _ |- _ =>
      let E := fresh "E" in destruct m eqn:E; simpl in H
  end.

(** [case_bool] splits on the first boolean test of the goal, giving the
    proposition it decides. *)
Ltac case_bool :=
  match goal with
  | |- context [ if (?a <? ?b)%Z then _ else _ ] => destruct (Z.ltb_spec a b)
  | |- context [ if (?a <=? ?b)%Z then _ else _ ] => destruct (Z.leb_spec a b)
  | |- context [ if (?a =? ?b)%Z then _ else _ ] => destruct (Z.eqb_spec a b)
  end.

(** [zlia] is [lia] with Euclidean division and remainder by constants. *)
Ltac zlia := zify; Z.to_euclidean_division_equations; lia.

(** * Generic lemmas *)

Lemma bind_Ok {A B} (a : A) (f : A → outcome B) : (Ok a ≫= f) = f a.
Proof. done. Qed.

Lemma bind_Ok_inv {A B} (x : outcome A) (f : A → outcome B) b : x ≫= f = Ok b → ∃ a, x = Ok a ∧ f a = Ok b.
Proof. destruct x as [a| |]; [|done..]. by exists a. Qed.

Lemma fmap_Ok {A B} (a : A) (f : A → B) : f <$> Ok a = Ok (f a).
Proof. done. Qed.

(** [go_step E] runs one call of a sequence of fallible calls, whose outcome
    is given by [E]. *)
Ltac go_step E := rewrite E, bind_Ok; cbn beta iota.

Lemma go_index_lookup {A} (l : list A) (i : nat) x :
  l !! i = Some x → go_index l (Z.of_nat i) = Ok x.
Proof.
  intros H. unfold go_index. case_bool; [lia|]. by rewrite Nat2Z.id, H.
Qed.

Lemma go_index_panic {A} (l : list A) (i : Z) :
  (i < 0 ∨ Z.of_nat (length l) ≤ i)%Z → go_index l i = Panic.
Proof.
  intros H. unfold go_index. case_bool; [done|].
  rewrite lookup_ge_None_2; [done|lia].
Qed.

Lemma go_slice_ok {A} (l : list A) (lo hi : Z) :
  (0 ≤ lo ≤ hi)%Z → (hi ≤ Z.of_nat (length l))%Z →
  go_slice l lo hi = Ok (take (Z.to_nat (hi - lo)) (drop (Z.to_nat lo) l)).
Proof.
  intros H1 H2. unfold go_slice.
  rewrite (proj2 (Z.leb_le 0 lo)), (proj2 (Z.leb_le lo hi)),
    (proj2 (Z.leb_le hi _)) by lia. done.
Qed.

Lemma go_slice_panic {A} (l : list A) (lo hi : Z) :
  (Z.of_nat (length l) < hi)%Z → go_slice l lo hi = Panic.
Proof.
  intros H. unfold go_slice. rewrite (proj2 (Z.leb_gt hi _)) by done. by rewrite !Bool.andb_false_r.
Qed.

Lemma go_slice_app {A} (a b c : list A) (lo hi : Z) :
  lo = Z.of_nat (length a) → hi = Z.of_nat (length a + length b) →
  go_slice (a ++ b ++ c) lo hi = Ok b.
Proof.
  intros -> ->. rewrite go_slice_ok; [|lia|rewrite !length_app; lia].
  rewrite Nat2Z.id, drop_app_length, take_app_le by lia.
  by rewrite take_ge by lia.
Qed.

Lemma Forall_take_drop {A} (P : A → Prop) n m l :
  Forall P l → Forall P (take n (drop m l)).
Proof. intros H. by apply Forall_take, Forall_drop. Qed.

Lemma foldM_app {A S} (f : S → A → outcome S) s l1 l2 :
  foldM f s (l1 ++ l2) = (s' ← foldM f s l1; foldM f s' l2).
Proof.
  revert s. induction l1 as [|x l1 IH]; intros s; simpl; [done|].
  destruct (f s x); simpl; done.
Qed.

(** A fold whose step keeps an invariant and never fails, never fails. *)
Lemma foldM_invariant {A S} (f : S → A → outcome S) (I : S → Prop)
    (P : A → Prop) s l :
  I s → Forall P l →
  (∀ s x, I s → P x → ∃ s', f s x = Ok s' ∧ I s') →
  ∃ s', foldM f s l = Ok s' ∧ I s'.
Proof.
  intros Hs Hl Hf. revert s Hs.
  induction Hl as [|x l Hx _ IH]; intros s Hs; simpl; [by exists s|].
  destruct (Hf s x Hs Hx) as (s' & -> & Hs'). simpl. by apply IH.
Qed.

Lemma fmap_rev {A B} (f : A → B) (l : list A) : f <$> rev l = rev (f <$> l).
Proof. induction l as [|x l IH]; [done|]. csimpl. by rewrite fmap_app, IH. Qed.
