(* ===== verification/Bytes.v ===== *)
(** Machine words, bytes and digits: the parts of the Go language and of its
    standard library (encoding/binary, math/big, encoding/hex) that the
    components use.

    A [w]-bit unsigned integer is a [Z] in range, wrap-around written out as
    [mod 2 ^ w]; a byte slice is a [list Byte.byte]; [math/big] integers are
    [Z].  Positional notation is developed once, for an arbitrary base
    ([le_digits]), and used at base 256 (byte strings), 16 (hexadecimal text)
    and 2^32 and 2^64 (the limb arrays of the sparse Merkle tree). *)

From S2P Require Import Prelude.
From Stdlib Require Import Strings.Byte.
From Stdlib Require Export Strings.Ascii.

Local Open Scope Z_scope.

(** * Word ranges *)

Definition u8 (x : Z) : Z := x mod 2 ^ 8.
Definition u16 (x : Z) : Z := x mod 2 ^ 16.
Definition u32 (x : Z) : Z := x mod 2 ^ 32.
Definition u64 (x : Z) : Z := x mod 2 ^ 64.

Definition is_u8 (x : Z) : Prop := 0 ≤ x < 2 ^ 8.
Definition is_u16 (x : Z) : Prop := 0 ≤ x < 2 ^ 16.
Definition is_u32 (x : Z) : Prop := 0 ≤ x < 2 ^ 32.
Definition is_u64 (x : Z) : Prop := 0 ≤ x < 2 ^ 64.

#[export] Instance is_u8_dec x : Decision (is_u8 x).
Proof. unfold is_u8. apply _. Defined.
#[export] Instance is_u16_dec x : Decision (is_u16 x).
Proof. unfold is_u16. apply _. Defined.
#[export] Instance is_u32_dec x : Decision (is_u32 x).
Proof. unfold is_u32. apply _. Defined.
#[export] Instance is_u64_dec x : Decision (is_u64 x).
Proof. unfold is_u64. apply _. Defined.

Lemma u64_range x : is_u64 (u64 x).
Proof. unfold is_u64, u64. apply Z.mod_pos_bound. lia. Qed.

Lemma u64_small x : is_u64 x → u64 x = x.
Proof. intros H. apply Z.mod_small, H. Qed.

Lemma u32_small x : is_u32 x → u32 x = x.
Proof. intros H. apply Z.mod_small, H. Qed.

(** * Digits in an arbitrary base, least significant first *)

Fixpoint le_digits (b : Z) (n : nat) (z : Z) : list Z :=
  match n with
  | O => []
  | S n => z mod b :: le_digits b n (z / b)
  end.

Fixpoint le_value (b : Z) (ds : list Z) : Z :=
  match ds with
  | [] => 0
  | d :: ds => d + b * le_value b ds
  end.

Lemma length_le_digits b n z : length (le_digits b n z) = n.
Proof. revert z. induction n; intros z; simpl; auto. Qed.

Lemma le_digits_range b n z :
  0 < b → Forall (λ d, 0 ≤ d < b) (le_digits b n z).
Proof.
  intros Hb. revert z. induction n as [|n IH]; intros z; simpl; constructor; auto.
  by apply Z.mod_pos_bound.
Qed.

Lemma le_value_digits b n z :
  0 < b → le_value b (le_digits b n z) = z mod b ^ Z.of_nat n.
Proof.
  intros Hb. revert z. induction n as [|n IH]; intros z; simpl le_digits.
  - by rewrite Z.mod_1_r.
  - cbn [le_value]. rewrite IH, Nat2Z.inj_succ, Z.pow_succ_r by lia.
    by rewrite Z.rem_mul_r by (try lia; by apply Z.pow_pos_nonneg; lia).
Qed.

Lemma le_value_digits_small b n z :
  0 < b → 0 ≤ z < b ^ Z.of_nat n → le_value b (le_digits b n z) = z.
Proof. intros Hb Hz. rewrite le_value_digits by done. by apply Z.mod_small. Qed.

Lemma le_value_range b ds :
  0 < b → Forall (λ d, 0 ≤ d < b) ds → 0 ≤ le_value b ds < b ^ Z.of_nat (length ds).
Proof.
  intros Hb. induction 1 as [|d ds Hd _ IH]; [simpl; lia|].
  cbn [le_value length]. rewrite Nat2Z.inj_succ, Z.pow_succ_r by lia. nia.
Qed.

Lemma le_digits_value b ds :
  0 < b → Forall (λ d, 0 ≤ d < b) ds → le_digits b (length ds) (le_value b ds) = ds.
Proof.
  intros Hb. induction 1 as [|d ds Hd _ IH]; [done|].
  cbn [le_value length le_digits]. f_equal.
  - rewrite Z.mul_comm, Z.mod_add by lia. by apply Z.mod_small.
  - rewrite Z.mul_comm, Z.div_add, Z.div_small by lia. by rewrite Z.add_0_l.
Qed.

Lemma le_digits_value' b n ds :
  0 < b → Forall (λ d, 0 ≤ d < b) ds → length ds = n →
  le_digits b n (le_value b ds) = ds.
Proof. intros Hb H <-. by apply le_digits_value. Qed.

Lemma le_value_app b ds es :
  0 < b →
  le_value b (ds ++ es) = le_value b ds + b ^ Z.of_nat (length ds) * le_value b es.
Proof.
  intros Hb. induction ds as [|d ds IH]; [simpl app; simpl length; cbn [le_value]; lia|].
  cbn [app le_value length]. rewrite IH, Nat2Z.inj_succ, Z.pow_succ_r by lia. ring.
Qed.

Lemma le_value_inj b ds es :
  0 < b → length ds = length es →
  Forall (λ d, 0 ≤ d < b) ds → Forall (λ d, 0 ≤ d < b) es →
  le_value b ds = le_value b es → ds = es.
Proof.
  intros Hb Hl Hd He H.
  rewrite <-(le_digits_value b ds), <-(le_digits_value b es) by done.
  by rewrite Hl, H.
Qed.

Lemma le_digits_mod b n z :
  0 < b → le_digits b n (z mod b ^ Z.of_nat n) = le_digits b n z.
Proof.
  intros Hb. apply (le_value_inj b); auto using le_digits_range.
  - by rewrite !length_le_digits.
  - rewrite !le_value_digits by done. rewrite Z.mod_mod; [done|].
    apply Z.pow_nonzero; lia.
Qed.

Lemma le_value_zeros b n : le_value b (replicate n 0) = 0.
Proof. induction n; simpl; lia. Qed.

Lemma lookup_le_digits b n z i :
  0 < b → (i < n)%nat →
  le_digits b n z !! i = Some (z / b ^ Z.of_nat i mod b).
Proof.
  intros Hb. revert n z. induction i as [|i IH]; intros [|n] z Hi; try lia; simpl le_digits.
  - simpl. by rewrite Z.div_1_r.
  - change ((z mod b :: le_digits b n (z / b)) !! S i)
      with (le_digits b n (z / b) !! i).
    rewrite IH by lia. rewrite Nat2Z.inj_succ, Z.pow_succ_r by lia.
    rewrite Z.div_div; [done|lia|]. apply Z.pow_pos_nonneg; lia.
Qed.

(** * Bytes *)

Definition bz (b : byte) : Z := Z.of_N (Byte.to_N b).

Definition zb (z : Z) : byte :=
  match Byte.of_N (Z.to_N (z mod 256)) with Some b => b | None => x00 end.

Lemma bz_range b : 0 ≤ bz b < 256.
Proof. unfold bz. pose proof (Byte.to_N_bounded b). lia. Qed.

Lemma bz_zb z : bz (zb z) = z mod 256.
Proof.
  unfold bz, zb. pose proof (Z.mod_pos_bound z 256 ltac:(lia)) as Hz.
  destruct (Byte.of_N (Z.to_N (z mod 256))) as [b|] eqn:E.
  - apply Byte.to_of_N in E. rewrite E. lia.
  - apply Byte.of_N_None_iff in E. lia.
Qed.

Lemma zb_bz b : zb (bz b) = b.
Proof.
  unfold zb. rewrite Z.mod_small by apply bz_range.
  unfold bz. by rewrite N2Z.id, Byte.of_to_N.
Qed.

Lemma bz_inj a b : bz a = bz b → a = b.
Proof. intros H. by rewrite <-(zb_bz a), <-(zb_bz b), H. Qed.

#[export] Instance byte_eq_dec : EqDecision byte.
Proof. intros a b. destruct (Byte.byte_eq_dec a b); [by left|by right]. Defined.

#[export] Instance byte_countable : Countable byte.
Proof. refine (inj_countable Byte.to_N Byte.of_N _). apply Byte.of_to_N. Defined.

(** Little- and big-endian fixed-width encodings (encoding/binary) and the
    value of a big-endian byte string ([big.Int.SetBytes]). *)

Definition le_bytes (n : nat) (z : Z) : list byte := zb <$> le_digits 256 n z.
Definition be_bytes (n : nat) (z : Z) : list byte := rev (le_bytes n z).
Definition le_val (bs : list byte) : Z := le_value 256 (bz <$> bs).
Definition be_val (bs : list byte) : Z := le_val (rev bs).

Lemma length_le_bytes n z : length (le_bytes n z) = n.
Proof. unfold le_bytes. by rewrite length_fmap, length_le_digits. Qed.

Lemma length_be_bytes n z : length (be_bytes n z) = n.
Proof. unfold be_bytes. by rewrite length_rev, length_le_bytes. Qed.

Lemma bz_fmap_range (bs : list byte) : Forall (λ d, 0 ≤ d < 256) (bz <$> bs).
Proof. apply Forall_fmap, Forall_true, bz_range. Qed.

Lemma bz_zb_digits (ds : list Z) : Forall (λ d, 0 ≤ d < 256) ds → bz <$> (zb <$> ds) = ds.
Proof.
  induction 1 as [|d ds Hd _ IH]; [done|]. csimpl. rewrite IH, bz_zb.
  by rewrite Z.mod_small.
Qed.

Lemma zb_bz_list (bs : list byte) : zb <$> (bz <$> bs) = bs.
Proof. induction bs as [|b bs IH]; [done|]. csimpl. by rewrite IH, zb_bz. Qed.

Lemma le_val_bytes n z : le_val (le_bytes n z) = z mod 256 ^ Z.of_nat n.
Proof.
  unfold le_val, le_bytes. rewrite bz_zb_digits by (apply le_digits_range; lia).
  by apply le_value_digits.
Qed.

Lemma le_bytes_val bs : le_bytes (length bs) (le_val bs) = bs.
Proof.
  unfold le_bytes, le_val.
  rewrite <-(length_fmap bz bs), le_digits_value by (lia || apply bz_fmap_range).
  apply zb_bz_list.
Qed.

Lemma be_val_bytes n z : be_val (be_bytes n z) = z mod 256 ^ Z.of_nat n.
Proof. unfold be_val, be_bytes. by rewrite rev_involutive, le_val_bytes. Qed.

Lemma be_bytes_val bs : be_bytes (length bs) (be_val bs) = bs.
Proof.
  unfold be_bytes, be_val. rewrite <-length_rev, le_bytes_val. apply rev_involutive.
Qed.

Lemma be_bytes_val' n bs : length bs = n → be_bytes n (be_val bs) = bs.
Proof. intros <-. apply be_bytes_val. Qed.

Lemma le_bytes_val' n bs : length bs = n → le_bytes n (le_val bs) = bs.
Proof. intros <-. apply le_bytes_val. Qed.

Lemma le_val_range bs : 0 ≤ le_val bs < 256 ^ Z.of_nat (length bs).
Proof.
  unfold le_val. rewrite <-(length_fmap bz bs). apply le_value_range; [lia|].
  apply bz_fmap_range.
Qed.

Lemma be_val_range bs : 0 ≤ be_val bs < 256 ^ Z.of_nat (length bs).
Proof. unfold be_val. rewrite <-length_rev. apply le_val_range. Qed.

Lemma le_val_app a b : le_val (a ++ b) = le_val a + 256 ^ Z.of_nat (length a) * le_val b.
Proof. unfold le_val. rewrite fmap_app, le_value_app by lia. by rewrite length_fmap. Qed.

Lemma be_val_app a b : be_val (a ++ b) = be_val a * 256 ^ Z.of_nat (length b) + be_val b.
Proof. unfold be_val. rewrite rev_app_distr, le_val_app, length_rev. ring. Qed.

Lemma be_val_cons a b : be_val (a :: b) = bz a * 256 ^ Z.of_nat (length b) + be_val b.
Proof.
  change (a :: b) with ([a] ++ b). rewrite be_val_app. f_equal. f_equal.
  unfold be_val, le_val. cbn. lia.
Qed.

Lemma le_val_zeros n : le_val (replicate n x00) = 0.
Proof.
  unfold le_val. rewrite fmap_replicate. change (bz x00) with 0. apply le_value_zeros.
Qed.

Lemma rev_replicate {A} n (x : A) : rev (replicate n x) = replicate n x.
Proof. induction n as [|n IH]; [done|]. simpl. by rewrite IH, <-replicate_cons_app. Qed.

Lemma be_val_zeros_app n bs : be_val (replicate n x00 ++ bs) = be_val bs.
Proof.
  rewrite be_val_app. unfold be_val at 1. rewrite rev_replicate, le_val_zeros. lia.
Qed.

(** * Minimal representations *)

(** The number of base-[2^w] digits of [z], none for 0. *)
Definition ndigits (w z : Z) : nat :=
  if z <=? 0 then 0%nat else Z.to_nat (Z.log2 z / w + 1).

Lemma ndigits_bound w z : 0 < w → 0 ≤ z → z < (2 ^ w) ^ Z.of_nat (ndigits w z).
Proof.
  intros Hw Hz. unfold ndigits. destruct (Z.leb_spec z 0) as [H|H].
  - replace z with 0 by lia. simpl. lia.
  - assert (0 ≤ Z.log2 z / w) by (apply Z.div_pos; [apply Z.log2_nonneg|lia]).
    rewrite Z2Nat.id, <-Z.pow_mul_r by lia.
    apply Z.lt_le_trans with (2 ^ (Z.log2 z + 1)).
    + pose proof (Z.log2_spec z H). rewrite <-Z.add_1_r in *. lia.
    + apply Z.pow_le_mono_r; [lia|].
      pose proof (Z.mul_succ_div_gt (Z.log2 z) w Hw). lia.
Qed.

Lemma ndigits_ub w n z : 0 < w → z < (2 ^ w) ^ Z.of_nat n → (ndigits w z ≤ n)%nat.
Proof.
  intros Hw Hz. unfold ndigits. destruct (Z.leb_spec z 0) as [H|H]; [lia|].
  rewrite <-Z.pow_mul_r in Hz by lia.
  assert (Z.log2 z < w * Z.of_nat n) as Hl.
  { destruct (Z.lt_ge_cases (Z.log2 z) (w * Z.of_nat n)) as [|Hge]; [done|].
    apply (Z.pow_le_mono_r 2) in Hge; [|lia]. pose proof (Z.log2_spec z H). lia. }
  assert (0 ≤ Z.log2 z / w) by (apply Z.div_pos; [apply Z.log2_nonneg|lia]).
  apply Nat2Z.inj_le. rewrite Z2Nat.id by lia.
  enough (Z.log2 z / w < Z.of_nat n) by lia.
  apply Z.div_lt_upper_bound; lia.
Qed.

Lemma le_value_min_digits w z :
  0 < w → 0 ≤ z → le_value (2 ^ w) (le_digits (2 ^ w) (ndigits w z) z) = z.
Proof.
  intros Hw Hz. apply le_value_digits_small.
  - apply Z.pow_pos_nonneg; lia.
  - split; [done|]. by apply ndigits_bound.
Qed.

(** [big.Int.Bytes]: the minimal big-endian bytes of the absolute value. *)
Definition big_bytes (z : Z) : list byte := be_bytes (ndigits 8 (Z.abs z)) (Z.abs z).

Lemma be_val_big_bytes z : 0 ≤ z → be_val (big_bytes z) = z.
Proof.
  intros Hz. unfold big_bytes. rewrite Z.abs_eq, be_val_bytes by done.
  apply Z.mod_small. split; [done|]. by apply (ndigits_bound 8).
Qed.

Lemma length_big_bytes z n :
  0 ≤ z < 256 ^ Z.of_nat n → (length (big_bytes z) ≤ n)%nat.
Proof.
  intros Hz. unfold big_bytes. rewrite length_be_bytes, Z.abs_eq by lia.
  apply ndigits_ub; [lia|]. apply Hz.
Qed.

(** [big.Int.FillBytes]: fixed-width big-endian bytes; panics when too wide. *)
Definition fill_bytes (n : nat) (z : Z) : outcome (list byte) :=
  if (ndigits 8 (Z.abs z) <=? n)%nat then Ok (be_bytes n (Z.abs z)) else Panic.

(** * Hexadecimal text *)

Definition hextable : list ascii := String.list_ascii_of_string "0123456789abcdef".

Definition hex_char (d : Z) : ascii := default "0"%char (hextable !! Z.to_nat d).

Definition ascii_z (c : ascii) : Z := Z.of_nat (Ascii.nat_of_ascii c).

(** The table of [hex.Decode] and [strconv.ParseUint(_, 16, _)]: digits and
    letters of both cases. *)
Definition hex_val (c : ascii) : option Z :=
  let n := ascii_z c in
  if (48 <=? n) && (n <=? 57) then Some (n - 48)
  else if (97 <=? n) && (n <=? 102) then Some (n - 87)
  else if (65 <=? n) && (n <=? 70) then Some (n - 55)
  else None.

Lemma hex_val_char d : 0 ≤ d < 16 → hex_val (hex_char d) = Some d.
Proof.
  intros Hd.
  assert (Forall (λ d, hex_val (hex_char d) = Some d) (seqZ 0 16)) as H
    by (vm_compute; repeat constructor).
  rewrite Forall_forall in H. apply H, elem_of_seqZ. lia.
Qed.

(** [big.Int.Append(_, 16)] of a non-negative integer. *)
Definition big_hex (z : Z) : list ascii :=
  if z =? 0 then ["0"%char]
  else hex_char <$> rev (le_digits 16 (ndigits 4 z) z).

(** The value of a hexadecimal text, [None] on a bad character. *)
Definition hex_value (cs : list ascii) : option Z :=
  le_value 16 <$> mapM hex_val (rev cs).

Lemma mapM_hex_val_char ds :
  Forall (λ d, 0 ≤ d < 16) ds → mapM hex_val (hex_char <$> ds) = Some ds.
Proof.
  induction 1 as [|d ds Hd _ IH]; [done|].
  change (mapM hex_val (hex_char <$> d :: ds))
    with (y ← hex_val (hex_char d); ys ← mapM hex_val (hex_char <$> ds); Some (y :: ys)).
  by rewrite IH, hex_val_char.
Qed.

Lemma hex_value_big_hex z : 0 ≤ z → hex_value (big_hex z) = Some z.
Proof.
  intros Hz. unfold hex_value, big_hex. destruct (Z.eqb_spec z 0) as [->|Hne]; [done|].
  rewrite fmap_rev, rev_involutive, mapM_hex_val_char by (apply le_digits_range; lia).
  simpl. f_equal. by apply (le_value_min_digits 4).
Qed.

Lemma big_hex_inj a b : 0 ≤ a → 0 ≤ b → big_hex a = big_hex b → a = b.
Proof.
  intros Ha Hb H. apply (f_equal hex_value) in H.
  rewrite !hex_value_big_hex in H by done. by injection H.
Qed.

(** * Fixed-size byte arrays (erigon-lib/common) *)

(** [SetBytes] of an [n]-byte array: cropped from the left, left-padded with zeros. *)
Definition set_bytes (n : nat) (b : list byte) : list byte :=
  let b := if (n <? length b)%nat then drop (length b - n) b else b in
  replicate (n - length b) x00 ++ b.

Definition BytesToHash (b : list byte) : list byte := set_bytes 32 b.
Definition BytesToAddress (b : list byte) : list byte := set_bytes 20 b.
Definition BigToHash (z : Z) : list byte := BytesToHash (big_bytes z).
Definition BigToAddress (z : Z) : list byte := BytesToAddress (big_bytes z).

Lemma length_set_bytes n b : length (set_bytes n b) = n.
Proof.
  unfold set_bytes. destruct (Nat.ltb_spec n (length b));
    rewrite length_app, length_replicate, ?length_drop; lia.
Qed.

Lemma set_bytes_id n b : length b = n → set_bytes n b = b.
Proof.
  intros <-. unfold set_bytes. rewrite Nat.ltb_irrefl, Nat.sub_diag. done.
Qed.

Lemma set_bytes_big_bytes n z : 0 ≤ z < 256 ^ Z.of_nat n → set_bytes n (big_bytes z) = be_bytes n z.
Proof.
  intros Hz. transitivity (be_bytes n (be_val (set_bytes n (big_bytes z)))).
  { symmetry. apply be_bytes_val', length_set_bytes. }
  f_equal. unfold set_bytes. pose proof (length_big_bytes z n Hz).
  rewrite (proj2 (Nat.ltb_ge n _)) by lia. rewrite be_val_zeros_app. apply be_val_big_bytes, Hz.
Qed.
