(* ===== verification/SmtUtils.v ===== *)
(** The data types and bit-level helpers of the sparse Merkle tree:
    src/smt/pkg/utils/utils.go and utils_xlayer.go.

    A [NodeKey] is the Go array [4]uint64; a [NodeValue8] or [NodeValue12] is
    an array of *big.Int, [None] standing for a nil pointer.  A key names a
    path of 256 bits, bit [j] of the path being bit [j / 4] of limb [j mod 4].
    The theorems of this file say what GetPath, RemoveKeyBits, JoinKey and
    NodeKeyFromPath do to these bits, that the conversions between scalars and
    limb arrays are inverse to each other, and that the optimised conversions
    agree with the reference ones. *)

From S2P Require Import Prelude Bytes.
From Stdlib Require Import Strings.Byte.

Local Open Scope Z_scope.

(** * Types *)

Record NodeKey := NK { nk0 : Z; nk1 : Z; nk2 : Z; nk3 : Z }.

#[export] Instance NodeKey_eq_dec : EqDecision NodeKey.
Proof. solve_decision. Defined.

#[export] Instance NodeKey_countable : Countable NodeKey.
Proof.
  refine (inj_countable' (λ k, (nk0 k, nk1 k, nk2 k, nk3 k))
    (λ '(a, b, c, d), NK a b c d) _). by intros [].
Defined.

#[export] Instance NodeKey_inhabited : Inhabited NodeKey := populate (NK 0 0 0 0).

Definition NodeValue8 : Type := list (option Z).
Definition NodeValue12 : Type := list (option Z).

Definition nk_list (k : NodeKey) : list Z := [nk0 k; nk1 k; nk2 k; nk3 k].

Definition nk_get (k : NodeKey) (i : nat) : Z := nth i (nk_list k) 0.

Definition nk_zero : NodeKey := NK 0 0 0 0.

Definition nk_wf (k : NodeKey) : Prop := Forall is_u64 (nk_list k).

#[export] Instance nk_wf_dec k : Decision (nk_wf k).
Proof. unfold nk_wf. apply _. Defined.

Definition LeafCapacity : NodeKey := NK 1 0 0 0.
Definition BranchCapacity : NodeKey := NK 0 0 0 0.

Definition KEY_BALANCE : Z := 0.
Definition KEY_NONCE : Z := 1.
Definition SC_CODE : Z := 2.
Definition SC_STORAGE : Z := 3.
Definition SC_LENGTH : Z := 4.

(** [big.Int.Uint64]: the low 64 bits of the absolute value. *)
Definition big_uint64 (z : Z) : Z := u64 (Z.abs z).

(** * NodeKey *)

Definition NodeKey_IsZero (k : NodeKey) : bool :=
  (nk0 k =? 0) && (nk1 k =? 0) && (nk2 k =? 0) && (nk3 k =? 0).

Definition NodeKey_IsEqualTo (k k2 : NodeKey) : bool :=
  (nk0 k =? nk0 k2) && (nk1 k =? nk1 k2) && (nk2 k =? nk2 k2) && (nk3 k =? nk3 k2).

(** The loop of GetPath: [n] rounds, each taking the low bit of the four limbs. *)
Fixpoint GetPath_loop (n : nat) (auxk : NodeKey) : list Z :=
  match n with
  | O => []
  | S n =>
      [Z.land (nk0 auxk) 1; Z.land (nk1 auxk) 1; Z.land (nk2 auxk) 1; Z.land (nk3 auxk) 1]
      ++ GetPath_loop n (NK (Z.shiftr (nk0 auxk) 1) (Z.shiftr (nk1 auxk) 1)
                            (Z.shiftr (nk2 auxk) 1) (Z.shiftr (nk3 auxk) 1))
  end.

Definition GetPath (nk : NodeKey) : list Z := GetPath_loop 64 nk.

(** Array update [a[i] = x] on a four-element array. *)
Definition nk_set (k : NodeKey) (i : nat) (x : Z) : NodeKey :=
  match i with
  | 0%nat => NK x (nk1 k) (nk2 k) (nk3 k)
  | 1%nat => NK (nk0 k) x (nk2 k) (nk3 k)
  | 2%nat => NK (nk0 k) (nk1 k) x (nk3 k)
  | 3%nat => NK (nk0 k) (nk1 k) (nk2 k) x
  | _ => k
  end.

Fixpoint NodeKeyFromPath_loop (j : nat) (path : list Z) (res : NodeKey) : NodeKey :=
  match path with
  | [] => res
  | p :: path =>
      let i := (j mod 4)%nat in
      let k := Z.of_nat (j / 4) in
      NodeKeyFromPath_loop (S j) path
        (nk_set res i (Z.lor (nk_get res i) (u64 (Z.shiftl (u64 p) k))))
  end.

Definition NodeKeyFromPath (path : list Z) : outcome NodeKey :=
  if negb (length path =? 256)%nat then Err "path is not 256 bits"
  else Ok (NodeKeyFromPath_loop 0 path nk_zero).

Definition RemoveKeyBits (k : NodeKey) (nBits : Z) : NodeKey :=
  let fullLevels := Z.quot nBits 4 in
  let n i := if fullLevels * 4 + i <? nBits then fullLevels + 1 else fullLevels in
  NK (Z.shiftr (nk0 k) (n 0)) (Z.shiftr (nk1 k) (n 1))
     (Z.shiftr (nk2 k) (n 2)) (Z.shiftr (nk3 k) (n 3)).

Fixpoint JoinKey_loop (i : nat) (usedBits : list Z) (n accs : NodeKey) : NodeKey * NodeKey :=
  match usedBits with
  | [] => (n, accs)
  | b :: usedBits =>
      let c := (i mod 4)%nat in
      let accs' :=
        if b =? 1 then nk_set accs c (Z.lor (nk_get accs c) (u64 (Z.shiftl 1 (nk_get n c))))
        else accs in
      JoinKey_loop (S i) usedBits (nk_set n c (nk_get n c + 1)) accs'
  end.

Definition JoinKey (usedBits : list Z) (remainingKey : NodeKey) : NodeKey :=
  let '(n, accs) := JoinKey_loop 0 usedBits nk_zero nk_zero in
  let auxk i := Z.lor (u64 (Z.shiftl (nk_get remainingKey i) (nk_get n i))) (nk_get accs i) in
  NK (auxk 0%nat) (auxk 1%nat) (auxk 2%nat) (auxk 3%nat).

(** * Node values *)

Definition NodeValue8_IsZero (nv : NodeValue8) : bool :=
  forallb (λ o, match o with Some z => big_uint64 z =? 0 | None => false end) nv.

Definition ToUintArray (nv : NodeValue8) : list Z :=
  (λ o, match o with Some z => big_uint64 z | None => 0 end) <$> nv.

(** NodeKeyFromBigIntArray on a slice of (at most) four elements. *)
Definition NodeKeyFromBigIntArray (arr : list (option Z)) : NodeKey :=
  let get i := match arr !! i with Some (Some v) => big_uint64 v | _ => 0 end in
  NK (get 0%nat) (get 1%nat) (get 2%nat) (get 3%nat).

(** The slice [nv[4*q : 4*q+4]] read as a key. *)
Definition quarter (nv : NodeValue12) (q : nat) : NodeKey :=
  NodeKeyFromBigIntArray (take 4 (drop (4 * q) nv)).

Definition IsUniqueSibling (nv : NodeValue12) : Z :=
  let step '(count, fnd) i :=
    if NodeKey_IsZero (quarter nv i) then (count, fnd) else (count + 1, Z.of_nat i) in
  let '(count, fnd) := foldl step (0, 0) (seq 0 3) in
  if count =? 1 then fnd else -1.

Definition IsFinalNode (nv : NodeValue12) : bool :=
  match nv !! 8%nat with Some (Some z) => z =? 1 | _ => false end.

(** SetHalfValue, and the loops [siblings[level][keys[level]*4+j] = h[j]]. *)
Definition set_quarter (nv : NodeValue12) (q : nat) (h : NodeKey) : NodeValue12 :=
  <[(4 * q)%nat := Some (nk0 h)]> (<[(4 * q + 1)%nat := Some (nk1 h)]>
    (<[(4 * q + 2)%nat := Some (nk2 h)]> (<[(4 * q + 3)%nat := Some (nk3 h)]> nv))).

Definition ConcatArrays4 (a b : NodeKey) : list Z := nk_list a ++ nk_list b.

Definition ConcatArrays8AndCapacityByPointers (inn : list Z) (capacity : NodeKey) : NodeValue12 :=
  (Some <$> inn) ++ (Some <$> nk_list capacity).

Definition Value8FromBigIntArray (arr : list (option Z)) : NodeValue8 :=
  take 8 (arr ++ replicate 8 None).

Definition NodeValue8FromBigIntArray (arr : list (option Z)) : outcome NodeValue8 :=
  if negb (length arr =? 8)%nat then Err "invalid array length" else Ok arr.

(** * The bits of a key *)

(** Bit [j] of the path of [k]. *)
Definition keybit (k : NodeKey) (j : nat) : bool :=
  Z.testbit (nk_get k (j mod 4)) (Z.of_nat (j / 4)).

(** How many of the positions below [n] lie in limb [c]. *)
Definition cnt (n c : nat) : nat := ((n + 3 - c) / 4)%nat.

Lemma lt4_cases c : (c < 4)%nat → c = 0%nat ∨ c = 1%nat ∨ c = 2%nat ∨ c = 3%nat.
Proof. lia. Qed.

(** [limbs c] splits a goal about limb [c < 4] into the four limbs. *)
Ltac limbs c :=
  match goal with
  | H : (c < 4)%nat |- _ => destruct (lt4_cases c H) as [?|[?|[?|?]]]; subst c
  end.

Lemma mod4_lt j : (j mod 4 < 4)%nat.
Proof. apply Nat.mod_upper_bound. lia. Qed.

#[export] Hint Resolve mod4_lt : words.

Lemma cnt_succ_same n : cnt (S n) (n mod 4) = S (cnt n (n mod 4)).
Proof. unfold cnt. zlia. Qed.

Lemma cnt_succ_other n c : (c < 4)%nat → c ≠ (n mod 4)%nat → cnt (S n) c = cnt n c.
Proof. intros Hc Hne. unfold cnt. zlia. Qed.

Lemma cnt_0 c : (c < 4)%nat → cnt 0 c = 0%nat.
Proof. intros. unfold cnt. zlia. Qed.

Lemma cnt_le n c : (n ≤ 256)%nat → (cnt n c ≤ 64)%nat.
Proof. intros. unfold cnt. zlia. Qed.

(** Position [4 m + c] lies below [n] exactly when [m < cnt n c]. *)
Lemma cnt_spec n c m : (c < 4)%nat → (4 * m + c < n)%nat ↔ (m < cnt n c)%nat.
Proof. intros Hc. unfold cnt. zlia. Qed.

Lemma nk_get_set_eq k c x : (c < 4)%nat → nk_get (nk_set k c x) c = x.
Proof. intros Hc. by limbs c. Qed.

Lemma nk_get_set_ne k c c' x :
  (c < 4)%nat → c ≠ c' → nk_get (nk_set k c x) c' = nk_get k c'.
Proof.
  intros Hc Hne. destruct k. limbs c; destruct c' as [|[|[|[|c']]]]; done || lia.
Qed.

Lemma nk_wf_get k c : nk_wf k → is_u64 (nk_get k c).
Proof.
  intros Hk. unfold nk_get. unfold nk_wf in Hk. rewrite Forall_forall in Hk.
  destruct (decide (c < 4)%nat) as [Hc|Hc].
  - apply Hk. unfold nk_list. limbs c; simpl; set_solver.
  - rewrite nth_overflow; [unfold is_u64; lia|]. simpl. lia.
Qed.

Lemma nk_ext k k' : (∀ c, (c < 4)%nat → nk_get k c = nk_get k' c) → k = k'.
Proof.
  intros H. destruct k, k'.
  pose proof (H 0 ltac:(lia))%nat. pose proof (H 1 ltac:(lia))%nat.
  pose proof (H 2 ltac:(lia))%nat. pose proof (H 3 ltac:(lia))%nat.
  unfold nk_get, nk_list in *. simpl in *. congruence.
Qed.

Lemma nk_wf_intro k : (∀ c, (c < 4)%nat → is_u64 (nk_get k c)) → nk_wf k.
Proof.
  intros H. unfold nk_wf, nk_list. rewrite !Forall_cons.
  split_and!; [apply (H 0%nat)|apply (H 1%nat)|apply (H 2%nat)|apply (H 3%nat)|constructor]; lia.
Qed.

Lemma u64_testbit_high x m : is_u64 x → 64 ≤ m → Z.testbit x m = false.
Proof.
  intros Hx Hm. destruct (Z.eq_dec x 0) as [->|Hne]; [apply Z.bits_0|].
  apply Z.bits_above_log2; [destruct Hx; lia|].
  destruct Hx as [Hx1 Hx2]. apply Z.log2_lt_pow2 in Hx2; lia.
Qed.

Lemma testbit_u64 x m : 0 ≤ m → Z.testbit (u64 x) m = (m <? 64) && Z.testbit x m.
Proof.
  intros Hm. unfold u64. destruct (Z.ltb_spec m 64).
  - by rewrite Z.mod_pow2_bits_low.
  - by rewrite Z.mod_pow2_bits_high by lia.
Qed.

(** Keys with the same bits are equal. *)
Lemma keybit_ext k k' :
  nk_wf k → nk_wf k' → (∀ j, (j < 256)%nat → keybit k j = keybit k' j) → k = k'.
Proof.
  intros Hk Hk' H. apply nk_ext. intros c Hc. apply Z.bits_inj'. intros m Hm.
  destruct (Z.lt_ge_cases m 64) as [Hlt|Hge].
  - pose proof (H (4 * Z.to_nat m + c)%nat ltac:(lia)) as Hj. unfold keybit in Hj.
    replace ((4 * Z.to_nat m + c) mod 4)%nat with c in Hj by zlia.
    replace ((4 * Z.to_nat m + c) / 4)%nat with (Z.to_nat m) in Hj by zlia.
    by rewrite Z2Nat.id in Hj.
  - by rewrite !u64_testbit_high by auto using nk_wf_get.
Qed.

(** ** GetPath *)

Lemma land_1_b2z x : Z.land x 1 = Z.b2z (Z.testbit x 0).
Proof. change 1 with (Z.ones 1) at 1. by rewrite Z.land_ones, Z.bit0_mod by lia. Qed.

Lemma lookup_GetPath_loop n k j :
  (j < 4 * n)%nat → GetPath_loop n k !! j = Some (Z.b2z (keybit k j)).
Proof.
  revert k j. induction n as [|n IH]; intros k j Hj; [lia|].
  cbn [GetPath_loop]. rewrite !land_1_b2z. destruct (decide (j < 4)%nat) as [Hlt|Hge].
  - rewrite lookup_app_l by (simpl; lia). unfold keybit.
    rewrite Nat.mod_small, Nat.div_small by lia. by limbs j.
  - rewrite lookup_app_r by (simpl; lia). simpl length.
    rewrite IH by lia. do 2 f_equal. unfold keybit.
    replace ((j - 4) mod 4)%nat with (j mod 4)%nat by zlia.
    replace (Z.of_nat (j / 4)) with (Z.of_nat ((j - 4) / 4) + 1) by zlia.
    pose proof (mod4_lt j) as Hc. revert Hc. generalize (j mod 4)%nat. intros c Hc.
    limbs c; unfold nk_get, nk_list; simpl nth; by rewrite Z.shiftr_spec by lia.
Qed.

Lemma length_GetPath_loop n k : length (GetPath_loop n k) = (4 * n)%nat.
Proof. revert k. induction n as [|n IH]; intros k; [done|]. cbn [GetPath_loop length app]. rewrite IH. lia. Qed.

Lemma length_GetPath k : length (GetPath k) = 256%nat.
Proof. apply length_GetPath_loop. Qed.

Lemma lookup_GetPath k j : (j < 256)%nat → GetPath k !! j = Some (Z.b2z (keybit k j)).
Proof. intros Hj. apply lookup_GetPath_loop. lia. Qed.

Lemma GetPath_inj k k' : nk_wf k → nk_wf k' → GetPath k = GetPath k' → k = k'.
Proof.
  intros Hk Hk' H. apply keybit_ext; [done..|]. intros j Hj.
  assert (GetPath k !! j = GetPath k' !! j) as Hl by by rewrite H.
  rewrite !lookup_GetPath in Hl by done. injection Hl as Hl.
  by destruct (keybit k j), (keybit k' j).
Qed.

(** ** RemoveKeyBits *)

Lemma nk_get_RemoveKeyBits k n c :
  (c < 4)%nat →
  nk_get (RemoveKeyBits k (Z.of_nat n)) c = Z.shiftr (nk_get k c) (Z.of_nat (cnt n c)).
Proof.
  intros Hc. unfold RemoveKeyBits, cnt. rewrite Z.quot_div_nonneg by lia.
  limbs c; unfold nk_get, nk_list; simpl nth; f_equal; case_bool; zlia.
Qed.

Lemma RemoveKeyBits_wf k n : nk_wf k → nk_wf (RemoveKeyBits k (Z.of_nat n)).
Proof.
  intros Hk. apply nk_wf_intro. intros c Hc. rewrite nk_get_RemoveKeyBits by done.
  pose proof (nk_wf_get k c Hk) as [H1 H2]. rewrite Z.shiftr_div_pow2 by lia.
  pose proof (Z.pow_pos_nonneg 2 (Z.of_nat (cnt n c)) ltac:(lia) ltac:(lia)).
  split; [by apply Z.div_pos|]. apply Z.div_lt_upper_bound; [done|]. nia.
Qed.

(** ** JoinKey *)

(** What the loop of JoinKey has computed after reading [pre]. *)
Definition join_inv (pre : list Z) (n accs : NodeKey) : Prop :=
  ∀ c, (c < 4)%nat →
    nk_get n c = Z.of_nat (cnt (length pre) c) ∧
    ∀ m, Z.testbit (nk_get accs c) (Z.of_nat m) =
           match pre !! (4 * m + c)%nat with Some b => b =? 1 | None => false end.

Lemma join_inv_nil : join_inv [] nk_zero nk_zero.
Proof.
  intros c Hc. rewrite cnt_0 by done. by limbs c; (split; [done|]); intros m; rewrite Z.bits_0.
Qed.

Lemma join_inv_step pre b n accs :
  (length pre < 256)%nat → join_inv pre n accs →
  let c := (length pre mod 4)%nat in
  join_inv (pre ++ [b]) (nk_set n c (nk_get n c + 1))
    (if b =? 1 then nk_set accs c (Z.lor (nk_get accs c) (u64 (Z.shiftl 1 (nk_get n c)))) else accs).
Proof.
  intros Hlen Hinv c c' Hc'. pose proof (mod4_lt (length pre)) as Hc. fold c in Hc.
  destruct (Hinv c' Hc') as [Hn Hacc]. rewrite length_app, Nat.add_1_r.
  assert (∀ m, (pre ++ [b]) !! (4 * m + c')%nat =
    if decide (4 * m + c' = length pre)%nat then Some b else pre !! (4 * m + c')%nat) as Hl.
  { intros m. case_decide as E; [by rewrite E, lookup_app_r, Nat.sub_diag by lia|].
    destruct (decide (4 * m + c' < length pre)%nat); [by rewrite lookup_app_l|].
    rewrite lookup_app_r, !lookup_ge_None_2 by (simpl; lia). done. }
  destruct (decide (c = c')) as [<-|Hne].
  - rewrite !nk_get_set_eq by done. split.
    { unfold c. rewrite cnt_succ_same. fold c. lia. }
    intros m. rewrite Hl.
    assert (4 * m + c = length pre ↔ m = cnt (length pre) c)%nat as Hm.
    { unfold c, cnt. zlia. }
    assert (pre !! (4 * cnt (length pre) c + c)%nat = None) as Hnone.
    { apply lookup_ge_None_2. unfold c, cnt. zlia. }
    destruct (Z.eqb_spec b 1) as [->|Hb].
    + rewrite nk_get_set_eq, Z.lor_spec, Hacc, testbit_u64, Hn by done || lia.
      rewrite Z.shiftl_1_l, Z.pow2_bits_eqb by lia.
      pose proof (cnt_le (length pre) c ltac:(lia)).
      case_decide as E; rewrite Hm in E.
      * rewrite E, Hnone, Z.eqb_refl. destruct (Z.ltb_spec (Z.of_nat (cnt (length pre) c)) 64); [done|].
        exfalso. unfold cnt, c in *. zlia.
      * replace (Z.of_nat (cnt (length pre) c) =? Z.of_nat m) with false by lia.
        by rewrite andb_false_r, orb_false_r.
    + rewrite Hacc. case_decide as E; [|done]. apply Hm in E. rewrite E, Hnone. lia.
  - rewrite nk_get_set_ne by done. split; [rewrite Hn, cnt_succ_other; done|].
    intros m. rewrite Hl, decide_False by (unfold c in *; zlia).
    rewrite <-Hacc. destruct (b =? 1); [|done]. by rewrite nk_get_set_ne.
Qed.

Lemma JoinKey_loop_inv bits pre n accs :
  (length pre + length bits ≤ 256)%nat → join_inv pre n accs →
  join_inv (pre ++ bits) (JoinKey_loop (length pre) bits n accs).1
    (JoinKey_loop (length pre) bits n accs).2.
Proof.
  revert pre n accs. induction bits as [|b bits IH]; intros pre n accs Hlen Hinv.
  - by rewrite app_nil_r.
  - cbn [JoinKey_loop]. simpl in Hlen.
    replace (S (length pre)) with (length (pre ++ [b])) by (rewrite length_app; simpl; lia).
    rewrite cons_middle, app_assoc. apply IH; [rewrite length_app; simpl; lia|].
    apply join_inv_step; [lia|done].
Qed.

Lemma nk_get_JoinKey bits rem c :
  (c < 4)%nat →
  nk_get (JoinKey bits rem) c =
    Z.lor (u64 (nk_get rem c ≪ nk_get (JoinKey_loop 0 bits nk_zero nk_zero).1 c))
          (nk_get (JoinKey_loop 0 bits nk_zero nk_zero).2 c).
Proof.
  intros Hc. unfold JoinKey. destruct (JoinKey_loop 0 bits nk_zero nk_zero) as [n accs].
  by limbs c.
Qed.

Lemma testbit_JoinKey bits rem c m :
  (length bits ≤ 256)%nat → (c < 4)%nat → (m < 64)%nat →
  Z.testbit (nk_get (JoinKey bits rem) c) (Z.of_nat m) =
    match bits !! (4 * m + c)%nat with
    | Some b => b =? 1
    | None => Z.testbit (nk_get rem c) (Z.of_nat m - Z.of_nat (cnt (length bits) c))
    end.
Proof.
  intros Hlen Hc Hm. rewrite nk_get_JoinKey by done.
  pose proof (JoinKey_loop_inv bits [] nk_zero nk_zero Hlen join_inv_nil) as Hinv.
  destruct (Hinv c Hc) as [Hn Hacc]. cbn [app length] in Hn, Hacc.
  rewrite Z.lor_spec, Hacc, testbit_u64, Hn, Z.shiftl_spec by lia.
  replace (Z.of_nat m <? 64) with true by lia. rewrite andb_true_l.
  destruct (bits !! (4 * m + c)%nat) as [b|] eqn:E; [|by rewrite orb_false_r].
  rewrite Z.testbit_neg_r; [done|].
  apply lookup_lt_Some, (cnt_spec _ c m) in E; lia.
Qed.

Lemma u64_lor a b : is_u64 a → is_u64 b → is_u64 (Z.lor a b).
Proof.
  intros Ha Hb. replace (Z.lor a b) with (u64 (Z.lor a b)); [apply u64_range|].
  apply Z.bits_inj'. intros m Hm. rewrite testbit_u64, Z.lor_spec by done.
  destruct (Z.ltb_spec m 64); [done|]. by rewrite !u64_testbit_high.
Qed.

Lemma nk_set_wf k c x : nk_wf k → is_u64 x → (c < 4)%nat → nk_wf (nk_set k c x).
Proof.
  intros Hk Hx Hc. apply nk_wf_intro. intros c' Hc'.
  destruct (decide (c = c')) as [<-|]; [by rewrite nk_get_set_eq|].
  rewrite nk_get_set_ne by done. by apply nk_wf_get.
Qed.

Lemma nk_zero_wf : nk_wf nk_zero.
Proof. by apply (bool_decide_unpack _). Qed.

#[export] Hint Resolve nk_zero_wf u64_lor u64_range nk_wf_get : words.

Lemma JoinKey_loop_wf bits i n accs : nk_wf accs → nk_wf (JoinKey_loop i bits n accs).2.
Proof.
  revert i n accs. induction bits as [|b bits IH]; intros i n accs H; [done|].
  apply IH. destruct (b =? 1); [|done]. apply nk_set_wf; auto with words.
Qed.

Lemma JoinKey_wf bits rem : nk_wf (JoinKey bits rem).
Proof.
  apply nk_wf_intro. intros c Hc. rewrite nk_get_JoinKey by done.
  auto using JoinKey_loop_wf with words.
Qed.

(** Putting the removed bits back: the key found at depth [n] is rebuilt from
    the path walked so far and the remaining key stored in the leaf. *)
Lemma JoinKey_RemoveKeyBits k n :
  nk_wf k → (n ≤ 256)%nat →
  JoinKey (take n (GetPath k)) (RemoveKeyBits k (Z.of_nat n)) = k.
Proof.
  intros Hk Hn. apply keybit_ext; [apply JoinKey_wf|done|]. intros j Hj.
  assert (length (take n (GetPath k)) = n) as Hlen
    by (rewrite length_take, length_GetPath; lia).
  unfold keybit. rewrite testbit_JoinKey by (rewrite ?Hlen; auto with words; zlia).
  replace (4 * (j / 4) + j mod 4)%nat with j by zlia. rewrite Hlen.
  destruct (decide (j < n)%nat) as [Hlt|Hge].
  - rewrite lookup_take_lt, lookup_GetPath by lia. unfold keybit.
    by destruct (Z.testbit _ _).
  - rewrite lookup_take_ge by lia. rewrite nk_get_RemoveKeyBits by auto with words.
    pose proof (cnt_spec n (j mod 4) (j / 4) (mod4_lt j)).
    rewrite Z.shiftr_spec by zlia. f_equal. lia.
Qed.

(** Two keys that agree on their first [n] bits and on what remains are equal. *)
Lemma RemoveKeyBits_inj k k' n :
  nk_wf k → nk_wf k' → (n ≤ 256)%nat →
  take n (GetPath k) = take n (GetPath k') →
  RemoveKeyBits k (Z.of_nat n) = RemoveKeyBits k' (Z.of_nat n) → k = k'.
Proof.
  intros Hk Hk' Hn Ht Hr.
  by rewrite <-(JoinKey_RemoveKeyBits k n), <-(JoinKey_RemoveKeyBits k' n), Ht, Hr.
Qed.

Lemma RemoveKeyBits_0 k : RemoveKeyBits k 0 = k.
Proof. by destruct k. Qed.

(** ** NodeKeyFromPath *)

Definition is_bit (b : Z) : Prop := b = 0 ∨ b = 1.

#[export] Instance is_bit_dec b : Decision (is_bit b).
Proof. unfold is_bit. apply _. Defined.

Lemma GetPath_bits k : Forall is_bit (GetPath k).
Proof.
  apply Forall_lookup. intros j b Hb.
  pose proof (lookup_lt_Some _ _ _ Hb) as Hj. rewrite length_GetPath in Hj.
  rewrite lookup_GetPath in Hb by done. injection Hb as <-.
  destruct (keybit k j); [by right|by left].
Qed.

(** The key built from the path prefix [pre]. *)
Definition path_inv (pre : list Z) (res : NodeKey) : Prop :=
  nk_wf res ∧ ∀ c m, (c < 4)%nat →
    Z.testbit (nk_get res c) (Z.of_nat m) =
      match pre !! (4 * m + c)%nat with Some b => b =? 1 | None => false end.

Lemma testbit_shifted_bit b (j c m : nat) :
  is_bit b → (j < 256)%nat → (c < 4)%nat → (j mod 4)%nat = c →
  Z.testbit (u64 (u64 b ≪ Z.of_nat (j / 4))) (Z.of_nat m) =
    (b =? 1) && (4 * m + c =? j)%nat.
Proof.
  intros Hb Hj Hc Hjc. rewrite testbit_u64, Z.shiftl_spec by lia.
  destruct Hb as [->| ->]; cbn [Z.eqb]; [by rewrite Z.bits_0, andb_false_r|].
  change (u64 1) with (2 ^ 0). rewrite Z.pow2_bits_eqb by lia. cbn [andb].
  destruct (Nat.eqb_spec (4 * m + c) j) as [E|E];
    [apply andb_true_iff; split|apply andb_false_iff]; zlia.
Qed.

Lemma path_inv_step pre b res :
  (length pre < 256)%nat → is_bit b → path_inv pre res →
  let i := (length pre mod 4)%nat in
  path_inv (pre ++ [b])
    (nk_set res i (Z.lor (nk_get res i) (u64 (u64 b ≪ Z.of_nat (length pre / 4))))).
Proof.
  intros Hlen Hb [Hwf Hinv] i. pose proof (mod4_lt (length pre)) as Hi. fold i in Hi.
  split; [apply nk_set_wf; auto with words|]. intros c m Hc.
  assert ((pre ++ [b]) !! (4 * m + c)%nat =
    if (4 * m + c =? length pre)%nat then Some b else pre !! (4 * m + c)%nat) as ->.
  { destruct (Nat.eqb_spec (4 * m + c) (length pre)) as [E|E].
    - by rewrite E, lookup_app_r, Nat.sub_diag by lia.
    - destruct (decide (4 * m + c < length pre)%nat); [by rewrite lookup_app_l|].
      rewrite lookup_app_r, !lookup_ge_None_2 by (simpl; lia). done. }
  destruct (decide (i = c)) as [<-|Hne].
  - rewrite nk_get_set_eq, Z.lor_spec, Hinv by done.
    rewrite (testbit_shifted_bit b (length pre) i m) by done.
    destruct (Nat.eqb_spec (4 * m + i) (length pre)) as [E|E].
    + by rewrite E, lookup_ge_None_2, orb_false_l, andb_true_r by lia.
    + by rewrite andb_false_r, orb_false_r.
  - rewrite nk_get_set_ne, Hinv by done.
    destruct (Nat.eqb_spec (4 * m + c) (length pre)) as [E|E]; [|done].
    exfalso. apply Hne. unfold i. rewrite <-E. zlia.
Qed.

Lemma NodeKeyFromPath_loop_inv path pre res :
  (length pre + length path ≤ 256)%nat → Forall is_bit path → path_inv pre res →
  path_inv (pre ++ path) (NodeKeyFromPath_loop (length pre) path res).
Proof.
  revert pre res. induction path as [|b path IH]; intros pre res Hlen Hb Hinv.
  - by rewrite app_nil_r.
  - cbn [NodeKeyFromPath_loop]. simpl in Hlen. apply Forall_cons in Hb as [Hb Hpath].
    replace (S (length pre)) with (length (pre ++ [b])) by (rewrite length_app; simpl; lia).
    rewrite cons_middle, app_assoc. apply IH; [rewrite length_app; simpl; lia|done|].
    apply path_inv_step; [lia|done..].
Qed.

Lemma NodeKeyFromPath_spec path :
  length path = 256%nat → Forall is_bit path →
  ∃ k, NodeKeyFromPath path = Ok k ∧ nk_wf k ∧
    ∀ j, (j < 256)%nat → path !! j = Some (Z.b2z (keybit k j)).
Proof.
  intros Hlen Hbits. unfold NodeKeyFromPath. rewrite Hlen. simpl negb. cbv iota.
  assert (path_inv [] nk_zero) as H0.
  { split; [apply nk_zero_wf|]. intros c m Hc. limbs c; simpl; apply Z.bits_0. }
  destruct (NodeKeyFromPath_loop_inv path [] nk_zero) as [Hwf Hinv]; [simpl; lia|done..|].
  eexists; split; [done|]. split; [done|]. intros j Hj. unfold keybit.
  rewrite Hinv by auto with words.
  replace (4 * (j / 4) + j mod 4)%nat with j by zlia. simpl app.
  destruct (path !! j) as [b|] eqn:E; [|apply lookup_ge_None in E; lia].
  rewrite Forall_lookup in Hbits. by destruct (Hbits _ _ E) as [-> | ->].
Qed.

(** GetPath and NodeKeyFromPath are inverse to each other. *)
Lemma NodeKeyFromPath_GetPath k : nk_wf k → NodeKeyFromPath (GetPath k) = Ok k.
Proof.
  intros Hk. destruct (NodeKeyFromPath_spec (GetPath k)) as (k' & -> & Hk' & Hbits);
    [apply length_GetPath|apply GetPath_bits|].
  f_equal. apply keybit_ext; [done..|]. intros j Hj.
  specialize (Hbits j Hj). rewrite lookup_GetPath in Hbits by done.
  injection Hbits. by destruct (keybit k j), (keybit k' j).
Qed.

Lemma GetPath_NodeKeyFromPath path k :
  length path = 256%nat → Forall is_bit path → NodeKeyFromPath path = Ok k → GetPath k = path.
Proof.
  intros Hlen Hbits Hk. destruct (NodeKeyFromPath_spec path) as (k' & Hk' & _ & Hb); [done..|].
  rewrite Hk in Hk'. injection Hk' as <-. apply list_eq. intros j.
  destruct (decide (j < 256)%nat) as [Hj|Hj]; [by rewrite lookup_GetPath, Hb|].
  rewrite !lookup_ge_None_2; [done|lia|rewrite length_GetPath; lia].
Qed.

(** * Scalars and limb arrays *)

(** [big.Int.Bits]: the little-endian 64-bit words of the absolute value. *)
Definition big_bits (z : Z) : list Z := le_digits (2 ^ 64) (ndigits 64 (Z.abs z)) (Z.abs z).

Definition ArrayToScalar (array : list Z) : Z := le_value (2 ^ 64) array.

Definition NodeKey_ToBigInt (nk : NodeKey) : Z := ArrayToScalar (nk_list nk).

Definition mask64 : Z := Z.ones 64.

Definition ScalarToArray (scalar : Z) : list Z :=
  [big_uint64 (Z.land scalar mask64); big_uint64 (Z.land (Z.shiftr scalar 64) mask64);
   big_uint64 (Z.land (Z.shiftr scalar 128) mask64);
   big_uint64 (Z.land (Z.shiftr scalar 192) mask64)].

Fixpoint scalarToRootSlow_loop (n : nat) (sCopy : Z) : list Z :=
  match n with
  | O => []
  | S n => big_uint64 (sCopy mod 2 ^ 64) :: scalarToRootSlow_loop n (sCopy / 2 ^ 64)
  end.

Definition list_nk (l : list Z) : NodeKey :=
  NK (nth 0 l 0) (nth 1 l 0) (nth 2 l 0) (nth 3 l 0).

Definition scalarToRootSlow (s : Z) : NodeKey := list_nk (scalarToRootSlow_loop 4 s).

(** The 64-bit path of ScalarToRoot: words of [s.Bits()] that exist, else 0. *)
Definition ScalarToRoot (s : Z) : NodeKey :=
  if s <? 0 then scalarToRootSlow s
  else
    let sbits := big_bits s in
    let result i := match sbits !! i with Some w => w | None => 0 end in
    NK (result 0%nat) (result 1%nat) (result 2%nat) (result 3%nat).

Definition mask32 : Z := 4294967295.

Definition ScalarToArrayBig (scalar : Z) : list Z :=
  [Z.land scalar mask32; Z.land (Z.shiftr scalar 32) mask32;
   Z.land (Z.shiftr scalar 64) mask32; Z.land (Z.shiftr scalar 96) mask32;
   Z.land (Z.shiftr scalar 128) mask32; Z.land (Z.shiftr scalar 160) mask32;
   Z.land (Z.shiftr scalar 192) mask32; Z.land (Z.shiftr scalar 224) mask32].

(** The loop from the last element down; adding a nil pointer panics. *)
Fixpoint arrayToScalar_shift (w : Z) (arr : list (option Z)) : outcome Z :=
  match arr with
  | [] => Ok 0
  | o :: arr =>
      scalar ← arrayToScalar_shift w arr;
      match o with Some x => Ok (Z.shiftl scalar w + x) | None => Panic end
  end.

Definition ArrayBigToScalar (arr : list (option Z)) : outcome Z := arrayToScalar_shift 32 arr.

Definition arrayToScalarBigSlow (array : list (option Z)) : outcome Z :=
  arrayToScalar_shift 64 array.

Definition arrayToScalarBigFast_word (o : option Z) : option Z :=
  match o with
  | None => Some 0
  | Some z =>
      match big_bits z with
      | [] => Some 0
      | w :: ws => if (z <? 0) || existsb (λ v, negb (v =? 0)) ws then None else Some w
      end
  end.

Definition arrayToScalarBigFast (array : list (option Z)) : option Z :=
  if (length array =? 0)%nat then None
  else le_value (2 ^ 64) <$> mapM arrayToScalarBigFast_word array.

Definition ArrayToScalarBig (array : list (option Z)) : outcome Z :=
  match arrayToScalarBigFast array with
  | Some v => Ok v
  | None => arrayToScalarBigSlow array
  end.

Fixpoint ScalarToNodeValue_slow_loop (n : nat) (scalar : Z) : list (option Z) :=
  match n with
  | O => []
  | S n => Some (Z.land scalar mask64) :: ScalarToNodeValue_slow_loop n (Z.shiftr scalar 64)
  end.

Definition scalarToNodeValueSlow (scalarIn : Z) : NodeValue12 :=
  ScalarToNodeValue_slow_loop 12 scalarIn.

Definition ScalarToNodeValue8 (scalarIn : Z) : NodeValue8 :=
  ScalarToNodeValue_slow_loop 8 scalarIn.

Definition scalarToNodeValueFast (scalarIn : Z) : option NodeValue12 :=
  if scalarIn <? 0 then None
  else
    let words := big_bits scalarIn in
    Some ((λ i, match words !! i with Some w => Some w | None => Some 0 end) <$> seq 0 12).

Definition ScalarToNodeValue (scalarIn : Z) : NodeValue12 :=
  match scalarToNodeValueFast scalarIn with
  | Some out => out
  | None => scalarToNodeValueSlow scalarIn
  end.

Definition NodeValue8FromBigInt (value : Z) : outcome NodeValue8 :=
  NodeValue8FromBigIntArray (Some <$> ScalarToArrayBig value).

Definition NodeValue8ToBigInt (value : NodeValue8) : outcome Z := ArrayBigToScalar value.

(** ** Lemmas on limbs *)

Lemma land_ones_64 z : Z.land z mask64 = z mod 2 ^ 64.
Proof. unfold mask64. by rewrite Z.land_ones. Qed.

Lemma land_ones_32 z : Z.land z mask32 = z mod 2 ^ 32.
Proof. change mask32 with (Z.ones 32). by rewrite Z.land_ones. Qed.

Lemma big_uint64_mod z : big_uint64 (z mod 2 ^ 64) = z mod 2 ^ 64.
Proof.
  unfold big_uint64, u64. pose proof (Z.mod_pos_bound z (2 ^ 64) ltac:(lia)).
  rewrite Z.abs_eq by lia. by apply Z.mod_small.
Qed.

Lemma big_uint64_small z : is_u64 z → big_uint64 z = z.
Proof. intros [H1 H2]. unfold big_uint64. rewrite Z.abs_eq by done. by apply u64_small. Qed.

Lemma lookup_big_bits z i :
  0 ≤ z → match big_bits z !! i with Some w => w | None => 0 end = z / (2 ^ 64) ^ Z.of_nat i mod 2 ^ 64.
Proof.
  intros Hz. unfold big_bits. rewrite Z.abs_eq by done.
  destruct (decide (i < ndigits 64 z)%nat) as [Hi|Hi].
  - by rewrite lookup_le_digits by (done || lia).
  - rewrite lookup_ge_None_2 by (rewrite length_le_digits; lia).
    pose proof (ndigits_bound 64 z ltac:(lia) Hz) as Hb.
    rewrite Z.div_small; [done|]. split; [done|].
    eapply Z.lt_le_trans; [exact Hb|]. apply Z.pow_le_mono_r; lia.
Qed.

Lemma ScalarToArray_digits s : ScalarToArray s = le_digits (2 ^ 64) 4 s.
Proof.
  unfold ScalarToArray. rewrite !land_ones_64, !big_uint64_mod, !Z.shiftr_div_pow2 by lia.
  cbn [le_digits]. rewrite !Z.div_div by lia. done.
Qed.

Lemma scalarToRootSlow_digits n s : scalarToRootSlow_loop n s = le_digits (2 ^ 64) n s.
Proof.
  revert s. induction n as [|n IH]; intros s; [done|].
  cbn [scalarToRootSlow_loop le_digits]. by rewrite IH, big_uint64_mod.
Qed.

Lemma nk_list_list_nk l : length l = 4%nat → nk_list (list_nk l) = l.
Proof. destruct l as [|a [|b [|c [|d [|]]]]]; done || lia. Qed.

Lemma list_nk_nk_list k : list_nk (nk_list k) = k.
Proof. by destruct k. Qed.

Lemma NodeKey_ToBigInt_range k : nk_wf k → 0 ≤ NodeKey_ToBigInt k < 2 ^ 256.
Proof. intros Hk. apply (le_value_range (2 ^ 64) (nk_list k)); [lia|]. exact Hk. Qed.

Lemma NodeKey_ToBigInt_inj k k' :
  nk_wf k → nk_wf k' → NodeKey_ToBigInt k = NodeKey_ToBigInt k' → k = k'.
Proof.
  intros Hk Hk' H. rewrite <-(list_nk_nk_list k), <-(list_nk_nk_list k'). f_equal.
  by apply (le_value_inj (2 ^ 64)).
Qed.

(** The word-level ScalarToRoot computes what the division loop computes, on
    every integer. *)
Lemma ScalarToRoot_slow s : ScalarToRoot s = scalarToRootSlow s.
Proof.
  unfold ScalarToRoot. case_bool; [done|]. unfold scalarToRootSlow.
  rewrite scalarToRootSlow_digits, !lookup_big_bits by done.
  cbn [le_digits list_nk nth]. unfold list_nk. cbn [nth].
  rewrite !Z.div_div by lia. by rewrite Z.div_1_r.
Qed.

Lemma ScalarToRoot_ToBigInt k : nk_wf k → ScalarToRoot (NodeKey_ToBigInt k) = k.
Proof.
  intros Hk. rewrite ScalarToRoot_slow. unfold scalarToRootSlow, NodeKey_ToBigInt, ArrayToScalar.
  rewrite scalarToRootSlow_digits, (le_digits_value' (2 ^ 64)) by (done || lia).
  apply list_nk_nk_list.
Qed.

Lemma ScalarToRoot_wf s : nk_wf (ScalarToRoot s).
Proof.
  rewrite ScalarToRoot_slow. unfold scalarToRootSlow, nk_wf.
  rewrite scalarToRootSlow_digits, nk_list_list_nk by done. by apply le_digits_range.
Qed.

Lemma ScalarToRoot_0 : ScalarToRoot 0 = nk_zero.
Proof. done. Qed.

Lemma ScalarToNodeValue_slow_digits n s :
  ScalarToNodeValue_slow_loop n s = Some <$> le_digits (2 ^ 64) n s.
Proof.
  revert s. induction n as [|n IH]; intros s; [done|].
  cbn [ScalarToNodeValue_slow_loop le_digits]. csimpl.
  by rewrite IH, land_ones_64, Z.shiftr_div_pow2 by lia.
Qed.

(** The fast path of ScalarToNodeValue agrees with the masking loop. *)
Lemma ScalarToNodeValue_slow s : ScalarToNodeValue s = scalarToNodeValueSlow s.
Proof.
  unfold ScalarToNodeValue, scalarToNodeValueFast. case_bool; [done|].
  unfold scalarToNodeValueSlow. rewrite ScalarToNodeValue_slow_digits.
  apply list_eq. intros i. rewrite !list_lookup_fmap.
  destruct (decide (i < 12)%nat) as [Hi|Hi].
  - rewrite lookup_seq_lt, lookup_le_digits by (done || lia). simpl.
    rewrite <-lookup_big_bits by done. by destruct (big_bits s !! i).
  - by rewrite !lookup_ge_None_2 by (rewrite ?length_seq, ?length_le_digits; lia).
Qed.

Lemma arrayToScalar_shift_value w xs :
  0 ≤ w → arrayToScalar_shift w (Some <$> xs) = Ok (le_value (2 ^ w) xs).
Proof.
  intros Hw. induction xs as [|x xs IH]; [done|]. csimpl. cbn [arrayToScalar_shift].
  rewrite IH. simpl. f_equal. rewrite Z.shiftl_mul_pow2 by done. ring.
Qed.

Lemma big_bits_u64 z w ws :
  big_bits z = w :: ws → 0 ≤ z → Forall (λ v, v = 0) ws → z = w.
Proof.
  intros H Hz Hws. pose proof (le_value_min_digits 64 z ltac:(lia) Hz) as Hv.
  unfold big_bits in H. rewrite Z.abs_eq in H by done. rewrite H in Hv.
  rewrite <-Hv. cbn [le_value]. replace ws with (replicate (length ws) 0).
  - rewrite le_value_zeros. lia.
  - apply replicate_as_elem_of. split; [done|]. by rewrite <-Forall_forall.
Qed.

Lemma arrayToScalarBigFast_word_Some z w : arrayToScalarBigFast_word (Some z) = Some w → w = z.
Proof.
  unfold arrayToScalarBigFast_word. destruct (big_bits z) as [|w' ws] eqn:E.
  - intros [= <-]. apply (f_equal (le_value (2 ^ 64))) in E. unfold big_bits in E.
    rewrite (le_value_min_digits 64) in E by lia. simpl in E. lia.
  - destruct (Z.ltb_spec z 0); [done|]. simpl.
    destruct (existsb _ ws) eqn:Ex; [done|]. intros [= <-].
    symmetry. eapply big_bits_u64; [done..|]. apply Forall_forall. intros v Hv.
    destruct (Z.eqb_spec v 0) as [|Hne]; [done|]. exfalso.
    apply not_true_iff_false in Ex. apply Ex, existsb_exists.
    exists v. split; [by apply list_elem_of_In|]. by apply negb_true_iff, Z.eqb_neq.
Qed.

(** On arrays without nil pointers ArrayToScalarBig is its slow reference. *)
Lemma ArrayToScalarBig_slow xs :
  ArrayToScalarBig (Some <$> xs) = arrayToScalarBigSlow (Some <$> xs).
Proof.
  unfold ArrayToScalarBig, arrayToScalarBigSlow, arrayToScalarBigFast.
  destruct (_ =? 0)%nat; [done|].
  destruct (mapM arrayToScalarBigFast_word (Some <$> xs)) as [ys|] eqn:E; [|done].
  simpl. rewrite arrayToScalar_shift_value by lia. do 2 f_equal.
  apply mapM_Some in E. clear -E. revert ys E.
  induction xs as [|x xs IH]; intros ys E; inversion E as [|? w ? ws Hw Hws]; subst; [done|].
  f_equal; [by apply arrayToScalarBigFast_word_Some|by apply IH].
Qed.

Lemma ScalarToNodeValue_ArrayToScalarBig xs :
  length xs = 12%nat → Forall is_u64 xs →
  ArrayToScalarBig (Some <$> xs) = Ok (le_value (2 ^ 64) xs) ∧
  ScalarToNodeValue (le_value (2 ^ 64) xs) = Some <$> xs.
Proof.
  intros Hl Hxs. rewrite ArrayToScalarBig_slow. unfold arrayToScalarBigSlow.
  rewrite arrayToScalar_shift_value by lia. split; [done|].
  rewrite ScalarToNodeValue_slow. unfold scalarToNodeValueSlow.
  by rewrite ScalarToNodeValue_slow_digits, (le_digits_value' (2 ^ 64)) by (done || lia).
Qed.

Lemma ScalarToArrayBig_digits s : ScalarToArrayBig s = le_digits (2 ^ 32) 8 s.
Proof.
  unfold ScalarToArrayBig. rewrite !land_ones_32, !Z.shiftr_div_pow2 by lia.
  cbn [le_digits]. rewrite !Z.div_div by lia. done.
Qed.

Lemma ScalarToArrayBig_u64 s : Forall is_u64 (ScalarToArrayBig s).
Proof.
  rewrite ScalarToArrayBig_digits.
  eapply Forall_impl; [apply le_digits_range; lia|]. unfold is_u64. simpl. lia.
Qed.

Lemma NodeValue8FromBigInt_ok z :
  NodeValue8FromBigInt z = Ok (Some <$> ScalarToArrayBig z).
Proof. done. Qed.

(** A 256-bit scalar survives the trip through its eight 32-bit limbs. *)
Lemma NodeValue8_roundtrip z :
  0 ≤ z < 2 ^ 256 → (v ← NodeValue8FromBigInt z; NodeValue8ToBigInt v) = Ok z.
Proof.
  intros Hz. rewrite NodeValue8FromBigInt_ok. unfold NodeValue8ToBigInt, ArrayBigToScalar.
  cbn [mbind outcome_bind]. rewrite arrayToScalar_shift_value, ScalarToArrayBig_digits by lia.
  by rewrite le_value_digits_small.
Qed.
