(* ===== verification/SmtKeys.v ===== *)
(** Text and key derivation of the sparse Merkle tree (the rest of
    src/smt/pkg/utils/utils.go): the hexadecimal conversions the databases use
    for their keys and values, the derivation of tree keys from addresses and
    storage positions, and the key-source records.

    Poseidon (github.com/okx/poseidongold) is a parameter [hash] of the
    definitions that use it. *)

From S2P Require Import Prelude Bytes SmtUtils.
From Stdlib Require Import Strings.Byte.

Local Open Scope Z_scope.

Abbreviation ascii_list := String.list_ascii_of_string.
Abbreviation ascii_string := String.string_of_list_ascii.

(** [strings.TrimPrefix(s, "0x")] *)
Definition trim0x (cs : list ascii) : list ascii :=
  match cs with
  | a :: b :: cs' => if bool_decide (a = "0"%char ∧ b = "x"%char) then cs' else cs
  | _ => cs
  end.

(** * Hexadecimal conversions *)

Definition ConvertBigIntToHex (n : Z) : string :=
  ascii_string ("0"%char :: "x"%char ::
    (if n <? 0 then ["-"%char] else []) ++ big_hex (Z.abs n)).

(** [hex.Decode]: the bytes decoded up to the first invalid pair. *)
Fixpoint hex_decode (src : list ascii) : list Z :=
  match src with
  | p :: q :: src =>
      match hex_val p, hex_val q with
      | Some a, Some b => Z.lor (Z.shiftl a 4) b :: hex_decode src
      | _, _ => []
      end
  | _ => []
  end.

(** The leading nibble of a text of odd length. *)
Definition single_char (c : ascii) : Z :=
  let n := ascii_z c in
  if (97 <=? n) && (n <=? 102) then n - 97 + 10
  else if (65 <=? n) && (n <=? 70) then n - 65 + 10
  else u8 (n - 48).

Definition be_value (b : Z) (ds : list Z) : Z := le_value b (rev ds).

Definition ConvertHexToBigInt (hexStr : string) : Z :=
  let cs := trim0x (ascii_list hexStr) in
  if Nat.odd (length cs)
  then match cs with
       | c :: cs' => be_value 256 (single_char c :: hex_decode cs')
       | [] => 0
       end
  else be_value 256 (hex_decode cs).

(** The bytes of [ds], two hexadecimal digits each. *)
Fixpoint pair_up (ds : list Z) : list Z :=
  match ds with
  | a :: b :: ds => (16 * a + b) :: pair_up ds
  | _ => []
  end.

Lemma be_value_app b xs ys :
  0 < b → be_value b (xs ++ ys) = be_value b xs * b ^ Z.of_nat (length ys) + be_value b ys.
Proof.
  intros Hb. unfold be_value. rewrite rev_app_distr, le_value_app, length_rev by done. ring.
Qed.

Lemma be_value_cons b x ys :
  0 < b → be_value b (x :: ys) = x * b ^ Z.of_nat (length ys) + be_value b ys.
Proof.
  intros Hb. change (x :: ys) with ([x] ++ ys). rewrite be_value_app by done.
  unfold be_value at 1. cbn. ring.
Qed.

(** [pairs_ind]: induction on lists two elements at a time. *)
Lemma pairs_ind {A} (P : list A → Prop) :
  P [] → (∀ a, P [a]) → (∀ a b l, P l → P (a :: b :: l)) → ∀ l, P l.
Proof.
  intros H0 H1 H2. enough (∀ l, P l ∧ ∀ a, P (a :: l)) as H by (intros l; apply H).
  induction l as [|x l [IH1 IH2]]; split; auto.
Qed.

Lemma length_pair_up ds : Nat.even (length ds) = true → (2 * length (pair_up ds) = length ds)%nat.
Proof.
  induction ds as [|a|a b ds IH] using pairs_ind; [done..|]. simpl. intros H.
  specialize (IH H). lia.
Qed.

Lemma be_value_pair_up ds :
  Nat.even (length ds) = true → be_value 256 (pair_up ds) = be_value 16 ds.
Proof.
  induction ds as [|a|a b ds IH] using pairs_ind; [done..|]. intros H. simpl in H.
  cbn [pair_up]. rewrite !be_value_cons, IH by done.
  pose proof (length_pair_up ds H) as Hl. cbn [length].
  replace (Z.of_nat (length ds)) with (2 * Z.of_nat (length (pair_up ds))) by lia.
  rewrite Nat2Z.inj_succ, Z.pow_succ_r by lia.
  replace (Z.of_nat (length ds)) with (2 * Z.of_nat (length (pair_up ds))) by lia.
  rewrite Z.pow_mul_r by lia. change (16 ^ 2) with 256. ring.
Qed.

Lemma lor_nibbles a b : 0 ≤ a < 16 → 0 ≤ b < 16 → Z.lor (Z.shiftl a 4) b = 16 * a + b.
Proof.
  intros Ha Hb.
  assert (Forall (λ a, Forall (λ b, Z.lor (Z.shiftl a 4) b = 16 * a + b) (seqZ 0 16)) (seqZ 0 16)) as H
    by (vm_compute; repeat constructor).
  rewrite Forall_forall in H. specialize (H a). rewrite Forall_forall in H.
  apply H; apply elem_of_seqZ; lia.
Qed.

Lemma hex_decode_digits ds :
  Forall (λ d, 0 ≤ d < 16) ds → hex_decode (hex_char <$> ds) = pair_up ds.
Proof.
  induction ds as [|a|a b ds IH] using pairs_ind; [done..|].
  rewrite !Forall_cons. intros (Ha & Hb & Hds).
  csimpl. cbn [hex_decode]. rewrite !hex_val_char, lor_nibbles, IH by done. done.
Qed.

Lemma single_char_digit d : 0 ≤ d < 16 → single_char (hex_char d) = d.
Proof.
  intros Hd.
  assert (Forall (λ d, single_char (hex_char d) = d) (seqZ 0 16)) as H
    by (vm_compute; repeat constructor).
  rewrite Forall_forall in H. apply H, elem_of_seqZ. lia.
Qed.

(** The digits [ds] as text, with the 0x prefix. *)
Lemma ConvertHexToBigInt_digits ds :
  Forall (λ d, 0 ≤ d < 16) ds →
  ConvertHexToBigInt (ascii_string ("0"%char :: "x"%char :: (hex_char <$> ds))) = be_value 16 ds.
Proof.
  intros Hds. unfold ConvertHexToBigInt.
  rewrite String.list_ascii_of_string_of_list_ascii. cbn [trim0x].
  rewrite bool_decide_eq_true_2 by done. rewrite length_fmap.
  destruct (Nat.odd (length ds)) eqn:E.
  - destruct ds as [|d ds]; [done|]. csimpl. apply Forall_cons in Hds as [Hd Hds].
    rewrite single_char_digit, hex_decode_digits by done.
    assert (Nat.even (length ds) = true) as He by (by rewrite <-Nat.odd_succ).
    rewrite !be_value_cons, be_value_pair_up by done. f_equal. f_equal.
    pose proof (length_pair_up ds He) as Hl.
    replace (Z.of_nat (length ds)) with (2 * Z.of_nat (length (pair_up ds))) by lia.
    by rewrite Z.pow_mul_r by lia.
  - rewrite hex_decode_digits by done. apply be_value_pair_up.
    rewrite <-Nat.negb_odd, E. done.
Qed.

(** Printing a non-negative integer in hexadecimal and reading it back. *)
Lemma ConvertHexToBigInt_ConvertBigIntToHex n :
  0 ≤ n → ConvertHexToBigInt (ConvertBigIntToHex n) = n.
Proof.
  intros Hn. unfold ConvertBigIntToHex. case_bool; [lia|]. rewrite Z.abs_eq by done.
  cbn [app]. unfold big_hex. destruct (Z.eqb_spec n 0) as [->|Hne]; [done|].
  rewrite ConvertHexToBigInt_digits by (apply Forall_rev, le_digits_range; lia).
  unfold be_value. rewrite rev_involutive. by apply (le_value_min_digits 4).
Qed.

Lemma ConvertBigIntToHex_inj a b :
  0 ≤ a → 0 ≤ b → ConvertBigIntToHex a = ConvertBigIntToHex b → a = b.
Proof.
  intros Ha Hb H. rewrite <-(ConvertHexToBigInt_ConvertBigIntToHex a) by done.
  by rewrite H, ConvertHexToBigInt_ConvertBigIntToHex.
Qed.

(** * Key sources: which account field or storage slot a tree key stands for *)

Definition addr_len : nat := 20.
Definition hash_len : nat := 32.

Definition EncodeKeySource (t : Z) (accountAddr storagePosition : list byte) : list byte :=
  [zb t] ++ accountAddr ++ (if t =? SC_STORAGE then storagePosition else []).

Definition DecodeKeySource (keySource : list byte) : outcome (Z * list byte * list byte) :=
  if (length keySource <? 1 + addr_len)%nat then Err "invalid key source length"
  else
    t ← bz <$> go_index keySource 0;
    accountAddr ← BytesToAddress <$> go_slice keySource 1 (Z.of_nat (addr_len + 1));
    if t =? SC_STORAGE then
      if (length keySource <? 1 + addr_len + hash_len)%nat then Err "invalid key source length"
      else
        storagePosition ← BytesToHash <$>
          go_slice keySource (Z.of_nat (addr_len + 1)) (Z.of_nat (addr_len + hash_len + 1));
        Ok (t, accountAddr, storagePosition)
    else Ok (t, accountAddr, replicate hash_len x00).

(** A key source decodes to what was encoded; only storage entries carry a
    storage position. *)
Lemma DecodeKeySource_EncodeKeySource t addr pos :
  is_u8 t → length addr = addr_len → length pos = hash_len →
  DecodeKeySource (EncodeKeySource t addr pos) =
    Ok (t, addr, if t =? SC_STORAGE then pos else replicate hash_len x00).
Proof.
  intros Ht Ha Hp. unfold DecodeKeySource, EncodeKeySource. unfold addr_len, hash_len in *.
  set (tail := if t =? SC_STORAGE then pos else []).
  assert (length ([zb t] ++ addr ++ tail) = 21 + length tail)%nat as Hl
    by (rewrite !length_app, Ha; simpl; lia).
  rewrite Hl. replace (21 + length tail <? 1 + 20)%nat with false by lia. cbv iota.
  replace (go_index ([zb t] ++ addr ++ tail) 0) with (Ok (zb t)) by done.
  rewrite (go_slice_app [zb t] addr tail 1 (Z.of_nat (20 + 1))) by (simpl; lia). cbn [fmap outcome_fmap mbind outcome_bind].
  rewrite bz_zb, Z.mod_small by (unfold is_u8 in Ht; lia).
  assert (BytesToAddress addr = addr) as -> by (by apply set_bytes_id).
  subst tail. destruct (Z.eqb_spec t SC_STORAGE) as [->|Hne]; [|done].
  rewrite Hp. simpl Nat.ltb. cbv iota. rewrite app_assoc, <-(app_nil_r pos).
  rewrite (go_slice_app ([zb SC_STORAGE] ++ addr) pos []) by (rewrite length_app; simpl; lia).
  cbn [fmap outcome_fmap mbind outcome_bind]. unfold BytesToHash.
  rewrite set_bytes_id by done. by rewrite app_nil_r.
Qed.

(** * Key derivation *)

Definition HASH_POSEIDON_ALL_ZEROES : string :=
  "0xc71603f33a1144ca7953db0ab48808f4c4055e3364a246c33c18a9786cb0b359".

Definition has_prefix0x (cs : list ascii) : bool :=
  bool_decide (take 2 cs = ["0"%char; "x"%char]).

(** [strconv.ParseUint(_, 16, 64)] of sixteen characters. *)
Definition parse_limb (cs : list ascii) : outcome Z :=
  match hex_value cs with
  | Some v => Ok v
  | None => Err "failed to convert string to uint64"
  end.

Definition StringToH4 (s : string) : outcome NodeKey :=
  let cs := ascii_list s in
  if negb (has_prefix0x cs) then Err "hexadecimal required"
  else if negb (length cs =? 66)%nat then Err "hexadecimal all digits required"
  else
    res3 ← parse_limb (take 16 (drop 2 cs));
    res2 ← parse_limb (take 16 (drop 18 cs));
    res1 ← parse_limb (take 16 (drop 34 cs));
    res0 ← parse_limb (take 16 (drop 50 cs));
    Ok (NK res0 res1 res2 res3).

(** [new(big.Int).SetString(v, base)] with base 10 or 16: an optional sign, then
    at least one digit. *)
Definition digit_val (base : Z) (c : ascii) : option Z :=
  match hex_val c with
  | Some d => if d <? base then Some d else None
  | None => None
  end.

Definition SetString (cs : list ascii) (base : Z) : option Z :=
  let '(neg, ds) :=
    match cs with
    | c :: cs' =>
        if bool_decide (c = "-"%char) then (true, cs')
        else if bool_decide (c = "+"%char) then (false, cs') else (false, cs)
    | [] => (false, [])
    end in
  match ds with
  | [] => None
  | _ => (λ vs, if neg : bool then - be_value base vs else be_value base vs)
           <$> mapM (digit_val base) ds
  end.

Definition StrValToBigInt (v : string) : option Z :=
  let cs := ascii_list v in
  if has_prefix0x cs then SetString (drop 2 cs) 16 else SetString cs 10.

(** The array whose hash is the key of field [c] of account [a]. *)
Definition key_input (add : list Z) (c : Z) : NodeValue8 :=
  (Some <$> take 6 add) ++ [Some c; Some 0].

Section Keys.
Context (hash : list Z → NodeKey → NodeKey).

Definition Key (ethAddr : string) (c : Z) : NodeKey :=
  let a := ConvertHexToBigInt ethAddr in
  let add := ScalarToArrayBig a in
  match StringToH4 HASH_POSEIDON_ALL_ZEROES with
  | Ok key1Capacity => hash (ToUintArray (key_input add c)) key1Capacity
  | _ => nk_zero
  end.

Definition KeyEthAddrBalance (ethAddr : string) : NodeKey := Key ethAddr KEY_BALANCE.
Definition KeyEthAddrNonce (ethAddr : string) : NodeKey := Key ethAddr KEY_NONCE.
Definition KeyContractCode (ethAddr : string) : NodeKey := Key ethAddr SC_CODE.
Definition KeyContractLength (ethAddr : string) : NodeKey := Key ethAddr SC_LENGTH.

Definition KeyBig (k : option Z) (c : Z) : outcome NodeKey :=
  match k with
  | None => Err "nil key"
  | Some k =>
      key1Capacity ← StringToH4 HASH_POSEIDON_ALL_ZEROES;
      Ok (hash (ToUintArray (key_input (ScalarToArrayBig k) c)) key1Capacity)
  end.

Definition KeyContractStorage (ethAddr : list Z) (storagePosition : string) : outcome NodeKey :=
  match StrValToBigInt storagePosition with
  | None => Panic
  | Some sp =>
      match NodeValue8FromBigIntArray (Some <$> ScalarToArrayBig sp) with
      | Ok spArray =>
          let hk0 := hash (ToUintArray spArray) nk_zero in
          Ok (hash (ToUintArray (key_input ethAddr SC_STORAGE)) hk0)
      | _ => Ok nk_zero
      end
  end.
End Keys.

Lemma StringToH4_zeroes : ∃ c, StringToH4 HASH_POSEIDON_ALL_ZEROES = Ok c.
Proof. eexists. vm_compute. reflexivity. Qed.

Lemma ToUintArray_some (xs : list Z) : Forall is_u64 xs → ToUintArray (Some <$> xs) = xs.
Proof.
  unfold ToUintArray. induction 1 as [|x xs Hx _ IH]; [done|]. csimpl.
  by rewrite IH, big_uint64_small.
Qed.

Lemma ToUintArray_key_input a c :
  is_u64 c → ToUintArray (key_input (ScalarToArrayBig a) c) = take 6 (ScalarToArrayBig a) ++ [c; 0].
Proof.
  intros Hc. unfold key_input.
  replace ((Some <$> take 6 (ScalarToArrayBig a)) ++ [Some c; Some 0])
    with (Some <$> take 6 (ScalarToArrayBig a) ++ [c; 0]) by by rewrite fmap_app.
  apply ToUintArray_some. apply Forall_app; split.
  - apply Forall_take, ScalarToArrayBig_u64.
  - repeat constructor; try apply Hc; unfold is_u64; lia.
Qed.

Lemma take6_ScalarToArrayBig_inj a b :
  0 ≤ a < 2 ^ 192 → 0 ≤ b < 2 ^ 192 →
  take 6 (ScalarToArrayBig a) = take 6 (ScalarToArrayBig b) → a = b.
Proof.
  intros Ha Hb H. rewrite !ScalarToArrayBig_digits in H.
  change (le_digits (2 ^ 32) 6 a = le_digits (2 ^ 32) 6 b) in H.
  apply (f_equal (le_value (2 ^ 32))) in H. by rewrite !le_value_digits_small in H.
Qed.
