(* ===== verification/SmtDb.v ===== *)
(** The storage interface of the sparse Merkle tree and its two
    implementations.

    The Go interface DB of src/smt/pkg/smt/smt.go is the class [SmtDB]; what
    the tree relies on is the class [SmtDBLaws].  [MemDb] models
    src/smt/pkg/db/mem-db.go, whose tables are maps from hexadecimal text to
    lists of hexadecimal texts; [EriDb] models src/smt/pkg/db/mdbx.go, which
    writes each node as one hexadecimal number into a key-value transaction.
    The transaction (mdbx) is the class [KVTx]: a parameter with the
    documented behaviour of get, put and delete as its laws.  Both
    implementations are shown to satisfy [SmtDBLaws]: the hexadecimal encodings
    lose nothing and never confuse two keys. *)

From S2P Require Import Prelude Bytes SmtUtils SmtKeys.
From Stdlib Require Import Strings.Byte.
From stdpp Require Import pretty.

Local Open Scope Z_scope.

(** * The interface *)

Class SmtDB (D : Type) := {
  db_Get : D → NodeKey → outcome NodeValue12;
  db_Insert : D → NodeKey → NodeValue12 → outcome D;
  db_DeleteByNodeKey : D → NodeKey → outcome D;
  db_InsertHashKey : D → NodeKey → NodeKey → outcome D;
  db_DeleteHashKey : D → NodeKey → outcome D;
  db_GetHashKey : D → NodeKey → outcome NodeKey;
  db_GetLastRoot : D → outcome Z;
  db_SetLastRoot : D → Z → outcome D;
  db_GetDepth : D → outcome Z;
  db_SetDepth : D → Z → outcome D;
  db_GetAccountValue : D → NodeKey → outcome NodeValue8;
  db_InsertAccountValue : D → NodeKey → NodeValue8 → outcome D;
  db_GetKeySource : D → NodeKey → outcome (list byte);
  db_InsertKeySource : D → NodeKey → list byte → outcome D;
  db_DeleteKeySource : D → NodeKey → outcome D;
}.

(** A value the tree writes: limbs that are 64-bit words. *)
Definition limbs_wf (n : nat) (v : list (option Z)) : Prop :=
  ∃ xs, v = Some <$> xs ∧ length xs = n ∧ Forall is_u64 xs.

Definition node_wf (v : NodeValue12) : Prop := limbs_wf 12 v.

(** Updates that leave the nodes, the root, or the root and the depth alone. *)
Definition same_nodes `{SmtDB D} (d d' : D) : Prop :=
  ∀ k, nk_wf k → db_Get d' k = db_Get d k.
Definition same_root `{SmtDB D} (d d' : D) : Prop :=
  db_GetLastRoot d' = db_GetLastRoot d.
Definition same_depth `{SmtDB D} (d d' : D) : Prop :=
  db_GetDepth d' = db_GetDepth d.
Definition same_meta `{SmtDB D} (d d' : D) : Prop :=
  same_root d d' ∧ same_depth d d'.

Class SmtDBLaws (D : Type) `{SmtDB D} := {
  law_Insert d k v : nk_wf k → node_wf v →
    ∃ d', db_Insert d k v = Ok d' ∧ db_Get d' k = Ok v ∧ same_meta d d' ∧
      ∀ k', nk_wf k' → k' ≠ k → db_Get d' k' = db_Get d k';
  law_DeleteByNodeKey d k : nk_wf k →
    ∃ d', db_DeleteByNodeKey d k = Ok d' ∧ same_meta d d' ∧
      ∀ k', nk_wf k' → k' ≠ k → db_Get d' k' = db_Get d k';
  law_InsertHashKey d h k : nk_wf h → nk_wf k →
    ∃ d', db_InsertHashKey d h k = Ok d' ∧ same_nodes d d' ∧ same_meta d d' ∧
      db_GetHashKey d' h = Ok k;
  law_DeleteHashKey d h : nk_wf h →
    ∃ d', db_DeleteHashKey d h = Ok d' ∧ same_nodes d d' ∧ same_meta d d';
  law_SetLastRoot d r : 0 ≤ r →
    ∃ d', db_SetLastRoot d r = Ok d' ∧ same_nodes d d' ∧ same_depth d d' ∧
      db_GetLastRoot d' = Ok r;
  law_SetDepth d x : is_u8 x →
    ∃ d', db_SetDepth d x = Ok d' ∧ same_nodes d d' ∧ same_root d d' ∧ db_GetDepth d' = Ok x;
  law_InsertKeySource d k ks : nk_wf k →
    ∃ d', db_InsertKeySource d k ks = Ok d' ∧ same_nodes d d' ∧ same_meta d d' ∧
      db_GetKeySource d' k = Ok ks ∧
      ∀ k', nk_wf k' → k' ≠ k → db_GetKeySource d' k' = db_GetKeySource d k';
}.

Lemma node_wf_length v : node_wf v → length v = 12%nat.
Proof. intros (xs & -> & H & _). by rewrite length_fmap. Qed.

(** * MemDb *)

Record MemDb := mkMemDb {
  Db : gmap string (list string);
  DbAccVal : gmap string (list string);
  DbKeySource : gmap string (list byte);
  DbHashKey : gmap string (list byte);
  DbCode : gmap string (list byte);
  LastRoot : Z;
  Depth : Z;
  LastHeight : Z;
}.

(** The text under which a node is stored. *)
Definition hex_key (key : NodeKey) : string := ConvertBigIntToHex (NodeKey_ToBigInt key).

(** [big.Int.String]: decimal text. *)
Definition dec_key (key : NodeKey) : string := pretty (Z.to_N (NodeKey_ToBigInt key)).

(** Texts of an array of integers; a nil pointer panics. *)
Definition hex_values (value : list (option Z)) : outcome (list string) :=
  foldr (λ o acc, acc ← acc; match o with Some z => Ok (ConvertBigIntToHex z :: acc) | None => Panic end)
    (Ok []) value.

(** The loop [for i, v := range stored { values[i] = ConvertHexToBigInt(v) }]
    over an array of [n] nil pointers. *)
Definition read_values (n : nat) (stored : list string) : outcome (list (option Z)) :=
  if (n <? length stored)%nat then Panic
  else Ok ((Some ∘ ConvertHexToBigInt <$> stored) ++ replicate (n - length stored) None).

Module MemDb.

Definition NewMemDb : MemDb := mkMemDb ∅ ∅ ∅ ∅ ∅ 0 0 0.

Definition GetLastRoot (m : MemDb) : outcome Z := Ok (LastRoot m).

Definition SetLastRoot (m : MemDb) (value : Z) : outcome MemDb :=
  Ok (mkMemDb (Db m) (DbAccVal m) (DbKeySource m) (DbHashKey m) (DbCode m) value (Depth m) (LastHeight m)).

Definition GetDepth (m : MemDb) : outcome Z := Ok (Depth m).

Definition SetDepth (m : MemDb) (depth : Z) : outcome MemDb :=
  Ok (mkMemDb (Db m) (DbAccVal m) (DbKeySource m) (DbHashKey m) (DbCode m) (LastRoot m) depth (LastHeight m)).

Definition with_Db (m : MemDb) (db : gmap string (list string)) : MemDb :=
  mkMemDb db (DbAccVal m) (DbKeySource m) (DbHashKey m) (DbCode m) (LastRoot m) (Depth m) (LastHeight m).

Definition Get (m : MemDb) (key : NodeKey) : outcome NodeValue12 :=
  read_values 12 (default [] (Db m !! hex_key key)).

Definition Insert (m : MemDb) (key : NodeKey) (value : NodeValue12) : outcome MemDb :=
  values ← hex_values value;
  Ok (with_Db m (<[hex_key key := values]> (Db m))).

Definition Delete (m : MemDb) (key : string) : outcome MemDb :=
  Ok (with_Db m (delete key (Db m))).

Definition DeleteByNodeKey (m : MemDb) (key : NodeKey) : outcome MemDb :=
  Ok (with_Db m (delete (hex_key key) (Db m))).

Definition GetAccountValue (m : MemDb) (key : NodeKey) : outcome NodeValue8 :=
  read_values 8 (default [] (DbAccVal m !! hex_key key)).

Definition InsertAccountValue (m : MemDb) (key : NodeKey) (value : NodeValue8) : outcome MemDb :=
  values ← hex_values value;
  Ok (mkMemDb (Db m) (<[hex_key key := values]> (DbAccVal m)) (DbKeySource m) (DbHashKey m)
        (DbCode m) (LastRoot m) (Depth m) (LastHeight m)).

Definition with_KeySource (m : MemDb) (ks : gmap string (list byte)) : MemDb :=
  mkMemDb (Db m) (DbAccVal m) ks (DbHashKey m) (DbCode m) (LastRoot m) (Depth m) (LastHeight m).

Definition InsertKeySource (m : MemDb) (key : NodeKey) (value : list byte) : outcome MemDb :=
  Ok (with_KeySource m (<[dec_key key := value]> (DbKeySource m))).

Definition DeleteKeySource (m : MemDb) (key : NodeKey) : outcome MemDb :=
  Ok (with_KeySource m (delete (dec_key key) (DbKeySource m))).

Definition GetKeySource (m : MemDb) (key : NodeKey) : outcome (list byte) :=
  match DbKeySource m !! dec_key key with Some s => Ok s | None => Err "key not found" end.

Definition with_HashKey (m : MemDb) (hk : gmap string (list byte)) : MemDb :=
  mkMemDb (Db m) (DbAccVal m) (DbKeySource m) hk (DbCode m) (LastRoot m) (Depth m) (LastHeight m).

Definition InsertHashKey (m : MemDb) (key value : NodeKey) : outcome MemDb :=
  Ok (with_HashKey m (<[hex_key key := big_bytes (NodeKey_ToBigInt value)]> (DbHashKey m))).

Definition DeleteHashKey (m : MemDb) (key : NodeKey) : outcome MemDb :=
  Ok (with_HashKey m (delete (hex_key key) (DbHashKey m))).

Definition GetHashKey (m : MemDb) (key : NodeKey) : outcome NodeKey :=
  match DbHashKey m !! hex_key key with
  | None => Err "key not found"
  | Some s => Ok (list_nk (ScalarToArray (be_val s)))
  end.

Definition IsEmpty (m : MemDb) : bool := bool_decide (Db m = ∅).

End MemDb.

#[export] Instance MemDb_SmtDB : SmtDB MemDb := {|
  db_Get := MemDb.Get; db_Insert := MemDb.Insert;
  db_DeleteByNodeKey := MemDb.DeleteByNodeKey;
  db_InsertHashKey := MemDb.InsertHashKey; db_DeleteHashKey := MemDb.DeleteHashKey;
  db_GetHashKey := MemDb.GetHashKey;
  db_GetLastRoot := MemDb.GetLastRoot; db_SetLastRoot := MemDb.SetLastRoot;
  db_GetDepth := MemDb.GetDepth; db_SetDepth := MemDb.SetDepth;
  db_GetAccountValue := MemDb.GetAccountValue;
  db_InsertAccountValue := MemDb.InsertAccountValue;
  db_GetKeySource := MemDb.GetKeySource; db_InsertKeySource := MemDb.InsertKeySource;
  db_DeleteKeySource := MemDb.DeleteKeySource |}.

Lemma hex_key_inj k k' : nk_wf k → nk_wf k' → hex_key k = hex_key k' → k = k'.
Proof.
  intros Hk Hk' H. apply NodeKey_ToBigInt_inj; [done..|].
  apply ConvertBigIntToHex_inj; [by apply NodeKey_ToBigInt_range..|done].
Qed.

Lemma dec_key_inj k k' : nk_wf k → nk_wf k' → dec_key k = dec_key k' → k = k'.
Proof.
  intros Hk Hk' H. apply NodeKey_ToBigInt_inj; [done..|].
  unfold dec_key in H. apply (inj (pretty (A:=N))) in H. apply Z2N.inj in H; [done|by apply NodeKey_ToBigInt_range..].
Qed.

Lemma hex_values_some xs : hex_values (Some <$> xs) = Ok (ConvertBigIntToHex <$> xs).
Proof. induction xs as [|x xs IH]; [done|]. csimpl. unfold hex_values in *. csimpl. by rewrite IH. Qed.

Lemma read_values_written n xs :
  length xs = n → Forall is_u64 xs →
  read_values n (ConvertBigIntToHex <$> xs) = Ok (Some <$> xs).
Proof.
  intros <- Hxs. unfold read_values. rewrite length_fmap, Nat.ltb_irrefl, Nat.sub_diag, app_nil_r.
  f_equal. rewrite <-list_fmap_compose. apply list_fmap_ext. intros i x Hx.
  simpl. rewrite Forall_lookup in Hxs. destruct (Hxs _ _ Hx) as [? _].
  by rewrite ConvertHexToBigInt_ConvertBigIntToHex.
Qed.

Lemma NodeKey_bytes_roundtrip k :
  nk_wf k → list_nk (ScalarToArray (be_val (big_bytes (NodeKey_ToBigInt k)))) = k.
Proof.
  intros Hk. rewrite be_val_big_bytes by apply NodeKey_ToBigInt_range, Hk.
  unfold NodeKey_ToBigInt, ArrayToScalar.
  rewrite ScalarToArray_digits, (le_digits_value' (2 ^ 64)) by (done || lia).
  apply list_nk_nk_list.
Qed.

#[export] Instance MemDb_laws : SmtDBLaws MemDb.
Proof.
  split.
  - intros d k v Hk (xs & -> & Hl & Hxs). simpl. unfold MemDb.Insert.
    rewrite hex_values_some. eexists; split_and!; [done|..|done|].
    + unfold MemDb.Get. simpl. rewrite lookup_insert_eq. by apply read_values_written.
    + intros k' Hk' Hne. unfold MemDb.Get. simpl. rewrite lookup_insert_ne; [done|].
      intros E. by apply Hne, hex_key_inj.
  - intros d k Hk. simpl. eexists; split_and!; [done..|].
    intros k' Hk' Hne. unfold MemDb.Get. simpl. rewrite lookup_delete_ne; [done|].
    intros E. by apply Hne, hex_key_inj.
  - intros d h k Hh Hk. eexists; split_and!; [done..|].
    simpl. unfold MemDb.GetHashKey. simpl. rewrite lookup_insert_eq.
    by rewrite NodeKey_bytes_roundtrip.
  - intros d h Hh. by eexists; split_and!.
  - intros d r Hr. by eexists; split_and!.
  - intros d x Hx. by eexists; split_and!.
  - intros d k ks Hk. eexists; split_and!; [done..| |].
    + simpl. unfold MemDb.GetKeySource. simpl. by rewrite lookup_insert_eq.
    + intros k' Hk' Hne. simpl. unfold MemDb.GetKeySource. simpl. rewrite lookup_insert_ne; [done|].
      intros E. by apply Hne, dec_key_inj.
Qed.

(** * EriDb *)

(** A key-value transaction (kv.RwTx over mdbx): tables of byte strings.  A
    missing key reads as nil. *)
Class KVTx (T : Type) := {
  kv_GetOne : T → string → list byte → outcome (option (list byte));
  kv_Put : T → string → list byte → list byte → outcome T;
  kv_Delete : T → string → list byte → outcome T;
}.

(** The documented behaviour of a transaction that is open for writing. *)
Class KVTxLaws (T : Type) `{KVTx T} := {
  kv_Put_ok t b k v : ∃ t', kv_Put t b k v = Ok t' ∧ kv_GetOne t' b k = Ok (Some v) ∧
    ∀ b' k', (b', k') ≠ (b, k) → kv_GetOne t' b' k' = kv_GetOne t b' k';
  kv_Delete_ok t b k : ∃ t', kv_Delete t b k = Ok t' ∧ kv_GetOne t' b k = Ok None ∧
    ∀ b' k', (b', k') ≠ (b, k) → kv_GetOne t' b' k' = kv_GetOne t b' k';
}.

(** The mathematical map satisfies the laws. *)
Abbreviation KVMap := (gmap (string * list byte) (list byte)).

#[export] Instance gmap_KVTx : KVTx KVMap := {|
  kv_GetOne t b k := Ok (t !! (b, k));
  kv_Put t b k v := Ok (<[(b, k) := v]> t);
  kv_Delete t b k := Ok (delete (b, k) t) |}.

#[export] Instance gmap_KVTxLaws : KVTxLaws KVMap.
Proof.
  split; intros; eexists; (split; [done|]); simpl; split.
  - by rewrite lookup_insert_eq.
  - intros b' k' Hne. by rewrite lookup_insert_ne.
  - by rewrite lookup_delete_eq.
  - intros b' k' Hne. by rewrite lookup_delete_ne.
Qed.

Definition TableSmt : string := "HermezSmt".
Definition TableStats : string := "HermezSmtStats".
Definition TableAccountValues : string := "HermezSmtAccountValues".
Definition TableMetadata : string := "HermezSmtMetadata".
Definition TableHashKey : string := "HermezSmtHashKey".
Definition MetaLastRoot : string := "lastRoot".
Definition MetaDepth : string := "depth".

(** Conversions between Go strings and byte slices. *)
Definition str_bytes (s : string) : list byte := String.list_byte_of_string s.
Definition bytes_str (b : list byte) : string := String.string_of_list_byte b.

(** The SMT tables of an EriDb: reads and writes go to the same transaction. *)
Record EriDb (T : Type) := mkEriDb { eri_tx : T }.
Arguments mkEriDb {T} eri_tx.
Arguments eri_tx {T} e.

Module EriDb.
Section EriDb.
Context {T : Type} `{KVTx T}.

Definition put (m : EriDb T) (table : string) (k v : list byte) : outcome (EriDb T) :=
  mkEriDb <$> kv_Put (eri_tx m) table k v.

Definition del (m : EriDb T) (table : string) (k : list byte) : outcome (EriDb T) :=
  mkEriDb <$> kv_Delete (eri_tx m) table k.

Definition GetLastRoot (m : EriDb T) : outcome Z :=
  data ← kv_GetOne (eri_tx m) TableStats (str_bytes MetaLastRoot);
  match data with
  | None => Ok 0
  | Some data => Ok (ConvertHexToBigInt (bytes_str data))
  end.

Definition SetLastRoot (m : EriDb T) (r : Z) : outcome (EriDb T) :=
  put m TableStats (str_bytes MetaLastRoot) (str_bytes (ConvertBigIntToHex r)).

Definition GetDepth (m : EriDb T) : outcome Z :=
  data ← kv_GetOne (eri_tx m) TableStats (str_bytes MetaDepth);
  match data with
  | None => Ok 0
  | Some data => bz <$> go_index data 0
  end.

Definition SetDepth (m : EriDb T) (depth : Z) : outcome (EriDb T) :=
  put m TableStats (str_bytes MetaDepth) [zb depth].

Definition Get (m : EriDb T) (key : NodeKey) : outcome NodeValue12 :=
  data ← kv_GetOne (eri_tx m) TableSmt (str_bytes (hex_key key));
  match data with
  | None | Some [] => Ok (replicate 12 None)
  | Some data => Ok (ScalarToNodeValue (ConvertHexToBigInt (bytes_str data)))
  end.

Definition Insert (m : EriDb T) (key : NodeKey) (value : NodeValue12) : outcome (EriDb T) :=
  vConc ← ArrayToScalarBig value;
  put m TableSmt (str_bytes (hex_key key)) (str_bytes (ConvertBigIntToHex vConc)).

Definition Delete (m : EriDb T) (key : string) : outcome (EriDb T) :=
  del m TableSmt (str_bytes key).

Definition DeleteByNodeKey (m : EriDb T) (key : NodeKey) : outcome (EriDb T) :=
  del m TableSmt (str_bytes (hex_key key)).

Definition GetAccountValue (m : EriDb T) (key : NodeKey) : outcome NodeValue8 :=
  data ← kv_GetOne (eri_tx m) TableAccountValues (str_bytes (hex_key key));
  match data with
  | None => Ok (replicate 8 None)
  | Some data => Ok (ScalarToNodeValue8 (ConvertHexToBigInt (bytes_str data)))
  end.

Definition InsertAccountValue (m : EriDb T) (key : NodeKey) (value : NodeValue8) : outcome (EriDb T) :=
  vConc ← ArrayToScalarBig value;
  put m TableAccountValues (str_bytes (hex_key key)) (str_bytes (ConvertBigIntToHex vConc)).

Definition InsertKeySource (m : EriDb T) (key : NodeKey) (value : list byte) : outcome (EriDb T) :=
  put m TableMetadata (big_bytes (NodeKey_ToBigInt key)) value.

Definition DeleteKeySource (m : EriDb T) (key : NodeKey) : outcome (EriDb T) :=
  del m TableMetadata (big_bytes (NodeKey_ToBigInt key)).

Definition GetKeySource (m : EriDb T) (key : NodeKey) : outcome (list byte) :=
  data ← kv_GetOne (eri_tx m) TableMetadata (big_bytes (NodeKey_ToBigInt key));
  match data with None => Err "key not found" | Some data => Ok data end.

Definition InsertHashKey (m : EriDb T) (key value : NodeKey) : outcome (EriDb T) :=
  put m TableHashKey (big_bytes (NodeKey_ToBigInt key)) (big_bytes (NodeKey_ToBigInt value)).

Definition DeleteHashKey (m : EriDb T) (key : NodeKey) : outcome (EriDb T) :=
  del m TableHashKey (big_bytes (NodeKey_ToBigInt key)).

Definition GetHashKey (m : EriDb T) (key : NodeKey) : outcome NodeKey :=
  data ← kv_GetOne (eri_tx m) TableHashKey (big_bytes (NodeKey_ToBigInt key));
  match data with
  | None => Err "hash key not found"
  | Some data => Ok (list_nk (ScalarToArray (be_val data)))
  end.
End EriDb.
End EriDb.

#[export] Instance EriDb_SmtDB {T} `{KVTx T} : SmtDB (EriDb T) := {|
  db_Get := EriDb.Get; db_Insert := EriDb.Insert;
  db_DeleteByNodeKey := EriDb.DeleteByNodeKey;
  db_InsertHashKey := EriDb.InsertHashKey; db_DeleteHashKey := EriDb.DeleteHashKey;
  db_GetHashKey := EriDb.GetHashKey;
  db_GetLastRoot := EriDb.GetLastRoot; db_SetLastRoot := EriDb.SetLastRoot;
  db_GetDepth := EriDb.GetDepth; db_SetDepth := EriDb.SetDepth;
  db_GetAccountValue := EriDb.GetAccountValue;
  db_InsertAccountValue := EriDb.InsertAccountValue;
  db_GetKeySource := EriDb.GetKeySource; db_InsertKeySource := EriDb.InsertKeySource;
  db_DeleteKeySource := EriDb.DeleteKeySource |}.

Lemma bytes_str_bytes s : bytes_str (str_bytes s) = s.
Proof. apply String.string_of_list_byte_of_string. Qed.

Lemma str_bytes_inj s s' : str_bytes s = str_bytes s' → s = s'.
Proof. intros H. by rewrite <-(bytes_str_bytes s), H, bytes_str_bytes. Qed.

Lemma str_hex_nonempty n : str_bytes (ConvertBigIntToHex n) ≠ [].
Proof. done. Qed.

Lemma big_key_inj k k' :
  nk_wf k → nk_wf k' → big_bytes (NodeKey_ToBigInt k) = big_bytes (NodeKey_ToBigInt k') → k = k'.
Proof.
  intros Hk Hk' H. apply NodeKey_ToBigInt_inj; [done..|].
  apply (f_equal be_val) in H. rewrite !be_val_big_bytes in H by (apply NodeKey_ToBigInt_range; done).
  done.
Qed.

Lemma read_hex n : 0 ≤ n → ConvertHexToBigInt (bytes_str (str_bytes (ConvertBigIntToHex n))) = n.
Proof. intros Hn. by rewrite bytes_str_bytes, ConvertHexToBigInt_ConvertBigIntToHex. Qed.

Section EriDbLaws.
Context {T : Type} `{KVTxLaws T}.
Implicit Types d : EriDb T.

(** An update of table [b] at key [k] is invisible to a read elsewhere. *)
Lemma put_spec d b k v :
  ∃ d', EriDb.put d b k v = Ok d' ∧ kv_GetOne (eri_tx d') b k = Ok (Some v) ∧
    ∀ b' k', (b', k') ≠ (b, k) → kv_GetOne (eri_tx d') b' k' = kv_GetOne (eri_tx d) b' k'.
Proof.
  unfold EriDb.put. destruct (kv_Put_ok (eri_tx d) b k v) as (t' & -> & Hg & Hf).
  by exists (mkEriDb t').
Qed.

Lemma del_spec d b k :
  ∃ d', EriDb.del d b k = Ok d' ∧ kv_GetOne (eri_tx d') b k = Ok None ∧
    ∀ b' k', (b', k') ≠ (b, k) → kv_GetOne (eri_tx d') b' k' = kv_GetOne (eri_tx d) b' k'.
Proof.
  unfold EriDb.del. destruct (kv_Delete_ok (eri_tx d) b k) as (t' & -> & Hg & Hf).
  by exists (mkEriDb t').
Qed.

Lemma EriDb_Get_frame d d' k :
  kv_GetOne (eri_tx d') TableSmt (str_bytes (hex_key k)) =
    kv_GetOne (eri_tx d) TableSmt (str_bytes (hex_key k)) →
  EriDb.Get d' k = EriDb.Get d k.
Proof. intros E. unfold EriDb.Get. by rewrite E. Qed.

(** Updates of another table keep the nodes and the root. *)
Lemma frame_other d d' b k :
  b ≠ TableSmt → b ≠ TableStats →
  (∀ b' k', (b', k') ≠ (b, k) → kv_GetOne (eri_tx d') b' k' = kv_GetOne (eri_tx d) b' k') →
  same_nodes d d' ∧ same_meta d d'.
Proof.
  intros Hb Hb' Hf. split_and!; [|split].
  - intros k' _. apply EriDb_Get_frame, Hf. congruence.
  - unfold same_root. simpl. unfold EriDb.GetLastRoot. by rewrite Hf by congruence.
  - unfold same_depth. simpl. unfold EriDb.GetDepth. by rewrite Hf by congruence.
Qed.

Lemma frame_nodes d d' k :
  nk_wf k →
  (∀ b' k', (b', k') ≠ (TableSmt, str_bytes (hex_key k)) →
     kv_GetOne (eri_tx d') b' k' = kv_GetOne (eri_tx d) b' k') →
  same_meta d d' ∧ ∀ k', nk_wf k' → k' ≠ k → EriDb.Get d' k' = EriDb.Get d k'.
Proof.
  intros Hk Hf. split_and!; [split|].
  - unfold same_root. simpl. unfold EriDb.GetLastRoot. by rewrite Hf by done.
  - unfold same_depth. simpl. unfold EriDb.GetDepth. by rewrite Hf by done.
  - intros k' Hk' Hne. apply EriDb_Get_frame, Hf. intros E.
    apply (f_equal snd) in E. by apply Hne, hex_key_inj, str_bytes_inj.
Qed.

#[export] Instance EriDb_laws : SmtDBLaws (EriDb T).
Proof.
  split; simpl.
  - intros d k v Hk (xs & -> & Hl & Hxs).
    destruct (ScalarToNodeValue_ArrayToScalarBig xs Hl Hxs) as [Hv Hr].
    unfold EriDb.Insert. rewrite Hv. simpl.
    edestruct put_spec as (d' & -> & Hg & Hf). exists d'.
    destruct (frame_nodes d d' k Hk Hf) as [Hroot Hother]. split_and!; [done| |done..].
    unfold EriDb.Get. rewrite Hg. simpl.
    pose proof (le_value_range (2 ^ 64) xs ltac:(lia) Hxs) as [Hpos _].
    pose proof (read_hex _ Hpos) as Hread. revert Hread.
    destruct (str_bytes _) eqn:E; [by apply str_hex_nonempty in E|].
    intros ->. by rewrite Hr.
  - intros d k Hk. unfold EriDb.DeleteByNodeKey.
    destruct (del_spec d TableSmt (str_bytes (hex_key k))) as (d' & -> & Hg & Hf).
    exists d'. destruct (frame_nodes d d' k Hk Hf) as [Hroot Hother]. done.
  - intros d h k Hh Hk. unfold EriDb.InsertHashKey.
    edestruct put_spec as (d' & -> & Hg & Hf). exists d'.
    destruct (frame_other d d' TableHashKey _ ltac:(done) ltac:(done) Hf) as [Hn Hr].
    split_and!; [done..|]. unfold EriDb.GetHashKey. rewrite Hg. simpl.
    by rewrite NodeKey_bytes_roundtrip.
  - intros d h Hh. unfold EriDb.DeleteHashKey.
    edestruct del_spec as (d' & -> & Hg & Hf). exists d'. split; [done|].
    by apply (frame_other d d' TableHashKey (big_bytes (NodeKey_ToBigInt h))).
  - intros d r Hr. unfold EriDb.SetLastRoot.
    edestruct put_spec as (d' & -> & Hg & Hf). exists d'. split_and!; [done| | |].
    + intros k _. by apply EriDb_Get_frame, Hf.
    + unfold same_depth. simpl. unfold EriDb.GetDepth. by rewrite Hf by done.
    + unfold EriDb.GetLastRoot. rewrite Hg. simpl. by rewrite read_hex.
  - intros d x Hx. unfold EriDb.SetDepth.
    edestruct put_spec as (d' & -> & Hg & Hf). exists d'.
    split_and!; [done| | |].
    { intros k _. by apply EriDb_Get_frame, Hf. }
    { unfold same_root. simpl. unfold EriDb.GetLastRoot. by rewrite Hf by done. }
    unfold EriDb.GetDepth. rewrite Hg. simpl.
    unfold go_index. simpl. rewrite bz_zb, Z.mod_small by (unfold is_u8 in Hx; lia). done.
  - intros d k ks Hk. unfold EriDb.InsertKeySource.
    edestruct put_spec as (d' & -> & Hg & Hf). exists d'.
    destruct (frame_other d d' TableMetadata _ ltac:(done) ltac:(done) Hf) as [Hn Hr].
    split_and!; [done..| |]; unfold EriDb.GetKeySource; [by rewrite Hg|].
    intros k' Hk' Hne. rewrite Hf; [done|]. intros E. apply (f_equal snd) in E.
    by apply Hne, big_key_inj.
Qed.
End EriDbLaws.
