(* ===== verification/SmtTree.v ===== *)
(** The specification of the sparse Merkle tree: a canonical binary tree over
    256-bit keys.

    A tree holds each key in the only leaf on its path, at the first depth at
    which no other key shares its bits; [tget], [tset] are lookup and update.
    A canonical tree is determined by the map it stores ([tree_ok_unique]), so
    its root hash [thash] is a function of that map alone.  [tree_nodes] lists
    the preimages that a store must hold for the tree to be readable. *)

From S2P Require Import Prelude Bytes SmtUtils.

Local Open Scope Z_scope.

Inductive tree :=
| Empty
| Leaf (k : NodeKey) (v : list Z)
| Branch (l r : tree).

#[export] Instance tree_eq_dec : EqDecision tree.
Proof. solve_decision. Defined.

(** * Lookup and update *)

Fixpoint tget (d : nat) (t : tree) (k : NodeKey) : option (list Z) :=
  match t with
  | Empty => None
  | Leaf k' v => if decide (k = k') then Some v else None
  | Branch l r => if keybit k d then tget (S d) r k else tget (S d) l k
  end.

(** Two leaves below depth [d]: single-child branches down to the first bit in
    which their keys differ; [n] bounds the number of levels left. *)
Fixpoint tsplit (n d : nat) (k : NodeKey) (v : list Z) (k' : NodeKey) (v' : list Z) : tree :=
  match n with
  | O => Empty
  | S n =>
      match keybit k d, keybit k' d with
      | true, true => Branch Empty (tsplit n (S d) k v k' v')
      | false, false => Branch (tsplit n (S d) k v k' v') Empty
      | true, false => Branch (Leaf k' v') (Leaf k v)
      | false, true => Branch (Leaf k v) (Leaf k' v')
      end
  end.

Fixpoint tins (d : nat) (t : tree) (k : NodeKey) (v : list Z) : tree :=
  match t with
  | Empty => Leaf k v
  | Leaf k' v' => if decide (k = k') then Leaf k v else tsplit (256 - d) d k v k' v'
  | Branch l r =>
      if keybit k d then Branch l (tins (S d) r k v) else Branch (tins (S d) l k v) r
  end.

(** A branch whose only content is one leaf becomes that leaf. *)
Definition mk_branch (l r : tree) : tree :=
  match l, r with
  | Empty, Empty => Empty
  | Empty, Leaf k v => Leaf k v
  | Leaf k v, Empty => Leaf k v
  | _, _ => Branch l r
  end.

Fixpoint tdel (d : nat) (t : tree) (k : NodeKey) : tree :=
  match t with
  | Empty => Empty
  | Leaf k' v' => if decide (k = k') then Empty else Leaf k' v'
  | Branch l r =>
      if keybit k d then mk_branch l (tdel (S d) r k) else mk_branch (tdel (S d) l k) r
  end.

(** Writing eight zero limbs removes the key. *)
Definition tset (t : tree) (k : NodeKey) (v : list Z) : tree :=
  if decide (v = replicate 8 0) then tdel 0 t k else tins 0 t k v.

(** * Canonical trees *)

Fixpoint nleaves (t : tree) : nat :=
  match t with
  | Empty => 0
  | Leaf _ _ => 1
  | Branch l r => nleaves l + nleaves r
  end.

Definition val_ok (v : list Z) : Prop :=
  length v = 8%nat ∧ Forall is_u64 v ∧ v ≠ replicate 8 0.

#[export] Instance val_ok_dec v : Decision (val_ok v).
Proof. unfold val_ok. apply _. Defined.

(** [k] starts with the bits [p]. *)
Definition has_path (p : list bool) (k : NodeKey) : Prop :=
  ∀ j b, p !! j = Some b → keybit k j = b.

Fixpoint tree_ok (p : list bool) (t : tree) : Prop :=
  match t with
  | Empty => True
  | Leaf k v => nk_wf k ∧ has_path p k ∧ val_ok v
  | Branch l r =>
      (length p < 256)%nat ∧ (2 ≤ nleaves l + nleaves r)%nat ∧
      tree_ok (p ++ [false]) l ∧ tree_ok (p ++ [true]) r
  end.

Lemma has_path_snoc p b k :
  has_path (p ++ [b]) k ↔ has_path p k ∧ keybit k (length p) = b.
Proof.
  unfold has_path. split.
  - intros H. split.
    + intros j b' Hj. apply H. by apply lookup_app_l_Some.
    + apply H. by rewrite lookup_app_r, Nat.sub_diag by lia.
  - intros [H1 H2] j b' Hj. apply lookup_app_Some in Hj as [Hj|[Hj1 Hj2]]; [by apply H1|].
    destruct (j - length p)%nat eqn:E; [|done]. simpl in Hj2. injection Hj2 as <-.
    by replace j with (length p) by lia.
Qed.

Lemma has_path_nil k : has_path [] k.
Proof. by intros j b. Qed.

(** Keys on a common path of full length are equal. *)
Lemma has_path_full p k k' :
  (256 ≤ length p)%nat → nk_wf k → nk_wf k' → has_path p k → has_path p k' → k = k'.
Proof.
  intros Hp Hk Hk' H H'. apply keybit_ext; [done..|]. intros j Hj.
  destruct (p !! j) as [b|] eqn:E; [|apply lookup_ge_None in E; lia].
  by rewrite (H _ _ E), (H' _ _ E).
Qed.

#[export] Hint Resolve has_path_nil : words.

(** ** Lookup stays on the path *)

Lemma tget_path p t k v : tree_ok p t → tget (length p) t k = Some v → nk_wf k ∧ has_path p k.
Proof.
  revert p. induction t as [|k' v'|l IHl r IHr]; intros p Hok H; simpl in *; [done| |].
  - case_decide; [|done]. subst. tauto.
  - destruct Hok as (_ & _ & Hl & Hr). destruct (keybit k (length p)) eqn:E.
    + destruct (IHr (p ++ [true])) as [H1 H2%has_path_snoc]; [done| |tauto].
      by rewrite length_app, Nat.add_1_r.
    + destruct (IHl (p ++ [false])) as [H1 H2%has_path_snoc]; [done| |tauto].
      by rewrite length_app, Nat.add_1_r.
Qed.

Lemma tget_val_ok p t k v : tree_ok p t → tget (length p) t k = Some v → val_ok v.
Proof.
  revert p. induction t as [|k' v'|l IHl r IHr]; intros p Hok H; simpl in *; [done| |].
  - case_decide; [|done]. injection H as <-. tauto.
  - destruct Hok as (_ & _ & Hl & Hr). destruct (keybit k (length p)).
    + apply (IHr (p ++ [true])); [done|]. by rewrite length_app, Nat.add_1_r.
    + apply (IHl (p ++ [false])); [done|]. by rewrite length_app, Nat.add_1_r.
Qed.

(** ** Insertion *)

Lemma length_snoc {A} (p : list A) b : length (p ++ [b]) = S (length p).
Proof. rewrite length_app. simpl. lia. Qed.

Lemma tsplit_ok n p k v k' v' :
  (n = 256 - length p)%nat → nk_wf k → nk_wf k' → val_ok v → val_ok v' → k ≠ k' →
  has_path p k → has_path p k' →
  tree_ok p (tsplit n (length p) k v k' v') ∧ nleaves (tsplit n (length p) k v k' v') = 2%nat.
Proof.
  intros Hn Hk Hk' Hv Hv' Hne. revert p Hn. induction n as [|n IH]; intros p Hn Hp Hp'.
  { destruct Hne. apply (has_path_full p); auto with words. }
  assert (∀ b, keybit k (length p) = b → keybit k' (length p) = b →
    tree_ok (p ++ [b]) (tsplit n (S (length p)) k v k' v') ∧
    nleaves (tsplit n (S (length p)) k v k' v') = 2%nat) as IH'.
  { intros b E E'. rewrite <-(length_snoc p b).
    apply IH; rewrite ?length_snoc, ?has_path_snoc; auto with words. }
  simpl. destruct (keybit k (length p)) eqn:E, (keybit k' (length p)) eqn:E'; simpl.
  - destruct (IH' true) as [H1 H2]; [done..|]. rewrite H2. split_auto.
  - rewrite !has_path_snoc. split_auto.
  - rewrite !has_path_snoc. split_auto.
  - destruct (IH' false) as [H1 H2]; [done..|]. rewrite H2. split_auto.
Qed.

Lemma tget_tsplit n p k v k' v' q :
  (n = 256 - length p)%nat → nk_wf k → nk_wf k' → k ≠ k' → has_path p k → has_path p k' →
  tget (length p) (tsplit n (length p) k v k' v') q =
    if decide (q = k) then Some v else if decide (q = k') then Some v' else None.
Proof.
  intros Hn Hk Hk' Hne. revert p Hn. induction n as [|n IH]; intros p Hn Hp Hp'.
  { destruct Hne. apply (has_path_full p); auto with words. }
  assert (∀ b, keybit k (length p) = b → keybit k' (length p) = b →
    tget (S (length p)) (tsplit n (S (length p)) k v k' v') q =
      if decide (q = k) then Some v else if decide (q = k') then Some v' else None) as IH'.
  { intros b E E'. rewrite <-(length_snoc p b).
    apply IH; rewrite ?length_snoc, ?has_path_snoc; auto with words. }
  simpl. destruct (keybit k (length p)) eqn:E, (keybit k' (length p)) eqn:E'; simpl;
    destruct (keybit q (length p)) eqn:Eq; try (by apply (IH' true)); try (by apply (IH' false));
    repeat case_decide; subst; congruence.
Qed.

Lemma tins_nleaves p t k v :
  tree_ok p t → nk_wf k → val_ok v → has_path p k →
  (nleaves t ≤ nleaves (tins (length p) t k v) ∧ 1 ≤ nleaves (tins (length p) t k v))%nat.
Proof.
  revert p. induction t as [|k' v'|l IHl r IHr]; intros p Hok Hk Hv Hp; simpl; [lia| |].
  - case_decide; simpl; [lia|]. destruct Hok as (Hk' & Hp' & Hv').
    destruct (tsplit_ok (256 - length p) p k v k' v') as [_ ->]; auto with words.
  - destruct Hok as (Hlen & _ & Hl & Hr). destruct (keybit k (length p)) eqn:E; simpl.
    + destruct (IHr (p ++ [true])) as [H1 H2]; rewrite ?has_path_snoc, ?length_snoc in *; auto with words.
    + destruct (IHl (p ++ [false])) as [H1 H2]; rewrite ?has_path_snoc, ?length_snoc in *; auto with words.
Qed.

Lemma tins_ok p t k v :
  tree_ok p t → nk_wf k → val_ok v → has_path p k → tree_ok p (tins (length p) t k v).
Proof.
  revert p. induction t as [|k' v'|l IHl r IHr]; intros p Hok Hk Hv Hp; simpl; [done| |].
  - case_decide; simpl; [done|]. destruct Hok as (Hk' & Hp' & Hv').
    apply (tsplit_ok (256 - length p) p k v k' v'); auto.
  - destruct Hok as (Hlen & Hn & Hl & Hr). destruct (keybit k (length p)) eqn:E; simpl.
    + destruct (tins_nleaves (p ++ [true]) r k v) as [H1 H2]; rewrite ?has_path_snoc; auto.
      rewrite length_snoc in *. split_and!; auto with words.
      rewrite <-(length_snoc p true). apply IHr; rewrite ?has_path_snoc; auto.
    + destruct (tins_nleaves (p ++ [false]) l k v) as [H1 H2]; rewrite ?has_path_snoc; auto.
      rewrite length_snoc in *. split_and!; auto with words.
      rewrite <-(length_snoc p false). apply IHl; rewrite ?has_path_snoc; auto.
Qed.

Lemma tget_tins p t k v q :
  tree_ok p t → nk_wf k → has_path p k →
  tget (length p) (tins (length p) t k v) q =
    if decide (q = k) then Some v else tget (length p) t q.
Proof.
  revert p. induction t as [|k' v'|l IHl r IHr]; intros p Hok Hk Hp; simpl; [done| |].
  - destruct Hok as (Hk' & Hp' & Hv'). case_decide as E; subst; simpl; [by repeat case_decide|].
    by apply tget_tsplit.
  - destruct Hok as (Hlen & Hn & Hl & Hr). destruct (keybit k (length p)) eqn:E; simpl;
      destruct (keybit q (length p)) eqn:Eq.
    + rewrite <-(length_snoc p true). apply IHr; rewrite ?has_path_snoc; auto.
    + rewrite decide_False; [done|]. congruence.
    + rewrite decide_False; [done|]. congruence.
    + rewrite <-(length_snoc p false). apply IHl; rewrite ?has_path_snoc; auto.
Qed.

(** ** Deletion *)

Lemma mk_branch_nleaves l r : nleaves (mk_branch l r) = (nleaves l + nleaves r)%nat.
Proof. by destruct l, r. Qed.

Lemma leaves_0 p t : tree_ok p t → nleaves t = 0%nat → t = Empty.
Proof. destruct t; simpl; [done|lia|]. intros (? & ? & _). lia. Qed.

Lemma mk_branch_ok p l r :
  (length p < 256)%nat → tree_ok (p ++ [false]) l → tree_ok (p ++ [true]) r →
  tree_ok p (mk_branch l r).
Proof.
  intros Hp Hl Hr.
  assert ((2 ≤ nleaves l + nleaves r)%nat → tree_ok p (Branch l r)) as Hb by done.
  destruct l as [|k v|l1 l2], r as [|k' v'|r1 r2]; simpl mk_branch; auto;
    try (apply Hb; simpl in *; lia).
  - simpl in *. rewrite has_path_snoc in Hr. tauto.
  - simpl in *. rewrite has_path_snoc in Hl. tauto.
Qed.

Lemma tdel_ok p t k : tree_ok p t → tree_ok p (tdel (length p) t k).
Proof.
  revert p. induction t as [|k' v'|l IHl r IHr]; intros p Hok; simpl; [done| |].
  - by case_decide.
  - destruct Hok as (Hlen & Hn & Hl & Hr).
    destruct (keybit k (length p)); apply mk_branch_ok; auto.
    + rewrite <-(length_snoc p true). auto.
    + rewrite <-(length_snoc p false). auto.
Qed.

Lemma tget_mk_branch p l r q :
  tree_ok (p ++ [false]) l → tree_ok (p ++ [true]) r →
  tget (length p) (mk_branch l r) q = tget (length p) (Branch l r) q.
Proof.
  intros Hl Hr. destruct l as [|k v|l1 l2], r as [|k' v'|r1 r2]; try done; simpl.
  - by destruct (keybit q (length p)).
  - simpl in Hr. rewrite has_path_snoc in Hr. case_decide; subst; [|by destruct (keybit q (length p))].
    destruct Hr as (_ & [_ ->] & _). done.
  - simpl in Hl. rewrite has_path_snoc in Hl. case_decide; subst; [|by destruct (keybit q (length p))].
    destruct Hl as (_ & [_ ->] & _). done.
Qed.

Lemma tget_tdel p t k q :
  tree_ok p t → nk_wf k → has_path p k →
  tget (length p) (tdel (length p) t k) q = if decide (q = k) then None else tget (length p) t q.
Proof.
  revert p. induction t as [|k' v'|l IHl r IHr]; intros p Hok Hk Hp; simpl; [by case_decide| |].
  - case_decide; subst; simpl; repeat case_decide; congruence.
  - destruct Hok as (Hlen & Hn & Hl & Hr).
    pose proof (tdel_ok (p ++ [true]) r k Hr) as Hr'. pose proof (tdel_ok (p ++ [false]) l k Hl) as Hl'.
    rewrite length_snoc in Hr', Hl'. destruct (keybit k (length p)) eqn:E; rewrite tget_mk_branch by done; simpl;
      destruct (keybit q (length p)) eqn:Eq.
    + rewrite <-(length_snoc p true). apply IHr; rewrite ?has_path_snoc; auto.
    + rewrite decide_False; [done|]. congruence.
    + rewrite decide_False; [done|]. congruence.
    + rewrite <-(length_snoc p false). apply IHl; rewrite ?has_path_snoc; auto.
Qed.

(** ** Uniqueness *)

Lemma tget_left p l r k v :
  tree_ok (p ++ [false]) l → tget (S (length p)) l k = Some v →
  tget (length p) (Branch l r) k = Some v ∧ keybit k (length p) = false.
Proof.
  intros Hl H. rewrite <-(length_snoc p false) in H.
  destruct (tget_path _ _ _ _ Hl H) as [_ [_ E]%has_path_snoc]. simpl.
  rewrite E. by rewrite length_snoc in H.
Qed.

Lemma tget_right p l r k v :
  tree_ok (p ++ [true]) r → tget (S (length p)) r k = Some v →
  tget (length p) (Branch l r) k = Some v ∧ keybit k (length p) = true.
Proof.
  intros Hr H. rewrite <-(length_snoc p true) in H.
  destruct (tget_path _ _ _ _ Hr H) as [_ [_ E]%has_path_snoc]. simpl.
  rewrite E. by rewrite length_snoc in H.
Qed.

Lemma tree_has_leaf p t :
  tree_ok p t → (1 ≤ nleaves t)%nat → ∃ k v, tget (length p) t k = Some v.
Proof.
  revert p. induction t as [|k v|l IHl r IHr]; intros p Hok Hn; simpl in Hn; [lia| |].
  - exists k, v. simpl. by rewrite decide_True.
  - destruct Hok as (_ & _ & Hl & Hr). destruct (decide (1 ≤ nleaves l)%nat).
    + destruct (IHl (p ++ [false])) as (k & v & H); [done..|]. rewrite length_snoc in H.
      exists k, v. by apply tget_left.
    + destruct (IHr (p ++ [true])) as (k & v & H); [done|lia|]. rewrite length_snoc in H.
      exists k, v. by apply tget_right.
Qed.

Lemma tree_has_two_leaves p t :
  tree_ok p t → (2 ≤ nleaves t)%nat →
  ∃ k v k' v', k ≠ k' ∧ tget (length p) t k = Some v ∧ tget (length p) t k' = Some v'.
Proof.
  revert p. induction t as [|k v|l IHl r IHr]; intros p Hok Hn; simpl in Hn; [lia..|].
  destruct Hok as (_ & _ & Hl & Hr).
  destruct (decide (2 ≤ nleaves l)%nat); [|destruct (decide (2 ≤ nleaves r)%nat)].
  - destruct (IHl (p ++ [false])) as (k & v & k' & v' & Hne & H & H'); [done..|].
    rewrite length_snoc in H, H'. exists k, v, k', v'. split; [done|]. split; by apply tget_left.
  - destruct (IHr (p ++ [true])) as (k & v & k' & v' & Hne & H & H'); [done..|].
    rewrite length_snoc in H, H'. exists k, v, k', v'. split; [done|]. split; by apply tget_right.
  - destruct (tree_has_leaf (p ++ [false]) l) as (k & v & H); [done|lia|].
    destruct (tree_has_leaf (p ++ [true]) r) as (k' & v' & H'); [done|lia|].
    rewrite length_snoc in H, H'.
    destruct (tget_left p l r k v Hl H) as [G E]. destruct (tget_right p l r k' v' Hr H') as [G' E'].
    exists k, v, k', v'. split_and!; [congruence|done..].
Qed.

(** A canonical tree is determined by its contents. *)
Lemma tree_ok_unique p t t' :
  tree_ok p t → tree_ok p t' →
  (∀ k, nk_wf k → has_path p k → tget (length p) t k = tget (length p) t' k) → t = t'.
Proof.
  revert p t'. induction t as [|k v|l IHl r IHr]; intros p t' Hok Hok' H.
  - symmetry. apply (leaves_0 p); [done|]. destruct (nleaves t') as [|n] eqn:E; [done|].
    destruct (tree_has_leaf p t') as (k & v & G); [done|lia|].
    destruct (tget_path _ _ _ _ Hok' G). rewrite <-H in G by done. done.
  - destruct Hok as (Hk & Hp & Hv). destruct t' as [|k' v'|l' r'].
    + specialize (H k Hk Hp). simpl in H. by rewrite decide_True in H.
    + specialize (H k Hk Hp). simpl in H. rewrite decide_True in H by done.
      case_decide; congruence.
    + destruct (tree_has_two_leaves p (Branch l' r')) as (k1 & v1 & k2 & v2 & Hne & G1 & G2);
        [done|by destruct Hok' as (_ & ? & _)|].
      destruct (tget_path _ _ _ _ Hok' G1). destruct (tget_path _ _ _ _ Hok' G2).
      rewrite <-H in G1, G2 by done. simpl in G1, G2. repeat case_decide; congruence.
  - destruct t' as [|k' v'|l' r'].
    + destruct (tree_has_leaf p (Branch l r)) as (k & v & G); [done|destruct Hok as (_ & ? & _); simpl; lia|].
      destruct (tget_path _ _ _ _ Hok G). rewrite H in G by done. done.
    + destruct (tree_has_two_leaves p (Branch l r)) as (k1 & v1 & k2 & v2 & Hne & G1 & G2);
        [done|by destruct Hok as (_ & ? & _)|].
      destruct (tget_path _ _ _ _ Hok G1). destruct (tget_path _ _ _ _ Hok G2).
      rewrite H in G1, G2 by done. simpl in G1, G2. repeat case_decide; congruence.
    + destruct Hok as (_ & _ & Hl & Hr), Hok' as (_ & _ & Hl' & Hr'). f_equal.
      * apply (IHl (p ++ [false])); [done..|]. intros k Hk [Hp E]%has_path_snoc.
        specialize (H k Hk Hp). simpl in H. rewrite E in H. by rewrite length_snoc.
      * apply (IHr (p ++ [true])); [done..|]. intros k Hk [Hp E]%has_path_snoc.
        specialize (H k Hk Hp). simpl in H. rewrite E in H. by rewrite length_snoc.
Qed.

(** * The update as a map operation *)

(** [models t m]: the tree [t] stores exactly the map [m]. *)
Definition models (t : tree) (m : gmap NodeKey (list Z)) : Prop :=
  ∀ k, nk_wf k → tget 0 t k = m !! k.

Definition map_set (m : gmap NodeKey (list Z)) (k : NodeKey) (v : list Z) : gmap NodeKey (list Z) :=
  if decide (v = replicate 8 0) then delete k m else <[k := v]> m.

Definition word8 (v : list Z) : Prop := length v = 8%nat ∧ Forall is_u64 v.

#[export] Instance word8_dec v : Decision (word8 v).
Proof. unfold word8. apply _. Defined.

Lemma tset_ok t k v : tree_ok [] t → nk_wf k → word8 v → tree_ok [] (tset t k v).
Proof.
  intros Ht Hk [Hl Hv]. unfold tset. case_decide; [by apply (tdel_ok [])|].
  apply (tins_ok []); auto with words. done.
Qed.

Lemma tget_tset t k v q :
  tree_ok [] t → nk_wf k →
  tget 0 (tset t k v) q =
    if decide (q = k) then (if decide (v = replicate 8 0) then None else Some v) else tget 0 t q.
Proof.
  intros Ht Hk. unfold tset. case_decide.
  - apply (tget_tdel [] t k q); auto with words.
  - apply (tget_tins [] t k v q); auto with words.
Qed.

Lemma models_tset t m k v :
  tree_ok [] t → models t m → nk_wf k → models (tset t k v) (map_set m k v).
Proof.
  intros Ht Hm Hk q Hq. rewrite tget_tset, Hm by done. unfold map_set.
  repeat case_decide; subst; by simplify_map_eq.
Qed.

Lemma models_unique t t' m :
  tree_ok [] t → tree_ok [] t' → models t m → models t' m → t = t'.
Proof.
  intros Ht Ht' Hm Hm'. apply (tree_ok_unique []); [done..|].
  intros k Hk _. simpl. by rewrite Hm, Hm'.
Qed.

(** ** The canonical tree of a map *)

Definition map_wf (m : gmap NodeKey (list Z)) : Prop := map_Forall (λ k v, nk_wf k ∧ val_ok v) m.

#[export] Instance map_wf_dec m : Decision (map_wf m).
Proof. unfold map_wf. apply _. Defined.

Definition map_tree (m : gmap NodeKey (list Z)) : tree :=
  map_fold (λ k v t, tins 0 t k v) Empty m.

Lemma map_tree_spec m : map_wf m → tree_ok [] (map_tree m) ∧ models (map_tree m) m.
Proof.
  unfold map_tree. apply (map_fold_weak_ind (λ t m, map_wf m → tree_ok [] t ∧ models t m)).
  - intros _. split; [done|]. intros k Hk. by rewrite lookup_empty.
  - intros k v m' t Hk IH [[Hwk Hv] Hm]%map_Forall_insert; [|done].
    destruct (IH Hm) as [Hok Hmod]. split; [apply (tins_ok []); auto with words|].
    intros q Hq. pose proof (tget_tins [] t k v q Hok Hwk (has_path_nil k)) as E. simpl in E.
    rewrite E. case_decide; subst; simplify_map_eq; auto.
Qed.

Lemma map_tree_unique t m : map_wf m → tree_ok [] t → models t m → t = map_tree m.
Proof.
  intros Hm Hok Ht. destruct (map_tree_spec m Hm) as [Hok' Ht']. by eapply models_unique.
Qed.

Lemma map_set_wf m k v : map_wf m → nk_wf k → word8 v → map_wf (map_set m k v).
Proof.
  intros Hm Hk [Hl Hv]. unfold map_set. case_decide.
  - by apply map_Forall_delete.
  - by apply map_Forall_insert_2.
Qed.

(** Writing to the tree is writing to the map. *)
Lemma map_tree_set m k v :
  map_wf m → nk_wf k → word8 v → tset (map_tree m) k v = map_tree (map_set m k v).
Proof.
  intros Hm Hk Hv. destruct (map_tree_spec m Hm) as [Hok Hmod].
  apply map_tree_unique; [by apply map_set_wf|by apply tset_ok|by apply models_tset].
Qed.

(** * Hashing *)

(** What the hash function is applied to: eight words and a capacity. *)
Definition preimage : Type := list Z * NodeKey.

Definition node_of (p : preimage) : NodeValue12 := ConcatArrays8AndCapacityByPointers p.1 p.2.

Definition preimage_wf (p : preimage) : Prop := word8 p.1 ∧ nk_wf p.2.

Section Hashing.
Context (hash : list Z → NodeKey → NodeKey).

Definition phash (p : preimage) : NodeKey := hash p.1 p.2.

Definition val_pre (v : list Z) : preimage := (v, BranchCapacity).
Definition leaf_pre (d : nat) (k : NodeKey) (v : list Z) : preimage :=
  (ConcatArrays4 (RemoveKeyBits k (Z.of_nat d)) (phash (val_pre v)), LeafCapacity).
Definition branch_pre (hl hr : NodeKey) : preimage := (ConcatArrays4 hl hr, BranchCapacity).

Fixpoint thash (d : nat) (t : tree) : NodeKey :=
  match t with
  | Empty => nk_zero
  | Leaf k v => phash (leaf_pre d k v)
  | Branch l r => phash (branch_pre (thash (S d) l) (thash (S d) r))
  end.

Fixpoint tree_nodes (d : nat) (t : tree) : list preimage :=
  match t with
  | Empty => []
  | Leaf k v => [val_pre v; leaf_pre d k v]
  | Branch l r =>
      branch_pre (thash (S d) l) (thash (S d) r) :: tree_nodes (S d) l ++ tree_nodes (S d) r
  end.

(** The only assumptions on the hash function: on the nodes at hand it has no
    collision and does not return the all-zero key, which stands for an empty
    subtree. *)
Definition hash_good (ps : list preimage) : Prop :=
  Forall (λ p, phash p ≠ nk_zero ∧ Forall (λ q, phash p = phash q → p = q) ps) ps.

(** The same as a computation that hashes every preimage once. *)
Definition hash_check (ps : list preimage) : bool :=
  let hs := (λ p, (phash p, p)) <$> ps in
  forallb (λ x, if decide (x.1 = nk_zero) then false
    else forallb (λ y, if decide (x.1 = y.1) then bool_decide (x.2 = y.2) else true) hs) hs.

Lemma forallb_Forall {A} (f : A → bool) l : forallb f l = true ↔ Forall (λ x, f x = true) l.
Proof. rewrite forallb_forall, Forall_forall. by setoid_rewrite <-list_elem_of_In. Qed.

Lemma hash_check_spec ps : hash_check ps = true ↔ hash_good ps.
Proof.
  unfold hash_check, hash_good. rewrite forallb_Forall, Forall_fmap. apply Forall_proper; [|done]. intros p. cbn.
  destruct (decide (phash p = nk_zero)); [naive_solver|]. rewrite forallb_Forall, Forall_fmap.
  transitivity (Forall (λ q, phash p = phash q → p = q) ps); [|naive_solver].
  apply Forall_proper; [|done]. intros q. cbn. destruct (decide (phash p = phash q)); [|naive_solver].
  rewrite bool_decide_eq_true. naive_solver.
Qed.

#[export] Instance hash_good_dec ps : Decision (hash_good ps).
Proof.
  refine (match decide (hash_check ps = true) with left H => left _ | right H => right _ end);
    by rewrite <-hash_check_spec.
Defined.

Lemma hash_good_sub U ps : hash_good U → ps ⊆ U → hash_good ps.
Proof.
  unfold hash_good. rewrite !Forall_forall. intros HU Hps p Hp.
  destruct (HU p (Hps p Hp)) as [H1 H2]. split; [done|].
  rewrite Forall_forall in *. intros q Hq. apply H2. auto.
Qed.

Lemma hash_good_nonzero U p : hash_good U → p ∈ U → phash p ≠ nk_zero.
Proof. intros HU Hp. by apply (proj1 (Forall_forall _ _) HU p Hp). Qed.

Lemma hash_good_inj U p q : hash_good U → p ∈ U → q ∈ U → phash p = phash q → p = q.
Proof.
  intros HU Hp Hq. destruct (proj1 (Forall_forall _ _) HU p Hp) as [_ H2].
  by apply (proj1 (Forall_forall _ _) H2 q Hq).
Qed.

Lemma thash_nonzero U d t :
  hash_good U → tree_nodes d t ⊆ U → t ≠ Empty → thash d t ≠ nk_zero.
Proof.
  intros HU Ht Hne. destruct t as [|k v|l r]; [done| |].
  - apply (hash_good_nonzero U); [done|]. apply Ht. simpl. set_solver.
  - apply (hash_good_nonzero U); [done|]. apply Ht. simpl. set_solver.
Qed.

(** The root and the nodes of the canonical tree of a map. *)
Definition map_root (m : gmap NodeKey (list Z)) : NodeKey := thash 0 (map_tree m).
Definition map_nodes (m : gmap NodeKey (list Z)) : list preimage := tree_nodes 0 (map_tree m).
End Hashing.
Arguments hash_good_sub {hash}.
Arguments hash_good_nonzero {hash}.
Arguments hash_good_inj {hash}.
Arguments thash_nonzero {hash}.

(** A concrete hash function, for closed instances of the theorems: a
    polynomial in the twelve words, modulo a prime. *)
Definition sample_hash (i : list Z) (c : NodeKey) : NodeKey :=
  NK (foldl (λ h w, (h * 8191 + w + 1) mod 2147483647) 7 (i ++ nk_list c)) 1 0 0.

Lemma sample_hash_wf i c : nk_wf (sample_hash i c).
Proof.
  unfold sample_hash. generalize (i ++ nk_list c). intros l.
  assert (∀ h, 0 ≤ h < 2147483647 → 0 ≤ foldl (λ h w, (h * 8191 + w + 1) mod 2147483647) h l < 2147483647) as H.
  { induction l as [|w l IH]; intros h Hh; simpl; [done|]. apply IH. apply Z.mod_pos_bound. lia. }
  specialize (H 7 ltac:(lia)). revert H. generalize (foldl (λ h w, (h * 8191 + w + 1) mod 2147483647) 7 l).
  intros h Hh. unfold nk_wf, nk_list, is_u64. cbn [nk0 nk1 nk2 nk3]. rewrite !Forall_cons.
  split_and!; try lia. constructor.
Qed.
