(* ===== verification/Smt.v ===== *)
(** The sparse Merkle tree of src/smt/pkg/smt/smt.go: single insertion.

    [insert] translates SMT.insert: it walks down the stored nodes
    ([walk_loop]), distinguishes the modes update, insertFound, insertNotFound,
    deleteFound, deleteNotFound, deleteLast and zeroToZero, and rehashes the
    visited branches upwards ([rehash_up]).  The Go loops run over the fixed
    key path, so they are structural recursions on the path or on the number
    of levels; indexing out of range is a [Panic].

    The main results: on a store that holds the tree [t], [insert] succeeds,
    returns the root hash of the updated tree [tset t k v], and leaves a store
    that holds it ([SmtInsert.insert_spec]); the root is therefore a function of the
    stored map, whatever the order of the updates. *)

From S2P Require Import Prelude Bytes SmtUtils SmtKeys SmtDb SmtTree.
From Stdlib Require Import Strings.Byte.

Local Open Scope Z_scope.

(** * Definitions *)

Record SMT (D : Type) := mkSMT { noSaveOnInsert : bool; smtDb : D }.
Arguments mkSMT {D} noSaveOnInsert smtDb.
Arguments noSaveOnInsert {D} s.
Arguments smtDb {D} s.

Record SMTResponse := mkResponse { NewRootScalar : NodeKey; Mode : string }.

(** A call whose error the code drops. *)
Definition ignore_err {D} (m : outcome D) (d : D) : outcome D :=
  match m with Ok d' => Ok d' | Err _ => Ok d | Panic => Panic end.

(** [node[q*4+j] = h[j]] for [j < 4], on an array of words. *)
Definition set_words (node : list Z) (q : nat) (h : NodeKey) : list Z :=
  <[(4 * q)%nat := nk0 h]> (<[(4 * q + 1)%nat := nk1 h]>
    (<[(4 * q + 2)%nat := nk2 h]> (<[(4 * q + 3)%nat := nk3 h]> node))).

Definition zero_node : list Z := replicate 8 0.

(** The loop variables of the descent. *)
Record walk := mkWalk {
  w_oldRoot : NodeKey;
  w_level : Z;
  w_usedKey : list Z;
  w_foundKey : option NodeKey;
  w_foundRKey : NodeKey;
  w_foundOldValHash : NodeKey;
  w_siblings : gmap Z NodeValue12;
}.

Section Insert.
Context {D : Type} `{SmtDB D}.
Context (hash : list Z → NodeKey → NodeKey).

Definition getLastRoot (d : D) : outcome NodeKey := ScalarToRoot <$> db_GetLastRoot d.

Definition setLastRoot (d : D) (newRoot : NodeKey) : outcome D :=
  db_SetLastRoot d (NodeKey_ToBigInt newRoot).

Definition hashSave (noSave : bool) (d : D) (inn : list Z) (capacity h : NodeKey) : outcome D :=
  if noSave then Ok d
  else db_Insert d h (ConcatArrays8AndCapacityByPointers inn capacity).

Definition hashcalcAndSave (noSave : bool) (d : D) (inn : list Z) (capacity : NodeKey)
    : outcome (NodeKey * D) :=
  let h := hash inn capacity in
  d' ← hashSave noSave d inn capacity h;
  Ok (h, d').

Definition updateDepth (d : D) (newDepth : Z) : outcome D :=
  oldDepth ← match db_GetDepth d with Ok x => Ok x | Err _ => Ok 0 | Panic => Panic end;
  let newDepth := if 255 <? newDepth then 255 else newDepth in
  let newDepthAsByte := Z.land newDepth 255 in
  if oldDepth <? newDepthAsByte then db_SetDepth d newDepthAsByte else Ok d.

(** The descent: [rest] is what remains of the path below the current level. *)
Fixpoint walk_loop (d : D) (rest : list Z) (w : walk) : outcome walk :=
  if NodeKey_IsZero (w_oldRoot w) then Ok w
  else
    sl ← db_Get d (w_oldRoot w);
    let siblings := <[w_level w := sl]> (w_siblings w) in
    if IsFinalNode sl then
      let foundOldValHash := quarter sl 1 in
      _ ← db_Get d foundOldValHash;
      let foundRKey := quarter sl 0 in
      Ok (mkWalk (w_oldRoot w) (w_level w) (w_usedKey w)
            (Some (JoinKey (w_usedKey w) foundRKey)) foundRKey foundOldValHash siblings)
    else
      match rest with
      | [] => Panic
      | b :: rest =>
          walk_loop d rest
            (mkWalk (quarter sl (Z.to_nat b)) (w_level w + 1) (w_usedKey w ++ [b])
               None (w_foundRKey w) (w_foundOldValHash w) siblings)
      end.

(** [siblings[level]]: a missing entry is a nil pointer. *)
Definition sibling (siblings : gmap Z NodeValue12) (level : Z) : outcome NodeValue12 :=
  match siblings !! level with Some nv => Ok nv | None => Panic end.

(** [siblings[level][keys[level]*4+j] = h[j]] *)
Definition set_child (siblings : gmap Z NodeValue12) (keys : list Z) (level : Z) (h : NodeKey)
    : outcome (gmap Z NodeValue12) :=
  nv ← sibling siblings level;
  b ← go_index keys level;
  Ok (<[level := set_quarter nv (Z.to_nat b) h]> siblings).

(** The value hash: given by the caller or computed, saved in both cases. *)
Definition save_value (noSave : bool) (d : D) (v : NodeValue8) (newValH : NodeKey)
    : outcome (NodeKey * D) :=
  if bool_decide (newValH = nk_zero)
  then hashcalcAndSave noSave d (ToUintArray v) BranchCapacity
  else d' ← hashSave noSave d (ToUintArray v) BranchCapacity newValH; Ok (newValH, d').

(** How far two paths agree. *)
Fixpoint common_prefix (a b : list Z) : nat :=
  match a, b with
  | x :: a, y :: b => if x =? y then S (common_prefix a b) else O
  | _, _ => O
  end.

(** The chain of single-child branches above a split, [n] levels up. *)
Fixpoint chain_up (n : nat) (noSave : bool) (d : D) (keys : list Z) (level2 : Z) (r2 : NodeKey)
    : outcome (NodeKey * D) :=
  match n with
  | O => Ok (r2, d)
  | S n =>
      b ← go_index keys level2;
      '(r2', d') ← hashcalcAndSave noSave d (set_words zero_node (Z.to_nat b) r2) BranchCapacity;
      chain_up n noSave d' keys (level2 - 1) r2'
  end.

(** The store, the siblings, the level to rehash from and the root so far. *)
Definition edit : Type := D * gmap Z NodeValue12 * Z * NodeKey * string.

(** Put [h] below [level], or make it the root when there is no level above. *)
Definition place (d : D) (keys : list Z) (siblings : gmap Z NodeValue12) (level : Z)
    (newRoot h : NodeKey) (mode : string) : outcome edit :=
  if 0 <=? level
  then siblings' ← set_child siblings keys level h; Ok (d, siblings', level, newRoot, mode)
  else Ok (d, siblings, level, h, mode).

Definition insert_update (noSave : bool) (d : D) (k : NodeKey) (v : NodeValue8) (newValH newRoot : NodeKey)
    (keys : list Z) (w : walk) (level : Z) : outcome edit :=
  '(newValH, d) ← save_value noSave d v newValH;
  '(newLeafHash, d) ← hashcalcAndSave noSave d (ConcatArrays4 (w_foundRKey w) newValH) LeafCapacity;
  d ← db_InsertHashKey d newLeafHash k;
  place d keys (w_siblings w) level newRoot newLeafHash "update".

Definition insert_found (noSave : bool) (d : D) (k : NodeKey) (v : NodeValue8) (newValH newRoot : NodeKey)
    (keys : list Z) (w : walk) (level : Z) (foundKey : NodeKey) : outcome edit :=
  let foundKeys := GetPath foundKey in
  let start := Z.to_nat (level + 1) in
  let level2 := level + 1 + Z.of_nat (common_prefix (drop start keys) (drop start foundKeys)) in
  let oldKey := RemoveKeyBits foundKey (level2 + 1) in
  '(oldLeafHash, d) ← hashcalcAndSave noSave d (ConcatArrays4 oldKey (w_foundOldValHash w)) LeafCapacity;
  d ← ignore_err (db_InsertHashKey d oldLeafHash foundKey) d;
  let newKey := RemoveKeyBits k (level2 + 1) in
  '(newValH, d) ← save_value noSave d v newValH;
  '(newLeafHash, d) ← hashcalcAndSave noSave d (ConcatArrays4 newKey newValH) LeafCapacity;
  d ← ignore_err (db_InsertHashKey d newLeafHash k) d;
  b ← go_index keys level2;
  fb ← go_index foundKeys level2;
  let node := set_words (set_words zero_node (Z.to_nat b) newLeafHash) (Z.to_nat fb) oldLeafHash in
  '(r2, d) ← hashcalcAndSave noSave d node BranchCapacity;
  '(r2, d) ← chain_up (Z.to_nat (level2 - 1 - level)) noSave d keys (level2 - 1) r2;
  place d keys (w_siblings w) level newRoot r2 "insertFound".

Definition insert_not_found (noSave : bool) (d : D) (k : NodeKey) (v : NodeValue8) (newValH newRoot : NodeKey)
    (keys : list Z) (w : walk) (level : Z) : outcome edit :=
  let newKey := RemoveKeyBits k (level + 1) in
  '(newValH, d) ← save_value noSave d v newValH;
  '(newLeafHash, d) ← hashcalcAndSave noSave d (ConcatArrays4 newKey newValH) LeafCapacity;
  d ← ignore_err (db_InsertHashKey d newLeafHash k) d;
  place d keys (w_siblings w) level newRoot newLeafHash "insertNotFound".

(** Climb while the branch on the way has a single child. *)
Fixpoint collapse_up (n : nat) (siblings : gmap Z NodeValue12) (level uKey : Z) : outcome Z :=
  match n with
  | O => Ok level
  | S n =>
      if (0 <=? uKey) && (0 <=? level) then
        let level := level - 1 in
        if 0 <=? level then
          sl ← sibling siblings level;
          collapse_up n siblings level (IsUniqueSibling sl)
        else collapse_up n siblings level uKey
      else Ok level
  end.

Definition delete_found (noSave : bool) (d : D) (keys : list Z) (w : walk) (level : Z)
    (usedKey : list Z) (newRoot : NodeKey) : outcome edit :=
  if 0 <=? level then
    siblings ← set_child (w_siblings w) keys level nk_zero;
    top ← sibling siblings level;
    let uKey := IsUniqueSibling top in
    if 0 <=? uKey then
      sl ← db_Get d (quarter top (Z.to_nat uKey));
      let siblings := <[level + 1 := sl]> siblings in
      if IsFinalNode sl then
        let valH := quarter sl 1 in
        let rKey := quarter sl 0 in
        let insKey := JoinKey (usedKey ++ [uKey]) rKey in
        level ← collapse_up (Z.to_nat (level + 2)) siblings level uKey;
        let oldKey := RemoveKeyBits insKey (level + 1) in
        '(oldLeafHash, d) ← hashcalcAndSave noSave d (ConcatArrays4 oldKey valH) LeafCapacity;
        d ← ignore_err (db_InsertHashKey d oldLeafHash insKey) d;
        place d keys siblings level newRoot oldLeafHash "deleteFound"
      else Ok (d, siblings, level, newRoot, "deleteNotFound"%string)
    else Ok (d, siblings, level, newRoot, "deleteNotFound"%string)
  else Ok (d, w_siblings w, level, nk_zero, "deleteLast"%string).

Definition RemoveOver (m : gmap Z NodeValue12) (level : Z) : gmap Z NodeValue12 :=
  filter (λ kv, kv.1 < level) m.

(** Rehash the branches from [level] up to the root, [n] levels. *)
Fixpoint rehash_up (n : nat) (noSave : bool) (d : D) (keys : list Z)
    (siblings : gmap Z NodeValue12) (level : Z) (newRoot : NodeKey) : outcome (NodeKey * D) :=
  match n with
  | O => Ok (newRoot, d)
  | S n =>
      nv ← sibling siblings level;
      hashValueIn ← NodeValue8FromBigIntArray (take 8 nv);
      let hashCapIn := quarter nv 2 in
      '(newRoot, d) ← hashcalcAndSave noSave d (ToUintArray hashValueIn) hashCapIn;
      let level := level - 1 in
      if 0 <=? level then
        siblings ← set_child siblings keys level newRoot;
        rehash_up n noSave d keys siblings level newRoot
      else rehash_up n noSave d keys siblings level newRoot
  end.

(** The choice of the mode, from the value and what the descent found. *)
Definition modes (noSave : bool) (d : D) (k : NodeKey) (v : NodeValue8) (newValH oldRoot : NodeKey)
    (keys : list Z) (w : walk) : outcome edit :=
  let level := w_level w - 1 in
  let usedKey := take (length (w_usedKey w) - 1) (w_usedKey w) in
  if negb (NodeValue8_IsZero v) then
    match w_foundKey w with
    | Some foundKey =>
        if NodeKey_IsEqualTo foundKey k
        then insert_update noSave d k v newValH oldRoot keys w level
        else insert_found noSave d k v newValH oldRoot keys w level foundKey
    | None => insert_not_found noSave d k v newValH oldRoot keys w level
    end
  else
    match w_foundKey w with
    | Some foundKey =>
        if NodeKey_IsEqualTo foundKey k
        then delete_found noSave d keys w level usedKey oldRoot
        else Ok (d, w_siblings w, level, oldRoot, "zeroToZero"%string)
    | None => Ok (d, w_siblings w, level, oldRoot, "zeroToZero"%string)
    end.

Definition insert (noSave : bool) (d : D) (k : NodeKey) (v : NodeValue8) (newValH oldRoot : NodeKey)
    : outcome (SMTResponse * D) :=
  let keys := GetPath k in
  w ← walk_loop d keys (mkWalk oldRoot 0 [] None nk_zero nk_zero ∅);
  '(d, siblings, level, newRoot, mode) ← modes noSave d k v newValH oldRoot keys w;
  let siblings := RemoveOver siblings (level + 1) in
  d ← updateDepth d (Z.of_nat (size siblings));
  '(newRoot, d) ← rehash_up (Z.to_nat (level + 1)) noSave d keys siblings level newRoot;
  Ok (mkResponse newRoot mode, d).

Definition insertSingle (s : SMT D) (k : NodeKey) (v : NodeValue8) (newValH : NodeKey)
    : outcome (SMTResponse * SMT D) :=
  or ← getLastRoot (smtDb s);
  '(smtr, d) ← insert (noSaveOnInsert s) (smtDb s) k v newValH or;
  d ← setLastRoot d (NewRootScalar smtr);
  Ok (smtr, mkSMT (noSaveOnInsert s) d).

Definition Insert (s : SMT D) (key : NodeKey) (value : NodeValue8) : outcome (SMTResponse * SMT D) :=
  insertSingle s key value nk_zero.

Definition InsertKA (s : SMT D) (key : NodeKey) (value : Z) : outcome (SMTResponse * SMT D) :=
  v ← NodeValue8FromBigIntArray (Some <$> ScalarToArrayBig value);
  insertSingle s key v nk_zero.
End Insert.
