(* ===== verification/SmtInsert.v ===== *)
(** Correctness of the single insertion of [Smt]: refinement of the canonical
    tree of [SmtTree], for every store that satisfies [SmtDBLaws].

    The proof follows the three phases of the code: the descent splits the tree
    into a context of branches and a focus ([zip], [walk_spec]); each mode
    replaces the focus; the rehash loop rebuilds the tree from the context and
    the new focus ([rehash_spec]). *)

From S2P Require Import Prelude Bytes SmtUtils SmtKeys SmtDb SmtTree Smt.

Local Open Scope Z_scope.
#[local] Set Warnings "-clear-no-such-hyp".

(** * Contexts: the branches above a subtree, outermost first *)

Abbreviation frame := (bool * tree)%type.

Fixpoint plug (ctx : list frame) (t : tree) : tree :=
  match ctx with
  | [] => t
  | (b, s) :: ctx => if b : bool then Branch s (plug ctx t) else Branch (plug ctx t) s
  end.

Fixpoint zip (d : nat) (t : tree) (k : NodeKey) : list frame * tree :=
  match t with
  | Branch l r =>
      if keybit k d
      then ((true, l) :: (zip (S d) r k).1, (zip (S d) r k).2)
      else ((false, r) :: (zip (S d) l k).1, (zip (S d) l k).2)
  | _ => ([], t)
  end.

Lemma plug_zip d t k : plug (zip d t k).1 (zip d t k).2 = t.
Proof.
  revert d. induction t as [|k' v|l IHl r IHr]; intros d; [done..|]. simpl.
  destruct (keybit k d); simpl; by rewrite ?IHl, ?IHr.
Qed.

Lemma plug_app c1 c2 t : plug (c1 ++ c2) t = plug c1 (plug c2 t).
Proof. induction c1 as [|[[] s] c1 IH]; simpl; by rewrite ?IH. Qed.

(** The bits of the context are those of the key. *)
Definition ctx_bits (k : NodeKey) (d : nat) (ctx : list frame) : Prop :=
  ∀ i b s, ctx !! i = Some (b, s) → keybit k (d + i) = b.

Lemma ctx_bits_cons k d b s ctx :
  ctx_bits k d ((b, s) :: ctx) ↔ keybit k d = b ∧ ctx_bits k (S d) ctx.
Proof.
  unfold ctx_bits. split.
  - intros H. split; [rewrite <-(Nat.add_0_r d); by apply (H 0%nat b s)|].
    intros i b' s' Hi. rewrite <-(H (S i) b' s' Hi). f_equal. lia.
  - intros [H1 H2] [|i] b' s' Hi; simpl in Hi.
    + injection Hi as -> ->. by rewrite Nat.add_0_r.
    + rewrite <-(H2 i b' s' Hi). f_equal. lia.
Qed.

Lemma zip_bits d t k : ctx_bits k d (zip d t k).1.
Proof.
  revert d. induction t as [|k' v|l IHl r IHr]; intros d; [by intros i b s..|].
  simpl. destruct (keybit k d) eqn:E; simpl; apply ctx_bits_cons; auto.
Qed.

(** Insertion and deletion act at the focus. *)
Lemma tins_zip d t k v :
  tins d t k v = plug (zip d t k).1 (tins (d + length (zip d t k).1) (zip d t k).2 k v).
Proof.
  revert d. induction t as [|k' v'|l IHl r IHr]; intros d; cbn [zip fst snd plug length];
    rewrite ?Nat.add_0_r; [done..|].
  simpl. destruct (keybit k d); simpl; f_equal; rewrite ?IHl, ?IHr; do 2 f_equal; lia.
Qed.

(** Rebuild a context around a subtree, collapsing branches that hold one leaf. *)
Fixpoint replug (ctx : list frame) (t : tree) : tree :=
  match ctx with
  | [] => t
  | (b, s) :: ctx => if b : bool then mk_branch s (replug ctx t) else mk_branch (replug ctx t) s
  end.

Lemma tdel_zip d t k :
  tdel d t k = replug (zip d t k).1 (tdel (d + length (zip d t k).1) (zip d t k).2 k).
Proof.
  revert d. induction t as [|k' v'|l IHl r IHr]; intros d; cbn [zip fst snd replug length];
    rewrite ?Nat.add_0_r; [done..|].
  simpl. destruct (keybit k d); simpl; f_equal; rewrite ?IHl, ?IHr; do 2 f_equal; lia.
Qed.

Lemma replug_app c1 c2 t : replug (c1 ++ c2) t = replug c1 (replug c2 t).
Proof. induction c1 as [|[[] s] c1 IH]; simpl; by rewrite ?IH. Qed.

Lemma replug_branch ctx l r : replug ctx (Branch l r) = plug ctx (Branch l r).
Proof.
  induction ctx as [|[b s] ctx IH]; [done|]. simpl. rewrite IH.
  assert (∃ l' r', plug ctx (Branch l r) = Branch l' r') as (l' & r' & ->).
  { destruct ctx as [|[[] s'] ctx]; simpl; eauto. }
  by destruct b, s.
Qed.

Lemma replug_empties ctx k v :
  Forall (λ fr, fr.2 = Empty) ctx → replug ctx (Leaf k v) = Leaf k v.
Proof. induction 1 as [|[b s] ctx H _ IH]; [done|]. simpl in *. subst. rewrite IH. by destruct b. Qed.

Lemma replug_nonempty ctx b s k v :
  s ≠ Empty → replug (ctx ++ [(b, s)]) (Leaf k v) = plug (ctx ++ [(b, s)]) (Leaf k v).
Proof.
  intros Hs. rewrite replug_app, plug_app. destruct b, s; try done; apply replug_branch.
Qed.

(** The frames that remain when a leaf moves up past its empty siblings. *)
Definition stripped (ctx ctx' : list frame) : Prop :=
  ∃ empties, ctx = ctx' ++ empties ∧ Forall (λ fr, fr.2 = Empty) empties ∧
    (ctx' = [] ∨ ∃ c b s, ctx' = c ++ [(b, s)] ∧ s ≠ Empty).

Lemma replug_stripped ctx ctx' k v :
  stripped ctx ctx' → replug ctx (Leaf k v) = plug ctx' (Leaf k v).
Proof.
  intros (em & -> & Hem & Hc). rewrite replug_app, replug_empties by done.
  destruct Hc as [->|(c & b & s & -> & Hs)]; [done|]. by apply replug_nonempty.
Qed.

Lemma zip_focus d t k :
  (zip d t k).2 = Empty ∨ ∃ k' v, (zip d t k).2 = Leaf k' v.
Proof.
  revert d. induction t as [|k' v|l IHl r IHr]; intros d; simpl; [auto|eauto|].
  destruct (keybit k d); simpl; auto.
Qed.

(** * Nodes *)

Section Nodes.
Context (hash : list Z → NodeKey → NodeKey).
Context (hash_wf : ∀ i c, nk_wf (hash i c)).

Abbreviation phash := (phash hash).
Abbreviation thash := (thash hash).
Abbreviation tree_nodes := (tree_nodes hash).

Lemma thash_wf d t : nk_wf (thash d t).
Proof. destruct t; simpl; [apply nk_zero_wf|apply hash_wf..]. Qed.

Lemma concat4_word8 a b : nk_wf a → nk_wf b → word8 (ConcatArrays4 a b).
Proof. intros Ha Hb. split; [done|]. by apply Forall_app. Qed.

Lemma BranchCapacity_wf : nk_wf BranchCapacity.
Proof. apply nk_zero_wf. Qed.

Lemma LeafCapacity_wf : nk_wf LeafCapacity.
Proof. by apply (bool_decide_unpack _). Qed.

#[local] Hint Resolve thash_wf concat4_word8 BranchCapacity_wf LeafCapacity_wf RemoveKeyBits_wf : words.

Lemma branch_pre_wf a b : nk_wf a → nk_wf b → preimage_wf (branch_pre a b).
Proof. intros Ha Hb. split; simpl; auto with words. Qed.

Lemma leaf_pre_wf d k v : nk_wf k → preimage_wf (leaf_pre hash d k v).
Proof. intros Hk. split; simpl; auto with words. apply concat4_word8; [auto with words|apply hash_wf]. Qed.

Lemma val_pre_wf v : val_ok v → preimage_wf (val_pre v).
Proof. intros (? & ? & ?). split; [done|]. apply BranchCapacity_wf. Qed.

Lemma node_of_wf p : preimage_wf p → node_wf (node_of p).
Proof.
  intros [[Hl Hw] Hc]. exists (p.1 ++ nk_list p.2). unfold node_of, ConcatArrays8AndCapacityByPointers.
  split_and!; [by rewrite fmap_app|rewrite length_app, Hl; done|by apply Forall_app].
Qed.

Lemma NodeKeyFromBigIntArray_nk h :
  nk_wf h → NodeKeyFromBigIntArray (Some <$> nk_list h) = h.
Proof.
  intros Hh. destruct h as [a b c d]. unfold nk_wf, nk_list in Hh. simpl in Hh.
  rewrite !Forall_cons in Hh. destruct Hh as (? & ? & ? & ? & _).
  unfold NodeKeyFromBigIntArray. simpl. by rewrite !big_uint64_small.
Qed.

(** Reading the parts of a stored node. *)
Lemma quarter_node a b c :
  nk_wf a → nk_wf b → nk_wf c →
  let nv := node_of (ConcatArrays4 a b, c) in
  quarter nv 0 = a ∧ quarter nv 1 = b ∧ quarter nv 2 = c ∧
  take 8 nv = Some <$> ConcatArrays4 a b.
Proof.
  intros Ha Hb Hc nv. unfold quarter.
  assert (take 4 (drop (4 * 0) nv) = Some <$> nk_list a) as -> by done.
  assert (take 4 (drop (4 * 1) nv) = Some <$> nk_list b) as -> by done.
  assert (take 4 (drop (4 * 2) nv) = Some <$> nk_list c) as -> by done.
  by rewrite !NodeKeyFromBigIntArray_nk.
Qed.

Lemma node_of_parts p :
  preimage_wf p →
  NodeValue8FromBigIntArray (take 8 (node_of p)) = Ok (Some <$> p.1) ∧
  ToUintArray (Some <$> p.1) = p.1 ∧ quarter (node_of p) 2 = p.2.
Proof.
  intros [[Hl Hw] Hc]. unfold node_of, ConcatArrays8AndCapacityByPointers, quarter.
  rewrite take_app_length' by (by rewrite length_fmap).
  rewrite drop_app_length' by (by rewrite length_fmap).
  unfold NodeValue8FromBigIntArray. rewrite length_fmap, Hl. split; [done|].
  split; [by apply ToUintArray_some|]. by apply NodeKeyFromBigIntArray_nk.
Qed.

Lemma IsFinalNode_leaf d k v : IsFinalNode (node_of (leaf_pre hash d k v)) = true.
Proof. done. Qed.

Lemma IsFinalNode_branch a b : IsFinalNode (node_of (branch_pre a b)) = false.
Proof. done. Qed.

(** The branch with hash [h] on the path side [b] and the tree [s] on the other. *)
Definition frame_pre (d : nat) (b : bool) (s : tree) (h : NodeKey) : preimage :=
  if b then branch_pre (thash (S d) s) h else branch_pre h (thash (S d) s).

Definition frame_node (d : nat) (b : bool) (s : tree) (h : NodeKey) : NodeValue12 :=
  node_of (frame_pre d b s h).

Lemma frame_pre_wf d b s h : nk_wf h → preimage_wf (frame_pre d b s h).
Proof. intros Hh. destruct b; apply branch_pre_wf; auto with words. Qed.

Lemma set_quarter_frame d b s h h' :
  set_quarter (frame_node d b s h) (Z.to_nat (Z.b2z b)) h' = frame_node d b s h'.
Proof. destruct b; done. Qed.

Lemma thash_plug1 d b s t : thash d (plug [(b, s)] t) = phash (frame_pre d b s (thash (S d) t)).
Proof. by destruct b. Qed.

Lemma NodeKey_IsZero_spec k : NodeKey_IsZero k = bool_decide (k = nk_zero).
Proof.
  destruct k as [x y z u]. unfold NodeKey_IsZero, nk_zero. simpl. case_bool_decide as E.
  - by injection E as -> -> -> ->.
  - destruct (Z.eqb_spec x 0), (Z.eqb_spec y 0), (Z.eqb_spec z 0), (Z.eqb_spec u 0); congruence || done.
Qed.

Lemma NodeKey_IsEqualTo_spec k k' : NodeKey_IsEqualTo k k' = bool_decide (k = k').
Proof.
  destruct k as [x y z u], k' as [x' y' z' u']. unfold NodeKey_IsEqualTo. simpl.
  case_bool_decide as E.
  - injection E as -> -> -> ->. by rewrite !Z.eqb_refl.
  - destruct (Z.eqb_spec x x'), (Z.eqb_spec y y'), (Z.eqb_spec z z'), (Z.eqb_spec u u'); congruence || done.
Qed.

Lemma IsUniqueSibling_quarters nv :
  NodeKey_IsZero (quarter nv 2) = true →
  IsUniqueSibling nv =
    match NodeKey_IsZero (quarter nv 0), NodeKey_IsZero (quarter nv 1) with
    | true, false => 1
    | false, true => 0
    | _, _ => -1
    end.
Proof.
  intros H2. unfold IsUniqueSibling. cbn [seq foldl].
  destruct (NodeKey_IsZero (quarter nv 0)), (NodeKey_IsZero (quarter nv 1)); by rewrite H2.
Qed.

Lemma IsUniqueSibling_branch a b :
  nk_wf a → nk_wf b →
  IsUniqueSibling (node_of (branch_pre a b)) =
    if decide (a = nk_zero) then (if decide (b = nk_zero) then -1 else 1)
    else (if decide (b = nk_zero) then 0 else -1).
Proof.
  intros Ha Hb.
  destruct (quarter_node a b BranchCapacity) as (E0 & E1 & E2 & _); auto with words.
  rewrite IsUniqueSibling_quarters; unfold branch_pre; [rewrite E0, E1|by rewrite E2].
  rewrite !NodeKey_IsZero_spec. by repeat case_decide; repeat case_bool_decide.
Qed.
End Nodes.

(** * Paths *)

Lemma take_GetPath_eq p k k' :
  (length p ≤ 256)%nat → has_path p k → has_path p k' →
  take (length p) (GetPath k) = take (length p) (GetPath k').
Proof.
  intros Hp H H'. apply list_eq. intros j.
  destruct (decide (j < length p)%nat) as [Hj|Hj].
  - rewrite !lookup_take_lt, !lookup_GetPath by lia.
    destruct (lookup_lt_is_Some_2 p j Hj) as [b Hb]. by rewrite (H _ _ Hb), (H' _ _ Hb).
  - rewrite !lookup_ge_None_2; [done|rewrite length_take, length_GetPath; lia..].
Qed.

Lemma JoinKey_other k k' p :
  (length p ≤ 256)%nat → nk_wf k' → has_path p k → has_path p k' →
  JoinKey (take (length p) (GetPath k)) (RemoveKeyBits k' (Z.of_nat (length p))) = k'.
Proof.
  intros Hp Hk' H H'. rewrite (take_GetPath_eq p k k') by done. by apply JoinKey_RemoveKeyBits.
Qed.

Lemma go_index_GetPath k (j : nat) :
  (j < 256)%nat → go_index (GetPath k) (Z.of_nat j) = Ok (Z.b2z (keybit k j)).
Proof. intros Hj. apply go_index_lookup. by apply lookup_GetPath. Qed.

Lemma drop_GetPath k j :
  (j < 256)%nat → drop j (GetPath k) = Z.b2z (keybit k j) :: drop (S j) (GetPath k).
Proof. intros Hj. apply drop_S. by apply lookup_GetPath. Qed.

Lemma take_GetPath_S k j :
  (j < 256)%nat → take (S j) (GetPath k) = take j (GetPath k) ++ [Z.b2z (keybit k j)].
Proof. intros Hj. apply take_S_r. by apply lookup_GetPath. Qed.

#[local] Opaque GetPath RemoveKeyBits JoinKey.

(** ** Splitting a leaf *)

(** Single-child branches from depth [n] down, [m] of them, on the path of [k]. *)
Definition chain (k : NodeKey) (n m : nat) : list frame :=
  (λ j, (keybit k j, Empty)) <$> seq n m.

Lemma chain_S k n m : chain k n (S m) = chain k n m ++ [(keybit k (n + m), Empty)].
Proof. unfold chain. by rewrite seq_S, fmap_app. Qed.

Lemma length_chain k n m : length (chain k n m) = m.
Proof. unfold chain. by rewrite length_fmap, length_seq. Qed.

(** The subtree that holds two leaves, as a context around the first. *)
Lemma tsplit_chain N p k v k' v' :
  (N = 256 - length p)%nat → (length p ≤ 256)%nat → nk_wf k → nk_wf k' → k ≠ k' →
  has_path p k → has_path p k' →
  let n := length p in
  let m := common_prefix (drop n (GetPath k)) (drop n (GetPath k')) in
  (n + m < 256)%nat ∧ keybit k' (n + m) = negb (keybit k (n + m)) ∧
  tsplit N n k v k' v' = plug (chain k n m ++ [(keybit k (n + m), Leaf k' v')]) (Leaf k v).
Proof.
  intros HN Hp Hk Hk' Hne. revert p HN Hp. induction N as [|N IH]; intros p HN Hp Hpk Hpk'.
  { destruct Hne. apply (has_path_full p); auto with words. }
  cbv zeta. rewrite (drop_GetPath k), (drop_GetPath k') by lia. simpl tsplit. set (n := length p) in *.
  destruct (decide (keybit k n = keybit k' n)) as [E|E].
  - cbn [common_prefix]. rewrite E, Z.eqb_refl.
    destruct (IH (p ++ [keybit k n])) as (H1 & H2 & H3); rewrite ?length_snoc, ?has_path_snoc; auto with words.
    rewrite length_snoc in H1, H2, H3. fold n in H1, H2, H3. rewrite <-!plus_n_Sm.
    split; [lia|]. split; [done|]. unfold chain. cbn [seq]. csimpl. fold n. rewrite E, H3.
    by destruct (keybit k' n).
  - cbn [common_prefix]. destruct (Z.eqb_spec (Z.b2z (keybit k n)) (Z.b2z (keybit k' n))) as [E2|E2].
    { by apply Z.b2z_inj in E2. }
    rewrite Nat.add_0_r. fold n. split; [lia|]. by destruct (keybit k n), (keybit k' n).
Qed.

(** * Stores *)

Section Stores.
Context {D : Type} {SD : SmtDB D} {SL : SmtDBLaws D}.
Context (hash : list Z → NodeKey → NodeKey).
Context (hash_wf : ∀ i c, nk_wf (hash i c)).

Abbreviation phash := (phash hash).
Abbreviation thash := (thash hash).
Abbreviation tree_nodes := (tree_nodes hash).
Abbreviation frame_node := (frame_node hash).
Abbreviation frame_pre := (frame_pre hash).

(** The store holds the nodes [ps] under their hashes. *)
Definition stored (d : D) (ps : list preimage) : Prop :=
  Forall (λ p, db_Get d (phash p) = Ok (node_of p)) ps.

Lemma stored_app d ps qs : stored d (ps ++ qs) ↔ stored d ps ∧ stored d qs.
Proof. apply Forall_app. Qed.

Lemma stored_same d d' ps : stored d ps → same_nodes d d' → stored d' ps.
Proof.
  intros Hs Hd. eapply Forall_impl; [exact Hs|]. intros p Hp. simpl in Hp.
  by rewrite Hd by apply hash_wf.
Qed.

Lemma stored_elem d ps p : stored d ps → p ∈ ps → db_Get d (phash p) = Ok (node_of p).
Proof. intros Hs. by apply (proj1 (Forall_forall _ _) Hs). Qed.

Lemma stored_branch d ps n l r :
  stored d ps → tree_nodes n (Branch l r) ⊆ ps →
  db_Get d (thash n (Branch l r)) = Ok (node_of (branch_pre (thash (S n) l) (thash (S n) r))).
Proof. intros Hst Hsub. apply (stored_elem _ _ _ Hst), Hsub. by left. Qed.

Lemma stored_leaf d ps n k v :
  stored d ps → tree_nodes n (Leaf k v) ⊆ ps →
  db_Get d (thash n (Leaf k v)) = Ok (node_of (leaf_pre hash n k v)).
Proof. intros Hst Hsub. apply (stored_elem _ _ _ Hst), Hsub. right. by left. Qed.

(** Saving a node keeps the nodes saved before it. *)
Lemma hashcalcAndSave_spec U d ps p :
  hash_good hash U → p ∈ U → ps ⊆ U → preimage_wf p → stored d ps →
  ∃ d', hashcalcAndSave hash false d p.1 p.2 = Ok (phash p, d') ∧
    stored d' (p :: ps) ∧ same_meta d d'.
Proof.
  intros HU Hp Hps Hwf Hs.
  destruct (law_Insert d (phash p) (node_of p)) as (d' & E & Hget & Hm & Hoth);
    [apply hash_wf|by apply node_of_wf|].
  exists d'. unfold hashcalcAndSave, hashSave. fold (phash p) (node_of p). rewrite E.
  split; [done|]. split; [|done]. constructor; [done|].
  unfold stored in *. rewrite Forall_forall in *. intros q Hq.
  destruct (decide (phash q = phash p)) as [Heq|Hne].
  - by rewrite (hash_good_inj U q p HU (Hps q Hq) Hp Heq).
  - rewrite Hoth; [auto|apply hash_wf|done].
Qed.

Lemma same_meta_refl d : same_meta d d.
Proof. done. Qed.

Lemma same_meta_trans d1 d2 d3 : same_meta d1 d2 → same_meta d2 d3 → same_meta d1 d3.
Proof. unfold same_meta, same_root, same_depth. intuition congruence. Qed.

(** ** The descent *)

(** The siblings map holds the branches of the context, around the focus [f]. *)
Definition sib_exact (siblings : gmap Z NodeValue12) (ctx : list frame) (f : tree) : Prop :=
  ∀ i b s, ctx !! i = Some (b, s) →
    siblings !! Z.of_nat i = Some (frame_node i b s (thash (S i) (plug (drop (S i) ctx) f))).

Lemma sib_exact_snoc siblings ctx b s f :
  sib_exact siblings ctx (plug [(b, s)] f) →
  sib_exact (<[Z.of_nat (length ctx) := frame_node (length ctx) b s (thash (S (length ctx)) f)]> siblings)
    (ctx ++ [(b, s)]) f.
Proof.
  intros Hs i b' s' Hi. apply lookup_app_Some in Hi as [Hi|[Hle Hi]].
  - pose proof (lookup_lt_Some _ _ _ Hi). rewrite lookup_insert_ne by lia.
    rewrite (Hs _ _ _ Hi). by rewrite drop_app_le, plug_app by lia.
  - destruct (i - length ctx)%nat eqn:E; [|done]. injection Hi as <- <-.
    replace i with (length ctx) by lia. rewrite lookup_insert_eq.
    by rewrite drop_ge by (rewrite length_app; simpl; lia).
Qed.

(** The state of the descent when it has reached the focus [f] below [ctx]. *)
Definition walk_at (k : NodeKey) (ctx : list frame) (f : tree) (siblings : gmap Z NodeValue12) : walk :=
  let n := length ctx in
  mkWalk (thash n f) (Z.of_nat n) (take n (GetPath k))
    (match f with Leaf k' _ => Some k' | _ => None end)
    (match f with Leaf k' _ => RemoveKeyBits k' (Z.of_nat n) | _ => nk_zero end)
    (match f with Leaf _ v => phash (val_pre v) | _ => nk_zero end) siblings.

Definition walk_start (k : NodeKey) (ctx : list frame) (t : tree) (siblings : gmap Z NodeValue12) : walk :=
  let n := length ctx in
  mkWalk (thash n t) (Z.of_nat n) (take n (GetPath k)) None nk_zero nk_zero siblings.

Lemma walk_leaf d U k ctx p k' v' siblings :
  nk_wf k → length p = length ctx → (length p ≤ 256)%nat → has_path p k →
  tree_ok p (Leaf k' v') → hash_good hash U → tree_nodes (length ctx) (Leaf k' v') ⊆ U →
  stored d (tree_nodes (length ctx) (Leaf k' v')) →
  ∃ nv, walk_loop d (drop (length ctx) (GetPath k)) (walk_start k ctx (Leaf k' v') siblings) =
    Ok (walk_at k ctx (Leaf k' v') (<[Z.of_nat (length ctx) := nv]> siblings)).
Proof.
  intros Hk Hlen Hle Hp (Hk' & Hp' & Hv') HU Hsub Hst.
  pose proof (thash_nonzero U _ _ HU Hsub ltac:(done)) as Hnz.
  exists (node_of (leaf_pre hash (length ctx) k' v')).
  assert (db_Get d (thash (length ctx) (Leaf k' v')) =
    Ok (node_of (leaf_pre hash (length ctx) k' v'))) as Hg.
  { apply (stored_elem _ _ _ Hst). simpl. set_solver. }
  assert (db_Get d (phash (val_pre v')) = Ok (node_of (val_pre v'))) as Hgv.
  { apply (stored_elem _ _ _ Hst). simpl. set_solver. }
  destruct (quarter_node (RemoveKeyBits k' (Z.of_nat (length ctx))) (phash (val_pre v')) LeafCapacity)
    as (E0 & E1 & _ & _); [by apply RemoveKeyBits_wf|apply hash_wf|apply LeafCapacity_wf|].
  unfold walk_start, walk_at. destruct (drop (length ctx) (GetPath k)); cbn [walk_loop w_oldRoot];
    rewrite NodeKey_IsZero_spec, bool_decide_false by done; rewrite Hg; cbn [mbind outcome_bind w_level w_siblings w_usedKey];
    rewrite IsFinalNode_leaf; unfold leaf_pre; rewrite E1, Hgv, E0; cbn [mbind outcome_bind];
    by rewrite <-Hlen, (JoinKey_other k k' p).
Qed.

(** Keys of the siblings map: the levels up to [n]. *)
Definition levels_upto (siblings : gmap Z NodeValue12) (n : nat) : Prop :=
  ∀ i, is_Some (siblings !! i) → 0 ≤ i ≤ Z.of_nat n.

Lemma levels_upto_insert siblings n m i nv :
  levels_upto siblings n → (n ≤ m)%nat → 0 ≤ i ≤ Z.of_nat m → levels_upto (<[i := nv]> siblings) m.
Proof.
  intros Hl Hnm Hi j Hj. destruct (decide (j = i)) as [->|]; [done|].
  rewrite lookup_insert_ne in Hj by done. specialize (Hl j Hj). lia.
Qed.

Lemma sib_exact_insert siblings ctx f i nv :
  sib_exact siblings ctx f → Z.of_nat (length ctx) ≤ i → sib_exact (<[i := nv]> siblings) ctx f.
Proof.
  intros Hs Hi j b s Hj. pose proof (lookup_lt_Some _ _ _ Hj).
  rewrite lookup_insert_ne by lia. by apply Hs.
Qed.

(** One step of the descent: a branch hands over to the child on the path. *)
Lemma walk_branch d U k ctx l r siblings :
  nk_wf k → (length ctx < 256)%nat → hash_good hash U → tree_nodes (length ctx) (Branch l r) ⊆ U →
  stored d (tree_nodes (length ctx) (Branch l r)) →
  let b := keybit k (length ctx) in
  let s := if b then l else r in
  let t := if b then r else l in
  walk_loop d (drop (length ctx) (GetPath k)) (walk_start k ctx (Branch l r) siblings) =
  walk_loop d (drop (length (ctx ++ [(b, s)])) (GetPath k))
    (walk_start k (ctx ++ [(b, s)]) t
       (<[Z.of_nat (length ctx) := frame_node (length ctx) b s (thash (S (length ctx)) t)]> siblings)).
Proof.
  intros Hk Hlen HU Hsub Hst b s t. pose proof (thash_nonzero U _ _ HU Hsub ltac:(done)) as Hnz.
  set (bp := branch_pre (thash (S (length ctx)) l) (thash (S (length ctx)) r)).
  assert (db_Get d (thash (length ctx) (Branch l r)) = Ok (node_of bp)) as Hg.
  { apply (stored_elem _ _ _ Hst). simpl. set_solver. }
  destruct (quarter_node (thash (S (length ctx)) l) (thash (S (length ctx)) r) BranchCapacity)
    as (E0 & E1 & _ & _); [by apply thash_wf..|apply BranchCapacity_wf|].
  rewrite drop_GetPath by done. unfold walk_start. cbn [walk_loop w_oldRoot].
  rewrite NodeKey_IsZero_spec, bool_decide_false by done.
  rewrite Hg. cbn [mbind outcome_bind w_level w_siblings w_usedKey w_foundRKey w_foundOldValHash].
  unfold bp. rewrite IsFinalNode_branch, length_snoc, take_GetPath_S by done.
  replace (Z.of_nat (S (length ctx))) with (Z.of_nat (length ctx) + 1) by lia.
  subst b s t. unfold branch_pre. destruct (keybit k (length ctx)).
  - change (Z.to_nat (Z.b2z true)) with 1%nat. rewrite E1. reflexivity.
  - change (Z.to_nat (Z.b2z false)) with 0%nat. rewrite E0. reflexivity.
Qed.

Lemma walk_spec d U k t : ∀ ctx p siblings,
  nk_wf k → length p = length ctx → (length p ≤ 256)%nat → has_path p k →
  tree_ok p t → hash_good hash U → tree_nodes (length ctx) t ⊆ U →
  stored d (tree_nodes (length ctx) t) →
  sib_exact siblings ctx t → levels_upto siblings (length ctx) →
  let z := zip (length ctx) t k in
  ∃ siblings', walk_loop d (drop (length ctx) (GetPath k)) (walk_start k ctx t siblings) =
      Ok (walk_at k (ctx ++ z.1) z.2 siblings') ∧
    sib_exact siblings' (ctx ++ z.1) z.2 ∧ levels_upto siblings' (length (ctx ++ z.1)).
Proof.
  induction t as [|k' v'|l IHl r IHr]; intros ctx p siblings Hk Hlen Hle Hp Hok HU Hsub Hst Hsib Hlv z.
  - subst z. simpl. rewrite app_nil_r. exists siblings. split; [|done].
    unfold walk_start. destruct (drop _ _); reflexivity.
  - subst z. simpl. rewrite app_nil_r.
    destruct (walk_leaf d U k ctx p k' v' siblings) as [nv E]; [done..|]. rewrite E. eexists.
    split; [done|]. split; [apply sib_exact_insert|eapply levels_upto_insert]; eauto with lia.
  - rewrite (walk_branch d U) by (done || (destruct Hok; lia)).
    destruct Hok as (Hlt & Hn & Hl & Hr). simpl in Hsub, Hst. apply Forall_cons in Hst as [_ Hst].
    apply stored_app in Hst as [Hstl Hstr]. subst z. simpl.
    assert (has_path (p ++ [keybit k (length ctx)]) k) as Hp'.
    { apply has_path_snoc. by rewrite Hlen. }
    destruct (keybit k (length ctx)) eqn:Eb; simpl.
    + edestruct (IHr (ctx ++ [(true, l)]) (p ++ [true])) as (sb & E & H1 & H2);
        rewrite ?length_snoc; [done|lia|lia|done|done|exact HU|set_solver|done| | |].
      * by apply sib_exact_snoc.
      * eapply levels_upto_insert; eauto with lia.
      * rewrite length_snoc, <-app_assoc in E, H1, H2. by exists sb.
    + edestruct (IHl (ctx ++ [(false, r)]) (p ++ [false])) as (sb & E & H1 & H2);
        rewrite ?length_snoc; [done|lia|lia|done|done|exact HU|set_solver|done| | |].
      * by apply sib_exact_snoc.
      * eapply levels_upto_insert; eauto with lia.
      * rewrite length_snoc, <-app_assoc in E, H1, H2. by exists sb.
Qed.

(** ** Rebuilding *)

(** The nodes of the subtrees beside the path. *)
Fixpoint ctx_nodes (i : nat) (ctx : list frame) : list preimage :=
  match ctx with
  | [] => []
  | (_, s) :: ctx => tree_nodes (S i) s ++ ctx_nodes (S i) ctx
  end.

Lemma ctx_nodes_app i c1 c2 : ctx_nodes i (c1 ++ c2) = ctx_nodes i c1 ++ ctx_nodes (i + length c1) c2.
Proof.
  revert i. induction c1 as [|[b s] c1 IH]; intros i; simpl; [by rewrite Nat.add_0_r|].
  rewrite IH, <-app_assoc. do 3 f_equal. lia.
Qed.

Lemma tree_nodes_plug i ctx f :
  ctx_nodes i ctx ++ tree_nodes (i + length ctx) f ⊆ tree_nodes i (plug ctx f).
Proof.
  revert i. induction ctx as [|[b s] ctx IH]; intros i; simpl; [by rewrite Nat.add_0_r|].
  specialize (IH (S i)). rewrite <-plus_n_Sm. destruct b; simpl; set_solver.
Qed.

Lemma plug_nodes_frame i ctx b s f :
  frame_pre (i + length ctx) b s (thash (S (i + length ctx)) f) ∈ tree_nodes i (plug (ctx ++ [(b, s)]) f).
Proof.
  revert i. induction ctx as [|[b' s'] ctx IH]; intros i; simpl.
  - rewrite Nat.add_0_r. destruct b; simpl; set_solver.
  - specialize (IH (S i)). rewrite <-plus_n_Sm. destruct b'; simpl; set_solver.
Qed.

Lemma stored_sub d ps qs : stored d ps → qs ⊆ ps → stored d qs.
Proof. unfold stored. rewrite !Forall_forall. auto. Qed.

(** The siblings map holds the branches of the context with some child. *)
Definition sib_frames (siblings : gmap Z NodeValue12) (ctx : list frame) : Prop :=
  ∀ i b s, ctx !! i = Some (b, s) → ∃ h, siblings !! Z.of_nat i = Some (frame_node i b s h).

(** The innermost branch has the child [h]; without branches the root is [h]. *)
Definition focused (siblings : gmap Z NodeValue12) (ctx : list frame) (h root : NodeKey) : Prop :=
  (ctx = [] → root = h) ∧
  ∀ ctx' b s, ctx = ctx' ++ [(b, s)] →
    siblings !! Z.of_nat (length ctx') = Some (frame_node (length ctx') b s h).

Lemma sib_exact_frames siblings ctx f : sib_exact siblings ctx f → sib_frames siblings ctx.
Proof. intros Hs i b s Hi. eauto. Qed.

Lemma sib_frames_app siblings c1 c2 : sib_frames siblings (c1 ++ c2) → sib_frames siblings c1.
Proof. intros Hs i b s Hi. apply (Hs i b s). by apply lookup_app_l_Some. Qed.

Lemma ctx_bits_app k n c1 c2 : ctx_bits k n (c1 ++ c2) → ctx_bits k n c1.
Proof. intros Hs i b s Hi. apply (Hs i b s). by apply lookup_app_l_Some. Qed.

Lemma ctx_bits_last k ctx b s : ctx_bits k 0 (ctx ++ [(b, s)]) → keybit k (length ctx) = b.
Proof. intros Hs. apply (Hs (length ctx) b s). by rewrite lookup_app_r, Nat.sub_diag by lia. Qed.

Lemma sib_frames_insert siblings ctx i b s h :
  sib_frames siblings ctx → ctx !! i = Some (b, s) →
  sib_frames (<[Z.of_nat i := frame_node i b s h]> siblings) ctx.
Proof.
  intros Hs Hi j b' s' Hj. destruct (decide (j = i)) as [->|Hne].
  - exists h. rewrite lookup_insert_eq. congruence.
  - rewrite lookup_insert_ne by lia. eauto.
Qed.

(** Writing the child of the innermost branch. *)
Lemma set_child_spec siblings k ctx b s h :
  sib_frames siblings (ctx ++ [(b, s)]) → ctx_bits k 0 (ctx ++ [(b, s)]) → (length ctx < 256)%nat →
  let siblings' := <[Z.of_nat (length ctx) := frame_node (length ctx) b s h]> siblings in
  set_child siblings (GetPath k) (Z.of_nat (length ctx)) h = Ok siblings' ∧
  sib_frames siblings' (ctx ++ [(b, s)]).
Proof.
  intros Hs Hb Hlen siblings'. assert ((ctx ++ [(b, s)]) !! length ctx = Some (b, s)) as Hl.
  { by rewrite lookup_app_r, Nat.sub_diag by lia. }
  split; [|by apply sib_frames_insert].
  destruct (Hs _ _ _ Hl) as [h' E]. unfold set_child, sibling. rewrite E. cbn [mbind outcome_bind].
  rewrite go_index_GetPath by done. cbn [mbind outcome_bind].
  by rewrite (ctx_bits_last k ctx b s), set_quarter_frame.
Qed.

Lemma focused_snoc siblings ctx b s h root :
  focused (<[Z.of_nat (length ctx) := frame_node (length ctx) b s h]> siblings) (ctx ++ [(b, s)]) h root.
Proof.
  split; [by intros [_ ?]%app_nil|]. intros ctx' b' s' E. apply app_inj_tail in E as [<- [= <- <-]].
  by rewrite lookup_insert_eq.
Qed.

Lemma place_spec (d : D) siblings k ctx h root mode :
  sib_frames siblings ctx → ctx_bits k 0 ctx → (length ctx ≤ 256)%nat →
  ∃ siblings' root', place d (GetPath k) siblings (Z.of_nat (length ctx) - 1) root h mode =
      Ok (d, siblings', Z.of_nat (length ctx) - 1, root', mode) ∧
    sib_frames siblings' ctx ∧ focused siblings' ctx h root'.
Proof.
  intros Hs Hb Hlen. unfold place. destruct ctx as [|[b s] ctx _] using rev_ind.
  { case_bool; [simpl in *; lia|]. exists siblings, h. split; [done|]. split; [done|].
    split; [done|]. by intros ctx' b s [_ ?]%symmetry%app_nil. }
  rewrite length_snoc in Hlen |- *. case_bool; [|lia].
  replace (Z.of_nat (S (length ctx)) - 1) with (Z.of_nat (length ctx)) by lia.
  destruct (set_child_spec siblings k ctx b s h) as [-> Hs']; [done..|].
  eexists _, root. split; [done|]. split; [done|]. apply focused_snoc.
Qed.

(** The rehash loop turns a context and a focus into the stored tree. *)
Lemma rehash_spec U d k ctx : ∀ f siblings root,
  (length ctx ≤ 256)%nat → ctx_bits k 0 ctx → hash_good hash U →
  tree_nodes 0 (plug ctx f) ⊆ U → stored d (ctx_nodes 0 ctx ++ tree_nodes (length ctx) f) →
  sib_frames siblings ctx → focused siblings ctx (thash (length ctx) f) root →
  ∃ d', rehash_up hash (length ctx) false d (GetPath k) siblings (Z.of_nat (length ctx) - 1) root =
      Ok (thash 0 (plug ctx f), d') ∧
    stored d' (tree_nodes 0 (plug ctx f)) ∧ same_meta d d'.
Proof.
  revert d. induction ctx as [|[b s] ctx IH] using rev_ind; intros d f siblings root Hlen Hb HU Hsub Hst Hs Hf.
  { exists d. destruct Hf as [Hf _]. rewrite (Hf eq_refl). split_and!; done. }
  pose proof (proj2 Hf ctx b s eq_refl) as Htop. rewrite length_snoc in *.
  set (p := frame_pre (length ctx) b s (thash (S (length ctx)) f)) in *.
  assert (preimage_wf p) as Hwf by (by apply frame_pre_wf; [..|apply thash_wf]).
  pose proof (plug_nodes_frame 0 ctx b s f) as Hp. simpl in Hp. fold p in Hp.
  pose proof (tree_nodes_plug 0 (ctx ++ [(b, s)]) f) as Hsub2. rewrite length_snoc in Hsub2. simpl in Hsub2.
  destruct (hashcalcAndSave_spec U d _ p HU ltac:(set_solver) ltac:(etrans; [exact Hsub2|exact Hsub]) Hwf Hst)
    as (d1 & E1 & Hst1 & Hm1).
  destruct (node_of_parts p Hwf) as (E2 & E3 & E4).
  assert (stored d1 (ctx_nodes 0 ctx ++ tree_nodes (length ctx) (plug [(b, s)] f))) as Hst2.
  { eapply stored_sub; [exact Hst1|]. rewrite ctx_nodes_app. subst p. destruct b; simpl; set_solver. }
  rewrite plug_app in Hsub |- *. cbn [rehash_up].
  replace (Z.of_nat (S (length ctx)) - 1) with (Z.of_nat (length ctx)) by lia.
  unfold sibling at 1. rewrite Htop. cbn [mbind outcome_bind]. unfold frame_node. fold p.
  rewrite E2. cbn [mbind outcome_bind]. rewrite E3, E4, E1. cbn [mbind outcome_bind].
  assert (phash p = thash (length ctx) (plug [(b, s)] f)) as Ep by (by rewrite thash_plug1).
  assert (sib_frames siblings ctx) as Hs' by by eapply sib_frames_app.
  assert (ctx_bits k 0 ctx) as Hb' by by eapply ctx_bits_app.
  destruct ctx as [|[b' s'] ctx _] using rev_ind.
  { simpl. exists d1. by rewrite Ep. }
  case_bool; [|rewrite length_snoc in *; lia].
  replace (Z.of_nat (length (ctx ++ [(b', s')])) - 1) with (Z.of_nat (length ctx))
    by (rewrite length_snoc; lia).
  destruct (set_child_spec siblings k ctx b' s' (phash p)) as [-> Hs2];
    [done|done|rewrite length_snoc in Hlen; lia|]. cbn [mbind outcome_bind].
  destruct (IH d1 (plug [(b, s)] f) (<[Z.of_nat (length ctx):=frame_node (length ctx) b' s' (phash p)]> siblings)
    (phash p)) as (d2 & E5 & Hst3 & Hm2); [lia|done..| |].
  { rewrite <-Ep. apply focused_snoc. }
  exists d2. replace (Z.of_nat (length ctx)) with (Z.of_nat (length (ctx ++ [(b', s')])) - 1) at 2
    by (rewrite length_snoc; lia).
  split; [exact E5|]. split; [done|]. by eapply same_meta_trans.
Qed.
(** ** Saving leaves *)

Lemma save_value_spec U d ps v newValH :
  hash_good hash U → val_pre v ∈ U → ps ⊆ U → val_ok v → stored d ps →
  newValH = nk_zero ∨ newValH = phash (val_pre v) →
  ∃ d', save_value hash false d (Some <$> v) newValH = Ok (phash (val_pre v), d') ∧
    stored d' (val_pre v :: ps) ∧ same_meta d d'.
Proof.
  intros HU Hv Hps Hok Hst Hh.
  destruct (hashcalcAndSave_spec U d ps (val_pre v) HU Hv Hps (val_pre_wf v Hok) Hst) as (d' & E & Hd').
  exists d'. split; [|done]. unfold save_value. rewrite ToUintArray_some by apply Hok.
  case_bool_decide; [done|]. destruct Hh as [->| ->]; [done|].
  unfold hashcalcAndSave, hashSave, SmtTree.phash in *. simpl in *. by inv_ok.
Qed.

(** Saving a value, its leaf, and the key of the leaf. *)
Lemma save_leaf_spec U d ps n k v newValH :
  hash_good hash U → tree_nodes n (Leaf k v) ⊆ U → ps ⊆ U → nk_wf k → val_ok v → stored d ps →
  newValH = nk_zero ∨ newValH = phash (val_pre v) →
  ∃ d1 d2 d3,
    save_value hash false d (Some <$> v) newValH = Ok (phash (val_pre v), d1) ∧
    hashcalcAndSave hash false d1
      (ConcatArrays4 (RemoveKeyBits k (Z.of_nat n)) (phash (val_pre v))) LeafCapacity =
        Ok (thash n (Leaf k v), d2) ∧
    db_InsertHashKey d2 (thash n (Leaf k v)) k = Ok d3 ∧
    stored d3 (tree_nodes n (Leaf k v) ++ ps) ∧ same_meta d d3.
Proof.
  intros HU Hlf Hps Hk Hv Hst Hh. simpl in Hlf.
  destruct (save_value_spec U d ps v newValH) as (d1 & E1 & Hst1 & Hm1); [set_solver..|].
  destruct (hashcalcAndSave_spec U d1 (val_pre v :: ps) (leaf_pre hash n k v)) as (d2 & E2 & Hst2 & Hm2);
    [done|set_solver|set_solver|by apply leaf_pre_wf|done|].
  destruct (law_InsertHashKey d2 (thash n (Leaf k v)) k) as (d3 & E3 & Hn3 & Hm3 & _);
    [by apply thash_wf|done|].
  exists d1, d2, d3. split_and!; [done..| |].
  - eapply stored_sub; [by eapply stored_same|]. simpl. set_solver.
  - eauto using same_meta_trans.
Qed.

(** ** The modes *)

(** The result of a mode: context [ctx] around the new focus [f], saved. *)
Definition edited (d : D) (e : outcome edit) (ctx : list frame) (f : tree) (mode : string) : Prop :=
  ∃ d' siblings root,
    e = Ok (d', siblings, Z.of_nat (length ctx) - 1, root, mode) ∧
    stored d' (ctx_nodes 0 ctx ++ tree_nodes (length ctx) f) ∧
    sib_frames siblings ctx ∧ focused siblings ctx (thash (length ctx) f) root ∧
    same_meta d d' ∧ (∀ i, is_Some (siblings !! i) → 0 ≤ i).

Lemma place_levels (d : D) keys siblings level root h mode d' siblings' level' root' mode' :
  (∀ i, is_Some (siblings !! i) → 0 ≤ i) →
  place d keys siblings level root h mode = Ok (d', siblings', level', root', mode') →
  ∀ i, is_Some (siblings' !! i) → 0 ≤ i.
Proof.
  intros Hl. unfold place. case_bool; [|by intros [= -> -> -> -> ->]].
  unfold set_child. intros E. inv_ok. intros i Hi. apply lookup_insert_is_Some in Hi as [<-|[_ Hi]]; auto.
Qed.

Lemma place_edited d0 d siblings k ctx f root mode :
  stored d (ctx_nodes 0 ctx ++ tree_nodes (length ctx) f) → same_meta d0 d →
  sib_frames siblings ctx → ctx_bits k 0 ctx → (length ctx ≤ 256)%nat →
  (∀ i, is_Some (siblings !! i) → 0 ≤ i) →
  edited d0 (place d (GetPath k) siblings (Z.of_nat (length ctx) - 1) root (thash (length ctx) f) mode)
    ctx f mode.
Proof.
  intros Hst Hm Hs Hb Hlen Hlv.
  destruct (place_spec d siblings k ctx (thash (length ctx) f) root mode) as (sb & rt & E & Hs' & Hf); [done..|].
  exists d, sb, rt. split_and!; [done..|]. by eapply place_levels.
Qed.

(** What the modes start from: the descent has reached the focus [f]. *)
Record at_focus (U : list preimage) (d : D) (k : NodeKey) (ctx : list frame) (f : tree)
    (siblings : gmap Z NodeValue12) : Prop := {
  af_good : hash_good hash U;
  af_key : nk_wf k;
  af_len : (length ctx ≤ 256)%nat;
  af_bits : ctx_bits k 0 ctx;
  af_stored : stored d (ctx_nodes 0 ctx ++ tree_nodes (length ctx) f);
  af_all : tree_nodes 0 (plug ctx f) ⊆ U;
  af_sub : ctx_nodes 0 ctx ++ tree_nodes (length ctx) f ⊆ U;
  af_sib : sib_exact siblings ctx f;
  af_levels : ∀ i, is_Some (siblings !! i) → 0 ≤ i;
}.

Lemma update_spec U d k ctx v0 siblings v newValH root :
  at_focus U d k ctx (Leaf k v0) siblings → val_ok v →
  tree_nodes (length ctx) (Leaf k v) ⊆ U →
  newValH = nk_zero ∨ newValH = phash (val_pre v) →
  edited d (insert_update hash false d k (Some <$> v) newValH root (GetPath k)
    (walk_at k ctx (Leaf k v0) siblings) (Z.of_nat (length ctx) - 1)) ctx (Leaf k v) "update".
Proof.
  intros [HU Hk Hlen Hb Hst Hall Hsub Hsib Hlv] Hv HvU Hh.
  destruct (save_leaf_spec U d _ (length ctx) k v newValH HU HvU Hsub Hk Hv Hst Hh)
    as (d1 & d2 & d3 & E1 & E2 & E3 & Hst3 & Hm).
  unfold insert_update. rewrite E1. cbn [mbind outcome_bind walk_at w_foundRKey w_siblings].
  rewrite E2. cbn [mbind outcome_bind]. rewrite E3. cbn [mbind outcome_bind].
  eapply place_edited; [eapply stored_sub; [done|]|..]; eauto using sib_exact_frames.
  set_solver.
Qed.

Lemma not_found_spec U d k ctx siblings v newValH root :
  at_focus U d k ctx Empty siblings → val_ok v →
  tree_nodes (length ctx) (Leaf k v) ⊆ U →
  newValH = nk_zero ∨ newValH = phash (val_pre v) →
  edited d (insert_not_found hash false d k (Some <$> v) newValH root (GetPath k)
    (walk_at k ctx Empty siblings) (Z.of_nat (length ctx) - 1)) ctx (Leaf k v) "insertNotFound".
Proof.
  intros [HU Hk Hlen Hb Hst Hall Hsub Hsib Hlv] Hv HvU Hh.
  destruct (save_leaf_spec U d _ (length ctx) k v newValH HU HvU Hsub Hk Hv Hst Hh)
    as (d1 & d2 & d3 & E1 & E2 & E3 & Hst3 & Hm).
  unfold insert_not_found. rewrite E1, Z.sub_add. cbn [mbind outcome_bind walk_at w_siblings].
  rewrite E2. cbn [mbind outcome_bind]. rewrite E3. cbn [mbind outcome_bind ignore_err].
  eapply place_edited; [eapply stored_sub; [done|]|..]; eauto using sib_exact_frames.
  set_solver.
Qed.

Lemma zero_to_zero_spec U d k ctx f siblings :
  at_focus U d k ctx f siblings →
  edited d (Ok (d, w_siblings (walk_at k ctx f siblings), Z.of_nat (length ctx) - 1,
    thash 0 (plug ctx f), "zeroToZero"%string)) ctx f "zeroToZero".
Proof.
  intros [HU Hk Hlen Hb Hst Hall Hsub Hsib Hlv].
  exists d, siblings, (thash 0 (plug ctx f)). split_and!; [done|done|by eapply sib_exact_frames| |done|done].
  split; [by intros ->|]. intros ctx' b s ->.
  rewrite (Hsib (length ctx') b s) by (by rewrite lookup_app_r, Nat.sub_diag by lia).
  by rewrite length_snoc, drop_ge by (rewrite length_snoc; lia).
Qed.

(** ** Insertion beside a leaf *)

Lemma set_words_frame lvl b s h :
  set_words (set_words zero_node (Z.to_nat (Z.b2z b)) h) (Z.to_nat (Z.b2z (negb b))) (thash (S lvl) s) =
    (frame_pre lvl b s h).1.
Proof. by destruct b. Qed.

Lemma set_words_chain lvl b h :
  set_words zero_node (Z.to_nat (Z.b2z b)) h = (frame_pre lvl b Empty h).1.
Proof. by destruct b. Qed.

(** Saving one branch above a stored subtree. *)
Lemma save_frame_spec U d ps lvl b s f :
  hash_good hash U → frame_pre lvl b s (thash (S lvl) f) ∈ U → tree_nodes (S lvl) s ⊆ ps →
  ps ⊆ U → tree_nodes (S lvl) f ⊆ ps → stored d ps →
  ∃ d', hashcalcAndSave hash false d (frame_pre lvl b s (thash (S lvl) f)).1 BranchCapacity =
      Ok (thash lvl (plug [(b, s)] f), d') ∧
    stored d' (tree_nodes lvl (plug [(b, s)] f) ++ ps) ∧ same_meta d d'.
Proof.
  intros HU Hp Hs Hps Hf Hst.
  destruct (hashcalcAndSave_spec U d ps (frame_pre lvl b s (thash (S lvl) f)))
    as (d' & E & Hst' & Hm); [done|done|done|by apply frame_pre_wf; [..|apply thash_wf]|done|].
  exists d'. rewrite thash_plug1, <-E. split; [by destruct b|]. split; [|done].
  eapply stored_sub; [done|]. destruct b; simpl; set_solver.
Qed.

Lemma chain_up_spec U ps k n m : ∀ d g,
  (n + m ≤ 256)%nat → hash_good hash U → tree_nodes n (plug (chain k n m) g) ⊆ U → ps ⊆ U →
  stored d (tree_nodes (n + m) g ++ ps) →
  ∃ d', chain_up hash m false d (GetPath k) (Z.of_nat n + Z.of_nat m - 1) (thash (n + m) g) =
      Ok (thash n (plug (chain k n m) g), d') ∧
    stored d' (tree_nodes n (plug (chain k n m) g) ++ ps) ∧ same_meta d d'.
Proof.
  induction m as [|m IH]; intros d g Hn HU Hsub Hps Hst.
  { exists d. rewrite Nat.add_0_r in *. by split_and!. }
  set (b := keybit k (n + m)). rewrite chain_S in *. fold b in Hsub |- *.
  pose proof (plug_nodes_frame n (chain k n m) b Empty g) as Hp.
  pose proof (tree_nodes_plug n (chain k n m ++ [(b, Empty)]) g) as Hg.
  rewrite length_snoc, length_chain in Hg. rewrite length_chain in Hp.
  rewrite <-plus_n_Sm in *.
  destruct (save_frame_spec U d (tree_nodes (S (n + m)) g ++ ps) (n + m) b Empty g)
    as (d1 & E1 & Hst1 & Hm1); [done|set_solver..|done|].
  rewrite plug_app in *. destruct (IH d1 (plug [(b, Empty)] g)) as (d2 & E2 & Hst2 & Hm2);
    [lia|done|done|done|eapply stored_sub; [done|set_solver]|].
  exists d2. cbn [chain_up]. replace (Z.of_nat n + Z.of_nat (S m) - 1) with (Z.of_nat (n + m)) by lia.
  rewrite go_index_GetPath by lia. cbn [mbind outcome_bind]. fold b.
  rewrite (set_words_chain (n + m)), E1. cbn [mbind outcome_bind].
  replace (Z.of_nat (n + m) - 1) with (Z.of_nat n + Z.of_nat m - 1) by lia.
  split_and!; [done|done|by eapply same_meta_trans].
Qed.

Lemma save_old_leaf U d ps n k v :
  hash_good hash U → leaf_pre hash n k v ∈ U → ps ⊆ U → nk_wf k → stored d ps →
  ∃ d1 d2, hashcalcAndSave hash false d
      (ConcatArrays4 (RemoveKeyBits k (Z.of_nat n)) (phash (val_pre v))) LeafCapacity =
        Ok (thash n (Leaf k v), d1) ∧
    db_InsertHashKey d1 (thash n (Leaf k v)) k = Ok d2 ∧
    stored d2 (leaf_pre hash n k v :: ps) ∧ same_meta d d2.
Proof.
  intros HU Hp Hps Hk Hst.
  destruct (hashcalcAndSave_spec U d ps (leaf_pre hash n k v)) as (d1 & E1 & Hst1 & Hm1);
    [done..|by apply leaf_pre_wf|done|].
  destruct (law_InsertHashKey d1 (thash n (Leaf k v)) k) as (d2 & E2 & Hn2 & Hm2 & _);
    [by apply thash_wf|done|].
  exists d1, d2. split_and!; [done..|by eapply stored_same|by eapply same_meta_trans].
Qed.

Lemma split_nodes U k n m b s g :
  tree_nodes n (plug (chain k n m ++ [(b, s)]) g) ⊆ U →
  frame_pre (n + m) b s (thash (S (n + m)) g) ∈ U ∧
  tree_nodes (S (n + m)) s ⊆ U ∧ tree_nodes (S (n + m)) g ⊆ U.
Proof.
  intros HU. pose proof (plug_nodes_frame n (chain k n m) b s g) as H1.
  pose proof (tree_nodes_plug n (chain k n m ++ [(b, s)]) g) as H2.
  rewrite length_snoc, length_chain, ctx_nodes_app, length_chain in H2. rewrite length_chain in H1.
  rewrite <-plus_n_Sm in H2. simpl in H2. set_solver.
Qed.

Lemma found_spec U d k ctx p k' v' siblings v newValH root :
  let n := length ctx in
  at_focus U d k ctx (Leaf k' v') siblings → length p = n → has_path p k → has_path p k' →
  nk_wf k' → k ≠ k' → val_ok v → tree_nodes n (tsplit (256 - n) n k v k' v') ⊆ U →
  newValH = nk_zero ∨ newValH = phash (val_pre v) →
  edited d (insert_found hash false d k (Some <$> v) newValH root (GetPath k)
    (walk_at k ctx (Leaf k' v') siblings) (Z.of_nat n - 1) k') ctx
    (tsplit (256 - n) n k v k' v') "insertFound".
Proof.
  intros n [HU Hk Hlen Hb Hst Hall Hsub Hsib Hlv] Hpn Hpk Hpk' Hk' Hne Hv HU2 Hh.
  destruct (tsplit_chain (256 - n) p k v k' v') as (Hlt & Hbit & Hsplit); [by rewrite Hpn|by rewrite Hpn|done..|].
  rewrite Hpn in Hlt, Hbit, Hsplit. rewrite Hsplit in HU2 |- *.
  unfold insert_found. cbv zeta. rewrite Z.sub_add, (Nat2Z.id n).
  set (m := common_prefix (drop n (GetPath k)) (drop n (GetPath k'))) in *.
  replace (Z.of_nat n + Z.of_nat m + 1) with (Z.of_nat (S (n + m))) by lia.
  replace (Z.of_nat n + Z.of_nat m) with (Z.of_nat (n + m)) by lia.
  rewrite !go_index_GetPath, Hbit by done. set (b := keybit k (n + m)) in *.
  destruct (split_nodes U k n m b _ _ HU2) as (HpU & HsU & HgU).
  set (ps := ctx_nodes 0 ctx ++ tree_nodes (length ctx) (Leaf k' v')) in *.
  assert (leaf_pre hash (S (n + m)) k' v' ∈ U) as HlU by (simpl in HsU; set_solver).
  destruct (save_old_leaf U d ps (S (n + m)) k' v') as (d1 & d2 & E1 & E2 & Hst2 & Hm2); [done..|].
  destruct (save_leaf_spec U d2 (leaf_pre hash (S (n + m)) k' v' :: ps) (S (n + m)) k v newValH)
    as (d3 & d4 & d5 & E3 & E4 & E5 & Hst5 & Hm5); [done|done|set_solver|done..|].
  destruct (save_frame_spec U d5 (tree_nodes (S (n + m)) (Leaf k v) ++ leaf_pre hash (S (n + m)) k' v' :: ps)
    (n + m) b (Leaf k' v') (Leaf k v)) as (d6 & E6 & Hst6 & Hm6); [done|done| |set_solver|set_solver|done|].
  { subst ps. simpl. set_solver. }
  rewrite plug_app in HU2 |- *.
  destruct (chain_up_spec U ps k n m d6 (plug [(b, Leaf k' v')] (Leaf k v))) as (d7 & E7 & Hst7 & Hm7);
    [lia|done|done|done|eapply stored_sub; [done|set_solver]|].
  cbn [walk_at w_foundOldValHash w_siblings]. fold n. rewrite E1. cbn [mbind outcome_bind].
  rewrite E2. cbn [mbind outcome_bind ignore_err]. rewrite E3. cbn [mbind outcome_bind].
  rewrite E4. cbn [mbind outcome_bind]. rewrite E5. cbn [mbind outcome_bind ignore_err].
  rewrite set_words_frame, E6. cbn [mbind outcome_bind].
  match goal with |- context [chain_up hash ?x _ _ _ ?y] =>
    replace x with m by lia; replace y with (Z.of_nat n + Z.of_nat m - 1) by lia end.
  rewrite E7. cbn [mbind outcome_bind]. eapply place_edited; eauto using sib_exact_frames, same_meta_trans.
  eapply stored_sub; [done|]. subst ps. set_solver.
Qed.

(** ** Deletion *)

Lemma unique_frame_zero lvl b s :
  thash (S lvl) s ≠ nk_zero → IsUniqueSibling (frame_node lvl b s nk_zero) = Z.b2z (negb b).
Proof.
  intros Hs. unfold SmtInsert.frame_node, SmtInsert.frame_pre. destruct b; rewrite IsUniqueSibling_branch;
    try (by apply thash_wf); try apply nk_zero_wf; by repeat case_decide.
Qed.

Lemma unique_frame lvl b s h :
  nk_wf h → h ≠ nk_zero → (s ≠ Empty → thash (S lvl) s ≠ nk_zero) →
  IsUniqueSibling (frame_node lvl b s h) = if decide (s = Empty) then Z.b2z b else -1.
Proof.
  intros Hh Hne Hs. unfold SmtInsert.frame_node, SmtInsert.frame_pre.
  destruct b; rewrite IsUniqueSibling_branch; try done; try (by apply thash_wf);
    repeat case_decide; subst; try done; naive_solver.
Qed.

(** Frames whose child on the path is not empty. *)
Definition sib_live (siblings : gmap Z NodeValue12) (ctx : list frame) : Prop :=
  ∀ i b s, ctx !! i = Some (b, s) →
    (s ≠ Empty → thash (S i) s ≠ nk_zero) ∧
    ∃ h, nk_wf h ∧ h ≠ nk_zero ∧ siblings !! Z.of_nat i = Some (frame_node i b s h).

Lemma sib_live_app siblings c1 c2 : sib_live siblings (c1 ++ c2) → sib_live siblings c1.
Proof. intros Hs i b s Hi. apply (Hs i b s). by apply lookup_app_l_Some. Qed.

Lemma sib_live_frames siblings ctx : sib_live siblings ctx → sib_frames siblings ctx.
Proof. intros Hs i b s Hi. destruct (Hs i b s Hi) as (_ & h & _ & _ & E). eauto. Qed.

Lemma collapse_up_spec siblings ctx : ∀ n uKey,
  sib_live siblings ctx → (length ctx + 2 ≤ n)%nat → 0 ≤ uKey →
  ∃ ctx', collapse_up n siblings (Z.of_nat (length ctx)) uKey = Ok (Z.of_nat (length ctx') - 1) ∧
    stripped ctx ctx'.
Proof.
  induction ctx as [|[b s] ctx IH] using rev_ind; intros n uKey Hl Hn Hu.
  { exists []. destruct n as [|[|n]]; [simpl in Hn; lia..|]. split; [|by exists []; auto].
    cbn [collapse_up length]. rewrite (proj2 (Z.leb_le 0 uKey)) by lia. simpl. by destruct (0 <=? uKey). }
  rewrite length_snoc in *. destruct n as [|n]; [lia|]. cbn [collapse_up].
  rewrite (proj2 (Z.leb_le 0 uKey)), (proj2 (Z.leb_le 0 (Z.of_nat (S (length ctx))))) by lia. cbn [andb].
  replace (Z.of_nat (S (length ctx)) - 1) with (Z.of_nat (length ctx)) by lia.
  rewrite (proj2 (Z.leb_le 0 (Z.of_nat (length ctx)))) by lia.
  destruct (Hl (length ctx) b s) as (Hs & h & Hwf & Hne & E).
  { by rewrite lookup_app_r, Nat.sub_diag by lia. }
  unfold sibling. rewrite E. cbn [mbind outcome_bind]. rewrite unique_frame by done.
  destruct (decide (s = Empty)) as [->|Hse].
  - destruct (IH n (Z.b2z b)) as (ctx' & E' & em & -> & Hem & Hc);
      [by eapply sib_live_app|lia|by destruct b|].
    exists ctx'. split; [done|]. exists (em ++ [(b, Empty)]). rewrite app_assoc. split; [done|].
    split; [|done]. apply Forall_app. auto.
  - exists (ctx ++ [(b, s)]). destruct n as [|n]; [lia|]. cbn [collapse_up]. rewrite length_snoc.
    split; [f_equal; simpl; lia|]. exists []. rewrite app_nil_r. split; [done|]. split; [done|]. eauto 10.
Qed.

Lemma ctx_nodes_lookup ctx i b s : ∀ j,
  ctx !! i = Some (b, s) → tree_nodes (S (j + i)) s ⊆ ctx_nodes j ctx.
Proof.
  revert i. induction ctx as [|[b' s'] ctx IH]; intros [|i] j Hi; simplify_eq/=.
  - rewrite Nat.add_0_r. set_solver.
  - specialize (IH i (S j) Hi). rewrite <-plus_n_Sm. set_solver.
Qed.

Lemma plug_nonempty ctx f : f ≠ Empty → plug ctx f ≠ Empty.
Proof. intros Hf. by destruct ctx as [|[[] s] ctx]. Qed.

Lemma exact_live U siblings ctx f :
  hash_good hash U → tree_nodes 0 (plug ctx f) ⊆ U → f ≠ Empty →
  sib_exact siblings ctx f → sib_live siblings ctx.
Proof.
  intros HU Hall Hf Hs i b s Hi. pose proof (lookup_lt_Some _ _ _ Hi) as Hlt.
  pose proof (tree_nodes_plug 0 ctx f) as Hsub. split.
  - apply (thash_nonzero U); [done|]. pose proof (ctx_nodes_lookup ctx i b s 0 Hi). simpl in *. set_solver.
  - eexists. split; [by apply thash_wf|]. split; [|by apply Hs].
    apply (thash_nonzero U); [done| |by apply plug_nonempty].
    pose proof (tree_nodes_plug 0 (take (S i) ctx) (plug (drop (S i) ctx) f)) as H1.
    rewrite <-plug_app, take_drop, length_take_le in H1 by lia. simpl in H1. set_solver.
Qed.

(** The last frame of a canonical tree around a leaf. *)
Lemma tree_ok_plug p ctx f : tree_ok p (plug ctx f) → tree_ok (p ++ (fst <$> ctx)) f.
Proof.
  revert p. induction ctx as [|[b s] ctx IH]; intros p Hok; [by rewrite app_nil_r|]. csimpl.
  rewrite cons_middle, app_assoc. apply IH. destruct b; simpl in Hok; tauto.
Qed.

Lemma sibling_ok ctx b s k v :
  tree_ok [] (plug (ctx ++ [(b, s)]) (Leaf k v)) →
  let p := fst <$> ctx in
  length p = length ctx ∧ (length p < 256)%nat ∧ has_path p k ∧ s ≠ Empty ∧ tree_ok (p ++ [negb b]) s.
Proof.
  intros Hok p. rewrite plug_app in Hok. apply tree_ok_plug in Hok. simpl in Hok.
  assert (length p = length ctx) as Hlen by apply length_fmap. fold p in Hok. destruct b; simpl in Hok.
  - destruct Hok as (H1 & H2 & H3 & H4 & H5 & _). apply has_path_snoc in H5 as [H5 _].
    split_and!; auto. intros ->. simpl in H2. lia.
  - destruct Hok as (H1 & H2 & (H3 & H4 & _) & H5). apply has_path_snoc in H4 as [H4 _].
    split_and!; auto. intros ->. simpl in H2. lia.
Qed.

Lemma replug_snoc_empty ctx b s :
  s ≠ Empty → replug (ctx ++ [(b, s)]) Empty = 
    match s with Leaf _ _ => replug ctx s | _ => plug (ctx ++ [(b, s)]) Empty end.
Proof.
  intros Hs. rewrite replug_app, plug_app.
  destruct s as [|k v|l r]; [done|by destruct b|]. destruct b; apply replug_branch.
Qed.

(** The key of the remaining sibling is rebuilt from the path. *)
Lemma sibling_key ctx b k2 v2 k v :
  tree_ok [] (plug (ctx ++ [(b, Leaf k2 v2)]) (Leaf k v)) →
  JoinKey (take (length ctx) (GetPath k) ++ [Z.b2z (negb b)])
    (RemoveKeyBits k2 (Z.of_nat (S (length ctx)))) = k2 ∧ nk_wf k2.
Proof.
  intros Hok. destruct (sibling_ok _ _ _ _ _ Hok) as (Hlen & Hlt & Hk & _ & Hk2 & Hp2 & _).
  split; [|done]. apply has_path_snoc in Hp2 as [Hp2 Hbit]. rewrite Hlen in Hbit, Hlt.
  rewrite <-(JoinKey_RemoveKeyBits k2 (S (length ctx))) at 2 by (done || lia).
  rewrite take_GetPath_S, Hbit by done. 
  rewrite <-Hlen. by rewrite (take_GetPath_eq _ k k2) by (done || lia).
Qed.

Definition del_mode (ctx : list frame) : string :=
  match last ctx with
  | None => "deleteLast"
  | Some (_, Leaf _ _) => "deleteFound"
  | Some _ => "deleteNotFound"
  end.

Lemma del_mode_snoc ctx b s :
  del_mode (ctx ++ [(b, s)]) = match s with Leaf _ _ => "deleteFound"%string | _ => "deleteNotFound"%string end.
Proof. unfold del_mode. by rewrite last_snoc. Qed.

Lemma quarter_frame lvl b s h :
  nk_wf h → quarter (frame_node lvl b s h) (Z.to_nat (Z.b2z (negb b))) = thash (S lvl) s.
Proof.
  intros Hh. unfold SmtInsert.frame_node, SmtInsert.frame_pre, branch_pre.
  destruct b; [change (Z.to_nat (Z.b2z (negb true))) with 0%nat|change (Z.to_nat (Z.b2z (negb false))) with 1%nat];
    apply quarter_node; try (by apply thash_wf); try done; apply BranchCapacity_wf.
Qed.

(** Deleting beside a subtree: the branch stays, with an empty child. *)
Lemma delete_branch_spec U d k ctx b l r v0 siblings root used :
  let ctx1 := ctx ++ [(b, Branch l r)] in
  at_focus U d k ctx1 (Leaf k v0) siblings →
  edited d (delete_found hash false d (GetPath k) (walk_at k ctx1 (Leaf k v0) siblings)
    (Z.of_nat (length ctx1) - 1) used root) ctx1 Empty "deleteNotFound".
Proof.
  intros ctx1 [HU Hk Hlen Hb Hst Hall Hsub Hsib Hlv]. subst ctx1. rewrite length_snoc in *.
  replace (Z.of_nat (S (length ctx)) - 1) with (Z.of_nat (length ctx)) by lia.
  assert (tree_nodes (S (length ctx)) (Branch l r) ⊆ ctx_nodes 0 (ctx ++ [(b, Branch l r)])) as Hn.
  { apply (ctx_nodes_lookup _ (length ctx) b _ 0). by rewrite lookup_app_r, Nat.sub_diag by lia. }
  unfold delete_found. case_bool; [|lia]. cbn [walk_at w_siblings].
  destruct (set_child_spec siblings k ctx b (Branch l r) nk_zero) as [-> Hs2];
    [by eapply sib_exact_frames|done|lia|]. cbn [mbind outcome_bind].
  unfold sibling. rewrite lookup_insert_eq. cbn [mbind outcome_bind].
  rewrite unique_frame_zero by (apply (thash_nonzero U); [done|set_solver|done]).
  rewrite (proj2 (Z.leb_le 0 (Z.b2z (negb b)))) by (by destruct b).
  rewrite quarter_frame by apply nk_zero_wf.
  rewrite (stored_branch d _ _ l r Hst) by set_solver.
  cbn [mbind outcome_bind]. rewrite IsFinalNode_branch.
  eexists d, _, root. rewrite length_snoc.
  replace (Z.of_nat (S (length ctx)) - 1) with (Z.of_nat (length ctx)) by lia. split; [done|].
  split; [eapply stored_sub; [done|rewrite app_nil_r; set_solver]|].
  split; [|split; [|split; [done|]]].
  - intros i b' s' Hi. pose proof (lookup_lt_Some _ _ _ Hi) as Hlt. rewrite length_snoc in Hlt.
    rewrite lookup_insert_ne by lia. by apply Hs2.
  - split; [by intros [_ ?]%app_nil|]. intros c b' s' E. apply app_inj_tail in E as [<- [= <- <-]].
    rewrite lookup_insert_ne by lia. by rewrite lookup_insert_eq.
  - intros i Hi. apply lookup_insert_is_Some in Hi as [<-|[_ Hi]]; [lia|].
    apply lookup_insert_is_Some in Hi as [<-|[_ Hi]]; [lia|auto].
Qed.

(** Deleting beside a leaf: the sibling leaf moves up past empty siblings. *)
Lemma delete_leaf_spec U d k ctx b k2 v2 v0 siblings root :
  let ctx1 := ctx ++ [(b, Leaf k2 v2)] in
  at_focus U d k ctx1 (Leaf k v0) siblings → tree_ok [] (plug ctx1 (Leaf k v0)) →
  tree_nodes 0 (replug ctx1 Empty) ⊆ U →
  ∃ ctx', stripped ctx ctx' ∧
    edited d (delete_found hash false d (GetPath k) (walk_at k ctx1 (Leaf k v0) siblings)
      (Z.of_nat (length ctx1) - 1) (take (length ctx) (GetPath k)) root) ctx' (Leaf k2 v2) "deleteFound".
Proof.
  intros ctx1 [HU Hk Hlen Hb Hst Hall Hsub Hsib Hlv] Hok HU2. subst ctx1.
  rewrite replug_snoc_empty in HU2 by done. rewrite length_snoc in *.
  replace (Z.of_nat (S (length ctx)) - 1) with (Z.of_nat (length ctx)) by lia.
  assert (tree_nodes (S (length ctx)) (Leaf k2 v2) ⊆ ctx_nodes 0 (ctx ++ [(b, Leaf k2 v2)])) as Hn.
  { apply (ctx_nodes_lookup _ (length ctx) b _ 0). by rewrite lookup_app_r, Nat.sub_diag by lia. }
  destruct (sibling_key _ _ _ _ _ _ Hok) as [Hjoin Hk2].
  pose proof (exact_live U siblings _ _ HU Hall ltac:(done) Hsib) as Hlive. apply sib_live_app in Hlive.
  unfold delete_found. case_bool; [|lia]. cbn [walk_at w_siblings].
  destruct (set_child_spec siblings k ctx b (Leaf k2 v2) nk_zero) as [-> _];
    [by eapply sib_exact_frames|done|lia|]. cbn [mbind outcome_bind].
  unfold sibling at 1. rewrite lookup_insert_eq. cbn [mbind outcome_bind].
  rewrite unique_frame_zero by (apply (thash_nonzero U); [done|set_solver|done]).
  assert (0 ≤ Z.b2z (negb b)) as Hu by (by destruct b). rewrite (proj2 (Z.leb_le 0 _) Hu).
  rewrite quarter_frame by apply nk_zero_wf.
  rewrite (stored_leaf d _ _ k2 v2 Hst) by set_solver. cbn [mbind outcome_bind].
  destruct (quarter_node (RemoveKeyBits k2 (Z.of_nat (S (length ctx)))) (phash (val_pre v2)) LeafCapacity)
    as (E0 & E1 & _ & _); [by apply RemoveKeyBits_wf|apply hash_wf|apply LeafCapacity_wf|].
  rewrite IsFinalNode_leaf. unfold leaf_pre. rewrite E0, E1, Hjoin.
  set (sb := <[Z.of_nat (length ctx) + 1 := _]> _).
  assert (sib_live sb ctx) as Hlive'.
  { intros i b' s' Hi. pose proof (lookup_lt_Some _ _ _ Hi). unfold sb.
    rewrite !lookup_insert_ne by lia. by apply Hlive. }
  destruct (collapse_up_spec sb ctx (Z.to_nat (Z.of_nat (length ctx) + 2)) (Z.b2z (negb b)))
    as (ctx' & E2 & Hstrip); [done|lia|done|].
  exists ctx'. split; [done|]. rewrite E2. cbn [mbind outcome_bind]. rewrite Z.sub_add.
  rewrite (replug_stripped _ _ _ _ Hstrip) in HU2. destruct Hstrip as (em & -> & _ & _).
  pose proof (tree_nodes_plug 0 ctx' (Leaf k2 v2)) as Hn2. simpl in Hn, Hn2.
  edestruct (save_old_leaf U d) with (n := length ctx') (k := k2) (v := v2)
    as (d1 & d2 & E3 & E4 & Hst2 & Hm2); [done|set_solver|exact Hsub|done|exact Hst|].
  rewrite E3. cbn [mbind outcome_bind]. rewrite E4. cbn [mbind outcome_bind ignore_err].
  rewrite length_app in Hlen. apply place_edited; [|done|..].
  - eapply stored_sub; [done|]. rewrite <-app_assoc, ctx_nodes_app in *. simpl in *. set_solver.
  - by eapply sib_live_frames, sib_live_app.
  - rewrite <-app_assoc in Hb. by eapply ctx_bits_app.
  - lia.
  - intros i Hi. unfold sb in Hi. apply lookup_insert_is_Some in Hi as [<-|[_ Hi]]; [lia|].
    apply lookup_insert_is_Some in Hi as [<-|[_ Hi]]; [lia|auto].
Qed.

Lemma delete_spec U d k ctx v0 siblings root :
  at_focus U d k ctx (Leaf k v0) siblings → tree_ok [] (plug ctx (Leaf k v0)) →
  tree_nodes 0 (replug ctx Empty) ⊆ U →
  ∃ ctx' f',
    edited d (delete_found hash false d (GetPath k) (walk_at k ctx (Leaf k v0) siblings)
      (Z.of_nat (length ctx) - 1)
      (take (length (take (length ctx) (GetPath k)) - 1) (take (length ctx) (GetPath k))) root)
      ctx' f' (del_mode ctx) ∧
    plug ctx' f' = replug ctx Empty ∧ ctx_bits k 0 ctx' ∧ (length ctx' ≤ 256)%nat.
Proof.
  intros Haf Hok HU. pose proof Haf as [_ _ Hlen Hb _ _ _ _ Hlv].
  rewrite take_take, length_take, length_GetPath.
  destruct ctx as [|[b s] ctx _] using rev_ind.
  { exists [], Empty. split_and!; [|done..]. exists d, siblings, nk_zero.
    split_and!; try done; [by constructor|]. split; [done|]. by intros ? ? ? [_ ?]%symmetry%app_nil. }
  destruct (sibling_ok _ _ _ _ _ Hok) as (_ & _ & _ & Hs & _). rewrite del_mode_snoc.
  replace (Nat.min _ _) with (length ctx) by (rewrite length_snoc in *; lia).
  rewrite (replug_snoc_empty ctx b s) by done. destruct s as [|k2 v2|l r]; [done| |].
  - destruct (delete_leaf_spec U d k ctx b k2 v2 v0 siblings root Haf Hok HU) as (ctx' & Hst & He).
    exists ctx', (Leaf k2 v2). split; [done|]. split; [symmetry; by apply replug_stripped|].
    destruct Hst as (em & -> & _ & _). rewrite <-app_assoc in *. split; [by eapply ctx_bits_app|].
    rewrite length_app in Hlen. lia.
  - exists (ctx ++ [(b, Branch l r)]), Empty. split_and!; [|done..]. by eapply delete_branch_spec.
Qed.

(** ** All modes *)

Definition insert_mode (t : tree) (k : NodeKey) (v : list Z) : string :=
  let '(ctx, f) := zip 0 t k in
  if decide (v = replicate 8 0) then
    match f with
    | Leaf k' _ => if decide (k' = k) then del_mode ctx else "zeroToZero"
    | _ => "zeroToZero"
    end
  else
    match f with
    | Leaf k' _ => if decide (k' = k) then "update" else "insertFound"
    | _ => "insertNotFound"
    end.

Lemma NodeValue8_IsZero_spec v :
  word8 v → NodeValue8_IsZero (Some <$> v) = bool_decide (v = replicate 8 0).
Proof.
  intros [Hl Hw]. unfold NodeValue8_IsZero. apply Bool.eq_iff_eq_true.
  rewrite forallb_forall, bool_decide_eq_true. split.
  - intros H. apply list_eq_Forall2, Forall2_replicate_r; [done|]. apply Forall_forall. intros x Hx.
    rewrite Forall_forall in Hw. specialize (H (Some x)). cbn beta iota in H.
    rewrite big_uint64_small in H by auto.
    apply Z.eqb_eq, H. apply list_elem_of_In, list_elem_of_fmap. eauto.
  - intros -> o Ho. apply list_elem_of_In, list_elem_of_fmap in Ho as (x & -> & Hx).
    apply elem_of_replicate in Hx as [-> _]. done.
Qed.

Lemma ctx_path k ctx : ctx_bits k 0 ctx → has_path (fst <$> ctx) k.
Proof.
  intros Hb j b Hj. apply list_lookup_fmap_Some in Hj as ([b' s] & -> & Hj). by apply (Hb j b' s).
Qed.

Lemma mk_branch_two l r : (2 ≤ nleaves l + nleaves r)%nat → mk_branch l r = Branch l r.
Proof. destruct l, r; simpl; done || lia. Qed.

Lemma replug_ok p ctx f : tree_ok p (plug ctx f) → replug ctx f = plug ctx f.
Proof.
  revert p. induction ctx as [|[b s] ctx IH]; intros p Hok; [done|].
  destruct b; simpl in *; destruct Hok as (_ & Hn & Hl & Hr).
  - rewrite (IH _ Hr). by apply mk_branch_two.
  - rewrite (IH _ Hl). by apply mk_branch_two.
Qed.

Lemma ctx_length ctx f : tree_ok [] (plug ctx f) → (length ctx ≤ 256)%nat.
Proof.
  intros Hok. destruct ctx as [|[b s] ctx _] using rev_ind; [simpl; lia|].
  rewrite plug_app in Hok. apply tree_ok_plug in Hok. rewrite length_snoc. simpl in Hok.
  destruct b; simpl in Hok; rewrite length_fmap in Hok; lia.
Qed.

Lemma modes_insert_spec U d t k v newValH siblings ctx f :
  zip 0 t k = (ctx, f) → at_focus U d k ctx f siblings → tree_ok [] t → val_ok v →
  tree_nodes 0 (tins 0 t k v) ⊆ U → newValH = nk_zero ∨ newValH = phash (val_pre v) →
  edited d (modes hash false d k (Some <$> v) newValH (thash 0 t) (GetPath k) (walk_at k ctx f siblings))
    ctx (tins (length ctx) f k v) (insert_mode t k v).
Proof.
  intros Ez Haf Hok Hv HU Hh. pose proof (plug_zip 0 t k) as Hpl. pose proof (zip_focus 0 t k) as Hfoc.
  rewrite tins_zip in HU. rewrite Ez in HU, Hpl, Hfoc. simpl in HU, Hpl, Hfoc.
  assert (tree_nodes (length ctx) (tins (length ctx) f k v) ⊆ U) as HU'.
  { pose proof (tree_nodes_plug 0 ctx (tins (length ctx) f k v)). simpl in *. set_solver. }
  unfold modes, insert_mode. rewrite Ez, decide_False by apply Hv.
  rewrite NodeValue8_IsZero_spec, bool_decide_false by (split; apply Hv) || apply Hv. cbn [negb].
  destruct Hfoc as [->|(k' & v' & ->)]; cbn [walk_at w_foundKey w_level w_usedKey tins] in *.
  - by eapply not_found_spec.
  - rewrite NodeKey_IsEqualTo_spec. rewrite <-Hpl in Hok. apply tree_ok_plug in Hok as (Hk' & Hp' & _).
    case_bool_decide as Hkk.
    + subst k'. rewrite !decide_True in * by done. by eapply update_spec.
    + rewrite !decide_False in * by congruence. pose proof (af_bits _ _ _ _ _ _ Haf).
      eapply (found_spec U d k ctx (fst <$> ctx)); rewrite ?length_fmap; eauto using ctx_path.
Qed.

Lemma modes_delete_spec U d t k newValH siblings ctx f :
  zip 0 t k = (ctx, f) → at_focus U d k ctx f siblings → tree_ok [] t →
  tree_nodes 0 (tdel 0 t k) ⊆ U →
  ∃ ctx' f',
    edited d (modes hash false d k (Some <$> replicate 8 0) newValH (thash 0 t) (GetPath k)
      (walk_at k ctx f siblings)) ctx' f' (insert_mode t k (replicate 8 0)) ∧
    plug ctx' f' = tdel 0 t k ∧ ctx_bits k 0 ctx' ∧ (length ctx' ≤ 256)%nat.
Proof.
  intros Ez Haf Hok HU. pose proof (plug_zip 0 t k) as Hpl. pose proof (zip_focus 0 t k) as Hfoc.
  rewrite tdel_zip in HU |- *. rewrite Ez in HU, Hpl, Hfoc |- *. cbn [fst snd Nat.add] in HU, Hpl, Hfoc |- *.
  unfold modes, insert_mode. rewrite Ez, decide_True by done.
  rewrite NodeValue8_IsZero_spec, bool_decide_true by (done || (by apply (bool_decide_unpack _))). cbn [negb].
  destruct Hfoc as [->|(k' & v' & ->)]; cbn [walk_at w_foundKey w_level w_usedKey w_siblings tdel] in *.
  { exists ctx, Empty. rewrite <-Hpl in Hok. rewrite (replug_ok [] ctx Empty) by done.
    rewrite <-Hpl. split_and!; [by eapply zero_to_zero_spec|done|apply Haf..]. }
  rewrite NodeKey_IsEqualTo_spec. case_bool_decide as Hkk.
  2:{ rewrite !decide_False in * by congruence. exists ctx, (Leaf k' v').
    rewrite <-Hpl in Hok. rewrite (replug_ok [] ctx (Leaf k' v')) by done.
    rewrite <-Hpl. split_and!; [by eapply zero_to_zero_spec|done|apply Haf..]. }
  subst k'. rewrite !decide_True in * by done. rewrite <-Hpl in Hok |- *. by eapply delete_spec.
Qed.

(** ** The depth *)

(** The recorded depth; a store without a record counts as depth 0. *)
Definition depth_of (d : D) : Z := match db_GetDepth d with Ok x => x | _ => 0 end.

Lemma updateDepth_spec d n :
  db_GetDepth d ≠ Panic → 0 ≤ n →
  ∃ d', updateDepth d n = Ok d' ∧ same_nodes d d' ∧ same_root d d' ∧ db_GetDepth d' ≠ Panic ∧
    depth_of d' = Z.max (depth_of d) (Z.min n 255).
Proof.
  intros Hp Hn. unfold updateDepth.
  assert (match db_GetDepth d with Ok x => Ok x | Err _ => Ok 0 | Panic => Panic end = Ok (depth_of d)) as ->.
  { unfold depth_of. by destruct (db_GetDepth d). }
  cbn [mbind outcome_bind].
  assert ((if 255 <? n then 255 else n) = Z.min n 255) as -> by (case_bool; lia).
  assert (Z.land (Z.min n 255) 255 = Z.min n 255) as ->.
  { change 255 with (Z.ones 8). rewrite Z.land_ones by lia. apply Z.mod_small. change (Z.ones 8) with 255. lia. }
  case_bool.
  - destruct (law_SetDepth d (Z.min n 255)) as (d' & E & Hn' & Hr & Hd); [unfold is_u8; lia|].
    exists d'. unfold depth_of in *. rewrite Hd. split_and!; [done..|]. lia.
  - exists d. split_and!; [done..|]. lia.
Qed.

Lemma RemoveOver_lookup m level i : i < level → RemoveOver m level !! i = m !! i.
Proof.
  intros Hi. unfold RemoveOver. destruct (m !! i) as [x|] eqn:E.
  - by apply map_lookup_filter_Some.
  - apply map_lookup_filter_None. auto.
Qed.

Lemma RemoveOver_size siblings ctx :
  sib_frames siblings ctx → (∀ i, is_Some (siblings !! i) → 0 ≤ i) →
  size (RemoveOver siblings (Z.of_nat (length ctx))) = length ctx.
Proof.
  intros Hs Hl. rewrite <-size_dom.
  replace (dom _) with (list_to_set (seqZ 0 (Z.of_nat (length ctx))) : gset Z).
  { rewrite size_list_to_set by apply NoDup_seqZ. rewrite length_seqZ. lia. }
  apply set_eq. intros i. rewrite elem_of_list_to_set, elem_of_seqZ, elem_of_dom. split.
  - intros Hi. rewrite RemoveOver_lookup by lia.
    destruct (lookup_lt_is_Some_2 ctx (Z.to_nat i)) as [[b s] Hc]; [lia|].
    destruct (Hs _ _ _ Hc) as [h E]. rewrite Z2Nat.id in E by lia. eauto.
  - intros [x Hx]. apply map_lookup_filter_Some in Hx as [Hx Hlt]. simpl in Hlt.
    split; [apply Hl; eauto|lia].
Qed.

(** ** The whole insertion *)

Lemma at_focus_intro U d t k siblings :
  let z := zip 0 t k in
  nk_wf k → tree_ok [] t → hash_good hash U → tree_nodes 0 t ⊆ U → stored d (tree_nodes 0 t) →
  sib_exact siblings z.1 z.2 → (∀ i, is_Some (siblings !! i) → 0 ≤ i) →
  at_focus U d k z.1 z.2 siblings.
Proof.
  intros z Hk Hok HU Hsub Hst Hsib Hlv. pose proof (plug_zip 0 t k) as Hpl. fold z in Hpl.
  pose proof (tree_nodes_plug 0 z.1 z.2) as Hn. rewrite Hpl in Hn. simpl in Hn. constructor; try done.
  - apply (ctx_length _ z.2). by rewrite Hpl.
  - apply zip_bits.
  - by eapply stored_sub.
  - by rewrite Hpl.
  - set_solver.
Qed.

Lemma modes_spec U d t k v newValH siblings :
  let z := zip 0 t k in
  at_focus U d k z.1 z.2 siblings → tree_ok [] t → word8 v → tree_nodes 0 (tset t k v) ⊆ U →
  newValH = nk_zero ∨ newValH = phash (val_pre v) →
  ∃ ctx' f',
    edited d (modes hash false d k (Some <$> v) newValH (thash 0 t) (GetPath k)
      (walk_at k z.1 z.2 siblings)) ctx' f' (insert_mode t k v) ∧
    plug ctx' f' = tset t k v ∧ ctx_bits k 0 ctx' ∧ (length ctx' ≤ 256)%nat ∧
    (v ≠ replicate 8 0 → ctx' = z.1).
Proof.
  cbv zeta. destruct (zip 0 t k) as [ctx f] eqn:Ez. intros Haf Hok [Hl Hw] HU Hh. unfold tset in *. case_decide as Hz.
  - subst v. destruct (modes_delete_spec U d t k newValH siblings ctx f) as (c & g & ? & ? & ? & ?); [done..|].
    exists c, g. by split_and!.
  - exists ctx, (tins (length ctx) f k v). split_and!; [|by rewrite (tins_zip 0 t), Ez|apply Haf..|done].
    by eapply modes_insert_spec.
Qed.

Lemma insert_spec d t k v newValH :
  tree_ok [] t → stored d (tree_nodes 0 t) → nk_wf k → word8 v → db_GetDepth d ≠ Panic →
  newValH = nk_zero ∨ newValH = phash (val_pre v) →
  hash_good hash (tree_nodes 0 t ++ tree_nodes 0 (tset t k v)) →
  ∃ d', insert hash false d k (Some <$> v) newValH (thash 0 t) =
      Ok (mkResponse (thash 0 (tset t k v)) (insert_mode t k v), d') ∧
    stored d' (tree_nodes 0 (tset t k v)) ∧ same_root d d' ∧ db_GetDepth d' ≠ Panic ∧
    (v ≠ replicate 8 0 →
     depth_of d' = Z.max (depth_of d) (Z.min (Z.of_nat (length (zip 0 t k).1)) 255)).
Proof.
  intros Hok Hst Hk Hv Hdep Hh HU. set (U := _ ++ _) in HU.
  assert (tree_nodes 0 t ⊆ U) as HU1 by (unfold U; set_solver).
  assert (tree_nodes 0 (tset t k v) ⊆ U) as HU2 by (unfold U; set_solver).
  destruct (walk_spec d U k t [] [] ∅) as (sb & Ew & Hsib & Hlv);
    [done|done|simpl; lia|apply has_path_nil|done..|by intros i ? ?|by intros i [? ?]|].
  rewrite app_nil_l in Ew, Hsib, Hlv. change (length (@nil frame)) with 0%nat in Ew, Hsib, Hlv.
  destruct (modes_spec U d t k v newValH sb) as (ctx' & f' & He & Hpl & Hb & Hlen & Hctx);
    [apply at_focus_intro; auto; intros i Hi; by apply Hlv|done..|].
  destruct He as (d1 & sb1 & rt & Em & Hst1 & Hs1 & Hf1 & [Hr1 Hd1] & Hl1).
  unfold insert. cbv zeta. unfold walk_start in Ew. rewrite drop_0 in Ew.
  change (take _ _) with (@nil Z) in Ew. cbn [length] in Ew. change (Z.of_nat 0) with 0 in Ew. rewrite Ew.
  cbn [mbind outcome_bind]. rewrite Em. cbn [mbind outcome_bind].
  rewrite Z.sub_add, RemoveOver_size by done.
  destruct (updateDepth_spec d1 (Z.of_nat (length ctx'))) as (d2 & E2 & Hn2 & Hr2 & Hp2 & Hdp2);
    [by rewrite Hd1|lia|].
  rewrite E2. cbn [mbind outcome_bind]. rewrite Nat2Z.id.
  destruct (rehash_spec U d2 k ctx' f' (RemoveOver sb1 (Z.of_nat (length ctx'))) rt)
    as (d3 & E3 & Hst3 & [Hr3 Hd3]); try done.
  { by rewrite Hpl. }
  { by eapply stored_same. }
  { intros i b s Hi. pose proof (lookup_lt_Some _ _ _ Hi). rewrite RemoveOver_lookup by lia. eauto. }
  { split; [apply Hf1|]. intros c b s ->. rewrite RemoveOver_lookup by (rewrite length_snoc; lia). by apply Hf1. }
  rewrite E3. cbn [mbind outcome_bind]. rewrite Hpl in *. exists d3. split; [done|]. split; [done|].
  unfold same_root, same_depth, depth_of in *. rewrite Hr3, Hr2, Hr1, Hd3. split_and!; [done..|].
  intros Hz. by rewrite Hdp2, Hd1, (Hctx Hz).
Qed.
End Stores.
