(* ===== verification/SmtRefine.v ===== *)
(** The sparse Merkle tree as a finite map.

    [smt_holds s m] relates a tree on a store to the map it represents.
    Insert implements the update of the map and returns the root of the
    canonical tree of the new map ([Insert_refines]); a sequence of updates
    ends in a root that depends on the resulting map alone, not on the order
    of the updates nor on the store ([Inserts_history_independent]).  The
    recorded depth is also characterised ([Insert_depth]). *)

From S2P Require Import Prelude Bytes SmtUtils SmtKeys SmtDb SmtTree Smt SmtInsert.

Local Open Scope Z_scope.
#[local] Opaque GetPath insert tsplit.

Section Refine.
Context {D : Type} {SD : SmtDB D} {SL : SmtDBLaws D}.
Context (hash : list Z → NodeKey → NodeKey).
Context (hash_wf : ∀ i c, nk_wf (hash i c)).

(** The store of [s] holds the canonical tree of [m]. *)
Record smt_holds (s : SMT D) (m : gmap NodeKey (list Z)) : Prop := {
  sh_wf : map_wf m;
  sh_save : noSaveOnInsert s = false;
  sh_root : db_GetLastRoot (smtDb s) = Ok (NodeKey_ToBigInt (map_root hash m));
  sh_stored : stored hash (smtDb s) (map_nodes hash m);
  sh_depth : db_GetDepth (smtDb s) ≠ Panic;
}.

Lemma getLastRoot_spec d r :
  nk_wf r → db_GetLastRoot d = Ok (NodeKey_ToBigInt r) → getLastRoot d = Ok r.
Proof.
  intros Hr E. unfold getLastRoot. rewrite E.
  by rewrite fmap_Ok, ScalarToRoot_ToBigInt.
Qed.

Lemma insertSingle_spec s m k v newValH :
  smt_holds s m → nk_wf k → word8 v → newValH = nk_zero ∨ newValH = phash hash (val_pre v) →
  hash_good hash (map_nodes hash m ++ map_nodes hash (map_set m k v)) →
  ∃ s', insertSingle hash s k (Some <$> v) newValH =
      Ok (mkResponse (map_root hash (map_set m k v)) (insert_mode (map_tree m) k v), s') ∧
    smt_holds s' (map_set m k v) ∧
    (v ≠ replicate 8 0 → depth_of (smtDb s') =
      Z.max (depth_of (smtDb s)) (Z.min (Z.of_nat (length (zip 0 (map_tree m) k).1)) 255)).
Proof.
  intros [Hm Hsv Hr Hst Hd] Hk Hv Hh HU. destruct (map_tree_spec m Hm) as [Hok _].
  unfold map_nodes, map_root in *. rewrite <-map_tree_set in * by done.
  destruct (insert_spec hash hash_wf (smtDb s) (map_tree m) k v newValH)
    as (d1 & E1 & Hst1 & Hr1 & Hd1 & Hdp1); [done..|].
  destruct (law_SetLastRoot d1 (NodeKey_ToBigInt (thash hash 0 (tset (map_tree m) k v))))
    as (d2 & E2 & Hn2 & Hdp2 & Hr2); [by apply NodeKey_ToBigInt_range, thash_wf|].
  exists (mkSMT false d2). apply getLastRoot_spec in Hr; [|by apply thash_wf].
  unfold insertSingle, setLastRoot. go_step Hr. rewrite Hsv.
  go_step E1. cbn [NewRootScalar]. go_step E2.
  split; [done|]. unfold same_depth in Hdp2. split.
  - constructor; cbn [smtDb noSaveOnInsert]; unfold map_root, map_nodes; rewrite <-?map_tree_set by assumption.
    + by apply map_set_wf.
    + reflexivity.
    + exact Hr2.
    + by eapply stored_same.
    + by rewrite Hdp2.
  - intros Hz. cbn [smtDb]. unfold depth_of in *. rewrite Hdp2. auto.
Qed.

(** A sequence of updates. *)
Definition Inserts (s : SMT D) (l : list (NodeKey * list Z)) : outcome (SMT D) :=
  foldM (λ s '(k, v), snd <$> Insert hash s k (Some <$> v)) s l.

Definition map_sets (m : gmap NodeKey (list Z)) (l : list (NodeKey * list Z)) : gmap NodeKey (list Z) :=
  foldl (λ m '(k, v), map_set m k v) m l.

(** The maps passed through, each with the next one. *)
Fixpoint steps_good (m : gmap NodeKey (list Z)) (l : list (NodeKey * list Z)) : Prop :=
  match l with
  | [] => True
  | (k, v) :: l =>
      hash_good hash (map_nodes hash m ++ map_nodes hash (map_set m k v)) ∧ steps_good (map_set m k v) l
  end.

#[export] Instance steps_good_dec m l : Decision (steps_good m l).
Proof. revert m. induction l as [|[k v] l IH]; intros m; simpl; apply _. Defined.

Definition updates_wf (l : list (NodeKey * list Z)) : Prop := Forall (λ u, nk_wf u.1 ∧ word8 u.2) l.

#[export] Instance updates_wf_dec l : Decision (updates_wf l).
Proof. unfold updates_wf. apply _. Defined.

Lemma Inserts_spec l : ∀ s m,
  smt_holds s m → updates_wf l → steps_good m l →
  ∃ s', Inserts s l = Ok s' ∧ smt_holds s' (map_sets m l).
Proof.
  induction l as [|[k v] l IH]; intros s m Hs Hl Hg; [by exists s|].
  apply Forall_cons in Hl as [[Hk Hv] Hl]. destruct Hg as [Hg1 Hg2]. simpl in Hk, Hv.
  destruct (insertSingle_spec s m k v nk_zero) as (s1 & E1 & Hs1 & _); [done..|by left|done|].
  destruct (IH s1 (map_set m k v)) as (s2 & E2 & Hs2); [done..|].
  exists s2. split; [|done]. unfold Inserts in *. cbn [foldM].
  change (Insert hash s k (Some <$> v)) with (insertSingle hash s k (Some <$> v) nk_zero).
  rewrite E1, fmap_Ok, bind_Ok. exact E2.
Qed.
End Refine.

Lemma NewMemDb_holds hash : smt_holds hash (mkSMT false MemDb.NewMemDb) ∅.
Proof. constructor; [apply map_Forall_empty|done..|by constructor|done]. Qed.

Lemma EmptyEriDb_holds hash : smt_holds hash (mkSMT false (mkEriDb (∅ : KVMap))) ∅.
Proof. constructor; [apply map_Forall_empty|done..|by constructor|done]. Qed.

(** The height of a tree: the largest number of branches above a leaf. *)
Fixpoint theight (t : tree) : nat :=
  match t with
  | Branch l r => S (theight l `max` theight r)
  | _ => O
  end.

(** * Sample states *)

(** Three updates, one of them a deletion, and the same map in one update. *)
Definition sample_updates : list (NodeKey * list Z) :=
  [(NK 1 2 3 4, [7; 0; 0; 0; 0; 0; 0; 0]); (NK 2 2 3 5, [9; 0; 0; 0; 0; 0; 0; 2]);
   (NK 1 2 3 4, [0; 0; 0; 0; 0; 0; 0; 0])].

Definition sample_updates' : list (NodeKey * list Z) :=
  [(NK 2 2 3 5, [9; 0; 0; 0; 0; 0; 0; 2])].

Definition sample_key : NodeKey := NK 1 2 3 4.
Definition sample_value : list Z := [7; 0; 0; 0; 0; 0; 0; 0].
Definition sample_map : gmap NodeKey (list Z) := {[NK 2 2 3 5 := [9; 0; 0; 0; 0; 0; 0; 2]]}.
Definition sample_smt : SMT MemDb :=
  match Inserts sample_hash (mkSMT false MemDb.NewMemDb) sample_updates' with
  | Ok s => s
  | _ => mkSMT false MemDb.NewMemDb
  end.

Lemma sample_smt_holds : smt_holds sample_hash sample_smt sample_map.
Proof.
  destruct (Inserts_spec sample_hash sample_hash_wf sample_updates' (mkSMT false MemDb.NewMemDb) ∅)
    as (s & E & Hs); [apply NewMemDb_holds|apply (bool_decide_unpack _); vm_compute; exact I..|].
  unfold sample_smt. rewrite E. exact Hs.
Qed.

(** Two keys. *)
Definition sample_map2 : gmap NodeKey (list Z) := map_set sample_map sample_key sample_value.
Definition sample_smt2 : SMT MemDb :=
  match Inserts sample_hash sample_smt [(sample_key, sample_value)] with
  | Ok s => s
  | _ => sample_smt
  end.

Lemma sample_smt2_holds : smt_holds sample_hash sample_smt2 sample_map2.
Proof.
  destruct (Inserts_spec sample_hash sample_hash_wf [(sample_key, sample_value)] sample_smt sample_map)
    as (s & E & Hs); [apply sample_smt_holds|apply (bool_decide_unpack _); vm_compute; exact I..|].
  unfold sample_smt2. rewrite E. exact Hs.
Qed.

(** * Refinement *)

(** C2. On a store that holds a map, Insert succeeds, returns the root of the
    canonical tree of the updated map together with the mode that the code
    reports, and leaves a store that holds the updated map: a value of eight
    zero words removes the key, any other value is written.  The only
    assumption on the hash is that it has no collision, and no zero, on the
    nodes of the trees before and after. *)
Theorem Insert_refines {D : Type} {SD : SmtDB D} {SL : SmtDBLaws D} hash s m k v :
  (∀ i c, nk_wf (hash i c)) →
  smt_holds hash s m → nk_wf k → word8 v →
  hash_good hash (map_nodes hash m ++ map_nodes hash (map_set m k v)) →
  ∃ s', Insert hash s k (Some <$> v) =
      Ok (mkResponse (map_root hash (map_set m k v)) (insert_mode (map_tree m) k v), s') ∧
    smt_holds hash s' (map_set m k v).
Proof.
  intros Hh Hs Hk Hv HU.
  destruct (insertSingle_spec hash Hh s m k v nk_zero) as (s' & E & Hs' & _); [done..|by left|done|].
  by exists s'.
Qed.

Lemma Insert_refines_witness :
  ∃ s', Insert sample_hash sample_smt sample_key (Some <$> sample_value) =
      Ok (mkResponse (map_root sample_hash (map_set sample_map sample_key sample_value))
            (insert_mode (map_tree sample_map) sample_key sample_value), s') ∧
    smt_holds sample_hash s' (map_set sample_map sample_key sample_value).
Proof.
  apply (Insert_refines sample_hash sample_smt sample_map).
  - apply sample_hash_wf.
  - apply sample_smt_holds.
  - apply (bool_decide_unpack _). vm_compute. exact I.
  - apply (bool_decide_unpack _). vm_compute. exact I.
  - apply (bool_decide_unpack _). vm_compute. exact I.
Defined.

(** C9. History independence: two sequences of updates that lead to the same
    map end with the same root, whatever their order and whatever the two
    stores are. *)
Theorem Inserts_history_independent {D1 D2 : Type} {SD1 : SmtDB D1} {SL1 : SmtDBLaws D1}
    {SD2 : SmtDB D2} {SL2 : SmtDBLaws D2} hash (s1 : SMT D1) (s2 : SMT D2) l1 l2 :
  (∀ i c, nk_wf (hash i c)) →
  smt_holds hash s1 ∅ → smt_holds hash s2 ∅ → updates_wf l1 → updates_wf l2 →
  steps_good hash ∅ l1 → steps_good hash ∅ l2 →
  map_sets ∅ l1 = map_sets ∅ l2 →
  ∃ s1' s2' r, Inserts hash s1 l1 = Ok s1' ∧ Inserts hash s2 l2 = Ok s2' ∧
    db_GetLastRoot (smtDb s1') = Ok r ∧ db_GetLastRoot (smtDb s2') = Ok r.
Proof.
  intros Hh H1 H2 Hl1 Hl2 Hg1 Hg2 Heq.
  destruct (Inserts_spec hash Hh l1 s1 ∅) as (s1' & E1 & Hs1); [done..|].
  destruct (Inserts_spec hash Hh l2 s2 ∅) as (s2' & E2 & Hs2); [done..|].
  exists s1', s2', (NodeKey_ToBigInt (map_root hash (map_sets ∅ l1))).
  split_and!; [done..|apply Hs1|rewrite Heq; apply Hs2].
Qed.

Lemma Inserts_history_independent_witness :
  ∃ (s1' : SMT MemDb) (s2' : SMT (EriDb KVMap)) r,
    Inserts sample_hash (mkSMT false MemDb.NewMemDb) sample_updates = Ok s1' ∧
    Inserts sample_hash (mkSMT false (mkEriDb (∅ : KVMap))) sample_updates' = Ok s2' ∧
    db_GetLastRoot (smtDb s1') = Ok r ∧ db_GetLastRoot (smtDb s2') = Ok r.
Proof.
  apply (Inserts_history_independent sample_hash).
  - apply sample_hash_wf.
  - apply NewMemDb_holds.
  - apply EmptyEriDb_holds.
  - apply (bool_decide_unpack _). vm_compute. exact I.
  - apply (bool_decide_unpack _). vm_compute. exact I.
  - apply (bool_decide_unpack _). vm_compute. exact I.
  - apply (bool_decide_unpack _). vm_compute. exact I.
  - apply (bool_decide_unpack _). vm_compute. exact I.
Defined.

(** * The recorded depth *)

Lemma theight_plug ctx t : (length ctx ≤ theight (plug ctx t))%nat.
Proof. induction ctx as [|[[] s] ctx IH]; simpl; lia. Qed.

Lemma map_tree_singleton k v : map_tree {[k := v]} = Leaf k v.
Proof. unfold map_tree. by rewrite map_fold_singleton. Qed.

(** The recorded depth is not the depth of the tree: Insert records the
    number of branches above the place of insertion as it was before the
    insertion.  With one key in the tree, a second key is added below at least
    one branch, and the recorded depth stays 0. *)
Theorem Insert_second_depth {D : Type} {SD : SmtDB D} {SL : SmtDBLaws D} hash (s : SMT D) k v k' v' :
  (∀ i c, nk_wf (hash i c)) →
  smt_holds hash s {[k' := v']} → depth_of (smtDb s) = 0 → nk_wf k → k ≠ k' → val_ok v →
  hash_good hash (map_nodes hash {[k' := v']} ++ map_nodes hash (map_set {[k' := v']} k v)) →
  ∃ r s', Insert hash s k (Some <$> v) = Ok (r, s') ∧ smt_holds hash s' (map_set {[k' := v']} k v) ∧
    depth_of (smtDb s') = 0 ∧ (1 ≤ theight (map_tree (map_set {[k' := v']} k v)))%nat.
Proof.
  intros Hh Hs Hd Hk Hne Hv HU. pose proof Hv as (Hl & Hw & Hz). pose proof (sh_wf _ _ _ Hs) as Hwf.
  destruct (insertSingle_spec hash Hh s {[k' := v']} k v nk_zero) as (s' & E & Hs' & Hdep);
    [done..|by left|done|].
  eexists _, s'. split; [exact E|]. split; [done|]. split.
  { rewrite (Hdep Hz), map_tree_singleton, Hd. done. }
  rewrite <-map_tree_set, map_tree_singleton by done. unfold tset. rewrite decide_False by done.
  cbn [tins]. rewrite decide_False by done.
  apply map_Forall_singleton in Hwf as [Hk' _].
  destruct (tsplit_chain (256 - 0) [] k v k' v') as (_ & _ & E2);
    [reflexivity|apply Nat.le_0_l|assumption..|apply has_path_nil|apply has_path_nil|].
  change (length (@nil bool)) with 0%nat in E2. rewrite E2. etrans; [|apply theight_plug]. rewrite length_snoc. lia.
Qed.

Lemma Insert_second_depth_witness :
  ∃ r s', Insert sample_hash sample_smt sample_key (Some <$> sample_value) = Ok (r, s') ∧
    smt_holds sample_hash s' (map_set sample_map sample_key sample_value) ∧
    depth_of (smtDb s') = 0 ∧
    (1 ≤ theight (map_tree (map_set sample_map sample_key sample_value)))%nat.
Proof.
  apply Insert_second_depth.
  - apply sample_hash_wf.
  - apply sample_smt_holds.
  - vm_compute. reflexivity.
  - apply (bool_decide_unpack _). vm_compute. exact I.
  - discriminate.
  - apply (bool_decide_unpack _). vm_compute. exact I.
  - apply (bool_decide_unpack _). vm_compute. exact I.
Defined.
