(* ===== verification/SmtProof.v ===== *)
(** Traversal and Merkle proofs of the sparse Merkle tree: traverse of
    src/smt/pkg/smt/smt.go, and BuildProofs, FilterProofs and VerifyAndGetVal of
    proof.go.

    [traverse_loop] is the iterative depth-first loop with its explicit stack;
    it is shown to be the recursive pre-order visit of the stored tree
    ([traverse_loop_spec]), with fuel the number of nodes.  VerifyAndGetVal is
    sound (an accepted proof gives the stored value, or shows that there is
    none) and complete for the proofs that BuildProofs and FilterProofs make.

    Byte slices are taken to have no spare capacity, so slicing past the end
    panics.  The cancellation of the context is a parameter: [cancelled n]
    tells whether the context is done at iteration [n]. *)

From S2P Require Import Prelude Bytes SmtUtils SmtKeys SmtDb SmtTree Smt SmtInsert SmtRefine.
From Stdlib Require Import Strings.Byte.

Local Open Scope Z_scope.
#[local] Set Warnings "-clear-no-such-hyp".

(** * Definitions *)

Record SMTProofElement := mkProofElement { pe_Path : list byte; pe_Proof : list byte }.

#[export] Instance SMTProofElement_eq_dec : EqDecision SMTProofElement.
Proof. solve_decision. Defined.

Record stackEntry := mkEntry { se_node : Z; se_prefix : list byte }.

Section Traverse.
Context {D : Type} `{SmtDB D}.
Context {ST : Type} (action : ST → list byte → NodeKey → NodeValue12 → outcome (ST * bool)).
Context (cancelled : nat → bool).

(** The children of a node, pushed right to left. *)
Definition push_children (nodeValue : NodeValue12) (prefix : list byte) (stack : list stackEntry)
    : list stackEntry :=
  let push (i : nat) stack :=
    let childBigInt := NodeKey_ToBigInt (quarter nodeValue i) in
    if negb (childBigInt =? 0) then mkEntry childBigInt (prefix ++ [zb (Z.of_nat i)]) :: stack else stack in
  push 0%nat (push 1%nat stack).

(** The loop over the stack, its top at the head; [None] when [fuel] runs out
    at iteration [n]. *)
Fixpoint traverse_loop (fuel n : nat) (d : D) (st : ST) (stack : list stackEntry) : option (outcome ST) :=
  match stack with
  | [] => Some (Ok st)
  | current :: stack =>
      match fuel with
      | O => None
      | S fuel =>
          if cancelled n then Some (Err "context canceled")
          else
            let ky := ScalarToRoot (se_node current) in
            match db_Get d ky with
            | Err e => Some (Err e)
            | Panic => Some Panic
            | Ok nodeValue =>
                match action st (se_prefix current) ky nodeValue with
                | Err e => Some (Err e)
                | Panic => Some Panic
                | Ok (st, shouldContinue) =>
                    if IsFinalNode nodeValue || negb shouldContinue
                    then traverse_loop fuel (S n) d st stack
                    else traverse_loop fuel (S n) d st
                           (push_children nodeValue (se_prefix current) stack)
                end
            end
      end
  end.

Definition traverse (fuel : nat) (d : D) (st : ST) (node : Z) (prefix : list byte) : option (outcome ST) :=
  if node =? 0 then Some (Ok st)
  else traverse_loop fuel 0 d st [mkEntry node prefix].
End Traverse.

Section Proofs.
Context {D : Type} `{SmtDB D}.

Definition GetNodeValue8 (nv : NodeValue12) : NodeValue8 := take 8 nv.

(** The action of BuildProofs: collects the retained nodes. *)
Definition build_action (d : D) (retain : list byte → bool) (proofs : list SMTProofElement)
    (prefix : list byte) (k : NodeKey) (v : NodeValue12) : outcome (list SMTProofElement * bool) :=
  if negb (retain prefix) then Ok (proofs, false)
  else
    lo ← fill_bytes 32 (ArrayToScalar (nk_list (quarter v 0)));
    hi ← fill_bytes 32 (ArrayToScalar (nk_list (quarter v 1)));
    let nodeBytes := (lo ++ hi) ++ (if IsFinalNode v then [x01] else []) in
    let proofs := proofs ++ [mkProofElement prefix nodeBytes] in
    if IsFinalNode v then
      v ← db_Get d (quarter v 1);
      z ← ArrayBigToScalar (GetNodeValue8 v);
      Ok (proofs ++ [mkProofElement prefix (big_bytes z)], false)
    else Ok (proofs, true).

Definition BuildProofs (cancelled : nat → bool) (fuel : nat) (d : D) (retain : list byte → bool)
    : option (outcome (list SMTProofElement)) :=
  match db_GetLastRoot d with
  | Err e => Some (Err e)
  | Panic => Some Panic
  | Ok root => traverse (build_action d retain) cancelled fuel d [] root []
  end.
End Proofs.

Definition key_path (key : NodeKey) : list byte := zb <$> GetPath key.

Definition FilterProofs (proofs : list SMTProofElement) (key : NodeKey) : list (list byte) :=
  pe_Proof <$> filter (λ e, pe_Path e `prefix_of` key_path key) proofs.

Section Verify.
Context (hash : list Z → NodeKey → NodeKey).

(** The loop of VerifyAndGetVal from element [i]: [None] when the absence of
    the key is shown, the hash of the value when the leaf of the key is found. *)
Fixpoint verify_loop (i : nat) (curRoot : NodeKey) (proof : list (list byte)) (key : NodeKey)
    : outcome (option NodeKey) :=
  match proof with
  | [] => Err "proof is insufficient to verify the non-existence of the value"
  | e :: proof =>
      let isFinalNode := (length e =? 65)%nat in
      let capacity := if isFinalNode then LeafCapacity else BranchCapacity in
      l ← go_slice e 0 32;
      r ← go_slice e 32 64;
      let leftChildNode := list_nk (ScalarToArray (be_val l)) in
      let rightChildNode := list_nk (ScalarToArray (be_val r)) in
      let h := hash (ConcatArrays4 leftChildNode rightChildNode) capacity in
      if bool_decide (curRoot ≠ h) then Err "root mismatch"
      else if negb isFinalNode then
        b ← go_index (GetPath key) (Z.of_nat i);
        let curRoot := if b =? 0 then leftChildNode else rightChildNode in
        if NodeKey_IsZero curRoot then Ok None
        else verify_loop (S i) curRoot proof key
      else
        used ← go_slice (GetPath key) 0 (Z.of_nat i);
        if NodeKey_IsEqualTo (JoinKey used leftChildNode) key
        then Ok (Some rightChildNode)
        else Ok None
  end.

Definition VerifyAndGetVal (stateRoot : NodeKey) (proof : list (list byte)) (key : NodeKey)
    : outcome (option (list byte)) :=
  match proof with
  | [] => Err "proof is empty"
  | _ =>
      res ← verify_loop 0 stateRoot proof key;
      match res with
      | None => Ok None
      | Some curRoot =>
          lastE ← go_index proof (Z.of_nat (length proof) - 1);
          nodeValue ← NodeValue8FromBigIntArray (Some <$> ScalarToArrayBig (be_val lastE));
          let h := hash (ToUintArray nodeValue) BranchCapacity in
          if bool_decide (h ≠ curRoot) then Err "root mismatch" else Ok (Some lastE)
      end
  end.
End Verify.

(** * Soundness of verification *)

#[local] Opaque GetPath RemoveKeyBits JoinKey ScalarToArray ScalarToArrayBig be_bytes.

(** The node that a proof element stands for, and the value node. *)
Definition proof_node (e : list byte) : preimage :=
  (ConcatArrays4 (list_nk (ScalarToArray (be_val (take 32 e))))
     (list_nk (ScalarToArray (be_val (take 32 (drop 32 e))))),
   if (length e =? 65)%nat then LeafCapacity else BranchCapacity).

Definition value_node (e : list byte) : preimage := (ScalarToArrayBig (be_val e), BranchCapacity).

Definition proof_nodes (proof : list (list byte)) : list preimage :=
  (proof_node <$> filter (λ e, (64 ≤ length e)%nat) proof) ++ (value_node <$> proof).

Lemma ConcatArrays4_inj a b a' b' : ConcatArrays4 a b = ConcatArrays4 a' b' → a = a' ∧ b = b'.
Proof. destruct a, b, a', b'. unfold ConcatArrays4. simpl. by intros [= -> -> -> -> -> -> -> ->]. Qed.

Section Sound.
Context (hash : list Z → NodeKey → NodeKey).

Abbreviation thash := (thash hash).
Abbreviation tree_nodes := (tree_nodes hash).

(** Two nodes with the same hash are the same node, so a matching element is
    the node of the tree. *)
Lemma match_leaf U n k v e :
  hash_good hash U → tree_nodes n (Leaf k v) ⊆ U → proof_node e ∈ U →
  thash n (Leaf k v) = phash hash (proof_node e) →
  length e = 65%nat ∧
  list_nk (ScalarToArray (be_val (take 32 e))) = RemoveKeyBits k (Z.of_nat n) ∧
  list_nk (ScalarToArray (be_val (take 32 (drop 32 e)))) = phash hash (val_pre v).
Proof.
  intros HU Ht He Heq. apply (hash_good_inj U) in Heq; [|done|apply Ht; simpl; set_solver|done].
  unfold leaf_pre, proof_node in Heq. 
  pose proof (f_equal fst Heq) as Hc. pose proof (f_equal snd Heq) as Hcap. cbn [fst snd] in Hc, Hcap.
  apply ConcatArrays4_inj in Hc as [-> ->]. destruct (Nat.eqb_spec (length e) 65); done.
Qed.

Lemma match_branch U n l r e :
  hash_good hash U → tree_nodes n (Branch l r) ⊆ U → proof_node e ∈ U →
  thash n (Branch l r) = phash hash (proof_node e) →
  length e ≠ 65%nat ∧
  list_nk (ScalarToArray (be_val (take 32 e))) = thash (S n) l ∧
  list_nk (ScalarToArray (be_val (take 32 (drop 32 e)))) = thash (S n) r.
Proof.
  intros HU Ht He Heq. apply (hash_good_inj U) in Heq; [|done|apply Ht; simpl; set_solver|done].
  pose proof (f_equal fst Heq) as Hc. pose proof (f_equal snd Heq) as Hcap. unfold proof_node in Hc, Hcap.
  apply (ConcatArrays4_inj (thash (S n) l) (thash (S n) r)) in Hc as [-> ->]. cbn [snd branch_pre] in Hcap. destruct (Nat.eqb_spec (length e) 65); done.
Qed.

(** One element: either the loop stops here, or the slices exist. *)
Lemma go_slices e A (f : list byte → list byte → outcome A) x :
  (l ← go_slice e 0 32; r ← go_slice e 32 64; f l r) = Ok x →
  (64 ≤ length e)%nat ∧ f (take 32 e) (take 32 (drop 32 e)) = Ok x.
Proof.
  intros E. destruct (decide (64 ≤ length e)%nat) as [Hl|Hl].
  - split; [done|]. rewrite !go_slice_ok in E by lia. rewrite !bind_Ok in E. exact E.
  - rewrite (go_slice_panic e 32 64) in E by lia. by destruct (go_slice e 0 32).
Qed.
Lemma verify_loop_sound U key proof : ∀ i p t cur res,
  hash_good hash U → tree_ok p t → length p = i → has_path p key → nk_wf key →
  tree_nodes i t ⊆ U → proof_node <$> filter (λ e, (64 ≤ length e)%nat) proof ⊆ U →
  cur = thash i t → verify_loop hash i cur proof key = Ok res →
  match res with
  | None => tget i t key = None
  | Some r => ∃ v, tget i t key = Some v ∧ r = phash hash (val_pre v) ∧ val_pre v ∈ tree_nodes i t
  end.
Proof.
  induction proof as [|e proof IH]; intros i p t cur res HU Hok Hlen Hp Hk Ht Hpr -> E; [done|].
  cbn [verify_loop] in E. apply go_slices in E as [Hl E]. rewrite filter_cons_True in Hpr by done. csimpl in Hpr.
  assert (proof_node e ∈ U) as He by set_solver.
  case_bool_decide as Hh; [done|].
  change (thash i t = phash hash (proof_node e)) in Hh.
  destruct t as [|k v|l r].
  - by destruct (hash_good_nonzero U (proof_node e) HU He).
  - apply (match_leaf U) in Hh as (Hl65 & E1 & E2); [|done..].
    rewrite E1, E2, (proj2 (Nat.eqb_eq _ _) Hl65) in E. cbn [negb] in E. destruct Hok as (Hkwf & Hpk & _).
    assert (i ≤ 256)%nat as Hi.
    { destruct (decide (i ≤ 256)%nat); [done|].
      by rewrite go_slice_panic in E by (rewrite length_GetPath; lia). }
    rewrite go_slice_ok, bind_Ok in E by (rewrite ?length_GetPath; lia).
    replace (take _ _) with (take (length p) (GetPath key)) in E by (rewrite Z.sub_0_r, Nat2Z.id, Hlen; done).
    rewrite <-Hlen, (JoinKey_other key k p), NodeKey_IsEqualTo_spec in E by (done || lia).
    cbn [tget]. case_bool_decide; inv_ok.
    + rewrite decide_True by done. exists v. split_and!; [done..|]. simpl. set_solver.
    + rewrite decide_False by done. done.
  - apply (match_branch U) in Hh as (Hl65 & E1 & E2); [|done..].
    rewrite E1, E2, (proj2 (Nat.eqb_neq _ _) Hl65) in E. cbn [negb] in E. destruct Hok as (Hlt & _ & Hol & Hor).
    rewrite go_index_GetPath, bind_Ok, NodeKey_IsZero_spec in E by lia. cbn [tget].
    simpl in Ht. rewrite Hlen in *. destruct (keybit key i) eqn:Eb; cbn [Z.b2z Z.eqb] in E.
    + case_bool_decide as Hz.
      * injection E as <-. destruct (decide (r = Empty)) as [->|Hne]; [done|].
        destruct (thash_nonzero U (S i) r HU); [set_solver|done|done].
      * apply (IH _ (p ++ [true]) r) in E; [|done|done|rewrite length_snoc; lia|by rewrite has_path_snoc, Hlen|done|set_solver..|done].
        destruct res; [|done]. destruct E as (v & ? & ? & ?). exists v. split_and!; [done..|]. simpl. set_solver.
    + case_bool_decide as Hz.
      * injection E as <-. destruct (decide (l = Empty)) as [->|Hne]; [done|].
        destruct (thash_nonzero U (S i) l HU); [set_solver|done|done].
      * apply (IH _ (p ++ [false]) l) in E; [|done|done|rewrite length_snoc; lia|by rewrite has_path_snoc, Hlen|done|set_solver..|done].
        destruct res; [|done]. destruct E as (v & ? & ? & ?). exists v. split_and!; [done..|]. simpl. set_solver.
Qed.
End Sound.

(** C11. Soundness of Merkle proofs: what VerifyAndGetVal accepts against the
    root of a map is true of the map.  An accepted value is the value stored
    under the key (read as a 256-bit number), and an accepted absence means
    that the key is not in the map, whatever bytes the proof consists of; the
    hash must have no collision on the nodes of the tree and of the proof. *)
Theorem VerifyAndGetVal_sound hash m proof key res :
  map_wf m → nk_wf key → hash_good hash (map_nodes hash m ++ proof_nodes proof) →
  VerifyAndGetVal hash (map_root hash m) proof key = Ok res →
  m !! key = (λ bs, ScalarToArrayBig (be_val bs)) <$> res.
Proof.
  intros Hm Hk HU E. destruct (map_tree_spec m Hm) as [Hok Hmod]. rewrite <-Hmod by done.
  unfold VerifyAndGetVal in E. destruct proof as [|e0 rest] eqn:Ep; [done|]. rewrite <-Ep in *. clear Ep.
  destruct (verify_loop _ _ _ _ _) as [r| |] eqn:El; [|done..].
  unfold map_nodes, map_root, proof_nodes in *.
  apply (verify_loop_sound hash (tree_nodes hash 0 (map_tree m) ++ proof_nodes proof) key proof 0 [] (map_tree m))
    in El; [|done|done|done|apply has_path_nil|done|unfold proof_nodes; set_solver..|done].
  rewrite bind_Ok in E. destruct r as [r|]; [|by inv_ok]. destruct El as (v & -> & -> & Hv).
  destruct (go_index proof _) as [lastE| |] eqn:Eg; [|done..]. rewrite bind_Ok in E.
  change (NodeValue8FromBigIntArray (Some <$> ScalarToArrayBig (be_val lastE)))
    with (Ok (Some <$> ScalarToArrayBig (be_val lastE)) : outcome NodeValue8) in E.
  rewrite bind_Ok, ToUintArray_some in E by apply ScalarToArrayBig_u64.
  case_bool_decide as Hh; [done|]. inv_ok. change (Some v = Some (ScalarToArrayBig (be_val lastE))). f_equal.
  change (phash hash (value_node lastE) = phash hash (val_pre v)) in Hh.
  assert (lastE ∈ proof) as Hin.
  { unfold go_index in Eg. case_match; [done|]. destruct (proof !! _) eqn:Ex; inv_ok. by eapply list_elem_of_lookup_2. }
  apply (hash_good_inj _ _ _ HU) in Hh; [by apply (f_equal fst) in Hh| |set_solver].
  apply elem_of_app. right. apply elem_of_app. right. by apply list_elem_of_fmap_2.
Qed.

(** * The value of a proof is not canonical *)

(** When the loop stops before [rest], [rest] does not matter. *)
Lemma verify_loop_prefix hash front : ∀ i cur e e' key x,
  (length e < 64)%nat → verify_loop hash i cur (front ++ [e]) key = Ok x →
  verify_loop hash i cur (front ++ [e']) key = Ok x.
Proof.
  induction front as [|f front IH]; intros i cur e e' key x He E.
  - cbn [app verify_loop] in E. apply go_slices in E as [Hl _]. lia.
  - cbn [app verify_loop] in E |- *. pose proof (go_slices _ _ _ _ E) as [Hl _].
    rewrite (go_slice_ok f 0 32), (go_slice_ok f 32 64), !bind_Ok in E |- * by lia.
    case_bool_decide; [done|].
    destruct (negb _); [|done]. destruct (go_index _ _); [|done..]. rewrite bind_Ok in E |- *. cbv zeta in *.
    destruct (NodeKey_IsZero _); [done|]. by eapply IH.
Qed.

Lemma ScalarToArrayBig_pad pad e :
  length e = 32%nat → ScalarToArrayBig (be_val (pad ++ e)) = ScalarToArrayBig (be_val e).
Proof.
  intros He. rewrite !ScalarToArrayBig_digits, be_val_app, He.
  rewrite <-(le_digits_mod (2 ^ 32) 8 (_ + _)), <-(le_digits_mod (2 ^ 32) 8 (be_val e)) by lia.
  change (256 ^ Z.of_nat 32) with ((2 ^ 32) ^ Z.of_nat 8). by rewrite Z.add_comm, Z.mod_add by lia.
Qed.

Lemma VerifyAndGetVal_last hash root front e key :
  VerifyAndGetVal hash root (front ++ [e]) key =
    (res ← verify_loop hash 0 root (front ++ [e]) key;
     match res with
     | None => Ok None
     | Some r =>
         if bool_decide (hash (ScalarToArrayBig (be_val e)) BranchCapacity ≠ r)
         then Err "root mismatch" else Ok (Some e)
     end).
Proof.
  unfold VerifyAndGetVal.
  assert (go_index (front ++ [e]) (Z.of_nat (length (front ++ [e])) - 1) = Ok e) as ->.
  { rewrite length_snoc. replace (_ - 1) with (Z.of_nat (length front)) by lia.
    apply go_index_lookup. by rewrite lookup_app_r, Nat.sub_diag by lia. }
  assert (NodeValue8FromBigIntArray (Some <$> ScalarToArrayBig (be_val e)) =
    Ok (Some <$> ScalarToArrayBig (be_val e))) as Ev by done.
  destruct front; cbn [app]; (destruct (verify_loop _ _ _ _ _) as [[r|]| |]; [|done..]);
    rewrite !bind_Ok, Ev, bind_Ok; by rewrite ToUintArray_some by apply ScalarToArrayBig_u64.
Qed.

(** VerifyAndGetVal hashes the value modulo 2^256 and returns the bytes it
    was given: a proof of a 32-byte value stays valid, and yields a longer
    value, when any bytes are put in front of that value. *)
Theorem VerifyAndGetVal_malleable hash root front e key pad :
  length e = 32%nat → VerifyAndGetVal hash root (front ++ [e]) key = Ok (Some e) →
  VerifyAndGetVal hash root (front ++ [pad ++ e]) key = Ok (Some (pad ++ e)).
Proof.
  intros He. rewrite !VerifyAndGetVal_last, ScalarToArrayBig_pad by done.
  destruct (verify_loop hash 0 root (front ++ [e]) key) as [r| |] eqn:El; [|done..].
  apply (verify_loop_prefix hash front 0 root e (pad ++ e)) in El; [|lia].
  rewrite El, !bind_Ok. destruct r as [r|]; [|done]. by case_bool_decide.
Qed.

(** * Traversal *)

Fixpoint tsize (t : tree) : nat :=
  match t with
  | Empty => 0
  | Leaf _ _ => 1
  | Branch l r => S (tsize l + tsize r)
  end.

Section Visit.
Context {D : Type} {SD : SmtDB D}.
Context (hash : list Z → NodeKey → NodeKey).
Context (hash_wf : ∀ i c, nk_wf (hash i c)).
Context {ST : Type} (action : ST → list byte → NodeKey → NodeValue12 → outcome (ST * bool)).
Context (cancelled : nat → bool).
Context (Hrun : ∀ n, cancelled n = false).

Abbreviation thash := (thash hash).
Abbreviation tree_nodes := (tree_nodes hash).

(** The recursive pre-order visit: left before right, below a branch only when
    the action asks for it. *)
Fixpoint tvisit (st : ST) (n : nat) (prefix : list byte) (t : tree) : outcome ST :=
  match t with
  | Empty => Ok st
  | Leaf k v =>
      '(st, _) ← action st prefix (thash n t) (node_of (leaf_pre hash n k v));
      Ok st
  | Branch l r =>
      '(st, c) ← action st prefix (thash n t) (node_of (branch_pre (thash (S n) l) (thash (S n) r)));
      if c : bool
      then st ← tvisit st (S n) (prefix ++ [x00]) l; tvisit st (S n) (prefix ++ [x01]) r
      else Ok st
  end.

(** What is left to visit: depth, prefix and subtree. *)
Abbreviation todo := (nat * list byte * tree)%type.

Definition todo_entry (i : todo) : stackEntry :=
  let '(n, p, t) := i in mkEntry (NodeKey_ToBigInt (thash n t)) p.

Definition visit_all (st : ST) (l : list todo) : outcome ST :=
  foldM (λ st '(n, p, t), tvisit st n p t) st l.

Definition todo_ok (d : D) (U : list preimage) (i : todo) : Prop :=
  let '(n, _, t) := i in t ≠ Empty ∧ tree_nodes n t ⊆ U ∧ stored hash d (tree_nodes n t).

(** The children that are not empty. *)
Definition children (n : nat) (p : list byte) (l r : tree) : list todo :=
  (if decide (l = Empty) then [] else [(S n, p ++ [x00], l)]) ++
  (if decide (r = Empty) then [] else [(S n, p ++ [x01], r)]).

Lemma NodeKey_ToBigInt_zero h : nk_wf h → (NodeKey_ToBigInt h =? 0) = bool_decide (h = nk_zero).
Proof.
  intros Hh. case_bool_decide as E; [by rewrite E|]. apply Z.eqb_neq. intros H0. apply E.
  apply NodeKey_ToBigInt_inj; [done|apply nk_zero_wf|by rewrite H0].
Qed.

Lemma push_children_spec U n p l r rest :
  hash_good hash U → tree_nodes n (Branch l r) ⊆ U →
  push_children (node_of (branch_pre (thash (S n) l) (thash (S n) r))) p (todo_entry <$> rest) =
    todo_entry <$> (children n p l r ++ rest).
Proof.
  intros HU Ht. simpl in Ht.
  destruct (quarter_node (thash (S n) l) (thash (S n) r) BranchCapacity) as (E0 & E1 & _ & _);
    [by apply thash_wf..|apply BranchCapacity_wf|].
  unfold push_children, branch_pre. rewrite E0, E1, !NodeKey_ToBigInt_zero by (by apply thash_wf).
  assert (∀ t, t = l ∨ t = r → bool_decide (thash (S n) t = nk_zero) = bool_decide (t = Empty)) as Hz.
  { intros t Ht'. apply bool_decide_ext. split; [|by intros ->].
    intros H0. destruct (decide (t = Empty)) as [|Hne]; [done|].
    destruct (thash_nonzero U (S n) t HU); [set_solver|done|done]. }
  rewrite !Hz by auto. unfold children.
  destruct (decide (l = Empty)), (decide (r = Empty)); subst; repeat (rewrite bool_decide_true by done);
    repeat (rewrite bool_decide_false by done); done.
Qed.

Lemma visit_children st n p l r :
  visit_all st (children n p l r) =
    (st ← tvisit st (S n) (p ++ [x00]) l; tvisit st (S n) (p ++ [x01]) r).
Proof.
  unfold visit_all, children.
  assert (∀ m : outcome ST, (x ← m; Ok x) = m) as Hret by (by intros []).
  destruct (decide (l = Empty)) as [->|], (decide (r = Empty)) as [->|]; simpl; rewrite ?Hret; try done.
  destruct (tvisit _ _ _ _); [|done..]. simpl. apply Hret.
Qed.

Lemma visit_app st l1 l2 : visit_all st (l1 ++ l2) = (st ← visit_all st l1; visit_all st l2).
Proof. apply foldM_app. Qed.

Lemma children_ok d U n p l r :
  todo_ok d U (n, p, Branch l r) → Forall (todo_ok d U) (children n p l r).
Proof.
  intros (_ & Ht & Hst). simpl in Ht, Hst. apply Forall_cons in Hst as [_ Hst].
  apply stored_app in Hst as [Hl Hr]. unfold children. apply Forall_app. split.
  - case_decide; [done|]. apply Forall_singleton. split_and!; [done|set_solver|done].
  - case_decide; [done|]. apply Forall_singleton. split_and!; [done|set_solver|done].
Qed.

Definition todo_size (l : list todo) : nat := sum_list_with (λ i, tsize i.2) l.

Lemma children_size n p l r : (todo_size (children n p l r) = tsize l + tsize r)%nat.
Proof. unfold children, todo_size. do 2 case_decide; subst; simpl; lia. Qed.

(** The stored node of a subtree. *)
Definition tnode (n : nat) (t : tree) : NodeValue12 :=
  match t with
  | Empty => replicate 12 None
  | Leaf k v => node_of (leaf_pre hash n k v)
  | Branch l r => node_of (branch_pre (thash (S n) l) (thash (S n) r))
  end.

Lemma todo_get d U n p t : todo_ok d U (n, p, t) → db_Get d (thash n t) = Ok (tnode n t).
Proof.
  intros (Hne & _ & Hst). destruct t; [done| |].
  - by apply (stored_leaf hash d _ n _ _ Hst).
  - by apply (stored_branch hash d _ n _ _ Hst).
Qed.

(** The loop visits the subtrees on its stack in order. *)
Lemma traverse_loop_spec U d fuel : ∀ i st l,
  hash_good hash U → Forall (todo_ok d U) l → (todo_size l ≤ fuel)%nat →
  traverse_loop action cancelled fuel i d st (todo_entry <$> l) = Some (visit_all st l).
Proof.
  induction fuel as [|fuel IH]; intros i st l HU Hl Hf.
  { destruct l as [|[[n p] t] l]; [done|]. apply Forall_cons in Hl as [[Hne _] _].
    unfold todo_size in Hf. simpl in Hf. destruct t; [done|simpl in Hf; lia..]. }
  destruct l as [|[[n p] t] l]; [done|]. apply Forall_cons in Hl as [Hi Hl]. csimpl.
  cbn [traverse_loop se_node se_prefix]. rewrite Hrun, ScalarToRoot_ToBigInt by (by apply thash_wf).
  rewrite (todo_get d U n p t Hi). unfold todo_size in Hf. cbn [sum_list_with snd] in Hf.
  change (visit_all st ((n, p, t) :: l)) with (st ← tvisit st n p t; visit_all st l).
  pose proof Hi as (Hne & Ht & _). destruct t as [|k v|a b]; [done| |]; cbn [tvisit tnode].
  - destruct (action _ _ _ _) as [[st' c]| |]; [|done..]. rewrite IsFinalNode_leaf. cbn [orb].
    rewrite IH by (done || (unfold todo_size; simpl in Hf; lia)). done.
  - destruct (action _ _ _ _) as [[st' c]| |]; [|done..]. rewrite IsFinalNode_branch. cbn [orb].
    destruct c; cbn [negb]; rewrite !bind_Ok.
    + rewrite (push_children_spec U) by done. rewrite IH; [|done|by apply Forall_app; auto using children_ok|].
      * by rewrite visit_app, visit_children.
      * pose proof (children_size n p a b) as Hc. unfold todo_size in *. rewrite sum_list_with_app, Hc.
        simpl in Hf. lia.
    + rewrite IH by (done || (unfold todo_size; simpl in Hf; lia)). done.
Qed.

(** The whole traversal of a stored tree. *)
Lemma traverse_spec d st t prefix fuel :
  hash_good hash (tree_nodes 0 t) → stored hash d (tree_nodes 0 t) → (tsize t ≤ fuel)%nat →
  traverse action cancelled fuel d st (NodeKey_ToBigInt (thash 0 t)) prefix = Some (tvisit st 0 prefix t).
Proof.
  intros HU Hst Hf. unfold traverse. rewrite NodeKey_ToBigInt_zero by (by apply thash_wf).
  case_bool_decide as Hz.
  - destruct (decide (t = Empty)) as [->|Hne]; [done|]. by destruct (thash_nonzero _ 0 t HU).
  - change [mkEntry (NodeKey_ToBigInt (thash 0 t)) prefix] with (todo_entry <$> [(0%nat, prefix, t)]).
    rewrite (traverse_loop_spec (tree_nodes 0 t)); [|done| |unfold todo_size; simpl; lia].
    + unfold visit_all. simpl. by destruct (tvisit st 0 prefix t).
    + apply Forall_singleton. split_and!; [by intros ->|done|done].
Qed.
End Visit.

(** * Building proofs *)

Definition node_bytes (a b : NodeKey) (final : bool) : list byte :=
  (be_bytes 32 (NodeKey_ToBigInt a) ++ be_bytes 32 (NodeKey_ToBigInt b)) ++ (if final then [x01] else []).

Definition value_bytes (v : list Z) : list byte := big_bytes (le_value (2 ^ 32) v).

Section Build.
Context (hash : list Z → NodeKey → NodeKey).
Context (hash_wf : ∀ i c, nk_wf (hash i c)).
Context (retain : list byte → bool).

Abbreviation thash := (thash hash).
Abbreviation tree_nodes := (tree_nodes hash).

Definition leaf_bytes (n : nat) (k : NodeKey) (v : list Z) : list byte :=
  node_bytes (RemoveKeyBits k (Z.of_nat n)) (phash hash (val_pre v)) true.

Definition branch_bytes (n : nat) (l r : tree) : list byte :=
  node_bytes (thash (S n) l) (thash (S n) r) false.

(** The proof elements of the retained nodes, in pre-order. *)
Fixpoint tproofs (n : nat) (p : list byte) (t : tree) : list SMTProofElement :=
  match t with
  | Empty => []
  | Leaf k v =>
      if retain p
      then [mkProofElement p (leaf_bytes n k v); mkProofElement p (value_bytes v)] else []
  | Branch l r =>
      if retain p
      then mkProofElement p (branch_bytes n l r) ::
             tproofs (S n) (p ++ [x00]) l ++ tproofs (S n) (p ++ [x01]) r
      else []
  end.

Lemma fill_bytes_node a : nk_wf a →
  fill_bytes 32 (ArrayToScalar (nk_list a)) = Ok (be_bytes 32 (NodeKey_ToBigInt a)).
Proof.
  intros Ha. change (ArrayToScalar (nk_list a)) with (NodeKey_ToBigInt a).
  pose proof (NodeKey_ToBigInt_range a Ha). unfold fill_bytes.
  rewrite Z.abs_eq by lia. rewrite (proj2 (Nat.leb_le _ _)); [done|].
  apply ndigits_ub; [lia|]. change ((2 ^ 8) ^ Z.of_nat 32) with (2 ^ 256). lia.
Qed.

Section Store.
Context {D : Type} {SD : SmtDB D}.

Lemma build_leaf d n k v proofs p :
  nk_wf k → val_ok v → stored hash d (tree_nodes n (Leaf k v)) →
  build_action d retain proofs p (thash n (Leaf k v)) (node_of (leaf_pre hash n k v)) =
    Ok (proofs ++ tproofs n p (Leaf k v), false).
Proof.
  intros Hk (Hl & Hw & _) Hst. unfold build_action. simpl tproofs.
  destruct (retain p); [|by rewrite app_nil_r].
  destruct (quarter_node (RemoveKeyBits k (Z.of_nat n)) (phash hash (val_pre v)) LeafCapacity)
    as (E0 & E1 & _ & _); [by apply RemoveKeyBits_wf|apply hash_wf|apply LeafCapacity_wf|].
  rewrite IsFinalNode_leaf. unfold leaf_pre. rewrite E0, E1, !fill_bytes_node, !bind_Ok
    by (apply hash_wf || by apply RemoveKeyBits_wf).
  rewrite (stored_elem hash d _ (val_pre v) Hst) by by left. rewrite bind_Ok.
  assert (GetNodeValue8 (node_of (val_pre v)) = Some <$> v) as ->.
  { unfold GetNodeValue8, node_of, ConcatArrays8AndCapacityByPointers.
    apply take_app_length'. by rewrite length_fmap. }
  unfold ArrayBigToScalar. rewrite arrayToScalar_shift_value, bind_Ok, <-app_assoc by lia. done.
Qed.

Lemma build_branch d n l r proofs p :
  build_action d retain proofs p (thash n (Branch l r)) (node_of (branch_pre (thash (S n) l) (thash (S n) r))) =
    if retain p then Ok (proofs ++ [mkProofElement p (branch_bytes n l r)], true) else Ok (proofs, false).
Proof.
  unfold build_action. destruct (retain p); [|done].
  destruct (quarter_node (thash (S n) l) (thash (S n) r) BranchCapacity)
    as (E0 & E1 & _ & _); [by apply thash_wf..|apply BranchCapacity_wf|].
  rewrite IsFinalNode_branch. unfold branch_pre.
  by rewrite E0, E1, !fill_bytes_node, !bind_Ok by (by apply thash_wf).
Qed.

Lemma tvisit_build d t : ∀ n q p proofs,
  tree_ok q t → stored hash d (tree_nodes n t) →
  tvisit hash (build_action d retain) proofs n p t = Ok (proofs ++ tproofs n p t).
Proof.
  induction t as [|k v|l IHl r IHr]; intros n q p proofs Hok Hst; simpl tvisit.
  - by rewrite app_nil_r.
  - destruct Hok as (Hk & _ & Hv). rewrite (build_leaf d n k v) by done. done.
  - destruct Hok as (_ & _ & Hl & Hr). apply Forall_cons in Hst as [_ Hst].
    apply stored_app in Hst as [Hsl Hsr]. rewrite (build_branch d n l r). simpl tproofs.
    destruct (retain p); [|by rewrite app_nil_r]. rewrite bind_Ok.
    rewrite (IHl _ (q ++ [false])), bind_Ok, (IHr _ (q ++ [true])) by done.
    by rewrite <-!app_assoc.
Qed.
End Store.

(** ** Filtering *)

(** The proof of a key: the nodes on its path. *)
Fixpoint tpath (n : nat) (t : tree) (key : NodeKey) : list (list byte) :=
  match t with
  | Empty => []
  | Leaf k v => [leaf_bytes n k v; value_bytes v]
  | Branch l r => branch_bytes n l r :: (if keybit key n then tpath (S n) r key else tpath (S n) l key)
  end.

Lemma lookup_key_path key j :
  (j < 256)%nat → key_path key !! j = Some (if keybit key j then x01 else x00).
Proof.
  intros Hj. unfold key_path. rewrite list_lookup_fmap, lookup_GetPath by done.
  by destruct (keybit key j).
Qed.

Lemma key_path_prefix_snoc key n b :
  (n < 256)%nat →
  take n (key_path key) ++ [b] `prefix_of` key_path key ↔ b = if keybit key n then x01 else x00.
Proof.
  intros Hn. pose proof (lookup_key_path key n Hn) as E. rewrite <-(take_drop_middle _ _ _ E) at 2.
  split.
  - intros H%prefix_app_inv. by apply prefix_cons_inv_1 in H.
  - intros ->. apply prefix_app, prefix_cons, prefix_nil.
Qed.

(** Below a prefix off the path of the key, nothing is kept. *)
Lemma filter_off key t : ∀ n p,
  ¬ p `prefix_of` key_path key → FilterProofs (tproofs n p t) key = [].
Proof.
  unfold FilterProofs. induction t as [|k v|l IHl r IHr]; intros n p Hp; simpl tproofs; [done| |].
  - destruct (retain p); [|done]. by rewrite !filter_cons_False.
  - destruct (retain p); [|done]. rewrite filter_cons_False by done.
    assert (∀ b, ¬ p ++ [b] `prefix_of` key_path key) as Hb.
    { intros b H. apply Hp. etrans; [|exact H]. by apply prefix_app_r. }
    by rewrite filter_app, fmap_app, IHl, IHr.
Qed.

Lemma FilterProofs_app a b key : FilterProofs (a ++ b) key = FilterProofs a key ++ FilterProofs b key.
Proof. unfold FilterProofs. by rewrite filter_app, fmap_app. Qed.

Lemma FilterProofs_cons p e b key :
  p `prefix_of` key_path key → FilterProofs (mkProofElement p e :: b) key = e :: FilterProofs b key.
Proof. intros Hp. unfold FilterProofs. by rewrite filter_cons_True. Qed.

Lemma filter_path key t : ∀ n q,
  (∀ p, p `prefix_of` key_path key → retain p = true) → tree_ok q t → length q = n →
  FilterProofs (tproofs n (take n (key_path key)) t) key = tpath n t key.
Proof.
  induction t as [|k v|l IHl r IHr]; intros n q Hret Hok Hn; simpl tproofs; [done| |].
  - rewrite Hret by apply prefix_take. by rewrite !FilterProofs_cons by apply prefix_take.
  - destruct Hok as (Hlt & _ & Hl & Hr). rewrite Hn in Hlt. rewrite Hret by apply prefix_take.
    rewrite FilterProofs_cons, FilterProofs_app by apply prefix_take. simpl tpath. f_equal.
    assert (∀ b, b = (if keybit key n then x01 else x00) →
      take n (key_path key) ++ [b] = take (S n) (key_path key)) as Hsnoc.
    { intros b ->. symmetry. apply take_S_r. by apply lookup_key_path. }
    destruct (keybit key n) eqn:Eb.
    + rewrite filter_off by (rewrite key_path_prefix_snoc, Eb; done).
      rewrite Hsnoc by done. apply (IHr _ (q ++ [true])); [done|done|rewrite length_snoc; lia].
    + rewrite (filter_off key r) by (rewrite key_path_prefix_snoc, Eb; done). rewrite app_nil_r.
      rewrite Hsnoc by done. apply (IHl _ (q ++ [false])); [done|done|rewrite length_snoc; lia].
Qed.

(** ** Verifying what was built *)

Lemma read_child a :
  nk_wf a → list_nk (ScalarToArray (be_val (be_bytes 32 (NodeKey_ToBigInt a)))) = a.
Proof.
  intros Ha. pose proof (NodeKey_ToBigInt_range a Ha). rewrite be_val_bytes.
  change (256 ^ Z.of_nat 32) with (2 ^ 256). rewrite Z.mod_small, ScalarToArray_digits by done.
  unfold NodeKey_ToBigInt, ArrayToScalar. rewrite (le_digits_value' (2 ^ 64)) by (done || lia).
  apply list_nk_nk_list.
Qed.

Lemma slice_left a b final :
  go_slice (node_bytes a b final) 0 32 = Ok (be_bytes 32 (NodeKey_ToBigInt a)).
Proof. unfold node_bytes. rewrite <-app_assoc. by apply (go_slice_app []). Qed.

Lemma slice_right a b final :
  go_slice (node_bytes a b final) 32 64 = Ok (be_bytes 32 (NodeKey_ToBigInt b)).
Proof. unfold node_bytes. rewrite <-app_assoc. by apply go_slice_app. Qed.

Lemma length_node_bytes a b (final : bool) : length (node_bytes a b final) = if final then 65%nat else 64%nat.
Proof. unfold node_bytes. rewrite !length_app, !length_be_bytes. by destruct final. Qed.

Lemma verify_node i a b (final : bool) proof key :
  nk_wf a → nk_wf b →
  verify_loop hash i (hash (ConcatArrays4 a b) (if final then LeafCapacity else BranchCapacity))
    (node_bytes a b final :: proof) key =
  if final : bool then
    used ← go_slice (GetPath key) 0 (Z.of_nat i);
    if NodeKey_IsEqualTo (JoinKey used a) key then Ok (Some b) else Ok None
  else
    c ← go_index (GetPath key) (Z.of_nat i);
    let curRoot := if c =? 0 then a else b in
    if NodeKey_IsZero curRoot then Ok None else verify_loop hash (S i) curRoot proof key.
Proof.
  intros Ha Hb. cbn [verify_loop].
  rewrite slice_left, bind_Ok, slice_right, bind_Ok, length_node_bytes, !read_child by done.
  by destruct final; rewrite bool_decide_false by tauto.
Qed.

Lemma verify_complete U key t : ∀ n q,
  hash_good hash U → tree_nodes n t ⊆ U → t ≠ Empty → tree_ok q t → length q = n →
  has_path q key → nk_wf key → (n ≤ 256)%nat →
  verify_loop hash n (thash n t) (tpath n t key) key =
    Ok ((λ v, phash hash (val_pre v)) <$> tget n t key).
Proof.
  induction t as [|k v|l IHl r IHr]; intros n q HU Ht Hne Hok Hn Hp Hk Hle; [done| |].
  - destruct Hok as (Hkw & Hpk & _). simpl tpath. cbn [SmtTree.thash].
    unfold leaf_bytes, SmtTree.phash at 1, leaf_pre. cbn [fst snd].
    rewrite (verify_node n _ _ true) by (by apply RemoveKeyBits_wf || apply hash_wf).
    rewrite go_slice_ok, bind_Ok by (rewrite ?length_GetPath; lia).
    replace (take _ _) with (take (length q) (GetPath key)) by (rewrite Z.sub_0_r, Nat2Z.id, Hn; done).
    rewrite <-Hn, (JoinKey_other key k q), NodeKey_IsEqualTo_spec by (done || lia).
    simpl tget. case_bool_decide; [by rewrite decide_True by done|by rewrite decide_False by done].
  - destruct Hok as (Hlt & _ & Hl & Hr). simpl tpath. cbn [SmtTree.thash]. simpl in Ht.
    unfold branch_bytes, SmtTree.phash at 1, branch_pre. cbn [fst snd].
    rewrite (verify_node n _ _ false) by (by apply thash_wf).
    rewrite go_index_GetPath, bind_Ok by lia. cbv beta zeta. rewrite NodeKey_IsZero_spec. simpl tget.
    assert (∀ b t', (b, t') = (true, r) ∨ (b, t') = (false, l) → keybit key n = b →
      (∀ n q, hash_good hash U → tree_nodes n t' ⊆ U → t' ≠ Empty → tree_ok q t' → length q = n →
        has_path q key → nk_wf key → (n ≤ 256)%nat →
        verify_loop hash n (thash n t') (tpath n t' key) key =
          Ok ((λ v, phash hash (val_pre v)) <$> tget n t' key)) → tree_ok (q ++ [b]) t' →
      (if bool_decide (thash (S n) t' = nk_zero) then Ok None
       else verify_loop hash (S n) (thash (S n) t') (tpath (S n) t' key) key) =
      Ok ((λ v, phash hash (val_pre v)) <$> tget (S n) t' key)) as Hstep.
    { intros b t' Ht' Eb IH Hok. destruct (decide (t' = Empty)) as [->|Hne']; [by rewrite bool_decide_true|].
      rewrite bool_decide_false by (apply (thash_nonzero U); [done|set_solver|done]).
      apply (IH _ (q ++ [b])); auto; [set_solver|by rewrite length_snoc, Hn|by apply has_path_snoc; rewrite Hn|lia]. }
    destruct (keybit key n) eqn:Eb; cbn [Z.b2z Z.eqb].
    + apply (Hstep true r); auto.
    + apply (Hstep false l); auto.
Qed.

Lemma tpath_last key t : ∀ n v,
  tget n t key = Some v → last (tpath n t key) = Some (value_bytes v) ∧ (2 ≤ length (tpath n t key))%nat.
Proof.
  induction t as [|k v'|l IHl r IHr]; intros n v E; simpl in E; [done| |].
  - case_decide; [|done]. injection E as ->. done.
  - simpl tpath. destruct (keybit key n).
    + destruct (IHr _ _ E) as [H1 H2]. split; [|simpl; lia]. rewrite last_cons, H1. done.
    + destruct (IHl _ _ E) as [H1 H2]. split; [|simpl; lia]. rewrite last_cons, H1. done.
Qed.
End Build.

(** * Completeness *)

(** Values as the node writes them: eight 32-bit limbs of a 256-bit number. *)
Definition limbs32 (m : gmap NodeKey (list Z)) : Prop := map_Forall (λ _ v, Forall is_u32 v) m.

#[export] Instance limbs32_dec m : Decision (limbs32 m).
Proof. unfold limbs32. apply _. Defined.

Lemma value_bytes_node v :
  length v = 8%nat → Forall is_u32 v → ScalarToArrayBig (be_val (value_bytes v)) = v.
Proof.
  intros Hl Hv. unfold value_bytes. rewrite be_val_big_bytes.
  - rewrite ScalarToArrayBig_digits. rewrite <-Hl. by rewrite (le_digits_value' (2 ^ 32)) by (done || lia).
  - apply (le_value_range (2 ^ 32)); [lia|done].
Qed.

(** C12. Completeness of Merkle proofs: on a store that holds a map, with a
    retain decider that keeps the prefixes of the path of the key, BuildProofs
    followed by FilterProofs gives a proof that VerifyAndGetVal accepts, and
    the result is the stored value as minimal big-endian bytes, or nothing when
    the key is absent.  The traversal needs as many iterations as the tree has
    nodes. *)
Theorem BuildProofs_complete {D : Type} {SD : SmtDB D} hash (s : SMT D) m key retain cancelled fuel :
  (∀ i c, nk_wf (hash i c)) → smt_holds hash s m → m ≠ ∅ → limbs32 m → nk_wf key →
  hash_good hash (map_nodes hash m) → (∀ n, cancelled n = false) →
  (∀ p, p `prefix_of` key_path key → retain p = true) → (tsize (map_tree m) ≤ fuel)%nat →
  ∃ proofs, BuildProofs cancelled fuel (smtDb s) retain = Some (Ok proofs) ∧
    VerifyAndGetVal hash (map_root hash m) (FilterProofs proofs key) key = Ok (value_bytes <$> m !! key).
Proof.
  intros Hh [Hm _ Hr Hst _] Hne H32 Hk HU Hrun Hret Hf. destruct (map_tree_spec m Hm) as [Hok Hmod].
  assert (map_tree m ≠ Empty) as HneT.
  { intros E. apply Hne. apply map_eq. intros q. rewrite lookup_empty. destruct (m !! q) as [v|] eqn:Eq; [|done].
    destruct (Hm _ _ Eq) as [Hq _]. rewrite <-Hmod, E in Eq by done. done. }
  unfold BuildProofs. rewrite Hr. unfold map_root, map_nodes in *.
  rewrite (traverse_spec hash Hh _ _ Hrun) by done. rewrite (tvisit_build hash Hh retain _ _ _ []) by done.
  eexists. split; [done|]. rewrite app_nil_l.
  change (@nil byte) with (take 0 (key_path key)). rewrite (filter_path hash retain key _ _ []) by done.
  pose proof (verify_complete hash Hh _ key _ 0 [] HU ltac:(done) HneT Hok eq_refl (has_path_nil key) Hk ltac:(lia)) as Ev.
  rewrite <-Hmod by done. unfold VerifyAndGetVal.
  destruct (tpath hash 0 (map_tree m) key) as [|e0 rest] eqn:Ep.
  { destruct (map_tree m); done. } rewrite <-Ep in *. rewrite Ev, bind_Ok.
  destruct (tget 0 (map_tree m) key) as [v|] eqn:Eg; [|done]. cbn [fmap option_fmap option_map].
  destruct (tpath_last hash key _ _ _ Eg) as [Hlast Hlen].
  assert (go_index (tpath hash 0 (map_tree m) key) (Z.of_nat (length (tpath hash 0 (map_tree m) key)) - 1) =
    Ok (value_bytes v)) as ->.
  { rewrite last_lookup in Hlast. replace (_ - 1) with (Z.of_nat (pred (length (tpath hash 0 (map_tree m) key)))) by lia.
    by apply go_index_lookup. }
  rewrite bind_Ok. rewrite Hmod in Eg by done. destruct (Hm _ _ Eg) as [_ (Hl & Hw & _)].
  rewrite value_bytes_node by (done || by apply (H32 _ _ Eg)).
  unfold NodeValue8FromBigIntArray. rewrite length_fmap, Hl. cbn [Nat.eqb negb].
  rewrite bind_Ok, ToUintArray_some by done. by rewrite bool_decide_false by tauto.
Qed.

(** * Sample proofs *)

Definition sample_proof : list (list byte) :=
  match BuildProofs (λ _, false) 10 (smtDb sample_smt2) (λ _, true) with
  | Some (Ok proofs) => FilterProofs proofs sample_key
  | _ => []
  end.

Lemma VerifyAndGetVal_sound_witness :
  sample_map2 !! sample_key = (λ bs, ScalarToArrayBig (be_val bs)) <$> Some [x07].
Proof.
  apply (VerifyAndGetVal_sound sample_hash sample_map2 sample_proof sample_key).
  - apply (bool_decide_unpack _). vm_compute. exact I.
  - apply (bool_decide_unpack _). vm_compute. exact I.
  - apply (bool_decide_unpack _). vm_compute. exact I.
  - vm_compute. reflexivity.
Defined.

Lemma BuildProofs_complete_witness :
  ∃ proofs, BuildProofs (λ _, false) 10 (smtDb sample_smt2) (λ _, true) = Some (Ok proofs) ∧
    VerifyAndGetVal sample_hash (map_root sample_hash sample_map2) (FilterProofs proofs (NK 5 5 5 5)) (NK 5 5 5 5) =
      Ok (value_bytes <$> sample_map2 !! NK 5 5 5 5).
Proof.
  apply (BuildProofs_complete sample_hash sample_smt2 sample_map2 (NK 5 5 5 5) (λ _, true) (λ _, false) 10).
  - apply sample_hash_wf.
  - apply sample_smt2_holds.
  - discriminate.
  - apply (bool_decide_unpack _). vm_compute. exact I.
  - apply (bool_decide_unpack _). vm_compute. exact I.
  - apply (bool_decide_unpack _). vm_compute. exact I.
  - done.
  - done.
  - apply Nat.leb_le. vm_compute. reflexivity.
Defined.

(** A tree with one key and a value of 256 bits, proved by one leaf. *)
Definition sample_long : list byte := be_bytes 32 (2 ^ 255 + 7).
Definition sample_leaf : list byte :=
  node_bytes sample_key (sample_hash (ScalarToArrayBig (be_val sample_long)) BranchCapacity) true.
Definition sample_root : NodeKey :=
  sample_hash (ConcatArrays4 sample_key (sample_hash (ScalarToArrayBig (be_val sample_long)) BranchCapacity)) LeafCapacity.

Lemma VerifyAndGetVal_malleable_witness :
  VerifyAndGetVal sample_hash sample_root ([sample_leaf] ++ [[x01; x02] ++ sample_long]) sample_key =
    Ok (Some ([x01; x02] ++ sample_long)).
Proof.
  apply (VerifyAndGetVal_malleable sample_hash sample_root [sample_leaf] sample_long sample_key [x01; x02]).
  - vm_compute. reflexivity.
  - vm_compute. reflexivity.
Defined.
