(* ===== verification/SmtBatch.v ===== *)
(** Batched insertion into the sparse Merkle tree: src/smt/pkg/smt/smt_batch.go.

    InsertBatch reads the part of the tree that the keys of the batch touch into
    memory, changes it there, deletes what it has read from the store and writes
    the new nodes back in one traversal.  The nodes in memory point to each
    other, to their children and to their parent, and are changed in place: they
    live in a heap, and a [**smtBatchNode] is a [slot], the place that holds a
    pointer.

    A node has no field for its hash: the traversal, the only code that uses it,
    returns the hash instead.  The goroutine of the traversal sends what is to be
    stored through a channel to the goroutine that stores it; here it returns
    the list of what it sends.  Progress messages and metrics are left out. *)

From S2P Require Import Prelude Bytes SmtUtils SmtKeys SmtDb SmtTree Smt.

Local Open Scope Z_scope.

(** * Nodes in memory *)

Record smtBatchNode := mkNode {
  nodeLeftHashOrRemainingKey : NodeKey;
  nodeRightHashOrValueHash : option NodeKey;
  leaf : bool;
  parentNode : option nat;
  leftNode : option nat;
  rightNode : option nat;
}.

(** The heap, the next address, and the variable smtBatchNodeRoot. *)
Record memory := mkMemory {
  m_heap : gmap nat smtBatchNode;
  m_next : nat;
  m_root : option nat;
}.

(** A place that holds a pointer to a node. *)
Inductive slot :=
| RootSlot
| ChildSlot (l : nat) (direction : Z).

Definition deref (m : memory) (l : nat) : outcome smtBatchNode :=
  match m_heap m !! l with Some n => Ok n | None => Panic end.

Definition write_node (m : memory) (l : nat) (n : smtBatchNode) : memory :=
  mkMemory (<[l := n]> (m_heap m)) (m_next m) (m_root m).

Definition alloc (m : memory) (n : smtBatchNode) : nat * memory :=
  (m_next m, mkMemory (<[m_next m := n]> (m_heap m)) (S (m_next m)) (m_root m)).

Definition newSmtBatchNodeLeaf (left : NodeKey) (right : option NodeKey) (parent : option nat) : smtBatchNode :=
  mkNode left right true parent None None.

Definition getNextNodeHashInDirection (n : smtBatchNode) (direction : Z) : option NodeKey :=
  if direction =? 0 then Some (nodeLeftHashOrRemainingKey n) else nodeRightHashOrValueHash n.

Definition child (n : smtBatchNode) (direction : Z) : option nat :=
  if direction =? 0 then leftNode n else rightNode n.

Definition set_child_ptr (n : smtBatchNode) (direction : Z) (p : option nat) : smtBatchNode :=
  if direction =? 0
  then mkNode (nodeLeftHashOrRemainingKey n) (nodeRightHashOrValueHash n) (leaf n) (parentNode n) p (rightNode n)
  else mkNode (nodeLeftHashOrRemainingKey n) (nodeRightHashOrValueHash n) (leaf n) (parentNode n) (leftNode n) p.

(** [*p] and [*p = x] for a pointer to a place: getChildInDirection gives the
    places of a node. *)
Definition read_slot (m : memory) (s : slot) : outcome (option nat) :=
  match s with
  | RootSlot => Ok (m_root m)
  | ChildSlot l direction => n ← deref m l; Ok (child n direction)
  end.

Definition write_slot (m : memory) (s : slot) (p : option nat) : outcome memory :=
  match s with
  | RootSlot => Ok (mkMemory (m_heap m) (m_next m) p)
  | ChildSlot l direction => n ← deref m l; Ok (write_node m l (set_child_ptr n direction p))
  end.

(** A pointer to a hash that must not be nil. *)
Definition not_nil (h : option NodeKey) : outcome NodeKey :=
  match h with Some h => Ok h | None => Panic end.

Definition getTheSingleLeafAndDirectionIfAny (m : memory) (n : smtBatchNode) : outcome (option (nat * Z)) :=
  match leftNode n, rightNode n with
  | Some l, None => c ← deref m l; Ok (if leaf c then Some (l, 0) else None)
  | None, Some r => c ← deref m r; Ok (if leaf c then Some (r, 1) else None)
  | _, _ => Ok None
  end.

Definition updateHashesAfterDelete (n : smtBatchNode) : smtBatchNode :=
  mkNode (match leftNode n with None => nk_zero | Some _ => nodeLeftHashOrRemainingKey n end)
    (match rightNode n with None => Some nk_zero | Some _ => nodeRightHashOrValueHash n end)
    (leaf n) (parentNode n) (leftNode n) (rightNode n).

(** The new leaf is the node that the returned place points to. *)
Definition createALeafInEmptyDirection (m : memory) (l : nat) (insertingNodePath : list Z)
    (insertingNodePathLevel : Z) (insertingNodeKey : NodeKey) : outcome (nat * memory) :=
  direction ← go_index insertingNodePath insertingNodePathLevel;
  n ← deref m l;
  match child n direction with
  | Some _ => Err "branch has already been taken"
  | None =>
      let remainingKey := RemoveKeyBits insertingNodeKey (insertingNodePathLevel + 1) in
      let '(l', m) := alloc m (newSmtBatchNodeLeaf remainingKey None (Some l)) in
      m ← write_slot m (ChildSlot l direction) (Some l');
      Ok (l', m)
  end.

Definition expandLeafByAddingALeafInDirection (m : memory) (l : nat) (insertingNodeKey : list Z)
    (insertingNodeKeyLevel : Z) : outcome (nat * memory) :=
  direction ← go_index insertingNodeKey insertingNodeKeyLevel;
  insertingNodeKeyUpToLevel ← go_slice insertingNodeKey 0 insertingNodeKeyLevel;
  n ← deref m l;
  let nodeKey := JoinKey insertingNodeKeyUpToLevel (nodeLeftHashOrRemainingKey n) in
  let remainingKey := RemoveKeyBits nodeKey (insertingNodeKeyLevel + 1) in
  let '(l', m) := alloc m (newSmtBatchNodeLeaf remainingKey (nodeRightHashOrValueHash n) (Some l)) in
  Ok (l', write_node m l
    (set_child_ptr (mkNode nk_zero (Some nk_zero) false (parentNode n) (leftNode n) (rightNode n)) direction (Some l'))).

(** The path is changed in place: the new path is returned as well. *)
Definition collapseLeafByRemovingTheSingleLeaf (m : memory) (l : nat) (insertingNodeKey : list Z)
    (insertingNodeKeyLevel : Z) (theSingleLeaf : nat) (theSingleNodeLeafDirection : Z)
    : outcome (list Z * memory) :=
  _ ← go_slice insertingNodeKey 0 (insertingNodeKeyLevel + 1);
  _ ← go_index insertingNodeKey insertingNodeKeyLevel;
  let path := <[Z.to_nat insertingNodeKeyLevel := theSingleNodeLeafDirection]> insertingNodeKey in
  c ← deref m theSingleLeaf;
  n ← deref m l;
  let nodeKey := JoinKey (take (Z.to_nat (insertingNodeKeyLevel + 1)) path) (nodeLeftHashOrRemainingKey c) in
  let remainingKey := RemoveKeyBits nodeKey insertingNodeKeyLevel in
  Ok (path, write_node m l (mkNode remainingKey (nodeRightHashOrValueHash c) true (parentNode n) None None)).

(** * The batch *)

(** [fmt.Errorf("prefix: %w", err)] *)
Definition errorf {A} (prefix : string) (x : outcome A) : outcome A :=
  match x with Err e => Err (prefix ++ ": " ++ e) | _ => x end.

Definition keyMap : Type := gmap Z (gmap Z (gmap Z (gmap Z nat))).

Definition setNodeKeyMapValue (nodeKeyMap : keyMap) (nodeKey : NodeKey) (value : nat) : keyMap :=
  let mapLevel0 := default ∅ (nodeKeyMap !! nk0 nodeKey) in
  let mapLevel1 := default ∅ (mapLevel0 !! nk1 nodeKey) in
  let mapLevel2 := default ∅ (mapLevel1 !! nk2 nodeKey) in
  <[nk0 nodeKey := <[nk1 nodeKey := <[nk2 nodeKey := <[nk3 nodeKey := value]> mapLevel2]> mapLevel1]> mapLevel0]>
    nodeKeyMap.

Definition getNodeKeyMapValue (nodeKeyMap : keyMap) (nodeKey : NodeKey) : option nat :=
  mapLevel0 ← nodeKeyMap !! nk0 nodeKey;
  mapLevel1 ← mapLevel0 !! nk1 nodeKey;
  mapLevel2 ← mapLevel1 !! nk2 nodeKey;
  mapLevel2 !! nk3 nodeKey.

(** A nil slice of hashes becomes a slice of nil pointers. *)
Definition validateDataLengths (nodeKeys : list NodeKey) (nodeValues : list NodeValue8)
    (nodeValuesHashes : option (list (option NodeKey))) : outcome (list (option NodeKey)) :=
  let size := length nodeKeys in
  if negb (length nodeValues =? size)%nat then Err "mismatch nodeValues length"
  else
    let hashes := match nodeValuesHashes with Some hs => hs | None => replicate size None end in
    if negb (length hashes =? size)%nat then Err "mismatch nodeValuesHashes length"
    else Ok hashes.

Definition entries : Type := list NodeKey * list NodeValue8 * list (option NodeKey).

Definition removeDuplicateEntriesByKeys (e : entries) : outcome entries :=
  let '(nodeKeys, nodeValues, nodeValuesHashes) := e in
  let storage := foldl (λ st '(i, nodeKey), setNodeKeyMapValue st nodeKey i) ∅ (imap pair nodeKeys) in
  foldM (λ '(ks, vs, hs) '(i, nodeKey),
    match getNodeKeyMapValue storage nodeKey with
    | None => Err "key not found"
    | Some latestIndex =>
        if (latestIndex =? i)%nat then
          v ← go_index nodeValues (Z.of_nat i);
          h ← go_index nodeValuesHashes (Z.of_nat i);
          Ok (ks ++ [nodeKey], vs ++ [v], hs ++ [h])
        else Ok (ks, vs, hs)
    end) ([], [], []) (imap pair nodeKeys).

Section Batch.
Context {D : Type} `{SmtDB D}.
Context (hash : list Z → NodeKey → NodeKey).

Definition calculateNodeValueHashesIfMissingInInterval (nodeValues : list NodeValue8) (startIndex endIndex : nat)
    (nodeValuesHashes : list (option NodeKey)) : outcome (list (option NodeKey)) :=
  foldM (λ hs i,
    h ← go_index hs (Z.of_nat i);
    match h with
    | Some _ => Ok hs
    | None =>
        v ← go_index nodeValues (Z.of_nat i);
        Ok (<[i := Some (hash (ToUintArray v) BranchCapacity)]> hs)
    end) nodeValuesHashes (seq startIndex (endIndex - startIndex)).

(** One interval for every goroutine when there are many values; the intervals
    do not overlap, so the order of the goroutines does not matter. *)
Definition calculateNodeValueHashesIfMissing (cpuNum : nat) (nodeValues : list NodeValue8)
    (nodeValuesHashes : list (option NodeKey)) : outcome (list (option NodeKey)) :=
  let size := length nodeValues in
  if (cpuNum * 4 <? size)%nat then
    let itemsPerCpu := ((size + cpuNum - 1) / cpuNum)%nat in
    foldM (λ hs cpuIndex,
      let startIndex := (cpuIndex * itemsPerCpu)%nat in
      let endIndex := Nat.min (startIndex + itemsPerCpu) size in
      calculateNodeValueHashesIfMissingInInterval nodeValues startIndex endIndex hs)
      nodeValuesHashes (seq 0 cpuNum)
  else calculateNodeValueHashesIfMissingInInterval nodeValues 0 size nodeValuesHashes.

Definition calculateRootNodeHashIfNil (d : D) (root : option NodeKey) : outcome NodeKey :=
  match root with Some r => Ok r | None => getLastRoot d end.

Definition preprocessBatchedNodeValues (cpuNum : nat) (d : D) (nodeKeys : list NodeKey)
    (nodeValues : list NodeValue8) (nodeValuesHashes : option (list (option NodeKey)))
    (rootNodeHash : option NodeKey) : outcome (entries * NodeKey) :=
  hs ← errorf "validateDataLengths" (validateDataLengths nodeKeys nodeValues nodeValuesHashes);
  '(ks, vs, hs) ← errorf "removeDuplicateEntriesByKeys" (removeDuplicateEntriesByKeys (nodeKeys, nodeValues, hs));
  hs ← errorf "calculateNodeValueHashesIfMissing" (calculateNodeValueHashesIfMissing cpuNum vs hs);
  root ← errorf "calculateRootNodeHashIfNil" (calculateRootNodeHashIfNil d rootNodeHash);
  Ok ((ks, vs, hs), root).

Definition fetchNodeDataFromDb (d : D) (m : memory) (nodeHash : NodeKey) (parent : option nat)
    : outcome (option nat * memory) :=
  if NodeKey_IsZero nodeHash then Ok (None, m)
  else
    dbNodeValue ← db_Get d nodeHash;
    let '(l, m) := alloc m (mkNode (quarter dbNodeValue 0) (Some (quarter dbNodeValue 1))
                              (IsFinalNode dbNodeValue) parent None None) in
    Ok (Some l, m).

(** The node at a place, read from the store when it is not in memory. *)
Definition load_slot (d : D) (m : memory) (insertingNodePathLevel : Z) (parent : option nat) (nodeHash : NodeKey)
    (s : slot) (visited : list NodeKey) : outcome (option nat * list NodeKey * memory) :=
  cur ← read_slot m s;
  match cur with
  | Some l => Ok (Some l, visited, m)
  | None =>
      if NodeKey_IsZero nodeHash then
        if insertingNodePathLevel =? -1 then Ok (None, visited, m)
        else Err "nodekey is zero at non-root level"
      else
        '(p, m) ← fetchNodeDataFromDb d m nodeHash parent;
        m ← write_slot m s p;
        Ok (p, visited ++ [nodeHash], m)
  end.

(** A child that is not in memory yet, when siblings are fetched. *)
Definition load_child (d : D) (m : memory) (l : nat) (direction : Z) (visited : list NodeKey)
    : outcome (list NodeKey * memory) :=
  n ← deref m l;
  match child n direction with
  | Some _ => Ok (visited, m)
  | None =>
      h ← not_nil (getNextNodeHashInDirection n direction);
      '(p, m) ← fetchNodeDataFromDb d m h (Some l);
      m ← write_slot m (ChildSlot l direction) p;
      Ok (visited ++ [h], m)
  end.

(** The loop of findInsertingPoint; [rest] is what remains of the path. *)
Fixpoint find_loop (d : D) (fetchDirectSiblings : bool) (rest : list Z) (m : memory) (insertingNodePathLevel : Z)
    (parent : option nat) (nodeHash : NodeKey) (s : slot) (visited : list NodeKey)
    : outcome (Z * slot * list NodeKey * memory) :=
  '(cur, visited, m) ← load_slot d m insertingNodePathLevel parent nodeHash s visited;
  match cur with
  | None =>
      if insertingNodePathLevel =? -1 then Ok (insertingNodePathLevel, s, visited, m)
      else Err "working smt pointer is nil at non-root level"
  | Some l =>
      let level := insertingNodePathLevel + 1 in
      n ← deref m l;
      if leaf n then Ok (level, s, visited, m)
      else
        '(visited, m) ← (if fetchDirectSiblings : bool
                         then '(visited, m) ← load_child d m l 0 visited; load_child d m l 1 visited
                         else Ok (visited, m));
        match rest with
        | [] => Panic
        | insertDirection :: rest =>
            n ← deref m l;
            nextHash ← not_nil (getNextNodeHashInDirection n insertDirection);
            let next := ChildSlot l insertDirection in
            match child n insertDirection with
            | None =>
                if NodeKey_IsZero nextHash then Ok (level, s, visited, m)
                else find_loop d fetchDirectSiblings rest m level (Some l) nextHash next visited
            | Some _ => find_loop d fetchDirectSiblings rest m level (Some l) nextHash next visited
            end
        end
  end.

Definition findInsertingPoint (d : D) (m : memory) (insertingNodePath : list Z) (rootNodeHash : NodeKey)
    (fetchDirectSiblings : bool) : outcome (Z * slot * list NodeKey * memory) :=
  find_loop d fetchDirectSiblings insertingNodePath m (-1) None rootNodeHash RootSlot [].

(** Leaves are pushed down as long as the two paths agree. *)
Fixpoint expand_loop (fuel : nat) (m : memory) (l : nat) (insertingNodePath currentTreeNodePath : list Z)
    (level : Z) : outcome (nat * Z * memory) :=
  a ← go_index insertingNodePath level;
  b ← go_index currentTreeNodePath level;
  if a =? b then
    match fuel with
    | O => Panic
    | S fuel =>
        '(l, m) ← expandLeafByAddingALeafInDirection m l insertingNodePath level;
        expand_loop fuel m l insertingNodePath currentTreeNodePath (level + 1)
    end
  else Ok (l, level, m).

(** A value that is not zero, at the node [l] that findInsertingPoint found. *)
Definition insert_value (m : memory) (l : nat) (insertingNodePath : list Z) (level : Z)
    (insertingNodeKey insertingNodeValueHash : NodeKey) : outcome (Z * memory) :=
  n ← deref m l;
  '(l, remainingKey, level, m) ←
    (if leaf n then Ok (l, RemoveKeyBits insertingNodeKey level, level, m)
     else
       '(l, m) ← createALeafInEmptyDirection m l insertingNodePath level insertingNodeKey;
       n ← deref m l;
       Ok (l, nodeLeftHashOrRemainingKey n, level + 1, m));
  n ← deref m l;
  '(l, level, m) ←
    (if NodeKey_IsEqualTo (nodeLeftHashOrRemainingKey n) remainingKey then Ok (l, level, m)
     else
       used ← go_slice insertingNodePath 0 level;
       let currentTreeNodePath := GetPath (JoinKey used (nodeLeftHashOrRemainingKey n)) in
       '(l, level, m) ← expand_loop 256 m l insertingNodePath currentTreeNodePath level;
       '(_, m) ← expandLeafByAddingALeafInDirection m l currentTreeNodePath level;
       '(l, m) ← createALeafInEmptyDirection m l insertingNodePath level insertingNodeKey;
       Ok (l, level + 1, m));
  n ← deref m l;
  Ok (level, write_node m l (mkNode (nodeLeftHashOrRemainingKey n) (Some insertingNodeValueHash) (leaf n)
                               (parentNode n) (leftNode n) (rightNode n))).

(** Branches with a single leaf become that leaf, upwards from [cur]. *)
Fixpoint collapse_loop (fuel : nat) (m : memory) (cur : option nat) (insertingNodePath : list Z) (level : Z)
    : outcome (Z * memory) :=
  match cur with
  | None => Ok (level, m)
  | Some l =>
      n ← deref m l;
      if leaf n then Ok (level, m)
      else
        single ← getTheSingleLeafAndDirectionIfAny m n;
        match single with
        | None => Ok (level, m)
        | Some (theSingleNodeLeaf, direction) =>
            match fuel with
            | O => Panic
            | S fuel =>
                '(path, m) ← collapseLeafByRemovingTheSingleLeaf m l insertingNodePath level theSingleNodeLeaf direction;
                n ← deref m l;
                collapse_loop fuel m (parentNode n) path (level - 1)
            end
        end
  end.

(** The value zero, at the node [l] in the place [s]. *)
Definition delete_value (m : memory) (l : nat) (s : slot) (insertingNodePath : list Z) (level : Z)
    (insertingNodeKey : NodeKey) : outcome (Z * memory) :=
  let remainingKey := RemoveKeyBits insertingNodeKey level in
  n ← deref m l;
  '(cur, level, m) ←
    (if NodeKey_IsEqualTo (nodeLeftHashOrRemainingKey n) remainingKey then
       m ← write_slot m s None;
       m ← match parentNode n with
           | Some p => np ← deref m p; Ok (write_node m p (updateHashesAfterDelete np))
           | None => Ok m
           end;
       Ok (parentNode n, level - 1, m)
     else Ok (Some l, level, m));
  collapse_loop 257 m cur insertingNodePath level.

(** The variables of the main loop. *)
Record loopState := mkLoop {
  ls_memory : memory;
  ls_forDelete : gset NodeKey;
  ls_maxLevel : Z;
}.

Definition updateNodeHashesForDelete (forDelete : gset NodeKey) (visited : list NodeKey) : gset NodeKey :=
  foldl (λ X h, {[h]} ∪ X) forDelete visited.

(** One round of the main loop. *)
Definition insert_one (d : D) (rootNodeHash : NodeKey) (st : loopState)
    (u : NodeKey * NodeValue8 * option NodeKey) : outcome loopState :=
  let '(insertingNodeKey, insertingNodeValue, insertingNodeValueHash) := u in
  let insertingNodePath := GetPath insertingNodeKey in
  let isZero := NodeValue8_IsZero insertingNodeValue in
  '(level, s, visited, m) ← findInsertingPoint d (ls_memory st) insertingNodePath rootNodeHash isZero;
  let forDelete := updateNodeHashesForDelete (ls_forDelete st) visited in
  cur ← read_slot m s;
  match cur with
  | None =>
      m ← (if isZero then Ok m
           else
             let '(l, m) := alloc m (newSmtBatchNodeLeaf insertingNodeKey insertingNodeValueHash None) in
             write_slot m s (Some l));
      Ok (mkLoop m forDelete (ls_maxLevel st))
  | Some l =>
      '(level, m) ←
        (if isZero then delete_value m l s insertingNodePath level insertingNodeKey
         else
           h ← not_nil insertingNodeValueHash;
           insert_value m l insertingNodePath level insertingNodeKey h);
      Ok (mkLoop m forDelete (if ls_maxLevel st <? level then level else ls_maxLevel st))
  end.

(** The main loop; [cancelled i] tells whether the context is done in round [i]. *)
Fixpoint insert_all (cancelled : nat → bool) (d : D) (rootNodeHash : NodeKey) (i : nat) (st : loopState)
    (us : list (NodeKey * NodeValue8 * option NodeKey)) : outcome loopState :=
  match us with
  | [] => Ok st
  | u :: us =>
      if cancelled i then Err "context done"
      else
        st ← insert_one d rootNodeHash st u;
        insert_all cancelled d rootNodeHash (S i) st us
  end.

(** [order] is the order in which the range over the map visits its keys. *)
Definition deleteBatchedNodeValues (order : gset NodeKey → list NodeKey) (d : D) (forDelete : gset NodeKey) : outcome D :=
  foldM (λ d nodeHash,
    d ← errorf "DeleteByNodeKey" (db_DeleteByNodeKey d nodeHash);
    errorf "DeleteHashKey" (db_DeleteHashKey d nodeHash)) d (order forDelete).

Definition saveBatchedNodeValues (noSave : bool) (d : D) (vs : list (NodeValue8 * option NodeKey)) : outcome D :=
  foldM (λ d '(nodeValue, h),
    if NodeValue8_IsZero nodeValue then Ok d
    else if noSave : bool then Ok d
    else h ← not_nil h; hashSave noSave d (ToUintArray nodeValue) BranchCapacity h) d vs.

(** What the traversal sends to the consumer. *)
Inductive smtDfsHelperDataStruct :=
| dfsNode (key : NodeKey) (value : NodeValue12)
| dfsKey (key value : NodeKey).

Definition HashKeyAndValueByPointers (inn : list Z) (capacity : NodeKey) : NodeKey * NodeValue12 :=
  (hash inn capacity, ConcatArrays8AndCapacityByPointers inn capacity).

(** The hash of the subtree at [l] and what is sent for it.  [path] is the part
    of the array path up to the level; [n] is what remains of the array, and
    writing past its end panics. *)
Fixpoint calculateAndSaveHashesDfs (noSave : bool) (m : memory) (n : nat) (l : nat) (path : list Z)
    : outcome (NodeKey * list smtDfsHelperDataStruct) :=
  node ← deref m l;
  if leaf node then
    rightHash ← not_nil (nodeRightHashOrValueHash node);
    let '(hashObj, hashValue) :=
      HashKeyAndValueByPointers (ConcatArrays4 (nodeLeftHashOrRemainingKey node) rightHash) LeafCapacity in
    Ok (hashObj, if noSave then []
                 else [dfsNode hashObj hashValue; dfsKey hashObj (JoinKey path (nodeLeftHashOrRemainingKey node))])
  else
    '(leftHash, sentLeft) ←
      match leftNode node with
      | Some c =>
          match n with
          | O => Panic
          | S n => calculateAndSaveHashesDfs noSave m n c (path ++ [0])
          end
      | None => Ok (nodeLeftHashOrRemainingKey node, [])
      end;
    '(rightHash, sentRight) ←
      match rightNode node with
      | Some c =>
          match n with
          | O => Panic
          | S n => calculateAndSaveHashesDfs noSave m n c (path ++ [1])
          end
      | None => rightHash ← not_nil (nodeRightHashOrValueHash node); Ok (rightHash, [])
      end;
    let totalHash := set_quarter (set_quarter (replicate 8 None) 0 leftHash) 1 rightHash in
    let '(hashObj, hashValue) := HashKeyAndValueByPointers (ToUintArray totalHash) BranchCapacity in
    Ok (hashObj, sentLeft ++ sentRight ++ (if noSave then [] else [dfsNode hashObj hashValue])).

Definition startConsumersLoop (d : D) (sent : list smtDfsHelperDataStruct) : outcome D :=
  foldM (λ d x,
    errorf "calculating and saving hashes dfs"
      match x with
      | dfsNode key value => db_Insert d key value
      | dfsKey key value => db_InsertHashKey d key value
      end) d sent.

Definition InsertBatch (cancelled : nat → bool) (cpuNum : nat) (order : gset NodeKey → list NodeKey)
    (s : SMT D) (nodeKeys : list NodeKey) (nodeValues : list NodeValue8)
    (nodeValuesHashes : option (list (option NodeKey))) (rootNodeHash : option NodeKey)
    : outcome (SMTResponse * SMT D) :=
  let noSave := noSaveOnInsert s in
  let d := smtDb s in
  '((ks, vs, hs), root) ← errorf "preprocessBatchedNodeValues"
    (preprocessBatchedNodeValues cpuNum d nodeKeys nodeValues nodeValuesHashes rootNodeHash);
  st ← insert_all cancelled d root 0 (mkLoop (mkMemory ∅ 0 None) ∅ 0) (zip_with pair (zip_with pair ks vs) hs);
  d ← errorf "updateDepth" (updateDepth d (ls_maxLevel st));
  d ← errorf "deleteBatchedNodeValues" (deleteBatchedNodeValues order d (ls_forDelete st));
  d ← errorf "saveBatchedNodeValues" (saveBatchedNodeValues noSave d (zip_with pair vs hs));
  let m := ls_memory st in
  '(root, d) ←
    match m_root m with
    | None => Ok (nk_zero, d)
    | Some l =>
        '(h, sent) ← calculateAndSaveHashesDfs noSave m 256 l [];
        d ← (if noSave then Ok d else errorf "saving smt hashes dfs" (startConsumersLoop d sent));
        Ok (h, d)
    end;
  d ← setLastRoot d root;
  Ok (mkResponse root "batch insert", mkSMT noSave d).
End Batch.
