(* ===== verification/SmtBatchEntries.v ===== *)
(** The entries of a batch.

    What happens to the arguments of InsertBatch before the tree is touched: only
    the last entry of a key stays, which does not change the map that the updates
    lead to, and the missing hashes of the values are computed, in one interval or
    in one interval for every CPU with the same result. *)

From S2P Require Import Prelude Bytes SmtUtils SmtKeys SmtDb SmtTree Smt SmtInsert SmtRefine SmtBatch.

Local Open Scope Z_scope.
#[local] Set Warnings "-clear-no-such-hyp".

(** * The entries of a batch *)

(** The last entry of every key. *)
Fixpoint last_entries (l : list (NodeKey * list Z)) : list (NodeKey * list Z) :=
  match l with
  | [] => []
  | u :: l => if bool_decide (u.1 ∈ l.*1) then last_entries l else u :: last_entries l
  end.

(** The arguments of InsertBatch that carry the updates [l]. *)
Definition batch_values (l : list (NodeKey * list Z)) : list NodeValue8 := fmap (M := list) Some <$> l.*2.

Lemma get_set_keyMap st k k' i :
  getNodeKeyMapValue (setNodeKeyMapValue st k i) k' = if decide (k = k') then Some i else getNodeKeyMapValue st k'.
Proof.
  destruct k as [a0 a1 a2 a3], k' as [b0 b1 b2 b3]. unfold getNodeKeyMapValue, setNodeKeyMapValue, keyMap in *. cbn [nk0 nk1 nk2 nk3].
  destruct (decide (a0 = b0)) as [<-|]; [rewrite lookup_insert_eq|by rewrite lookup_insert_ne, decide_False by congruence].
  cbn [mbind option_bind]. destruct (decide (a1 = b1)) as [<-|].
  2: { rewrite lookup_insert_ne, decide_False by congruence. destruct (st !! a0); cbn; [done|]. by rewrite lookup_empty. }
  rewrite lookup_insert_eq. cbn [mbind option_bind].
  set (x := default ∅ (st !! a0)). destruct (decide (a2 = b2)) as [<-|].
  2: { rewrite lookup_insert_ne, decide_False by congruence. unfold x.
       destruct (st !! a0) as [y|]; cbn; [destruct (y !! a1); cbn; [done|]|]; by rewrite !lookup_empty. }
  rewrite lookup_insert_eq. cbn [mbind option_bind]. destruct (decide (a3 = b3)) as [<-|].
  - by rewrite lookup_insert_eq, decide_True.
  - rewrite lookup_insert_ne, decide_False by congruence. unfold x.
    destruct (st !! a0) as [y|]; cbn; [destruct (y !! a1) as [z|]; cbn; [destruct (z !! a2); cbn; [done|]|]|]; by rewrite !lookup_empty.
Qed.

Lemma keyMap_get ks : ∀ st n k,
  let st' := foldl (λ st '(i, nodeKey), setNodeKeyMapValue st nodeKey i) st (imap (λ i, pair (n + i)%nat) ks) in
  (k ∉ ks → getNodeKeyMapValue st' k = getNodeKeyMapValue st k) ∧
  (k ∈ ks → ∃ i, getNodeKeyMapValue st' k = Some i ∧ (n ≤ i)%nat).
Proof.
  induction ks as [|k0 ks IH]; intros st n k; [by split; [|intros []%elem_of_nil]|].
  cbn [imap foldl]. rewrite Nat.add_0_r. replace (imap _ ks) with (imap (λ i : nat, @pair nat NodeKey (S n + i)%nat) ks).
  2: { apply imap_ext. intros i x _. cbn. f_equal. lia. }
  destruct (IH (setNodeKeyMapValue st k0 n) (S n) k) as [H1 H2]. split.
  - intros [Hne Hk]%not_elem_of_cons. by rewrite H1, get_set_keyMap, decide_False by done.
  - intros Hk. destruct (decide (k ∈ ks)) as [Hin|Hin].
    + destruct (H2 Hin) as (i & E & Hi). exists i. split; [done|lia].
    + apply elem_of_cons in Hk as [->|]; [|done]. exists n. by rewrite H1, get_set_keyMap, decide_True by done.
Qed.

Lemma removeDuplicateEntriesByKeys_spec l :
  removeDuplicateEntriesByKeys (l.*1, batch_values l, replicate (length l) None) =
  Ok ((last_entries l).*1, batch_values (last_entries l), replicate (length (last_entries l)) None).
Proof.
  unfold removeDuplicateEntriesByKeys. set (storage := foldl _ _ _).
  assert (Hgen : ∀ l2 l1 ks vs hs, l = l1 ++ l2 → foldM (λ '((ks, vs, hs) : entries) '(i, nodeKey),
    match getNodeKeyMapValue storage nodeKey with
    | None => Err "key not found"
    | Some latestIndex =>
        if (latestIndex =? i)%nat then
          v ← go_index (batch_values l) (Z.of_nat i);
          h ← go_index (replicate (length l) (@None NodeKey)) (Z.of_nat i);
          Ok (ks ++ [nodeKey], vs ++ [v], hs ++ [h])
        else Ok (ks, vs, hs)
    end) (ks, vs, hs) (imap (λ i, pair (length l1 + i)%nat) l2.*1) =
    Ok (ks ++ (last_entries l2).*1, vs ++ batch_values (last_entries l2), hs ++ replicate (length (last_entries l2)) None)).
  2: { exact (Hgen l [] [] [] [] eq_refl). }
  induction l2 as [|[k v] l2 IH]; intros l1 ks vs hs El; [by rewrite !app_nil_r|].
  assert (l = (l1 ++ [(k, v)]) ++ l2) as El' by (by rewrite <-app_assoc).
  specialize (IH _ ks vs hs El') as IH1. change (((k, v) :: l2).*1) with (k :: l2.*1). cbn [imap foldM].
  rewrite Nat.add_0_r. replace (imap _ l2.*1) with (imap (λ i : nat, @pair nat NodeKey (length (l1 ++ [(k, v)]) + i)%nat) l2.*1).
  2: { apply imap_ext. intros i x _. cbn. rewrite length_app. cbn. f_equal. lia. }
  set (st1 := foldl (λ st '(i, nodeKey), setNodeKeyMapValue st nodeKey i) ∅ (imap pair l1.*1)).
  assert (storage = foldl (λ st '(i, nodeKey), setNodeKeyMapValue st nodeKey i)
    (setNodeKeyMapValue st1 k (length l1)) (imap (λ i, pair (S (length l1) + i)%nat) l2.*1)) as Es.
  { unfold storage, st1. rewrite El, fmap_app, imap_app, foldl_app. cbn [fmap list_fmap imap foldl fst].
    rewrite length_fmap, Nat.add_0_r. f_equal. apply imap_ext. intros i x _. cbn. f_equal. lia. }
  destruct (keyMap_get l2.*1 (setNodeKeyMapValue st1 k (length l1)) (S (length l1)) k) as [H1 H2]. rewrite <-Es in H1, H2.
  cbn [last_entries fst]. destruct (decide (k ∈ l2.*1)) as [Hin|Hin].
  - rewrite bool_decide_true by done. destruct (H2 Hin) as (i & -> & Hi).
    rewrite (proj2 (Nat.eqb_neq i (length l1))) by lia. by rewrite bind_Ok.
  - rewrite bool_decide_false, H1, get_set_keyMap, decide_True, Nat.eqb_refl by done.
    assert (batch_values l !! length l1 = Some (Some <$> v)) as Ev.
    { unfold batch_values. by rewrite !list_lookup_fmap, El, list_lookup_middle. }
    rewrite (go_index_lookup (A := NodeValue8) _ _ _ Ev), bind_Ok, (go_index_lookup _ (length l1) None), !bind_Ok.
    2: { rewrite lookup_replicate, El, length_app. cbn. split; [done|lia]. }
    rewrite IH by done. by rewrite <-!app_assoc.
Qed.

Section Hashes.
Context (hash : list Z → NodeKey → NodeKey).
Context (vs : list (list Z)) (Hvs : Forall word8 vs).

Abbreviation phash := (phash hash).

(** The first [n] hashes are there. *)
Definition hashes_upto (n : nat) : list (option NodeKey) :=
  (Some ∘ phash ∘ val_pre <$> take n vs) ++ replicate (length vs - n) None.

Lemma hashes_interval a n :
  (a + n ≤ length vs)%nat →
  foldM (λ hs i,
    h ← go_index hs (Z.of_nat i);
    match h with
    | Some _ => Ok hs
    | None =>
        v ← go_index (fmap (M := list) Some <$> vs) (Z.of_nat i);
        Ok (<[i := Some (hash (ToUintArray v) BranchCapacity)]> hs)
    end) (hashes_upto a) (seq a n) = Ok (hashes_upto (a + n)).
Proof.
  revert a. induction n as [|n IH]; intros a Hn; [by rewrite Nat.add_0_r|]. cbn [seq foldM].
  destruct (lookup_lt_is_Some_2 vs a) as [v Ev]; [lia|].
  assert (length (Some ∘ phash ∘ val_pre <$> take a vs) = a) as Hl by (rewrite length_fmap, length_take; lia).
  assert (replicate (length vs - a) None = None :: replicate (length vs - S a) (@None NodeKey)) as Er.
  { by replace (length vs - a)%nat with (S (length vs - S a)) by lia. }
  rewrite (go_index_lookup _ a None), bind_Ok.
  2: { unfold hashes_upto. rewrite Er. apply list_lookup_middle. by rewrite Hl. }
  rewrite (go_index_lookup _ a (Some <$> v)), bind_Ok by (by rewrite list_lookup_fmap, Ev).
  replace (<[a := _]> (hashes_upto a)) with (hashes_upto (S a)).
  { rewrite bind_Ok, IH by lia. f_equal. f_equal. lia. }
  unfold hashes_upto. rewrite Er, insert_app_r_alt by lia. rewrite Hl, Nat.sub_diag. cbn [base.insert list_insert].
  rewrite (take_S_r vs a v Ev), fmap_app, <-app_assoc. cbn. do 4 f_equal. unfold SmtTree.phash, val_pre. cbn. f_equal.
  pose proof (proj1 (Forall_forall _ _) Hvs v (list_elem_of_lookup_2 _ _ _ Ev)) as Hv. destruct Hv.
  by rewrite ToUintArray_some.
Qed.

Lemma calculateNodeValueHashesIfMissing_spec cpuNum :
  (0 < cpuNum)%nat →
  calculateNodeValueHashesIfMissing hash cpuNum (fmap (M := list) Some <$> vs) (replicate (length vs) None) =
  Ok (Some ∘ phash ∘ val_pre <$> vs).
Proof.
  intros Hcpu. replace (Some ∘ phash ∘ val_pre <$> vs) with (hashes_upto (length vs)).
  2: { unfold hashes_upto. by rewrite firstn_all, Nat.sub_diag, app_nil_r. }
  replace (replicate (length vs) None) with (hashes_upto 0) by (unfold hashes_upto; by rewrite Nat.sub_0_r).
  unfold calculateNodeValueHashesIfMissing, calculateNodeValueHashesIfMissingInInterval. rewrite length_fmap.
  destruct (_ <? _)%nat; [|rewrite Nat.sub_0_r; by rewrite (hashes_interval 0)].
  set (items := ((length vs + cpuNum - 1) / cpuNum)%nat).
  assert (length vs ≤ cpuNum * items)%nat as Hitems.
  { unfold items. pose proof (Nat.div_mod_eq (length vs + cpuNum - 1) cpuNum).
    pose proof (Nat.mod_upper_bound (length vs + cpuNum - 1) cpuNum). lia. }
  assert (∀ n a, foldM (λ hs cpuIndex, foldM (λ hs i,
      h ← go_index hs (Z.of_nat i);
      match h with
      | Some _ => Ok hs
      | None => v ← go_index (fmap (M := list) Some <$> vs) (Z.of_nat i); Ok (<[i := Some (hash (ToUintArray v) BranchCapacity)]> hs)
      end) hs (seq (cpuIndex * items) (Nat.min (cpuIndex * items + items) (length vs) - cpuIndex * items)))
    (hashes_upto (Nat.min (a * items) (length vs))) (seq a n) = Ok (hashes_upto (Nat.min ((a + n) * items) (length vs)))) as Hrun.
  { induction n as [|n IH]; intros a; [by rewrite Nat.add_0_r|]. cbn [seq foldM].
    replace (a + S n)%nat with (S a + n)%nat by lia. rewrite <-IH.
    destruct (decide (a * items ≤ length vs)%nat) as [Hle|Hgt].
    - rewrite (Nat.min_l (a * items)) by done. rewrite hashes_interval by lia. rewrite bind_Ok. do 2 f_equal. lia.
    - replace (_ - a * items)%nat with 0%nat by lia. cbn [seq foldM]. rewrite bind_Ok. do 2 f_equal. lia. }
  specialize (Hrun cpuNum 0%nat). rewrite (Nat.min_r ((0 + cpuNum) * items)) in Hrun by lia. exact Hrun.
Qed.
End Hashes.

(** * Only the last entry of a key counts *)

Lemma map_set_same m k v v' : map_set (map_set m k v) k v' = map_set m k v'.
Proof.
  apply map_eq. intros i. unfold map_set. do 2 destruct (decide (_ = replicate _ _));
    destruct (decide (k = i)) as [<-|]; by rewrite ?lookup_delete_eq, ?lookup_insert_eq, ?lookup_delete_ne, ?lookup_insert_ne,
      ?lookup_delete_ne, ?lookup_insert_ne by done.
Qed.

Lemma map_set_comm m k v k' v' : k ≠ k' → map_set (map_set m k v) k' v' = map_set (map_set m k' v') k v.
Proof.
  intros Hne. unfold map_set. do 2 destruct (decide (_ = replicate _ _)); rewrite ?delete_insert_ne by done; try done.
  - by rewrite delete_delete.
  - by rewrite insert_insert_ne.
Qed.

Lemma map_sets_shadowed l : ∀ m k v, k ∈ l.*1 → map_sets (map_set m k v) l = map_sets m l.
Proof.
  induction l as [|[k' v'] l IH]; intros m k v Hin; [by apply elem_of_nil in Hin|].
  unfold map_sets in *. cbn [foldl]. destruct (decide (k = k')) as [<-|Hne]; [by rewrite map_set_same|].
  rewrite map_set_comm by done. apply IH. by apply elem_of_cons in Hin as [|].
Qed.

Lemma map_sets_last l : ∀ m, map_sets m (last_entries l) = map_sets m l.
Proof.
  induction l as [|[k v] l IH]; intros m; [done|]. cbn [last_entries fst].
  destruct (decide (k ∈ l.*1)).
  - rewrite bool_decide_true, IH by done. symmetry. by apply map_sets_shadowed.
  - rewrite bool_decide_false by done. unfold map_sets in *. cbn [foldl]. apply IH.
Qed.

Lemma last_entries_sub l : last_entries l ⊆ l.
Proof. induction l as [|u l IH]; [done|]. cbn [last_entries]. destruct (bool_decide _); set_solver. Qed.

Lemma last_entries_nil l : l ≠ [] → last_entries l ≠ [].
Proof.
  induction l as [|u l IH]; [done|]. intros _. cbn [last_entries]. case_bool_decide as Hin; [|done].
  apply IH. intros ->. by apply elem_of_nil in Hin.
Qed.

Lemma last_entries_keys l : NoDup (last_entries l).*1.
Proof.
  induction l as [|[k v] l IH]; [constructor|]. cbn [last_entries fst]. case_bool_decide as Hin; [done|].
  cbn. constructor; [|done]. intros (u & -> & Hu)%list_elem_of_fmap. by apply Hin, list_elem_of_fmap_2, last_entries_sub.
Qed.

(** What a key has after updates of different keys. *)
Lemma map_sets_other l : ∀ m k, k ∉ l.*1 → map_sets m l !! k = m !! k.
Proof.
  induction l as [|[k' v'] l IH]; intros m k Hk; [done|]. apply not_elem_of_cons in Hk as [Hne Hk]. cbn in Hne.
  unfold map_sets in *. cbn [foldl]. rewrite IH by done. unfold map_set.
  destruct (decide (v' = _)); by rewrite ?lookup_delete_ne, ?lookup_insert_ne by done.
Qed.

Lemma map_sets_lookup l : ∀ m k v,
  NoDup l.*1 → (k, v) ∈ l → map_sets m l !! k = if decide (v = replicate 8 0) then None else Some v.
Proof.
  induction l as [|[k' v'] l IH]; intros m k v Hnd Hin; [by apply elem_of_nil in Hin|].
  apply NoDup_cons in Hnd as [Hk' Hnd]. unfold map_sets in *. cbn [foldl].
  apply elem_of_cons in Hin as [E|Hin]; [|by apply IH]. injection E as -> ->.
  pose proof (map_sets_other l (map_set m k' v') k' Hk') as E. unfold map_sets in E. rewrite E. unfold map_set.
  destruct (decide (v' = _)); by rewrite ?lookup_delete_eq, ?lookup_insert_eq.
Qed.

Lemma map_sets_wf l : ∀ m, map_wf m → updates_wf l → map_wf (map_sets m l).
Proof.
  induction l as [|[k v] l IH]; intros m Hm Hl; [done|]. apply Forall_cons in Hl as [[Hk Hv] Hl].
  apply IH; [|done]. by apply map_set_wf.
Qed.

Lemma preprocess_spec {D} {SD : SmtDB D} hash cpuNum (d : D) l root :
  updates_wf l → (0 < cpuNum)%nat → nk_wf root → db_GetLastRoot d = Ok (NodeKey_ToBigInt root) →
  preprocessBatchedNodeValues hash cpuNum d l.*1 (batch_values l) None None =
  Ok ((last_entries l).*1, batch_values (last_entries l), Some ∘ phash hash ∘ val_pre <$> (last_entries l).*2, root).
Proof.
  intros Hwf Hcpu Hr Er. unfold preprocessBatchedNodeValues, validateDataLengths.
  assert (length (batch_values l) = length l) as -> by (unfold batch_values; by rewrite !length_fmap).
  rewrite !length_fmap, Nat.eqb_refl, length_replicate, Nat.eqb_refl. cbn [negb errorf]. rewrite bind_Ok.
  rewrite removeDuplicateEntriesByKeys_spec. cbn [errorf]. rewrite bind_Ok.
  replace (length (last_entries l)) with (length (last_entries l).*2) by apply length_fmap.
  unfold batch_values. rewrite calculateNodeValueHashesIfMissing_spec; [|..|done].
  2: { apply Forall_fmap, Forall_forall. intros u Hu. unfold updates_wf in Hwf. rewrite Forall_forall in Hwf.
       by apply Hwf, last_entries_sub. }
  cbn [errorf]. rewrite bind_Ok. cbn [calculateRootNodeHashIfNil]. by rewrite (getLastRoot_spec d root).
Qed.
