(* ===== verification/SmtBatchSpec.v ===== *)
(** Correctness of batched insertion (SmtBatch.v).

    The nodes in memory, together with the part of the tree that is still in the
    store only, represent a tree ([rep]); a position in it is a context of
    branches ([crep]).  findInsertingPoint moves the position down, insertion and
    deletion change the tree at the position, and collapsing moves up again.  The
    hashes of the subtrees that were not read, which the batch must not delete,
    are part of the representation.

    InsertBatch implements the updates of a finite map, as Insert does one at a
    time, unless a batch empties the tree before its last update or deletes a
    key whose remaining bits are zero. *)

From S2P Require Import Prelude Bytes SmtUtils SmtKeys SmtDb SmtTree Smt SmtInsert SmtRefine SmtBatch.

Local Open Scope Z_scope.
#[local] Set Warnings "-clear-no-such-hyp".
#[local] Opaque GetPath RemoveKeyBits JoinKey tsplit.

(** * Contexts, innermost branch first *)

Fixpoint rplug (ctx : list frame) (t : tree) : tree :=
  match ctx with
  | [] => t
  | (b, s) :: ctx => rplug ctx (if b : bool then Branch s t else Branch t s)
  end.

Fixpoint rreplug (ctx : list frame) (t : tree) : tree :=
  match ctx with
  | [] => t
  | (b, s) :: ctx => rreplug ctx (if b : bool then mk_branch s t else mk_branch t s)
  end.

(** The path to the position. *)
Fixpoint cpath (ctx : list frame) : list bool :=
  match ctx with
  | [] => []
  | (b, _) :: ctx => cpath ctx ++ [b]
  end.

Lemma length_cpath ctx : length (cpath ctx) = length ctx.
Proof. induction ctx as [|[b s] ctx IH]; [done|]. cbn [cpath length]. rewrite length_snoc. by f_equal. Qed.

Lemma tins_rplug ctx : ∀ t k v,
  has_path (cpath ctx) k → tins 0 (rplug ctx t) k v = rplug ctx (tins (length ctx) t k v).
Proof.
  induction ctx as [|[b s] ctx IH]; intros t k v Hp; [done|]. cbn [rplug cpath length] in *.
  apply has_path_snoc in Hp as [Hp Hb]. rewrite length_cpath in Hb. rewrite IH by done.
  destruct b; cbn [tins]; by rewrite Hb.
Qed.

Lemma tdel_rplug ctx : ∀ t k,
  has_path (cpath ctx) k → tdel 0 (rplug ctx t) k = rreplug ctx (tdel (length ctx) t k).
Proof.
  induction ctx as [|[b s] ctx IH]; intros t k Hp; [done|]. cbn [rplug rreplug cpath length] in *.
  apply has_path_snoc in Hp as [Hp Hb]. rewrite length_cpath in Hb. rewrite IH by done.
  destruct b; cbn [tdel]; by rewrite Hb.
Qed.

Lemma rreplug_branch ctx : ∀ l r, rreplug ctx (Branch l r) = rplug ctx (Branch l r).
Proof.
  induction ctx as [|[b s] ctx IH]; intros l r; [done|]. cbn [rplug rreplug].
  destruct b, s; cbn [mk_branch]; apply IH.
Qed.

(** The subtree at a position of a canonical tree. *)
Lemma rplug_ok ctx : ∀ t,
  tree_ok [] (rplug ctx t) → tree_ok (cpath ctx) t ∧ (length ctx ≤ 256)%nat.
Proof.
  induction ctx as [|[b s] ctx IH]; intros t Hok; [by split; [|simpl; lia]|]. cbn [rplug cpath length] in *.
  destruct b; apply IH in Hok as [(Hlen & _ & Hl & Hr) _]; rewrite length_cpath in Hlen; by split; [|lia].
Qed.

Lemma rplug_ok_branch ctx l r :
  tree_ok [] (rplug ctx (Branch l r)) →
  (length ctx < 256)%nat ∧ (2 ≤ nleaves l + nleaves r)%nat ∧
  tree_ok (cpath ctx ++ [false]) l ∧ tree_ok (cpath ctx ++ [true]) r.
Proof. intros Hok. apply rplug_ok in Hok as [(Hlen & ?) _]. by rewrite length_cpath in Hlen. Qed.

Lemma tget_rplug ctx : ∀ t k,
  has_path (cpath ctx) k → tget 0 (rplug ctx t) k = tget (length ctx) t k.
Proof.
  induction ctx as [|[b s] ctx IH]; intros t k Hp; [done|]. cbn [rplug cpath length] in *.
  apply has_path_snoc in Hp as [Hp Hb]. rewrite length_cpath in Hb. rewrite IH by done.
  destruct b; cbn [tget]; by rewrite Hb.
Qed.

(** The depth of the branch with nothing on the side of a key, if its path ends
    at one. *)
Fixpoint branch_stop (n : nat) (t : tree) (k : NodeKey) : option nat :=
  match t with
  | Branch l r =>
      if keybit k n then match r with Empty => Some n | _ => branch_stop (S n) r k end
      else match l with Empty => Some n | _ => branch_stop (S n) l k end
  | _ => None
  end.

Lemma branch_stop_rplug ctx : ∀ t k,
  has_path (cpath ctx) k → t ≠ Empty → branch_stop 0 (rplug ctx t) k = branch_stop (length ctx) t k.
Proof.
  induction ctx as [|[b s] ctx IH]; intros t k Hp Hne; [done|]. cbn [rplug cpath length] in *.
  apply has_path_snoc in Hp as [Hp Hb]. rewrite length_cpath in Hb. rewrite IH by (done || by destruct b).
  destruct b; cbn [branch_stop]; rewrite Hb; by destruct t.
Qed.

Lemma tdel_absent t k : tree_ok [] t → nk_wf k → tget 0 t k = None → tdel 0 t k = t.
Proof.
  intros Hok Hk Hn. apply (tree_ok_unique []); [by apply (tdel_ok [])|done|]. intros q Hq _.
  etrans; [exact (tget_tdel [] t k q Hok Hk (has_path_nil k))|]. case_decide; [by subst|done].
Qed.

(** The bits of a path as the code has them. *)
Lemma take_GetPath_path p k :
  (length p ≤ 256)%nat → has_path p k → take (length p) (GetPath k) = Z.b2z <$> p.
Proof.
  intros Hlen Hp. apply list_eq. intros j. rewrite list_lookup_fmap. destruct (p !! j) as [b|] eqn:E.
  - pose proof (lookup_lt_Some _ _ _ E). rewrite lookup_take_lt, lookup_GetPath by lia. by rewrite (Hp _ _ E).
  - apply lookup_ge_None in E. by rewrite lookup_take_ge by lia.
Qed.

Lemma JoinKey_path p k :
  (length p ≤ 256)%nat → nk_wf k → has_path p k →
  JoinKey (Z.b2z <$> p) (RemoveKeyBits k (Z.of_nat (length p))) = k.
Proof. intros Hlen Hk Hp. rewrite <-(take_GetPath_path p k) by done. by apply JoinKey_RemoveKeyBits. Qed.

Lemma RemoveKeyBits_path_inj p k k' :
  (length p ≤ 256)%nat → nk_wf k → nk_wf k' → has_path p k → has_path p k' →
  RemoveKeyBits k (Z.of_nat (length p)) = RemoveKeyBits k' (Z.of_nat (length p)) → k = k'.
Proof. intros Hlen Hk Hk' Hp Hp' E. rewrite <-(JoinKey_path p k), <-(JoinKey_path p k') by done. by rewrite E. Qed.

(** * Nodes without the values *)

Section Rep.
Context {D : Type} {SD : SmtDB D} {SL : SmtDBLaws D}.
Context (hash : list Z → NodeKey → NodeKey).
Context (hash_wf : ∀ i c, nk_wf (hash i c)).

Abbreviation phash := (phash hash).
Abbreviation thash := (thash hash).
Abbreviation tree_nodes := (tree_nodes hash).

Fixpoint inner_nodes (d : nat) (t : tree) : list preimage :=
  match t with
  | Empty => []
  | Leaf k v => [leaf_pre hash d k v]
  | Branch l r => branch_pre (thash (S d) l) (thash (S d) r) :: inner_nodes (S d) l ++ inner_nodes (S d) r
  end.

Definition node_hashes (d : nat) (t : tree) : list NodeKey := phash <$> inner_nodes d t.

Fixpoint tree_values (t : tree) : list (list Z) :=
  match t with
  | Empty => []
  | Leaf _ v => [v]
  | Branch l r => tree_values l ++ tree_values r
  end.

Lemma tree_nodes_split d t q :
  q ∈ tree_nodes d t ↔ q ∈ inner_nodes d t ∨ ∃ v, v ∈ tree_values t ∧ q = val_pre v.
Proof.
  clear hash_wf. revert d. induction t as [|k v|l IHl r IHr]; intros d; cbn [SmtTree.tree_nodes inner_nodes tree_values].
  - set_solver.
  - set_solver.
  - rewrite !elem_of_cons, !elem_of_app, IHl, IHr. set_solver.
Qed.

(** * Representation *)

(** The nodes of the tree in the store, and its root. *)
Context (d : D) (U : list preimage) (rootHash : NodeKey).
Context (HU : hash_good hash U) (Hst : stored hash d U).

(** The hashes that a branch in memory can have on its left. *)
Definition known : list NodeKey := nk_zero :: (phash <$> U).

Abbreviation heap := (gmap nat smtBatchNode).

(** The place with the pointer [p] and the hash [fld], below the node [par] at
    depth [n], represents [t]; [F] are the nodes in memory and [sb] the hashes of
    the nodes that are not. *)
Fixpoint rep (h : heap) (n : nat) (par p : option nat) (fld : NodeKey) (t : tree) (F : gset nat) (sb : list NodeKey) : Prop :=
  match p with
  | None => fld = thash n t ∧ tree_nodes n t ⊆ U ∧ F = ∅ ∧ sb = node_hashes n t
  | Some l =>
      match t with
      | Empty => False
      | Leaf k v =>
          h !! l = Some (mkNode (RemoveKeyBits k (Z.of_nat n)) (Some (phash (val_pre v))) true par None None) ∧
          F = {[l]} ∧ sb = []
      | Branch tl tr => ∃ lh rh pl pr Fl Fr sl sr,
          h !! l = Some (mkNode lh (Some rh) false par pl pr) ∧ lh ∈ known ∧
          rep h (S n) (Some l) pl lh tl Fl sl ∧ rep h (S n) (Some l) pr rh tr Fr sr ∧
          (l ∉ Fl ∪ Fr) ∧ Fl ## Fr ∧ F = {[l]} ∪ Fl ∪ Fr ∧ sb = sl ++ sr
      end
  end.

(** The same for a context: the place below it has the pointer [p] and the hash
    [fld].  With [inner], the innermost sibling is in memory unless it is empty;
    with [full], all others are. *)
Fixpoint crep (h : heap) (root : option nat) (full inner : bool) (ctx : list frame) (par p : option nat) (fld : NodeKey)
    (F : gset nat) (sb : list NodeKey) : Prop :=
  match ctx with
  | [] => par = None ∧ p = root ∧ fld = rootHash ∧ F = ∅ ∧ sb = []
  | (b, s) :: ctx => ∃ l lh rh pl pr par' fld' Fs ss F' sb',
      par = Some l ∧ h !! l = Some (mkNode lh (Some rh) false par' pl pr) ∧ lh ∈ known ∧
      p = (if b : bool then pr else pl) ∧ fld = (if b then rh else lh) ∧
      rep h (S (length ctx)) (Some l) (if b then pl else pr) (if b then lh else rh) s Fs ss ∧
      (inner = true → (if b then pl else pr) = None → s = Empty) ∧
      crep h root full full ctx par' (Some l) fld' F' sb' ∧
      (l ∉ Fs ∪ F') ∧ Fs ## F' ∧ F = {[l]} ∪ Fs ∪ F' ∧ sb = ss ++ sb'
  end.

Lemma rep_stub h n par fld t F sb :
  rep h n par None fld t F sb ↔ fld = thash n t ∧ tree_nodes n t ⊆ U ∧ F = ∅ ∧ sb = node_hashes n t.
Proof. by destruct t. Qed.

Lemma rep_branch h n par l fld tl tr F sb :
  rep h n par (Some l) fld (Branch tl tr) F sb ↔ ∃ lh rh pl pr Fl Fr sl sr,
    h !! l = Some (mkNode lh (Some rh) false par pl pr) ∧ lh ∈ known ∧
    rep h (S n) (Some l) pl lh tl Fl sl ∧ rep h (S n) (Some l) pr rh tr Fr sr ∧
    (l ∉ Fl ∪ Fr) ∧ Fl ## Fr ∧ F = {[l]} ∪ Fl ∪ Fr ∧ sb = sl ++ sr.
Proof. done. Qed.

Lemma rep_frame h h' t : ∀ n par p fld F sb,
  rep h n par p fld t F sb → (∀ l, l ∈ F → h' !! l = h !! l) → rep h' n par p fld t F sb.
Proof.
  induction t as [|k v|tl IHl tr IHr]; intros n par p fld F sb Hr Hh; (destruct p as [l|]; [|done]); cbn [rep] in *.
  - done.
  - destruct Hr as (E & -> & ->). rewrite Hh by set_solver. done.
  - destruct Hr as (lh & rh & pl & pr & Fl & Fr & sl & sr & E & Hlh & Hl & Hr & Hni & Hd & -> & ->).
    exists lh, rh, pl, pr, Fl, Fr, sl, sr. rewrite Hh by set_solver. split_and!; try done.
    + apply IHl; [done|]. set_solver.
    + apply IHr; [done|]. set_solver.
Qed.

Lemma crep_frame h h' root full ctx : ∀ inner par p fld F sb,
  crep h root full inner ctx par p fld F sb → (∀ l, l ∈ F → h' !! l = h !! l) → crep h' root full inner ctx par p fld F sb.
Proof.
  induction ctx as [|[b s] ctx IH]; intros inner par p fld F sb Hc Hh; [done|]. cbn [crep] in *.
  destruct Hc as (l & lh & rh & pl & pr & par' & fld' & Fs & ss & F' & sb' & -> & E & Hlh & Hp & Hf & Hs & Hin & Hc & Hni & Hd & -> & ->).
  exists l, lh, rh, pl, pr, par', fld', Fs, ss, F', sb'. rewrite Hh by set_solver. split_and!; try done.
  - eapply rep_frame; [done|]. set_solver.
  - apply IH; [done|]. set_solver.
Qed.

(** ** Places *)

Definition slot_of (ctx : list frame) (par : option nat) : slot :=
  match par, ctx with
  | Some l, (b, _) :: _ => ChildSlot l (Z.b2z b)
  | _, _ => RootSlot
  end.

Lemma deref_node m l n : m_heap m !! l = Some n → deref m l = Ok n.
Proof. unfold deref. by intros ->. Qed.

Lemma child_b2z lh rh lf par pl pr (b : bool) : child (mkNode lh rh lf par pl pr) (Z.b2z b) = if b then pr else pl.
Proof. by destruct b. Qed.

Lemma next_b2z lh rh lf par pl pr (b : bool) :
  getNextNodeHashInDirection (mkNode lh (Some rh) lf par pl pr) (Z.b2z b) = Some (if b then rh else lh).
Proof. by destruct b. Qed.

(** Nodes keep their parents. *)
Definition keeps_parents (m m' : memory) : Prop :=
  ∀ l n, m_heap m !! l = Some n → (l < m_next m)%nat →
    ∃ n', m_heap m' !! l = Some n' ∧ parentNode n' = parentNode n.

Lemma write_slot_parents m s p m' : write_slot m s p = Ok m' → keeps_parents m m'.
Proof.
  intros E l n En _. destruct s as [|l' b]; cbn [write_slot] in E; [injection E as <-; by exists n|].
  destruct (m_heap m !! l') as [n'|] eqn:En'; [|unfold deref in E; by rewrite En' in E].
  rewrite (deref_node _ _ _ En'), bind_Ok in E. injection E as <-. cbn.
  destruct (decide (l = l')) as [->|Hne]; [|rewrite lookup_insert_ne by done; by exists n].
  rewrite lookup_insert_eq. eexists. split; [done|]. unfold set_child_ptr. destruct (b =? 0); cbn; congruence.
Qed.

Lemma read_slot_of m full inner ctx par p fld F sb :
  crep (m_heap m) (m_root m) full inner ctx par p fld F sb → read_slot m (slot_of ctx par) = Ok p.
Proof.
  destruct ctx as [|[b s] ctx]; cbn [crep].
  - intros (-> & -> & _). done.
  - intros (l & lh & rh & pl & pr & par' & fld' & Fs & ss & F' & sb' & -> & E & Hlh & -> & _).
    cbn [slot_of read_slot]. unfold deref. rewrite E. by destruct b.
Qed.

Lemma write_slot_of m full inner ctx par p fld F sb p' :
  crep (m_heap m) (m_root m) full inner ctx par p fld F sb →
  ∃ m', write_slot m (slot_of ctx par) p' = Ok m' ∧ m_next m' = m_next m ∧
    crep (m_heap m') (m_root m') full inner ctx par p' fld F sb ∧
    (∀ l, l ∉ F → m_heap m' !! l = m_heap m !! l).
Proof.
  destruct ctx as [|[b s] ctx]; cbn [crep].
  - intros (-> & -> & -> & -> & ->). by eexists.
  - intros (l & lh & rh & pl & pr & par' & fld' & Fs & ss & F' & sb' & -> & E & Hlh & -> & -> & Hs & Hin & Hc & Hni & Hd & -> & ->).
    cbn [slot_of write_slot]. unfold deref. rewrite E, bind_Ok. eexists. split_and!; [done..| |].
    + exists l, lh, rh, (if b then pl else p'), (if b then p' else pr), par', fld', Fs, ss, F', sb'.
      cbn [write_node m_heap m_root]. rewrite lookup_insert_eq. split_and!; [done|by destruct b|done|by destruct b|by destruct b| | | |done..].
      * eapply rep_frame; [destruct b; exact Hs|]. intros l' Hl'. rewrite lookup_insert_ne; [done|set_solver].
      * destruct b; exact Hin.
      * eapply crep_frame; [done|]. intros l' Hl'. rewrite lookup_insert_ne; [done|set_solver].
    + intros l' Hl'. cbn [write_node m_heap]. rewrite lookup_insert_ne; [done|set_solver].
Qed.

(** ** Positions *)

Definition position (m : memory) (full inner : bool) (ctx : list frame) (t : tree) (par p : option nat)
    (fld : NodeKey) (sb : list NodeKey) : Prop :=
  ∃ Fc Ff sc sf,
    crep (m_heap m) (m_root m) full inner ctx par p fld Fc sc ∧
    rep (m_heap m) (length ctx) par p fld t Ff sf ∧
    Fc ## Ff ∧ (∀ l, l ∈ Fc ∪ Ff → (l < m_next m)%nat) ∧ sb ≡ₚ sc ++ sf.

Lemma position_slot m full inner ctx t par p fld sb :
  position m full inner ctx t par p fld sb → read_slot m (slot_of ctx par) = Ok p.
Proof. intros (Fc & Ff & sc & sf & Hc & _). by eapply read_slot_of. Qed.

Lemma position_nil m full inner inner' t par p fld sb :
  position m full inner [] t par p fld sb → position m full inner' [] t par p fld sb.
Proof. done. Qed.

Lemma position_perm m full inner ctx t par p fld sb sb' :
  sb ≡ₚ sb' → position m full inner ctx t par p fld sb → position m full inner ctx t par p fld sb'.
Proof. intros E (Fc & Ff & sc & sf & ? & ? & ? & ? & Es). exists Fc, Ff, sc, sf. by rewrite <-E. Qed.

(** Down to a child. *)
Lemma position_down m full inner ctx tl tr par l fld sb b inner' :
  position m full inner ctx (Branch tl tr) par (Some l) fld sb → (inner = full ∨ ctx = []) →
  ∃ lh rh pl pr, m_heap m !! l = Some (mkNode lh (Some rh) false par pl pr) ∧ lh ∈ known ∧
    ((inner' = true → (if b : bool then pl else pr) = None → (if b then tl else tr) = Empty) →
     position m full inner' ((b, if b then tl else tr) :: ctx) (if b then tr else tl) (Some l)
       (if b then pr else pl) (if b then rh else lh) sb).
Proof.
  intros (Fc & Ff & sc & sf & Hc & Hr & Hd & Hb & Es) Hinner. cbn [rep] in Hr.
  destruct Hr as (lh & rh & pl & pr & Fl & Fr & sl & sr & E & Hlh & Hl & Hr & Hni & Hdl & -> & ->).
  exists lh, rh, pl, pr. split_and!; [done..|]. intros Hin.
  assert (crep (m_heap m) (m_root m) full full ctx par (Some l) fld Fc sc) as Hc'
    by (destruct Hinner as [->| ->]; done).
  exists ({[l]} ∪ (if b then Fl else Fr) ∪ Fc), (if b then Fr else Fl), ((if b then sl else sr) ++ sc), (if b then sr else sl).
  cbn [crep length]. split_and!.
  - exists l, lh, rh, pl, pr, par, fld, (if b then Fl else Fr), (if b then sl else sr), Fc, sc.
    split_and!; [done..|by destruct b|done|done|destruct b; set_solver|destruct b; set_solver|done|done].
  - by destruct b.
  - destruct b; set_solver.
  - intros l' Hl'. apply Hb. destruct b; set_solver.
  - rewrite Es. destruct b; rewrite <-?(assoc_L (++)), (Permutation_app_comm sc); [|rewrite (Permutation_app_comm sl)];
      rewrite <-?(assoc_L (++)); f_equiv; apply Permutation_app_comm.
Qed.

(** Up to the parent. *)
Lemma position_up m full inner ctx b s t par p fld sb :
  position m full inner ((b, s) :: ctx) t par p fld sb →
  ∃ l lh rh pl pr par' fld', par = Some l ∧ m_heap m !! l = Some (mkNode lh (Some rh) false par' pl pr) ∧ lh ∈ known ∧
    p = (if b then pr else pl) ∧ fld = (if b then rh else lh) ∧
    (inner = true → (if b then pl else pr) = None → s = Empty) ∧
    position m full full ctx (if b then Branch s t else Branch t s) par' (Some l) fld' sb.
Proof.
  intros (Fc & Ff & sc & sf & Hc & Hr & Hd & Hb & Es). cbn [crep] in Hc.
  destruct Hc as (l & lh & rh & pl & pr & par' & fld' & Fs & ss & F' & sb' & -> & E & Hlh & -> & -> & Hs & Hin & Hc & Hni & Hds & -> & ->).
  exists l, lh, rh, pl, pr, par', fld'. split_and!; try done.
  exists F', ({[l]} ∪ Fs ∪ Ff), sb', (if b then ss ++ sf else sf ++ ss). split_and!.
  - done.
  - cbn [length] in Hr. destruct b; cbn [rep].
    + exists lh, rh, pl, pr, Fs, Ff, ss, sf. split_and!; [done..|set_solver|set_solver|set_solver|done].
    + exists lh, rh, pl, pr, Ff, Fs, sf, ss. split_and!; [done..|set_solver|set_solver|set_solver|done].
  - set_solver.
  - intros l' Hl'. apply Hb. set_solver.
  - rewrite Es, (Permutation_app_comm ss), <-(assoc_L (++)). f_equiv. destruct b; [done|apply Permutation_app_comm].
Qed.

(** ** Reading nodes from the store *)

Lemma thash_known n t : tree_nodes n t ⊆ U → thash n t ∈ known.
Proof.
  intros Hsub. unfold known. destruct t as [|k v|tl tr]; [by left|right..].
  - apply (list_elem_of_fmap_2 _ _ (leaf_pre hash n k v)), Hsub. cbn. set_solver.
  - apply (list_elem_of_fmap_2 _ _ (branch_pre (thash (S n) tl) (thash (S n) tr))), Hsub. by left.
Qed.

Lemma tree_nodes_children n tl tr :
  tree_nodes n (Branch tl tr) ⊆ U → tree_nodes (S n) tl ⊆ U ∧ tree_nodes (S n) tr ⊆ U.
Proof. cbn [SmtTree.tree_nodes]. set_solver. Qed.

(** A fresh node for a subtree of the store. *)
Lemma fetch_spec m p par t :
  tree_ok p t → tree_nodes (length p) t ⊆ U → t ≠ Empty →
  ∃ nd sb, fetchNodeDataFromDb d m (thash (length p) t) par = Ok (Some (m_next m), (alloc m nd).2) ∧
    node_hashes (length p) t = thash (length p) t :: sb ∧
    ∀ h fld, h !! m_next m = Some nd → rep h (length p) par (Some (m_next m)) fld t {[m_next m]} sb.
Proof.
  intros Hok Hsub Hne. pose proof (thash_nonzero U _ _ HU Hsub Hne) as Hz.
  unfold fetchNodeDataFromDb. rewrite NodeKey_IsZero_spec, bool_decide_false by done.
  destruct t as [|k v|tl tr]; [done| |].
  - rewrite (stored_leaf hash d U) by done. rewrite bind_Ok. destruct Hok as (Hk & Hp & Hv).
    destruct (quarter_node (RemoveKeyBits k (Z.of_nat (length p))) (phash (val_pre v)) LeafCapacity)
      as (E0 & E1 & _); [by apply RemoveKeyBits_wf|apply hash_wf|apply LeafCapacity_wf|].
    unfold leaf_pre. rewrite E0, E1. eexists _, []. split; [done|]. split; [done|].
    intros h fld Eh. cbn [rep]. by split_and!.
  - rewrite (stored_branch hash d U) by done. rewrite bind_Ok.
    destruct (quarter_node (thash (S (length p)) tl) (thash (S (length p)) tr) BranchCapacity)
      as (E0 & E1 & _); [by apply thash_wf..|apply nk_zero_wf|].
    apply tree_nodes_children in Hsub as [Hl Hr].
    unfold branch_pre. rewrite E0, E1. eexists _, (node_hashes (S (length p)) tl ++ node_hashes (S (length p)) tr).
    split; [done|]. split; [unfold node_hashes; cbn [inner_nodes]; csimpl; by rewrite fmap_app|].
    intros h fld Eh. cbn [rep]. eexists _, _, None, None, ∅, ∅, _, _.
    split_and!; [done|by apply thash_known|by apply rep_stub|by apply rep_stub|set_solver|set_solver|set_solver|done].
Qed.

(** The pointer at the position is read, if it is not in memory. *)
Lemma load_spec m full inner ctx t par fld sb :
  position m full inner ctx t par None fld sb → tree_ok (cpath ctx) t → t ≠ Empty →
  ∃ l m1 m' sb', fetchNodeDataFromDb d m fld par = Ok (Some l, m1) ∧
    write_slot m1 (slot_of ctx par) (Some l) = Ok m' ∧
    position m' full inner ctx t par (Some l) fld sb' ∧ sb ≡ₚ fld :: sb' ∧ fld ≠ nk_zero ∧ keeps_parents m m'.
Proof.
  intros (Fc & Ff & sc & sf & Hc & Hr & Hd & Hb & Es) Hok Hne.
  apply rep_stub in Hr as (-> & Hsub & -> & ->). rewrite <-length_cpath in *.
  destruct (fetch_spec m (cpath ctx) par t Hok Hsub Hne) as (nd & sb' & Ef & Eh & Hrep).
  set (m1 := (alloc m nd).2) in *. exists (m_next m), m1.
  assert (∀ l, l ∈ Fc → m_heap m1 !! l = m_heap m !! l) as Hfr.
  { intros l Hl. cbn. rewrite lookup_insert_ne; [done|]. specialize (Hb l). set_solver by lia. }
  apply (crep_frame _ (m_heap m1)) in Hc; [|done].
  destruct (write_slot_of m1 full inner ctx par None _ Fc sc (Some (m_next m)) Hc) as (m' & Ew & Hn & Hc' & Hfr').
  exists m', (sc ++ sb'). split_and!; [done..| | |by eapply thash_nonzero|].
  - assert (m_next m ∉ Fc) as Hnf by (intros Hin; specialize (Hb (m_next m)); set_solver by lia).
    exists Fc, {[m_next m]}, sc, sb'. split_and!; [done| |set_solver| |done].
    + rewrite <-length_cpath. apply Hrep. rewrite Hfr' by done. cbn. by rewrite lookup_insert_eq.
    + intros l [Hl|Hl]%elem_of_union; rewrite Hn; cbn.
      * specialize (Hb l). enough (l < m_next m)%nat by lia. apply Hb. set_solver.
      * apply elem_of_singleton in Hl as ->. lia.
  - rewrite Es, Eh. by rewrite Permutation_middle.
  - intros l n En Hl. apply (write_slot_parents _ _ _ _ Ew); cbn; [|lia]. by rewrite lookup_insert_ne by lia.
Qed.

(** The visited hashes that are hashes of nodes. *)
Definition nonzero (vis : list NodeKey) : list NodeKey := filter (λ h, h ≠ nk_zero) vis.

Lemma nonzero_app v1 v2 : nonzero (v1 ++ v2) = nonzero v1 ++ nonzero v2.
Proof. apply filter_app. Qed.

Lemma load_slot_spec m full inner ctx t par p fld sb level vis :
  position m full inner ctx t par p fld sb → tree_ok (cpath ctx) t → t ≠ Empty →
  ∃ l m' vis' sb', load_slot d m level par fld (slot_of ctx par) vis = Ok (Some l, vis ++ vis', m') ∧
    position m' full inner ctx t par (Some l) fld sb' ∧ sb ≡ₚ nonzero vis' ++ sb'.
Proof.
  intros Hpos Hok Hne. unfold load_slot. rewrite (position_slot _ _ _ _ _ _ _ _ _ Hpos), bind_Ok.
  destruct p as [l|]; [exists l, m, [], sb; by rewrite app_nil_r|].
  destruct (load_spec _ _ _ _ _ _ _ _ Hpos Hok Hne) as (l & m1 & m' & sb' & Ef & Ew & Hpos' & Es & Hz & _).
  rewrite NodeKey_IsZero_spec, bool_decide_false, Ef, bind_Ok, Ew, bind_Ok by done.
  exists l, m', [fld], sb'. split_and!; [done..|]. unfold nonzero. by rewrite filter_cons_True.
Qed.

(** A child is read; [inner] carries over what is known of its sibling. *)
Lemma load_child_spec m full ctx tl tr par l fld sb b inner vis :
  position m full full ctx (Branch tl tr) par (Some l) fld sb → tree_ok [] (rplug ctx (Branch tl tr)) →
  (inner = true → ∀ n, m_heap m !! l = Some n → child n (Z.b2z (negb b)) = None → (if b then tl else tr) = Empty) →
  ∃ m' vis' sb' fld', load_child d m l (Z.b2z b) vis = Ok (vis ++ vis', m') ∧
    position m' full full ctx (Branch tl tr) par (Some l) fld' sb' ∧ sb ≡ₚ nonzero vis' ++ sb' ∧
    (∀ n, m_heap m' !! l = Some n → child n (Z.b2z b) = None → (if b then tr else tl) = Empty) ∧
    (inner = true → ∀ n, m_heap m' !! l = Some n → child n (Z.b2z (negb b)) = None → (if b then tl else tr) = Empty).
Proof.
  intros Hpos Hok Hin. apply rplug_ok_branch in Hok as (Hlen & Hn & Hl & Hr).
  destruct (position_down m full full ctx tl tr par l fld sb b inner Hpos) as (lh & rh & pl & pr & E & Hlh & Hdown); [by left|].
  pose proof Hpos as (Fc0 & Ff0 & sc0 & sf0 & Hc0 & Hr0 & _ & Hlt & _).
  unfold load_child. rewrite (deref_node _ _ _ E), bind_Ok.
  rewrite child_b2z, next_b2z.
  assert (inner = true → (if b then pl else pr) = None → (if b then tl else tr) = Empty) as Hin'
    by (intros Hi Hp; apply (Hin Hi _ E); by destruct b).
  specialize (Hdown Hin'). destruct (if b then pr else pl) as [c|] eqn:Ec.
  { exists m, [], sb, fld. rewrite app_nil_r. split_and!; [done..| |done].
    intros n En. rewrite E in En. injection En as <-. destruct b; cbn in *; congruence. }
  cbn [not_nil]. rewrite bind_Ok. destruct (decide ((if b then tr else tl) = Empty)) as [Ee|Ene].
  - pose proof Hdown as (Fc & Ff & sc & sf & _ & Hrep & _). apply rep_stub in Hrep as (Eh & _).
    rewrite Ee in Eh. cbn in Eh. unfold fetchNodeDataFromDb. rewrite Eh. cbn [NodeKey_IsZero]. cbn [write_slot].
    change (NodeKey_IsZero nk_zero) with true. cbn iota. rewrite bind_Ok, (deref_node _ _ _ E), !bind_Ok.
    replace (set_child_ptr _ _ _) with (mkNode lh (Some rh) false par pl pr) by (destruct b; cbn in *; by subst).
    replace (write_node m l _) with m by (unfold write_node; rewrite insert_id by done; by destruct m).
    exists m, [nk_zero], sb, fld. by split_and!.
  - destruct (load_spec _ _ _ _ _ _ _ _ Hdown) as (c & m1 & m' & sb' & Ef & Ew & Hpos' & Es & Hz & Hpar);
      [cbn [cpath]; by destruct b|done|].
    cbn [slot_of] in Ew. rewrite Ef, bind_Ok, Ew, bind_Ok.
    apply position_up in Hpos' as (l' & lh' & rh' & pl' & pr' & par' & fld' & [= <-] & E' & _ & Ep & _ & Hin2 & Hpos').
    assert (par' = par) as ->.
    { destruct (Hpar _ _ E) as (n' & En' & Epn); [|rewrite E' in En'; by injection En' as <-].
      apply Hlt, elem_of_union. right. cbn [rep] in Hr0. destruct Hr0 as (?&?&?&?&?&?&?&?&_&_&_&_&_&_&->&_). set_solver. }
    exists m', [if b then rh else lh], sb', fld'. split_and!; [done|by destruct b| | |].
    + unfold nonzero. by rewrite filter_cons_True.
    + intros n En. rewrite E' in En. injection En as <-. destruct b; cbn in *; congruence.
    + intros Hi n En. rewrite E' in En. injection En as <-. intros Hc. apply (Hin2 Hi). by destruct b.
Qed.

(** Children that are not in memory are empty. *)
Definition children_loaded (m : memory) (l : nat) (tl tr : tree) : Prop :=
  ∀ n b, m_heap m !! l = Some n → child n (Z.b2z b) = None → (if b : bool then tr else tl) = Empty.

Lemma load_children_spec m full ctx tl tr par l fld sb vis :
  position m full full ctx (Branch tl tr) par (Some l) fld sb → tree_ok [] (rplug ctx (Branch tl tr)) →
  ∃ m' vis' sb' fld',
    (if full then '(visited, m) ← load_child d m l 0 vis; load_child d m l 1 visited else Ok (vis, m)) =
      Ok (vis ++ vis', m') ∧
    position m' full full ctx (Branch tl tr) par (Some l) fld' sb' ∧ sb ≡ₚ nonzero vis' ++ sb' ∧
    (full = true → children_loaded m' l tl tr).
Proof.
  intros Hpos Hok. destruct full; [|exists m, [], sb, fld; by rewrite app_nil_r].
  destruct (load_child_spec m true ctx tl tr par l fld sb false false vis) as (m1 & v1 & sb1 & f1 & E1 & Hp1 & Es1 & Hl1 & _);
    [done..|].
  destruct (load_child_spec m1 true ctx tl tr par l f1 sb1 true true (vis ++ v1))
    as (m2 & v2 & sb2 & f2 & E2 & Hp2 & Es2 & Hr2 & Hl2); [done..|].
  exists m2, (v1 ++ v2), sb2, f2. cbn [Z.b2z] in E1, E2. rewrite E1, bind_Ok, E2. split_and!.
  - by rewrite (assoc_L (++)).
  - done.
  - by rewrite nonzero_app, <-(assoc_L (++)), <-Es2.
  - intros _ n [] En; [by apply Hr2|by apply (Hl2 eq_refl)].
Qed.

(** Where findInsertingPoint stops: at a leaf, or at a branch without a child in
    the direction of the key. *)
Definition stopped (m : memory) (full : bool) (k : NodeKey) (n : nat) (t : tree) (l : nat) : Prop :=
  match t with
  | Empty => False
  | Leaf _ _ => True
  | Branch tl tr => (if keybit k n then tr else tl) = Empty ∧ (full = true → children_loaded m l tl tr)
  end.

Lemma find_spec full k t : ∀ ctx par p fld m sb vis,
  position m full full ctx t par p fld sb → tree_ok [] (rplug ctx t) → has_path (cpath ctx) k → t ≠ Empty →
  ∃ ctx' t' par' l fld' m' sb' vis',
    find_loop d full (drop (length ctx) (GetPath k)) m (Z.of_nat (length ctx) - 1) par fld (slot_of ctx par) vis =
      Ok (Z.of_nat (length ctx'), slot_of ctx' par', vis ++ vis', m') ∧
    position m' full full ctx' t' par' (Some l) fld' sb' ∧ rplug ctx' t' = rplug ctx t ∧
    has_path (cpath ctx') k ∧ sb ≡ₚ nonzero vis' ++ sb' ∧ stopped m' full k (length ctx') t' l.
Proof.
  induction t as [|k' v'|tl IHl tr IHr]; intros ctx par p fld m sb vis Hpos Hok Hp Hne; [done| |].
  - destruct (load_slot_spec m full full ctx _ par p fld sb (Z.of_nat (length ctx) - 1) vis Hpos) as (l & m' & vis' & sb' & E & Hpos' & Es);
      [by apply rplug_ok in Hok as [? _]|done|].
    exists ctx, (Leaf k' v'), par, l, fld, m', sb', vis'. split_and!; try done.
    pose proof Hpos' as (Fc & Ff & sc & sf & _ & Hr & _). cbn [rep] in Hr. destruct Hr as (El & _).
    destruct (drop (length ctx) (GetPath k)); cbn [find_loop]; rewrite E, bind_Ok, (deref_node _ _ _ El), bind_Ok; cbn [leaf];
      do 4 f_equal; lia.
  - destruct (load_slot_spec m full full ctx _ par p fld sb (Z.of_nat (length ctx) - 1) vis Hpos) as (l & m1 & v1 & sb1 & E1 & Hpos1 & Es1);
      [by apply rplug_ok in Hok as [? _]|done|].
    destruct (load_children_spec m1 full ctx tl tr par l fld sb1 (vis ++ v1)) as (m2 & v2 & sb2 & f2 & E2 & Hpos2 & Es2 & Hld);
      [done..|].
    pose proof (rplug_ok_branch _ _ _ Hok) as (Hlen & _ & Hol & Hor).
    rewrite drop_GetPath by done. cbn [find_loop]. rewrite E1, bind_Ok.
    destruct (position_down m1 full full ctx tl tr par l fld sb1 false false Hpos1) as (lh1 & rh1 & pl1 & pr1 & En1 & _); [by left|].
    rewrite (deref_node _ _ _ En1), bind_Ok. cbn [leaf]. rewrite E2, bind_Ok. clear lh1 rh1 pl1 pr1 En1.
    set (b := keybit k (length ctx)).
    destruct (position_down m2 full full ctx tl tr par l f2 sb2 b full Hpos2) as (lh & rh & pl & pr & En & Hlh & Hdown); [by left|].
    rewrite (deref_node _ _ _ En), bind_Ok, child_b2z, next_b2z. cbn [not_nil]. rewrite bind_Ok.
    replace (Z.of_nat (length ctx) - 1 + 1) with (Z.of_nat (length ctx)) by lia.
    assert (full = true → (if b then pl else pr) = None → (if b then tl else tr) = Empty) as Hsib.
    { intros Hfull Hpn. specialize (Hld Hfull _ (negb b) En). rewrite child_b2z in Hld. destruct b; by apply Hld. }
    specialize (Hdown Hsib).
    assert (sb ≡ₚ nonzero (v1 ++ v2) ++ sb2) as Es by (by rewrite nonzero_app, <-(assoc_L (++)), <-Es2).
    destruct (decide ((if b then tr else tl) = Empty)) as [Ee|Ene].
    + pose proof Hdown as (Fc & Ff & sc & sf & _ & Hr & _). rewrite Ee in Hr.
      destruct (if b then pr else pl) as [c|] eqn:Ep; [by cbn in Hr|].
      apply rep_stub in Hr as (-> & _). cbn [SmtTree.thash]. change (NodeKey_IsZero nk_zero) with true. cbn iota.
      exists ctx, (Branch tl tr), par, l, f2, m2, sb2, (v1 ++ v2). rewrite <-(assoc_L (++)).
      split_and!; [done..|]. by split.
    + assert (IH : ∀ ctx par p fld m sb vis,
        position m full full ctx (if b then tr else tl) par p fld sb → tree_ok [] (rplug ctx (if b then tr else tl)) →
        has_path (cpath ctx) k → ∃ ctx' t' par' l fld' m' sb' vis',
          find_loop d full (drop (length ctx) (GetPath k)) m (Z.of_nat (length ctx) - 1) par fld (slot_of ctx par) vis =
            Ok (Z.of_nat (length ctx'), slot_of ctx' par', vis ++ vis', m') ∧
          position m' full full ctx' t' par' (Some l) fld' sb' ∧ rplug ctx' t' = rplug ctx (if b then tr else tl) ∧
          has_path (cpath ctx') k ∧ sb ≡ₚ nonzero vis' ++ sb' ∧ stopped m' full k (length ctx') t' l)
        by (intros; destruct b; [eapply IHr|eapply IHl]; eassumption).
      destruct (IH _ _ _ _ _ _ ((vis ++ v1) ++ v2) Hdown) as (ctx' & t' & par' & l' & f' & m' & sb' & v' & E & H1 & H2 & H3 & H4 & H5);
        [by destruct b|cbn [cpath]; apply has_path_snoc; by rewrite length_cpath|].
      cbn [length slot_of] in E. replace (Z.of_nat (S (length ctx)) - 1) with (Z.of_nat (length ctx)) in E by lia.
      exists ctx', t', par', l', f', m', sb', (v1 ++ v2 ++ v').
      rewrite !(assoc_L (++)). split_and!; [|done|rewrite H2; by destruct b|done| |done].
      * rewrite <-E. destruct (if b then pr else pl) as [c|] eqn:Ep; [done|].
        pose proof Hdown as (Fc & Ff & sc & sf & _ & Hr & _). apply rep_stub in Hr as (-> & Hsub & _).
        rewrite NodeKey_IsZero_spec, bool_decide_false; [done|]. by eapply thash_nonzero.
      * rewrite nonzero_app, <-(assoc_L (++)), <-H4. exact Es.
Qed.

(** ** Insertion at a position *)

(** Memory that has changed at most in [F] and in new nodes. *)
Definition changed (F : gset nat) (m m' : memory) : Prop :=
  m_root m' = m_root m ∧ (m_next m ≤ m_next m')%nat ∧
  ∀ l, l ∉ F → (l < m_next m)%nat → m_heap m' !! l = m_heap m !! l.

Lemma changed_trans F F' m1 m2 m3 :
  changed F m1 m2 → changed F' m2 m3 → (∀ l, l ∈ F' → (l < m_next m1)%nat → l ∈ F) → changed F m1 m3.
Proof.
  intros (Hr & Hn & Hh) (Hr' & Hn' & Hh') HF. split_and!; [congruence|lia|]. intros l Hl Hlt.
  rewrite Hh' by (try lia; intros Hin; apply Hl; auto). by apply Hh.
Qed.

(** The subtree at a position is replaced in place. *)
Lemma position_update m m' full inner ctx t t' par l fld sb :
  position m full inner ctx t par (Some l) fld sb →
  (∀ Ff sf, rep (m_heap m) (length ctx) par (Some l) fld t Ff sf → (∀ x, x ∈ Ff → (x < m_next m)%nat) →
    ∃ Ff', rep (m_heap m') (length ctx) par (Some l) fld t' Ff' sf ∧ changed Ff m m' ∧
      ∀ x, x ∈ Ff' → x ∈ Ff ∨ (m_next m ≤ x < m_next m')%nat) →
  position m' full inner ctx t' par (Some l) fld sb.
Proof.
  intros (Fc & Ff & sc & sf & Hc & Hr & Hd & Hb & Es) Hup.
  destruct (Hup Ff sf Hr) as (Ff' & Hr' & (Hroot & Hn & Hh) & HF'); [intros x Hx; apply Hb; set_solver|].
  exists Fc, Ff', sc, sf. split_and!; [|done| | |done].
  - rewrite Hroot. eapply crep_frame; [done|]. intros x Hx. apply Hh; [set_solver|]. apply Hb. set_solver.
  - intros x Hx Hx'. destruct (HF' x Hx') as [?|?]; [set_solver|]. specialize (Hb x). assert (x < m_next m)%nat by (apply Hb; set_solver). lia.
  - intros x [Hx|Hx]%elem_of_union.
    + enough (x < m_next m)%nat by lia. apply Hb. set_solver.
    + destruct (HF' x Hx) as [?|?]; [|lia]. enough (x < m_next m)%nat by lia. apply Hb. set_solver.
Qed.

Lemma create_eq m l path level k n (b : bool) :
  go_index path level = Ok (Z.b2z b) → m_heap m !! l = Some n → child n (Z.b2z b) = None → (l < m_next m)%nat →
  createALeafInEmptyDirection m l path level k =
    Ok (m_next m, mkMemory (<[l := set_child_ptr n (Z.b2z b) (Some (m_next m))]>
      (<[m_next m := newSmtBatchNodeLeaf (RemoveKeyBits k (level + 1)) None (Some l)]> (m_heap m))) (S (m_next m)) (m_root m)).
Proof.
  intros Eb En Ec Hl. unfold createALeafInEmptyDirection. rewrite Eb, bind_Ok, (deref_node _ _ _ En), bind_Ok, Ec.
  cbn [alloc write_slot]. rewrite (deref_node _ _ n); [done|]. cbn. by rewrite lookup_insert_ne by lia.
Qed.

Lemma expand_eq m l path (n : nat) key right par (b : bool) :
  go_index path (Z.of_nat n) = Ok (Z.b2z b) → (n ≤ length path)%nat → m_heap m !! l = Some (mkNode key right true par None None) →
  expandLeafByAddingALeafInDirection m l path (Z.of_nat n) =
    Ok (m_next m, mkMemory (<[l := mkNode nk_zero (Some nk_zero) false par
        (if b then None else Some (m_next m)) (if b then Some (m_next m) else None)]>
      (<[m_next m := newSmtBatchNodeLeaf (RemoveKeyBits (JoinKey (take n path) key) (Z.of_nat n + 1)) right (Some l)]> (m_heap m)))
      (S (m_next m)) (m_root m)).
Proof.
  intros Eb Hn El. unfold expandLeafByAddingALeafInDirection. rewrite Eb, bind_Ok.
  rewrite go_slice_ok by lia. rewrite bind_Ok, (deref_node _ _ _ El), bind_Ok. cbn [alloc write_node].
  replace (Z.to_nat (Z.of_nat n - 0)) with n by lia. by destruct b.
Qed.

(** The code that separates two leaves, from the first loop on. *)
Definition separate (fuel : nat) (m : memory) (l : nat) (k k' : NodeKey) (level : Z) : outcome (nat * Z * memory) :=
  '(l, level, m) ← expand_loop fuel m l (GetPath k) (GetPath k') level;
  '(_, m) ← expandLeafByAddingALeafInDirection m l (GetPath k') level;
  '(l, m) ← createALeafInEmptyDirection m l (GetPath k) level k;
  Ok (l, level + 1, m).

(** The last assignment: the leaf gets its value. *)
Definition set_value (m : memory) (l : nat) (h : NodeKey) : outcome memory :=
  n ← deref m l;
  Ok (write_node m l (mkNode (nodeLeftHashOrRemainingKey n) (Some h) (leaf n) (parentNode n) (leftNode n) (rightNode n))).

Lemma set_value_eq m l h n :
  m_heap m !! l = Some n →
  set_value m l h = Ok (write_node m l (mkNode (nodeLeftHashOrRemainingKey n) (Some h) (leaf n) (parentNode n) (leftNode n) (rightNode n))).
Proof. intros E. unfold set_value. by rewrite (deref_node _ _ _ E). Qed.

Lemma tsplit_S N n k v k' v' :
  tsplit (S N) n k v k' v' =
    match keybit k n, keybit k' n with
    | true, true => Branch Empty (tsplit N (S n) k v k' v')
    | false, false => Branch (tsplit N (S n) k v k' v') Empty
    | true, false => Branch (Leaf k' v') (Leaf k v)
    | false, true => Branch (Leaf k v) (Leaf k' v')
    end.
Proof. done. Qed.

Lemma rep_empty h n par : rep h n par None nk_zero Empty ∅ [].
Proof. apply rep_stub. split_and!; [done|apply list_subseteq_nil|done|done]. Qed.

Lemma zero_known : nk_zero ∈ known.
Proof. by left. Qed.

(** Two leaves below the node [l], which was the second one. *)
Lemma rep_two_leaves h n par l fld k v k' v' l1 l2 (b : bool) :
  h !! l = Some (mkNode nk_zero (Some nk_zero) false par (if b then Some l1 else Some l2) (if b then Some l2 else Some l1)) →
  h !! l1 = Some (mkNode (RemoveKeyBits k' (Z.of_nat (S n))) (Some (phash (val_pre v'))) true (Some l) None None) →
  h !! l2 = Some (mkNode (RemoveKeyBits k (Z.of_nat (S n))) (Some (phash (val_pre v))) true (Some l) None None) →
  l ≠ l1 → l ≠ l2 → l1 ≠ l2 →
  rep h n par (Some l) fld (if b then Branch (Leaf k' v') (Leaf k v) else Branch (Leaf k v) (Leaf k' v')) {[l; l1; l2]} [].
Proof.
  intros El E1 E2 H01 H02 H12. destruct b; cbn [rep].
  - exists nk_zero, nk_zero, (Some l1), (Some l2), {[l1]}, {[l2]}, [], [].
    split_and!; [done|apply zero_known|done..|set_solver|set_solver|set_solver|done].
  - exists nk_zero, nk_zero, (Some l2), (Some l1), {[l2]}, {[l1]}, [], [].
    split_and!; [done|apply zero_known|done..|set_solver|set_solver|set_solver|done].
Qed.

(** One subtree below the node [l]. *)
Lemma rep_one_child h n par l fld t l1 (b : bool) F :
  h !! l = Some (mkNode nk_zero (Some nk_zero) false par (if b then None else Some l1) (if b then Some l1 else None)) →
  rep h (S n) (Some l) (Some l1) nk_zero t F [] → l ∉ F →
  rep h n par (Some l) fld (if b then Branch Empty t else Branch t Empty) ({[l]} ∪ F) [].
Proof.
  intros El Hr Hl. destruct b; cbn [rep].
  - exists nk_zero, nk_zero, None, (Some l1), ∅, F, [], [].
    refine (conj El (conj zero_known (conj (rep_empty h (S n) (Some l)) (conj Hr _)))). split_and!; [set_solver..|done].
  - exists nk_zero, nk_zero, (Some l1), None, F, ∅, [], [].
    refine (conj El (conj zero_known (conj Hr (conj (rep_empty h (S n) (Some l)) _)))). split_and!; [set_solver..|done].
Qed.

Ltac look := repeat first [rewrite lookup_insert_eq | rewrite lookup_insert_ne by lia].

Lemma separate_spec N : ∀ p fuel m l k v k' v' par fld,
  (N = 256 - length p)%nat → (length p ≤ 256)%nat → (N ≤ fuel)%nat → nk_wf k → nk_wf k' → k ≠ k' →
  has_path p k → has_path p k' → (l < m_next m)%nat →
  m_heap m !! l = Some (mkNode (RemoveKeyBits k' (Z.of_nat (length p))) (Some (phash (val_pre v'))) true par None None) →
  ∃ l2 level m1 m2 F, separate fuel m l k k' (Z.of_nat (length p)) = Ok (l2, level, m1) ∧
    set_value m1 l2 (phash (val_pre v)) = Ok m2 ∧
    rep (m_heap m2) (length p) par (Some l) fld (tsplit N (length p) k v k' v') F [] ∧ changed {[l]} m m2 ∧
    (∀ x, x ∈ F → x = l ∨ (m_next m ≤ x < m_next m2)%nat).
Proof.
  induction N as [|N IH]; intros p fuel m l k v k' v' par fld HN Hp Hf Hk Hk' Hne Hpk Hpk' Hl El.
  { destruct Hne. by apply (has_path_full p); [lia|..]. }
  destruct fuel as [|fuel]; [lia|]. unfold separate. cbn [expand_loop].
  rewrite !go_index_GetPath by lia. rewrite !bind_Ok, tsplit_S.
  set (b := keybit k (length p)). set (b' := keybit k' (length p)).
  destruct (Z.eqb_spec (Z.b2z b) (Z.b2z b')) as [Eb|Eb].
  - assert (b' = b) as Eb' by (destruct b, b'; done).
    rewrite (expand_eq m l _ (length p) _ _ par b (go_index_GetPath k (length p) ltac:(lia)) ltac:(rewrite length_GetPath; lia) El).
    rewrite bind_Ok. set (m1 := mkMemory _ _ _).
    replace (Z.of_nat (length p) + 1) with (Z.of_nat (length (p ++ [b]))) by (rewrite length_snoc; lia).
    destruct (IH (p ++ [b]) fuel m1 (m_next m) k v k' v' (Some l) nk_zero) as (l2 & lv & m2 & m3 & F & E1 & E2 & Hrep & (Hr & Hn & Hh) & HF);
      rewrite ?length_snoc; try done; try lia; try (apply has_path_snoc; by rewrite <-?Eb'); [cbn; lia| |].
    { cbn. look. rewrite (JoinKey_other k k' p) by (done || lia). unfold newSmtBatchNodeLeaf. do 3 f_equal. lia. }
    exists l2, lv, m2, m3, ({[l]} ∪ F). cbn [m_next m1] in *. split_and!.
    + rewrite <-E1. unfold separate. rewrite length_snoc. done.
    + done.
    + rewrite Eb'. replace (if b then _ else _) with (if b then Branch Empty (tsplit N (S (length p)) k v k' v') else Branch (tsplit N (S (length p)) k v k' v') Empty)
        by (by destruct b).
      rewrite length_snoc in Hrep. apply (rep_one_child _ _ _ _ _ _ (m_next m)); [|done|intros Hin%HF; lia].
      rewrite Hh by (cbn; rewrite ?elem_of_singleton; lia). cbn. by look.
    + split_and!; [done|lia|]. intros x Hx Hlt. rewrite elem_of_singleton in Hx.
      rewrite Hh by (cbn; rewrite ?elem_of_singleton; lia). cbn. by look.
    + intros x [Hx|Hx%HF]%elem_of_union; [rewrite elem_of_singleton in Hx; auto|lia].
  - assert (b' = negb b) as Eb' by (destruct b, b'; done).
    rewrite bind_Ok.
    rewrite (expand_eq m l _ (length p) _ _ par b' (go_index_GetPath k' (length p) ltac:(lia)) ltac:(rewrite length_GetPath; lia) El).
    rewrite bind_Ok.
    rewrite (create_eq _ l (GetPath k) (Z.of_nat (length p)) k _ b (go_index_GetPath k (length p) ltac:(lia)) (lookup_insert_eq _ _ _));
      [|rewrite Eb'; by destruct b|cbn; lia].
    rewrite bind_Ok. eexists _, _, _, _, {[l; m_next m; S (m_next m)]}. split; [done|].
    split; [eapply set_value_eq; cbn; look; done|].
    cbn [newSmtBatchNodeLeaf nodeLeftHashOrRemainingKey leaf parentNode leftNode rightNode write_node m_heap m_next m_root].
    rewrite JoinKey_RemoveKeyBits by (done || lia).
    replace (Z.of_nat (length p) + 1) with (Z.of_nat (S (length p))) by lia. split_and!.
    + replace (if b then _ else _) with (if b then Branch (Leaf k' v') (Leaf k v) else Branch (Leaf k v) (Leaf k' v'))
        by (rewrite Eb'; by destruct b).
      apply rep_two_leaves; [..|lia|lia|lia]; look; [|done|done]. rewrite Eb'. by destruct b.
    + split_and!; [done|cbn; lia|]. intros x Hx Hlt. cbn. assert (x ≠ l) by set_solver. by look.
    + intros x Hx. cbn. rewrite !elem_of_union, !elem_of_singleton in Hx. lia.
Qed.

Lemma set_value_tail m l h m' (level : Z) :
  set_value m l h = Ok m' →
  (n ← deref m l;
   Ok (level, write_node m l (mkNode (nodeLeftHashOrRemainingKey n) (Some h) (leaf n) (parentNode n) (leftNode n) (rightNode n)))) =
  Ok (level, m').
Proof. unfold set_value. destruct (deref m l); cbn; congruence. Qed.

Lemma insert_at_leaf m full ctx k' v' par l fld sb k v :
  position m full full ctx (Leaf k' v') par (Some l) fld sb → tree_ok [] (rplug ctx (Leaf k' v')) →
  has_path (cpath ctx) k → nk_wf k →
  ∃ level m', insert_value m l (GetPath k) (Z.of_nat (length ctx)) k (phash (val_pre v)) = Ok (level, m') ∧
    position m' full full ctx (tins (length ctx) (Leaf k' v') k v) par (Some l) fld sb.
Proof.
  intros Hpos Hok Hp Hk. apply rplug_ok in Hok as [(Hk' & Hp' & Hv') Hlen].
  pose proof Hpos as (Fc & Ff & sc & sf & _ & Hr & _). cbn [rep] in Hr. destruct Hr as (El & _). rewrite <-length_cpath in *.
  unfold insert_value. rewrite (deref_node _ _ _ El), bind_Ok. cbn [leaf]. rewrite bind_Ok, (deref_node _ _ _ El), bind_Ok.
  cbn [nodeLeftHashOrRemainingKey tins]. rewrite NodeKey_IsEqualTo_spec. case_bool_decide as Ek.
  - apply RemoveKeyBits_path_inj in Ek as ->; [|done..]. rewrite decide_True by done. rewrite bind_Ok.
    eexists _, _. split; [eapply set_value_tail, set_value_eq, El|]. cbn.
    eapply position_update; [done|]. intros F sf' Hr Hlt. cbn [rep] in Hr. destruct Hr as (_ & -> & ->).
    exists {[l]}. split; [|split].
    + cbn [rep write_node m_heap]. by rewrite lookup_insert_eq, length_cpath.
    + split_and!; [done|cbn; lia|]. intros x Hx Hlt'. cbn. rewrite lookup_insert_ne; [done|set_solver].
    + auto.
  - rewrite decide_False by congruence. rewrite go_slice_ok by (rewrite ?length_GetPath; lia).
    rewrite bind_Ok. change (drop (Z.to_nat 0) (GetPath k)) with (GetPath k).
    replace (Z.to_nat (Z.of_nat (length (cpath ctx)) - 0)) with (length (cpath ctx)) by lia.
    rewrite (JoinKey_other k k' (cpath ctx)) by done.
    pose proof Hpos as (Fc0 & Ff0 & sc0 & sf0 & _ & Hr0 & _ & Hlt0 & _). cbn [rep] in Hr0. destruct Hr0 as (_ & -> & _).
    destruct (separate_spec (256 - length (cpath ctx)) (cpath ctx) 256 m l k v k' v' par fld)
      as (l2 & lv & m1 & m2 & F & E1 & E2 & Hrep & Hch & HF); try done; try lia; [congruence|apply Hlt0; set_solver|].
    fold (separate 256 m l k k' (Z.of_nat (length (cpath ctx)))). rewrite E1, bind_Ok.
    eexists _, _. split; [by apply set_value_tail|].
    eapply position_update; [done|]. intros F' sf' Hr Hlt. cbn [rep] in Hr. destruct Hr as (_ & -> & ->).
    exists F. rewrite <-length_cpath. split; [done|]. split; [done|]. intros x Hx. apply HF in Hx as [->|?]; [|auto]. left. set_solver.
Qed.

Lemma insert_at_branch m full ctx tl tr par l fld sb k v :
  position m full full ctx (Branch tl tr) par (Some l) fld sb → tree_ok [] (rplug ctx (Branch tl tr)) →
  has_path (cpath ctx) k → nk_wf k → (if keybit k (length ctx) then tr else tl) = Empty →
  ∃ level m', insert_value m l (GetPath k) (Z.of_nat (length ctx)) k (phash (val_pre v)) = Ok (level, m') ∧
    position m' full full ctx (tins (length ctx) (Branch tl tr) k v) par (Some l) fld sb.
Proof.
  intros Hpos Hok Hp Hk He. apply rplug_ok_branch in Hok as (Hlen & _). set (b := keybit k (length ctx)) in *.
  pose proof Hpos as (Fc & Ff & sc & sf & _ & Hr & _ & Hb & _). cbn [rep] in Hr.
  destruct Hr as (lh & rh & pl & pr & Fl & Fr & sl & sr & El & Hlh & Hl & Hr & Hni & Hd & -> & ->).
  assert ((if b then pr else pl) = None) as Hp0.
  { destruct b; subst; [by destruct pr|by destruct pl]. }
  assert (l < m_next m)%nat as Hlt by (apply Hb; set_solver).
  unfold insert_value. rewrite (deref_node _ _ _ El), bind_Ok. cbn [leaf].
  rewrite (create_eq m l (GetPath k) (Z.of_nat (length ctx)) k _ b (go_index_GetPath k (length ctx) ltac:(lia)) El)
    by (rewrite ?child_b2z; done).
  set (m1 := mkMemory _ _ _). rewrite bind_Ok.
  assert (m_heap m1 !! m_next m = Some (newSmtBatchNodeLeaf (RemoveKeyBits k (Z.of_nat (length ctx) + 1)) None (Some l))) as El'
    by (cbn; by look).
  rewrite !(deref_node _ _ _ El'), !bind_Ok, (deref_node _ _ _ El'), bind_Ok.
  rewrite NodeKey_IsEqualTo_spec, bool_decide_true by done. rewrite bind_Ok.
  eexists _, _. split; [eapply set_value_tail, set_value_eq, El'|]. cbn [tins]. fold b.
  clear Hlh Hl Hr Hni Hd Hb. eapply position_update; [done|]. intros F sf Hr HFlt. cbn [rep] in Hr.
  destruct Hr as (lh' & rh' & pl' & pr' & Fl' & Fr' & sl' & sr' & El2 & Hlh & Hl & Hr & Hni & Hd & -> & ->).
  rewrite El in El2. injection El2 as <- <- <- <-.
  exists ({[l]} ∪ Fl' ∪ Fr' ∪ {[m_next m]}). cbn [newSmtBatchNodeLeaf nodeLeftHashOrRemainingKey leaf parentNode leftNode rightNode].
  set (h' := m_heap (write_node m1 _ _)).
  assert (Hout : ∀ x, x ≠ l → (x < m_next m)%nat → h' !! x = m_heap m !! x) by (intros x ? ?; cbn; by look).
  assert (Hnew : rep h' (S (length ctx)) (Some l) (Some (m_next m)) (if b then rh else lh) (Leaf k v) {[m_next m]} []).
  { cbn [rep]. unfold h'. cbn. look. split_and!; [|done..]. do 3 f_equal. lia. }
  assert (Hold : ∀ p fld t F s, rep (m_heap m) (S (length ctx)) (Some l) p fld t F s → F ⊆ Fl' ∪ Fr' →
      rep h' (S (length ctx)) (Some l) p fld t F s).
  { intros p f t F s Hrep HF. eapply rep_frame; [done|]. intros x Hx. apply Hout; [set_solver|]. apply HFlt. set_solver. }
  assert (h' !! l = Some (set_child_ptr (mkNode lh (Some rh) false par pl pr) (Z.b2z b) (Some (m_next m)))) as El'' by (cbn; by look).
  assert (m_next m ∉ Fl' ∪ Fr') as Hfresh by (intros Hin; specialize (HFlt (m_next m)); assert (m_next m < m_next m)%nat by (apply HFlt; set_solver); lia).
  split; [|split].
  - destruct b; subst; cbn in El''; cbn [rep].
    + apply rep_stub in Hr as (-> & _ & -> & ->). exists lh, nk_zero, pl, (Some (m_next m)), Fl', {[m_next m]}, sl', [].
      split_and!; try done; [apply Hold; set_solver|set_solver by lia..].
    + apply rep_stub in Hl as (-> & _ & -> & ->). exists nk_zero, rh, (Some (m_next m)), pr, {[m_next m]}, Fr', [], sr'.
      split_and!; try done; [apply Hold; set_solver|set_solver by lia..].
  - split_and!; [done|cbn; lia|]. intros x Hx Hlt'. apply Hout; [set_solver|done].
  - intros x Hx. cbn. rewrite elem_of_union, elem_of_singleton in Hx. destruct Hx as [?| ->]; [by left|right; lia].
Qed.

(** ** Deletion at a position *)

Lemma position_root m full ctx : ∀ inner t par p fld sb,
  position m full inner ctx t par p fld sb → position m full full [] (rplug ctx t) None (m_root m) rootHash sb.
Proof.
  induction ctx as [|[b s] ctx IH]; intros inner t par p fld sb Hpos.
  - pose proof Hpos as (Fc & Ff & sc & sf & (-> & -> & -> & -> & ->) & _). exact Hpos.
  - apply position_up in Hpos as (l & lh & rh & pl & pr & par' & fld' & _ & _ & _ & _ & _ & _ & Hpos).
    cbn [rplug]. by eapply IH.
Qed.

(** A position in memory is below a root in memory. *)
Lemma position_rooted m full ctx : ∀ inner t par l fld sb,
  position m full inner ctx t par (Some l) fld sb → m_root m ≠ None.
Proof.
  induction ctx as [|[b s] ctx IH]; intros inner t par l fld sb Hpos.
  - pose proof Hpos as (Fc & Ff & sc & sf & (-> & <- & _) & _). done.
  - apply position_up in Hpos as (l' & lh & rh & pl & pr & par' & fld' & _ & _ & _ & _ & _ & _ & Hpos). by eapply IH.
Qed.

(** The tree that is in memory from the root on. *)
Definition whole (m : memory) (full : bool) (t : tree) (sb : list NodeKey) : Prop :=
  position m full full [] t None (m_root m) rootHash sb ∧ m_root m ≠ None.

Lemma position_whole m full inner ctx t par l fld sb :
  position m full inner ctx t par (Some l) fld sb → whole m full (rplug ctx t) sb.
Proof. intros Hpos. split; [by eapply position_root|by eapply position_rooted]. Qed.

(** The siblings of a context are canonical. *)
Fixpoint ctx_ok (ctx : list frame) : Prop :=
  match ctx with
  | [] => True
  | (b, s) :: ctx => tree_ok (cpath ctx ++ [negb b]) s ∧ (length ctx < 256)%nat ∧ ctx_ok ctx
  end.

Lemma rplug_ctx_ok ctx : ∀ t, tree_ok [] (rplug ctx t) → ctx_ok ctx.
Proof.
  induction ctx as [|[b s] ctx IH]; intros t Hok; [done|]. cbn [rplug ctx_ok] in *.
  pose proof (IH _ Hok) as Hctx. destruct b; apply rplug_ok_branch in Hok as (? & _ & ? & ?); by split_and!.
Qed.

(** What a pointer to a subtree in memory says. *)
Lemma loaded_child h n par p fld t F sb :
  rep h n par p fld t F sb → (p = None → t = Empty) →
  match t with
  | Empty => p = None ∧ F = ∅ ∧ sb = []
  | Leaf k v => ∃ c, p = Some c ∧ F = {[c]} ∧ sb = [] ∧
      h !! c = Some (mkNode (RemoveKeyBits k (Z.of_nat n)) (Some (phash (val_pre v))) true par None None)
  | Branch _ _ => ∃ c nd, p = Some c ∧ h !! c = Some nd ∧ leaf nd = false
  end.
Proof.
  intros Hr Hp. destruct p as [c|]; destruct t as [|k v|tl tr]; try (by specialize (Hp eq_refl)); cbn [rep] in Hr.
  - done.
  - destruct Hr as (E & -> & ->). by exists c.
  - destruct Hr as (lh & rh & pl & pr & Fl & Fr & sl & sr & E & _). by eexists c, _.
  - by destruct Hr as (_ & _ & -> & ->).
Qed.

(** A branch whose only child is a leaf becomes that leaf. *)
Lemma collapse_step m ctx k v (b : bool) par l fld sb path :
  position m true true ctx (if b then Branch Empty (Leaf k v) else Branch (Leaf k v) Empty) par (Some l) fld sb →
  (if b then children_loaded m l Empty (Leaf k v) else children_loaded m l (Leaf k v) Empty) →
  (length ctx < 256)%nat → nk_wf k → has_path (cpath ctx ++ [b]) k →
  length path = 256%nat → take (length ctx) path = Z.b2z <$> cpath ctx →
  ∃ n c m', m_heap m !! l = Some n ∧ leaf n = false ∧ getTheSingleLeafAndDirectionIfAny m n = Ok (Some (c, Z.b2z b)) ∧
    collapseLeafByRemovingTheSingleLeaf m l path (Z.of_nat (length ctx)) c (Z.b2z b) =
      Ok (<[length ctx := Z.b2z b]> path, m') ∧
    m_heap m' !! l = Some (mkNode (RemoveKeyBits k (Z.of_nat (length ctx))) (Some (phash (val_pre v))) true par None None) ∧
    position m' true true ctx (Leaf k v) par (Some l) fld sb.
Proof.
  intros Hpos Hld Hlen Hk Hp Hl256 Hpath.
  pose proof Hpos as (Fc & Ff & sc & sf & _ & Hr & _ & Hb & _).
  assert (∃ lh rh pl pr c, m_heap m !! l = Some (mkNode lh (Some rh) false par pl pr) ∧
    (if b then pl = None ∧ pr = Some c else pl = Some c ∧ pr = None) ∧
    m_heap m !! c = Some (mkNode (RemoveKeyBits k (Z.of_nat (S (length ctx)))) (Some (phash (val_pre v))) true (Some l) None None))
    as (lh & rh & pl & pr & c & El & Hpp & Ec).
  { destruct b; apply rep_branch in Hr as (lh & rh & pl & pr & Fl & Fr & sl & sr & E & _ & Hrl & Hrr & _);
      apply loaded_child in Hrl; [|exact (Hld _ false E)| |exact (Hld _ false E)];
      apply loaded_child in Hrr; [|exact (Hld _ true E)| |exact (Hld _ true E)]; naive_solver. }
  eexists _, c, _. split; [done|]. split; [done|]. split.
  { unfold getTheSingleLeafAndDirectionIfAny. destruct b; destruct Hpp as [-> ->]; cbn; by rewrite (deref_node _ _ _ Ec). }
  split.
  { unfold collapseLeafByRemovingTheSingleLeaf. rewrite go_slice_ok by lia. rewrite bind_Ok.
    destruct (lookup_lt_is_Some_2 path (length ctx)) as [x Ex]; [lia|]. rewrite (go_index_lookup _ _ _ Ex), bind_Ok.
    rewrite (deref_node _ _ _ Ec), bind_Ok, (deref_node _ _ _ El), bind_Ok. rewrite Nat2Z.id.
    replace (Z.to_nat (Z.of_nat (length ctx) + 1)) with (S (length ctx)) by lia. cbn [nodeLeftHashOrRemainingKey].
    erewrite take_S_r by (apply list_lookup_insert_eq; lia). rewrite take_insert_ge, Hpath by lia.
    replace ((Z.b2z <$> cpath ctx) ++ [Z.b2z b]) with (Z.b2z <$> cpath ctx ++ [b]) by (by rewrite fmap_app).
    rewrite <-(length_cpath ctx), <-(length_snoc (cpath ctx) b). rewrite JoinKey_path; [|rewrite length_snoc, length_cpath; lia|done..].
    rewrite length_snoc. cbn [parentNode nodeRightHashOrValueHash]. done. }
  cbn [write_node m_heap]. rewrite lookup_insert_eq, length_cpath. split; [done|].
  clear Fc Ff sc sf Hr Hb. eapply position_update; [done|]. intros F sf Hr Hlt.
  exists {[l]}. assert (l ∈ F ∧ sf = []) as [HlF ->].
  { destruct b; apply rep_branch in Hr as (lh' & rh' & pl' & pr' & Fl & Fr & sl & sr & E & _ & Hrl & Hrr & _ & _ & -> & ->);
      apply loaded_child in Hrl; [|exact (Hld _ false E)| |exact (Hld _ false E)];
      apply loaded_child in Hrr; [|exact (Hld _ true E)| |exact (Hld _ true E)]; (split; [set_solver|naive_solver]). }
  split; [|split].
  - cbn [rep write_node m_heap]. by rewrite lookup_insert_eq.
  - split_and!; [done|cbn; lia|]. intros x Hx _. cbn. rewrite lookup_insert_ne; [done|set_solver].
  - set_solver.
Qed.

(** The leaf that is alone below a branch, and its side. *)
Definition single_leaf (tl tr : tree) : option (NodeKey * list Z * bool) :=
  match tl, tr with
  | Leaf k v, Empty => Some (k, v, false)
  | Empty, Leaf k v => Some (k, v, true)
  | _, _ => None
  end.

Lemma single_leaf_None tl tr :
  single_leaf tl tr = None → (1 ≤ nleaves tl + nleaves tr)%nat → mk_branch tl tr = Branch tl tr.
Proof. destruct tl, tr; cbn; intros; done || lia. Qed.

Lemma single_leaf_Some tl tr k v b :
  single_leaf tl tr = Some (k, v, b) →
  mk_branch tl tr = Leaf k v ∧ Branch tl tr = (if b then Branch Empty (Leaf k v) else Branch (Leaf k v) Empty) ∧
  (if b then tr else tl) = Leaf k v ∧ (if b then tl else tr) = Empty.
Proof. destruct tl, tr; cbn; intros E; try done; by injection E as -> -> <-. Qed.

Lemma collapse_stop fuel m full inner ctx tl tr par l fld sb path level :
  position m full inner ctx (Branch tl tr) par (Some l) fld sb → children_loaded m l tl tr →
  single_leaf tl tr = None → (1 ≤ nleaves tl + nleaves tr)%nat →
  collapse_loop fuel m (Some l) path level = Ok (level, m).
Proof.
  intros (Fc & Ff & sc & sf & _ & Hr & _) Hld Hs Hn.
  apply rep_branch in Hr as (lh & rh & pl & pr & Fl & Fr & sl & sr & E & _ & Hrl & Hrr & _).
  apply loaded_child in Hrl; [|exact (Hld _ false E)]. apply loaded_child in Hrr; [|exact (Hld _ true E)].
  destruct fuel; cbn [collapse_loop]; rewrite (deref_node _ _ _ E), bind_Ok; cbn [leaf];
    unfold getTheSingleLeafAndDirectionIfAny; cbn [leftNode rightNode];
    (destruct tl, tr; cbn in Hs, Hn; try done; try lia; 
     repeat match goal with Hx : ∃ _, _ |- _ => destruct Hx | Hx : _ ∧ _ |- _ => destruct Hx end; subst; cbn;
     repeat match goal with Hc : m_heap m !! ?c = Some _ |- context [deref m ?c] => rewrite (deref_node _ _ _ Hc); cbn end;
     repeat match goal with Hc : leaf _ = false |- _ => rewrite Hc end; done).
Qed.
Lemma collapse_once ctx fuel m tl tr k v c par l fld sb path :
  position m true true ctx (Branch tl tr) par (Some l) fld sb → children_loaded m l tl tr →
  (length ctx < 256)%nat → tree_ok (cpath ctx ++ [false]) tl → tree_ok (cpath ctx ++ [true]) tr →
  single_leaf tl tr = Some (k, v, c) → length path = 256%nat → take (length ctx) path = Z.b2z <$> cpath ctx →
  ∃ m', collapse_loop (S fuel) m (Some l) path (Z.of_nat (length ctx)) =
      collapse_loop fuel m' par (<[length ctx := Z.b2z c]> path) (Z.of_nat (length ctx) - 1) ∧
    position m' true true ctx (Leaf k v) par (Some l) fld sb ∧ tree_ok (cpath ctx) (Leaf k v) ∧ mk_branch tl tr = Leaf k v.
Proof.
  intros Hpos Hld Hlen Hl Hr Es Hpl Hpath. apply single_leaf_Some in Es as (Em & EB & Ec & Ee).
  assert (tree_ok (cpath ctx ++ [c]) (Leaf k v)) as (Hk & Hp & Hv) by (destruct c; by subst).
  destruct (collapse_step m ctx k v c par l fld sb path) as (n & cl & m1 & En & Elf & Esg & Ecl & En1 & Hpos1);
    [by rewrite <-EB|destruct c; by subst|done..|].
  exists m1. cbn [collapse_loop].
  rewrite (deref_node _ _ _ En), bind_Ok, Elf, Esg, bind_Ok, Ecl, bind_Ok, (deref_node _ _ _ En1), bind_Ok.
  split; [done|]. split; [done|]. split; [|done]. apply has_path_snoc in Hp as [Hp _]. by split_and!.
Qed.

Lemma collapse_spec ctx : ∀ fuel m tl tr par l fld sb path,
  position m true true ctx (Branch tl tr) par (Some l) fld sb → children_loaded m l tl tr →
  (length ctx < 256)%nat → tree_ok (cpath ctx ++ [false]) tl → tree_ok (cpath ctx ++ [true]) tr → ctx_ok ctx →
  (1 ≤ nleaves tl + nleaves tr)%nat → length path = 256%nat → take (length ctx) path = Z.b2z <$> cpath ctx →
  (length ctx < fuel)%nat →
  ∃ level m', collapse_loop fuel m (Some l) path (Z.of_nat (length ctx)) = Ok (level, m') ∧
    whole m' true (rreplug ctx (mk_branch tl tr)) sb.
Proof.
  induction ctx as [|[b s] ctx IH]; intros fuel m tl tr par l fld sb path Hpos Hld Hlen Hl Hr Hctx Hn Hpl Hpath Hf.
  all: destruct (single_leaf tl tr) as [[[k v] c]|] eqn:Es.
  all: try (eexists _, m; split; [by eapply collapse_stop|]; rewrite (single_leaf_None tl tr) by done;
            rewrite rreplug_branch; by eapply position_whole).
  all: destruct fuel as [|fuel]; [lia|].
  - destruct (collapse_once [] fuel m tl tr k v c par l fld sb path) as (m1 & -> & Hpos1 & _ & ->); [done..|].
    pose proof Hpos1 as (Fc & Ff & sc & sf & (-> & _) & _). eexists _, m1.
    split; [by destruct fuel|]. exact (position_whole m1 true true [] (Leaf k v) None _ _ _ Hpos1).
  - destruct (collapse_once ((b, s) :: ctx) fuel m tl tr k v c par l fld sb path) as (m1 & -> & Hpos1 & Hok & ->); [done..|].
    apply position_up in Hpos1 as (l' & lh & rh & pl & pr & par' & fld' & -> & El' & _ & Ep & _ & Hin & Hpos2).
    destruct Hctx as (Hs & Hlc & Hctx). cbn [rreplug length cpath] in *.
    assert (children_loaded m1 l' (if b then s else Leaf k v) (if b then Leaf k v else s)) as Hld2.
    { intros n2 b2 E2 Hc2. rewrite El' in E2. injection E2 as <-. rewrite child_b2z in Hc2. destruct b, b2; naive_solver. }
    replace (Z.of_nat (S (length ctx)) - 1) with (Z.of_nat (length ctx)) by lia.
    replace (if b then mk_branch s (Leaf k v) else mk_branch (Leaf k v) s)
      with (mk_branch (if b then s else Leaf k v) (if b then Leaf k v else s)) by (by destruct b).
    eapply IH; [|exact Hld2|..]; try done; try lia.
    + by destruct b.
    + by destruct b.
    + by destruct b.
    + destruct b; cbn; lia.
    + by rewrite length_insert.
    + rewrite take_insert_ge by lia. apply (f_equal (take (length ctx))) in Hpath.
      rewrite take_take, Nat.min_l, fmap_app, take_app_le in Hpath by (rewrite ?length_fmap, ?length_cpath; lia).
      rewrite Hpath. apply take_ge. rewrite length_fmap, length_cpath. lia.
Qed.

(** The leaf at a position is taken out of its parent. *)
Lemma remove_leaf m b s ctx k v par l fld sb :
  position m true true ((b, s) :: ctx) (Leaf k v) par (Some l) fld sb →
  ∃ lp np par' fld' m1, par = Some lp ∧ write_slot m (slot_of ((b, s) :: ctx) par) None = Ok m1 ∧
    m_heap m1 !! lp = Some np ∧
    let m2 := write_node m1 lp (updateHashesAfterDelete np) in
    position m2 true true ctx (if b then Branch s Empty else Branch Empty s) par' (Some lp) fld' sb ∧
    children_loaded m2 lp (if b then s else Empty) (if b then Empty else s).
Proof.
  intros (Fc & Ff & sc & sf & Hc & Hr & Hd & Hb & Es). cbn [crep] in Hc.
  destruct Hc as (lp & lh & rh & pl & pr & par' & fld' & Fs & ss & F' & sb' & -> & E & Hlh & Ep & -> & Hs & Hin & Hc & Hni & Hds & -> & ->).
  cbn [rep] in Hr. destruct Hr as (_ & -> & ->). specialize (Hin eq_refl).
  cbn [slot_of write_slot]. rewrite (deref_node _ _ _ E), bind_Ok. eexists lp, _, par', fld', _.
  split; [done|]. split; [done|]. cbn [write_node m_heap]. rewrite lookup_insert_eq. split; [done|]. cbn zeta.
  set (np := mkNode (if b then lh else nk_zero) (Some (if b then nk_zero else rh)) false par'
               (if b then pl else None) (if b then None else pr)).
  replace (updateHashesAfterDelete _) with np.
  2: { unfold np. destruct b; unfold updateHashesAfterDelete, set_child_ptr; cbn.
       - destruct pl; [done|]. rewrite (Hin eq_refl) in Hs. apply rep_stub in Hs as (-> & _). done.
       - destruct pr; [done|]. rewrite (Hin eq_refl) in Hs. apply rep_stub in Hs as (-> & _). done. }
  set (m2 := write_node _ _ np).
  assert (∀ x, x ≠ lp → m_heap m2 !! x = m_heap m !! x) as Hout by (intros x Hx; cbn; by rewrite !lookup_insert_ne).
  assert (m_heap m2 !! lp = Some np) as Enp by (cbn; by rewrite lookup_insert_eq).
  assert (rep (m_heap m2) (S (length ctx)) (Some lp) (if b then pl else pr) (if b then lh else rh) s Fs ss) as Hs2
    by (eapply rep_frame; [exact Hs|]; intros x Hx; apply Hout; set_solver).
  split; [|intros n c En; rewrite Enp in En; injection En as <-; destruct b, c; cbn; naive_solver].
  exists F', ({[lp]} ∪ Fs), sb', ss. split_and!; [| |set_solver|intros x Hx; apply Hb; set_solver|].
  - eapply crep_frame; [done|]. intros x Hx. apply Hout. set_solver.
  - destruct b; apply rep_branch.
    + exists lh, nk_zero, pl, None, Fs, ∅, ss, [].
      refine (conj Enp (conj Hlh (conj Hs2 (conj (rep_empty _ (S (length ctx)) (Some lp)) _)))).
      split_and!; [set_solver..|by rewrite app_nil_r].
    + exists nk_zero, rh, None, pr, ∅, Fs, [], ss.
      refine (conj Enp (conj zero_known (conj (rep_empty _ (S (length ctx)) (Some lp)) (conj Hs2 _)))).
      split_and!; [set_solver..|done].
  - rewrite Es, app_nil_r. apply Permutation_app_comm.
Qed.

(** What a deletion leaves behind: a tree, or nothing when the root is gone. *)
Definition result (m : memory) (full : bool) (t : tree) (sb : list NodeKey) : Prop :=
  whole m full t sb ∨ (m_root m = None ∧ t = Empty).

Lemma delete_present m ctx v par l fld sb k :
  position m true true ctx (Leaf k v) par (Some l) fld sb → tree_ok [] (rplug ctx (Leaf k v)) → has_path (cpath ctx) k →
  ∃ level m', delete_value m l (slot_of ctx par) (GetPath k) (Z.of_nat (length ctx)) k = Ok (level, m') ∧
    result m' true (tdel 0 (rplug ctx (Leaf k v)) k) sb.
Proof.
  intros Hpos Hok Hp. unfold delete_value.
  pose proof Hpos as (Fc & Ff & sc & sf & Hc & Hr & _). cbn [rep] in Hr. destruct Hr as (El & _).
  rewrite (deref_node _ _ _ El), bind_Ok. cbn [nodeLeftHashOrRemainingKey].
  rewrite NodeKey_IsEqualTo_spec, bool_decide_true, tdel_rplug by done. cbn [tdel parentNode]. rewrite decide_True by done.
  destruct ctx as [|[b s] ctx].
  - destruct Hc as (-> & _). cbn [slot_of write_slot]. rewrite !bind_Ok. by eexists _, _; split; [|right].
  - destruct (remove_leaf _ _ _ _ _ _ _ _ _ _ Hpos) as (lp & np & par' & fld' & m1 & -> & Ew & Enp & Hpos2 & Hld2).
    rewrite Ew, bind_Ok, (deref_node _ _ _ Enp), !bind_Ok. cbn [rreplug length].
    replace (Z.of_nat (S (length ctx)) - 1) with (Z.of_nat (length ctx)) by lia.
    pose proof (rplug_ctx_ok _ _ Hok) as (Hs & Hlen & Hctx). cbn [rplug cpath] in Hok, Hp.
    apply has_path_snoc in Hp as [Hp _].
    destruct (collapse_spec ctx 257 (write_node m1 lp (updateHashesAfterDelete np)) (if b then s else Empty) (if b then Empty else s)
      par' lp fld' sb (GetPath k)) as (lv & m' & Ecl & Hres);
      [by destruct b|done|done|by destruct b|by destruct b|done| |apply length_GetPath| |lia|].
    + destruct b; apply rplug_ok_branch in Hok as (_ & Hn & _); cbn in *; lia.
    + rewrite <-(length_cpath ctx). apply take_GetPath_path; [rewrite length_cpath; lia|done].
    + exists lv, m'. split; [exact Ecl|]. left. by destruct b.
Qed.

(** What remains of a key that is deleted must not be a hash of the tree, when its
    path ends at a branch. *)
Definition delete_safe (t : tree) (k : NodeKey) : Prop :=
  match branch_stop 0 t k with Some n => RemoveKeyBits k (Z.of_nat n) ∉ known | None => True end.

#[export] Instance delete_safe_dec t k : Decision (delete_safe t k).
Proof. unfold delete_safe. destruct (branch_stop 0 t k); apply _. Defined.

Lemma delete_value_spec m ctx t par l fld sb k :
  position m true true ctx t par (Some l) fld sb → tree_ok [] (rplug ctx t) → has_path (cpath ctx) k → nk_wf k →
  stopped m true k (length ctx) t l →
  delete_safe (rplug ctx t) k →
  ∃ level m', delete_value m l (slot_of ctx par) (GetPath k) (Z.of_nat (length ctx)) k = Ok (level, m') ∧
    result m' true (tdel 0 (rplug ctx t) k) sb.
Proof.
  intros Hpos Hok Hp Hk Hstop Hsafe. pose proof Hpos as (Fc & Ff & sc & sf & _ & Hr & _).
  destruct t as [|k' v'|tl tr]; [done| |].
  - destruct (rplug_ok _ _ Hok) as [(Hk' & Hp' & _) Hlen]. destruct (decide (k' = k)) as [->|Hne]; [by eapply delete_present|].
    cbn [rep] in Hr. destruct Hr as (El & _). unfold delete_value.
    rewrite (deref_node _ _ _ El), bind_Ok. cbn [nodeLeftHashOrRemainingKey]. rewrite NodeKey_IsEqualTo_spec, bool_decide_false.
    2: { rewrite <-!length_cpath. intros Ek. apply Hne. by apply (RemoveKeyBits_path_inj (cpath ctx)); [rewrite length_cpath|..]. }
    rewrite bind_Ok. cbn [collapse_loop]. rewrite (deref_node _ _ _ El), bind_Ok. eexists _, m. split; [done|]. left.
    rewrite tdel_absent; [by eapply position_whole|done..|]. rewrite tget_rplug by done. cbn. by rewrite decide_False.
  - destruct (rplug_ok_branch _ _ _ Hok) as (Hlen & Hn & Hol & Hor). destruct Hstop as [He Hld]. specialize (Hld eq_refl).
    assert (tget 0 (rplug ctx (Branch tl tr)) k = None) as Hg.
    { rewrite tget_rplug by done. cbn [tget]. destruct (keybit k (length ctx)); by subst. }
    apply rep_branch in Hr as (lh & rh & pl & pr & Fl & Fr & sl & sr & El & Hlh & _). unfold delete_value.
    rewrite (deref_node _ _ _ El), bind_Ok. cbn [nodeLeftHashOrRemainingKey]. rewrite NodeKey_IsEqualTo_spec, bool_decide_false.
    2: { unfold delete_safe in Hsafe. rewrite branch_stop_rplug in Hsafe by done. cbn [branch_stop] in Hsafe.
         destruct (keybit k (length ctx)); rewrite He in Hsafe; by intros ->. }
    rewrite bind_Ok. eexists _, m. split.
    { eapply collapse_stop; [done..| |lia].
      destruct (keybit k (length ctx)); subst; [destruct tl|destruct tr]; cbn in *; done || lia. }
    left. rewrite tdel_absent; [by eapply position_whole|done..].
Qed.

(** * The main loop *)

(** [N0] are the hashes of the nodes of the tree before the batch.  What was not
    read is not scheduled for deletion. *)
Context (N0 : list NodeKey) (HN0 : nk_zero ∉ N0).

Record stubs_ok (sb : list NodeKey) (V : gset NodeKey) : Prop := {
  so_nodup : NoDup sb;
  so_disj : ∀ x, x ∈ sb → x ∉ V;
  so_sub : sb ⊆ N0;
  so_visited : ∀ x, x ∈ V → x = nk_zero ∨ x ∈ N0;
}.

Lemma elem_of_forDelete V vis x : x ∈ updateNodeHashesForDelete V vis ↔ x ∈ V ∨ x ∈ vis.
Proof.
  unfold updateNodeHashesForDelete. revert V. induction vis as [|y vis IH]; intros V; cbn [foldl]; [set_solver|].
  rewrite IH. set_solver.
Qed.

Lemma stubs_step sb V vis sb' :
  stubs_ok sb V → sb ≡ₚ nonzero vis ++ sb' → stubs_ok sb' (updateNodeHashesForDelete V vis).
Proof.
  intros [Hnd Hd Hs Hv] E. rewrite E in Hnd. apply NoDup_app in Hnd as (_ & Hdis & Hnd').
  assert (∀ x, x ∈ sb' → x ∈ sb) as Hsub by (intros x Hx; rewrite E; set_solver).
  assert (∀ x, x ∈ vis → x ≠ nk_zero → x ∈ nonzero vis) as Hnz by (intros x ? ?; by apply list_elem_of_filter).
  split; [done| |set_solver|].
  - intros x Hx. rewrite elem_of_forDelete. intros [Hin|Hin]; [by apply (Hd x); auto|].
    apply (Hdis x); [|done]. apply Hnz; [done|]. intros ->. apply HN0, Hs, Hsub, Hx.
  - intros x. rewrite elem_of_forDelete. intros [Hin|Hin]; [auto|]. destruct (decide (x = nk_zero)); [auto|].
    right. apply Hs. rewrite E. set_solver.
Qed.

Lemma insert_one_nonempty st t k v h sb :
  position (ls_memory st) false false [] t None (m_root (ls_memory st)) rootHash sb → stubs_ok sb (ls_forDelete st) →
  tree_ok [] t → t ≠ Empty → nk_wf k → word8 v → h = Some (phash (val_pre v)) →
  (v = replicate 8 0 → delete_safe t k) →
  ∃ st' sb', insert_one d rootHash st (k, Some <$> v, h) = Ok st' ∧
    result (ls_memory st') false (tset t k v) sb' ∧ stubs_ok sb' (ls_forDelete st').
Proof.
  intros Hpos Hst0 Hok Hne Hk Hv -> Hsafe. unfold insert_one. rewrite NodeValue8_IsZero_spec by done.
  unfold findInsertingPoint, tset.
  destruct (find_spec (bool_decide (v = replicate 8 0)) k t [] None (m_root (ls_memory st)) rootHash (ls_memory st) sb [])
    as (ctx & t' & par & l & fld & m1 & sb1 & vis & E & Hpos1 & Ept & Hp & Es & Hstop); [by destruct (bool_decide _)|done|by apply has_path_nil|done|].
  cbn [length slot_of] in E. rewrite drop_0 in E. change (Z.of_nat 0 - 1) with (-1) in E. rewrite E, bind_Ok.
  rewrite (position_slot _ _ _ _ _ _ _ _ _ Hpos1), bind_Ok. cbn [app].
  pose proof (stubs_step _ _ _ _ Hst0 Es) as Hst1. cbn [rplug] in Ept. subst t.
  destruct (decide (v = replicate 8 0)) as [Ez|Ez].
  - rewrite bool_decide_true in * by done.
    destruct (delete_value_spec m1 ctx t' par l fld sb1 k) as (lv & m2 & E2 & Hres); [done..| |].
    { by apply Hsafe. }
    rewrite E2, bind_Ok. eexists _, sb1. split; [done|]. by split.
  - rewrite bool_decide_false in * by done. cbn [not_nil]. rewrite bind_Ok.
    assert (∃ lv m2, insert_value m1 l (GetPath k) (Z.of_nat (length ctx)) k (phash (val_pre v)) = Ok (lv, m2) ∧
      position m2 false false ctx (tins (length ctx) t' k v) par (Some l) fld sb1) as (lv & m2 & E2 & Hpos2).
    { destruct t' as [|k' v'|tl tr]; [done|by apply insert_at_leaf|]. apply insert_at_branch; try done. by destruct Hstop. }
    rewrite E2, bind_Ok. eexists _, sb1. split; [done|]. split; [|done]. left.
    rewrite tins_rplug by done. by eapply position_whole.
Qed.

Lemma insert_one_empty st k v h sb :
  position (ls_memory st) false false [] Empty None (m_root (ls_memory st)) rootHash sb → stubs_ok sb (ls_forDelete st) →
  nk_wf k → word8 v → h = Some (phash (val_pre v)) →
  ∃ st' sb', insert_one d rootHash st (k, Some <$> v, h) = Ok st' ∧
    result (ls_memory st') false (tset Empty k v) sb' ∧ stubs_ok sb' (ls_forDelete st').
Proof.
  intros Hpos Hst0 Hk Hv ->. pose proof Hpos as (Fc & Ff & sc & sf & (_ & _ & _ & -> & ->) & Hr & _ & Hb & Es).
  destruct (m_root (ls_memory st)) as [l|] eqn:Er; [done|]. apply rep_stub in Hr as (Ez & _ & -> & ->).
  unfold insert_one. rewrite NodeValue8_IsZero_spec by done. unfold findInsertingPoint, tset.
  rewrite <-(drop_0 (GetPath k)), drop_GetPath by lia. cbn [find_loop]. unfold load_slot. cbn [read_slot].
  rewrite Er, bind_Ok, Ez. cbn [SmtTree.thash]. change (NodeKey_IsZero nk_zero) with true. cbn [Z.eqb Pos.eqb]. rewrite !bind_Ok.
  cbn [read_slot]. rewrite Er, bind_Ok. exists (mkLoop (if decide (v = replicate 8 0) then ls_memory st else
    mkMemory (<[m_next (ls_memory st) := newSmtBatchNodeLeaf k (Some (phash (val_pre v))) None]> (m_heap (ls_memory st)))
      (S (m_next (ls_memory st))) (Some (m_next (ls_memory st)))) (ls_forDelete st) (ls_maxLevel st)), sb.
  cbn [ls_memory ls_forDelete]. destruct (decide (v = replicate 8 0)) as [Ev|Ev].
  - rewrite bool_decide_true by done. split_and!; [done| |done]. right. done.
  - rewrite bool_decide_false by done. split_and!; [done| |done]. left. split; [|done]. cbn [m_root].
    exists ∅, {[m_next (ls_memory st)]}, [], []. split; [by split_and!|].
    split; [cbn [tins rep m_heap length Z.of_nat]; by rewrite lookup_insert_eq, RemoveKeyBits_0|]. split_and!; [set_solver| |done].
    intros x Hx. assert (x = m_next (ls_memory st)) as -> by set_solver. cbn. lia.
Qed.

Lemma position_empty m full :
  m_root m = None → rootHash = nk_zero → position m full full [] Empty None (m_root m) rootHash [].
Proof.
  intros Er Ez. exists ∅, ∅, [], []. split; [by split_and!|]. split; [rewrite Er, Ez; apply rep_empty|].
  split_and!; [set_solver..|done].
Qed.

(** The updates, on trees; before each of them the tree is not empty, unless the
    batch began with the empty tree. *)
Definition tsets (t : tree) (us : list (NodeKey * list Z)) : tree := foldl (λ t u, tset t u.1 u.2) t us.

Fixpoint runs (t : tree) (us : list (NodeKey * list Z)) : Prop :=
  match us with
  | [] => True
  | (k, v) :: us =>
      (t = Empty → rootHash = nk_zero) ∧ (v = replicate 8 0 → delete_safe t k) ∧ runs (tset t k v) us
  end.

Definition with_hash (u : NodeKey * list Z) : NodeKey * NodeValue8 * option NodeKey :=
  (u.1, Some <$> u.2, Some (phash (val_pre u.2))).

(** Before an update: the tree, in memory or not, or nothing. *)
Definition ready (m : memory) (full : bool) (t : tree) (sb : list NodeKey) : Prop :=
  position m full full [] t None (m_root m) rootHash sb ∨ (m_root m = None ∧ t = Empty).

Lemma result_ready m full t sb : result m full t sb → ready m full t sb.
Proof. intros [[Hpos _]|?]; [by left|by right]. Qed.

Lemma insert_all_spec us : ∀ i st t sb,
  ready (ls_memory st) false t sb → stubs_ok sb (ls_forDelete st) → tree_ok [] t → updates_wf us → runs t us →
  ∃ st' sb', insert_all (λ _, false) d rootHash i st (with_hash <$> us) = Ok st' ∧
    ready (ls_memory st') false (tsets t us) sb' ∧ stubs_ok sb' (ls_forDelete st') ∧
    (us ≠ [] → m_root (ls_memory st') = None → tsets t us = Empty).
Proof.
  induction us as [|[k v] us IH]; intros i st t sb Hres Hst0 Hok Hwf Hruns; [by exists st, sb|].
  apply Forall_cons in Hwf as [[Hk Hv] Hwf]. destruct Hruns as (Hz & Hsafe & Hruns). cbn in Hk, Hv.
  assert (∃ sb0, position (ls_memory st) false false [] t None (m_root (ls_memory st)) rootHash sb0 ∧
    stubs_ok sb0 (ls_forDelete st)) as (sb0 & Hpos & Hst1).
  { destruct Hres as [Hpos|[Er ->]]; [by exists sb|]. exists []. split.
    - by apply position_empty; [|apply Hz].
    - destruct Hst0 as [_ _ _ Hv0]. split; [constructor|set_solver..|done]. }
  assert (∃ st' sb', insert_one d rootHash st (k, Some <$> v, Some (phash (val_pre v))) = Ok st' ∧
    result (ls_memory st') false (tset t k v) sb' ∧ stubs_ok sb' (ls_forDelete st')) as (st1 & sb1 & E & Hres1 & Hst2).
  { destruct (decide (t = Empty)) as [->|Hne]; [by eapply insert_one_empty|by eapply insert_one_nonempty]. }
  change (with_hash <$> (k, v) :: us) with (with_hash (k, v) :: (with_hash <$> us)). cbn [insert_all].
  change (insert_one d rootHash st (with_hash (k, v)) = Ok st1) in E. rewrite E, bind_Ok.
  destruct (IH (S i) st1 (tset t k v) sb1) as (st2 & sb2 & E2 & Hr2 & Hs2 & Hroot); try done.
  { by apply result_ready. }
  { by apply tset_ok. }
  exists st2, sb2. split_and!; [done..|]. intros _ Hr. destruct us; [|by apply Hroot].
  cbn in E2. injection E2 as ->. by destruct Hres1 as [[_ ?]|[_ ?]].
Qed.
End Rep.
