(* ===== verification/SmtBatchRefine.v ===== *)
(** InsertBatch as an operation on a finite map.

    The traversal that hashes the nodes in memory computes the root of the tree
    they represent, and what it sends to the store, together with what the batch
    did not read, is the new tree.  The entries of a batch are reduced to the
    last one of every key before they are applied. *)

From S2P Require Import Prelude Bytes SmtUtils SmtKeys SmtDb SmtTree Smt SmtInsert SmtRefine SmtBatch SmtBatchEntries SmtBatchSpec.

Local Open Scope Z_scope.
#[local] Set Warnings "-clear-no-such-hyp".
#[local] Opaque GetPath RemoveKeyBits JoinKey tsplit.

(** * The traversal *)

Lemma total_hash a b :
  nk_wf a → nk_wf b →
  ToUintArray (set_quarter (set_quarter (replicate 8 None) 0 a) 1 b) = ConcatArrays4 a b.
Proof.
  intros Ha Hb. destruct a as [a0 a1 a2 a3], b as [b0 b1 b2 b3]. unfold nk_wf, nk_list in *. cbn in Ha, Hb.
  repeat match goal with Hx : Forall _ (_ :: _) |- _ => apply Forall_cons in Hx as [? Hx] end.
  cbn. by rewrite !big_uint64_small.
Qed.

Section Dfs.
Context (hash : list Z → NodeKey → NodeKey).
Context (hash_wf : ∀ i c, nk_wf (hash i c)).
Context (U : list preimage).

Abbreviation phash := (phash hash).
Abbreviation thash := (thash hash).
Abbreviation inner_nodes := (inner_nodes hash).

(** What is sent for a tree: its nodes and the keys of its leaves; what is not
    sent is in the store. *)
Record sent_for (n : nat) (t : tree) (sb : list NodeKey) (sent : list smtDfsHelperDataStruct) : Prop := {
  sf_all : ∀ q, q ∈ inner_nodes n t → dfsNode (phash q) (node_of q) ∈ sent ∨ (q ∈ U ∧ phash q ∈ sb);
  sf_only : ∀ x, x ∈ sent →
    (∃ q, q ∈ inner_nodes n t ∧ x = dfsNode (phash q) (node_of q)) ∨ (∃ h k, x = dfsKey h k ∧ nk_wf h ∧ nk_wf k);
}.

Lemma sent_stub n t : tree_nodes hash n t ⊆ U → sent_for n t (node_hashes hash n t) [].
Proof.
  intros Hsub. split; [|by intros x Hx%elem_of_nil]. intros q Hq. right. split.
  - apply Hsub, tree_nodes_split. by left.
  - by apply list_elem_of_fmap_2.
Qed.

Lemma sent_branch n tl tr sl sr xl xr :
  sent_for (S n) tl sl xl → sent_for (S n) tr sr xr →
  let q := branch_pre (thash (S n) tl) (thash (S n) tr) in
  sent_for n (Branch tl tr) (sl ++ sr) (xl ++ xr ++ [dfsNode (phash q) (node_of q)]).
Proof.
  intros [Hl Hl'] [Hr Hr'] q. split; cbn [SmtBatchSpec.inner_nodes].
  - intros q' [->|[Hq|Hq]%elem_of_app]%elem_of_cons.
    + left. rewrite !elem_of_app. right. right. by left.
    + destruct (Hl q' Hq) as [?|[? ?]]; [left|right]; set_solver.
    + destruct (Hr q' Hq) as [?|[? ?]]; [left|right]; set_solver.
  - intros x [Hx|[Hx|Hx]%elem_of_app]%elem_of_app.
    + destruct (Hl' x Hx) as [(q' & ? & ?)|?]; [|by right]. left. exists q'. set_solver.
    + destruct (Hr' x Hx) as [(q' & ? & ?)|?]; [|by right]. left. exists q'. set_solver.
    + apply list_elem_of_singleton in Hx as ->. left. exists q. split; [by left|done].
Qed.

Lemma dfs_spec noSave m t : ∀ p par l fld F sb,
  rep hash U (m_heap m) (length p) par (Some l) fld t F sb → tree_ok p t → (length p ≤ 256)%nat →
  ∃ sent, calculateAndSaveHashesDfs hash noSave m (256 - length p) l (Z.b2z <$> p) = Ok (thash (length p) t, sent) ∧
    (noSave = false → sent_for (length p) t sb sent).
Proof.
  induction t as [|k v|tl IHl tr IHr]; intros p par l fld F sb Hr Hok Hlen; [done| |].
  - cbn [rep] in Hr. destruct Hr as (El & -> & ->). destruct Hok as (Hk & Hp & Hv).
    destruct (256 - length p)%nat; cbn [calculateAndSaveHashesDfs]; rewrite (deref_node _ _ _ El), bind_Ok;
      cbn [leaf nodeRightHashOrValueHash not_nil nodeLeftHashOrRemainingKey]; rewrite bind_Ok, JoinKey_path by done;
      (eexists; split; [done|]; intros ->; split; cbn [SmtBatchSpec.inner_nodes]).
    1, 3: intros q ->%list_elem_of_singleton; left; by left.
    all: intros x [->|[->|[]%elem_of_nil]%elem_of_cons]%elem_of_cons; [left; eexists; split; [by left|done]|right].
    all: eexists _, _; split; [done|]; split; [apply hash_wf|done].
  - pose proof Hok as (Hl256 & _ & Hol & Hor).
    apply rep_branch in Hr as (lh & rh & pl & pr & Fl & Fr & sl & sr & El & _ & Hl & Hr & _ & _ & _ & ->).
    assert (Hch : ∀ b (c : option nat) h tc Fc sc, rep hash U (m_heap m) (S (length p)) (Some l) c h tc Fc sc →
      (∀ p par l fld F sb, rep hash U (m_heap m) (length p) par (Some l) fld tc F sb → tree_ok p tc → (length p ≤ 256)%nat →
        ∃ sent, calculateAndSaveHashesDfs hash noSave m (256 - length p) l (Z.b2z <$> p) = Ok (thash (length p) tc, sent) ∧
          (noSave = false → sent_for (length p) tc sb sent)) →
      tree_ok (p ++ [b]) tc → ∃ sent,
      match c with
      | Some c => match (256 - length p)%nat with O => Panic | S n => calculateAndSaveHashesDfs hash noSave m n c ((Z.b2z <$> p) ++ [Z.b2z b]) end
      | None => Ok (h, [])
      end = Ok (thash (S (length p)) tc, sent) ∧ (noSave = false → sent_for (S (length p)) tc sc sent)).
    { intros b c h tc Fc sc Hrc IH Hoc. destruct c as [c|].
      - replace (256 - length p)%nat with (S (256 - length (p ++ [b]))) by (rewrite length_snoc; lia).
        replace ((Z.b2z <$> p) ++ [Z.b2z b]) with (Z.b2z <$> p ++ [b]) by (by rewrite fmap_app).
        rewrite <-(length_snoc p b) in *. apply (IH (p ++ [b]) (Some l) c h Fc sc); [done..|]. rewrite length_snoc. lia.
      - apply rep_stub in Hrc as (-> & Hsub & _ & ->). exists []. split; [done|]. intros _. by apply sent_stub. }
    destruct (Hch false pl lh tl Fl sl Hl IHl Hol) as (xl & El1 & Hxl).
    destruct (Hch true pr rh tr Fr sr Hr IHr Hor) as (xr & Er1 & Hxr). clear Hch IHl IHr.
    exists (xl ++ xr ++ (if noSave then [] else [dfsNode (thash (length p) (Branch tl tr))
      (node_of (branch_pre (thash (S (length p)) tl) (thash (S (length p)) tr)))])).
    split; [|intros ->; apply sent_branch; [by apply Hxl|by apply Hxr]].
    destruct (256 - length p)%nat as [|n]; cbn [calculateAndSaveHashesDfs]; rewrite (deref_node _ _ _ El), bind_Ok;
      cbn [leaf leftNode rightNode nodeLeftHashOrRemainingKey nodeRightHashOrValueHash not_nil];
      rewrite (bind_Ok rh); cbn [Z.b2z] in El1, Er1; rewrite El1, bind_Ok, Er1, bind_Ok, total_hash by (by apply thash_wf);
      by destruct noSave.
Qed.
End Dfs.

(** * The store *)

Section Store.
Context {D : Type} {SD : SmtDB D} {SL : SmtDBLaws D}.
Context (hash : list Z → NodeKey → NodeKey).
Context (hash_wf : ∀ i c, nk_wf (hash i c)).

Abbreviation phash := (phash hash).

(** Nodes that are written and nodes that are there. *)
Context (W : list preimage) (HW : hash_good hash W).

Lemma store_node d ps q :
  q ∈ W → ps ⊆ W → preimage_wf q → stored hash d ps →
  ∃ d', db_Insert d (phash q) (node_of q) = Ok d' ∧ stored hash d' (q :: ps) ∧ same_meta d d'.
Proof.
  intros Hq Hps Hwf Hs. destruct (hashcalcAndSave_spec hash hash_wf W d ps q) as (d' & E & Hs' & Hm); [done..|].
  exists d'. split; [|done]. unfold hashcalcAndSave, hashSave in E. unfold SmtTree.phash, node_of.
  destruct (db_Insert d _ _); [|done..]. cbn in E. congruence.
Qed.

Lemma delete_nodes_spec V : ∀ d,
  Forall nk_wf V →
  ∃ d', foldM (λ d nodeHash,
      d ← errorf "DeleteByNodeKey" (db_DeleteByNodeKey d nodeHash);
      errorf "DeleteHashKey" (db_DeleteHashKey d nodeHash)) d V = Ok d' ∧ same_meta d d' ∧
    ∀ k, nk_wf k → k ∉ V → db_Get d' k = db_Get d k.
Proof.
  induction V as [|h V IH]; intros d Hwf; [by exists d|]. apply Forall_cons in Hwf as [Hh Hwf].
  destruct (law_DeleteByNodeKey d h Hh) as (d1 & E1 & Hm1 & Hg1).
  destruct (law_DeleteHashKey d1 h Hh) as (d2 & E2 & Hn2 & Hm2).
  destruct (IH d2 Hwf) as (d3 & E3 & Hm3 & Hg3). exists d3. cbn [foldM]. rewrite E1. cbn [errorf]. rewrite bind_Ok, E2.
  cbn [errorf]. rewrite bind_Ok. split_and!; [done|by repeat (eapply same_meta_trans; [done|])|].
  intros k Hk Hin. apply not_elem_of_cons in Hin as [Hne Hin]. rewrite Hg3, Hn2, Hg1; done.
Qed.

Lemma consume_spec sent : ∀ d ps,
  ps ⊆ W → stored hash d ps →
  (∀ x, x ∈ sent → (∃ q, q ∈ W ∧ preimage_wf q ∧ x = dfsNode (phash q) (node_of q)) ∨ (∃ h k, x = dfsKey h k ∧ nk_wf h ∧ nk_wf k)) →
  ∃ d', startConsumersLoop d sent = Ok d' ∧ same_meta d d' ∧ stored hash d' ps ∧
    ∀ q, q ∈ W → dfsNode (phash q) (node_of q) ∈ sent → db_Get d' (phash q) = Ok (node_of q).
Proof.
  unfold startConsumersLoop. induction sent as [|x sent IH]; intros d ps Hps Hst Hsent.
  { exists d. split_and!; [done..|]. by intros q _ Hq%elem_of_nil. }
  assert (∀ y, y ∈ sent → (∃ q, q ∈ W ∧ preimage_wf q ∧ y = dfsNode (phash q) (node_of q)) ∨
    (∃ h k, y = dfsKey h k ∧ nk_wf h ∧ nk_wf k)) as Hsent' by (intros y Hy; apply Hsent; by right).
  destruct (Hsent x) as [(q & Hq & Hwf & ->)|(h & k & -> & Hh & Hk)]; [by left| |]; cbn [foldM].
  - destruct (store_node d ps q) as (d1 & E1 & Hs1 & Hm1); [done..|].
    destruct (IH d1 (q :: ps)) as (d2 & E2 & Hm2 & Hs2 & Hg2); [set_solver|done..|].
    exists d2. rewrite E1. cbn [errorf]. rewrite bind_Ok. apply Forall_cons in Hs2 as [Hsq Hs2].
    split_and!; [done|by eapply same_meta_trans|done|].
    intros q' Hq' [E|Hin]%elem_of_cons; [|by apply Hg2]. injection E as E _.
    by rewrite (hash_good_inj W q' q HW Hq' Hq E).
  - destruct (law_InsertHashKey d h k Hh Hk) as (d1 & E1 & Hn1 & Hm1 & _).
    destruct (IH d1 ps) as (d2 & E2 & Hm2 & Hs2 & Hg2); [done|by eapply stored_same|done|].
    exists d2. rewrite E1. cbn [errorf]. rewrite bind_Ok. split_and!; [done|by eapply same_meta_trans|done|].
    intros q' Hq' [E|Hin]%elem_of_cons; [done|by apply Hg2].
Qed.

Definition value_entry (u : NodeKey * list Z) : NodeValue8 * option NodeKey :=
  (Some <$> u.2, Some (phash (val_pre u.2))).

Lemma save_spec us : ∀ d ps,
  ps ⊆ W → stored hash d ps → updates_wf us →
  (∀ k v, (k, v) ∈ us → v ≠ replicate 8 0 → val_pre v ∈ W) →
  ∃ d', saveBatchedNodeValues false d (value_entry <$> us) = Ok d' ∧ same_meta d d' ∧
    stored hash d' (ps ++ (val_pre <$> filter (λ v, v ≠ replicate 8 0) us.*2)).
Proof.
  unfold saveBatchedNodeValues. induction us as [|[k v] us IH]; intros d ps Hps Hst Hwf Hin.
  { exists d. by rewrite app_nil_r. }
  apply Forall_cons in Hwf as [[_ Hv] Hwf]. cbn in Hv.
  change (value_entry <$> (k, v) :: us) with ((Some <$> v : NodeValue8, Some (phash (val_pre v))) :: (value_entry <$> us)).
  change (((k, v) :: us).*2) with (v :: us.*2). cbn [foldM]. rewrite NodeValue8_IsZero_spec by done.
  assert (∀ k v, (k, v) ∈ us → v ≠ replicate 8 0 → val_pre v ∈ W) as Hin' by (intros k' v' ?; apply (Hin k'); by right).
  destruct (decide (v = replicate 8 0)) as [Ez|Ez].
  - rewrite bool_decide_true, bind_Ok, filter_cons_False by (by try intros []). by apply IH.
  - rewrite bool_decide_false, filter_cons_True by done. cbn [not_nil]. rewrite bind_Ok.
    assert (preimage_wf (val_pre v)) as Hwfv by (apply val_pre_wf; destruct Hv; by split_and!).
    destruct (store_node d ps (val_pre v)) as (d1 & E1 & Hs1 & Hm1); [eapply Hin; [by left|done]|done..|].
    destruct (node_of_parts (val_pre v) Hwfv) as (_ & EU & _). cbn [fst val_pre] in EU.
    change (@hashSave D SD false d (ToUintArray (Some <$> v)) BranchCapacity (phash (val_pre v)))
      with (db_Insert d (phash (val_pre v)) (ConcatArrays8AndCapacityByPointers (ToUintArray (Some <$> v)) BranchCapacity)).
    rewrite EU. change (ConcatArrays8AndCapacityByPointers v BranchCapacity) with (node_of (val_pre v)). rewrite E1, bind_Ok.
    destruct (IH d1 (val_pre v :: ps)) as (d2 & E2 & Hm2 & Hs2); [set_solver|done..|].
    exists d2. split_and!; [done|by eapply same_meta_trans|]. unfold stored in *. csimpl. by rewrite <-Permutation_middle.
Qed.
End Store.


(** * Maps and trees *)

Lemma tree_values_spec p t v :
  tree_ok p t → v ∈ tree_values t ↔ ∃ k, nk_wf k ∧ tget (length p) t k = Some v.
Proof.
  revert p. induction t as [|k' v'|tl IHl tr IHr]; intros p Hok; cbn [tree_values].
  - split; [by intros ?%elem_of_nil|by intros (k & _ & ?)].
  - destruct Hok as (Hk & Hp & Hv). rewrite list_elem_of_singleton. split.
    + intros ->. exists k'. split; [done|]. cbn. by rewrite decide_True.
    + intros (k & _ & E). cbn in E. by destruct (decide _); simplify_eq.
  - pose proof Hok as (Hlen & _ & Hl & Hr). rewrite elem_of_app, (IHl _ Hl), (IHr _ Hr), !length_snoc. split.
    + intros [(k & Hk & E)|(k & Hk & E)]; exists k; (split; [done|]).
      * by eapply tget_left.
      * by eapply tget_right.
    + intros (k & Hk & E). cbn [tget] in E. destruct (keybit k (length p)); [right|left]; by exists k.
Qed.

Lemma map_values m v :
  map_wf m → v ∈ tree_values (map_tree m) ↔ ∃ k, m !! k = Some v.
Proof.
  intros Hm. destruct (map_tree_spec m Hm) as [Hok Hmod]. rewrite (tree_values_spec [] _ v Hok). split.
  - intros (k & Hk & E). exists k. by rewrite <-Hmod.
  - intros (k & E). destruct (Hm k v E) as [Hk _]. exists k. split; [done|]. cbn [length]. by rewrite Hmod.
Qed.

Lemma map_tree_empty m : map_wf m → map_tree m = Empty → m = ∅.
Proof.
  intros Hm E. destruct (map_tree_spec m Hm) as [_ Hmod]. apply map_empty. intros k.
  destruct (m !! k) as [v|] eqn:Ev; [|done]. destruct (Hm k v Ev) as [Hk _]. by rewrite <-Hmod, E in Ev.
Qed.

Lemma tsets_map us : ∀ m, map_wf m → updates_wf us → tsets (map_tree m) us = map_tree (map_sets m us).
Proof.
  induction us as [|[k v] us IH]; intros m Hm Hwf; [done|]. apply Forall_cons in Hwf as [[Hk Hv] Hwf]. cbn in Hk, Hv.
  unfold tsets, map_sets in *. cbn [foldl fst snd]. rewrite map_tree_set by done. by apply IH; [apply map_set_wf|].
Qed.

(** * The batch *)

(** The level only grows. *)
Lemma insert_one_level {D} {SD : SmtDB D} (d : D) r st u st' :
  insert_one d r st u = Ok st' → ls_maxLevel st ≤ ls_maxLevel st'.
Proof.
  destruct u as [[k v] h]. unfold insert_one. intros E.
  apply bind_Ok_inv in E as ([[[lv s] vis] m] & _ & E). apply bind_Ok_inv in E as (cur & _ & E). destruct cur as [l|].
  - apply bind_Ok_inv in E as ([lv' m'] & _ & E). injection E as <-. cbn. case_bool; lia.
  - apply bind_Ok_inv in E as (m' & _ & E). by injection E as <-.
Qed.

Lemma insert_all_level {D} {SD : SmtDB D} c (d : D) r us : ∀ i st st',
  insert_all c d r i st us = Ok st' → ls_maxLevel st ≤ ls_maxLevel st'.
Proof.
  induction us as [|u us IH]; intros i st st' E; cbn [insert_all] in E; [by injection E as <-|].
  destruct (c i); [done|]. apply bind_Ok_inv in E as (st1 & E1 & E).
  apply insert_one_level in E1. apply IH in E. lia.
Qed.

Section Map.
Context (hash : list Z → NodeKey → NodeKey).

(** No two places of the tree have the same hash, and no value has the hash of a
    node: then deleting what a batch has read deletes nothing that it has not. *)
Definition unshared (m : gmap NodeKey (list Z)) : Prop :=
  NoDup (node_hashes hash 0 (map_tree m)) ∧
  Forall (λ v, phash hash (val_pre v) ∉ node_hashes hash 0 (map_tree m)) (tree_values (map_tree m)).

#[export] Instance unshared_dec m : Decision (unshared m).
Proof. unfold unshared. apply _. Defined.

(** The updates of a batch that started with [m0]: none of them comes after the
    tree was emptied, unless it was empty in the beginning, and where the path of a
    key that is deleted ends at a branch, what remains of the key is not a hash of
    the tree. *)
Fixpoint batch_ok (m0 m : gmap NodeKey (list Z)) (us : list (NodeKey * list Z)) : Prop :=
  match us with
  | [] => True
  | (k, v) :: us =>
      (m = ∅ → m0 = ∅) ∧ (v = replicate 8 0 → delete_safe hash (map_nodes hash m0) (map_tree m) k) ∧
      batch_ok m0 (map_set m k v) us
  end.

#[export] Instance batch_ok_dec m0 m us : Decision (batch_ok m0 m us).
Proof. revert m. induction us as [|[k v] us IH]; intros m; cbn [batch_ok]; apply _. Defined.

Lemma batch_ok_runs m0 us : ∀ m,
  map_wf m → updates_wf us → batch_ok m0 m us → runs hash (map_nodes hash m0) (map_root hash m0) (map_tree m) us.
Proof.
  induction us as [|[k v] us IH]; intros m Hm Hwf Hok; [done|]. apply Forall_cons in Hwf as [[Hk Hv] Hwf]. cbn in Hk, Hv.
  destruct Hok as (He & Hs & Hok). cbn [runs]. split; [|split].
  - intros E. by rewrite (He (map_tree_empty m Hm E)).
  - done.
  - rewrite map_tree_set by done. by apply IH; [apply map_set_wf|..].
Qed.
End Map.

Section Refine.
Context {D : Type} {SD : SmtDB D} {SL : SmtDBLaws D}.
Context (hash : list Z → NodeKey → NodeKey).
Context (hash_wf : ∀ i c, nk_wf (hash i c)).
Context (order : gset NodeKey → list NodeKey) (order_elements : ∀ X, order X ≡ₚ elements X).

(** After the deletions: what the batch has not read is still there. *)
Lemma deleteBatched_spec (d : D) m sb V :
  stored hash d (map_nodes hash m) → stubs_ok (node_hashes hash 0 (map_tree m)) sb V →
  ∃ d', deleteBatchedNodeValues order d V = Ok d' ∧ same_meta d d' ∧
    stored hash d' (filter (λ q, phash hash q ∉ V) (map_nodes hash m)).
Proof.
  intros Hst [_ _ _ Hv]. destruct (delete_nodes_spec (order V) d) as (d' & E & Hm & Hg).
  { apply Forall_forall. intros x Hx. rewrite order_elements, elem_of_elements in Hx.
    destruct (Hv x Hx) as [->|(q & -> & _)%list_elem_of_fmap]; [by apply (bool_decide_unpack _)|apply hash_wf]. }
  exists d'. split_and!; [done..|]. apply Forall_forall. intros q [Hq Hin]%list_elem_of_filter.
  rewrite Hg; [by eapply stored_elem|apply hash_wf|]. by rewrite order_elements, elem_of_elements.
Qed.

Lemma inner_nodes_wf p t q : tree_ok p t → q ∈ inner_nodes hash (length p) t → preimage_wf q.
Proof.
  revert p. induction t as [|k v|tl IHl tr IHr]; intros p Hok; cbn [inner_nodes].
  - by intros ?%elem_of_nil.
  - intros ->%list_elem_of_singleton. apply leaf_pre_wf; [done|]. apply Hok.
  - destruct Hok as (_ & _ & Hl & Hr).
    intros [->|[Hq|Hq]%elem_of_app]%elem_of_cons; [by apply branch_pre_wf; apply thash_wf| |].
    + rewrite <-(length_snoc p false) in Hq. by eapply IHl.
    + rewrite <-(length_snoc p true) in Hq. by eapply IHr.
Qed.

(** The hashes are computed and saved. *)
Lemma save_tree_spec W (d : D) ps mem m t sb :
  hash_good hash W → ps ⊆ W → stored hash d ps → tree_nodes hash 0 t ⊆ W → tree_ok [] t →
  ready hash (map_nodes hash m) (map_root hash m) mem false t sb →
  (m_root mem = None → t = Empty) →
  ∃ d', (match m_root mem with
    | None => Ok (nk_zero, d)
    | Some l =>
        '(h, sent) ← calculateAndSaveHashesDfs hash false mem 256 l [];
        d ← (if false then Ok d else errorf "saving smt hashes dfs" (startConsumersLoop d sent));
        Ok (h, d)
    end) = Ok (thash hash 0 t, d') ∧ same_meta d d' ∧ stored hash d' ps ∧
    ∀ q, q ∈ inner_nodes hash 0 t → db_Get d' (phash hash q) = Ok (node_of q) ∨ (q ∈ map_nodes hash m ∧ phash hash q ∈ sb).
Proof.
  intros HW Hps Hst Ht Hok Hready Hroot. destruct (m_root mem) as [l|] eqn:Er.
  2: { rewrite (Hroot eq_refl). exists d. split_and!; [done|by split|done|]. by intros q ?%elem_of_nil. }
  destruct Hready as [Hpos|[? _]]; [|congruence]. destruct Hpos as (Fc & Ff & sc & sf & Hc & Hr & _ & _ & Esb).
  destruct Hc as (_ & _ & _ & _ & ->). rewrite Er in Hr. cbn [length] in Hr.
  destruct (dfs_spec hash hash_wf (map_nodes hash m) false mem t [] _ l _ _ _ Hr) as (sent & E & Hsent); [done|cbn; lia|].
  destruct (Hsent eq_refl) as [Hall Honly].
  assert (∀ q, q ∈ inner_nodes hash 0 t → q ∈ W) as Hin by (intros q Hq; apply Ht, tree_nodes_split; by left).
  destruct (consume_spec hash hash_wf W HW sent d ps) as (d' & E' & Hm & Hst' & Hg); [done..| |].
  { intros x Hx. destruct (Honly x Hx) as [(q & Hq & ->)|?]; [left|by right]. exists q.
    split_and!; [by apply Hin|by apply (inner_nodes_wf [] t)|done]. }
  cbn [length Nat.sub fmap list_fmap] in E. rewrite E, bind_Ok. rewrite E'. cbn [errorf]. rewrite bind_Ok.
  exists d'. split_and!; [done..|]. intros q Hq. destruct (Hall q Hq) as [Hs|[HqU Hsb]].
  - left. by apply Hg; [apply Hin|].
  - right. split; [done|]. rewrite Esb. done.
Qed.

(** What the store must have for the new map is there. *)
Lemma stored_result (d : D) m us sb V ps :
  map_wf m → updates_wf us → NoDup us.*1 → unshared hash m → hash_good hash (map_nodes hash m) →
  stubs_ok (node_hashes hash 0 (map_tree m)) sb V →
  ps = filter (λ q, phash hash q ∉ V) (map_nodes hash m) ++ (val_pre <$> filter (λ v, v ≠ replicate 8 0) us.*2) →
  stored hash d ps →
  (∀ q, q ∈ inner_nodes hash 0 (map_tree (map_sets m us)) →
    db_Get d (phash hash q) = Ok (node_of q) ∨ (q ∈ map_nodes hash m ∧ phash hash q ∈ sb)) →
  stored hash d (map_nodes hash (map_sets m us)).
Proof.
  intros Hm Hwf Hnd [_ Hvals] Hg [_ Hdis _ Hvis] -> Hst Hin. apply Forall_forall. intros q Hq.
  apply tree_nodes_split in Hq as [Hq|(v & Hv & ->)].
  - destruct (Hin q Hq) as [?|[HqU Hsb]]; [done|]. eapply stored_elem; [exact Hst|]. apply elem_of_app. left.
    apply list_elem_of_filter. split; [by apply Hdis|done].
  - apply map_values in Hv as [k Ek]; [|by apply map_sets_wf]. eapply stored_elem; [exact Hst|]. apply elem_of_app.
    destruct (decide (k ∈ us.*1)) as [Hk|Hk].
    + right. apply list_elem_of_fmap in Hk as ([k' v'] & -> & Hu). cbn in Ek.
      rewrite (map_sets_lookup us m k' v') in Ek by done. destruct (decide _); [done|]. injection Ek as <-.
      apply list_elem_of_fmap_2, list_elem_of_filter. split; [done|]. by apply (list_elem_of_fmap_2 snd _ (k', v')).
    + left. rewrite map_sets_other in Ek by done. assert (v ∈ tree_values (map_tree m)) as Hv by (apply map_values; eauto).
      assert (val_pre v ∈ map_nodes hash m) as HvU by (apply tree_nodes_split; right; eauto).
      apply list_elem_of_filter. split; [|done]. intros HV. destruct (Hvis _ HV) as [Ez|Hh].
      * by apply (hash_good_nonzero _ _ Hg HvU).
      * rewrite Forall_forall in Hvals. by apply (Hvals v).
Qed.

Lemma initial_ready U r t :
  tree_nodes hash 0 t ⊆ U → r = thash hash 0 t →
  ready hash U r (mkMemory ∅ 0 None) false t (node_hashes hash 0 t).
Proof.
  intros Hsub ->. left. exists ∅, ∅, [], (node_hashes hash 0 t). split; [by split_and!|].
  split; [apply rep_stub; done|]. split_and!; [done|set_solver|done].
Qed.

Lemma zip_entries us :
  zip_with pair (zip_with pair us.*1 (batch_values us)) (Some ∘ phash hash ∘ val_pre <$> us.*2) = with_hash hash <$> us ∧
  zip_with pair (batch_values us) (Some ∘ phash hash ∘ val_pre <$> us.*2) = value_entry hash <$> us.
Proof. unfold batch_values. induction us as [|[k v] us [IH1 IH2]]; [done|]. csimpl. by rewrite IH1, IH2. Qed.

(** The main loop, from a tree that is not in memory. *)
Lemma loop_spec (d : D) m us :
  map_wf m → stored hash d (map_nodes hash m) → updates_wf us → us ≠ [] → unshared hash m →
  hash_good hash (map_nodes hash m) → batch_ok hash m m us →
  ∃ st sb, insert_all (λ _, false) d (map_root hash m) 0 (mkLoop (mkMemory ∅ 0 None) ∅ 0) (with_hash hash <$> us) = Ok st ∧
    ready hash (map_nodes hash m) (map_root hash m) (ls_memory st) false (map_tree (map_sets m us)) sb ∧
    stubs_ok (node_hashes hash 0 (map_tree m)) sb (ls_forDelete st) ∧
    (m_root (ls_memory st) = None → map_tree (map_sets m us) = Empty) ∧ 0 ≤ ls_maxLevel st.
Proof.
  intros Hm Hst Hwf Hne Hun HU Hok. destruct (map_tree_spec m Hm) as [Hok0 _].
  destruct (insert_all_spec hash hash_wf d (map_nodes hash m) (map_root hash m) HU Hst
    (node_hashes hash 0 (map_tree m))) with us 0%nat (mkLoop (mkMemory ∅ 0 None) ∅ 0) (map_tree m) (node_hashes hash 0 (map_tree m))
    as (st & sb & E1 & Hready & Hstubs & Hroot); [| | |done..|by apply batch_ok_runs|].
  - intros (q & Eq & Hq)%list_elem_of_fmap. apply (hash_good_nonzero _ q HU); [|done]. apply tree_nodes_split. by left.
  - by apply initial_ready.
  - split; [apply Hun|set_solver|done|set_solver].
  - rewrite tsets_map in Hready, Hroot by done. exists st, sb. split_and!; [done..|by apply Hroot|].
    apply insert_all_level in E1. exact E1.
Qed.

Lemma InsertBatch_spec cpuNum (s : SMT D) m l :
  (0 < cpuNum)%nat → smt_holds hash s m → updates_wf l → l ≠ [] → unshared hash m →
  hash_good hash (map_nodes hash m ++ map_nodes hash (map_sets m l)) → batch_ok hash m m (last_entries l) →
  ∃ s', InsertBatch hash (λ _, false) cpuNum order s l.*1 (batch_values l) None None =
      Ok (mkResponse (map_root hash (map_sets m l)) "batch insert", s') ∧
    smt_holds hash s' (map_sets m l).
Proof.
  intros Hcpu [Hm Hsv Hr Hst Hd] Hwf Hne Hun HW Hok. rewrite <-map_sets_last in *.
  assert (updates_wf (last_entries l)) as Hwfu.
  { unfold updates_wf in *. rewrite Forall_forall in *. intros u Hu. by apply Hwf, last_entries_sub. }
  pose proof (last_entries_keys l) as Hnd. pose proof (last_entries_nil l Hne) as Hneu.
  assert (hash_good hash (map_nodes hash m)) as HU by (eapply hash_good_sub; [exact HW|set_solver]).
  unfold InsertBatch. rewrite (preprocess_spec hash cpuNum (smtDb s) l (map_root hash m)); [|done..|by apply thash_wf|done].
  set (us := last_entries l) in *. destruct (zip_entries us) as [Ez1 Ez2].
  assert (map_wf (map_sets m us)) as Hm' by (by apply map_sets_wf). destruct (map_tree_spec _ Hm') as [Hok' _].
  cbn [errorf]. rewrite bind_Ok, Ez1, Ez2, Hsv.
  destruct (loop_spec (smtDb s) m us) as (st & sb & -> & Hready & Hstubs & Hroot & Hlv); [done..|]. rewrite bind_Ok.
  destruct (updateDepth_spec (smtDb s) (ls_maxLevel st)) as (d1 & -> & Hn1 & _ & Hd1 & _); [done..|]. cbn [errorf]. rewrite bind_Ok.
  destruct (deleteBatched_spec d1 m sb (ls_forDelete st)) as (d2 & -> & [_ Hdp2] & Hst2); [by eapply stored_same|done|].
  cbn [errorf]. rewrite bind_Ok.
  set (W := map_nodes hash m ++ map_nodes hash (map_sets m us)) in *. set (ps := filter _ _) in Hst2.
  assert (ps ⊆ W) as Hps by (intros q [_ Hq]%list_elem_of_filter; apply elem_of_app; by left).
  assert (∀ k v, (k, v) ∈ us → v ≠ replicate 8 0 → val_pre v ∈ W) as Hvals.
  { intros k v Hin Hv. apply elem_of_app. right. apply tree_nodes_split. right. exists v. split; [|done].
    apply map_values; [done|]. exists k. by rewrite (map_sets_lookup us m k v), decide_False. }
  destruct (save_spec hash hash_wf W HW us d2 ps) as (d3 & -> & [_ Hdp3] & Hst3); [done..|]. cbn [errorf]. rewrite bind_Ok.
  set (ps' := ps ++ _) in Hst3.
  destruct (save_tree_spec W d3 ps' (ls_memory st) m (map_tree (map_sets m us)) sb)
    as (d4 & -> & [_ Hdp4] & Hst4 & Hin4); [done| |done|intros q Hq; apply elem_of_app; by right|done..|].
  { intros q [Hq|(v & -> & [Hv ([k v'] & -> & Hu)%list_elem_of_fmap]%list_elem_of_filter)%list_elem_of_fmap]%elem_of_app; eauto. }
  rewrite bind_Ok.
  destruct (law_SetLastRoot d4 (NodeKey_ToBigInt (thash hash 0 (map_tree (map_sets m us)))))
    as (d5 & E5 & Hn5 & Hdp5 & Hr5); [by apply NodeKey_ToBigInt_range, thash_wf|].
  unfold setLastRoot. rewrite E5, bind_Ok. eexists. split; [done|]. constructor; cbn [smtDb noSaveOnInsert]; [done..| |].
  - eapply stored_same; [done| |exact Hn5]. eapply stored_result; [done..|exact Hst4|done].
  - unfold same_depth in *. congruence.
Qed.

(** A tree that is built in one batch and not saved. *)
Lemma InsertBatch_unsaved cpuNum (d : D) l :
  (0 < cpuNum)%nat → db_GetLastRoot d = Ok 0 → db_GetDepth d ≠ Panic → updates_wf l → l ≠ [] →
  batch_ok hash ∅ ∅ (last_entries l) →
  ∃ d', InsertBatch hash (λ _, false) cpuNum order (mkSMT true d) l.*1 (batch_values l) None None =
      Ok (mkResponse (map_root hash (map_sets ∅ l)) "batch insert", mkSMT true d').
Proof.
  intros Hcpu Hr Hd Hwf Hne Hok. rewrite <-(map_sets_last l ∅). set (us := last_entries l) in *.
  assert (updates_wf us) as Hwfu.
  { unfold updates_wf in *. rewrite Forall_forall in *. intros u Hu. by apply Hwf, last_entries_sub. }
  unfold InsertBatch. cbn [noSaveOnInsert smtDb].
  rewrite (preprocess_spec hash cpuNum d l (map_root hash ∅)); [|done..|by apply thash_wf|done]. fold us.
  destruct (zip_entries us) as [Ez1 Ez2]. cbn [errorf]. rewrite bind_Ok, Ez1, Ez2.
  assert (hash_good hash (map_nodes hash ∅)) as HU by constructor.
  destruct (loop_spec d ∅ us) as (st & sb & -> & Hready & Hstubs & Hroot & Hlv);
    [apply map_Forall_empty|constructor|done|by apply last_entries_nil|split; constructor|done..|]. rewrite bind_Ok.
  destruct (updateDepth_spec d (ls_maxLevel st)) as (d1 & -> & _); [done..|]. cbn [errorf]. rewrite bind_Ok.
  destruct (deleteBatched_spec d1 ∅ sb (ls_forDelete st)) as (d2 & -> & _); [constructor|done|]. cbn [errorf]. rewrite bind_Ok.
  assert (saveBatchedNodeValues true d2 (value_entry hash <$> us) = Ok d2) as ->.
  { unfold saveBatchedNodeValues. clear. induction us as [|[k v] us IH]; [done|].
    change (value_entry hash <$> (k, v) :: us) with ((Some <$> v : NodeValue8, Some (phash hash (val_pre v))) :: (value_entry hash <$> us)).
    cbn [foldM]. destruct (NodeValue8_IsZero _); rewrite bind_Ok; exact IH. }
  cbn [errorf]. rewrite bind_Ok.
  assert (map_wf (map_sets ∅ us)) as Hm by (apply map_sets_wf; [apply map_Forall_empty|done]).
  destruct (map_tree_spec _ Hm) as [Htree _].
  assert (∃ h, (match m_root (ls_memory st) with
    | None => Ok (nk_zero, d2)
    | Some l => '(h, sent) ← calculateAndSaveHashesDfs hash true (ls_memory st) 256 l []; d ← Ok d2; Ok (h, d)
    end) = Ok (h, d2) ∧ h = map_root hash (map_sets ∅ us)) as (h & -> & ->).
  { destruct (m_root (ls_memory st)) as [l0|] eqn:El.
    - destruct Hready as [Hpos|[? _]]; [|congruence]. destruct Hpos as (Fc & Ff & sc & sf & _ & Hrep & _). rewrite El in Hrep.
      destruct (dfs_spec hash hash_wf _ true _ _ [] _ l0 _ _ _ Hrep) as (sent & E & _); [done|cbn; lia|].
      cbn [length Nat.sub fmap list_fmap] in E. rewrite E, !bind_Ok. by eexists.
    - eexists. split; [done|]. unfold map_root. by rewrite (Hroot eq_refl). }
  rewrite bind_Ok. destruct (law_SetLastRoot d2 (NodeKey_ToBigInt (map_root hash (map_sets ∅ us)))) as (d5 & E5 & _);
    [by apply NodeKey_ToBigInt_range, thash_wf|].
  unfold setLastRoot. rewrite E5, bind_Ok. by eexists.
Qed.
End Refine.

(** * What InsertBatch does *)


(** An update, a deletion that is undone, a deletion and the deletion of a key
    that is not there. *)
Definition sample_batch : list (NodeKey * list Z) :=
  [(NK 1 2 3 4, replicate 8 0); (NK 3 0 0 0, [5; 0; 0; 0; 0; 0; 0; 0]); (NK 0 0 0 9, replicate 8 0);
   (NK 1 2 3 4, [8; 0; 0; 0; 0; 0; 0; 0]); (NK 2 2 3 5, replicate 8 0)].




(** An empty batch does not leave the tree as it is: whatever the store
    holds, the root becomes zero, which is the root of the empty tree. *)
Theorem InsertBatch_empty_clears_root {D : Type} {SD : SmtDB D} {SL : SmtDBLaws D} hash order cpuNum (s : SMT D) m :
  (∀ i c, nk_wf (hash i c)) → (∀ X, order X ≡ₚ elements X) → (0 < cpuNum)%nat → smt_holds hash s m →
  ∃ s', InsertBatch hash (λ _, false) cpuNum order s [] [] None None = Ok (mkResponse nk_zero "batch insert", s') ∧
    db_GetLastRoot (smtDb s') = Ok 0.
Proof.
  intros Hh Ho Hc [Hm Hsv Hr Hst Hd]. unfold InsertBatch.
  assert (preprocessBatchedNodeValues hash cpuNum (smtDb s) [] [] None None = Ok (([], [], []), map_root hash m)) as ->.
  { apply (preprocess_spec hash cpuNum (smtDb s) []); [by constructor|done|by apply thash_wf|done]. }
  cbn [errorf]. rewrite bind_Ok. cbn [insert_all zip_with]. rewrite bind_Ok. cbn [ls_maxLevel ls_forDelete ls_memory m_root].
  destruct (updateDepth_spec (smtDb s) 0) as (d1 & -> & _); [done..|]. cbn [errorf]. rewrite bind_Ok.
  unfold deleteBatchedNodeValues. assert (order ∅ = []) as -> by (by apply Permutation_nil_r; rewrite Ho).
  cbn [foldM errorf]. rewrite bind_Ok. cbn [saveBatchedNodeValues foldM errorf]. rewrite !bind_Ok.
  destruct (law_SetLastRoot d1 0) as (d2 & E2 & _ & _ & Hr2); [done|].
  unfold setLastRoot. change (NodeKey_ToBigInt nk_zero) with 0. rewrite E2, bind_Ok. by eexists.
Qed.

Lemma InsertBatch_empty_clears_root_witness :
  map_root sample_hash sample_map2 ≠ nk_zero ∧
  ∃ s', InsertBatch sample_hash (λ _, false) 2 elements sample_smt2 [] [] None None = Ok (mkResponse nk_zero "batch insert", s') ∧
    db_GetLastRoot (smtDb s') = Ok 0.
Proof.
  split; [by apply (bool_decide_unpack _); vm_compute|].
  apply (InsertBatch_empty_clears_root sample_hash elements 2 sample_smt2 sample_map2); [apply sample_hash_wf|done|lia|apply sample_smt2_holds].
Defined.

(** The root after a batch, on top of the tree of another batch. *)
Definition batch_root (l1 l2 : list (NodeKey * list Z)) : option NodeKey :=
  match Inserts sample_hash (mkSMT false MemDb.NewMemDb) l1 with
  | Ok s =>
      match InsertBatch sample_hash (λ _, false) 2 elements s l2.*1 (batch_values l2) None None with
      | Ok (r, _) => Some (NewRootScalar r)
      | _ => None
      end
  | _ => None
  end.

(** After a batch has deleted the last key of the tree, its next update starts
    again from the root that the tree had before the batch, so the deleted key is
    back: the root is that of a tree with both keys, and not with the new one. *)
Theorem InsertBatch_resurrects_last_key :
  let l1 := [(NK 1 2 3 4, [7; 0; 0; 0; 0; 0; 0; 0])] in
  let l2 := [(NK 1 2 3 4, replicate 8 0); (NK 2 0 0 0, [5; 0; 0; 0; 0; 0; 0; 0])] in
  batch_root l1 l2 = Some (map_root sample_hash (map_sets ∅ (l1 ++ drop 1 l2))) ∧
  batch_root l1 l2 ≠ Some (map_root sample_hash (map_sets ∅ (l1 ++ l2))).
Proof. split; [vm_compute; reflexivity|]. by apply (bool_decide_unpack _); vm_compute. Qed.

(** Deleting a key that is not in the tree can empty the tree: at a branch
    with nothing on the side of the key, the hash of the empty side is taken for
    the remaining key of a leaf, and the branch is removed. *)
Theorem InsertBatch_delete_absent_clears_tree :
  let l1 := [(NK 1 2 3 4, [7; 0; 0; 0; 0; 0; 0; 0]); (NK 1 2 3 5, [8; 0; 0; 0; 0; 0; 0; 0])] in
  let l2 := [(NK 0 0 0 0, replicate 8 0)] in
  map_sets ∅ (l1 ++ l2) = map_sets ∅ l1 ∧ batch_root l1 l2 = Some nk_zero ∧ map_root sample_hash (map_sets ∅ l1) ≠ nk_zero.
Proof. split_and!; by apply (bool_decide_unpack _); vm_compute. Qed.
