(* ===== verification/SmtSources.v ===== *)
(** The key sources of a store beside its tree.

    The store keeps, for a key of the tree, the field it was computed from.  The
    class [SmtDBSources] states that these records live in a table of their own:
    no operation on nodes, hash keys, root or depth changes them, and a record
    that is deleted is not found.  Both stores are instances.  A batch insertion
    keeps whatever these operations keep ([InsertBatch_keeps]), in particular
    every record ([InsertBatch_sources]). *)

From S2P Require Import Prelude Bytes SmtUtils SmtKeys SmtDb Smt SmtBatch.

Local Open Scope Z_scope.

Definition same_sources `{SmtDB D} (d d' : D) : Prop :=
  ∀ k, db_GetKeySource d' k = db_GetKeySource d k.

(** A relation between a store and the one after it that every operation on nodes,
    hash keys, root and depth keeps. *)
Class SmtDBKeeps {D : Type} `{SmtDB D} (R : D → D → Prop) := {
  keeps_preorder :: PreOrder R;
  keeps_Insert d k v d' : db_Insert d k v = Ok d' → R d d';
  keeps_DeleteByNodeKey d k d' : db_DeleteByNodeKey d k = Ok d' → R d d';
  keeps_InsertHashKey d k v d' : db_InsertHashKey d k v = Ok d' → R d d';
  keeps_DeleteHashKey d k d' : db_DeleteHashKey d k = Ok d' → R d d';
  keeps_SetLastRoot d r d' : db_SetLastRoot d r = Ok d' → R d d';
  keeps_SetDepth d x d' : db_SetDepth d x = Ok d' → R d d';
}.

#[export] Instance same_sources_preorder `{SmtDB D} : PreOrder (same_sources (D := D)).
Proof. split; [done|]. intros a b c Hab Hbc k. by rewrite Hbc, Hab. Qed.

Class SmtDBSources (D : Type) `{SmtDB D} := {
  law_DeleteKeySource d k : nk_wf k →
    ∃ d', db_DeleteKeySource d k = Ok d' ∧ same_nodes d d' ∧ same_meta d d' ∧
      db_GetKeySource d' k = Err "key not found" ∧
      ∀ k', nk_wf k' → k' ≠ k → db_GetKeySource d' k' = db_GetKeySource d k';
  sources_keeps :: SmtDBKeeps (same_sources (D := D));
}.

#[export] Instance MemDb_sources : SmtDBSources MemDb.
Proof.
  split; simpl.
  - intros d k Hk. eexists; split_and!; [done..| |].
    + simpl. unfold MemDb.GetKeySource. simpl. by rewrite lookup_delete_eq.
    + intros k' Hk' Hne. simpl. unfold MemDb.GetKeySource. simpl. rewrite lookup_delete_ne; [done|].
      intros E. by apply Hne, dec_key_inj.
  - split; simpl; [apply _|..].
    { intros d k v d' (vs & _ & [= <-])%bind_Ok_inv. done. }
    all: intros; by match goal with E : _ = Ok _ |- _ => injection E as <- end.
Qed.

(** Over a transaction it is enough that writes to the other tables keep it. *)
Lemma EriDb_keeps {T} `{KVTx T} (R : EriDb T → EriDb T → Prop) :
  PreOrder R → (∀ d b k v d', b ≠ TableMetadata → EriDb.put d b k v = Ok d' → R d d') →
  (∀ d b k d', b ≠ TableMetadata → EriDb.del d b k = Ok d' → R d d') → SmtDBKeeps R.
Proof.
  intros HR Hput Hdel. split; simpl; [done|..].
  - intros d k v d' (vs & _ & E)%bind_Ok_inv. eapply Hput; [|exact E]. done.
  - intros d k d' E. eapply Hdel; [|exact E]. done.
  - intros d k v d' E. eapply Hput; [|exact E]. done.
  - intros d k d' E. eapply Hdel; [|exact E]. done.
  - intros d r d' E. eapply Hput; [|exact E]. done.
  - intros d x d' E. eapply Hput; [|exact E]. done.
Qed.

Section EriDbSources.
Context {T : Type} `{KVTxLaws T}.
Implicit Types d : EriDb T.

Lemma put_sources d b k v d' : b ≠ TableMetadata → EriDb.put d b k v = Ok d' → same_sources d d'.
Proof.
  intros Hb E k'. destruct (put_spec d b k v) as (d1 & E1 & _ & Hf). rewrite E in E1. injection E1 as <-.
  simpl. unfold EriDb.GetKeySource. by rewrite Hf by congruence.
Qed.

Lemma del_sources d b k d' : b ≠ TableMetadata → EriDb.del d b k = Ok d' → same_sources d d'.
Proof.
  intros Hb E k'. destruct (del_spec d b k) as (d1 & E1 & _ & Hf). rewrite E in E1. injection E1 as <-.
  simpl. unfold EriDb.GetKeySource. by rewrite Hf by congruence.
Qed.

#[export] Instance EriDb_sources : SmtDBSources (EriDb T).
Proof.
  split; simpl.
  - intros d k Hk. unfold EriDb.DeleteKeySource.
    edestruct del_spec as (d' & -> & Hg & Hf). exists d'.
    destruct (frame_other d d' TableMetadata _ ltac:(done) ltac:(done) Hf) as [Hn Hr].
    split_and!; [done..| |]; unfold EriDb.GetKeySource; [by rewrite Hg|].
    intros k' Hk' Hne. rewrite Hf; [done|]. intros E. apply (f_equal snd) in E.
    by apply Hne, big_key_inj.
  - apply EriDb_keeps; [apply _|intros d b k v d' Hb; by apply put_sources|intros d b k d' Hb; by apply del_sources].
Qed.
End EriDbSources.

(** * Preservation by a batch *)

Section Keep.
Context {D : Type} {SD : SmtDB D} (R : D → D → Prop) {KR : SmtDBKeeps R}.
Context (hash : list Z → NodeKey → NodeKey).
Implicit Types d : D.

Lemma errorf_Ok {A} p (x : outcome A) a : errorf p x = Ok a → x = Ok a.
Proof. by destruct x. Qed.

(** A loop whose steps keep the relation keeps it. *)
Lemma foldM_keeps {A} (f : D → A → outcome D) l : ∀ d d',
  (∀ d x d', f d x = Ok d' → R d d') → foldM f d l = Ok d' → R d d'.
Proof.
  induction l as [|x l IH]; intros d d' Hf; cbn [foldM]; [by intros [= <-]|].
  intros (d1 & E1 & E2)%bind_Ok_inv. etrans; eauto.
Qed.

Lemma updateDepth_keeps d n d' : updateDepth d n = Ok d' → R d d'.
Proof.
  unfold updateDepth. intros (x & _ & E)%bind_Ok_inv. destruct (_ <? _) in E.
  - by eapply keeps_SetDepth.
  - by simplify_eq.
Qed.

Lemma deleteBatchedNodeValues_keeps order d X d' :
  deleteBatchedNodeValues order d X = Ok d' → R d d'.
Proof.
  apply foldM_keeps. intros d1 h d2 (d3 & E1%errorf_Ok & E2%errorf_Ok)%bind_Ok_inv.
  etrans; [by eapply keeps_DeleteByNodeKey|by eapply keeps_DeleteHashKey].
Qed.

Lemma saveBatchedNodeValues_keeps noSave d vs d' :
  saveBatchedNodeValues noSave d vs = Ok d' → R d d'.
Proof.
  apply foldM_keeps. intros d1 [v h] d2. destruct (NodeValue8_IsZero v); [by intros [= <-]|].
  destruct noSave; [by intros [= <-]|]. intros (h' & _ & E)%bind_Ok_inv. by eapply keeps_Insert.
Qed.

Lemma startConsumersLoop_keeps d sent d' : startConsumersLoop d sent = Ok d' → R d d'.
Proof.
  apply foldM_keeps. intros d1 [] d2 E%errorf_Ok; [by eapply keeps_Insert|by eapply keeps_InsertHashKey].
Qed.

Lemma InsertBatch_keeps cancelled cpuNum order s ks vs hs root r s' :
  InsertBatch hash cancelled cpuNum order s ks vs hs root = Ok (r, s') → R (smtDb s) (smtDb s').
Proof.
  unfold InsertBatch.
  intros ([[[ks' vs'] hs'] root'] & _ & E)%bind_Ok_inv.
  apply bind_Ok_inv in E as (st & _ & E).
  apply bind_Ok_inv in E as (d1 & E1%errorf_Ok%updateDepth_keeps & E).
  apply bind_Ok_inv in E as (d2 & E2%errorf_Ok%deleteBatchedNodeValues_keeps & E).
  apply bind_Ok_inv in E as (d3 & E3%errorf_Ok%saveBatchedNodeValues_keeps & E).
  apply bind_Ok_inv in E as ([root'' d4] & E4 & E).
  apply bind_Ok_inv in E as (d5 & E5 & [= <- <-]). cbn [smtDb].
  etrans; [exact E1|]. etrans; [exact E2|]. etrans; [exact E3|]. etrans; [|by eapply keeps_SetLastRoot].
  destruct (m_root (ls_memory st)); [|by simplify_eq].
  apply bind_Ok_inv in E4 as ([h sent] & _ & E4).
  apply bind_Ok_inv in E4 as (d6 & E6 & [= <- <-]). destruct (noSaveOnInsert s); [by simplify_eq|].
  by apply errorf_Ok, startConsumersLoop_keeps in E6.
Qed.
End Keep.

Lemma InsertBatch_sources {D : Type} {SD : SmtDB D} {SS : SmtDBSources D} hash cancelled cpuNum order (s : SMT D) ks vs hs root r s' :
  InsertBatch hash cancelled cpuNum order s ks vs hs root = Ok (r, s') → same_sources (smtDb s) (smtDb s').
Proof. apply (InsertBatch_keeps same_sources). Qed.
