(* ===== verification/SmtCreate.v ===== *)
(** The creation of a tree from all its keys (src/smt/pkg/smt/smt_create.go, with
    the queue of src/smt/pkg/utils/job_queue.go).

    Three goroutines share the work.  The builder takes the sorted keys and grows
    a binary tree in memory; when a key is placed on the right of a node, nothing
    on its left will change any more, and a job is queued that hashes the left
    side and drops it.  A worker runs the jobs.  The main goroutine, which alone
    may use the database, reads the values for the builder and saves the results
    of the jobs.  They communicate over channels of bounded capacity and form a
    transition system; what a goroutine does between two operations on channels is
    one step.

    The worker may write node0 and leftHash of a node while the builder asks
    whether it is a leaf; the answer does not depend on them, because the node has
    something on its right, so that a job can count as one step.

    A node of the tree in memory has one owner, so a pointer to a node is its path
    from the root; the builder never moves a node that a job points to.  A map
    that is iterated is given with the order of the iteration. *)

From S2P Require Import Prelude Bytes SmtUtils SmtDb Smt SmtBatch.
From stdpp Require Import sorting.

Local Open Scope Z_scope.

(** * Sorting *)

(** The comparison of SortNodeKeysBitwiseAsc. *)
Fixpoint bitwise_loop (l : nat) (aTmp bTmp : NodeKey) : bool :=
  match l with
  | O => true
  | S l =>
      if negb (Z.land (nk0 aTmp) 1 =? Z.land (nk0 bTmp) 1) then Z.land (nk0 aTmp) 1 <? Z.land (nk0 bTmp) 1
      else if negb (Z.land (nk1 aTmp) 1 =? Z.land (nk1 bTmp) 1) then Z.land (nk1 aTmp) 1 <? Z.land (nk1 bTmp) 1
      else if negb (Z.land (nk2 aTmp) 1 =? Z.land (nk2 bTmp) 1) then Z.land (nk2 aTmp) 1 <? Z.land (nk2 bTmp) 1
      else if negb (Z.land (nk3 aTmp) 1 =? Z.land (nk3 bTmp) 1) then Z.land (nk3 aTmp) 1 <? Z.land (nk3 bTmp) 1
      else bitwise_loop l
             (NK (Z.shiftr (nk0 aTmp) 1) (Z.shiftr (nk1 aTmp) 1) (Z.shiftr (nk2 aTmp) 1) (Z.shiftr (nk3 aTmp) 1))
             (NK (Z.shiftr (nk0 bTmp) 1) (Z.shiftr (nk1 bTmp) 1) (Z.shiftr (nk2 bTmp) 1) (Z.shiftr (nk3 bTmp) 1))
  end.

Definition key_before (a b : NodeKey) : Prop := bitwise_loop 64 a b = true.

#[export] Instance key_before_dec a b : Decision (key_before a b).
Proof. unfold key_before. apply _. Defined.

(** sort.Slice: of keys without repetition there is one sorted arrangement. *)
Definition SortNodeKeysBitwiseAsc (keys : list NodeKey) : list NodeKey := merge_sort key_before keys.

(** * The tree in memory *)

#[local] Set Warnings "-register-all".

Inductive SmtNode := mkNode (rKey : list Z) (leftHash : NodeKey) (node0 node1 : option SmtNode).

Definition rKey (n : SmtNode) : list Z := let 'mkNode rk _ _ _ := n in rk.
Definition leftHash (n : SmtNode) : NodeKey := let 'mkNode _ lh _ _ := n in lh.
Definition node0 (n : SmtNode) : option SmtNode := let 'mkNode _ _ n0 _ := n in n0.
Definition node1 (n : SmtNode) : option SmtNode := let 'mkNode _ _ _ n1 := n in n1.

(** [&SmtNode{}] *)
Definition newSmtNode : SmtNode := mkNode [] nk_zero None None.

Definition isLeaf (n : SmtNode) : bool :=
  match node0 n, node1 n with None, None => NodeKey_IsZero (leftHash n) | _, _ => false end.

Definition child (bit : Z) (n : SmtNode) : option SmtNode := if bit =? 0 then node0 n else node1 n.

Definition set_child (bit : Z) (c : option SmtNode) (n : SmtNode) : SmtNode :=
  if bit =? 0 then mkNode (rKey n) (leftHash n) c (node1 n) else mkNode (rKey n) (leftHash n) (node0 n) c.

(** Reading and writing through a pointer. *)
Fixpoint node_at (n : SmtNode) (path : list Z) {struct path} : option SmtNode :=
  match path with
  | [] => Some n
  | b :: path => match child b n with Some c => node_at c path | None => None end
  end.

Fixpoint update_at (f : SmtNode → SmtNode) (path : list Z) (n : SmtNode) {struct path} : SmtNode :=
  match path with
  | [] => f n
  | b :: path => match child b n with Some c => set_child b (Some (update_at f path c)) n | None => n end
  end.

(** The nodes on the path below [currentNode] and the level of the last one. *)
Fixpoint findLastNode (currentNode : SmtNode) (keys : list Z) (siblings : list SmtNode) (level : nat) {struct keys}
    : outcome (list SmtNode * nat) :=
  match keys with
  | [] => Panic
  | bit :: keys =>
      match child bit currentNode with
      | None => Ok (siblings, (level - 1)%nat)
      | Some c =>
          if isLeaf c then Ok (siblings ++ [c], level)
          else findLastNode c keys (siblings ++ [c]) (S level)
      end
  end.

(** The node whose left side a job hashes, and the path of that side. *)
Record job := mkJob { nodeToDelFrom : list Z; pathToDeleteFrom : list Z }.

(** [for leaf0.rKey[level2] == keys[level+level2]]: [rk] and [ks] are what is left of
    the two slices. *)
Fixpoint chain_loop (root : SmtNode) (keys rk ks : list Z) (level level2 : nat) : outcome (SmtNode * nat) :=
  match rk, ks with
  | a :: rk, b :: ks =>
      if a =? b
      then chain_loop (update_at (set_child b (Some newSmtNode)) (take (level + level2) keys) root) keys rk ks level (S level2)
      else Ok (root, level2)
  | _, _ => Panic
  end.

(** The last node that was found is a leaf: both leaves go below new nodes. *)
Definition place_beside_leaf (root : SmtNode) (keys : list Z) (leaf0 : SmtNode) (level : nat)
    : outcome (SmtNode * option job * nat) :=
  bit ← go_index keys (Z.of_nat level);
  let root := update_at (set_child bit (Some newSmtNode)) (take level keys) root in
  let level := S level in
  '(root, level2) ← chain_loop root keys (rKey leaf0) (drop level keys) level 0;
  a ← go_index (rKey leaf0) (Z.of_nat level2);
  b ← go_index keys (Z.of_nat (level2 + level));
  if negb (a =? 0) || negb (b =? 1)
  then Err "leaf insert error. new leaf should be on the right of the old"
  else
    let leaf0 := mkNode (drop (level2 + 1) (rKey leaf0)) (leftHash leaf0) (node0 leaf0) (node1 leaf0) in
    let leaf1 := mkNode (drop (level + level2 + 1) keys) nk_zero None None in
    let last := take (level + level2) keys in
    Ok (update_at (λ n, set_child 1 (Some leaf1) (set_child 0 (Some leaf0) n)) last root,
        Some (mkJob last (last ++ [0])), (level + level2 + 1)%nat).

(** It is not a leaf: the new leaf goes to its right. *)
Definition place_below (root : SmtNode) (keys : list Z) (siblings : list SmtNode) (level : nat)
    : outcome (SmtNode * option job * nat) :=
  let upper := take (length siblings) keys in
  let level := match siblings with [] => level | _ => S level end in
  let newNode := mkNode (drop (level + 1) keys) nk_zero None None in
  match node_at root upper with
  | None => Panic
  | Some upperNode =>
      first ← go_index keys 0;
      if (length siblings =? 0)%nat && (first =? 0) then
        match node0 upperNode with
        | Some _ => Err "tried to override left node"
        | None => Ok (update_at (set_child 0 (Some newNode)) upper root, None, (level + 1)%nat)
        end
      else
        b ← go_index keys (Z.of_nat level);
        if bool_decide (is_Some (node1 upperNode)) || negb (b =? 1)
        then Err "leaf insert error. new should be on the right of the found node"
        else
          Ok (update_at (set_child 1 (Some newNode)) upper root,
              match node0 upperNode with
              | Some _ => Some (mkJob upper (take level keys ++ [0]))
              | None => None
              end, (level + 1)%nat)
  end.

(** One iteration of runBuildSmtLoop, after the value was received. *)
Definition build_key (root : SmtNode) (keys : list Z) : outcome (SmtNode * option job * nat) :=
  '(siblings, level) ← findLastNode root keys [] 0;
  if (length siblings =? 0)%nat then place_below root keys siblings level
  else
    n ← go_index siblings (Z.of_nat level);
    if isLeaf n then
      leaf0 ← go_index siblings (Z.of_nat (length siblings) - 1);
      place_beside_leaf root keys leaf0 level
    else place_below root keys siblings level.

(** * Hashing *)

Section Create.
Context (hash : list Z → NodeKey → NodeKey).

(** [createNewLeafNoSave]: the value and the leaf, each with its hash. *)
Definition createNewLeafNoSave (rkey : NodeKey) (v : NodeValue8) : (NodeKey * NodeValue12) * (NodeKey * NodeValue12) :=
  let '(newValH, newValHV) := HashKeyAndValueByPointers hash (ToUintArray v) BranchCapacity in
  let '(newLeafHash, newLeafHashV) := HashKeyAndValueByPointers hash (ConcatArrays4 rkey newValH) LeafCapacity in
  ((newValH, newValHV), (newLeafHash, newLeafHashV)).

(** The values of the leaves in memory, and the maps of a job result. *)
Record hashing := mkHashing {
  leafValueMap : gmap NodeKey NodeValue8;
  KvMap : gmap NodeKey NodeValue12;
  LeafsKvMap : gmap NodeKey NodeKey;
}.

Fixpoint deleteTreeNoSave (n : SmtNode) (keyPath : list Z) (st : hashing) : outcome (NodeKey * hashing) :=
  let 'mkNode rk lh n0 n1 := n in
  if isLeaf n then
    k ← NodeKeyFromPath (keyPath ++ rk);
    match leafValueMap st !! k with
    | None => Err "value not found for key"
    | Some accoutnValue =>
        let newKey := RemoveKeyBits k (Z.of_nat (length keyPath)) in
        let '((newValH, newValHV), (newLeafHash, newLeafHashV)) := createNewLeafNoSave newKey accoutnValue in
        Ok (newLeafHash,
            mkHashing (delete k (leafValueMap st)) (<[newLeafHash := newLeafHashV]> (<[newValH := newValHV]> (KvMap st)))
              (<[newLeafHash := k]> (LeafsKvMap st)))
    end
  else
    '(lh, st) ←
      match n0 with
      | Some c =>
          if negb (NodeKey_IsZero lh) then Err "node has previously deleted left part"
          else deleteTreeNoSave c (keyPath ++ [0]) st
      | None => Ok (lh, st)
      end;
    '(totalHash, st) ←
      match n1 with
      | Some c => '(rightHash, st) ← deleteTreeNoSave c (keyPath ++ [1]) st; Ok (set_quarter (replicate 8 None) 1 rightHash, st)
      | None => Ok (replicate 8 None, st)
      end;
    let totalHash := set_quarter totalHash 0 lh in
    let '(newRoot, v) := HashKeyAndValueByPointers hash (ToUintArray totalHash) BranchCapacity in
    Ok (newRoot, mkHashing (leafValueMap st) (<[newRoot := v]> (KvMap st)) (LeafsKvMap st)).

(** The result of a job: an error, or what is to be saved. *)
Record jobResult := mkResult {
  jr_Err : option string;
  jr_KvMap : gmap NodeKey NodeValue12;
  jr_LeafsKvMap : gmap NodeKey NodeKey;
}.

(** The closure deleteFunc.  When hashing fails, what it had removed by then is not
    kept track of: the result with the error ends the creation before anything
    later is saved. *)
Definition run_job (root : SmtNode) (leafs : gmap NodeKey NodeValue8) (j : job)
    : outcome (SmtNode * gmap NodeKey NodeValue8 * jobResult) :=
  match node_at root (nodeToDelFrom j) with
  | None => Panic
  | Some n =>
      match node0 n with
      | None => Panic
      | Some c =>
          match deleteTreeNoSave c (pathToDeleteFrom j) (mkHashing leafs ∅ ∅) with
          | Ok (h, st) =>
              Ok (update_at (λ n, mkNode (rKey n) h None (node1 n)) (nodeToDelFrom j) root, leafValueMap st,
                  mkResult None (KvMap st) (LeafsKvMap st))
          | Err e => Ok (root, leafs, mkResult (Some e) ∅ ∅)
          | Panic => Panic
          end
      end
  end.

Context {D : Type} {SD : SmtDB D}.

(** A loop over a map that stops at the first error. *)
Fixpoint save_loop {A} (put : D → A → outcome D) (d : D) (l : list A) : outcome (D * option string) :=
  match l with
  | [] => Ok (d, None)
  | x :: l =>
      match put d x with
      | Ok d => save_loop put d l
      | Err e => Ok (d, Some e)
      | Panic => Panic
      end
  end.

Context (orderL : gmap NodeKey NodeKey → list (NodeKey * NodeKey)).
Context (orderK : gmap NodeKey NodeValue12 → list (NodeKey * NodeValue12)).

Definition Save (d : D) (r : jobResult) : outcome (D * option string) :=
  '(d, e) ← save_loop (λ d '(key, value), db_InsertHashKey d key value) d (orderL (jr_LeafsKvMap r));
  match e with
  | Some e => Ok (d, Some e)
  | None => save_loop (λ d '(key, value), db_Insert d key value) d (orderK (jr_KvMap r))
  end.

(** [deleteTree]: the error of Save is ignored. *)
Definition deleteTree (n : SmtNode) (keyPath : list Z) (d : D) (leafs : gmap NodeKey NodeValue8) : outcome (NodeKey * D) :=
  '(newRoot, st) ← deleteTreeNoSave n keyPath (mkHashing leafs ∅ ∅);
  '(d, _) ← Save d (mkResult None (KvMap st) (LeafsKvMap st));
  Ok (newRoot, d).

(** * The three goroutines *)

(** The capacities of accountValuesReadChan and of the two channels of the worker. *)
Context (readCap jobCap : nat).

Inductive builder :=
| b_next  (** about to receive the value of the next key *)
| b_push (j : job)  (** about to queue a job *)
| b_end (e : option string).  (** returned; the queue of jobs is closed *)

Inductive worker :=
| w_ready
| w_put (r : jobResult)  (** about to send a result *)
| w_end.  (** returned; the channel of results is closed *)

Inductive companion :=
| m_loop
| m_fill (readLimit : nat)
| m_wait  (** about to receive a result *)
| m_end  (** the channel of results is closed and empty *)
| m_fail (e : string)
| m_panic.

Record threads := mkThreads {
  t_builder : builder;
  t_keys : list NodeKey;  (** the keys that are not inserted yet *)
  t_root : SmtNode;
  t_max : nat;  (** maxReachedLevel *)
  t_leafs : gmap NodeKey NodeValue8;  (** leafValueMap *)
  t_values : list (option NodeValue8);  (** accountValuesReadChan *)
  t_jobs : list job;
  t_worker : worker;
  t_results : list jobResult;
  t_main : companion;
  t_read : nat;  (** lastReadAccountValueIndex *)
  t_db : D;
  t_cancelled : bool;  (** ctx is done *)
}.

Definition b_running (b : builder) : bool := match b with b_end _ => false | _ => true end.
Definition w_running (w : worker) : bool := match w with w_end => false | _ => true end.

(** The steps of the builder. *)
Definition builder_step (s : threads) : option threads :=
  let 'mkThreads b ks root mx leafs vs js w rs m rd d c := s in
  match b with
  | b_next =>
      match ks with
      | [] => Some (mkThreads (b_end None) ks root mx leafs vs js w rs m rd d c)
      | k :: ks' =>
          match vs with
          | [] => None
          | None :: vs => Some (mkThreads (b_end (Some "the actual error is returned by main DB thread")) ks root mx leafs vs js w rs m rd d c)
          | Some v :: vs =>
              let leafs := <[k := v]> leafs in
              match build_key root (GetPath k) with
              | Ok (root, j, level) =>
                  let b := match j with Some j => b_push j | None => b_next end in
                  Some (mkThreads b ks' root (mx `max` level) leafs vs js w rs m rd d c)
              | Err e => Some (mkThreads (b_end (Some e)) ks' root mx leafs vs js w rs m rd d c)
              | Panic => Some (mkThreads b ks' root mx leafs vs js w rs m_panic rd d c)
              end
          end
      end
  | b_push j =>
      if (length js <? jobCap)%nat then Some (mkThreads b_next ks root mx leafs vs (js ++ [j]) w rs m rd d c) else None
  | b_end _ => None
  end.

(** The steps of the worker; with a job in the queue and ctx done, select may
    take either. *)
Definition worker_step (stop : bool) (s : threads) : option threads :=
  let 'mkThreads b ks root mx leafs vs js w rs m rd d c := s in
  match w with
  | w_ready =>
      if stop then
        if c || negb (b_running b) && (length js =? 0)%nat
        then Some (mkThreads b ks root mx leafs vs js w_end rs m rd d c) else None
      else
        match js with
        | [] => None
        | j :: js =>
            match run_job root leafs j with
            | Ok (root, leafs, r) => Some (mkThreads b ks root mx leafs vs js (w_put r) rs m rd d c)
            | Err _ | Panic => Some (mkThreads b ks root mx leafs vs js w rs m_panic rd d c)
            end
        end
  | w_put r =>
      if (length rs <? jobCap)%nat then Some (mkThreads b ks root mx leafs vs js w_ready (rs ++ [r]) m rd d c) else None
  | w_end => None
  end.

(** The steps of startBuildSmtLoopDbCompanionLoop. *)
Definition main_step (nodeKeys : list NodeKey) (s : threads) : option threads :=
  let 'mkThreads b ks root mx leafs vs js w rs m rd d c := s in
  match m with
  | m_loop =>
      let readLimit := ((rd + (readCap - length vs)) `min` length nodeKeys)%nat in
      Some (mkThreads b ks root mx leafs vs js w rs (m_fill readLimit) rd d c)
  | m_fill readLimit =>
      if (rd <? readLimit)%nat then
        match nodeKeys !! rd with
        | None => Some (mkThreads b ks root mx leafs vs js w rs m_panic rd d c)
        | Some k =>
            if (length vs <? readCap)%nat then
              match db_GetAccountValue d k with
              | Ok v => Some (mkThreads b ks root mx leafs (vs ++ [Some v]) js w rs m (S rd) d c)
              | Err e => Some (mkThreads b ks root mx leafs (vs ++ [None]) js w rs (m_fail e) rd d c)
              | Panic => Some (mkThreads b ks root mx leafs vs js w rs m_panic rd d c)
              end
            else None
        end
      else Some (mkThreads b ks root mx leafs vs js w rs m_wait rd d c)
  | m_wait =>
      match rs with
      | r :: rs =>
          match jr_Err r with
          | Some e => Some (mkThreads b ks root mx leafs vs js w rs (m_fail e) rd d c)
          | None =>
              match Save d r with
              | Ok (d, None) => Some (mkThreads b ks root mx leafs vs js w rs m_loop rd d c)
              | Ok (d, Some e) => Some (mkThreads b ks root mx leafs vs js w rs (m_fail e) rd d c)
              | Err _ | Panic => Some (mkThreads b ks root mx leafs vs js w rs m_panic rd d c)
              end
          end
      | [] => if w_running w then None else Some (mkThreads b ks root mx leafs vs js w rs m_end rd d c)
      end
  | m_end | m_fail _ | m_panic => None
  end.

Definition stopped (m : companion) : bool := match m with m_fail _ | m_panic => true | _ => false end.

(** One step of one goroutine, or of the context.  Nothing matters after the main
    goroutine has failed. *)
Inductive step (nodeKeys : list NodeKey) (s s' : threads) : Prop :=
| step_builder : stopped (t_main s) = false → builder_step s = Some s' → step nodeKeys s s'
| step_worker stop : stopped (t_main s) = false → worker_step stop s = Some s' → step nodeKeys s s'
| step_main : stopped (t_main s) = false → main_step nodeKeys s = Some s' → step nodeKeys s s'.

Inductive cancel (s : threads) : threads → Prop :=
| ctx_done : t_cancelled s = false →
    cancel s (mkThreads (t_builder s) (t_keys s) (t_root s) (t_max s) (t_leafs s) (t_values s) (t_jobs s) (t_worker s)
                (t_results s) (t_main s) (t_read s) (t_db s) true).

Definition start (nodeKeys : list NodeKey) (d : D) : threads :=
  mkThreads b_next nodeKeys newSmtNode 0 ∅ [] [] w_ready [] m_loop 0 d false.

(** All three have returned. *)
Definition joined (s : threads) : bool :=
  match t_main s with m_end => negb (b_running (t_builder s)) && negb (w_running (t_worker s)) | _ => false end.

(** What GenerateFromKVBulk does after wg.Wait(). *)
Definition finish (s0 : SMT D) (nodeKeys : list NodeKey) (s : threads) : outcome (NodeKey * SMT D) :=
  match t_builder s with
  | b_end (Some e) => Err e
  | _ =>
      let root := t_root s in
      if isLeaf root then Ok (nk_zero, mkSMT (noSaveOnInsert s0) (t_db s))
      else
        '(root, path) ←
          (if (length nodeKeys =? 1)%nat then
             match node1 root with
             | None => match node0 root with Some c => Ok (c, [0]) | None => Panic end
             | Some c =>
                 match node0 root with
                 | None => if NodeKey_IsZero (leftHash root) then Ok (c, [1]) else Ok (root, [])
                 | Some _ => Ok (root, [])
                 end
             end
           else Ok (root, []));
        '(root, path) ←
          (if isLeaf root then
             b ← go_index path 0;
             Ok (mkNode (b :: rKey root) (leftHash root) (node0 root) (node1 root), [])
           else Ok (root, path));
        '(finalRoot, d) ← deleteTree root path (t_db s) (t_leafs s);
        d ← setLastRoot d finalRoot;
        d ← updateDepth d (Z.of_nat (t_max s));
        Ok (finalRoot, mkSMT (noSaveOnInsert s0) d)
  end.

(** The outcomes of GenerateFromKVBulk over all schedules, without ([false]) or with
    ([true]) a context that may be cancelled. *)
Inductive GenerateFromKVBulk (mayCancel : bool) (s0 : SMT D) (nodeKeys : list NodeKey) : outcome (NodeKey * SMT D) → Prop :=
| bulk_returns s :
    let keys := SortNodeKeysBitwiseAsc nodeKeys in
    rtc (λ a b, step keys a b ∨ mayCancel = true ∧ cancel a b) (start keys (smtDb s0)) s → joined s = true →
    GenerateFromKVBulk mayCancel s0 nodeKeys (finish s0 nodeKeys s)
| bulk_fails s e :
    let keys := SortNodeKeysBitwiseAsc nodeKeys in
    rtc (λ a b, step keys a b ∨ mayCancel = true ∧ cancel a b) (start keys (smtDb s0)) s → t_main s = m_fail e →
    GenerateFromKVBulk mayCancel s0 nodeKeys (Err e)
| bulk_panics s :
    let keys := SortNodeKeysBitwiseAsc nodeKeys in
    rtc (λ a b, step keys a b ∨ mayCancel = true ∧ cancel a b) (start keys (smtDb s0)) s → t_main s = m_panic →
    GenerateFromKVBulk mayCancel s0 nodeKeys Panic.
End Create.
