(* ===== verification/SmtCreateSpec.v ===== *)
(** The tree that the builder grows, and what hashing it computes.

    [rep] relates a node in memory to a canonical tree of SmtTree: what is on the
    left of a node may be there, or be replaced by its hash once something is on
    the right.  Placing a key that comes after all others is the insertion into
    the canonical tree ([build_key_spec]); hashing a part of the tree returns the
    hash of the canonical one ([deleteTreeNoSave_spec]). *)

From stdpp Require Import sorting.
From S2P Require Import Prelude Bytes SmtUtils SmtDb SmtTree Smt SmtInsert SmtBatch SmtBatchSpec SmtCreate.

Local Open Scope Z_scope.
#[local] Set Warnings "-clear-no-such-hyp".

(** * The order of keys *)

Fixpoint lex_le (p q : list Z) : bool :=
  match p, q with
  | a :: p, b :: q => if a =? b then lex_le p q else a <? b
  | _, _ => true
  end.

Lemma bitwise_lex l : ∀ a b, bitwise_loop l a b = lex_le (GetPath_loop l a) (GetPath_loop l b).
Proof.
  induction l as [|l IH]; intros a b; [done|]. cbn [bitwise_loop GetPath_loop app lex_le].
  by rewrite IH; repeat (case_match; cbn [negb] in *; try done).
Qed.

Lemma lex_le_total p : ∀ q, lex_le p q = true ∨ lex_le q p = true.
Proof.
  induction p as [|a p IH]; intros [|b q]; cbn [lex_le]; [by left..|]. destruct (Z.eqb_spec a b) as [->|Hne].
  - rewrite Z.eqb_refl. apply IH.
  - rewrite (proj2 (Z.eqb_neq b a)) by done. lia.
Qed.

Lemma lex_le_trans p : ∀ q r, length p = length q → length q = length r → lex_le p q = true → lex_le q r = true → lex_le p r = true.
Proof.
  induction p as [|a p IH]; intros [|b q] [|c r]; cbn [lex_le length]; try done. intros [= H1] [= H2].
  destruct (Z.eqb_spec a b), (Z.eqb_spec b c), (Z.eqb_spec a c); subst; try done; try lia. by apply IH.
Qed.

#[export] Instance key_before_total : Total key_before.
Proof. intros a b. unfold key_before. rewrite !bitwise_lex. apply lex_le_total. Qed.

#[export] Instance key_before_trans : Transitive key_before.
Proof.
  intros a b c. unfold key_before. rewrite !bitwise_lex. apply lex_le_trans; by rewrite !length_GetPath_loop.
Qed.

(** At the first bit in which the keys differ, [a] has 0 and [b] has 1. *)
Definition key_lt (a b : NodeKey) : Prop :=
  ∃ j, (j < 256)%nat ∧ (∀ i, (i < j)%nat → keybit a i = keybit b i) ∧ keybit a j = false ∧ keybit b j = true.

Lemma lex_le_differ p : ∀ q, length p = length q → lex_le p q = true → p ≠ q →
  ∃ j x y, p !! j = Some x ∧ q !! j = Some y ∧ x < y ∧ take j p = take j q.
Proof.
  induction p as [|a p IH]; intros [|b q] Hl Hle Hne; cbn [length lex_le] in *; try done.
  destruct (Z.eqb_spec a b) as [->|Hab].
  - destruct (IH q) as (j & x & y & Hx & Hy & Hxy & Ht); [lia|done|congruence|].
    exists (S j), x, y. cbn. by rewrite Ht.
  - exists 0%nat, a, b. split_and!; [done..|lia|done].
Qed.

Lemma key_before_lt a b : nk_wf a → nk_wf b → key_before a b → a ≠ b → key_lt a b.
Proof.
  unfold key_before. rewrite bitwise_lex. intros Ha Hb Hle Hne.
  destruct (lex_le_differ (GetPath a) (GetPath b)) as (j & x & y & Hx & Hy & Hxy & Ht);
    [by rewrite !length_GetPath|exact Hle|intros E; by apply Hne, GetPath_inj|].
  assert (j < 256)%nat as Hj by (apply lookup_lt_Some in Hx; by rewrite length_GetPath in Hx).
  rewrite lookup_GetPath in Hx, Hy by done. exists j. split; [done|]. split; [|destruct (keybit a j), (keybit b j); cbn in *; simplify_eq; by try lia].
  intros i Hi. assert (take j (GetPath a) !! i = take j (GetPath b) !! i) as E by (by rewrite Ht).
  rewrite !lookup_take_lt, !lookup_GetPath in E by lia. destruct (keybit a i), (keybit b i); cbn in E; congruence.
Qed.

(** Below a common path the smaller key is not on the right of the larger one. *)
Lemma key_lt_bit a b p :
  key_lt a b → has_path p a → has_path p b → keybit b (length p) = false → keybit a (length p) = false.
Proof.
  intros (j & Hj & Hagree & Ha & Hb) Hpa Hpb Hbit.
  destruct (Nat.lt_trichotomy (length p) j) as [Hlt|[<-|Hgt]]; [by rewrite Hagree|congruence|].
  destruct (lookup_lt_is_Some_2 p j Hgt) as [x Hx]. by rewrite (Hpa _ _ Hx) in Ha; rewrite (Hpb _ _ Hx) in Hb; congruence.
Qed.

#[local] Opaque GetPath.

(** * Nodes and trees *)

Fixpoint leaves (t : tree) : list (NodeKey * list Z) :=
  match t with
  | Empty => []
  | Leaf k v => [(k, v)]
  | Branch l r => leaves l ++ leaves r
  end.

(** All keys of [t] come before [k]. *)
Definition all_before (k : NodeKey) (t : tree) : Prop := Forall (λ x, key_lt x.1 k) (leaves t).

Lemma leaves_path t : ∀ p k v, tree_ok p t → (k, v) ∈ leaves t → nk_wf k ∧ has_path p k ∧ val_ok v.
Proof.
  induction t as [|k' v'|l IHl r IHr]; intros p k v Hok Hin; cbn [leaves] in Hin.
  - by apply elem_of_nil in Hin.
  - apply list_elem_of_singleton in Hin. simplify_eq. exact Hok.
  - destruct Hok as (_ & _ & Hl & Hr).
    apply elem_of_app in Hin as [Hin|Hin]; [destruct (IHl _ _ _ Hl Hin) as (? & Hp & ?)|destruct (IHr _ _ _ Hr Hin) as (? & Hp & ?)];
      apply has_path_snoc in Hp as [Hp _]; done.
Qed.

Lemma length_leaves t : length (leaves t) = nleaves t.
Proof. induction t as [| |l IHl r IHr]; cbn; [done..|]. by rewrite length_app, IHl, IHr. Qed.

Lemma leaves_exist t p : t ≠ Empty → tree_ok p t → ∃ x, x ∈ leaves t.
Proof.
  intros Hne Hok. destruct (leaves t) as [|x l] eqn:E; [|exists x; by left].
  exfalso. apply Hne, (leaves_0 p); [done|]. by rewrite <-length_leaves, E.
Qed.

(** A key that goes to the left finds nothing on the right. *)
Lemma left_key_right_empty p r k :
  tree_ok (p ++ [true]) r → has_path p k → all_before k r → keybit k (length p) = false →
  r = Empty.
Proof.
  intros Hok Hp Hb Hbit. destruct (decide (r = Empty)) as [|Hne]; [done|].
  destruct (leaves_exist r _ Hne Hok) as ([k' v'] & Hin). destruct (leaves_path _ _ _ _ Hok Hin) as (_ & Hk' & _).
  apply has_path_snoc in Hk' as [Hk' Hbit']. unfold all_before in Hb. rewrite Forall_forall in Hb. specialize (Hb _ Hin).
  cbn [fst] in Hb. rewrite (key_lt_bit k' k p) in Hbit' by done. done.
Qed.

(** A tree whose branches are canonical; itself it may have a single leaf. *)
Definition sub_ok (p : list bool) (t : tree) : Prop :=
  match t with
  | Branch l r => (length p < 256)%nat ∧ tree_ok (p ++ [false]) l ∧ tree_ok (p ++ [true]) r
  | t => tree_ok p t
  end.

Lemma tree_sub_ok p t : tree_ok p t → sub_ok p t.
Proof. destruct t; [done..|]. by intros (? & _ & ? & ?). Qed.

Definition zpath (p : list bool) : list Z := Z.b2z <$> p.

Lemma zpath_snoc p b : zpath (p ++ [b]) = zpath p ++ [Z.b2z b].
Proof. unfold zpath. by rewrite fmap_app. Qed.

Lemma take_zpath p k : (length p ≤ 256)%nat → has_path p k → take (length p) (GetPath k) = zpath p.
Proof. apply take_GetPath_path. Qed.

Lemma child_bit b n : child (Z.b2z b) n = if b then node1 n else node0 n.
Proof. by destruct b. Qed.

Definition leaf_node (d : nat) (k : NodeKey) : SmtNode := mkNode (drop d (GetPath k)) nk_zero None None.

(** Both sides of the node at [q] are in memory. *)
Definition both (n : SmtNode) (q : list Z) : Prop :=
  ∃ m, node_at n q = Some m ∧ is_Some (node0 m) ∧ is_Some (node1 m).

Definition grow (n n' : SmtNode) : Prop := ∀ q, both n q → both n' q.

(** [C] is a tree with a hole at [p]. *)
Record is_ctx (C : SmtNode → SmtNode) (p : list Z) : Prop := {
  ctx_update n g x : update_at g (p ++ x) (C n) = C (update_at g x n);
  ctx_node n x : node_at (C n) (p ++ x) = node_at n x;
  ctx_grow n n' : grow n n' → grow (C n) (C n');
}.

Lemma is_ctx_nil : is_ctx id [].
Proof. done. Qed.

Lemma child_set_eq b c n : child b (set_child b c n) = c.
Proof. unfold child, set_child. by destruct (b =? 0). Qed.

Lemma set_child_set b c c' n : set_child b c' (set_child b c n) = set_child b c' n.
Proof. unfold set_child. by destruct (b =? 0). Qed.

Lemma set_child_child b c n : child b n = Some c → set_child b (Some c) n = n.
Proof. unfold child, set_child. destruct n as [rk lh n0 n1]. destruct (b =? 0); cbn; by intros ->. Qed.

Lemma child_set_ne b b' c n : (b =? 0) ≠ (b' =? 0) → child b' (set_child b c n) = child b' n.
Proof. unfold child, set_child. by destruct (b =? 0), (b' =? 0). Qed.

Lemma grow_child b c c' n : grow c c' → grow (set_child b (Some c) n) (set_child b (Some c') n).
Proof.
  intros Hg [|x q] (m & Hm & H0 & H1).
  - cbn in Hm. apply (inj Some) in Hm as <-. exists (set_child b (Some c') n). split; [done|].
    unfold set_child in *. destruct (b =? 0); cbn in *; eauto.
  - cbn [node_at] in Hm. destruct (decide ((b =? 0) = (x =? 0))) as [E|E].
    + assert (∀ c, child x (set_child b c n) = c) as Ec by (intros; unfold child, set_child; rewrite <-E; by destruct (b =? 0)).
      rewrite Ec in Hm. destruct (Hg q) as (m' & Hm' & H'); [by exists m|]. exists m'. split; [|done]. cbn [node_at]. by rewrite Ec.
    + rewrite child_set_ne in Hm by done. exists m. split; [|done]. cbn [node_at]. by rewrite child_set_ne.
Qed.

Lemma is_ctx_child C p b n : is_ctx C p → is_ctx (λ c, C (set_child b (Some c) n)) (p ++ [b]).
Proof.
  intros [Hu Hn Hg]. split.
  - intros m g x. rewrite <-app_assoc, Hu. cbn [app update_at]. by rewrite child_set_eq, set_child_set.
  - intros m x. rewrite <-app_assoc, Hn. cbn [app node_at]. by rewrite child_set_eq.
  - intros m m' H. by apply Hg, grow_child.
Qed.

Lemma both_leaf d k q : ¬ both (leaf_node d k) q.
Proof. intros (m & Hm & [] & _). destruct q as [|b q]; cbn in Hm; [by simplify_eq|]. unfold child in Hm. by destruct (b =? 0). Qed.

Lemma grow_leaf d k n : grow (leaf_node d k) n.
Proof. intros q H. by apply both_leaf in H. Qed.

Section Rep.
Context (hash : list Z → NodeKey → NodeKey).

Fixpoint rep (d : nat) (n : SmtNode) (t : tree) {struct t} : Prop :=
  match t with
  | Empty => False
  | Leaf k v => n = leaf_node d k
  | Branch l r =>
      rKey n = [] ∧
      match node0 n with
      | Some c => leftHash n = nk_zero ∧ rep (S d) c l
      | None => (l = Empty ∧ leftHash n = nk_zero) ∨ (l ≠ Empty ∧ r ≠ Empty ∧ leftHash n = thash hash (S d) l)
      end ∧
      match node1 n with
      | Some c => rep (S d) c r
      | None => r = Empty
      end
  end.

(** The leaves in memory, and the nodes that are replaced by their hashes. *)
Fixpoint live (n : SmtNode) (t : tree) {struct t} : list (NodeKey * list Z) :=
  match t with
  | Empty => []
  | Leaf k v => [(k, v)]
  | Branch l r =>
      match node0 n with Some c => live c l | None => [] end ++ match node1 n with Some c => live c r | None => [] end
  end.

Fixpoint dropped (d : nat) (n : SmtNode) (t : tree) {struct t} : list preimage :=
  match t with
  | Branch l r =>
      match node0 n with Some c => dropped (S d) c l | None => tree_nodes hash (S d) l end ++
      match node1 n with Some c => dropped (S d) c r | None => [] end
  | _ => []
  end.

Lemma live_leaves d n t : rep d n t → live n t ⊆ leaves t.
Proof.
  revert d n. induction t as [|k v|l IHl r IHr]; intros d n Hr; [done..|]. destruct Hr as (_ & H0 & H1).
  cbn [live leaves]. destruct (node0 n) as [c|]; [destruct H0 as [_ H0]; apply IHl in H0|];
    (destruct (node1 n); [apply IHr in H1|]); set_solver.
Qed.

(** Placing [k] keeps what is in memory and drops nothing. *)
Definition kept (k : NodeKey) (v : list Z) (d : nat) (n : SmtNode) (t : tree) (n' : SmtNode) (t' : tree) : Prop :=
  live n' t' ⊆ (k, v) :: live n t ∧ dropped d n' t' ⊆ dropped d n t.

Lemma kept_set_child k v d n l r b c c' t' :
  child (Z.b2z b) n = Some c → kept k v (S d) c (if b then r else l) c' t' →
  kept k v d n (Branch l r) (set_child (Z.b2z b) (Some c') n) (if b then Branch l t' else Branch t' r).
Proof.
  destruct n as [rk lh n0 n1]. rewrite child_bit. intros Hc [Hl Hd].
  destruct b; cbn in *; subst; (split; cbn; [set_solver +Hl|set_solver +Hd]).
Qed.

Lemma rep_nonempty d n t : rep d n t → t ≠ Empty.
Proof. by intros H ->. Qed.

Lemma isLeaf_leaf d k : isLeaf (leaf_node d k) = true.
Proof. done. Qed.

Lemma isLeaf_branch d n l r : rep d n (Branch l r) → (l ≠ Empty ∨ r ≠ Empty) → isLeaf n = false.
Proof.
  intros (_ & H0 & H1) Hne. unfold isLeaf. destruct (node0 n); [done|]. destruct (node1 n); [done|]. subst r.
  destruct H0 as [[-> _]|(_ & ? & _)]; by destruct Hne.
Qed.

(** Where both sides are in memory the path of a later key goes to the right. *)
Lemma both_right d n t p k q :
  rep d n t → sub_ok p t → d = length p → has_path p k → all_before k t → both n (zpath q) →
  ¬ has_path (p ++ q ++ [false]) k.
Proof.
  revert d n p q. induction t as [|k' v'|l IHl r IHr]; intros d n p q Hr Hok -> Hp Hb Hboth Hk; [done|..].
  { cbn in Hr. subst n. by apply both_leaf in Hboth. }
  destruct Hok as (Hlen & Hl & Hrr). destruct Hr as (_ & H0 & H1). unfold all_before in Hb. cbn [leaves] in Hb.
  apply Forall_app in Hb as [Hbl Hbr]. destruct q as [|b q].
  - destruct Hboth as (m & [= <-] & _ & [c Hc]). rewrite Hc in H1.
    destruct (leaves_exist r (p ++ [true])) as ([k' v'] & Hin); [by eapply rep_nonempty|done|].
    destruct (leaves_path _ _ _ _ Hrr Hin) as (_ & Hk' & _). apply has_path_snoc in Hk' as [Hk' Hbit].
    unfold all_before in Hbr. rewrite Forall_forall in Hbr. specialize (Hbr _ Hin). cbn [fst] in Hbr.
    apply has_path_snoc in Hk as [_ Hkb]. cbn [app] in Hkb. rewrite (key_lt_bit k' k p) in Hbit by done. done.
  - destruct Hboth as (m & Hm & Hs). cbn [zpath fmap list_fmap node_at] in Hm. rewrite child_bit in Hm.
    assert (has_path (p ++ [b]) k) as Hpb.
    { intros j x Hj. apply Hk. rewrite (app_assoc p [b] _ : p ++ (b :: q) ++ [false] = _). by apply lookup_app_l_Some. }
    rewrite (app_assoc p [b] _ : p ++ (b :: q) ++ [false] = _) in Hk. destruct b.
    + destruct (node1 n) as [c|] eqn:E1; [|done]. eapply (IHr (S (length p)) c (p ++ [true]) q); try done; [by apply tree_sub_ok|by rewrite length_snoc|by exists m].
    + destruct (node0 n) as [c|] eqn:E0; [|done]. destruct H0 as [_ H0].
      eapply (IHl (S (length p)) c (p ++ [false]) q); try done; [by apply tree_sub_ok|by rewrite length_snoc|by exists m].
Qed.

(** ** Placing a key *)

Lemma has_path_bit p k : has_path p k → has_path (p ++ [keybit k (length p)]) k.
Proof. intros H. by apply has_path_snoc. Qed.

Lemma chain_spec k v k0 v0 j :
  (j < 256)%nat → (∀ i, (i < j)%nat → keybit k0 i = keybit k i) → keybit k0 j = false → keybit k j = true →
  ∀ m p C level level2, j = (length p + m)%nat → has_path p k → has_path p k0 → is_ctx C (zpath p) → (level + level2)%nat = length p →
  ∃ q C', chain_loop (C newSmtNode) (GetPath k) (drop (length p) (GetPath k0)) (drop (length p) (GetPath k)) level level2 =
      Ok (C' newSmtNode, (j - level)%nat) ∧
    length q = j ∧ has_path q k ∧ is_ctx C' (zpath q) ∧
    ∀ x, rep j x (Branch (Leaf k0 v0) (Leaf k v)) → is_Some (node0 x) →
      ∃ n', C' x = C n' ∧ rep (length p) n' (tsplit (256 - length p) (length p) k v k0 v0) ∧
        live n' (tsplit (256 - length p) (length p) k v k0 v0) ⊆ [(k, v); (k0, v0)] ∧
        dropped (length p) n' (tsplit (256 - length p) (length p) k v k0 v0) = [].
Proof.
  intros Hj Hag H0 H1. induction m as [|m IH]; intros p C level level2 Ej Hp Hp0 HC Hlv.
  - rewrite Nat.add_0_r in Ej. subst j. rewrite (drop_GetPath k0 (length p)), (drop_GetPath k (length p)) by lia. cbn [chain_loop]. rewrite H0, H1. cbn [Z.b2z Z.eqb].
    exists p, C. split_and!; [do 2 f_equal; lia|done..|]. intros x Hx [c Hc]. exists x. split; [done|].
    destruct (256 - length p)%nat as [|n] eqn:En; [lia|]. cbn [tsplit]. rewrite H0, H1. split; [done|].
    cbn [live dropped]. rewrite Hc. destruct (node1 x); cbn; (split; [set_solver|done]).
  - assert (keybit k0 (length p) = keybit k (length p)) as Eb by (apply Hag; lia). set (b := keybit k (length p)) in *.
    rewrite (drop_GetPath k0 (length p)), (drop_GetPath k (length p)) by lia. cbn [chain_loop]. rewrite Eb. fold b. rewrite Z.eqb_refl, Hlv, (take_zpath p) by (done || lia).
    rewrite <-(app_nil_r (zpath p)), (ctx_update _ _ HC). cbn [update_at].
    pose proof (is_ctx_child C (zpath p) (Z.b2z b) newSmtNode HC) as HC2. rewrite <-zpath_snoc in HC2.
    destruct (IH (p ++ [b]) (λ c, C (set_child (Z.b2z b) (Some c) newSmtNode)) level (S level2)) as (q & C' & E & Hq & Hqk & HC' & Hrep); rewrite ?length_snoc; [lia|by apply has_path_bit| |exact HC2|lia|].
    { rewrite <-Eb. by apply has_path_bit. }
    rewrite length_snoc in E, Hrep. exists q, C'. split_and!; [exact E|done..|].
    intros x Hx Hx0. destruct (Hrep x Hx Hx0) as (n' & -> & Hn' & Hlive & Hdr). eexists. split; [done|].
    destruct (256 - length p)%nat as [|n] eqn:En; [lia|]. replace (256 - S (length p))%nat with n in * by lia.
    cbn [tsplit]. rewrite Eb. fold b. clearbody b.
    destruct b; cbn; rewrite ?app_nil_r; split_and!; try done; by left.
Qed.

(** What build_key does with the result of findLastNode. *)
Definition build_after (root : SmtNode) (keys : list Z) (found : outcome (list SmtNode * nat)) : outcome (SmtNode * option job * nat) :=
  '(siblings, level) ← found;
  if (length siblings =? 0)%nat then place_below root keys siblings level
  else
    n ← go_index siblings (Z.of_nat level);
    if isLeaf n then
      leaf0 ← go_index siblings (Z.of_nat (length siblings) - 1);
      place_beside_leaf root keys leaf0 level
    else place_below root keys siblings level.

Lemma rep_set_child d n l r b c c' t' :
  rep d n (Branch l r) → child (Z.b2z b) n = Some c → rep (S d) c' t' →
  rep d (set_child (Z.b2z b) (Some c') n) (if b then Branch l t' else Branch t' r).
Proof.
  rewrite child_bit. intros (Hk & H0 & H1) Hc Hc'. destruct n as [rk lh n0 n1]. cbn in *. destruct b; cbn; subst.
  - split_and!; [done| |done]. destruct n0; [done|]. destruct H0 as [?|(? & _ & ?)]; [by left|right]. by apply rep_nonempty in Hc'.
  - destruct H0. by split_and!.
Qed.

(** The outcome of placing [k] below [n], which stands in the hole of [C]. *)
Definition placed (C : SmtNode → SmtNode) (d : nat) (n : SmtNode) (l r : tree) (k : NodeKey) (v : list Z)
    (o : outcome (SmtNode * option job * nat)) : Prop :=
  ∃ n' j lvl, o = Ok (C n', j, lvl) ∧ rep d n' (tins d (Branch l r) k v) ∧ kept k v d n (Branch l r) n' (tins d (Branch l r) k v) ∧ grow n n' ∧
    match j with
    | None => l = Empty ∧ r = Empty
    | Some j => ∃ q, j = mkJob (zpath q) (zpath q ++ [0]) ∧ (length q < 256)%nat ∧ has_path q k ∧
        both (C n') (zpath q) ∧ ¬ both (C n) (zpath q)
    end.

(** The path ends at [n], whose right side is free. *)
Lemma place_below_spec p n sibs C l r k v :
  rep (length p) n (Branch l r) → (length p < 256)%nat → has_path p k → is_ctx C (zpath p) → length sibs = length p →
  keybit k (length p) = true → node1 n = None → (p ≠ [] → l ≠ Empty ∨ r ≠ Empty) →
  placed C (length p) n l r k v (place_below (C n) (GetPath k) sibs (length p - 1)).
Proof.
  intros Hrep Hlen Hp HC Hs Hb H1 Hne. pose proof Hrep as (Hk & H0 & Hr). rewrite H1 in Hr. subst r.
  unfold place_below. rewrite Hs, take_zpath by (done || lia).
  assert (node_at (C n) (zpath p) = Some n) as Hn by (rewrite <-(app_nil_r (zpath p)); apply (ctx_node _ _ HC)). rewrite Hn.
  assert (match sibs with [] => (length p - 1)%nat | _ => S (length p - 1) end = length p) as ->
    by (destruct sibs, p; cbn in *; try done; lia).
  rewrite (go_index_GetPath k 0 ltac:(lia) : go_index _ 0 = _), bind_Ok.
  assert ((length p =? 0)%nat && (Z.b2z (keybit k 0) =? 0) = false) as -> by (destruct p; [cbn in *; by rewrite Hb|done]).
  rewrite go_index_GetPath, bind_Ok, Hb by lia. rewrite H1. cbn [Z.b2z]. rewrite bool_decide_false by (by intros []). cbn [orb negb Z.eqb].
  rewrite <-(app_nil_r (zpath p)) at 1. rewrite (ctx_update _ _ HC). cbn [update_at].
  eexists _, _, _. split; [done|]. replace (length p + 1)%nat with (S (length p)) by lia. split_and!.
  - cbn [tins]. rewrite Hb. destruct n as [rk lh n0 n1]. cbn in *. subst. split_and!; [done| |done].
    destruct n0; [done|]. destruct H0 as [?|(_ & ? & _)]; [by left|done].
  - cbn [tins]. rewrite Hb. destruct n as [rk lh n0 n1]. cbn in *. subst. split; cbn; [set_solver|done].
  - intros [|x q] (m & Hm & Hm0 & Hm1); cbn [node_at] in Hm; [simplify_eq; rewrite H1 in Hm1; by destruct Hm1|].
    exists m. split; [|done]. cbn [node_at]. unfold child, set_child in *. destruct (x =? 0) eqn:Ex; cbn in *; [done|]. by rewrite H1 in Hm.
  - destruct (node0 n) as [c|] eqn:E0.
    + exists p. split_and!; [by rewrite take_zpath by (done || lia)|done..| |].
      * eexists. split; [rewrite <-(app_nil_r (zpath p)), (ctx_node _ _ HC); done|]. cbn. by rewrite E0.
      * intros (m & Hm & _ & [? Hm1]). rewrite Hn in Hm. simplify_eq.
    + by destruct H0 as [[? _]|(_ & ? & _)].
Qed.

(** The path ends at a leaf below [n]. *)
Lemma place_beside_spec p n C l r k v k0 v0 :
  let b := keybit k (length p) in
  rep (length p) n (Branch l r) → (length p < 256)%nat → has_path p k → is_ctx C (zpath p) →
  (if b then r else l) = Leaf k0 v0 → child (Z.b2z b) n = Some (leaf_node (S (length p)) k0) →
  has_path (p ++ [b]) k0 → key_lt k0 k →
  placed C (length p) n l r k v (place_beside_leaf (C n) (GetPath k) (leaf_node (S (length p)) k0) (length p)).
Proof.
  intros b Hrep Hlen Hp HC Et Hc Hp0 (j & Hj & Hag & Hj0 & Hj1).
  assert (length p < j)%nat as Hlt.
  { apply Nat.nle_gt. intros Hle. assert (has_path (p ++ [b]) k) as Hpb by (by apply has_path_bit).
    destruct (lookup_lt_is_Some_2 (p ++ [b]) j) as [x Hx]; [rewrite length_snoc; lia|].
    rewrite (Hp0 _ _ Hx) in Hj0. rewrite (Hpb _ _ Hx) in Hj1. congruence. }
  unfold place_beside_leaf. rewrite go_index_GetPath, bind_Ok by lia. fold b. cbn zeta.
  rewrite take_zpath by (done || lia). rewrite <-(app_nil_r (zpath p)), (ctx_update _ _ HC). cbn [update_at].
  pose proof (is_ctx_child C (zpath p) (Z.b2z b) n HC) as HC2. rewrite <-zpath_snoc in HC2.
  destruct (chain_spec k v k0 v0 j Hj Hag Hj0 Hj1 (j - S (length p)) (p ++ [b])
    (λ c, C (set_child (Z.b2z b) (Some c) n)) (S (length p)) 0)
    as (q & C' & E & Hq & Hqk & HC' & Hx); rewrite ?length_snoc; [lia|by apply has_path_bit|done|done|lia|].
  rewrite length_snoc in E, Hx. cbn [leaf_node rKey]. rewrite E, bind_Ok.
  assert (go_index (drop (S (length p)) (GetPath k0)) (Z.of_nat (j - S (length p))) = Ok 0) as ->.
  { apply go_index_lookup. rewrite lookup_drop, lookup_GetPath by lia. replace (S (length p) + (j - S (length p)))%nat with j by lia. by rewrite Hj0. }
  rewrite bind_Ok. replace (j - S (length p) + S (length p))%nat with j by lia.
  rewrite go_index_GetPath, bind_Ok, Hj1 by done. cbn [Z.b2z Z.eqb negb orb].
  replace (S (length p) + (j - S (length p)))%nat with j by lia. rewrite <-Hq, take_zpath by (done || lia).
  rewrite <-(app_nil_r (zpath q)) at 1. rewrite (ctx_update _ _ HC'). cbn [update_at]. rewrite drop_drop.
  set (x := set_child 1 _ _).
  assert (rep j x (Branch (Leaf k0 v0) (Leaf k v))) as Hrx.
  { unfold x. cbn. unfold leaf_node. split_and!; [done|done|do 2 f_equal; lia|by rewrite Hq, Nat.add_comm]. }
  destruct (Hx x Hrx) as (n' & En' & Hn' & Hlive & Hdr); [done|]. rewrite En'. eexists _, _, _. split; [done|].
  match goal with |- ?A ∧ ?B ∧ _ => assert (A ∧ B) as [??]; [|split_and!; [done..| |]] end.
  - assert (tins (S (length p)) (if b then r else l) k v = tsplit (256 - S (length p)) (S (length p)) k v k0 v0) as Ets.
    { rewrite Et. cbn [tins]. rewrite decide_False; [done|]. intros <-. congruence. }
    pose proof (rep_set_child _ _ _ _ b _ _ _ Hrep Hc Hn') as Hr'.
    assert (kept k v (S (length p)) (leaf_node (S (length p)) k0) (if b then r else l) n' (tsplit (256 - S (length p)) (S (length p)) k v k0 v0)) as Hk
      by (rewrite Et; split; [exact Hlive|by rewrite Hdr]).
    apply (kept_set_child _ _ _ _ _ _ b _ _ _ Hc) in Hk. rewrite <-Ets in Hr', Hk.
    revert Hr' Hk. cbn [tins]. fold b. by destruct b.
  - rewrite <-(set_child_child _ _ _ Hc) at 1. apply grow_child, grow_leaf.
  - exists q. split_and!; [done|lia|done| |].
    + rewrite <-En'. exists x. split; [by rewrite <-(app_nil_r (zpath q)), (ctx_node _ _ HC')|]. unfold x. cbn. by split.
    + intros (m & Hm & Hm0 & Hm1). rewrite <-(set_child_child _ _ _ Hc) in Hm.
      assert (∃ y, zpath q = zpath (p ++ [b]) ++ y) as [y Ey].
      { rewrite <-(take_zpath q k), <-(take_zpath (p ++ [b]) k) by (rewrite ?length_snoc; (by apply has_path_bit) || done || lia).
        exists (drop (S (length p)) (take (length q) (GetPath k))). rewrite length_snoc.
        rewrite <-(take_drop (S (length p)) (take (length q) (GetPath k))) at 1. by rewrite take_take, Nat.min_l by lia. }
      rewrite Ey, (ctx_node _ _ HC2) in Hm. apply (both_leaf (S (length p)) k0 y).
      by exists m.
Qed.

(** The first key goes below the root, to either side. *)
Lemma place_first n k v :
  rep 0 n (Branch Empty Empty) → keybit k 0 = false →
  placed id 0 n Empty Empty k v (place_below n (GetPath k) [] 0).
Proof.
  intros (Hk & H0 & H1) Hb. destruct n as [rk lh n0 n1]. cbn in *. destruct n0; [by destruct H0|]. destruct n1; [done|].
  unfold place_below. cbn [length]. rewrite take_0. cbn [node_at]. rewrite (go_index_GetPath k 0 ltac:(lia) : go_index _ 0 = _), bind_Ok, Hb.
  cbn [Z.b2z Nat.eqb Z.eqb andb node0 update_at]. eexists _, _, _. split; [done|]. split_and!; [| | |done..].
  - cbn [tins]. rewrite Hb. cbn. destruct H0 as [[_ ->]|(? & _)]; done.
  - cbn [tins]. rewrite Hb. split; cbn; [set_solver|done].
  - intros q (m & Hm & [? Hm0] & _). destruct q as [|y q]; cbn in Hm; [by simplify_eq|]. unfold child in Hm. by destruct (y =? 0).
Qed.

(** The last node that was found is not a leaf. *)
Lemma build_after_below (p : list bool) n sibs C l r k :
  rep (length p) n (Branch l r) → length sibs = length p → (p = [] ∨ last sibs = Some n ∧ (l ≠ Empty ∨ r ≠ Empty)) →
  build_after (C n) (GetPath k) (Ok (sibs, (length p - 1)%nat)) = place_below (C n) (GetPath k) sibs (length p - 1).
Proof.
  intros Hrep Hs Hroot. unfold build_after. rewrite bind_Ok. destruct (Nat.eqb_spec (length sibs) 0) as [|Hne]; [done|].
  destruct Hroot as [->|[Hl Hlr]]; [done|]. rewrite last_lookup, Hs in Hl. replace (pred (length p)) with (length p - 1)%nat in Hl by lia.
  rewrite (go_index_lookup _ _ _ Hl), bind_Ok. by rewrite (isLeaf_branch _ _ _ _ Hrep Hlr).
Qed.

Lemma build_spec k v t : ∀ p n sibs C l r,
  t = Branch l r → rep (length p) n (Branch l r) → (length p < 256)%nat →
  tree_ok (p ++ [false]) l → tree_ok (p ++ [true]) r → has_path p k → all_before k l → all_before k r →
  is_ctx C (zpath p) → length sibs = length p →
  (p = [] ∧ C = id ∨ last sibs = Some n ∧ (l ≠ Empty ∨ r ≠ Empty)) →
  placed C (length p) n l r k v (build_after (C n) (GetPath k) (findLastNode n (drop (length p) (GetPath k)) sibs (length p))).
Proof.
  induction t as [| |tl IHl tr IHr]; intros p n sibs C l r Et Hrep Hlen Hokl Hokr Hp Hbl Hbr HC Hs Hroot; [done..|].
  injection Et as -> ->. rewrite (drop_GetPath k) by lia. cbn [findLastNode].
  set (b := keybit k (length p)). destruct (child (Z.b2z b) n) as [c|] eqn:Hc.
  - assert (rep (S (length p)) c (if b then r else l)) as Hrc.
    { rewrite child_bit in Hc. destruct Hrep as (_ & H0 & H1). destruct b; rewrite Hc in *; [done|by destruct H0]. }
    assert (tree_ok (p ++ [b]) (if b then r else l)) as Hokc by (by destruct b).
    assert (all_before k (if b then r else l)) as Hbc by (by destruct b).
    destruct (if b then r else l) as [|k0 v0|l' r'] eqn:Ec; [done| |].
    + cbn in Hrc. subst c. rewrite isLeaf_leaf. unfold build_after. rewrite bind_Ok, length_snoc. cbn [Nat.eqb].
      assert ((sibs ++ [leaf_node (S (length p)) k0]) !! length p = Some (leaf_node (S (length p)) k0)) as Hlk
        by (rewrite <-Hs; by apply list_lookup_middle).
      rewrite (go_index_lookup _ _ _ Hlk), bind_Ok, isLeaf_leaf.
      replace (Z.of_nat (S (length sibs)) - 1) with (Z.of_nat (length p)) by lia. rewrite (go_index_lookup _ _ _ Hlk), bind_Ok.
      apply (place_beside_spec p n C l r k v k0 v0); try done.
      * destruct Hokc as (_ & H & _). exact H.
      * unfold all_before in Hbc. cbn in Hbc. by apply Forall_cons_1 in Hbc as [? _].
    + rewrite (isLeaf_branch _ _ _ _ Hrc).
      2: { destruct Hokc as (_ & H2 & _). destruct l'; [right; intros ->; cbn in H2; lia|by left..]. }
      pose proof (is_ctx_child C (zpath p) (Z.b2z b) n HC) as HC2. rewrite <-zpath_snoc in HC2.
      assert (length (sibs ++ [c]) = length (p ++ [b])) as Hs2 by (rewrite !length_snoc; lia).
      pose proof Hokc as (Hlen2 & Hge & Hl' & Hr').
      unfold all_before in Hbc. cbn [leaves] in Hbc. apply Forall_app in Hbc as [Hbl' Hbr'].
      assert (placed (λ c, C (set_child (Z.b2z b) (Some c) n)) (length (p ++ [b])) c l' r' k v
        (build_after (C (set_child (Z.b2z b) (Some c) n)) (GetPath k)
           (findLastNode c (drop (length (p ++ [b])) (GetPath k)) (sibs ++ [c]) (length (p ++ [b]))))) as Hpl.
      { assert (has_path (p ++ [b]) k) as Hpb by (by apply has_path_bit).
        assert (last (sibs ++ [c]) = Some c ∧ (l' ≠ Empty ∨ r' ≠ Empty)) as Hlast.
        { split; [apply last_snoc|]. destruct l'; [right; intros ->; cbn in Hge; lia|by left..]. }
        rewrite <-(length_snoc p b) in Hrc.
        destruct b; [apply (IHr (p ++ [true]) c (sibs ++ [c]) (λ c, C (set_child 1 (Some c) n)) l' r')
          |apply (IHl (p ++ [false]) c (sibs ++ [c]) (λ c, C (set_child 0 (Some c) n)) l' r')]; try done; by right. }
      rewrite length_snoc, (set_child_child _ _ _ Hc) in Hpl.
      destruct Hpl as (n' & j & lvl & E & Hn' & Hkp & Hg & Hj). eexists _, j, lvl. split; [exact E|]. 
      match goal with |- ?A ∧ ?B ∧ _ => assert (A ∧ B) as [??]; [|split_and!; [done..| |]] end.
      * pose proof (rep_set_child _ _ _ _ b _ _ _ Hrep Hc Hn') as Hr2.
        change (tins (length p) (Branch l r) k v) with (if b then Branch l (tins (S (length p)) r k v) else Branch (tins (S (length p)) l k v) r).
        rewrite <-Ec in Hkp. apply (kept_set_child _ _ _ _ _ _ b _ _ _ Hc) in Hkp. rewrite <-Ec in Hr2. by destruct b.
      * rewrite <-(set_child_child _ _ _ Hc) at 1. by apply grow_child.
      * destruct j as [j|]; [|destruct Hj as [-> ->]; cbn in Hge; lia]. by rewrite (set_child_child _ _ _ Hc) in Hj.
  - assert (p = [] ∨ last sibs = Some n ∧ (l ≠ Empty ∨ r ≠ Empty)) as Hroot' by (destruct Hroot as [[-> _]|?]; [by left|by right]).
    rewrite (build_after_below p n sibs C l r) by done.
    rewrite child_bit in Hc. destruct b eqn:Eb.
    + apply place_below_spec; try done. intros Hne. by destruct Hroot as [[? _]|[_ ?]].
    + assert (r = Empty) as -> by (by eapply left_key_right_empty). pose proof Hrep as (_ & H0 & _). rewrite Hc in H0.
      destruct H0 as [[-> _]|(_ & ? & _)]; [|done]. destruct Hroot as [[-> ->]|[_ []]]; [|done..].
      destruct sibs; [|done]. by apply place_first.
Qed.

(** Placing a key below the root. *)
Lemma build_key_spec root l r k v :
  rep 0 root (Branch l r) → sub_ok [] (Branch l r) → all_before k (Branch l r) →
  placed id 0 root l r k v (build_key root (GetPath k)).
Proof.
  intros Hrep (Hlen & Hl & Hr) [Hbl Hbr]%Forall_app.
  apply (build_spec k v (Branch l r) [] root [] id l r); try done; by left.
Qed.
End Rep.
