(* ===== verification/SmtCreateHash.v ===== *)
(** Hashing what the builder has grown, and saving it.

    Hashing a part of the tree returns the hash of the canonical tree and the
    nodes that were not hashed before ([deleteTreeNoSave_spec]); a job replaces
    the left of a node by its hash and leaves the represented tree as it is
    ([job_spec]), so the jobs may run at any time ([jobs_ok]).  The nodes a job
    yields belong to the final tree ([fixed_tins]).  Saving them keeps the values
    from which the tree is created ([SmtDBAccounts], [Save_spec]). *)

From S2P Require Import Prelude Bytes SmtUtils SmtKeys SmtDb SmtTree Smt SmtInsert.
From S2P Require Import SmtBatch SmtBatchSpec SmtBatchRefine SmtCreate SmtCreateSpec.

Local Open Scope Z_scope.
#[local] Set Warnings "-clear-no-such-hyp".
#[local] Opaque GetPath RemoveKeyBits.

(** * Stores that keep the values of the accounts apart *)

Definition same_accounts `{SmtDB D} (d d' : D) : Prop := ∀ k, db_GetAccountValue d' k = db_GetAccountValue d k.

Class SmtDBAccounts (D : Type) `{SmtDB D} := {
  accounts_Insert d k v d' : db_Insert d k v = Ok d' → same_accounts d d';
  accounts_InsertHashKey d h k d' : db_InsertHashKey d h k = Ok d' → same_accounts d d';
}.

#[export] Instance MemDb_accounts : SmtDBAccounts MemDb.
Proof.
  split; simpl.
  - intros d k v d' (vs & _ & [= <-])%bind_Ok_inv. done.
  - by intros d h k d' [= <-].
Qed.

#[export] Instance EriDb_accounts {T} `{KVTxLaws T} : SmtDBAccounts (EriDb T).
Proof.
  assert (∀ (d d' : EriDb T) b k v, b ≠ TableAccountValues → EriDb.put d b k v = Ok d' → same_accounts d d') as Hput.
  { intros d d' b k v Hb E k'. destruct (put_spec d b k v) as (d1 & E1 & _ & Hf). rewrite E in E1. injection E1 as <-.
    simpl. unfold EriDb.GetAccountValue. by rewrite Hf by congruence. }
  split; simpl.
  - intros d k v d' (vs & _ & E)%bind_Ok_inv. by apply Hput in E.
  - intros d h k d' E. by apply Hput in E.
Qed.

Section Hash.
Context (hash : list Z → NodeKey → NodeKey).
Context (hash_wf : ∀ i c, nk_wf (hash i c)).
Context (U : list preimage) (HU : hash_good hash U).

Abbreviation phash := (phash hash).
Abbreviation thash := (thash hash).
Abbreviation tree_nodes := (tree_nodes hash).
Abbreviation rep := (rep hash).
Abbreviation dropped := (dropped hash).

(** * Hashing a part of the tree *)

(** The maps of a result hold nodes of [U], each under its hash, and keys. *)
Definition kv_ok (M : gmap NodeKey NodeValue12) : Prop :=
  map_Forall (λ h v, ∃ q, q ∈ U ∧ preimage_wf q ∧ h = phash q ∧ v = node_of q) M.

Definition lk_ok (M : gmap NodeKey NodeKey) : Prop := map_Forall (λ h k, nk_wf h ∧ nk_wf k) M.

Definition has (M : gmap NodeKey NodeValue12) (q : preimage) : Prop := M !! phash q = Some (node_of q).

Lemma kv_insert M q : kv_ok M → q ∈ U → preimage_wf q → kv_ok (<[phash q := node_of q]> M).
Proof. intros HM Hq Hwf. apply map_Forall_insert_2; [by exists q|done]. Qed.

Lemma has_insert M q : has (<[phash q := node_of q]> M) q.
Proof. unfold has. by rewrite lookup_insert_eq. Qed.

Lemma has_insert_keep M q q' : q ∈ U → q' ∈ U → has M q' → has (<[phash q := node_of q]> M) q'.
Proof.
  intros Hq Hq' H. destruct (decide (phash q = phash q')) as [E|E].
  - apply (hash_good_inj U) in E as ->; [apply has_insert|done..].
  - unfold has. by rewrite lookup_insert_ne.
Qed.

(** What hashing at the path [p] does: of the nodes [N], all but those of [X] are
    added, and only values of keys below [p] are removed. *)
Record hashed (p : list bool) (N X : list preimage) (st st' : hashing) : Prop := {
  hd_kv : kv_ok (KvMap st');
  hd_lk : lk_ok (LeafsKvMap st');
  hd_keep q : q ∈ U → has (KvMap st) q → has (KvMap st') q;
  hd_nodes q : q ∈ N → q ∈ X ∨ has (KvMap st') q;
  hd_values k : ¬ has_path p k → leafValueMap st' !! k = leafValueMap st !! k;
}.

Lemma hashed_nothing p N st : kv_ok (KvMap st) → lk_ok (LeafsKvMap st) → hashed p N N st st.
Proof. intros Hkv Hlk. split; auto. Qed.

Lemma hashed_branch p Nl Nr Xl Xr st st1 st2 q :
  hashed (p ++ [false]) Nl Xl st st1 → hashed (p ++ [true]) Nr Xr st1 st2 → Nl ⊆ U → q ∈ U → preimage_wf q → Nr ⊆ U →
  hashed p (q :: Nl ++ Nr) (Xl ++ Xr) st
    (mkHashing (leafValueMap st2) (<[phash q := node_of q]> (KvMap st2)) (LeafsKvMap st2)).
Proof.
  intros [Hkv1 Hlk1 Hk1 Hn1 Hv1] [Hkv2 Hlk2 Hk2 Hn2 Hv2] Hl Hq Hwf Hr.
  constructor; cbn [KvMap LeafsKvMap leafValueMap]; [by apply kv_insert|done| | |].
  - intros x Hx Hh. apply has_insert_keep; auto.
  - intros x [->|[Hx|Hx]%elem_of_app]%elem_of_cons; [right; apply has_insert|..].
    + destruct (Hn1 x Hx) as [|Hh]; [left; set_solver|right]. apply has_insert_keep; auto.
    + destruct (Hn2 x Hx) as [|Hh]; [left; set_solver|right]. apply has_insert_keep; auto.
  - intros k Hk. rewrite Hv2, Hv1; [done|..]; intros [? _]%has_path_snoc; done.
Qed.

Definition values_of (leafs : gmap NodeKey NodeValue8) (l : list (NodeKey * list Z)) : Prop :=
  ∀ k v, (k, v) ∈ l → leafs !! k = Some (Some <$> v : NodeValue8).

Lemma total_hash_right a b :
  nk_wf a → nk_wf b → ToUintArray (set_quarter (set_quarter (replicate 8 None) 1 b) 0 a) = ConcatArrays4 a b.
Proof.
  intros Ha Hb. rewrite <-(total_hash a b) by done. by destruct a, b.
Qed.

Lemma total_hash_left a : nk_wf a → ToUintArray (set_quarter (replicate 8 None) 0 a) = ConcatArrays4 a nk_zero.
Proof.
  intros Ha. rewrite <-(total_hash a nk_zero) by (done || apply nk_zero_wf). by destruct a.
Qed.

Lemma hash_leaf p k v st :
  tree_ok p (Leaf k v) → (length p ≤ 256)%nat → tree_nodes (length p) (Leaf k v) ⊆ U →
  leafValueMap st !! k = Some (Some <$> v : NodeValue8) → kv_ok (KvMap st) → lk_ok (LeafsKvMap st) →
  ∃ st', deleteTreeNoSave hash (leaf_node (length p) k) (zpath p) st = Ok (thash (length p) (Leaf k v), st') ∧
    hashed p (tree_nodes (length p) (Leaf k v)) [] st st'.
Proof.
  intros (Hk & Hp & Hv) Hlen Hsub Hval Hkv Hlk. cbn [SmtTree.tree_nodes] in Hsub.
  assert (val_pre v ∈ U ∧ leaf_pre hash (length p) k v ∈ U) as [Hv1 Hv2] by set_solver +Hsub.
  unfold leaf_node. cbn [deleteTreeNoSave isLeaf node0 node1 leftHash]. change (NodeKey_IsZero nk_zero) with true. cbv iota.
  rewrite <-(take_zpath p k), take_drop, NodeKeyFromPath_GetPath, bind_Ok, Hval by done.
  rewrite length_take, length_GetPath, Nat.min_l by done. unfold createNewLeafNoSave, HashKeyAndValueByPointers.
  rewrite ToUintArray_some by apply Hv. eexists. split; [done|].
  change (hash v BranchCapacity) with (phash (val_pre v)). fold (leaf_pre hash (length p) k v).
  change (hash (ConcatArrays4 (RemoveKeyBits k (Z.of_nat (length p))) (phash (val_pre v))) LeafCapacity) with (phash (leaf_pre hash (length p) k v)).
  constructor; cbn [KvMap LeafsKvMap leafValueMap].
  - apply (kv_insert _ (leaf_pre hash (length p) k v)); [|done|by apply leaf_pre_wf].
    apply (kv_insert _ (val_pre v)); [done..|by apply val_pre_wf].
  - apply map_Forall_insert_2; [|done]. split; [apply hash_wf|done].
  - intros q Hq Hh. apply (has_insert_keep _ (leaf_pre hash (length p) k v)); [done..|].
    by apply (has_insert_keep _ (val_pre v)).
  - intros q [->|[->|[]%elem_of_nil]%elem_of_cons]%elem_of_cons; right.
    + apply (has_insert_keep _ (leaf_pre hash (length p) k v)); [done..|]. apply (has_insert _ (val_pre v)).
    + apply (has_insert _ (leaf_pre hash (length p) k v)).
  - intros k' Hk'. apply lookup_delete_ne. by intros ->.
Qed.

Lemma leftHash_thash d rk lh n1 l r : rep d (mkNode rk lh None n1) (Branch l r) → lh = thash (S d) l.
Proof. intros (_ & H & _). cbn in H. by destruct H as [[-> ->]|(_ & _ & ->)]. Qed.

Lemma live_values_right p leafs leafs' l : 
  (∀ k, ¬ has_path (p ++ [false]) k → leafs' !! k = leafs !! k) →
  (∀ k v, (k, v) ∈ l → has_path (p ++ [true]) k) → values_of leafs l → values_of leafs' l.
Proof.
  intros Hv Hp Hl k v Hin. rewrite Hv; [by apply Hl|]. intros [_ Hk]%has_path_snoc.
  apply Hp, has_path_snoc in Hin as [_ Hk']. congruence.
Qed.

Lemma deleteTreeNoSave_spec t : ∀ p n st,
  rep (length p) n t → tree_ok p t → (length p ≤ 256)%nat → tree_nodes (length p) t ⊆ U →
  values_of (leafValueMap st) (live n t) → kv_ok (KvMap st) → lk_ok (LeafsKvMap st) →
  ∃ st', deleteTreeNoSave hash n (zpath p) st = Ok (thash (length p) t, st') ∧
    hashed p (tree_nodes (length p) t) (dropped (length p) n t) st st'.
Proof.
  induction t as [|k v|l IHl r IHr]; intros p n st Hrep Hok Hlen Hsub Hval Hkv Hlk; [done|..].
  { cbn in Hrep. subst n. apply hash_leaf; try done. apply Hval. by left. }
  assert (isLeaf n = false) as Hleaf.
  { apply (isLeaf_branch _ _ _ _ _ Hrep). destruct Hok as (_ & H2 & _). destruct l; [right; intros ->; cbn in H2; lia|by left..]. }
  destruct Hok as (Hlt & H2 & Hokl & Hokr). destruct n as [rk lh n0 n1]. cbn [deleteTreeNoSave]. rewrite Hleaf.
  cbn [SmtTree.tree_nodes] in Hsub.
  assert (branch_pre (thash (S (length p)) l) (thash (S (length p)) r) ∈ U) as HqU by set_solver +Hsub.
  assert (tree_nodes (S (length p)) l ⊆ U) as HlU by set_solver +Hsub.
  assert (tree_nodes (S (length p)) r ⊆ U) as HrU by set_solver +Hsub. clear Hsub.
  assert (∃ st1, match n0 with
      | Some c => if negb (NodeKey_IsZero lh) then Err "node has previously deleted left part" else deleteTreeNoSave hash c (zpath p ++ [0]) st
      | None => Ok (lh, st) end = Ok (thash (S (length p)) l, st1) ∧
    hashed (p ++ [false]) (tree_nodes (S (length p)) l)
      (match n0 with Some c => dropped (S (length p)) c l | None => tree_nodes (S (length p)) l end) st st1) as (st1 & -> & Hst1).
  { destruct n0 as [c|]; [|rewrite (leftHash_thash _ _ _ _ _ _ Hrep); exists st; split; [done|by apply hashed_nothing]].
    destruct Hrep as (_ & [Hz Hc] & _). cbn in Hz. subst lh. change (NodeKey_IsZero nk_zero) with true. cbv iota beta delta [negb].
    rewrite <-(length_snoc p false) in *. change [0] with [Z.b2z false]. rewrite <-zpath_snoc.
    apply IHl; try done; [by rewrite length_snoc; lia|]. intros k v Hin. apply Hval. cbn. set_solver +Hin. }
  rewrite bind_Ok.
  match goal with |- ∃ _, (?m ≫= _) = _ ∧ _ => assert (∃ st2 th, m = Ok (th, st2) ∧
    ToUintArray (set_quarter th 0 (thash (S (length p)) l)) = ConcatArrays4 (thash (S (length p)) l) (thash (S (length p)) r) ∧
    hashed (p ++ [true]) (tree_nodes (S (length p)) r)
      (match n1 with Some c => dropped (S (length p)) c r | None => [] end) st1 st2) as (st2 & th & -> & Hth & Hst2) end.
  { destruct Hrep as (_ & _ & Hr). cbn in Hr. destruct n1 as [c|].
    2: { subst r. exists st1. eexists. split; [done|]. split; [by apply total_hash_left, thash_wf|]. destruct Hst1. by apply hashed_nothing. }
    assert (∃ st2, deleteTreeNoSave hash c (zpath p ++ [1]) st1 = Ok (thash (S (length p)) r, st2) ∧
      hashed (p ++ [true]) (tree_nodes (S (length p)) r) (dropped (S (length p)) c r) st1 st2) as (st2 & -> & Hst2).
    { pose proof (live_leaves _ _ _ _ Hr) as Hll. rewrite <-(length_snoc p true) in *. change [1] with [Z.b2z true]. rewrite <-zpath_snoc.
      destruct Hst1. apply IHr; try done; [by rewrite length_snoc; lia|].
      apply (live_values_right p (leafValueMap st)); [done| |intros k v Hin; apply Hval; cbn; set_solver +Hin].
      intros k v Hin%Hll. by apply (leaves_path _ _ _ _ Hokr) in Hin as (_ & ? & _). }
    rewrite bind_Ok. exists st2. eexists. split; [done|]. split; [by apply total_hash_right; apply thash_wf|done]. }
  rewrite bind_Ok. unfold HashKeyAndValueByPointers. rewrite Hth. eexists. split; [done|].
  apply (hashed_branch _ _ _ _ _ _ st1 st2 (branch_pre (thash (S (length p)) l) (thash (S (length p)) r))); try done.
  apply branch_pre_wf; by apply thash_wf.
Qed.

End Hash.

(** * What no later key changes *)

Section Jobs.
Context (hash : list Z → NodeKey → NodeKey).

Abbreviation phash := (phash hash).
Abbreviation thash := (thash hash).
Abbreviation tree_nodes := (tree_nodes hash).
Abbreviation rep := (rep hash).
Abbreviation dropped := (dropped hash).

Fixpoint fixed (d : nat) (t : tree) : list preimage :=
  match t with
  | Branch l r => if decide (r = Empty) then fixed (S d) l else tree_nodes (S d) l ++ fixed (S d) r
  | _ => []
  end.

Lemma fixed_nodes t : ∀ d, fixed d t ⊆ tree_nodes d t.
Proof.
  induction t as [|k v|l IHl r IHr]; intros d; [done|cbn; set_solver|]. cbn [fixed SmtTree.tree_nodes].
  specialize (IHl (S d)). specialize (IHr (S d)). case_decide; set_solver.
Qed.

Lemma fixed_tins t : ∀ p k v,
  sub_ok p t → nk_wf k → val_ok v → has_path p k → all_before k t →
  fixed (length p) t ⊆ fixed (length p) (tins (length p) t k v).
Proof.
  induction t as [|k' v'|l IHl r IHr]; intros p k v Hok Hk Hv Hp Hb; [cbn; set_solver..|].
  destruct Hok as (_ & Hl & Hr). apply Forall_app in Hb as [Hbl Hbr]. cbn [tins].
  pose proof (has_path_bit p k Hp) as Hpb. destruct (keybit k (length p)) eqn:E; cbn [fixed].
  - rewrite (decide_False (P := tins _ _ _ _ = Empty)).
    2: { intros E0. destruct (tins_nleaves (p ++ [true]) r k v) as [_ Hn]; [done..|]. rewrite length_snoc, E0 in Hn. cbn in Hn. lia. }
    pose proof (IHr (p ++ [true]) k v (tree_sub_ok _ _ Hr) Hk Hv Hpb Hbr) as IH. rewrite length_snoc in IH.
    pose proof (fixed_nodes l (S (length p))). case_decide; set_solver.
  - assert (r = Empty) as -> by (by eapply left_key_right_empty). rewrite !decide_True by done.
    rewrite <-(length_snoc p false). apply IHl; try done. by apply tree_sub_ok.
Qed.

Lemma dropped_fixed t : ∀ d n, rep d n t → dropped d n t ⊆ fixed d t.
Proof.
  induction t as [|k v|l IHl r IHr]; intros d n Hr; [done..|]. destruct Hr as (_ & H0 & H1). cbn [SmtCreateSpec.dropped fixed].
  pose proof (fixed_nodes l (S d)) as Hf. destruct (decide (r = Empty)) as [->|Hne].
  - destruct (node1 n); [done|]. destruct (node0 n) as [c|]; [destruct H0 as [_ H0]; apply IHl in H0; set_solver|].
    destruct H0 as [[-> _]|(_ & ? & _)]; [cbn; set_solver|done].
  - destruct (node1 n); [apply IHr in H1|done]. destruct (node0 n) as [c|]; [destruct H0 as [_ H0]; apply IHl in H0|]; set_solver.
Qed.

(** * Jobs *)

(** A job at [q] below the node [n] of [t]: it finds the part [l] of the tree. *)
Record job_at (p : list bool) (n : SmtNode) (t : tree) (q : list bool) (m c : SmtNode) (l : tree) : Prop := {
  ja_node : node_at n (zpath q) = Some m;
  ja_left : node0 m = Some c;
  ja_rep : rep (length (p ++ q ++ [false])) c l;
  ja_ok : tree_ok (p ++ q ++ [false]) l;
  ja_len : (length (p ++ q ++ [false]) ≤ 256)%nat;
  ja_live : live c l ⊆ live n t;
  ja_nodes : tree_nodes (length (p ++ q ++ [false])) l ⊆ fixed (length p) t;
  ja_dropped : dropped (length (p ++ q ++ [false])) c l ⊆ dropped (length p) n t;
}.

(** The left of the node at [q] replaced by the hash of [l]. *)
Definition drop_left (h : NodeKey) (q : list Z) (n : SmtNode) : SmtNode :=
  update_at (λ n, mkNode (rKey n) h None (node1 n)) q n.

Record job_done (p : list bool) (n : SmtNode) (t : tree) (q : list bool) (l : tree) (n' : SmtNode) : Prop := {
  jd_rep : rep (length p) n' t;
  jd_live x : x ∈ live n' t → x ∈ live n t ∧ ¬ has_path (p ++ q ++ [false]) x.1;
  jd_dropped : dropped (length p) n' t ⊆ dropped (length p) n t ++ tree_nodes (length (p ++ q ++ [false])) l;
  jd_both q' : both n (zpath q') → q' ≠ q → ¬ (q ++ [false]) `prefix_of` q' → both n' (zpath q');
}.

Lemma job_here p n l r :
  rep (length p) n (Branch l r) → sub_ok p (Branch l r) → both n [] →
  ∃ c, job_at p n (Branch l r) [] n c l ∧ job_done p n (Branch l r) [] l (drop_left (thash (length (p ++ [false])) l) [] n).
Proof.
  intros (Hk & H0 & H1) (Hlen & Hl & Hr) (m & [= <-] & [c Hc] & [c1 Hc1]). rewrite Hc in H0. rewrite Hc1 in H1. destruct H0 as [Hz H0].
  pose proof (rep_nonempty _ _ _ _ H0) as Hne0. pose proof (rep_nonempty _ _ _ _ H1) as Hne1.
  exists c. split; constructor; cbn [app]; rewrite ?length_snoc; try done.
  - cbn. rewrite Hc. set_solver.
  - cbn. rewrite decide_False by done. set_solver.
  - cbn. rewrite Hc. set_solver.
  - cbn. rewrite Hc1. split_and!; [done| |done]. by right.
  - intros x Hx. cbn in *. rewrite Hc1 in *. split; [set_solver|]. intros [_ Hb]%has_path_snoc.
    apply (live_leaves _ _ _ _ H1) in Hx. destruct x as [k v]. apply (leaves_path _ _ _ _ Hr) in Hx as (_ & Hx & _).
    apply has_path_snoc in Hx as [_ Hx]. cbn in Hb. congruence.
  - cbn. rewrite Hc1. set_solver.
  - intros [|b q'] (m & Hm & Hs) Hne Hpre; [done|]. cbn [node_at] in Hm. exists m. split; [|done]. cbn [node_at drop_left update_at].
    destruct b; [done|]. destruct Hpre. by exists q'.
Qed.

(** A leaf in memory is on the side [b], or on the other. *)
Lemma live_side (p : list bool) n l r (b : bool) c0 c' x :
  rep (length p) n (Branch l r) → sub_ok p (Branch l r) → child (Z.b2z b) n = Some c0 →
  x ∈ live (set_child (Z.b2z b) (Some c') n) (Branch l r) →
  x ∈ live c' (if b then r else l) ∨ x ∈ live n (Branch l r) ∧ has_path (p ++ [negb b]) x.1.
Proof.
  destruct n as [rk lh n0 n1], x as [k v]. rewrite child_bit. intros (_ & H0 & H1) (_ & Hl & Hr) Hc Hx.
  destruct b; cbn in Hx, Hc, H0, H1 |- *.
  - apply elem_of_app in Hx as [Hx|Hx]; [right|by left]. split; [set_solver|]. destruct n0 as [c1|]; [|set_solver].
    destruct H0 as [_ H0]. apply (live_leaves _ _ _ _ H0) in Hx. by apply (leaves_path _ _ _ _ Hl) in Hx as (_ & ? & _).
  - apply elem_of_app in Hx as [Hx|Hx]; [by left|right]. split; [set_solver|]. destruct n1 as [c1|]; [|set_solver].
    apply (live_leaves _ _ _ _ H1) in Hx. by apply (leaves_path _ _ _ _ Hr) in Hx as (_ & ? & _).
Qed.

(** One step down, to the side [b]. *)
Lemma job_down (p : list bool) n l r (b : bool) c0 q m c t' :
  let tc := if b then r else l in
  rep (length p) n (Branch l r) → sub_ok p (Branch l r) → child (Z.b2z b) n = Some c0 →
  job_at (p ++ [b]) c0 tc q m c t' →
  job_done (p ++ [b]) c0 tc q t' (drop_left (thash (length ((p ++ [b]) ++ q ++ [false])) t') (zpath q) c0) →
  job_at p n (Branch l r) (b :: q) m c t' ∧
  job_done p n (Branch l r) (b :: q) t' (drop_left (thash (length (p ++ (b :: q) ++ [false])) t') (zpath (b :: q)) n).
Proof.
  intros tc Hrep (Hlen & Hl & Hr) Hc [Hm Hc' Hr' Hok' Hlen' Hlv Hnd Hdr] [Jr Jl Jd Jb].
  assert ((p ++ [b]) ++ q ++ [false] = p ++ (b :: q) ++ [false]) as Ep by (by rewrite <-app_assoc). rewrite Ep in *. clear Ep.
  set (p' := p ++ (b :: q) ++ [false]) in *. set (c' := drop_left _ (zpath q) c0) in *.
  assert (drop_left (thash (length p') t') (zpath (b :: q)) n = set_child (Z.b2z b) (Some c') n) as En
    by (unfold drop_left; cbn [zpath fmap list_fmap update_at]; by rewrite Hc).
  rewrite En. rewrite length_snoc in *.
  assert (live n (Branch l r) = if b then match node0 n with Some c => live c l | None => [] end ++ live c0 r
    else live c0 l ++ match node1 n with Some c => live c r | None => [] end) as Eln.
  { rewrite child_bit in Hc. cbn. destruct b; by rewrite Hc. }
  assert (dropped (length p) n (Branch l r) =
    if b then match node0 n with Some c => dropped (S (length p)) c l | None => tree_nodes (S (length p)) l end ++ dropped (S (length p)) c0 r
    else dropped (S (length p)) c0 l ++ match node1 n with Some c => dropped (S (length p)) c r | None => [] end) as Edn.
  { rewrite child_bit in Hc. cbn. destruct b; by rewrite Hc. }
  split; constructor; fold p'; try done.
  - cbn [zpath fmap list_fmap node_at]. by rewrite Hc.
  - rewrite Eln. unfold tc in Hlv. destruct b; set_solver.
  - unfold tc in Hnd. cbn [fixed]. pose proof (fixed_nodes l (S (length p))). destruct Hrep as (_ & H0 & H1). rewrite child_bit in Hc. destruct b.
    + rewrite Hc in H1. rewrite decide_False by (by eapply rep_nonempty). set_solver.
    + case_decide; set_solver.
  - rewrite Edn. unfold tc in Hdr. destruct b; set_solver.
  - pose proof (rep_set_child _ _ _ _ _ b _ _ _ Hrep Hc Jr) as Hr2. unfold tc in Hr2. by destruct b.
  - intros x Hx. destruct (live_side p n l r b c0 c' x) as [Hx'|[Hx' Hxp]]; [done..| |].
    + apply Jl in Hx' as [Hx' ?]. split; [|done]. rewrite Eln. unfold tc in Hx'. destruct b; set_solver.
    + split; [done|]. intros Hp. apply has_path_snoc in Hxp as [_ Hxp]. 
      assert (has_path (p ++ [b]) x.1) as [_ Hxp']%has_path_snoc; [|by rewrite Hxp in Hxp'; destruct b].
      intros j y Hj. apply Hp. unfold p'. rewrite (app_assoc p [b] _ : p ++ (b :: q) ++ [false] = _). by apply lookup_app_l_Some.
  - rewrite Edn. destruct n as [rk lh n0 n1]. unfold tc in Jd. destruct b; cbn; set_solver +Jd.
  - intros q' Hb Hne Hpre. destruct q' as [|x q'].
    + destruct Hb as (y & [= <-] & H0 & H1). eexists. split; [done|]. unfold set_child. rewrite child_bit in Hc. destruct b; cbn; eauto.
    + destruct Hb as (y & Hy & Hs). cbn [zpath fmap list_fmap node_at] in Hy.
      destruct (decide (x = b)) as [->|Hxb].
      * rewrite Hc in Hy. destruct (Jb q') as (y' & Hy' & Hs'); [by exists y|congruence|intros [z ->]; apply Hpre; by exists z|].
        exists y'. split; [|done]. cbn [zpath fmap list_fmap node_at]. by rewrite child_set_eq.
      * exists y. split; [|done]. cbn [zpath fmap list_fmap node_at]. rewrite child_set_ne; [done|]. by destruct b, x.
Qed.

Lemma job_spec t : ∀ p n q,
  rep (length p) n t → sub_ok p t → both n (zpath q) →
  ∃ m c l, job_at p n t q m c l ∧ job_done p n t q l (drop_left (thash (length (p ++ q ++ [false])) l) (zpath q) n).
Proof.
  induction t as [|k v|l IHl r IHr]; intros p n q Hrep Hok Hb; [done|cbn in Hrep; subst; by apply both_leaf in Hb|].
  destruct q as [|b q]; [destruct (job_here p n l r Hrep Hok Hb) as (c & ?); by exists n, c, l|].
  destruct Hb as (y & Hy & Hs). cbn [zpath fmap list_fmap node_at] in Hy. destruct (child (Z.b2z b) n) as [c0|] eqn:Hc; [|done].
  pose proof Hrep as (_ & H0 & H1). pose proof Hok as (Hlen & Hl & Hr).
  assert (∃ m c t', job_at (p ++ [b]) c0 (if b then r else l) q m c t' ∧
    job_done (p ++ [b]) c0 (if b then r else l) q t' (drop_left (thash (length ((p ++ [b]) ++ q ++ [false])) t') (zpath q) c0))
    as (m & c & t' & Ha & Hd).
  { rewrite child_bit in Hc. destruct b; [apply IHr|apply IHl]; rewrite ?length_snoc; try by apply tree_sub_ok.
    1, 3: rewrite Hc in *; by try destruct H0. all: by exists y. }
  exists m, c, t'. by apply (job_down p n l r b c0).
Qed.

(** The jobs in the queue: each has both sides in memory, and none of them is
    on the left of an earlier one. *)
Fixpoint jobs_ok (root : SmtNode) (js : list job) : Prop :=
  match js with
  | [] => True
  | j :: js => ∃ q, j = mkJob (zpath q) (zpath q ++ [0]) ∧ both root (zpath q) ∧
      Forall (λ j', ∃ q', nodeToDelFrom j' = zpath q' ∧ q' ≠ q ∧ ¬ (q ++ [false]) `prefix_of` q') js ∧ jobs_ok root js
  end.

Lemma zpath_inj p q : zpath p = zpath q → p = q.
Proof. apply list_fmap_eq_inj. by intros [] []. Qed.

Lemma jobs_grow root root' js : grow root root' → jobs_ok root js → jobs_ok root' js.
Proof. intros Hg. induction js as [|j js IH]; [done|]. intros (q & ? & ? & ? & ?). exists q. split_and!; auto. Qed.

Lemma jobs_head root j js t :
  rep 0 root t → sub_ok [] t → jobs_ok root (j :: js) →
  ∃ q m c l, j = mkJob (zpath q) (zpath q ++ [0]) ∧ job_at [] root t q m c l ∧
    let root' := drop_left (thash (length (q ++ [false])) l) (zpath q) root in job_done [] root t q l root' ∧ jobs_ok root' js.
Proof.
  intros Hrep Hok (q & -> & Hb & Hq & Hjs). destruct (job_spec t [] root q) as (m & c & l & Ha & Hd); [done..|].
  exists q, m, c, l. split; [done|]. split; [done|]. cbn zeta. split; [done|]. destruct Hd as [_ _ _ Hboth]. cbn [app] in Hboth.
  clear Hb Ha. induction js as [|j js IH]; [done|]. apply Forall_cons in Hq as [(q' & Ej & Hne & Hpre) Hq].
  destruct Hjs as (q1 & -> & Hb1 & Hq1 & Hjs). cbn in Ej. apply zpath_inj in Ej as ->. exists q'. split_and!; auto.
Qed.

Lemma jobs_snoc root js q :
  jobs_ok root js → both root (zpath q) →
  (∀ q', mkJob (zpath q') (zpath q' ++ [0]) ∈ js → q ≠ q' ∧ ¬ (q' ++ [false]) `prefix_of` q) →
  jobs_ok root (js ++ [mkJob (zpath q) (zpath q ++ [0])]).
Proof.
  induction js as [|j js IH]; intros Hjs Hb Hq; cbn [app jobs_ok].
  { exists q. split_and!; [done..|by constructor|done]. }
  destruct Hjs as (q1 & -> & Hb1 & Hq1 & Hjs). exists q1. split_and!; [done..| |].
  - apply Forall_app. split; [done|]. apply Forall_singleton. exists q. split; [done|]. apply Hq. by left.
  - apply IH; [done..|]. intros q' Hin. apply Hq. by right.
Qed.

Lemma jobs_both root js q : jobs_ok root js → mkJob (zpath q) (zpath q ++ [0]) ∈ js → both root (zpath q).
Proof.
  induction js as [|j js IH]; intros Hjs Hin; [by apply elem_of_nil in Hin|]. destruct Hjs as (q1 & -> & Hb1 & _ & Hjs).
  apply elem_of_cons in Hin as [E|Hin]; [|auto]. by injection E as [= ->%zpath_inj].
Qed.

End Jobs.

(** * Running a job and saving its result *)

Section Save.
Context (hash : list Z → NodeKey → NodeKey).
Context (hash_wf : ∀ i c, nk_wf (hash i c)).
Context (U : list preimage) (HU : hash_good hash U).

Abbreviation phash := (phash hash).
Abbreviation thash := (thash hash).
Abbreviation tree_nodes := (tree_nodes hash).
Abbreviation fixed := (fixed hash).
Abbreviation kv_ok := (kv_ok hash U).
Abbreviation has := (has hash).
Abbreviation rep := (rep hash).
Abbreviation dropped := (dropped hash).

(** Running the first job of the queue. *)
Lemma run_job_spec root leafs j js t :
  rep 0 root t → sub_ok [] t → jobs_ok root (j :: js) → fixed 0 t ⊆ U → values_of leafs (live root t) →
  ∃ root' leafs' r, run_job hash root leafs j = Ok (root', leafs', r) ∧ rep 0 root' t ∧ jobs_ok root' js ∧
    values_of leafs' (live root' t) ∧ jr_Err r = None ∧ kv_ok (jr_KvMap r) ∧ lk_ok (jr_LeafsKvMap r) ∧
    ∀ q, q ∈ dropped 0 root' t → q ∈ dropped 0 root t ∨ has (jr_KvMap r) q.
Proof.
  intros Hrep Hok Hjs HfU Hval.
  destruct (jobs_head hash root j js t) as (q & m & c & l & -> & [Hm Hc Hcr Hcok Hlen Hlive Hnodes Hdr] & [Jr Jl Jd _] & Hjs'); [done..|].
  cbn [app length] in *. unfold run_job. cbn [nodeToDelFrom pathToDeleteFrom]. rewrite Hm, Hc.
  destruct (deleteTreeNoSave_spec hash hash_wf U HU l (q ++ [false]) c (mkHashing leafs ∅ ∅)) as (st & E & [Hkv Hlk _ Hnd Hv]); [done..|set_solver| |done|done|].
  { intros k v Hin. apply Hval. set_solver. }
  rewrite zpath_snoc in E. cbn [Z.b2z] in E. rewrite E. fold (drop_left (thash (length (q ++ [false])) l) (zpath q) root).
  eexists _, _, _. split; [done|]. cbn [jr_Err jr_KvMap jr_LeafsKvMap]. split_and!; try done.
  - intros k v Hin. destruct (Jl _ Hin) as [Hin' Hnp]. rewrite Hv by done. by apply Hval.
  - intros x Hx%Jd. apply elem_of_app in Hx as [Hx|Hx]; [by left|]. destruct (Hnd x Hx); [left; set_solver|by right].
Qed.

(** * Saving *)

Context {D : Type} {SD : SmtDB D} {SL : SmtDBLaws D} {SA : SmtDBAccounts D}.

Definition node_in (d : D) (q : preimage) : Prop := db_Get d (phash q) = Ok (node_of q).

(** What saving the nodes that satisfy [P] does to a store. *)
Record saved (P : preimage → Prop) (d d' : D) : Prop := {
  sv_keep q : q ∈ U → node_in d q → node_in d' q;
  sv_new q : q ∈ U → P q → node_in d' q;
  sv_meta : same_meta d d';
  sv_accounts : same_accounts d d';
}.

Lemma save_keys_spec l : ∀ d,
  Forall (λ x, nk_wf x.1 ∧ nk_wf x.2) l →
  ∃ d', save_loop (λ d '(key, value), db_InsertHashKey d key value) d l = Ok (d', None) ∧ saved (λ _, False) d d'.
Proof.
  induction l as [|[h k] l IH]; intros d Hl; cbn [save_loop]; [by exists d|]. apply Forall_cons in Hl as [[Hh Hk] Hl].
  destruct (law_InsertHashKey d h k Hh Hk) as (d1 & E1 & Hn1 & Hm1 & _). rewrite E1. apply accounts_InsertHashKey in E1.
  destruct (IH d1 Hl) as (d2 & -> & [Hk2 _ Hm2 Ha2]). exists d2. split; [done|]. constructor; [|done|by eapply same_meta_trans|].
  - intros q Hq Hi. apply Hk2; [done|]. unfold node_in. by rewrite Hn1 by apply hash_wf.
  - intros x. by rewrite Ha2, E1.
Qed.

Lemma save_nodes_spec l : ∀ d,
  Forall (λ x, ∃ q, q ∈ U ∧ preimage_wf q ∧ x.1 = phash q ∧ x.2 = node_of q) l →
  ∃ d', save_loop (λ d '(key, value), db_Insert d key value) d l = Ok (d', None) ∧ saved (λ q, (phash q, node_of q) ∈ l) d d'.
Proof.
  induction l as [|[h v] l IH]; intros d Hl; cbn [save_loop]; [exists d; split; [done|]; split; [done|by intros q _ ?%elem_of_nil|done..]|].
  apply Forall_cons in Hl as [(q0 & Hq0 & Hwf0 & Eh & Ev) Hl]. cbn in Eh, Ev. subst h v.
  destruct (law_Insert d (phash q0) (node_of q0)) as (d1 & E1 & Hg1 & Hm1 & Hf1); [apply hash_wf|by apply node_of_wf|].
  rewrite E1. apply accounts_Insert in E1. destruct (IH d1 Hl) as (d2 & -> & [Hk2 Hn2 Hm2 Ha2]). exists d2. split; [done|].
  assert (∀ q, q ∈ U → node_in d q ∨ phash q = phash q0 → node_in d1 q) as Hk1.
  { intros q Hq Hor. destruct (decide (phash q = phash q0)) as [E|E].
    - apply (hash_good_inj U) in E as ->; done.
    - destruct Hor; [|done]. unfold node_in. by rewrite Hf1 by (done || apply hash_wf). }
  constructor; [by auto| |by eapply same_meta_trans|intros x; by rewrite Ha2, E1].
  intros q Hq [E|Hin]%elem_of_cons; [|auto]. apply Hk2; [done|]. apply Hk1; [done|]. right. by injection E.
Qed.

Context (orderL : gmap NodeKey NodeKey → list (NodeKey * NodeKey)) (orderL_perm : ∀ m, orderL m ≡ₚ map_to_list m).
Context (orderK : gmap NodeKey NodeValue12 → list (NodeKey * NodeValue12)) (orderK_perm : ∀ m, orderK m ≡ₚ map_to_list m).

Lemma Save_spec d r :
  kv_ok (jr_KvMap r) → lk_ok (jr_LeafsKvMap r) →
  ∃ d', Save orderL orderK d r = Ok (d', None) ∧ saved (has (jr_KvMap r)) d d'.
Proof.
  intros Hkv Hlk. unfold Save.
  destruct (save_keys_spec (orderL (jr_LeafsKvMap r)) d) as (d1 & -> & [Hk1 _ Hm1 Ha1]).
  { rewrite orderL_perm. apply map_Forall_to_list in Hlk. eapply Forall_impl; [exact Hlk|]. by intros []. }
  rewrite bind_Ok.
  destruct (save_nodes_spec (orderK (jr_KvMap r)) d1) as (d2 & -> & [Hk2 Hn2 Hm2 Ha2]).
  { rewrite orderK_perm. apply map_Forall_to_list in Hkv. eapply Forall_impl; [exact Hkv|]. intros [h v] (q & ?). by exists q. }
  exists d2. split; [done|]. constructor; [auto| |by eapply same_meta_trans|intros x; by rewrite Ha2, Ha1].
  intros q Hq Hh. apply Hn2; [done|]. rewrite orderK_perm. by apply elem_of_map_to_list.
Qed.
End Save.
