(* ===== verification/SmtCreateRefine.v ===== *)
(** The creation of a tree is correct under every schedule.

    [inv] is an invariant of the three goroutines: the tree in memory represents
    the canonical tree of the keys that are placed, and every node that was
    replaced by its hash is in the database or in a result on its way there.
    Whatever GenerateFromKVBulk returns is the root of the canonical tree of all
    values, whose nodes are then stored; without cancellation it does return. *)

From stdpp Require Import sorting.
From S2P Require Import Prelude Bytes SmtUtils SmtKeys SmtDb SmtTree Smt SmtInsert SmtRefine.
From S2P Require Import SmtBatch SmtBatchSpec SmtBatchRefine SmtCreate SmtCreateSpec SmtCreateHash.

Local Open Scope Z_scope.
#[local] Set Warnings "-clear-no-such-hyp".
#[local] Opaque GetPath RemoveKeyBits.

(** * The tree of the keys that are placed *)

Lemma leaves_tsplit n : ∀ d k v k' v', leaves (tsplit n d k v k' v') ⊆ [(k, v); (k', v')].
Proof.
  induction n as [|n IH]; intros d k v k' v'; [cbn; set_solver|]. cbn [tsplit]. specialize (IH (S d) k v k' v').
  destruct (keybit k d), (keybit k' d); cbn [leaves]; set_solver.
Qed.

Lemma leaves_tins t : ∀ d k v, leaves (tins d t k v) ⊆ (k, v) :: leaves t.
Proof.
  induction t as [|k' v'|l IHl r IHr]; intros d k v; cbn [tins]; [done|..].
  - case_decide; [cbn; set_solver|]. etrans; [apply leaves_tsplit|done].
  - destruct (keybit k d); cbn [leaves]; [specialize (IHr (S d) k v)|specialize (IHl (S d) k v)]; set_solver.
Qed.

Lemma sub_ok_tins p l r k v :
  sub_ok p (Branch l r) → nk_wf k → val_ok v → has_path p k → sub_ok p (tins (length p) (Branch l r) k v).
Proof.
  intros (Hlen & Hl & Hr) Hk Hv Hp%has_path_bit. cbn [tins]. destruct (keybit k (length p)); cbn [sub_ok]; split_and!; try done.
  - rewrite <-(length_snoc p true). by apply tins_ok.
  - rewrite <-(length_snoc p false). by apply tins_ok.
Qed.

Lemma tget_tins_sub p l r k v q :
  sub_ok p (Branch l r) → nk_wf k → has_path p k →
  tget (length p) (tins (length p) (Branch l r) k v) q = if decide (q = k) then Some v else tget (length p) (Branch l r) q.
Proof.
  intros (Hlen & Hl & Hr) Hk Hp%has_path_bit. cbn [tins tget]. destruct (keybit k (length p)) eqn:E; cbn [tget];
    destruct (keybit q (length p)) eqn:Eq; try (rewrite decide_False; [done|congruence]).
  - rewrite <-(length_snoc p true). by apply tget_tins.
  - rewrite <-(length_snoc p false). by apply tget_tins.
Qed.

Definition grown (es : list (NodeKey * list Z)) : tree := foldl (λ t e, tins 0 t e.1 e.2) (Branch Empty Empty) es.

Lemma grown_snoc es k v : grown (es ++ [(k, v)]) = tins 0 (grown es) k v.
Proof. unfold grown. by rewrite foldl_app. Qed.

Lemma grown_branch es : ∃ l r, grown es = Branch l r.
Proof.
  induction es as [|[k v] es (l & r & IH)] using rev_ind; [by exists Empty, Empty|].
  rewrite grown_snoc, IH. cbn [tins]. destruct (keybit k 0); eauto.
Qed.

Lemma grown_leaves es : leaves (grown es) ⊆ es.
Proof.
  induction es as [|[k v] es IH] using rev_ind; [done|]. rewrite grown_snoc. pose proof (leaves_tins (grown es) 0 k v). set_solver.
Qed.

Definition entries_ok (es : list (NodeKey * list Z)) : Prop :=
  Forall (λ e, nk_wf e.1 ∧ val_ok e.2) es ∧ StronglySorted (λ a b, key_lt a.1 b.1) es.

Lemma entries_app es es' : entries_ok (es ++ es') → entries_ok es.
Proof. intros [[Hwf _]%Forall_app Hs%StronglySorted_app_1_l]. done. Qed.

Lemma entries_last es k v :
  entries_ok (es ++ [(k, v)]) → entries_ok es ∧ nk_wf k ∧ val_ok v ∧ ∀ x, x ∈ es → key_lt x.1 k.
Proof.
  intros H. split; [by eapply entries_app|]. destruct H as [[_ [??]%Forall_singleton]%Forall_app Hs]. split_and!; [done..|].
  intros x Hx. by apply (StronglySorted_app_1_elem_of _ _ _ x (k, v) Hs Hx), list_elem_of_singleton.
Qed.

Lemma key_lt_ne a b : key_lt a b → a ≠ b.
Proof. intros (j & _ & _ & H0 & H1) ->. congruence. Qed.

Lemma all_before_grown es k : (∀ x, x ∈ es → key_lt x.1 k) → all_before k (grown es).
Proof. intros H. apply Forall_forall. intros x Hx%grown_leaves. auto. Qed.

Lemma grown_ok es : entries_ok es → sub_ok [] (grown es).
Proof.
  induction es as [|[k v] es IH] using rev_ind; intros H; [split; [cbn; lia|done]|].
  apply entries_last in H as (H & Hk & Hv & _). apply IH in H. rewrite grown_snoc.
  destruct (grown_branch es) as (l & r & E). rewrite E in *. by apply (sub_ok_tins []).
Qed.

Lemma tget_grown es k v : entries_ok es → tget 0 (grown es) k = Some v ↔ (k, v) ∈ es.
Proof.
  induction es as [|[k' v'] es IH] using rev_ind; intros H; [cbn; destruct (keybit k 0); set_solver|].
  apply entries_last in H as (H & Hk & Hv & Hlt). pose proof (grown_ok es H) as Hok. specialize (IH H). rewrite grown_snoc.
  destruct (grown_branch es) as (l & r & E). rewrite E in *. 
  pose proof (tget_tins_sub [] l r k' v' k Hok Hk (has_path_nil k')) as Hg. cbn [length] in Hg. rewrite Hg. clear Hg.
  rewrite elem_of_app, list_elem_of_singleton. case_decide as Ek.
  - subst k'. split; [intros [= ->]; by right|]. intros [Hin|[= ->]]; [|done]. by apply Hlt, key_lt_ne in Hin.
  - rewrite IH. naive_solver.
Qed.

(** The tree of all keys, with a single leaf moved to the root. *)
Lemma grown_map m es l r :
  map_wf m → entries_ok es → es ≡ₚ map_to_list m → grown es = Branch l r → map_tree m = mk_branch l r.
Proof.
  intros Hm Hes Hp E. pose proof (grown_ok es Hes) as Hok. rewrite E in Hok. destruct Hok as (_ & Hl & Hr).
  symmetry. apply map_tree_unique; [done|by apply (mk_branch_ok []); [cbn; lia|..]|].
  intros k Hk. pose proof (tget_mk_branch [] l r k Hl Hr) as Hg. cbn [length] in Hg. rewrite Hg, <-E. clear Hg. apply option_eq. intros v.
  by rewrite tget_grown, Hp, elem_of_map_to_list.
Qed.

(** * The nodes that are hashed early *)

Section Fixed.
Context (hash : list Z → NodeKey → NodeKey).

Lemma fixed_grown es' : ∀ es, entries_ok (es ++ es') → fixed hash 0 (grown es) ⊆ fixed hash 0 (grown (es ++ es')).
Proof.
  induction es' as [|[k v] es' IH]; intros es H; [by rewrite app_nil_r|].
  rewrite (app_assoc es [(k, v)] es' : es ++ (k, v) :: es' = _) in *. etrans; [|by apply IH].
  apply entries_app, entries_last in H as (H & Hk & Hv & Hlt). rewrite grown_snoc.
  apply (fixed_tins hash (grown es) []); [by apply grown_ok|done..|by apply all_before_grown].
Qed.

Lemma fixed_map m es : map_wf m → entries_ok es → es ≡ₚ map_to_list m → fixed hash 0 (grown es) ⊆ map_nodes hash m.
Proof.
  intros Hm Hes Hp. destruct (grown_branch es) as (l & r & E). unfold map_nodes. rewrite (grown_map m es l r), E by done.
  pose proof (fixed_nodes hash (Branch l r) 0). destruct l, r; cbn in *; set_solver.
Qed.
End Fixed.

(** * The invariant *)

Section Machine.
Context {D : Type} {SD : SmtDB D} {SL : SmtDBLaws D} {SA : SmtDBAccounts D}.
Context (hash : list Z → NodeKey → NodeKey).
Context (hash_wf : ∀ i c, nk_wf (hash i c)).
Context (orderL : gmap NodeKey NodeKey → list (NodeKey * NodeKey)) (orderL_perm : ∀ m, orderL m ≡ₚ map_to_list m).
Context (orderK : gmap NodeKey NodeValue12 → list (NodeKey * NodeValue12)) (orderK_perm : ∀ m, orderK m ≡ₚ map_to_list m).
Context (readCap jobCap : nat).

(** The values to insert, as entries in the order of their keys. *)
Context (m : gmap NodeKey (list Z)) (m_wf : map_wf m).
Context (es : list (NodeKey * list Z)) (es_ok : entries_ok es) (es_perm : es ≡ₚ map_to_list m).
Context (U_good : hash_good hash (map_nodes hash m)).

Abbreviation threads := (threads (D := D)).
Abbreviation step := (step hash orderL orderK readCap jobCap es.*1).
Abbreviation U := (map_nodes hash m).

(** What the main goroutine sends for an entry. *)
Definition read_value (e : NodeKey * list Z) : option NodeValue8 := Some (Some <$> e.2).

(** All jobs that are not run yet, and all results that are not saved. *)
Definition all_jobs (s : threads) : list job :=
  t_jobs s ++ match t_builder s with b_push j => [j] | _ => [] end.

Definition all_results (s : threads) : list jobResult :=
  t_results s ++ match t_worker s with w_put r => [r] | _ => [] end.

Definition result_ok (r : jobResult) : Prop :=
  jr_Err r = None ∧ kv_ok hash U (jr_KvMap r) ∧ lk_ok (jr_LeafsKvMap r).

Definition main_ok (s : threads) : Prop :=
  match t_main s with
  | m_fill lim => (t_read s ≤ lim ≤ length es)%nat ∧ (lim + length (t_values s) ≤ t_read s + readCap)%nat
  | m_end => t_results s = [] ∧ t_worker s = w_end
  | m_loop | m_wait => True
  | m_fail _ | m_panic => False
  end.

Record inv (d0 : D) (pre post : list (NodeKey * list Z)) (s : threads) : Prop := {
  iv_es : es = pre ++ post;
  iv_keys : t_keys s = post.*1;
  iv_rep : rep hash 0 (t_root s) (grown pre);
  iv_live : values_of (t_leafs s) (live (t_root s) (grown pre));
  iv_values : t_values s = read_value <$> take (length (t_values s)) post;
  iv_read : t_read s = (length pre + length (t_values s))%nat;
  iv_cap : (length (t_values s) ≤ readCap)%nat;
  iv_jobs : jobs_ok (t_root s) (all_jobs s);
  iv_results : Forall result_ok (all_results s);
  iv_dropped q : q ∈ dropped hash 0 (t_root s) (grown pre) →
    node_in hash (t_db s) q ∨ Exists (λ r, has hash (jr_KvMap r) q) (all_results s);
  iv_accounts k v : (k, v) ∈ es → db_GetAccountValue (t_db s) k = Ok (Some <$> v : NodeValue8);
  iv_meta : same_meta d0 (t_db s);
  iv_builder e : t_builder s = b_end e → e = None ∧ post = [];
  iv_main : main_ok s;
}.

(** Jobs and results on their way. *)
Definition inflight (s : threads) : nat := length (all_jobs s) + length (all_results s).

(** The work that is left. *)
Definition work (s : threads) : nat :=
  (length es - t_read s) + 7 * length (t_keys s) + 5 * length (t_jobs s) + 3 * length (t_results s) +
  match t_builder s with b_next => 1 | b_push _ => 7 | b_end _ => 0 end +
  match t_worker s with w_ready => 1 | w_put _ => 5 | w_end => 0 end +
  match t_main s with m_loop => 3 | m_fill _ => 2 | m_wait => 1 | _ => 0 end.

Lemma fixed_U pre post : es = pre ++ post → fixed hash 0 (grown pre) ⊆ U.
Proof.
  intros E. etrans; [|by apply (fixed_map hash m es)]. rewrite E in es_ok |- *. by apply fixed_grown.
Qed.

Lemma values_length d0 pre post s : inv d0 pre post s → (length (t_values s) ≤ length post)%nat.
Proof. intros Hi. pose proof (f_equal length (iv_values _ _ _ _ Hi)) as E. rewrite length_fmap, length_take in E. lia. Qed.

Lemma inv_start d :
  (∀ k v, (k, v) ∈ es → db_GetAccountValue d k = Ok (Some <$> v : NodeValue8)) → inv d [] es (start es.*1 d).
Proof.
  intros Hacc. split; cbn; try done; [by split_and!; [|left|]|intros k v []%elem_of_nil|lia|set_solver].
Qed.

(** Placing the next key. *)
Lemma place_inv d0 pre k v post root mx leafs vs js w rs main rd d c :
  inv d0 pre ((k, v) :: post)
    (mkThreads b_next (k :: post.*1) root mx leafs (read_value (k, v) :: vs) js w rs main rd d c) →
  ∃ root' j lvl, build_key root (GetPath k) = Ok (root', j, lvl) ∧ (j = None → pre = []) ∧
    inv d0 (pre ++ [(k, v)]) post
      (mkThreads match j with Some j => b_push j | None => b_next end post.*1 root' (mx `max` lvl) (<[k := (Some <$> v : NodeValue8)]> leafs)
         vs js w rs main rd d c).
Proof.
  intros [Hes Hks Hrep Hlive Hvs Hrd Hcap Hjs Hrs Hdr Hacc Hme Hb Hm]. cbn in *. injection Hvs as Hvs.
  pose proof es_ok as Hok. rewrite (app_assoc pre [(k, v)] post : pre ++ (k, v) :: post = _) in Hes. rewrite Hes in Hok.
  apply entries_app, entries_last in Hok as (Hok & Hk & Hv & Hlt). pose proof (grown_ok _ Hok) as Hsub.
  pose proof (all_before_grown _ _ Hlt) as Hbef. destruct (grown_branch pre) as (l & r & Eg). rewrite Eg in *.
  destruct (build_key_spec hash root l r k v) as (root' & j & lvl & E & Hrep' & [Hlv Hdp] & Hgr & Hj); [done..|].
  exists root', j, lvl. split; [exact E|]. split; [|split; cbn [t_keys t_root t_leafs t_values t_read t_db t_builder t_main t_results]; try done].
  - intros ->. destruct Hj as [-> ->]. destruct pre as [|[k' v'] pre]; [done|].
    assert (tget 0 (grown ((k', v') :: pre)) k' = Some v') as Hg by (apply tget_grown; [done|by left]).
    rewrite Eg in Hg. cbn in Hg. by destruct (keybit k' 0).
  - by rewrite grown_snoc, Eg.
  - rewrite grown_snoc, Eg. intros k' v' [[= -> ->]|Hin]%Hlv%elem_of_cons; [by rewrite lookup_insert_eq|].
    rewrite lookup_insert_ne; [by apply Hlive|]. apply (live_leaves _ _ _ _ Hrep) in Hin. unfold all_before in Hbef.
    rewrite Forall_forall in Hbef. apply Hbef, key_lt_ne in Hin. by intros ->.
  - rewrite length_app. cbn. lia.
  - lia.
  - unfold all_jobs in *. cbn [t_jobs t_builder] in *. rewrite app_nil_r in Hjs. apply (jobs_grow _ _ _ Hgr) in Hjs as Hjs'.
    destruct j as [j|]; [|by rewrite app_nil_r]. destruct Hj as (q & -> & Hq & Hqk & Hbq & Hnb). apply jobs_snoc; [done..|].
    intros q' Hin. pose proof (jobs_both _ _ _ Hjs Hin) as Hq'. split; [by intros ->|]. intros [z ->].
    apply (both_right hash 0 root (Branch l r) [] k q' Hrep Hsub eq_refl (has_path_nil k) Hbef Hq').
    cbn [app]. intros i x Hi. apply Hqk. by apply lookup_app_l_Some.
  - rewrite grown_snoc, Eg. intros q Hq%Hdp. by apply Hdr.
  - by destruct j.
  - unfold main_ok in *. cbn in *. destruct main; try done. lia.
Qed.

(** What a step of the builder does to the others, and to what is on its way. *)
Record builder_effect (pre pre' : list (NodeKey * list Z)) (s s' : threads) : Prop := {
  be_main : t_main s' = t_main s;
  be_read : t_read s' = t_read s;
  be_results : t_results s' = t_results s;
  be_worker : t_worker s' = t_worker s;
  be_ctx : t_cancelled s' = t_cancelled s;
  be_running : b_running (t_builder s) = true;
  be_work : (work s' < work s)%nat;
  be_supply : (length (t_values s) + length (all_jobs s) + length pre `min` 1 ≤
    length (t_values s') + length (all_jobs s') + length pre' `min` 1)%nat;
}.

Lemma builder_inv d0 pre post s s' :
  inv d0 pre post s → builder_step jobCap s = Some s' →
  ∃ pre' post', inv d0 pre' post' s' ∧ builder_effect pre pre' s s'.
Proof.
  intros Hi. pose proof Hi as [Hes Hks Hrep Hlive Hvs Hrd Hcap Hjs Hrs Hdr Hacc Hme Hb Hm].
  destruct s as [b ks root mx leafs vs js w rs main rd d c]. cbn -[Nat.ltb] in *. destruct b as [|j|e]; [| |done].
  - destruct ks as [|k ks].
    + intros [= <-]. destruct post; [|done]. exists pre, []. split; split; try done; [by intros e [= ->]|unfold work; cbn; lia].
    + destruct post as [|[k' v] post]; [done|]. cbn in Hks. injection Hks as -> ->. destruct vs as [|x vs]; [done|].
      cbn in Hvs. injection Hvs as -> Hvs. destruct (place_inv _ _ _ _ _ _ _ _ _ _ _ _ _ _ _ _ Hi) as (root' & j & lvl & E & Hj & Hi').
      cbn [read_value snd]. rewrite E. intros [= <-]. eexists _, _. split; [exact Hi'|].
      split; try done; [unfold work; cbn; destruct j; lia|]. unfold all_jobs. cbn. rewrite !length_app.
      destruct j; cbn; [lia|]. rewrite Hj by done. cbn. lia.
  - destruct (Nat.ltb_spec (length js) jobCap); [|done]. intros [= <-]. exists pre, post. split; split; try done; unfold work, all_jobs in *; cbn in *.
    + by rewrite app_nil_r.
    + rewrite length_app. cbn. lia.
    + by rewrite app_nil_r.
Qed.

Lemma worker_inv d0 pre post stop s s' :
  inv d0 pre post s → worker_step hash jobCap stop s = Some s' → inv d0 pre post s'.
Proof.
  intros [Hes Hks Hrep Hlive Hvs Hrd Hcap Hjs Hrs Hdr Hacc Hme Hb Hm].
  destruct s as [b ks root mx leafs vs js w rs main rd d c]. cbn -[Nat.ltb Nat.eqb] in *. destruct w as [|r|]; [| |done].
  - destruct stop.
    { destruct (_ || _); [|done]. intros [= <-]. split; try done. unfold main_ok in *. cbn in *. destruct main; try done. by destruct Hm. }
    destruct js as [|j js]; [done|]. unfold all_jobs in Hjs. cbn in Hjs.
    pose proof es_ok as Hok. rewrite Hes in Hok. apply entries_app, grown_ok in Hok.
    destruct (run_job_spec hash hash_wf U U_good root leafs j _ (grown pre) Hrep Hok Hjs (fixed_U _ _ Hes) Hlive)
      as (root' & leafs' & r & -> & Hrep' & Hjs' & Hlive' & Her & Hkv & Hlk & Hdr').
    intros [= <-]. unfold all_results in *. cbn in *. rewrite app_nil_r in *. split; cbn; try done.
    + unfold all_results. cbn. apply Forall_app. split; [done|]. by apply Forall_singleton.
    + unfold all_results. cbn. intros q [Hq|Hq]%Hdr'; rewrite Exists_app, Exists_cons; [|by right; right; left].
      apply Hdr in Hq as [?|?]; [by left|by right; left].
    + unfold main_ok in *. cbn in *. destruct main; try done. by destruct Hm.
  - destruct (length rs <? jobCap)%nat; [|done]. intros [= <-]. unfold all_results in *. cbn in *.
    split; cbn; try done; unfold all_results; cbn; rewrite ?app_nil_r; try done.
    unfold main_ok in *. cbn in *. destruct main; try done. by destruct Hm.
Qed.

Lemma main_inv d0 pre post s s' :
  inv d0 pre post s → main_step orderL orderK readCap es.*1 s = Some s' → inv d0 pre post s'.
Proof.
  intros Hi. pose proof (values_length _ _ _ _ Hi) as Hvl. destruct Hi as [Hes Hks Hrep Hlive Hvs Hrd Hcap Hjs Hrs Hdr Hacc Hme Hb Hm].
  pose proof (f_equal length Hes) as Hel. rewrite length_app in Hel.
  destruct s as [b ks root mx leafs vs js w rs main rd d c]. cbn -[Nat.ltb] in *. unfold main_ok in Hm. cbn in Hm.
  destruct main as [|lim| | | |]; try done.
  - intros [= <-]. split; try done. unfold main_ok. cbn. rewrite length_fmap. lia.
  - destruct (Nat.ltb_spec rd lim) as [Hlt|Hge].
    + destruct (lookup_lt_is_Some_2 post (length vs)) as [[k v] Hp]; [lia|].
      assert (es !! rd = Some (k, v)) as He by (by rewrite Hes, lookup_app_r, Hrd, Nat.add_sub_swap, Nat.sub_diag by lia).
      rewrite list_lookup_fmap, He. cbn -[Nat.ltb]. rewrite (proj2 (Nat.ltb_lt _ _)) by lia.
      rewrite (Hacc k v) by (by eapply list_elem_of_lookup_2). intros [= <-].
      split; cbn; try done; rewrite ?length_app; cbn [length]; [|lia..|unfold main_ok; cbn; rewrite ?length_app; cbn; lia].
      by rewrite Nat.add_1_r, (take_S_r _ _ _ Hp), fmap_app, <-Hvs.
    + intros [= <-]. by split.
  - destruct rs as [|r rs].
    { destruct w; [done..|]. intros [= <-]. by split. }
    unfold all_results in *. cbn in *. apply Forall_cons in Hrs as [(Her & Hkv & Hlk) Hrs]. rewrite Her.
    destruct (Save_spec hash hash_wf U U_good orderL orderL_perm orderK orderK_perm d r Hkv Hlk) as (d' & -> & [Sk Sn Sm Sa]).
    intros [= <-]. split; cbn; try done.
    + intros q Hq. assert (q ∈ U) as HqU by (apply (fixed_U _ _ Hes); by eapply dropped_fixed).
      apply Hdr in Hq as [Hq|[Hq|Hq]%Exists_cons]; [left; by apply Sk|left; by apply Sn|by right].
    + intros k v Hin. rewrite Sa. by apply Hacc.
    + by eapply same_meta_trans.
Qed.

(** One step of the whole, also of a context that may be cancelled. *)
Definition moves (mayCancel : bool) (a b : threads) : Prop := step a b ∨ mayCancel = true ∧ cancel a b.

Lemma moves_inv d0 mayCancel pre post s s' :
  inv d0 pre post s → moves mayCancel s s' → ∃ pre' post', inv d0 pre' post' s'.
Proof.
  intros Hi [[_ E|stop _ E|_ E]|[_ [_]]].
  - destruct (builder_inv _ _ _ _ _ Hi E) as (pre' & post' & Hi' & _). by exists pre', post'.
  - eexists _, _. by eapply worker_inv.
  - eexists _, _. by eapply main_inv.
  - exists pre, post. by destruct Hi.
Qed.

Lemma reachable_threads d mayCancel s :
  (∀ k v, (k, v) ∈ es → db_GetAccountValue d k = Ok (Some <$> v : NodeValue8)) →
  rtc (moves mayCancel) (start es.*1 d) s → ∃ pre post, inv d pre post s.
Proof.
  intros Hacc Hr. assert (∃ pre post, inv d pre post (start es.*1 d)) as H by (eexists _, _; by apply inv_start).
  revert H. induction Hr as [|a b c Hab _ IH]; [done|]. intros (pre & post & Hi). eapply IH, moves_inv; eauto.
Qed.

(** * What is returned *)

(** The part of GenerateFromKVBulk that replaces a root with one leaf by the leaf. *)
Definition final_root (one : bool) (root : SmtNode) : outcome (SmtNode * list Z) :=
  '(root, path) ←
    (if one then
       match node1 root with
       | None => match node0 root with Some c => Ok (c, [0]) | None => Panic end
       | Some c =>
           match node0 root with
           | None => if NodeKey_IsZero (leftHash root) then Ok (c, [1]) else Ok (root, [])
           | Some _ => Ok (root, [])
           end
       end
     else Ok (root, []));
  if isLeaf root then
    b ← go_index path 0;
    Ok (mkNode (b :: rKey root) (leftHash root) (node0 root) (node1 root), [])
  else Ok (root, path).

Lemma GetPath_cons k : Z.b2z (keybit k 0) :: drop 1 (GetPath k) = GetPath k.
Proof. rewrite <-(drop_GetPath k 0) by lia. apply drop_0. Qed.

Lemma final_root_one root k v :
  rep hash 0 root (grown [(k, v)]) →
  final_root true root = Ok (leaf_node 0 k, []) ∧ (k, v) ∈ live root (grown [(k, v)]).
Proof.
  intros Hrep. unfold grown in *. cbn [foldl tins fst snd] in *. unfold final_root, leaf_node.
  rewrite drop_0, <-(GetPath_cons k). destruct root as [rk lh n0 n1].
  destruct (keybit k 0); destruct Hrep as (_ & H0 & H1); 
    cbn [node0 node1 leftHash SmtCreateSpec.rep live] in *; cbn [Z.b2z].
  - destruct n1 as [c|]; [subst c|discriminate H1]. destruct n0 as [c|]; [by destruct H0|]. destruct H0 as [[_ ->]|[[]]]; [|reflexivity].
    split; [reflexivity|by left].
  - destruct n1 as [c|]; [destruct H1|]. destruct n0 as [c|]; [|destruct H0 as [[[=]]|(_ & [] & _)]; reflexivity].
    destruct H0 as [_ ->]. split; [reflexivity|by left].
Qed.

Lemma entries_NoDup : NoDup es.*1.
Proof. rewrite es_perm. apply NoDup_fst_map_to_list. Qed.

(** The node that is hashed at the end represents the tree of all values. *)
Lemma final_root_spec root :
  es ≠ [] → rep hash 0 root (grown es) →
  ∃ n, isLeaf root = false ∧ final_root (length es =? 1)%nat root = Ok (n, []) ∧ rep hash 0 n (map_tree m) ∧
    live n (map_tree m) ⊆ live root (grown es) ∧ dropped hash 0 n (map_tree m) ⊆ dropped hash 0 root (grown es).
Proof.
  intros Hne Hrep. destruct (grown_branch es) as (l & r & Eg). pose proof (grown_map m es l r m_wf es_ok es_perm Eg) as Em.
  assert (∀ k v, (k, v) ∈ es → tget 0 (map_tree m) k = Some v) as Hget.
  { intros k v Hin. destruct (map_tree_spec m m_wf) as [_ Hmod]. rewrite Hmod; [by rewrite <-elem_of_map_to_list, <-es_perm|].
    destruct es_ok as [Hwf _]. rewrite Forall_forall in Hwf. by apply (Hwf (k, v)). }
  assert (isLeaf root = false) as Hl.
  { rewrite Eg in Hrep. apply (isLeaf_branch hash 0 root l r Hrep). destruct l; [right|by left..]. intros ->.
    destruct es as [|[k v] es']; [done|]. specialize (Hget k v (list_elem_of_here _ _)). by rewrite Em in Hget. }
  pose proof entries_NoDup as Hnd. destruct es as [|[k v] [|[k2 v2] es']] eqn:Ees; [done|..].
  - destruct (final_root_one root k v Hrep) as [Ef Hin]. exists (leaf_node 0 k). split_and!; [done|exact Ef|..].
    all: assert (map_tree m = Leaf k v) as -> by (rewrite Em; unfold grown in Eg; cbn in Eg; destruct (keybit k 0); by simplify_eq).
    all: cbn; set_solver.
  - assert (map_tree m = grown es) as ->.
    { rewrite Ees, Eg, Em. pose proof (Hget k v ltac:(set_solver)) as H1. pose proof (Hget k2 v2 ltac:(set_solver)) as H2.
      rewrite Em in H1, H2. assert (k ≠ k2) by (intros ->; cbn in Hnd; apply NoDup_cons in Hnd as [[] _]; by left).
      destruct l, r; try done; cbn in H1, H2; repeat case_decide; simplify_eq. }
    rewrite Ees. exists root. split_and!; try done. unfold final_root. cbn [length Nat.eqb]. by rewrite bind_Ok, Hl.
Qed.

Lemma finish_eq s0 nodeKeys s :
  t_builder s = b_end None → isLeaf (t_root s) = false →
  finish hash orderL orderK s0 nodeKeys s =
    '(root, path) ← final_root (length nodeKeys =? 1)%nat (t_root s);
    '(finalRoot, d) ← deleteTree hash orderL orderK root path (t_db s) (t_leafs s);
    d ← setLastRoot d finalRoot;
    d ← updateDepth d (Z.of_nat (t_max s));
    Ok (finalRoot, mkSMT (noSaveOnInsert s0) d).
Proof.
  intros Hb Hl. unfold finish, final_root. rewrite Hb, Hl.
  match goal with |- (?x ≫= _) = _ => destruct x as [[root path]| |] end; [|done..]. rewrite !bind_Ok.
  destruct (isLeaf root); [|done]. by destruct (go_index path 0).
Qed.

Lemma finish_spec d0 s0 nodeKeys s :
  inv d0 es [] s → all_results s = [] → t_builder s = b_end None → length nodeKeys = length es → es ≠ [] →
  noSaveOnInsert s0 = false → db_GetDepth d0 ≠ Panic →
  ∃ s', finish hash orderL orderK s0 nodeKeys s = Ok (map_root hash m, s') ∧ smt_holds hash s' m.
Proof.
  intros [Hes Hks Hrep Hlive Hvs Hrd Hcap Hjs Hrs Hdr Hacc [Hmr Hmd] Hb Hm] Hres Hbe Hlen Hne Hns Hdepth.
  destruct (final_root_spec (t_root s) Hne Hrep) as (n & Hl & Ef & Hrn & Hln & Hdn).
  rewrite finish_eq, Hlen, Ef, bind_Ok by done. unfold deleteTree. destruct (map_tree_spec m m_wf) as [Hok _].
  destruct (deleteTreeNoSave_spec hash hash_wf U U_good (map_tree m) [] n (mkHashing (t_leafs s) ∅ ∅))
    as (st & E & [Hkv Hlk _ Hnd _]); [done|done|cbn; lia|done| |done|done|].
  { intros k v Hin%Hln. by apply Hlive. }
  cbn [zpath fmap list_fmap length] in E. rewrite E, bind_Ok.
  destruct (Save_spec hash hash_wf U U_good orderL orderL_perm orderK orderK_perm (t_db s) (mkResult None (KvMap st) (LeafsKvMap st)) Hkv Hlk)
    as (d1 & -> & [Sk Sn [Smr Smd] Sa]). rewrite !bind_Ok.
  destruct (law_SetLastRoot d1 (NodeKey_ToBigInt (thash hash 0 (map_tree m)))) as (d2 & E2 & Hn2 & Hdp2 & Hr2);
    [by apply NodeKey_ToBigInt_range, thash_wf|]. unfold setLastRoot. rewrite E2, bind_Ok.
  assert (db_GetDepth d2 = db_GetDepth d0) as Hd2 by (unfold same_depth in *; congruence).
  destruct (updateDepth_spec d2 (Z.of_nat (t_max s))) as (d3 & E3 & Hn3 & Hr3 & Hp3 & _); [by rewrite Hd2|lia|]. rewrite E3, bind_Ok.
  eexists. split; [done|]. constructor; cbn [smtDb noSaveOnInsert]; [done..|unfold same_root in Hr3; by rewrite Hr3| |done].
  eapply stored_same; [done| |exact Hn3]. eapply stored_same; [done| |exact Hn2]. apply Forall_forall. intros q Hq.
  destruct (Hnd q Hq) as [Hd|Hh]; [|by apply Sn]. apply Sk; [done|]. apply Hdn, Hdr in Hd. rewrite Hres in Hd.
  destruct Hd as [|Hd]; [done|by inversion Hd].
Qed.

Lemma joined_done d0 pre post s :
  inv d0 pre post s → joined s = true → pre = es ∧ post = [] ∧ all_results s = [] ∧ t_builder s = b_end None.
Proof.
  intros [Hes _ _ _ _ _ _ _ _ _ _ _ Hb Hm]. unfold joined, main_ok, all_results in *. destruct (t_main s); try done.
  destruct Hm as [-> ->]. destruct (t_builder s) as [| |e]; [done..|]. destruct (Hb e eq_refl) as [-> ->].
  rewrite app_nil_r in Hes. by subst.
Qed.

(** Whatever is returned is the root of the canonical tree. *)
Lemma bulk_returned mayCancel (s0 : SMT D) nodeKeys o :
  SortNodeKeysBitwiseAsc nodeKeys = es.*1 → es ≠ [] → noSaveOnInsert s0 = false → db_GetDepth (smtDb s0) ≠ Panic →
  (∀ k v, (k, v) ∈ es → db_GetAccountValue (smtDb s0) k = Ok (Some <$> v : NodeValue8)) →
  GenerateFromKVBulk hash orderL orderK readCap jobCap mayCancel s0 nodeKeys o →
  ∃ s', o = Ok (map_root hash m, s') ∧ smt_holds hash s' m.
Proof.
  intros Es Hne Hns Hdepth Hacc Ho.
  assert (length nodeKeys = length es) as Hlen.
  { apply (f_equal length) in Es. rewrite length_fmap in Es. rewrite <-Es. unfold SortNodeKeysBitwiseAsc. by rewrite merge_sort_Permutation. }
  destruct Ho as [s keys Hr Hj|s e keys Hr Hf|s keys Hr Hf]; unfold keys in Hr; rewrite Es in Hr;
    apply reachable_threads in Hr as (pre & post & Hi); try done.
  - destruct (joined_done _ _ _ _ Hi Hj) as (-> & -> & Hres & Hb). by eapply finish_spec.
  - destruct Hi as [_ _ _ _ _ _ _ _ _ _ _ _ _ Hm]. unfold main_ok in Hm. by rewrite Hf in Hm.
  - destruct Hi as [_ _ _ _ _ _ _ _ _ _ _ _ _ Hm]. unfold main_ok in Hm. by rewrite Hf in Hm.
Qed.
(** * Without cancellation it returns *)

(** Every key but the first yields a job, so as long as values are missing there
    is something on its way to the main goroutine. *)
Definition supply (pre : list (NodeKey * list Z)) (s : threads) (lim : nat) : Prop :=
  lim = length es ∨ (readCap ≤ (lim - t_read s) + length (t_values s) + inflight s + length pre `min` 1)%nat.

Record alive (d0 : D) (pre post : list (NodeKey * list Z)) (s : threads) : Prop := {
  al_inv : inv d0 pre post s;
  al_ctx : t_cancelled s = false;
  al_worker : t_worker s = w_end → b_running (t_builder s) = false ∧ t_jobs s = [];
  al_supply : match t_main s with m_fill lim => supply pre s lim | m_wait => supply pre s (t_read s) | _ => True end;
}.

Lemma worker_effect stop s s' :
  worker_step hash jobCap stop s = Some s' → main_ok s' →
  (work s' < work s)%nat ∧ inflight s' = inflight s ∧ t_main s' = t_main s ∧ t_read s' = t_read s ∧
  t_values s' = t_values s ∧ t_builder s' = t_builder s ∧ t_cancelled s' = t_cancelled s ∧
  (t_cancelled s = false → t_worker s' = w_end → b_running (t_builder s) = false ∧ t_jobs s' = []).
Proof.
  destruct s as [b ks root mx leafs vs js w rs main rd d c]. unfold work, inflight, all_jobs, all_results. cbn -[Nat.ltb Nat.eqb].
  destruct w as [|r|]; [| |done].
  - destruct stop.
    { destruct (c || negb (b_running b) && (length js =? 0)%nat) eqn:E; [|done]. intros [= <-] _. cbn.
      split_and!; try done; [lia|]. intros -> _. cbn in E. apply andb_prop in E as [Hb Hj%Nat.eqb_eq%nil_length_inv].
      by apply negb_true_iff in Hb. }
    destruct js as [|j js]; [done|]. destruct (run_job hash root leafs j) as [[[root' leafs'] r]| |]; intros [= <-] Hm; [|done..].
    cbn. split_and!; try done; [lia|rewrite !length_app; cbn; lia].
  - destruct (length rs <? jobCap)%nat; [|done]. intros [= <-] _. cbn. rewrite !length_app. cbn. split_and!; try done; lia.
Qed.

Lemma main_alive d0 pre post s s' :
  alive d0 pre post s → main_step orderL orderK readCap es.*1 s = Some s' → alive d0 pre post s' ∧ (work s' < work s)%nat.
Proof.
  intros [Hi Hc Hw Hs] E. pose proof (main_inv _ _ _ _ _ Hi E) as Hi'. pose proof (iv_main _ _ _ _ Hi') as Hm'.
  pose proof (iv_main _ _ _ _ Hi) as Hm. pose proof (iv_cap _ _ _ _ Hi) as Hcap. revert E Hi' Hm'. clear Hi.
  destruct s as [b ks root mx leafs vs js w rs main rd d c]. cbn -[Nat.ltb] in *. unfold main_ok, supply in *. cbn -[Nat.ltb] in *.
  destruct main as [|lim| | | |]; try done.
  - intros [= <-] Hi' _. split; [|unfold work; cbn; lia]. split; try done. cbn. unfold supply, inflight. cbn. rewrite length_fmap. lia.
  - destruct (Nat.ltb_spec rd lim) as [Hlt|Hge].
    + destruct (es.*1 !! rd) as [k|]; [|by intros [= <-]]. destruct (_ <? _)%nat; [|done].
      destruct (db_GetAccountValue d k); intros [= <-] Hi' Hm'; [|done..]. split; [|unfold work; cbn; lia].
      split; try done. cbn. unfold supply, inflight in *. cbn. rewrite length_app. cbn in *. lia.
    + intros [= <-] Hi' _. split; [|unfold work; cbn; lia]. split; try done. cbn. unfold supply, inflight in *. cbn in *. lia.
  - destruct rs as [|r rs].
    { destruct w; [done..|]. intros [= <-] Hi' _. split; [by split|unfold work; cbn; lia]. }
    destruct (jr_Err r); [by intros [= <-]|]. destruct (Save orderL orderK d r) as [[d' [e|]]| |]; intros [= <-] Hi' Hm'; try done.
    split; [by split|unfold work; cbn; lia].
Qed.

Lemma step_alive d0 pre post s s' :
  alive d0 pre post s → step s s' → (∃ pre' post', alive d0 pre' post' s') ∧ (work s' < work s)%nat.
Proof.
  intros Ha [_ E|stop _ E|_ E].
  - destruct Ha as [Hi Hc Hw Hs]. destruct (builder_inv _ _ _ _ _ Hi E) as (pre' & post' & Hi' & [Bm Br Brs Bw Bc Brun Bwk Bs]).
    split; [exists pre', post'|done]. split; [done|congruence|..].
    + rewrite Bw. intros H%Hw. rewrite Brun in H. by destruct H.
    + rewrite Bm. unfold supply, inflight, all_results in *. rewrite Br, Brs, Bw. destruct (t_main s); try done; lia.
  - destruct Ha as [Hi Hc Hw Hs]. pose proof (worker_inv _ _ _ _ _ _ Hi E) as Hi'.
    destruct (worker_effect _ _ _ E (iv_main _ _ _ _ Hi')) as (Ww & Wi & Wm & Wr & Wv & Wb & Wc & We).
    split; [exists pre, post|done]. split; [done|congruence|..].
    + rewrite Wb. intros. by apply We.
    + rewrite Wm. unfold supply in *. by rewrite Wr, Wv, Wi.
  - destruct (main_alive _ _ _ _ _ Ha E). split; [by exists pre, post|done].
Qed.

(** Somebody can always go on. *)
Lemma alive_progress d0 pre post s :
  (2 ≤ readCap)%nat → (0 < jobCap)%nat → alive d0 pre post s → joined s = true ∨ ∃ s', step s s'.
Proof.
  intros Hrc Hjc [Hi Hc Hw Hs]. pose proof (iv_main _ _ _ _ Hi) as Hm. pose proof (iv_keys _ _ _ _ Hi) as Hks.
  pose proof (iv_read _ _ _ _ Hi) as Hrd. pose proof (f_equal length (iv_es _ _ _ _ Hi)) as Hel. rewrite length_app in Hel. clear Hi.
  destruct s as [b ks root mx leafs vs js w rs main rd d c]. unfold main_ok, joined in *. cbn in Hc, Hw, Hs, Hm, Hks, Hrd |- *. subst c.
  assert (∀ f : threads → option threads, f (mkThreads b ks root mx leafs vs js w rs main rd d false) ≠ None →
    ∃ s', f (mkThreads b ks root mx leafs vs js w rs main rd d false) = Some s') as Hf
    by (intros f Hne; destruct (f _) eqn:E; [by eexists|done]).
  destruct main as [|lim| | | |]; try done.
  - right. eexists. by eapply step_main.
  - right. destruct (Hf (main_step orderL orderK readCap es.*1)) as [s' E]; [|exists s'; by eapply step_main].
    cbn -[Nat.ltb]. destruct (Nat.ltb_spec rd lim); [|done]. destruct (es.*1 !! rd); [|done]. rewrite (proj2 (Nat.ltb_lt _ _)) by lia.
    by destruct (db_GetAccountValue d n).
  - right. destruct rs as [|r rs].
    2: { destruct (Hf (main_step orderL orderK readCap es.*1)) as [s' E]; [|exists s'; by eapply step_main].
         cbn. destruct (jr_Err r); [done|]. by destruct (Save orderL orderK d r) as [[d' []]| |]. }
    destruct w as [|r|]; [| |eexists; by eapply step_main].
    2: { destruct (Hf (worker_step hash jobCap false)) as [s' E]; [|exists s'; by eapply step_worker].
         cbn -[Nat.ltb]. by rewrite (proj2 (Nat.ltb_lt _ _)). }
    destruct js as [|j js].
    2: { destruct (Hf (worker_step hash jobCap false)) as [s' E]; [|exists s'; by eapply step_worker].
         cbn. by destruct (run_job hash root leafs j) as [[[]]| |]. }
    destruct b as [|j|e]; [| |eexists; by eapply (step_worker _ _ _ _ _ _ _ _ true)].
    2: { destruct (Hf (builder_step jobCap)) as [s' E]; [|exists s'; by eapply step_builder].
         cbn -[Nat.ltb]. by rewrite (proj2 (Nat.ltb_lt _ _)). }
    destruct ks as [|k ks]; [eexists; by eapply step_builder|]. destruct vs as [|v vs].
    { exfalso. unfold supply, inflight in Hs. cbn in *. destruct post; [done|]. cbn in *. lia. }
    destruct (Hf (builder_step jobCap)) as [s' E]; [|exists s'; by eapply step_builder].
    cbn. destruct v; [|done]. by destruct (build_key root (GetPath k)) as [[[]]| |].
  - left. destruct Hm as [_ ->]. destruct Hw as [-> _]; done.
Qed.

Context (d : D) (accounts : ∀ k v, (k, v) ∈ es → db_GetAccountValue d k = Ok (Some <$> v : NodeValue8)).

Lemma run_alive n s :
  nsteps step n (start es.*1 d) s → (∃ pre post, alive d pre post s) ∧ (n + work s ≤ 8 * length es + 5)%nat.
Proof.
  revert s. induction n as [|n IH]; intros s.
  - intros E. inversion E. subst. split; [exists [], es; split; try done; by apply inv_start|].
    unfold work. cbn. rewrite length_fmap. lia.
  - intros (s1 & H1 & Hst)%nsteps_inv_r. destruct (IH s1 H1) as [(pre & post & Ha) Hn].
    destruct (step_alive _ _ _ _ _ Ha Hst) as [? ?]. split; [done|lia].
Qed.

Lemma run_ends (readCap_ok : (2 ≤ readCap)%nat) (jobCap_ok : (0 < jobCap)%nat) :
  ∃ s, rtc step (start es.*1 d) s ∧ joined s = true.
Proof.
  assert (∀ w n s, (work s ≤ w)%nat → nsteps step n (start es.*1 d) s → ∃ s', rtc step s s' ∧ joined s' = true) as H.
  { induction w as [|w IH]; intros n s Hw Hn; destruct (run_alive n s Hn) as [(pre & post & Ha) _];
      (destruct (alive_progress _ _ _ _ readCap_ok jobCap_ok Ha) as [|[s' Hst]]; [by exists s|]);
      destruct (step_alive _ _ _ _ _ Ha Hst) as [_ Hlt]; [lia|].
    destruct (IH (S n) s') as (s2 & Hr & Hj); [lia|by eapply nsteps_r|]. exists s2. split; [by eapply rtc_l|done]. }
  by eapply (H _ 0%nat); [|constructor].
Qed.

(** * With cancellation it may hang *)

(** The main goroutine has returned without reading all values. *)
Definition abandoned (s : threads) : Prop := t_main s = m_end ∧ (t_read s < length es)%nat.

Lemma abandoned_moves pre post s s' :
  inv d pre post s → abandoned s → moves true s s' → abandoned s'.
Proof.
  intros Hi [Hm Hrd] [[_ E|stop _ E|_ E]|[_ [_]]]; [..|done].
  - destruct (builder_inv _ _ _ _ _ Hi E) as (pre' & post' & _ & []). unfold abandoned. by rewrite be_main0, be_read0.
  - pose proof (worker_inv _ _ _ _ _ _ Hi E) as Hi'. destruct (worker_effect _ _ _ E (iv_main _ _ _ _ Hi')) as (_ & _ & Wm & Wr & _).
    unfold abandoned. by rewrite Wm, Wr.
  - destruct s. cbn in *. subst. done.
Qed.

Lemma abandoned_hangs pre post s s' :
  inv d pre post s → abandoned s → rtc (moves true) s s' → joined s' = false ∧ stopped (t_main s') = false.
Proof.
  intros Hi Ha Hr. revert pre post Hi Ha. induction Hr as [s|a b c Hab _ IH]; intros pre post Hi Ha.
  - destruct Ha as [Hm Hrd]. split; [|by rewrite Hm]. destruct (joined s) eqn:Hj; [|done].
    destruct (joined_done _ _ _ _ Hi Hj) as (-> & -> & _). pose proof (iv_read _ _ _ _ Hi). lia.
  - destruct (moves_inv _ _ _ _ _ _ Hi Hab) as (pre' & post' & Hi'). apply (IH pre' post' Hi'). by apply (abandoned_moves pre post a).
Qed.

Definition filling (i : nat) (main : companion) : threads :=
  mkThreads b_next es.*1 newSmtNode 0 ∅ (read_value <$> take i es) [] w_end [] main i d true.

Lemma fill_all lim i : (lim < length es)%nat → (lim ≤ readCap)%nat → (i ≤ lim)%nat →
  rtc (moves true) (filling 0 (m_fill lim)) (filling i (m_fill lim)).
Proof.
  intros Hl Hc. induction i as [|i IH]; intros Hi; [done|]. eapply rtc_r; [apply IH; lia|]. left. apply step_main; [done|].
  destruct (lookup_lt_is_Some_2 es i) as [[k v] He]; [lia|]. unfold filling. cbn -[Nat.ltb].
  rewrite (proj2 (Nat.ltb_lt _ _)), list_lookup_fmap, He by lia. cbn -[Nat.ltb].
  rewrite length_fmap, length_take, (proj2 (Nat.ltb_lt _ _)) by lia. rewrite (accounts k v) by (by eapply list_elem_of_lookup_2).
  by rewrite (take_S_r _ _ _ He), fmap_app.
Qed.

Lemma abandoned_reachable :
  (readCap < length es)%nat → ∃ s, rtc (moves true) (start es.*1 d) s ∧ abandoned s.
Proof.
  intros Hlt. exists (filling readCap m_end). split; [|done].
  eapply rtc_l; [right; split; [done|by apply ctx_done]|]. eapply rtc_l; [left; by apply (step_worker _ _ _ _ _ _ _ _ true)|].
  apply (rtc_l _ _ (filling 0 (m_fill readCap))).
  { left. apply step_main; [done|]. unfold filling. cbn -[Nat.min]. by rewrite length_fmap, Nat.sub_0_r, Nat.min_l by lia. }
  etrans; [by apply (fill_all readCap readCap)|]. apply (rtc_l _ _ (filling readCap m_wait)).
  - left. apply step_main; [done|]. unfold filling. cbn -[Nat.ltb]. by rewrite Nat.ltb_irrefl.
  - apply rtc_once. left. by apply step_main.
Qed.
End Machine.

(** * GenerateFromKVBulk *)

(** The keys of [m], in any order, and a store with their values. *)
Record creates {D : Type} {SD : SmtDB D} (hash : list Z → NodeKey → NodeKey) (s : SMT D) (m : gmap NodeKey (list Z))
    (nodeKeys : list NodeKey) : Prop := {
  cr_wf : map_wf m;
  cr_nonempty : m ≠ ∅;
  cr_keys : nodeKeys ≡ₚ (map_to_list m).*1;
  cr_values : map_Forall (λ k v, db_GetAccountValue (smtDb s) k = Ok (Some <$> v : NodeValue8)) m;
  cr_save : noSaveOnInsert s = false;
  cr_depth : db_GetDepth (smtDb s) ≠ Panic;
  cr_hash : hash_good hash (map_nodes hash m);
}.

Lemma sorted_lt l : NoDup l → Forall nk_wf l → StronglySorted key_before l → StronglySorted key_lt l.
Proof.
  induction l as [|k l IH]; intros Hnd Hwf Hs; [constructor|]. apply NoDup_cons in Hnd as [Hk Hnd].
  apply Forall_cons in Hwf as [Hwk Hwf]. apply StronglySorted_cons in Hs as [Hb Hs]. apply StronglySorted_cons. split; [|by apply IH].
  rewrite Forall_forall in *. intros k' Hin. apply key_before_lt; auto. by intros ->.
Qed.

(** The entries in the order of the sorted keys. *)
Lemma sorted_entries m nodeKeys :
  map_wf m → nodeKeys ≡ₚ (map_to_list m).*1 →
  ∃ es, SortNodeKeysBitwiseAsc nodeKeys = es.*1 ∧ entries_ok es ∧ es ≡ₚ map_to_list m.
Proof.
  intros Hm Hp. set (keys := SortNodeKeysBitwiseAsc nodeKeys).
  assert (keys ≡ₚ (map_to_list m).*1) as Hk by (unfold keys, SortNodeKeysBitwiseAsc; by rewrite merge_sort_Permutation).
  exists ((λ k, (k, m !!! k)) <$> keys).
  assert ((λ k, (k, m !!! k)) <$> keys ≡ₚ map_to_list m) as Hes.
  { rewrite Hk, <-list_fmap_compose. rewrite <-(list_fmap_id (map_to_list m)) at 2. apply Permutation_refl', list_fmap_ext.
    intros i [k v] Hi. cbn. apply list_elem_of_lookup_2, elem_of_map_to_list in Hi. by rewrite (lookup_total_correct _ _ _ Hi). }
  assert (((λ k, (k, m !!! k)) <$> keys).*1 = keys) as E by (rewrite <-list_fmap_compose; apply list_fmap_id).
  split_and!; [done| |done]. split.
  - rewrite Hes. apply map_Forall_to_list in Hm. eapply Forall_impl; [exact Hm|]. by intros [].
  - eapply (StronglySorted_fmap _ key_lt); [by intros x y|]. apply sorted_lt.
    + rewrite Hk. apply NoDup_fst_map_to_list.
    + rewrite Hk, Forall_fmap. apply map_Forall_to_list in Hm. eapply Forall_impl; [exact Hm|]. by intros [] [].
    + unfold keys, SortNodeKeysBitwiseAsc. apply StronglySorted_merge_sort; apply _.
Qed.

Section Theorems.
Context {D : Type} {SD : SmtDB D} {SL : SmtDBLaws D} {SA : SmtDBAccounts D}.
Context (hash : list Z → NodeKey → NodeKey).
Context (orderL : gmap NodeKey NodeKey → list (NodeKey * NodeKey)).
Context (orderK : gmap NodeKey NodeValue12 → list (NodeKey * NodeValue12)).
Context (readCap jobCap : nat).

(** C4. Creating a tree from all its keys is correct under every schedule of the
    three goroutines.  For any keys without repetition, in any order, whose values
    the store holds, GenerateFromKVBulk can return, and whatever it returns, also
    when the context is cancelled on the way, is the root of the canonical tree
    of all values; the store then holds that tree, so that it can be read and
    updated like one built by insertions. *)
Theorem GenerateFromKVBulk_correct (s : SMT D) m nodeKeys :
  (∀ i c, nk_wf (hash i c)) → (∀ m, orderL m ≡ₚ map_to_list m) → (∀ m, orderK m ≡ₚ map_to_list m) →
  (2 ≤ readCap)%nat → (0 < jobCap)%nat → creates hash s m nodeKeys →
  (∃ o, GenerateFromKVBulk hash orderL orderK readCap jobCap false s nodeKeys o) ∧
  ∀ mayCancel o, GenerateFromKVBulk hash orderL orderK readCap jobCap mayCancel s nodeKeys o →
    ∃ s', o = Ok (map_root hash m, s') ∧ smt_holds hash s' m.
Proof.
  intros Hh HL HK Hrc Hjc [Hwf Hne Hk Hv Hsv Hd Hg]. destruct (sorted_entries m nodeKeys Hwf Hk) as (es & Es & Hes & Hp).
  assert (∀ k v, (k, v) ∈ es → db_GetAccountValue (smtDb s) k = Ok (Some <$> v : NodeValue8)) as Hacc.
  { intros k v Hin. apply Hv. by rewrite <-elem_of_map_to_list, <-Hp. }
  split.
  - destruct (run_ends hash Hh orderL HL orderK HK readCap jobCap m Hwf es Hes Hp Hg (smtDb s) Hacc Hrc Hjc) as (s' & Hr & Hj).
    eexists. apply (bulk_returns _ _ _ _ _ _ _ _ s'); [|done]. rewrite Es. eapply rtc_subrel; [|exact Hr]. by left.
  - intros mayCancel o. eapply (bulk_returned hash Hh orderL HL orderK HK readCap jobCap m Hwf es); try done.
    intros ->. symmetry in Hp. by apply Permutation_nil_r, map_to_list_empty_iff in Hp.
Qed.

(** C24. The three goroutines neither deadlock nor run forever: without
    cancellation every schedule ends within 8n+5 steps for n keys, and as long as
    not all three have returned one of them can go on.  The channel of values must
    hold two at least. *)
Theorem GenerateFromKVBulk_terminates (s : SMT D) m nodeKeys n t :
  (∀ i c, nk_wf (hash i c)) → (∀ m, orderL m ≡ₚ map_to_list m) → (∀ m, orderK m ≡ₚ map_to_list m) →
  (2 ≤ readCap)%nat → (0 < jobCap)%nat → creates hash s m nodeKeys →
  let keys := SortNodeKeysBitwiseAsc nodeKeys in
  nsteps (step hash orderL orderK readCap jobCap keys) n (start keys (smtDb s)) t →
  (n ≤ 8 * length nodeKeys + 5)%nat ∧ (joined t = true ∨ ∃ t', step hash orderL orderK readCap jobCap keys t t').
Proof.
  intros Hh HL HK Hrc Hjc [Hwf Hne Hk Hv Hsv Hd Hg] keys. destruct (sorted_entries m nodeKeys Hwf Hk) as (es & Es & Hes & Hp).
  unfold keys. rewrite Es. intros Hn.
  destruct (run_alive hash Hh orderL HL orderK HK readCap jobCap m Hwf es Hes Hp Hg (smtDb s)) with n t as [(pre & post & Ha) Hb]; [|done|].
  { intros k v Hin. apply Hv. by rewrite <-elem_of_map_to_list, <-Hp. }
  split; [|by eapply alive_progress]. rewrite Hk, length_fmap, <-Hp. lia.
Qed.

(** C36. A cancelled creation can hang.  With more keys than the channel of values
    holds, there is a schedule in which the worker stops because the context is
    done, the companion loop takes the closed channel of results for the end and
    stops reading values, and the builder waits for the next one: from then on
    GenerateFromKVBulk never returns. *)
Theorem GenerateFromKVBulk_cancelled_hangs (s : SMT D) m nodeKeys :
  (∀ i c, nk_wf (hash i c)) → (∀ m, orderL m ≡ₚ map_to_list m) → (∀ m, orderK m ≡ₚ map_to_list m) →
  creates hash s m nodeKeys → (readCap < length nodeKeys)%nat →
  let keys := SortNodeKeysBitwiseAsc nodeKeys in
  let moves := λ a b, step hash orderL orderK readCap jobCap keys a b ∨ cancel a b in
  ∃ t, rtc moves (start keys (smtDb s)) t ∧
    ∀ t', rtc moves t t' → joined t' = false ∧ stopped (t_main t') = false.
Proof.
  intros Hh HL HK [Hwf Hne Hk Hv Hsv Hd Hg] Hlt keys mv. destruct (sorted_entries m nodeKeys Hwf Hk) as (es & Es & Hes & Hp).
  assert (∀ k v, (k, v) ∈ es → db_GetAccountValue (smtDb s) k = Ok (Some <$> v : NodeValue8)) as Hacc.
  { intros k v Hin. apply Hv. by rewrite <-elem_of_map_to_list, <-Hp. }
  assert (∀ a b, rtc mv a b ↔ rtc (moves hash orderL orderK readCap jobCap es true) a b) as Hmv.
  { unfold mv, keys. rewrite Es. intros a b. split; apply rtc_subrel; intros x y; unfold moves; naive_solver. }
  destruct (abandoned_reachable hash orderL orderK readCap jobCap es (smtDb s) Hacc) as (t & Hr & Ha).
  { by rewrite Hk, length_fmap, <-Hp in Hlt. }
  unfold keys. rewrite Es. exists t. split; [by apply Hmv|]. intros t' Ht%Hmv.
  destruct (reachable_threads hash Hh orderL HL orderK HK readCap jobCap m Hwf es Hes Hp Hg _ _ _ Hacc Hr) as (pre & post & Hi).
  by eapply (abandoned_hangs hash Hh orderL HL orderK HK readCap jobCap m Hwf es Hes Hp Hg).
Qed.
End Theorems.

(** ** An instance *)

(** Three keys, two of which share their first bits, and a store with their values. *)
Definition sample_values : list (NodeKey * list Z) :=
  [(NK 3 0 0 0, [5; 0; 0; 0; 0; 0; 0; 0]); (NK 1 1 0 0, [6; 0; 0; 0; 0; 0; 0; 0]); (NK 0 2 0 1, [7; 1; 0; 0; 0; 0; 0; 0])].

Definition sample_created : gmap NodeKey (list Z) := list_to_map sample_values.

Definition sample_accounts : SMT MemDb :=
  mkSMT false match foldM (λ d e, db_InsertAccountValue d e.1 (Some <$> e.2)) MemDb.NewMemDb sample_values with
              | Ok d => d
              | _ => MemDb.NewMemDb
              end.

Lemma sample_creates : creates sample_hash sample_accounts sample_created sample_values.*1.
Proof.
  split; [by apply (bool_decide_unpack _); vm_compute|done| | |done|done|by apply (bool_decide_unpack _); vm_compute].
  - unfold sample_created. rewrite map_to_list_to_map; [done|]. apply (bool_decide_unpack _). by vm_compute.
  - apply (bool_decide_unpack _). by vm_compute.
Qed.

Lemma GenerateFromKVBulk_correct_witness :
  (∃ o, GenerateFromKVBulk sample_hash map_to_list map_to_list 1024 (Z.to_nat 65536) false sample_accounts sample_values.*1 o) ∧
  ∀ mayCancel o,
    GenerateFromKVBulk sample_hash map_to_list map_to_list 1024 (Z.to_nat 65536) mayCancel sample_accounts sample_values.*1 o →
    ∃ s', o = Ok (map_root sample_hash sample_created, s') ∧ smt_holds sample_hash s' sample_created.
Proof.
  apply (GenerateFromKVBulk_correct sample_hash map_to_list map_to_list 1024 (Z.to_nat 65536) sample_accounts sample_created sample_values.*1).
  - apply sample_hash_wf.
  - done.
  - done.
  - lia.
  - lia.
  - apply sample_creates.
Defined.

(** After the main goroutine has read the first of the three values. *)
Definition sample_state : threads (D := MemDb) :=
  mkThreads b_next (SortNodeKeysBitwiseAsc sample_values.*1) newSmtNode 0 ∅ [Some (Some <$> [7; 1; 0; 0; 0; 0; 0; 0])] [] w_ready []
    (m_fill 2) 1 (smtDb sample_accounts) false.

Lemma GenerateFromKVBulk_terminates_witness :
  let keys := SortNodeKeysBitwiseAsc sample_values.*1 in
  (2 ≤ 8 * length sample_values.*1 + 5)%nat ∧
  (joined sample_state = true ∨ ∃ t', step sample_hash map_to_list map_to_list 2 1 keys sample_state t').
Proof.
  apply (GenerateFromKVBulk_terminates sample_hash map_to_list map_to_list 2 1 sample_accounts sample_created sample_values.*1 2 sample_state).
  - apply sample_hash_wf.
  - done.
  - done.
  - lia.
  - lia.
  - apply sample_creates.
  - eapply nsteps_l; [by apply step_main|]. eapply nsteps_l; [apply step_main; [done|]|constructor]. vm_compute. reflexivity.
Defined.

Lemma GenerateFromKVBulk_cancelled_hangs_witness :
  let keys := SortNodeKeysBitwiseAsc sample_values.*1 in
  let moves := λ a b, step sample_hash map_to_list map_to_list 2 1 keys a b ∨ cancel a b in
  ∃ t, rtc moves (start keys (smtDb sample_accounts)) t ∧
    ∀ t', rtc moves t t' → joined t' = false ∧ stopped (t_main t') = false.
Proof.
  apply (GenerateFromKVBulk_cancelled_hangs sample_hash map_to_list map_to_list 2 1 sample_accounts sample_created sample_values.*1).
  - apply sample_hash_wf.
  - done.
  - done.
  - apply sample_creates.
  - cbn. lia.
Defined.
