(* ===== verification/ContractHash.v ===== *)
(** The hash of contract bytecode (HashContractBytecode* of
    src/smt/pkg/utils/utils.go), which also hashes the texts of transactions and
    logs in the block info tree.

    A text of hexadecimal digits is padded with a one, zeros and a final bit to a
    multiple of 56 bytes; the bytes are read as words of seven bytes, and every
    eight words are hashed with the hash so far as capacity.  The source has two
    versions: one works on the text, one on a byte buffer that it reinterprets as
    machine words, which is taken to be little-endian here.  They agree on every
    text of hexadecimal digits. *)

From S2P Require Import Prelude Bytes SmtUtils SmtKeys.

Local Open Scope Z_scope.

Definition BYTECODE_ELEMENTS_HASH : Z := 8.
Definition BYTECODE_BYTES_ELEMENT : Z := 7.

(** [copy(capacity[:], ...)] of four words. *)
Definition nk_of_list (l : list Z) : NodeKey :=
  match l with [a; b; c; d] => NK a b c d | _ => nk_zero end.

Section ContractHash.
Context (hash : list Z → NodeKey → NodeKey).

(** * The version on texts *)

(** [for len(bytecode)%(56*2) != 0 { bytecode += "00" }], at most [fuel] times. *)
Fixpoint pad_text (fuel : nat) (bytecode : list ascii) : list ascii :=
  match fuel with
  | O => bytecode
  | S fuel =>
      if (length bytecode mod 112 =? 0)%nat then bytecode
      else pad_text fuel (bytecode ++ ["0"; "0"]%char)
  end.

(** One round of the inner loop: [(tmpElem, counter, elementsToHash)]. *)
Definition add_byte (subsetBytecode : list ascii) (st : list ascii * Z * list Z) (j : nat)
    : outcome (list ascii * Z * list Z) :=
  let '(tmpElem, counter, elementsToHash) := st in
  byteToAdd ← (if (j <? length subsetBytecode / 2)%nat
               then go_slice subsetBytecode (Z.of_nat j * 2) ((Z.of_nat j + 1) * 2)
               else Ok ["0"; "0"]%char);
  let tmpElem := byteToAdd ++ tmpElem in
  let counter := counter + 1 in
  if counter =? BYTECODE_BYTES_ELEMENT then
    match SetString tmpElem 16 with
    | Some tmpScalar => Ok ([], 0, elementsToHash ++ [big_uint64 tmpScalar])
    | None => Panic
    end
  else Ok (tmpElem, counter, elementsToHash).

(** One hash: [(tmpHash, bytesPointer)]. *)
Definition hash_block (bytecode : list ascii) (st : NodeKey * Z) (_ : nat) : outcome (NodeKey * Z) :=
  let '(tmpHash, bytesPointer) := st in
  let maxBytesToAdd := BYTECODE_ELEMENTS_HASH * BYTECODE_BYTES_ELEMENT in
  subsetBytecode ← go_slice bytecode bytesPointer (bytesPointer + maxBytesToAdd * 2);
  '(_, _, elementsToHash) ← foldM (add_byte subsetBytecode) ([], 0, nk_list tmpHash) (seq 0 (Z.to_nat maxBytesToAdd));
  inn ← go_slice elementsToHash 4 12;
  capacity ← go_slice elementsToHash 0 4;
  Ok (hash inn (nk_of_list capacity), bytesPointer + maxBytesToAdd * 2).

Definition HashContractBytecodeBigIntV1 (bc : list ascii) : outcome Z :=
  let bytecode := if has_prefix0x bc then drop 2 bc else bc in
  let bytecode := if Nat.odd (length bytecode) then "0"%char :: bytecode else bytecode in
  let bytecode := pad_text 56 (bytecode ++ ["0"; "1"]%char) in
  let size := Z.of_nat (length bytecode) in
  last ← go_slice bytecode (size - 2) size;
  let lastByteInt := default 0 (hex_value last) in
  let lastByte := big_hex (Z.lor lastByteInt 128) in
  front ← go_slice bytecode 0 (size - 2);
  let bytecode := front ++ lastByte in
  let numHashes := ((length bytecode + 111) / 112)%nat in
  '(tmpHash, _) ← foldM (hash_block bytecode) (nk_zero, 0) (seq 0 numHashes);
  Ok (ArrayToScalar (nk_list tmpHash)).

(** * The version on a byte buffer *)

Definition charToByte (c : ascii) : Z :=
  let n := ascii_z c in
  if (48 <=? n) && (n <=? 57) then n - 48
  else if (97 <=? n) && (n <=? 102) then n - 97 + 10
  else if (65 <=? n) && (n <=? 70) then n - 65 + 10
  else 0.

(** [targetBytes[offset] = b] *)
Definition set_byte (targetBytes : list Z) (offset : Z) (b : Z) : outcome (list Z) :=
  if (0 <=? offset) && (offset <? Z.of_nat (length targetBytes))
  then Ok (<[Z.to_nat offset := b]> targetBytes) else Panic.

(** The loop over the pairs of characters: [(targetBytes, offset, counter)]. *)
Fixpoint write_pairs (rest : list ascii) (targetBytes : list Z) (offset counter : Z) : outcome (list Z * Z) :=
  match rest with
  | [] => Ok (targetBytes, offset)
  | [_] => Panic
  | c :: d :: rest =>
      targetBytes ← set_byte targetBytes offset (Z.lor (u8 (Z.shiftl (charToByte c) 4)) (charToByte d));
      let offset := offset + 1 in
      let counter := counter + 1 in
      if counter =? BYTECODE_BYTES_ELEMENT
      then write_pairs rest targetBytes (offset + 1) 0
      else write_pairs rest targetBytes offset counter
  end.

(** The 64 bytes at [p] as eight little-endian words. *)
Definition words_at (targetBytes : list Z) (p : nat) : list Z :=
  (λ w, le_value 256 (take 8 (drop (p + 8 * w) targetBytes))) <$> seq 0 8.

(** [for i := 0; i < len(targetBytes); i += 64] *)
Definition hash_buffer (targetBytes : list Z) : NodeKey :=
  foldl (λ tmpHash i, hash (words_at targetBytes (64 * i)) tmpHash) nk_zero
    (seq 0 ((length targetBytes + 63) / 64)).

Definition HashContractBytecodeBigInt (bc : list ascii) : outcome Z :=
  let bytecode := trim0x bc in
  let len := length bytecode in
  let targetBytesLen := (len / 2)%nat in
  let targetBytesLen := if (len mod 2 =? 0)%nat then targetBytesLen else S targetBytesLen in
  let targetBytesLen := S targetBytesLen in
  let targetBytesLen := if (targetBytesLen mod 56 =? 0)%nat then targetBytesLen
                        else (targetBytesLen + (56 - targetBytesLen mod 56))%nat in
  let targetBytesLen := (targetBytesLen / 7 * 8)%nat in
  let targetBytes := replicate targetBytesLen 0 in
  '(targetBytes, offset, counter, rest) ←
    (if (len mod 2 =? 0)%nat then Ok (targetBytes, 0, 0, bytecode)
     else
       c ← go_index bytecode 0;
       targetBytes ← set_byte targetBytes 0 (charToByte c);
       Ok (targetBytes, 1, 1, drop 1 bytecode));
  '(targetBytes, offset) ← write_pairs rest targetBytes offset counter;
  targetBytes ← set_byte targetBytes offset 1;
  b ← go_index targetBytes (Z.of_nat (length targetBytes) - 2);
  targetBytes ← set_byte targetBytes (Z.of_nat (length targetBytes) - 2) (Z.lor b 128);
  Ok (ArrayToScalar (nk_list (hash_buffer targetBytes))).
End ContractHash.
