(* ===== verification/ContractHashSpec.v ===== *)
(** The two versions of the bytecode hash agree.

    Both are shown to compute one definition on bytes: the padding to a multiple
    of 56 bytes, words of seven bytes, and a chain of hashes. *)

From S2P Require Import Prelude Bytes SmtUtils SmtKeys SmtTree ContractHash.

Local Open Scope Z_scope.
#[local] Set Warnings "-clear-no-such-hyp".

(** * The definition on bytes *)

Definition padded_length (n : nat) : nat := ((n / 56 + 1) * 56)%nat.

(** A one, zeros, and the highest bit of the last byte. *)
Definition pad_zeros (bs : list Z) : list Z := bs ++ 1 :: replicate (padded_length (length bs) - length bs - 1) 0.

Definition pad_bytes (bs : list Z) : list Z :=
  let l := pad_zeros bs in
  let i := (length l - 1)%nat in
  <[i := Z.lor (default 0 (l !! i)) 128]> l.

Definition block_words (l : list Z) (i : nat) : list Z :=
  (λ w, le_value 256 (take 7 (drop (56 * i + 7 * w) l))) <$> seq 0 8.

Definition bytecode_hash (hash : list Z → NodeKey → NodeKey) (bs : list Z) : Z :=
  let l := pad_bytes bs in
  NodeKey_ToBigInt (foldl (λ h i, hash (block_words l i) h) nk_zero (seq 0 (length l / 56))).

(** The bytes of a text of digits: a missing first digit is zero. *)
Definition text_bytes (cs : list ascii) : option (list Z) :=
  (λ ds, pair_up (if Nat.odd (length ds) then 0 :: ds else ds)) <$> mapM hex_val cs.

Lemma padded_length_gt n : (n < padded_length n)%nat.
Proof. unfold padded_length. pose proof (Nat.div_mod_eq n 56). pose proof (Nat.mod_upper_bound n 56). lia. Qed.

Lemma length_pad_zeros bs : length (pad_zeros bs) = padded_length (length bs).
Proof.
  unfold pad_zeros. rewrite length_app. cbn [length]. rewrite length_replicate. pose proof (padded_length_gt (length bs)). lia.
Qed.

Lemma length_pad_bytes bs : length (pad_bytes bs) = padded_length (length bs).
Proof. unfold pad_bytes. by rewrite length_insert, length_pad_zeros. Qed.

Lemma hex_val_range c d : hex_val c = Some d → 0 ≤ d < 16.
Proof. unfold hex_val. intros E. repeat case_match; simplify_eq; lia. Qed.

(** * The buffer *)

(** Bytes in groups of seven, each followed by a zero. *)
Definition spread (l : list Z) : list Z :=
  (λ p, if (p mod 8 =? 7)%nat then 0 else default 0 (l !! (p / 8 * 7 + p mod 8)%nat)) <$> seq 0 (length l / 7 * 8).

Lemma length_spread l : length (spread l) = (length l / 7 * 8)%nat.
Proof. unfold spread. by rewrite length_fmap, length_seq. Qed.

Lemma lookup_spread l p :
  (p < length l / 7 * 8)%nat →
  spread l !! p = Some (if (p mod 8 =? 7)%nat then 0 else default 0 (l !! (p / 8 * 7 + p mod 8)%nat)).
Proof. intros Hp. unfold spread. rewrite list_lookup_fmap, lookup_seq_lt by done. done. Qed.

Lemma spread_place k : ((k + k / 7) mod 8 = k mod 7 ∧ (k + k / 7) / 8 = k / 7)%nat.
Proof.
  assert (k + k / 7 = 8 * (k / 7) + k mod 7)%nat as -> by (pose proof (Nat.div_mod_eq k 7); lia).
  pose proof (Nat.mod_upper_bound k 7). split.
  - rewrite Nat.add_comm, Nat.mul_comm, Nat.Div0.mod_add, Nat.mod_small; lia.
  - rewrite Nat.add_comm, Nat.mul_comm, Nat.div_add, Nat.div_small; lia.
Qed.

Lemma lookup_spread_place l k :
  (length l mod 7 = 0)%nat → (k < length l)%nat → spread l !! (k + k / 7)%nat = l !! k.
Proof.
  intros Hl Hk. destruct (spread_place k) as [E1 E2]. pose proof (Nat.div_mod_eq k 7). pose proof (Nat.mod_upper_bound k 7).
  rewrite lookup_spread by (pose proof (Nat.div_mod_eq (length l) 7); lia).
  rewrite E1, E2. replace (k mod 7 =? 7)%nat with false by lia. replace (k / 7 * 7 + k mod 7)%nat with k by lia.
  destruct (lookup_lt_is_Some_2 l k Hk) as [x ->]. done.
Qed.

Lemma spread_insert l k b :
  (length l mod 7 = 0)%nat → (k < length l)%nat → <[(k + k / 7)%nat := b]> (spread l) = spread (<[k := b]> l).
Proof.
  intros Hl Hk. destruct (spread_place k) as [E1 E2]. pose proof (Nat.div_mod_eq k 7). pose proof (Nat.mod_upper_bound k 7).
  pose proof (Nat.div_mod_eq (length l) 7). apply list_eq. intros p.
  destruct (decide (p < length l / 7 * 8)%nat) as [Hp|Hp].
  2: { rewrite !lookup_ge_None_2; [done|..]; rewrite ?length_insert, length_spread, ?length_insert; lia. }
  rewrite (lookup_spread (<[k := b]> l)) by (by rewrite length_insert).
  destruct (decide (p = k + k / 7)%nat) as [->|Hne].
  - rewrite list_lookup_insert_eq by (rewrite length_spread; lia). rewrite E1, E2.
    replace (k mod 7 =? 7)%nat with false by lia. replace (k / 7 * 7 + k mod 7)%nat with k by lia.
    by rewrite list_lookup_insert_eq.
  - rewrite list_lookup_insert_ne, lookup_spread by done. destruct (p mod 8 =? 7)%nat eqn:E7; [done|].
    rewrite list_lookup_insert_ne; [done|]. pose proof (Nat.div_mod_eq p 8). pose proof (Nat.mod_upper_bound p 8). nia.
Qed.

Lemma set_byte_spread l k b :
  (length l mod 7 = 0)%nat → (k < length l)%nat →
  set_byte (spread l) (Z.of_nat (k + k / 7)) b = Ok (spread (<[k := b]> l)).
Proof.
  intros Hl Hk. unfold set_byte. rewrite length_spread. pose proof (Nat.div_mod_eq (length l) 7). pose proof (Nat.div_mod_eq k 7).
  pose proof (Nat.mod_upper_bound k 7). replace (_ && _) with true by lia. by rewrite Nat2Z.id, spread_insert.
Qed.

Lemma spread_word l j :
  (length l mod 7 = 0)%nat → (j < length l / 7)%nat → take 8 (drop (8 * j) (spread l)) = take 7 (drop (7 * j) l) ++ [0].
Proof.
  intros Hl Hj. pose proof (Nat.div_mod_eq (length l) 7). apply list_eq. intros i.
  destruct (decide (i < 8)%nat) as [Hi|Hi].
  2: { rewrite !lookup_ge_None_2; [done|rewrite length_app, length_take; cbn [length]; lia|rewrite length_take; lia]. }
  rewrite lookup_take_lt, lookup_drop, lookup_spread by lia.
  replace ((8 * j + i) mod 8)%nat with i by (rewrite Nat.add_comm, Nat.mul_comm, Nat.Div0.mod_add, Nat.mod_small; lia).
  replace ((8 * j + i) / 8)%nat with j by (rewrite Nat.add_comm, Nat.mul_comm, Nat.div_add, Nat.div_small; lia).
  assert (length (take 7 (drop (7 * j) l)) = 7)%nat as H7 by (rewrite length_take, length_drop; lia).
  destruct (i =? 7)%nat eqn:E7.
  - apply Nat.eqb_eq in E7 as ->. rewrite lookup_app_r, H7 by lia. done.
  - rewrite lookup_app_l, lookup_take_lt, lookup_drop by lia. replace (j * 7 + i)%nat with (7 * j + i)%nat by lia.
    destruct (lookup_lt_is_Some_2 l (7 * j + i)) as [x ->]; [lia|done].
Qed.

Lemma le_value_snoc0 ds : le_value 256 (ds ++ [0]) = le_value 256 ds.
Proof. rewrite le_value_app by done. cbn. lia. Qed.

Lemma hash_buffer_spread hash l :
  (length l mod 56 = 0)%nat →
  hash_buffer hash (spread l) = foldl (λ h i, hash (block_words l i) h) nk_zero (seq 0 (length l / 56)).
Proof.
  intros Hl. unfold hash_buffer. rewrite length_spread. pose proof (Nat.div_mod_eq (length l) 56) as E. rewrite Hl in E.
  set (q := (length l / 56)%nat) in *. assert (length l / 7 = 8 * q)%nat as -> by lia.
  replace ((8 * q * 8 + 63) / 64)%nat with q by lia.
  assert (∀ n h, (n ≤ q)%nat → foldl (λ h i, hash (words_at (spread l) (64 * i)) h) h (seq 0 n) =
    foldl (λ h i, hash (block_words l i) h) h (seq 0 n)) as Hn; [|by apply Hn].
  induction n as [|n IH]; intros h Hn; [done|]. rewrite seq_S, !foldl_app, IH by lia. cbn [foldl]. f_equal.
  unfold words_at, block_words. apply list_fmap_ext. intros i w [-> Hw]%lookup_seq. rewrite !Nat.add_0_l.
  replace (64 * n + 8 * i)%nat with (8 * (8 * n + i))%nat by lia.
  replace (56 * n + 7 * i)%nat with (7 * (8 * n + i))%nat by lia.
  rewrite spread_word, le_value_snoc0 by lia. done.
Qed.

Lemma charToByte_hex c d : hex_val c = Some d → charToByte c = d.
Proof. unfold hex_val, charToByte. intros E. repeat case_match; simplify_eq; lia. Qed.

Lemma write_byte c d x y : hex_val c = Some x → hex_val d = Some y →
  Z.lor (u8 (Z.shiftl (charToByte c) 4)) (charToByte d) = 16 * x + y.
Proof.
  intros Hx Hy. rewrite (charToByte_hex c x), (charToByte_hex d y) by done.
  apply hex_val_range in Hx, Hy. unfold u8. rewrite Z.mod_small by (rewrite Z.shiftl_mul_pow2 by lia; lia).
  by apply lor_nibbles.
Qed.

(** Writing after [pre], into zeros. *)
Lemma write_pairs_spec cs : ∀ ds pre m,
  mapM hex_val cs = Some ds → Nat.even (length ds) = true → (length (pair_up ds) ≤ m)%nat →
  ((length pre + m) mod 7 = 0)%nat →
  let k := length pre in let k' := (k + length (pair_up ds))%nat in
  write_pairs cs (spread (pre ++ replicate m 0)) (Z.of_nat (k + k / 7)) (Z.of_nat (k mod 7)) =
  Ok (spread (pre ++ pair_up ds ++ replicate (m - length (pair_up ds)) 0), Z.of_nat (k' + k' / 7)).
Proof.
  induction cs as [|c|c d cs IH] using pairs_ind; intros ds pre m Hds Hev Hm Hl; cbn zeta.
  - injection Hds as <-. cbn [pair_up length write_pairs app]. by rewrite Nat.sub_0_r, Nat.add_0_r.
  - cbn in Hds. destruct (hex_val c); [|done]. by injection Hds as <-.
  - apply mapM_Some in Hds. apply Forall2_cons_inv_l in Hds as (x & ds1 & Hx & Hds1 & ->).
    apply Forall2_cons_inv_l in Hds1 as (y & ds2 & Hy & Hds2 & ->).
    apply mapM_Some in Hds2. cbn [pair_up length] in *. cbn in Hev. cbn [write_pairs]. set (k := length pre) in *.
    destruct m as [|m]; [lia|]. pose proof (Nat.div_mod_eq k 7). pose proof (Nat.mod_upper_bound k 7).
    rewrite set_byte_spread; [|rewrite length_app, length_replicate; done|rewrite length_app, length_replicate; unfold k; lia].
    rewrite bind_Ok, (write_byte c d x y) by done. cbn [replicate]. unfold k at 1. rewrite insert_app_r_alt, Nat.sub_diag by lia.
    cbn [base.insert list_insert]. change (16 * x + y :: replicate m 0) with ([16 * x + y] ++ replicate m 0).
    rewrite app_assoc. pose proof (IH ds2 (pre ++ [16 * x + y]) m Hds2 Hev) as IH'. rewrite length_app in IH'. cbn [length] in IH'.
    specialize (IH' ltac:(lia) ltac:(rewrite <-Hl; f_equal; lia)). cbn zeta in IH'. fold k in IH'.
    unfold BYTECODE_BYTES_ELEMENT. fold k.
    replace (k + S (length (pair_up ds2)))%nat with (k + 1 + length (pair_up ds2))%nat by lia.
    replace (pre ++ (16 * x + y :: pair_up ds2) ++ replicate (S m - S (length (pair_up ds2))) 0)
      with ((pre ++ [16 * x + y]) ++ pair_up ds2 ++ replicate (m - length (pair_up ds2)) 0) by (by rewrite <-!app_assoc).
    rewrite <-IH'. destruct (Z.eqb_spec (Z.of_nat (k mod 7) + 1) 7).
    + replace ((k + 1) / 7)%nat with (k / 7 + 1)%nat by lia. replace ((k + 1) mod 7)%nat with 0%nat by lia.
      f_equal. lia.
    + replace ((k + 1) / 7)%nat with (k / 7)%nat by lia. replace ((k + 1) mod 7)%nat with (k mod 7 + 1)%nat by lia.
      f_equal; lia.
Qed.

Lemma lookup_pad_last bs : ∃ b, pad_zeros bs !! (length (pad_zeros bs) - 1)%nat = Some b.
Proof. apply lookup_lt_is_Some_2. rewrite length_pad_zeros. pose proof (padded_length_gt (length bs)). lia. Qed.

(** The buffer is completed. *)
Lemma finish_buffer bs :
  let N := padded_length (length bs) in let k := length bs in
  (targetBytes ← set_byte (spread (bs ++ replicate (N - length bs) 0)) (Z.of_nat (k + k / 7)) 1;
   b ← go_index targetBytes (Z.of_nat (length targetBytes) - 2);
   set_byte targetBytes (Z.of_nat (length targetBytes) - 2) (Z.lor b 128)) = Ok (spread (pad_bytes bs)).
Proof.
  intros N k. pose proof (padded_length_gt (length bs)) as Hgt. fold N in Hgt.
  assert (N mod 56 = 0)%nat as HN by apply Nat.Div0.mod_mul.
  assert (length (pad_zeros bs) = N) as Hlen by apply length_pad_zeros.
  rewrite set_byte_spread; [|rewrite length_app, length_replicate; lia..]. rewrite bind_Ok.
  replace (<[k := 1]> (bs ++ replicate (N - length bs) 0)) with (pad_zeros bs).
  2: { unfold pad_zeros. fold N. replace (N - length bs)%nat with (S (N - length bs - 1)) by lia. cbn [replicate].
       rewrite insert_app_r_alt by lia. unfold k. rewrite Nat.sub_diag. cbn. do 2 f_equal. f_equal. lia. }
  destruct (lookup_pad_last bs) as [b Eb]. rewrite Hlen in Eb.
  assert (Z.of_nat (length (spread (pad_zeros bs))) - 2 = Z.of_nat ((N - 1) + (N - 1) / 7)) as ->.
  { rewrite length_spread, Hlen. lia. }
  rewrite (go_index_lookup _ _ b) by (rewrite lookup_spread_place; [done|lia..]). rewrite bind_Ok, set_byte_spread by lia.
  unfold pad_bytes. by rewrite Hlen, Eb.
Qed.

Lemma spread_zeros n : (n mod 7 = 0)%nat → spread (replicate n 0) = replicate (n / 7 * 8) 0.
Proof.
  intros Hn. pose proof (Nat.div_mod_eq n 7). apply list_eq. intros p. destruct (decide (p < n / 7 * 8)%nat) as [Hp|Hp].
  - rewrite lookup_spread by (by rewrite length_replicate). rewrite (lookup_replicate_2 _ _ p) by done. f_equal.
    destruct (p mod 8 =? 7)%nat; [done|]. destruct (replicate n 0 !! _) as [x|] eqn:E; [|done].
    by apply lookup_replicate_1 in E as [-> _].
  - rewrite !lookup_ge_None_2; [done|rewrite length_replicate; lia|rewrite length_spread, length_replicate; lia].
Qed.

(** What the first lines compute is the padded length. *)
Lemma buffer_length n len : n = (if (len mod 2 =? 0)%nat then len / 2 else S (len / 2))%nat →
  (let t := S n in (if (t mod 56 =? 0)%nat then t else t + (56 - t mod 56)) / 7 * 8 = padded_length n / 7 * 8)%nat.
Proof.
  intros _ t. f_equal. f_equal. unfold padded_length, t. pose proof (Nat.div_mod_eq (S n) 56). pose proof (Nat.div_mod_eq n 56).
  pose proof (Nat.mod_upper_bound (S n) 56). pose proof (Nat.mod_upper_bound n 56). destruct (Nat.eqb_spec (S n mod 56) 0); lia.
Qed.

Lemma even_div_2 n : Nat.even n = true ↔ (n mod 2 = 0)%nat.
Proof. rewrite Nat.even_spec. split; [intros [m ->]; lia|]. intros E. exists (n / 2)%nat. lia. Qed.

(** The characters are written. *)
Lemma write_text cs ds :
  mapM hex_val cs = Some ds →
  let bs := pair_up (if Nat.odd (length ds) then 0 :: ds else ds) in
  let N := padded_length (length bs) in
  ('(targetBytes, offset, counter, rest) ←
    (if (length cs mod 2 =? 0)%nat then Ok (spread (replicate N 0), 0, 0, cs)
     else
       c ← go_index cs 0;
       targetBytes ← set_byte (spread (replicate N 0)) 0 (charToByte c);
       Ok (targetBytes, 1, 1, drop 1 cs));
   write_pairs rest targetBytes offset counter) =
  Ok (spread (bs ++ replicate (N - length bs) 0), Z.of_nat (length bs + length bs / 7)).
Proof.
  intros Hds bs N. assert (length cs = length ds) as Hlen by (apply mapM_Some in Hds; by eapply Forall2_length).
  assert (N mod 56 = 0)%nat as HN by apply Nat.Div0.mod_mul. pose proof (padded_length_gt (length bs)) as Hgt. fold N in Hgt.
  assert (N mod 7 = 0)%nat as HN7 by lia. rewrite Hlen.
  destruct (Nat.eqb_spec (length ds mod 2) 0) as [Hev|Hodd].
  - assert (Nat.even (length ds) = true) as He by (by apply even_div_2).
    assert (bs = pair_up ds) as -> by (unfold bs; by rewrite <-Nat.negb_even, He). rewrite bind_Ok.
    apply (write_pairs_spec cs ds [] N); [done..|lia|done].
  - assert (Nat.even (length ds) = false) as He.
    { destruct (Nat.even (length ds)) eqn:E; [|done]. by apply even_div_2 in E. }
    apply mapM_Some in Hds. destruct Hds as [|c x cs ds Hx Hds]; [done|]. apply mapM_Some in Hds.
    assert (bs = [x] ++ pair_up ds) as Ebs.
    { unfold bs. rewrite <-Nat.negb_even, He. cbn [negb pair_up app]. done. }
    change (go_index (c :: cs) 0) with (Ok c). rewrite bind_Ok. rewrite Ebs in Hgt. cbn [length app] in Hgt.
    change 0 with (Z.of_nat (0 + 0 / 7)) at 2. rewrite set_byte_spread by (rewrite length_replicate; lia).
    rewrite !bind_Ok. change (drop 1 (c :: cs)) with cs.
    replace (<[0%nat := charToByte c]> (replicate N 0)) with ([x] ++ replicate (N - 1) 0).
    2: { replace N with (S (N - 1)) at 2 by lia. cbn. by rewrite (charToByte_hex c x). }
    rewrite Ebs. pose proof (write_pairs_spec cs ds [x] (N - 1) Hds) as E. cbn [length] in E.
    change (Z.of_nat (1 + 1 / 7)) with 1 in E. change (Z.of_nat (1 mod 7)) with 1 in E.
    rewrite E; [| |lia|replace (1 + (N - 1))%nat with N by lia; done].
    2: { cbn [length] in He. rewrite Nat.even_succ, <-Nat.negb_even in He. by destruct (Nat.even (length ds)). }
    rewrite length_app. cbn [length]. rewrite <-app_assoc.
    by replace (N - (1 + length (pair_up ds)))%nat with (N - 1 - length (pair_up ds))%nat by lia.
Qed.

Lemma HashContractBytecodeBigInt_spec hash bc bs :
  text_bytes (trim0x bc) = Some bs → HashContractBytecodeBigInt hash bc = Ok (bytecode_hash hash bs).
Proof.
  unfold text_bytes, HashContractBytecodeBigInt. set (cs := trim0x bc). intros (ds & Hds & ->)%fmap_Some.
  assert (length cs = length ds) as Hlen by (apply mapM_Some in Hds; by eapply Forall2_length).
  pose proof (write_text cs ds Hds) as Hw. cbn zeta in Hw.
  set (bs := pair_up _) in *. set (N := padded_length (length bs)) in *.
  assert (N mod 56 = 0)%nat as HN by apply Nat.Div0.mod_mul. pose proof (padded_length_gt (length bs)) as Hgt. fold N in Hgt.
  assert (length bs = if (length cs mod 2 =? 0)%nat then length cs / 2 else S (length cs / 2))%nat as Hbs.
  { unfold bs. rewrite Hlen. destruct (Nat.eqb_spec (length ds mod 2) 0) as [E|E].
    - apply even_div_2 in E. rewrite <-Nat.negb_even, E. pose proof (length_pair_up ds E). cbn [negb]. lia.
    - destruct (Nat.even (length ds)) eqn:Ev; [by apply even_div_2 in Ev|]. rewrite <-Nat.negb_even, Ev. cbn [negb].
      pose proof (length_pair_up (0 :: ds)) as Hl. cbn [length] in Hl. rewrite Nat.even_succ, <-Nat.negb_even, Ev in Hl.
      specialize (Hl eq_refl). lia. }
  rewrite <-Hbs, (buffer_length _ _ Hbs). fold N. rewrite <-spread_zeros by lia.
  apply bind_Ok_inv in Hw as ([[[t o] c] r] & -> & Ew). rewrite bind_Ok, Ew, bind_Ok. clear Ew.
  pose proof (finish_buffer bs) as Hf. cbn zeta in Hf. fold N in Hf.
  apply bind_Ok_inv in Hf as (t1 & -> & Hf). rewrite bind_Ok. apply bind_Ok_inv in Hf as (b & -> & Hf).
  rewrite bind_Ok, Hf, bind_Ok, hash_buffer_spread; [done|]. by rewrite length_pad_bytes.
Qed.

(** * The text *)

(** Two digits and their byte. *)
Definition hexpair (p : list ascii) (b : Z) : Prop :=
  ∃ c d x y, p = [c; d] ∧ hex_val c = Some x ∧ hex_val d = Some y ∧ b = 16 * x + y.

Lemma text_pairs cs : ∀ ds,
  mapM hex_val cs = Some ds → Nat.even (length ds) = true →
  ∃ P, concat P = cs ∧ Forall2 hexpair P (pair_up ds).
Proof.
  induction cs as [|c|c d cs IH] using pairs_ind; intros ds Hds Hev; apply mapM_Some in Hds.
  - inversion Hds. subst. exists []. split; [done|constructor].
  - apply Forall2_cons_inv_l in Hds as (x & ds1 & _ & Hds1 & ->). apply Forall2_nil_inv_l in Hds1 as ->. done.
  - apply Forall2_cons_inv_l in Hds as (x & ds1 & Hx & Hds1 & ->).
    apply Forall2_cons_inv_l in Hds1 as (y & ds2 & Hy & Hds2 & ->). apply mapM_Some in Hds2. cbn in Hev.
    destruct (IH ds2 Hds2 Hev) as (P & <- & HP). exists ([c; d] :: P). split; [done|].
    cbn [pair_up]. constructor; [|done]. by exists c, d, x, y.
Qed.

Lemma hexpair_length P l : Forall2 hexpair P l → length (concat P) = (2 * length P)%nat.
Proof.
  induction 1 as [|p b P l Hp _ IH]; [done|]. destruct Hp as (c & d & x & y & -> & _). cbn [concat app length]. lia.
Qed.

Lemma hexpair_slice P l n k :
  Forall2 hexpair P l → take (2 * n) (drop (2 * k) (concat P)) = concat (take n (drop k P)).
Proof.
  intros HP. revert n k. induction HP as [|p b P l Hp HP IH]; intros n k.
  { cbn [concat]. by rewrite !drop_nil, !take_nil. }
  destruct Hp as (c & d & x & y & -> & _). destruct k as [|k].
  - destruct n as [|n]; [done|]. rewrite Nat.mul_0_r. replace (2 * S n)%nat with (S (S (2 * n))) by lia.
    rewrite !drop_0. cbn [concat app take]. pose proof (IH n 0%nat) as E. rewrite Nat.mul_0_r, !drop_0 in E. by rewrite E.
  - replace (2 * S k)%nat with (S (S (2 * k))) by lia. cbn [concat app drop skipn]. apply IH.
Qed.

Lemma go_slice_pairs P l (n k : nat) (lo hi : Z) :
  Forall2 hexpair P l → lo = Z.of_nat (2 * k) → hi = Z.of_nat (2 * (k + n)) → (k + n ≤ length P)%nat →
  go_slice (concat P) lo hi = Ok (concat (take n (drop k P))).
Proof.
  intros HP -> -> Hle. pose proof (hexpair_length P l HP). rewrite go_slice_ok by lia. f_equal.
  rewrite Nat2Z.id. replace (Z.to_nat _) with (2 * n)%nat by lia. by eapply hexpair_slice.
Qed.

Lemma pad_text_spec m : ∀ fuel cs n,
  length cs = (2 * n)%nat → (m ≤ fuel)%nat → (m < 56)%nat → ((n + m) mod 56 = 0)%nat →
  pad_text fuel cs = cs ++ concat (replicate m ["0"; "0"]%char).
Proof.
  induction m as [|m IH]; intros fuel cs n Hl Hf Hm Hmod.
  - cbn. rewrite app_nil_r. destruct fuel; [done|]. cbn [pad_text]. rewrite Hl.
    by replace (2 * n mod 112 =? 0)%nat with true by lia.
  - destruct fuel as [|fuel]; [lia|]. cbn [pad_text]. rewrite Hl. replace (2 * n mod 112 =? 0)%nat with false by lia.
    rewrite (IH fuel _ (S n)); [|rewrite length_app; cbn [length]; lia|lia|lia|rewrite <-Hmod; f_equal; lia].
    by rewrite <-app_assoc.
Qed.

Lemma hexpair_big_hex z : 128 ≤ z < 256 → hexpair (big_hex z) z.
Proof.
  intros Hz.
  assert (forallb (λ z, match big_hex z with
    | [c; d] => match hex_val c, hex_val d with Some x, Some y => z =? 16 * x + y | _, _ => false end
    | _ => false end) (seqZ 128 128) = true) as H by (vm_compute; reflexivity).
  rewrite forallb_forall in H. specialize (H z). rewrite <-list_elem_of_In, elem_of_seqZ in H. specialize (H ltac:(lia)).
  destruct (big_hex z) as [|c [|d [|]]]; try done. destruct (hex_val c) as [x|] eqn:Ex; [|done].
  destruct (hex_val d) as [y|] eqn:Ey; [|done]. exists c, d, x, y. split_and!; [done..|].
  lia.
Qed.

Lemma hexpair_value p b : hexpair p b → hex_value p = Some b ∧ 0 ≤ b < 256.
Proof.
  intros (c & d & x & y & -> & Hc & Hd & ->). split.
  - unfold hex_value. cbn. rewrite Hd, Hc. cbn. f_equal. lia.
  - apply hex_val_range in Hc, Hd. lia.
Qed.

(** Seven bytes, the last one first, are read as one word. *)
Lemma SetString_group G B :
  Forall2 hexpair G B → G ≠ [] → SetString (concat (rev G)) 16 = Some (le_value 256 B).
Proof.
  intros HG Hne.
  assert (∃ ds, mapM (digit_val 16) (concat (rev G)) = Some ds ∧ be_value 16 ds = le_value 256 B ∧
    length ds = (2 * length B)%nat) as (ds & Hds & Hv & _).
  { clear Hne. induction HG as [|p b G B Hp _ (ds & Hds & Hv & Hl)]; [by exists []|].
    destruct Hp as (c & d & x & y & -> & Hx & Hy & ->). exists (ds ++ [x; y]). cbn [rev]. rewrite concat_app.
    assert (mapM (digit_val 16) [c; d] = Some [x; y]) as E.
    { pose proof (hex_val_range _ _ Hx). pose proof (hex_val_range _ _ Hy). cbn. unfold digit_val. rewrite Hx, Hy.
      replace (x <? 16) with true by lia. by replace (y <? 16) with true by lia. }
    split_and!.
    - cbn [concat]. rewrite app_nil_r. apply mapM_Some in Hds, E. apply mapM_Some. by apply Forall2_app.
    - rewrite be_value_app, Hv by done. unfold be_value. cbn. lia.
    - rewrite length_app. cbn [length]. lia. }
  unfold SetString. destruct (concat (rev G)) as [|c cs] eqn:Ec.
  - exfalso. destruct HG as [|p b G B (c & d & x & y & -> & _)]; [done|]. cbn in Ec. rewrite concat_app in Ec.
    by apply app_eq_nil in Ec as [_ ?].
  - apply mapM_Some in Hds as Hds'. apply Forall2_cons_inv_l in Hds' as (x & ds' & Hx & _).
    assert (c ≠ "-"%char ∧ c ≠ "+"%char) as [H1 H2] by (by split; intros ->).
    rewrite !bool_decide_false by done. rewrite Hds. cbn. by rewrite Hv.
Qed.

(** The words of the first [n] groups. *)
Definition first_words (B : list Z) (n : nat) : list Z := (λ w, le_value 256 (take 7 (drop (7 * w) B))) <$> seq 0 n.

Lemma hexpair_take_drop P l n k : Forall2 hexpair P l → Forall2 hexpair (take n (drop k P)) (take n (drop k l)).
Proof. intros. by apply Forall2_take, Forall2_drop. Qed.

Lemma take_group {A} (Q : list A) j x :
  Q !! j = Some x → take (S (j mod 7)) (drop (j / 7 * 7) Q) = take (j mod 7) (drop (j / 7 * 7) Q) ++ [x].
Proof.
  intros Hx. apply take_S_r. rewrite lookup_drop. pose proof (Nat.div_mod_eq j 7).
  by replace (j / 7 * 7 + j mod 7)%nat with j by lia.
Qed.

Lemma add_bytes_spec Q B els j :
  Forall2 hexpair Q B → (j ≤ length Q)%nat →
  foldM (add_byte (concat Q)) ([], 0, els) (seq 0 j) =
  Ok (concat (rev (take (j mod 7) (drop (j / 7 * 7) Q))), Z.of_nat (j mod 7), els ++ first_words B (j / 7)).
Proof.
  intros HQ. induction j as [|j IH]; intros Hj; [by rewrite app_nil_r|].
  rewrite seq_S, foldM_app, IH, bind_Ok by lia. cbn [foldM]. rewrite Nat.add_0_l. unfold add_byte.
  pose proof (hexpair_length Q B HQ) as Hl. pose proof (Forall2_length _ _ _ HQ) as HlB.
  destruct (lookup_lt_is_Some_2 Q j) as [p Hp]; [lia|].
  rewrite Hl. replace (j <? 2 * length Q / 2)%nat with true by lia.
  rewrite (go_slice_pairs Q B 1 j) by (done || lia). rewrite bind_Ok.
  rewrite (drop_S _ p _ Hp). cbn [take concat]. rewrite app_nil_r.
  assert (p ++ concat (rev (take (j mod 7) (drop (j / 7 * 7) Q))) = concat (rev (take (S (j mod 7)) (drop (j / 7 * 7) Q)))) as ->.
  { by rewrite (take_group Q j p Hp), rev_app_distr. }
  unfold BYTECODE_BYTES_ELEMENT. pose proof (Nat.div_mod_eq j 7). pose proof (Nat.mod_upper_bound j 7).
  destruct (Z.eqb_spec (Z.of_nat (j mod 7) + 1) 7) as [E7|E7].
  - replace (S (j mod 7)) with 7%nat by lia. replace (S j mod 7)%nat with 0%nat by lia. replace (S j / 7)%nat with (S (j / 7)) by lia.
    assert (length (take 7 (drop (j / 7 * 7) Q)) = 7%nat) as H7 by (rewrite length_take, length_drop; lia).
    rewrite (SetString_group _ (take 7 (drop (j / 7 * 7) B))); [|by apply hexpair_take_drop|by intros E; rewrite E in H7].
    cbn [mbind outcome_bind]. unfold first_words. rewrite seq_S, fmap_app, app_assoc. cbn [fmap list_fmap]. rewrite Nat.add_0_l, (Nat.mul_comm (j / 7) 7). set (G := take 7 (drop (7 * (j / 7)) B)).
    assert (0 ≤ le_value 256 G < 256 ^ 7) as Hr.
    { replace 7 with (Z.of_nat (length G)). 2: { unfold G. rewrite length_take, length_drop. lia. }
      apply le_value_range; [done|]. unfold G. apply Forall_take, Forall_drop.
      clear -HQ. induction HQ as [|? ? ? ? Hp]; constructor; [|done]. by apply hexpair_value in Hp as [_ ?]. }
    do 4 f_equal. unfold big_uint64. change (256 ^ 7) with (2 ^ 56) in Hr. rewrite (Z.abs_eq (le_value 256 G)) by apply Hr. apply u64_small. split; [apply Hr|].
    eapply Z.lt_trans; [apply Hr|done].
  - cbn [mbind outcome_bind]. replace (S j mod 7)%nat with (S (j mod 7)) by lia. replace (S j / 7)%nat with (j / 7)%nat by lia.
    do 4 f_equal. lia.
Qed.

Lemma nk_of_nk_list k : nk_of_list (nk_list k) = k.
Proof. by destruct k. Qed.

Lemma first_words_block l i :
  first_words (take 56 (drop (56 * i) l)) 8 = block_words l i.
Proof.
  unfold first_words, block_words. apply list_fmap_ext. intros j w [-> Hj]%lookup_seq. f_equal.
  rewrite skipn_firstn_comm, take_take, drop_drop, Nat.add_0_l. by rewrite Nat.min_l by lia.
Qed.

Lemma hash_block_spec hash P l h i k :
  Forall2 hexpair P l → (56 * (i + 1) ≤ length P)%nat →
  hash_block hash (concat P) (h, Z.of_nat (112 * i)) k = Ok (hash (block_words l i) h, Z.of_nat (112 * (i + 1))).
Proof.
  intros HP Hi. unfold hash_block, BYTECODE_ELEMENTS_HASH, BYTECODE_BYTES_ELEMENT.
  rewrite (go_slice_pairs P l 56 (56 * i)) by (done || lia). rewrite bind_Ok.
  rewrite (add_bytes_spec _ (take 56 (drop (56 * i) l))).
  2: by apply hexpair_take_drop. 2: rewrite length_take, length_drop; lia.
  change (Z.to_nat (8 * 7)) with 56%nat. change (56 / 7)%nat with 8%nat. rewrite bind_Ok, first_words_block.
  assert (length (block_words l i) = 8%nat) as H8 by (unfold block_words; by rewrite length_fmap, length_seq).
  rewrite <-(app_nil_r (block_words l i)) at 1. rewrite go_slice_app by (rewrite ?H8; done). rewrite bind_Ok.
  change (nk_list h ++ block_words l i) with ([] ++ nk_list h ++ block_words l i). rewrite go_slice_app by done.
  rewrite bind_Ok, nk_of_nk_list. do 2 f_equal. lia.
Qed.

Lemma hash_blocks_spec hash P l n :
  Forall2 hexpair P l → (56 * n ≤ length P)%nat →
  foldM (hash_block hash (concat P)) (nk_zero, 0) (seq 0 n) =
  Ok (foldl (λ h i, hash (block_words l i) h) nk_zero (seq 0 n), Z.of_nat (112 * n)).
Proof.
  intros HP. induction n as [|n IH]; intros Hn; [done|]. rewrite seq_S, foldM_app, IH, bind_Ok, foldl_app by lia.
  cbn [foldM foldl]. rewrite (hash_block_spec hash P l) by (done || lia). rewrite bind_Ok, Nat.add_0_l.
  do 3 f_equal. lia.
Qed.

Lemma lor_128 b : 0 ≤ b < 256 → 128 ≤ Z.lor b 128 < 256.
Proof.
  intros Hb.
  assert (forallb (λ b, (128 <=? Z.lor b 128) && (Z.lor b 128 <? 256)) (seqZ 0 256) = true) as H by (vm_compute; reflexivity).
  rewrite forallb_forall in H. specialize (H b). rewrite <-list_elem_of_In, elem_of_seqZ in H. specialize (H ltac:(lia)). lia.
Qed.

Lemma trim0x_prefix cs : trim0x cs = if has_prefix0x cs then drop 2 cs else cs.
Proof.
  unfold has_prefix0x. destruct cs as [|a [|b cs]]; [by rewrite bool_decide_false..|]. cbn [trim0x take drop skipn].
  destruct (decide (a = "0"%char ∧ b = "x"%char)) as [[-> ->]|Hne]; [by rewrite !bool_decide_true|].
  rewrite (bool_decide_false (a = _ ∧ b = _)) by done. rewrite bool_decide_false; [done|]. intros [= -> ->]. by apply Hne.
Qed.

(** The last two characters are replaced. *)
Lemma pad_last P bs :
  Forall2 hexpair P (pad_zeros bs) →
  let size := Z.of_nat (length (concat P)) in
  ∃ last front P', go_slice (concat P) (size - 2) size = Ok last ∧ go_slice (concat P) 0 (size - 2) = Ok front ∧
    front ++ big_hex (Z.lor (default 0 (hex_value last)) 128) = concat P' ∧ Forall2 hexpair P' (pad_bytes bs).
Proof.
  intros HP size. pose proof (Forall2_length _ _ _ HP) as Hl. pose proof (length_pad_zeros bs) as Hz.
  pose proof (padded_length_gt (length bs)) as Hgt. unfold size. rewrite (hexpair_length _ _ HP).
  set (n := (length P - 1)%nat). destruct (lookup_pad_last bs) as [b Hb].
  destruct (Forall2_lookup_r _ _ _ _ _ HP Hb) as (p & Hp & Hpb). rewrite <-Hl in Hp. fold n in Hp.
  exists p, (concat (take n P)), (take n P ++ [big_hex (Z.lor b 128)]). destruct (hexpair_value p b Hpb) as [Ev Hr].
  split_and!.
  - rewrite (go_slice_pairs P _ 1 n) by (eassumption || lia). rewrite (drop_S _ p _ Hp). cbn. by rewrite app_nil_r.
  - rewrite (go_slice_pairs P _ n 0) by (eassumption || lia). by rewrite drop_0.
  - rewrite Ev. cbn [default]. rewrite concat_app. cbn. by rewrite app_nil_r.
  - unfold pad_bytes. rewrite Hb, <-Hl. fold n. cbn [default].
    rewrite insert_take_drop, (drop_ge _ (S n)) by lia. apply Forall2_app; [by apply Forall2_take|].
    constructor; [|constructor]. by apply hexpair_big_hex, lor_128.
Qed.

Lemma HashContractBytecodeBigIntV1_spec hash bc bs :
  text_bytes (trim0x bc) = Some bs → HashContractBytecodeBigIntV1 hash bc = Ok (bytecode_hash hash bs).
Proof.
  unfold text_bytes, HashContractBytecodeBigIntV1. rewrite <-trim0x_prefix. intros (ds & Hds & ->)%fmap_Some.
  set (cs := trim0x bc) in *. assert (length cs = length ds) as Hlen by (apply mapM_Some in Hds; by eapply Forall2_length).
  set (ds' := if Nat.odd (length ds) then 0 :: ds else ds).
  assert (mapM hex_val (if Nat.odd (length cs) then "0"%char :: cs else cs) = Some ds' ∧ Nat.even (length ds') = true) as [Hds' Hev].
  { rewrite Hlen. unfold ds'. destruct (Nat.odd (length ds)) eqn:E.
    - split; [|cbn [length]; by rewrite Nat.even_succ]. apply mapM_Some. constructor; [done|]. by apply mapM_Some.
    - split; [done|]. by rewrite <-Nat.negb_odd, E. }
  destruct (text_pairs _ ds' Hds' Hev) as (P & <- & HP). set (bs := pair_up ds') in *.
  pose proof (padded_length_gt (length bs)) as Hgt. set (N := padded_length (length bs)) in *.
  assert (N mod 56 = 0)%nat as HN by apply Nat.Div0.mod_mul. pose proof (Forall2_length _ _ _ HP) as HlP.
  assert (N - length bs - 1 < 56)%nat as Hm by (unfold N, padded_length; lia).
  rewrite (pad_text_spec (N - length bs - 1) 56 _ (S (length bs))); [|rewrite length_app, (hexpair_length P bs HP); cbn [length]; lia|lia|lia|].
  2: { by replace (S (length bs) + (N - length bs - 1))%nat with N by lia. }
  set (P0 := P ++ [["0"; "1"]%char] ++ replicate (N - length bs - 1) ["0"; "0"]%char).
  replace ((concat P ++ ["0"; "1"]%char) ++ concat (replicate (N - length bs - 1) ["0"; "0"]%char)) with (concat P0).
  2: { unfold P0. rewrite !concat_app, <-app_assoc. done. }
  assert (Forall2 hexpair P0 (pad_zeros bs)) as HP0.
  { unfold P0, pad_zeros. fold N. apply Forall2_app; [done|]. constructor; [|apply Forall2_replicate].
    - by exists "0"%char, "1"%char, 0, 1.
    - by exists "0"%char, "0"%char, 0, 0. }
  destruct (pad_last P0 bs HP0) as (lst & front & P' & El & Ef & Ec & HP'). rewrite El, bind_Ok, Ef, bind_Ok, Ec.
  pose proof (hexpair_length _ _ HP') as HL. pose proof (Forall2_length _ _ _ HP') as HL'. rewrite length_pad_bytes in HL'. fold N in HL'.
  replace ((length (concat P') + 111) / 112)%nat with (N / 56)%nat by lia.
  rewrite (hash_blocks_spec hash P' (pad_bytes bs)), bind_Ok by (done || lia). unfold bytecode_hash. rewrite length_pad_bytes. done.
Qed.

(** * The padding can be undone *)

Lemma strip_zeros (a b : nat) (xs ys : list Z) : replicate a 0 ++ 1 :: xs = replicate b 0 ++ 1 :: ys → xs = ys.
Proof.
  revert b. induction a as [|a IH]; intros [|b] E; cbn in E; [by injection E|done|done|]. injection E as E. by apply (IH b).
Qed.

Lemma pad_zeros_inj bs bs' : pad_zeros bs = pad_zeros bs' → bs = bs'.
Proof.
  unfold pad_zeros. intros E. apply (f_equal (@rev Z)) in E. rewrite !rev_app_distr in E. cbn [rev] in E. rewrite !rev_replicate, <-!app_assoc in E.
  cbn [app] in E. apply strip_zeros in E. apply (f_equal (@rev Z)) in E. by rewrite !rev_involutive in E.
Qed.

Lemma pad_zeros_last bs b : pad_zeros bs !! (length (pad_zeros bs) - 1)%nat = Some b → b = 0 ∨ b = 1.
Proof.
  rewrite length_pad_zeros. pose proof (padded_length_gt (length bs)). unfold pad_zeros. rewrite lookup_app_r by lia.
  destruct (padded_length (length bs) - 1 - length bs)%nat as [|n] eqn:E; [by intros [= <-]; right|].
  cbn [lookup list_lookup]. intros [-> _]%lookup_replicate_1. by left.
Qed.

Lemma pad_bytes_inj bs bs' : pad_bytes bs = pad_bytes bs' → bs = bs'.
Proof.
  intros E. apply pad_zeros_inj. assert (length (pad_zeros bs) = length (pad_zeros bs')) as Hl.
  { apply (f_equal length) in E. by rewrite !length_pad_bytes, <-!length_pad_zeros in E. }
  destruct (lookup_pad_last bs) as [b Hb]. destruct (lookup_pad_last bs') as [b' Hb'].
  pose proof (pad_zeros_last bs b Hb) as Rb. pose proof (pad_zeros_last bs' b' Hb') as Rb'.
  unfold pad_bytes in E. rewrite Hb, Hb' in E. cbn [default] in E. rewrite <-Hl in *. set (n := (length (pad_zeros bs) - 1)%nat) in *.
  assert (n < length (pad_zeros bs))%nat as Hn by (by apply lookup_lt_Some in Hb).
  apply list_eq. intros i. apply (f_equal (lookup i)) in E. destruct (decide (i = n)) as [->|Hne].
  - rewrite !list_lookup_insert_eq in E by lia. injection E as E. rewrite Hb, Hb'.
    destruct Rb as [-> | ->], Rb' as [-> | ->]; done.
  - by rewrite !list_lookup_insert_ne in E by done.
Qed.

(** C25. The hash of bytecode computed on a buffer of machine words is the hash
    computed on the text, for every text of hexadecimal digits, of even or odd
    length and in both cases, with or without the prefix; both return. *)
Theorem HashContractBytecode_versions_agree hash bc :
  Forall (λ c, is_Some (hex_val c)) (trim0x bc) →
  ∃ z, HashContractBytecodeBigInt hash bc = Ok z ∧ HashContractBytecodeBigIntV1 hash bc = Ok z.
Proof.
  intros Hbc. apply mapM_is_Some_2 in Hbc as [ds Hds].
  exists (bytecode_hash hash (pair_up (if Nat.odd (length ds) then 0 :: ds else ds))).
  split; [apply HashContractBytecodeBigInt_spec|apply HashContractBytecodeBigIntV1_spec]; unfold text_bytes; by rewrite Hds.
Qed.

Lemma HashContractBytecode_versions_agree_witness :
  ∃ z, HashContractBytecodeBigInt sample_hash (ascii_list "0x6080604052abCDe") = Ok z ∧
    HashContractBytecodeBigIntV1 sample_hash (ascii_list "0x6080604052abCDe") = Ok z.
Proof. apply HashContractBytecode_versions_agree. apply (bool_decide_unpack _). vm_compute. exact I. Defined.
