(* ===== verification/TxHash.v ===== *)
(** The hash of a layer 2 transaction (ComputeL2TxHash of src/zk/tx/tx.go, with
    the texts of src/zkevm/hex/hex.go and src/erigon-lib/common/address.go).

    The fields of a transaction are written as hexadecimal texts of fixed length,
    one after the other, and the text is hashed like contract bytecode.
    Addresses are written with their checksum, so their letters are of both cases;
    Keccak-256 is a parameter.  So is the Hex method of uint256.Int
    (github.com/holiman/uint256). *)

From S2P Require Import Prelude Bytes SmtUtils SmtKeys ContractHash.
From Stdlib Require Import Strings.Byte.

Local Open Scope Z_scope.

Definition prefix0x : list ascii := ["0"; "x"]%char.

(** [hex.EncodeToString] *)
Definition EncodeToString (str : list byte) : list ascii :=
  flat_map (λ b, [hex_char (bz b / 16); hex_char (bz b mod 16)]) str.

Definition EncodeToHex (str : list byte) : list ascii := prefix0x ++ EncodeToString str.

Definition IsValid (s : list ascii) : bool :=
  forallb (λ c, let b := ascii_z c in
    (48 <=? b) && (b <=? 57) || (97 <=? b) && (b <=? 102) || (65 <=? b) && (b <=? 70)) (trim0x s).

Definition padStart (str : list ascii) (n : Z) (pad : ascii) : outcome (list ascii) :=
  if n <=? Z.of_nat (length str) then Ok str
  else
    let padding := replicate (Z.to_nat (n - Z.of_nat (length str))) pad in
    padding ← go_slice padding 0 (n - Z.of_nat (length str));
    Ok (padding ++ str).

(** [strconv.FormatInt(v, 16)], [v.Text(16)] *)
Definition format16 (v : Z) : list ascii := (if v <? 0 then ["-"%char] else []) ++ big_hex (Z.abs v).

Section TxHash.
Context (keccak : list byte → list byte).
Context (uint256_Hex : Z → list ascii).
Context (hash : list Z → NodeKey → NodeKey).

(** * Addresses *)

Definition Address_hex (a : list byte) : list ascii := prefix0x ++ EncodeToString a.

(** The bytes of a text. *)
Definition text_data (cs : list ascii) : list byte := (λ c, zb (ascii_z c)) <$> cs.

(** One character of the address, at the index [i] of the text without prefix. *)
Definition checksum_char (h : list byte) (i : nat) (c : ascii) : outcome ascii :=
  hashByte ← bz <$> go_index h (Z.of_nat (i / 2));
  let hashByte := if (i mod 2 =? 0)%nat then Z.shiftr hashByte 4 else Z.land hashByte 15 in
  Ok (if (57 <? ascii_z c) && (7 <? hashByte) then Ascii.ascii_of_nat (Z.to_nat (u8 (ascii_z c - 32))) else c).

Definition checksumHex (a : list byte) : outcome (list ascii) :=
  let buf := Address_hex a in
  let h := keccak (text_data (drop 2 buf)) in
  cs ← foldM (λ cs '(i, c), c ← checksum_char h i c; Ok (cs ++ [c])) [] (imap pair (drop 2 buf));
  Ok (take 2 buf ++ cs).

Definition Address_Hex (a : list byte) : outcome (list ascii) := checksumHex a.

(** * Parameters as texts *)

(** The types of the parameter; pointers may be nil. *)
Inductive l2Param :=
| p_int (v : Z)
| p_int64 (v : Z)
| p_uint (v : Z)
| p_uint64 (v : Z)
| p_big (v : option Z)
| p_uint256 (v : option Z)
| p_bytes (v : list byte)
| p_address (v : list byte)
| p_string (v : list ascii)
| p_other.

Definition formatL2TxHashParam (param : l2Param) (paramLength : Z) : outcome (list ascii) :=
  paramStr ←
    match param with
    | p_int v | p_int64 v | p_uint v | p_uint64 v => Ok (if v =? 0 then ["0"%char] else format16 v)
    | p_big None => Panic
    | p_big (Some v) => Ok (if v =? 0 then ["0"%char] else format16 v)
    | p_uint256 None => Ok ["0"%char]
    | p_uint256 (Some v) => Ok (uint256_Hex v)
    | p_bytes v => Ok (EncodeToHex v)
    | p_address v => Address_Hex v
    | p_string v => Ok v
    | p_other => Err "unsupported parameter type"
    end;
  let paramStr := trim0x paramStr in
  let paramStr := if (length paramStr mod 2 =? 1)%nat then "0"%char :: paramStr else paramStr in
  if negb (IsValid paramStr) then Err "invalid hex string"
  else padStart paramStr (paramLength * 2) "0"%char.

(** * The hash *)

Definition ComputeL2TxHash (chainId value gasPrice : option Z) (nonce txGasLimit : Z)
    (to from : option (list byte)) (data : list byte) : outcome (list byte) :=
  let noChain := match chainId with None => true | Some c => c =? 0 end in
  let txType := if noChain then ["0"; "0"]%char else ["0"; "1"]%char in
  noncePart ← formatL2TxHashParam (p_uint64 nonce) 8;
  gasPricePart ← formatL2TxHashParam (p_uint256 gasPrice) 32;
  gasLimitPart ← formatL2TxHashParam (p_uint64 txGasLimit) 8;
  let h := txType ++ noncePart ++ gasPricePart ++ gasLimitPart in
  h ← match to with
      | None => Ok (h ++ ["0"; "1"]%char)
      | Some to =>
          toHex ← Address_Hex to;
          toPart ← formatL2TxHashParam (p_string toHex) 20;
          Ok (h ++ ["0"; "0"]%char ++ toPart)
      end;
  valuePart ← formatL2TxHashParam (p_uint256 value) 32;
  let h := h ++ valuePart in
  let dataStr := EncodeToHex data in
  let dataStr := if (1 <? length dataStr)%nat && bool_decide (take 2 dataStr = prefix0x) then drop 2 dataStr else dataStr in
  let dataLength := (Z.of_nat (length dataStr) + 1) / 2 in
  dataLengthPart ← formatL2TxHashParam (p_int dataLength) 3;
  let h := h ++ dataLengthPart in
  h ← (if 0 <? dataLength
       then dataPart ← formatL2TxHashParam (p_string dataStr) dataLength; Ok (h ++ dataPart)
       else Ok h);
  h ← (if noChain then Ok h
       else chainIDPart ← formatL2TxHashParam (p_big chainId) 8; Ok (h ++ chainIDPart));
  match from with
  | None => Panic
  | Some from =>
      fromHex ← Address_Hex from;
      fromPart ← formatL2TxHashParam (p_string fromHex) 20;
      let h := h ++ fromPart in
      hashed ← HashContractBytecodeBigInt hash h;
      Ok (BigToHash hashed)
  end.
End TxHash.
