(* ===== verification/TxHashSpec.v ===== *)
(** What the hash of a transaction is the hash of.

    ComputeL2TxHash returns on every transaction, with the hash of a sequence of
    digits in which every field has a fixed place; the letters of the address
    checksums do not matter.  The digits determine the fields. *)

From S2P Require Import Prelude Bytes SmtUtils SmtKeys SmtTree ContractHash ContractHashSpec TxHash.
From Stdlib Require Import Strings.Byte.

Local Open Scope Z_scope.
#[local] Set Warnings "-clear-no-such-hyp".

(** * Digits *)

(** The text [cs] has the digits [ds]. *)
Abbreviation digits cs ds := (mapM hex_val cs = Some ds).

Definition bytes_digits (bs : list byte) : list Z := flat_map (λ b, [bz b / 16; bz b mod 16]) bs.

(** The last [n] digits of a number. *)
Definition fixed (n : nat) (z : Z) : list Z := rev (le_digits 16 n z).

Lemma digits_app cs ds cs' ds' : digits cs ds → digits cs' ds' → digits (cs ++ cs') (ds ++ ds').
Proof. rewrite !mapM_Some. apply Forall2_app. Qed.

Lemma digits_length cs ds : digits cs ds → length cs = length ds.
Proof. rewrite mapM_Some. apply Forall2_length. Qed.

Lemma digits_zeros n : digits (replicate n "0"%char) (replicate n 0).
Proof. apply mapM_Some, Forall2_replicate. done. Qed.

Lemma digits_range cs ds : digits cs ds → Forall (λ d, 0 ≤ d < 16) ds.
Proof.
  rewrite mapM_Some. induction 1 as [|c d cs ds Hc _ IH]; constructor; [by eapply hex_val_range|done].
Qed.

(** A text of digits has no prefix. *)
Lemma trim0x_digits cs ds : digits cs ds → trim0x cs = cs.
Proof.
  rewrite mapM_Some. destruct 1 as [|a x cs ds _ H]; [done|]. destruct H as [|b y cs ds Hb _]; [done|]. cbn [trim0x].
  rewrite bool_decide_false; [done|]. by intros [_ ->].
Qed.

Lemma IsValid_digits cs ds : digits cs ds → IsValid cs = true.
Proof.
  intros H. unfold IsValid. rewrite (trim0x_digits _ _ H). apply forallb_forall. intros c Hc.
  rewrite mapM_Some in H. apply list_elem_of_In, list_elem_of_lookup in Hc as [i Hi].
  destruct (Forall2_lookup_l _ _ _ _ _ H Hi) as (d & _ & Hd). unfold hex_val in Hd. cbn zeta.
  repeat case_match; simplify_eq; lia.
Qed.

Lemma digits_EncodeToString bs : digits (EncodeToString bs) (bytes_digits bs).
Proof.
  apply mapM_Some. induction bs as [|b bs IH]; [constructor|]. pose proof (bz_range b). cbn.
  constructor; [apply hex_val_char; lia|]. constructor; [apply hex_val_char; lia|done].
Qed.

Lemma length_bytes_digits bs : length (bytes_digits bs) = (2 * length bs)%nat.
Proof. unfold bytes_digits. induction bs as [|b bs IH]; [done|]. cbn. rewrite IH. lia. Qed.

Lemma pair_up_bytes bs : pair_up (bytes_digits bs) = bz <$> bs.
Proof.
  unfold bytes_digits. induction bs as [|b bs IH]; [done|]. cbn. f_equal; [|done]. pose proof (Z.div_mod (bz b) 16). lia.
Qed.

(** The digits of a number, with zeros before them. *)
Lemma fixed_digits n ds z :
  Forall (λ d, 0 ≤ d < 16) ds → length ds = n → be_value 16 ds = z → ds = fixed n z.
Proof.
  intros Hr Hl Hv. unfold fixed, be_value in *. rewrite <-(rev_involutive ds). f_equal. rewrite <-Hv.
  symmetry. apply le_digits_value'; [done|by apply Forall_rev|by rewrite length_rev].
Qed.

Lemma be_value_zeros n ds : be_value 16 (replicate n 0 ++ ds) = be_value 16 ds.
Proof.
  rewrite be_value_app by done. unfold be_value at 1. rewrite rev_replicate, le_value_zeros. lia.
Qed.

Lemma digits_format16 v : 0 ≤ v → ∃ ds, digits (if v =? 0 then ["0"%char] else format16 v) ds ∧ be_value 16 ds = v ∧
  (length ds ≤ Nat.max 1 (ndigits 4 v))%nat.
Proof.
  intros Hv. destruct (Z.eqb_spec v 0) as [->|Hne]; [by exists [0]|]. unfold format16.
  replace (v <? 0) with false by lia. rewrite Z.abs_eq by done. cbn [app]. unfold big_hex. replace (v =? 0) with false by lia.
  exists (rev (le_digits 16 (ndigits 4 v) v)). split_and!.
  - apply mapM_hex_val_char, Forall_rev, le_digits_range. lia.
  - unfold be_value. rewrite rev_involutive. by apply (le_value_min_digits 4).
  - rewrite length_rev, length_le_digits. lia.
Qed.

(** * Texts of parameters *)

Lemma padStart_zeros cs n :
  padStart cs (Z.of_nat n) "0"%char = Ok (replicate (n - length cs) "0"%char ++ cs).
Proof.
  unfold padStart. destruct (Z.leb_spec (Z.of_nat n) (Z.of_nat (length cs))).
  - by replace (n - length cs)%nat with 0%nat by lia.
  - replace (Z.of_nat n - Z.of_nat (length cs)) with (Z.of_nat (n - length cs)) by lia. rewrite Nat2Z.id.
    rewrite go_slice_ok by (rewrite ?length_replicate; lia). rewrite bind_Ok, drop_0, take_ge; [done|].
    rewrite length_replicate. lia.
Qed.

Section Params.
Context (keccak : list byte → list byte) (keccak_len : ∀ x, length (keccak x) = 32%nat).
Context (uint256_Hex : Z → list ascii).
Context (uint256_Hex_spec : ∀ v, 0 ≤ v < 2 ^ 256 → uint256_Hex v = prefix0x ++ big_hex v).

Abbreviation format := (formatL2TxHashParam keccak uint256_Hex).

(** What follows the choice of the text. *)
Lemma pad_digits cs ds (n : nat) :
  digits cs ds → (length ds ≤ 2 * n)%nat →
  ∃ cs', (let paramStr := if (length cs mod 2 =? 1)%nat then "0"%char :: cs else cs in
      if negb (IsValid paramStr) then Err "invalid hex string" else padStart paramStr (Z.of_nat n * 2) "0"%char) = Ok cs' ∧
    digits cs' (replicate (2 * n - length ds) 0 ++ ds).
Proof.
  intros Hds Hn. pose proof (digits_length _ _ Hds) as Hl. cbn zeta.
  replace (Z.of_nat n * 2) with (Z.of_nat (2 * n)) by lia.
  destruct (Nat.eqb_spec (length cs mod 2) 1) as [E|E].
  - assert (digits ("0"%char :: cs) (0 :: ds)) as H0 by (by apply (digits_app ["0"%char] [0])).
    rewrite (IsValid_digits _ _ H0), padStart_zeros. eexists. split; [done|]. cbn [length].
    replace (replicate (2 * n - length ds) 0 ++ ds) with (replicate (2 * n - S (length cs)) 0 ++ 0 :: ds).
    { by apply digits_app; [apply digits_zeros|]. }
    replace (2 * n - length ds)%nat with (2 * n - S (length cs) + 1)%nat by lia. rewrite replicate_add, <-app_assoc. done.
  - rewrite (IsValid_digits _ _ Hds), padStart_zeros, Hl. eexists. split; [done|]. by apply digits_app; [apply digits_zeros|].
Qed.

Lemma format_number v (n : nat) :
  0 ≤ v < 16 ^ Z.of_nat (2 * n) → (0 < n)%nat →
  ∃ cs, (∀ p, p ∈ [p_int v; p_uint64 v; p_big (Some v)] → format p (Z.of_nat n) = Ok cs) ∧ digits cs (fixed (2 * n) v).
Proof.
  intros Hv Hn. destruct (digits_format16 v) as (ds & Hds & Ev & Hl); [lia|].
  assert (length ds ≤ 2 * n)%nat as Hle.
  { pose proof (ndigits_ub 4 (2 * n) v ltac:(lia)) as Hu. change (2 ^ 4) with 16 in Hu. specialize (Hu ltac:(lia)). lia. }
  destruct (pad_digits _ ds n Hds Hle) as (cs & E & Hcs). cbn zeta in E. exists cs. split.
  - intros p Hp. repeat (apply elem_of_cons in Hp as [->|Hp]); [..|by apply elem_of_nil in Hp];
      unfold formatL2TxHashParam; rewrite bind_Ok, (trim0x_digits _ _ Hds); exact E.
  - rewrite <-(fixed_digits (2 * n) (replicate (2 * n - length ds) 0 ++ ds) v); [done|by eapply digits_range| |].
    + rewrite length_app, length_replicate. lia.
    + by rewrite be_value_zeros.
Qed.

Lemma format_uint256 v :
  0 ≤ v < 2 ^ 256 →
  ∃ cs, format (p_uint256 (Some v)) 32 = Ok cs ∧ digits cs (fixed 64 v).
Proof.
  intros Hv. destruct (digits_format16 v) as (ds & Hds & Ev & Hl); [lia|].
  assert (digits (big_hex v) ds) as Hds'.
  { destruct (Z.eqb_spec v 0) as [->|]; [done|]. unfold format16 in Hds. replace (v <? 0) with false in Hds by lia.
    by rewrite Z.abs_eq in Hds by lia. }
  assert (length ds ≤ 2 * 32)%nat as Hle.
  { pose proof (ndigits_ub 4 64 v ltac:(lia)) as Hu. change ((2 ^ 4) ^ Z.of_nat 64) with (2 ^ 256) in Hu. specialize (Hu ltac:(lia)). lia. }
  destruct (pad_digits _ ds 32 Hds' Hle) as (cs & E & Hcs). cbn zeta in E. exists cs. split.
  - unfold formatL2TxHashParam. rewrite bind_Ok, uint256_Hex_spec by done.
    change (trim0x (prefix0x ++ big_hex v)) with (big_hex v). exact E.
  - rewrite <-(fixed_digits 64 (replicate (2 * 32 - length ds) 0 ++ ds) v); [done|by eapply digits_range| |].
    + rewrite length_app, length_replicate. lia.
    + by rewrite be_value_zeros.
Qed.

Lemma format_uint256_nil : ∃ cs, format (p_uint256 None) 32 = Ok cs ∧ digits cs (fixed 64 0).
Proof. eexists. split; vm_compute; reflexivity. Qed.

(** A letter keeps its value when it is capitalised. *)
Lemma hex_val_upper d :
  0 ≤ d < 16 → 57 < ascii_z (hex_char d) →
  hex_val (Ascii.ascii_of_nat (Z.to_nat (u8 (ascii_z (hex_char d) - 32)))) = Some d.
Proof.
  intros Hd.
  assert (forallb (λ d, negb (57 <? ascii_z (hex_char d)) ||
    bool_decide (hex_val (Ascii.ascii_of_nat (Z.to_nat (u8 (ascii_z (hex_char d) - 32)))) = Some d)) (seqZ 0 16) = true) as H
    by (vm_compute; reflexivity).
  rewrite forallb_forall in H. specialize (H d). rewrite <-list_elem_of_In, elem_of_seqZ in H. specialize (H ltac:(lia)).
  intros Hlt. replace (57 <? ascii_z (hex_char d)) with true in H by lia. by apply bool_decide_eq_true in H.
Qed.

Lemma checksum_char_spec h n d :
  0 ≤ d < 16 → (n < 2 * length h)%nat → ∃ c, checksum_char h n (hex_char d) = Ok c ∧ hex_val c = Some d.
Proof.
  intros Hd Hn. unfold checksum_char. destruct (lookup_lt_is_Some_2 h (n / 2)) as [b Hb]; [lia|].
  rewrite (go_index_lookup _ _ _ Hb), fmap_Ok, bind_Ok. eexists. split; [done|].
  destruct (Z.ltb_spec 57 (ascii_z (hex_char d))); cbn [andb]; [|by apply hex_val_char].
  destruct (7 <? _); [by apply hex_val_upper|by apply hex_val_char].
Qed.

Lemma checksum_loop h cs ds : ∀ acc n,
  digits cs ds → (∀ c, c ∈ cs → ∃ d, 0 ≤ d < 16 ∧ c = hex_char d) → (n + length cs ≤ 2 * length h)%nat →
  ∃ cs', foldM (λ cs '(i, c), c ← checksum_char h i c; Ok (cs ++ [c])) acc (imap (λ i, pair (n + i)%nat) cs) = Ok (acc ++ cs') ∧
    digits cs' ds.
Proof.
  intros acc n Hds. revert acc n. apply mapM_Some in Hds.
  induction Hds as [|c x cs ds Hc _ IH]; intros acc n Hch Hn.
  { exists []. by rewrite app_nil_r. }
  destruct (Hch c) as (d & Hd & ->); [by left|]. rewrite hex_val_char in Hc by done. injection Hc as ->.
  cbn [imap foldM length] in *. rewrite Nat.add_0_r.
  destruct (checksum_char_spec h n x) as (c' & -> & Hc'); [done|lia|]. rewrite !bind_Ok.
  destruct (IH (acc ++ [c']) (S n)) as (cs' & E & Hcs'); [intros c Hin; apply Hch; by right|lia|].
  exists (c' :: cs'). replace (imap _ cs) with (imap (λ i : nat, @pair nat ascii (S n + i)%nat) cs).
  2: { apply imap_ext. intros i y _. cbn. f_equal. lia. }
  rewrite E. split; [by rewrite <-app_assoc|]. apply mapM_Some. constructor; [done|]. by apply mapM_Some.
Qed.

Lemma Address_Hex_spec a :
  length a = 20%nat → ∃ cs, Address_Hex keccak a = Ok (prefix0x ++ cs) ∧ digits cs (bytes_digits a).
Proof.
  intros Ha. unfold Address_Hex, checksumHex. change (drop 2 (Address_hex a)) with (EncodeToString a).
  pose proof (digits_EncodeToString a) as Hds.
  destruct (checksum_loop (keccak (text_data (EncodeToString a))) _ _ [] 0 Hds) as (cs & E & Hcs).
  - intros c Hc. unfold EncodeToString in Hc. apply list_elem_of_In, in_flat_map in Hc as (b & _ & Hc).
    pose proof (bz_range b). destruct Hc as [<-|[<-|[]]]; eexists; (split; [|done]); lia.
  - rewrite keccak_len, (digits_length _ _ Hds), length_bytes_digits. lia.
  - exists cs. split; [|done]. change (imap (λ i, pair (0 + i)%nat)) with (imap (A := ascii) (@pair nat ascii)) in E.
    rewrite E, bind_Ok. done.
Qed.

(** A text of bytes, of exactly their length. *)
Lemma format_bytes cs bs (n : nat) :
  digits (trim0x cs) (bytes_digits bs) → n = length bs →
  ∃ cs', format (p_string cs) (Z.of_nat n) = Ok cs' ∧ digits cs' (bytes_digits bs).
Proof.
  intros Hds ->. destruct (pad_digits _ _ (length bs) Hds) as (cs' & E & Hcs'); [rewrite length_bytes_digits; lia|].
  exists cs'. rewrite length_bytes_digits, Nat.sub_diag in Hcs'. split; [|done].
  unfold formatL2TxHashParam. rewrite bind_Ok. exact E.
Qed.
End Params.

(** * Transactions *)

Record L2Tx := mkL2Tx {
  l2_chainId : option Z; l2_value : option Z; l2_gasPrice : option Z;
  l2_nonce : Z; l2_gas : Z;
  l2_to : option (list byte); l2_from : list byte; l2_data : list byte;
}.

Definition chain (t : L2Tx) : Z := default 0 (l2_chainId t).
Definition amount (v : option Z) : Z := default 0 v.

Definition u256_ok (v : option Z) : Prop := 0 ≤ amount v < 2 ^ 256.

(** A chain id of 64 bits, and less than 2^24 bytes of data. *)
Definition l2_wf (t : L2Tx) : Prop :=
  is_u64 (chain t) ∧ u256_ok (l2_value t) ∧ u256_ok (l2_gasPrice t) ∧ is_u64 (l2_nonce t) ∧ is_u64 (l2_gas t) ∧
  (from_option (λ a, length a = 20%nat) True (l2_to t)) ∧ length (l2_from t) = 20%nat ∧ Z.of_nat (length (l2_data t)) < 2 ^ 24.

#[export] Instance l2_wf_dec t : Decision (l2_wf t).
Proof. unfold l2_wf, u256_ok. destruct (l2_to t); cbn; apply _. Defined.

Definition l2_digits (t : L2Tx) : list Z :=
  (if chain t =? 0 then [0; 0] else [0; 1]) ++ fixed 16 (l2_nonce t) ++ fixed 64 (amount (l2_gasPrice t)) ++
  fixed 16 (l2_gas t) ++ (match l2_to t with None => [0; 1] | Some to => [0; 0] ++ bytes_digits to end) ++
  fixed 64 (amount (l2_value t)) ++ fixed 6 (Z.of_nat (length (l2_data t))) ++ bytes_digits (l2_data t) ++
  (if chain t =? 0 then [] else fixed 16 (chain t)) ++ bytes_digits (l2_from t).

Definition l2_bytes (t : L2Tx) : list Z := pair_up (l2_digits t).

Lemma length_fixed n z : length (fixed n z) = n.
Proof. unfold fixed. by rewrite length_rev, length_le_digits. Qed.

Lemma length_l2_digits t : Nat.even (length (l2_digits t)) = true.
Proof.
  unfold l2_digits. destruct (l2_to t); destruct (chain t =? 0);
    rewrite !length_app, !length_fixed, ?length_app, !length_bytes_digits; apply even_div_2; cbn [length]; lia.
Qed.

Section Spec.
Context (keccak : list byte → list byte) (keccak_len : ∀ x, length (keccak x) = 32%nat).
Context (uint256_Hex : Z → list ascii).
Context (uint256_Hex_spec : ∀ v, 0 ≤ v < 2 ^ 256 → uint256_Hex v = prefix0x ++ big_hex v).
Context (hash : list Z → NodeKey → NodeKey).

Definition l2_hash (t : L2Tx) : outcome (list byte) :=
  ComputeL2TxHash keccak uint256_Hex hash (l2_chainId t) (l2_value t) (l2_gasPrice t) (l2_nonce t) (l2_gas t)
    (l2_to t) (Some (l2_from t)) (l2_data t).

Abbreviation format := (formatL2TxHashParam keccak uint256_Hex).

Lemma format_amount v : u256_ok v → ∃ cs, format (p_uint256 v) 32 = Ok cs ∧ digits cs (fixed 64 (amount v)).
Proof.
  destruct v as [v|]; intros Hv; [by apply format_uint256|apply format_uint256_nil].
Qed.

Lemma format_u64 v : is_u64 v → ∃ cs, format (p_uint64 v) 8 = Ok cs ∧ format (p_big (Some v)) 8 = Ok cs ∧ digits cs (fixed 16 v).
Proof.
  intros Hv. destruct (format_number keccak uint256_Hex v 8) as (cs & E & Hcs); [exact Hv|lia|].
  exists cs. split_and!; [apply (E (p_uint64 v)); set_solver|apply (E (p_big (Some v))); set_solver|done].
Qed.

Lemma format_address a :
  length a = 20%nat → ∃ cs cs', Address_Hex keccak a = Ok cs ∧ format (p_string cs) 20 = Ok cs' ∧ digits cs' (bytes_digits a).
Proof.
  intros Ha. destruct (Address_Hex_spec keccak keccak_len a Ha) as (cs & E & Hcs).
  destruct (format_bytes keccak uint256_Hex (prefix0x ++ cs) a 20) as (cs' & E' & Hcs'); [done..|]. eauto.
Qed.

Lemma format_data bs :
  ∃ cs, (if 0 <? Z.of_nat (length bs)
         then format (p_string (EncodeToString bs)) (Z.of_nat (length bs)) else Ok []) = Ok cs ∧ digits cs (bytes_digits bs).
Proof.
  destruct (Z.ltb_spec 0 (Z.of_nat (length bs))).
  - apply format_bytes; [|done]. pose proof (digits_EncodeToString bs) as Hds. by rewrite (trim0x_digits _ _ Hds).
  - destruct bs; [|cbn in *; lia]. by exists [].
Qed.

(** The parts that depend on a condition. *)
Lemma to_part t h :
  from_option (λ a, length a = 20%nat) True (l2_to t) →
  ∃ cs, match l2_to t with
    | None => Ok (h ++ ["0"; "1"]%char)
    | Some to =>
        toHex ← Address_Hex keccak to;
        toPart ← format (p_string toHex) 20;
        Ok (h ++ ["0"; "0"]%char ++ toPart)
    end = Ok (h ++ cs) ∧ digits cs (match l2_to t with None => [0; 1] | Some to => [0; 0] ++ bytes_digits to end).
Proof.
  destruct (l2_to t) as [to|]; cbn [from_option]; intros Hto; [|by eexists].
  destruct (format_address to Hto) as (cs & cs' & -> & E & Hcs). rewrite bind_Ok, E, bind_Ok.
  eexists. split; [done|]. by apply digits_app.
Qed.

Lemma data_part bs h :
  ∃ cs, (if 0 <? Z.of_nat (length bs)
         then dataPart ← format (p_string (EncodeToString bs)) (Z.of_nat (length bs)); Ok (h ++ dataPart) else Ok h) = Ok (h ++ cs) ∧
    digits cs (bytes_digits bs).
Proof.
  destruct (format_data bs) as (cs & E & Hcs). destruct (0 <? _).
  - rewrite E, bind_Ok. eauto.
  - injection E as <-. exists []. by rewrite app_nil_r.
Qed.

Lemma chain_part t h :
  is_u64 (chain t) →
  ∃ cs, (if chain t =? 0 then Ok h
         else chainIDPart ← format (p_big (l2_chainId t)) 8; Ok (h ++ chainIDPart)) = Ok (h ++ cs) ∧
    digits cs (if chain t =? 0 then [] else fixed 16 (chain t)).
Proof.
  intros Hc. destruct (Z.eqb_spec (chain t) 0) as [E|E]; [by exists []; rewrite app_nil_r|].
  destruct (format_u64 _ Hc) as (cs & _ & E' & Hcs). unfold chain in *. destruct (l2_chainId t); [|done]. unfold default, id in *.
  rewrite E', bind_Ok. eauto.
Qed.

Lemma trim_data bs :
  (let dataStr := EncodeToHex bs in
   if (1 <? length dataStr)%nat && bool_decide (take 2 dataStr = prefix0x) then drop 2 dataStr else dataStr) = EncodeToString bs ∧
  (Z.of_nat (length (EncodeToString bs)) + 1) / 2 = Z.of_nat (length bs).
Proof.
  split; [|rewrite (digits_length _ _ (digits_EncodeToString bs)), length_bytes_digits; lia]. cbn zeta.
  unfold EncodeToHex. rewrite length_app. cbn [length prefix0x]. replace (1 <? 2 + length (EncodeToString bs))%nat with true by lia.
  by rewrite bool_decide_true.
Qed.

Lemma ComputeL2TxHash_spec t :
  l2_wf t → l2_hash t = Ok (BigToHash (bytecode_hash hash (l2_bytes t))).
Proof.
  intros (Hc & Hv & Hg & Hn & Hgl & Hto & Hfrom & Hdata). unfold l2_hash, ComputeL2TxHash.
  assert ((match l2_chainId t with None => true | Some c => c =? 0 end) = (chain t =? 0)) as -> by (unfold chain; by destruct (l2_chainId t)).
  destruct (format_u64 _ Hn) as (c1 & -> & _ & D1). rewrite bind_Ok.
  destruct (format_amount _ Hg) as (c2 & -> & D2). rewrite bind_Ok.
  destruct (format_u64 _ Hgl) as (c3 & -> & _ & D3). rewrite bind_Ok.
  set (ty := if chain t =? 0 then ["0"; "0"]%char else ["0"; "1"]%char).
  assert (digits ty (if chain t =? 0 then [0; 0] else [0; 1])) as D0 by (unfold ty; by destruct (chain t =? 0)).
  destruct (to_part t (ty ++ c1 ++ c2 ++ c3) Hto) as (c4 & -> & D4). rewrite bind_Ok.
  destruct (format_amount _ Hv) as (c5 & -> & D5). rewrite bind_Ok.
  destruct (trim_data (l2_data t)) as [Ed El]. cbn zeta in Ed. rewrite Ed, El.
  destruct (format_number keccak uint256_Hex (Z.of_nat (length (l2_data t))) 3) as (c6 & E6 & D6); [lia|lia|].
  rewrite (E6 (p_int _)), bind_Ok by set_solver.
  destruct (data_part (l2_data t) (((ty ++ c1 ++ c2 ++ c3) ++ c4) ++ c5 ++ c6)) as (c7 & E7 & D7).
  rewrite <-(app_assoc _ c5 c6), E7, bind_Ok.
  destruct (chain_part t ((((ty ++ c1 ++ c2 ++ c3) ++ c4) ++ c5 ++ c6) ++ c7) Hc) as (c8 & -> & D8). rewrite bind_Ok.
  destruct (format_address _ Hfrom) as (ch & c9 & -> & E9 & D9). rewrite bind_Ok, E9, bind_Ok.
  assert (digits (ty ++ c1 ++ c2 ++ c3 ++ c4 ++ c5 ++ c6 ++ c7 ++ c8 ++ c9) (l2_digits t)) as D.
  { by repeat apply digits_app. }
  replace ((((((ty ++ c1 ++ c2 ++ c3) ++ c4) ++ c5 ++ c6) ++ c7) ++ c8) ++ c9)
    with (ty ++ c1 ++ c2 ++ c3 ++ c4 ++ c5 ++ c6 ++ c7 ++ c8 ++ c9) by (by rewrite <-!app_assoc).
  rewrite (HashContractBytecodeBigInt_spec hash _ (l2_bytes t)); [done|].
  rewrite (trim0x_digits _ _ D). unfold text_bytes, l2_bytes. rewrite D. cbn.
  by rewrite <-Nat.negb_even, length_l2_digits.
Qed.
End Spec.

(** * The digits determine the transaction *)

(** Equal up to nil for zero. *)
Definition l2_same (t t' : L2Tx) : Prop :=
  chain t = chain t' ∧ amount (l2_value t) = amount (l2_value t') ∧ amount (l2_gasPrice t) = amount (l2_gasPrice t') ∧
  l2_nonce t = l2_nonce t' ∧ l2_gas t = l2_gas t' ∧ l2_to t = l2_to t' ∧ l2_from t = l2_from t' ∧ l2_data t = l2_data t'.

Lemma fixed_inj n a b : 0 ≤ a < 16 ^ Z.of_nat n → 0 ≤ b < 16 ^ Z.of_nat n → fixed n a = fixed n b → a = b.
Proof.
  intros Ha Hb E. unfold fixed in E. apply (f_equal (@rev Z)) in E. rewrite !rev_involutive in E.
  apply (f_equal (le_value 16)) in E. by rewrite !le_value_digits_small in E.
Qed.

Lemma bytes_digits_inj a b : bytes_digits a = bytes_digits b → a = b.
Proof.
  unfold bytes_digits. revert b. induction a as [|x a IH]; intros [|y b] E; cbn in E; [done..|].
  injection E as E1 E2 E. f_equal; [|by apply IH]. apply bz_inj.
  rewrite (Z.div_mod (bz x) 16), (Z.div_mod (bz y) 16), E1, E2 by lia. done.
Qed.

Lemma pair_up_inj xs : ∀ ys,
  Nat.even (length xs) = true → Nat.even (length ys) = true →
  Forall (λ d, 0 ≤ d < 16) xs → Forall (λ d, 0 ≤ d < 16) ys → pair_up xs = pair_up ys → xs = ys.
Proof.
  induction xs as [|a|a b xs IH] using pairs_ind; intros ys Hx Hy Rx Ry E; [|done|].
  - destruct ys as [|c [|d ys]]; done.
  - destruct ys as [|c [|d ys]]; [done..|]. cbn [pair_up] in E. injection E as E1 E.
    rewrite !Forall_cons in Rx, Ry. destruct Rx as (? & ? & Rx), Ry as (? & ? & Ry).
    assert (a = c ∧ b = d) as [-> ->] by lia. f_equal. f_equal. by apply IH.
Qed.

Lemma bytes_digits_range bs : Forall (λ d, 0 ≤ d < 16) (bytes_digits bs).
Proof. eapply digits_range, digits_EncodeToString. Qed.

Lemma fixed_range n z : Forall (λ d, 0 ≤ d < 16) (fixed n z).
Proof. apply Forall_rev, le_digits_range. lia. Qed.

Lemma l2_digits_range t : Forall (λ d, 0 ≤ d < 16) (l2_digits t).
Proof.
  unfold l2_digits. destruct (l2_to t), (chain t =? 0); rewrite !Forall_app; split_and!;
    solve [apply fixed_range|apply bytes_digits_range|by repeat constructor].
Qed.

Lemma l2_digits_inj t t' : l2_wf t → l2_wf t' → l2_digits t = l2_digits t' → l2_same t t'.
Proof.
  intros (Hc & Hv & Hg & Hn & Hgl & Hto & Hfrom & Hdata) (Hc' & Hv' & Hg' & Hn' & Hgl' & Hto' & Hfrom' & Hdata') E.
  unfold l2_digits in E.
  apply app_inj_1 in E as [E0 E]; [|by destruct (chain t =? 0), (chain t' =? 0)].
  apply app_inj_1 in E as [E1 E]; [|by rewrite !length_fixed]. apply app_inj_1 in E as [E2 E]; [|by rewrite !length_fixed].
  apply app_inj_1 in E as [E3 E]; [|by rewrite !length_fixed].
  apply fixed_inj in E1; [|done..]. apply fixed_inj in E2; [|done..]. apply fixed_inj in E3; [|done..].
  assert (l2_to t = l2_to t' ∧ fixed 64 (amount (l2_value t)) ++ fixed 6 (Z.of_nat (length (l2_data t))) ++ bytes_digits (l2_data t) ++
    (if chain t =? 0 then [] else fixed 16 (chain t)) ++ bytes_digits (l2_from t) =
    fixed 64 (amount (l2_value t')) ++ fixed 6 (Z.of_nat (length (l2_data t'))) ++ bytes_digits (l2_data t') ++
    (if chain t' =? 0 then [] else fixed 16 (chain t')) ++ bytes_digits (l2_from t')) as [E4 E'].
  { destruct (l2_to t) as [a|], (l2_to t') as [a'|]; cbn [from_option] in *; [|done|done|].
    - apply app_inj_1 in E as [E4 E]; [|rewrite !length_app, !length_bytes_digits; lia].
      injection E4 as E4. apply bytes_digits_inj in E4 as ->. done.
    - by apply app_inj_1 in E as [_ E]. }
  clear E. rename E' into E. apply app_inj_1 in E as [E5 E]; [|by rewrite !length_fixed].
  apply app_inj_1 in E as [E6 E]; [|by rewrite !length_fixed]. apply fixed_inj in E5; [|done..].
  apply fixed_inj in E6; [|lia..]. apply app_inj_1 in E as [E7 E]; [|rewrite !length_bytes_digits; lia].
  apply bytes_digits_inj in E7. apply app_inj_2 in E as [E8 E9]; [|rewrite !length_bytes_digits; lia].
  apply bytes_digits_inj in E9. unfold l2_same. split_and!; try done.
  destruct (Z.eqb_spec (chain t) 0) as [Ec|Ec], (Z.eqb_spec (chain t') 0) as [Ec'|Ec']; [congruence|done|done|].
  by apply fixed_inj in E8.
Qed.

(** C14. The hash of a layer 2 transaction is the hash of a sequence of bytes, and
    the bytes with their padding, which are what the hash function reads, are the
    same for two transactions only if every field is the same.  ComputeL2TxHash
    returns on every transaction, and the checksum letters of addresses, which
    come from another hash function, have no influence. *)
Theorem ComputeL2TxHash_injective keccak uint256_Hex hash t t' :
  (∀ x, length (keccak x) = 32%nat) → (∀ v, 0 ≤ v < 2 ^ 256 → uint256_Hex v = prefix0x ++ big_hex v) →
  l2_wf t → l2_wf t' →
  l2_hash keccak uint256_Hex hash t = Ok (BigToHash (bytecode_hash hash (l2_bytes t))) ∧
  l2_hash keccak uint256_Hex hash t' = Ok (BigToHash (bytecode_hash hash (l2_bytes t'))) ∧
  (pad_bytes (l2_bytes t) = pad_bytes (l2_bytes t') → l2_same t t').
Proof.
  intros Hk Hu Ht Ht'. split; [by apply ComputeL2TxHash_spec|]. split; [by apply ComputeL2TxHash_spec|].
  intros E. apply pad_bytes_inj in E. apply l2_digits_inj; [done..|].
  apply pair_up_inj in E; auto using length_l2_digits, l2_digits_range.
Qed.

Definition sample_tx (nonce : Z) : L2Tx :=
  mkL2Tx (Some 196) (Some 1000) None nonce 21000 (Some (replicate 20 xab)) (replicate 20 xcd) [x01; xf0].

Lemma ComputeL2TxHash_injective_witness :
  let t := sample_tx 7 in let t' := sample_tx 8 in
  let keccak x := BytesToHash (rev x) in let uint256_Hex v := prefix0x ++ big_hex v in
  l2_hash keccak uint256_Hex sample_hash t = Ok (BigToHash (bytecode_hash sample_hash (l2_bytes t))) ∧
  l2_hash keccak uint256_Hex sample_hash t' = Ok (BigToHash (bytecode_hash sample_hash (l2_bytes t'))) ∧
  (pad_bytes (l2_bytes t) = pad_bytes (l2_bytes t') → l2_same t t').
Proof.
  intros t t' keccak uint256_Hex. apply ComputeL2TxHash_injective.
  - intros x. apply length_set_bytes.
  - done.
  - apply (bool_decide_unpack _). vm_compute. exact I.
  - apply (bool_decide_unpack _). vm_compute. exact I.
Defined.
