(* ===== verification/EntityStorage.v ===== *)
(** Accounts, contract code and contract storage on the state tree
    (src/smt/pkg/smt/entity_storage.go and InsertStorage of smt.go).

    An account is four keys of the tree (balance, nonce, hash and length of its
    code) and one key for every storage slot.  The tree only knows the hashes;
    for every key the store records the source it was computed from.  The
    operations that set one field use the single insertion, [SetStorage] collects
    the changes of a block and inserts them as a batch.

    A Go map that is iterated is given as the list of its entries in the order of
    the iteration; [SetContractStorage] iterates twice, in orders of their own.
    Keccak-256 (checksums of addresses) and Poseidon are parameters. *)

From S2P Require Import Prelude Bytes SmtUtils SmtKeys SmtDb Smt SmtBatch ContractHash TxHash.
From Stdlib Require Import Strings.Byte.

Local Open Scope Z_scope.

(** The fields of accounts.Account that are read here. *)
Record Account := mkAccount { Nonce : Z; Balance : Z }.

Definition ConvertHexToAddress (hex : string) : list byte := BigToAddress (ConvertHexToBigInt hex).

(** [convertStringToBigInt]: nil when the text is not a number. *)
Definition convertStringToBigInt (v : string) : option Z :=
  let cs := ascii_list v in
  if has_prefix0x cs then SetString (drop 2 cs) 16 else SetString cs 10.

(** The zero value of libcommon.Hash. *)
Definition zero_hash : list byte := replicate 32 x00.

Section EntityStorage.
Context (keccak : list byte → list byte).
Context (hash : list Z → NodeKey → NodeKey).
Context {D : Type} {SD : SmtDB D}.

Definition with_Db (s : SMT D) (d : D) : SMT D := mkSMT (noSaveOnInsert s) d.

(** * Key sources *)

Definition InsertKeySource (s : SMT D) (nodeKey : NodeKey) (key : Z) (accountAddr storagePosition : list byte)
    : outcome (SMT D) :=
  let ks := EncodeKeySource key accountAddr storagePosition in
  with_Db s <$> db_InsertKeySource (smtDb s) nodeKey ks.

Definition DeleteKeySource (s : SMT D) (nodeKey : NodeKey) : outcome (SMT D) :=
  with_Db s <$> db_DeleteKeySource (smtDb s) nodeKey.

(** * One account *)

Definition SetAccountBalance (s : SMT D) (ethAddr : string) (balance : Z) : outcome (Z * SMT D) :=
  let keyBalance := KeyEthAddrBalance hash ethAddr in
  '(response, s) ← InsertKA hash s keyBalance balance;
  let ks := EncodeKeySource KEY_BALANCE (ConvertHexToAddress ethAddr) zero_hash in
  d ← db_InsertKeySource (smtDb s) keyBalance ks;
  Ok (NodeKey_ToBigInt (NewRootScalar response), with_Db s d).

Definition SetAccountNonce (s : SMT D) (ethAddr : string) (nonce : Z) : outcome (Z * SMT D) :=
  let keyNonce := KeyEthAddrNonce hash ethAddr in
  '(response, s) ← InsertKA hash s keyNonce nonce;
  let ks := EncodeKeySource KEY_NONCE (ConvertHexToAddress ethAddr) zero_hash in
  d ← db_InsertKeySource (smtDb s) keyNonce ks;
  Ok (NodeKey_ToBigInt (NewRootScalar response), with_Db s d).

Definition SetAccountState (s : SMT D) (ethAddr : string) (balance nonce : Z) : outcome (Z * SMT D) :=
  '(_, s) ← SetAccountBalance s ethAddr balance;
  SetAccountNonce s ethAddr nonce.

Definition SetAccountStorage (s : SMT D) (addr : list byte) (acc : option Account) : outcome (SMT D) :=
  ethAddr ← ascii_string <$> Address_Hex keccak addr;
  match acc with
  | Some acc => snd <$> SetAccountState s ethAddr (Balance acc) (Nonce acc)
  | None => snd <$> SetAccountState s ethAddr 0 0
  end.

Definition convertBytecodeToBigInt (bytecode : list ascii) : outcome (Z * Z) :=
  bi ← HashContractBytecodeBigInt hash bytecode;
  let parsedBytecode := trim0x bytecode in
  let parsedBytecode := if Nat.odd (length parsedBytecode) then "0"%char :: parsedBytecode else parsedBytecode in
  let bytecodeLength := Z.of_nat (length parsedBytecode / 2) in
  if (length bytecode =? 0)%nat then Ok (0, 0) else Ok (bi, bytecodeLength).

Definition SetContractBytecode (s : SMT D) (ethAddr : string) (bytecode : list ascii) : outcome (SMT D) :=
  let keyContractCode := KeyContractCode hash ethAddr in
  let keyContractLength := KeyContractLength hash ethAddr in
  '(bi, bytecodeLength) ← convertBytecodeToBigInt bytecode;
  '(_, s) ← InsertKA hash s keyContractCode bi;
  let ks := EncodeKeySource SC_CODE (ConvertHexToAddress ethAddr) zero_hash in
  d ← db_InsertKeySource (smtDb s) keyContractCode ks;
  '(_, s) ← InsertKA hash (with_Db s d) keyContractLength bytecodeLength;
  let ks := EncodeKeySource SC_LENGTH (ConvertHexToAddress ethAddr) zero_hash in
  d ← db_InsertKeySource (smtDb s) keyContractLength ks;
  Ok (with_Db s d).

(** * The storage of one contract *)

Definition calcHashVal (v : string) : outcome (NodeValue8 * NodeKey) :=
  match convertStringToBigInt v with
  | None => Panic
  | Some val =>
      value ← NodeValue8FromBigIntArray (Some <$> ScalarToArrayBig val);
      Ok (value, hash (ToUintArray value) BranchCapacity)
  end.

(** One iteration of InsertStorage. *)
Definition insert_slot (ethAddr : string) (add : list Z) (chm : gmap string NodeValue8) (vhm : gmap string NodeKey)
    (x : SMTResponse * SMT D) (k : string) : outcome (SMTResponse * SMT D) :=
  let '(smtr, s) := x in
  keyStoragePosition ← KeyContractStorage hash add k;
  match chm !! k with
  | None => Panic
  | Some c =>
      '(smtr, d) ← insert hash (noSaveOnInsert s) (smtDb s) keyStoragePosition c
                     (default nk_zero (vhm !! k)) (NewRootScalar smtr);
      match StrValToBigInt k with
      | None => Panic
      | Some sp =>
          let ks := EncodeKeySource SC_STORAGE (ConvertHexToAddress ethAddr) (BigToHash sp) in
          d ← db_InsertKeySource d keyStoragePosition ks;
          Ok (smtr, with_Db s d)
      end
  end.

Definition InsertStorage (s : SMT D) (ethAddr : string) (storage : list string)
    (chm : gmap string NodeValue8) (vhm : gmap string NodeKey) : outcome (SMTResponse * SMT D) :=
  let add := ScalarToArrayBig (ConvertHexToBigInt ethAddr) in
  or ← getLastRoot (smtDb s);
  '(smtr, s) ← foldM (insert_slot ethAddr add chm vhm) (mkResponse or EmptyString, s) storage;
  d ← setLastRoot (smtDb s) (NewRootScalar smtr);
  Ok (smtr, with_Db s d).

(** What one goroutine writes into its arrays of length [operationsPerCpu]. *)
Definition hash_worker (storage : gmap string string) (storageKeys : list string) (cpuNum operationsPerCpu cpuI : nat)
    : outcome (list (string * NodeValue8 * NodeKey)) :=
  foldM (λ done k,
    let v := default EmptyString (storage !! k) in
    if bool_decide (v = EmptyString) then Ok done
    else
      '(c, h) ← calcHashVal v;
      if (length done <? operationsPerCpu)%nat then Ok (done ++ [(k, c, h)]) else Panic)
    [] (imap pair storageKeys ≫= λ '(j, k),
          if (cpuI <=? j)%nat && ((j - cpuI) mod cpuNum =? 0)%nat then [k] else []).

(** The two maps, filled in parallel or by one loop.  When several goroutines
    fail it depends on the schedule which error is returned. *)
Definition hash_parallel (storage : gmap string string) (storageKeys : list string) (cpuNum : nat)
    : outcome (gmap string NodeValue8 * gmap string NodeKey) :=
  let storageKeyCount := length storageKeys in
  let operationsPerCpu := (storageKeyCount / cpuNum + storageKeyCount mod cpuNum)%nat in
  arrays ← foldM (λ arrays cpuI,
    a ← hash_worker storage storageKeys cpuNum operationsPerCpu cpuI; Ok (arrays ++ [a])) [] (seq 0 cpuNum);
  Ok (foldl (λ '(chm, vhm) '(k, c, h),
        if bool_decide (k = EmptyString) then (chm, vhm) else (<[k := c]> chm, <[k := h]> vhm))
      (∅, ∅) (concat arrays)).

Definition hash_serial (storage : gmap string string) (storageKeys : list string)
    : outcome (gmap string NodeValue8 * gmap string NodeKey) :=
  foldM (λ '(chm, vhm) k,
    let v := default EmptyString (storage !! k) in
    if bool_decide (v = EmptyString) then Ok (chm, vhm)
    else '(c, h) ← calcHashVal v; Ok (<[k := c]> chm, <[k := h]> vhm)) (∅, ∅) storageKeys.

(** [storageKeys] and [iteration] are the keys of [storage] in the order of the
    first and of the second iteration over it. *)
Definition SetContractStorage (cpuNum : nat) (s : SMT D) (ethAddr : string) (storage : gmap string string)
    (storageKeys iteration : list string) : outcome (Z * SMT D) :=
  '(chm, vhm) ← (if (100 <? size storage)%nat then hash_parallel storage storageKeys cpuNum
                 else hash_serial storage storageKeys);
  '(auxRes, s) ← InsertStorage s ethAddr iteration chm vhm;
  Ok (NodeKey_ToBigInt (NewRootScalar auxRes), s).

(** * The changes of a block *)

Definition appendToValuesBatchStorageBigInt (valuesBatchStorage : list NodeValue8) (value : Z)
    : outcome (list NodeValue8 * bool) :=
  nodeValue ← NodeValue8FromBigInt value;
  Ok (valuesBatchStorage ++ [nodeValue], NodeValue8_IsZero nodeValue).

(** The variables of SetStorage, with the number of times ctx was asked. *)
Record setting := mkSetting {
  st_smt : SMT D;
  keysBatchStorage : list NodeKey;
  valuesBatchStorage : list NodeValue8;
  st_polls : nat;
}.

(** A key and its value are appended and the source of the key is stored, or
    removed when the value is zero. *)
Definition put_change (st : setting) (nodeKey : NodeKey) (value : Z) (key : Z) (addr position : list byte)
    : outcome setting :=
  '(values, isDelete) ← appendToValuesBatchStorageBigInt (valuesBatchStorage st) value;
  s ← (if negb isDelete then InsertKeySource (st_smt st) nodeKey key addr position
       else DeleteKeySource (st_smt st) nodeKey);
  Ok (mkSetting s (keysBatchStorage st ++ [nodeKey]) values (st_polls st)).

Definition poll (done : nat → bool) (logPrefix : string) (st : setting) : outcome setting :=
  if done (st_polls st) then Err (String.append "[" (String.append logPrefix "] Context done"))
  else Ok (mkSetting (st_smt st) (keysBatchStorage st) (valuesBatchStorage st) (S (st_polls st))).

Definition put_account (st : setting) (addr : list byte) (acc : option Account) : outcome setting :=
  ethAddr ← ascii_string <$> Address_Hex keccak addr;
  let keyBalance := KeyEthAddrBalance hash ethAddr in
  let keyNonce := KeyEthAddrNonce hash ethAddr in
  let balance := match acc with Some acc => Balance acc | None => 0 end in
  let nonce := match acc with Some acc => Nonce acc | None => 0 end in
  st ← put_change st keyBalance balance KEY_BALANCE addr zero_hash;
  put_change st keyNonce nonce KEY_NONCE addr zero_hash.

Definition put_code (st : setting) (addr : list byte) (code : list ascii) : outcome setting :=
  ethAddr ← ascii_string <$> Address_Hex keccak addr;
  let keyContractCode := KeyContractCode hash ethAddr in
  let keyContractLength := KeyContractLength hash ethAddr in
  '(bi, bytecodeLength) ← convertBytecodeToBigInt code;
  st ← put_change st keyContractCode bi SC_CODE addr zero_hash;
  put_change st keyContractLength bytecodeLength SC_LENGTH addr zero_hash.

Definition put_slot (add : list Z) (addr : list byte) (st : setting) (k v : string) : outcome setting :=
  keyStoragePosition ← KeyContractStorage hash add k;
  match convertStringToBigInt v, StrValToBigInt k with
  | Some valueBigInt, Some sp => put_change st keyStoragePosition valueBigInt SC_STORAGE addr (BigToHash sp)
  | _, _ => Panic
  end.

Definition put_storage (st : setting) (addr : list byte) (storage : list (string * string)) : outcome setting :=
  ethAddr ← ascii_string <$> Address_Hex keccak addr;
  let ethAddrBigIngArray := ScalarToArrayBig (ConvertHexToBigInt ethAddr) in
  foldM (λ st '(k, v), put_slot ethAddrBigIngArray addr st k v) st storage.

Definition SetStorage (done : nat → bool) (logPrefix : string) (cpuNum : nat) (order : gset NodeKey → list NodeKey)
    (s : SMT D) (accChanges : list (list byte * option Account)) (codeChanges : list (list byte * list ascii))
    (storageChanges : list (list byte * list (string * string)))
    : outcome (list NodeKey * list NodeValue8 * SMT D) :=
  if ((length storageChanges =? 0) && (length accChanges =? 0) && (length codeChanges =? 0))%nat
  then Ok ([], [], s)
  else
    st ← foldM (λ st '(addr, acc), st ← poll done logPrefix st; put_account st addr acc)
           (mkSetting s [] [] 0) accChanges;
    st ← foldM (λ st '(addr, code), st ← poll done logPrefix st; put_code st addr code) st codeChanges;
    st ← foldM (λ st '(addr, storage), st ← poll done logPrefix st; put_storage st addr storage) st storageChanges;
    '(_, s) ← InsertBatch hash (λ i, done (st_polls st + i)%nat) cpuNum order (st_smt st)
                (keysBatchStorage st) (valuesBatchStorage st) None None;
    Ok (keysBatchStorage st, valuesBatchStorage st, s).
End EntityStorage.
