(* ===== verification/EntityStorageSpec.v ===== *)
(** What the operations on accounts do to the map of the state tree.

    The changes of a block are a list of fields with their values, each with its
    key in the tree.  [SetStorage] updates the map by them and records where
    every key comes from; in which order the Go maps are iterated makes no
    difference.  Setting the storage of one contract does the same by single
    insertions, whether the hashes are computed by one goroutine or by many. *)

From S2P Require Import Prelude Bytes SmtUtils SmtKeys SmtDb SmtTree Smt SmtInsert SmtRefine.
From S2P Require Import SmtBatch SmtBatchEntries SmtBatchSpec SmtBatchRefine ContractHash ContractHashSpec TxHash TxHashSpec SmtSources EntityStorage.
From Stdlib Require Import Strings.Byte.

Local Open Scope Z_scope.
#[local] Set Warnings "-clear-no-such-hyp".
#[local] Opaque GetPath insert tsplit.

(** * Addresses *)

Lemma hex_decode_pairs cs ds : digits cs ds → hex_decode cs = pair_up ds.
Proof.
  rewrite mapM_Some. revert ds. induction cs as [|a|a b cs IH] using pairs_ind; intros ds H.
  - by apply Forall2_nil_inv_l in H as ->.
  - apply Forall2_cons_inv_l in H as (x & ds' & _ & H & ->). by apply Forall2_nil_inv_l in H as ->.
  - apply Forall2_cons_inv_l in H as (x & ds' & Hx & H & ->).
    apply Forall2_cons_inv_l in H as (y & ds'' & Hy & H & ->).
    cbn [hex_decode pair_up]. rewrite Hx, Hy, lor_nibbles by (by eapply hex_val_range). f_equal. by apply IH.
Qed.

Lemma be_value_bytes bs : be_value 256 (bz <$> bs) = be_val bs.
Proof. unfold be_value, be_val, le_val. by rewrite fmap_rev. Qed.

(** The case of the letters does not matter. *)
Lemma ConvertHexToBigInt_bytes cs bs :
  digits cs (bytes_digits bs) → ConvertHexToBigInt (ascii_string (prefix0x ++ cs)) = be_val bs.
Proof.
  intros H. unfold ConvertHexToBigInt, prefix0x. rewrite String.list_ascii_of_string_of_list_ascii. cbn [app trim0x].
  rewrite bool_decide_eq_true_2 by done. rewrite (digits_length _ _ H), length_bytes_digits, Nat.odd_mul.
  cbn [Nat.odd Nat.even negb andb]. by rewrite (hex_decode_pairs _ _ H), pair_up_bytes, be_value_bytes.
Qed.

(** * Changes *)

Definition u256 (z : Z) : Prop := 0 ≤ z < 2 ^ 256.

#[export] Instance u256_dec z : Decision (u256 z).
Proof. unfold u256. apply _. Defined.

(** A field of an account with its new value. *)
Record change := mkChange {
  ch_key : NodeKey; ch_value : Z;
  ch_type : Z; ch_addr : list byte; ch_position : list byte;
}.

Definition ch_source (c : change) : list byte := EncodeKeySource (ch_type c) (ch_addr c) (ch_position c).

(** The updates of the map. *)
Definition updates (cs : list change) : list (NodeKey * list Z) :=
  (λ c, (ch_key c, ScalarToArrayBig (ch_value c))) <$> cs.

(** The key sources after the changes: those of the fields that are not zero. *)
Definition record_source (f : NodeKey → outcome (list byte)) (c : change) : NodeKey → outcome (list byte) :=
  λ k, if decide (k = ch_key c) then (if ch_value c =? 0 then Err "key not found" else Ok (ch_source c)) else f k.

Definition sources (f : NodeKey → outcome (list byte)) (cs : list change) : NodeKey → outcome (list byte) :=
  foldl record_source f cs.

(** The capacity of the key hash. *)
Definition key_capacity : NodeKey :=
  match StringToH4 HASH_POSEIDON_ALL_ZEROES with Ok c => c | _ => nk_zero end.

Section Changes.
Context (hash : list Z → NodeKey → NodeKey).

Definition account_key (a : list byte) (c : Z) : NodeKey :=
  hash (take 6 (ScalarToArrayBig (be_val a)) ++ [c; 0]) key_capacity.

Definition slot_key (a : list byte) (position : Z) : NodeKey :=
  hash (take 6 (ScalarToArrayBig (be_val a)) ++ [SC_STORAGE; 0]) (hash (ScalarToArrayBig position) nk_zero).

Definition field (a : list byte) (t : Z) (value : Z) : change := mkChange (account_key a t) value t a zero_hash.

Definition account_changes (x : list byte * option Account) : list change :=
  [field x.1 KEY_BALANCE (match x.2 with Some acc => Balance acc | None => 0 end);
   field x.1 KEY_NONCE (match x.2 with Some acc => Nonce acc | None => 0 end)].

(** The hash and the length of a code, both zero when there is no code. *)
Definition code_bytes (code : list ascii) : list Z := default [] (text_bytes (trim0x code)).

Definition code_changes (x : list byte * list ascii) : list change :=
  [field x.1 SC_CODE (if decide (x.2 = []) then 0 else bytecode_hash hash (code_bytes x.2));
   field x.1 SC_LENGTH (Z.of_nat (length (code_bytes x.2)))].

Definition number (s : string) : Z := default 0 (StrValToBigInt s).

Definition slot_change (a : list byte) (x : string * string) : change :=
  mkChange (slot_key a (number x.1)) (number x.2) SC_STORAGE a (BigToHash (number x.1)).

Definition storage_changes (x : list byte * list (string * string)) : list change := slot_change x.1 <$> x.2.

(** What the maps say: addresses of 20 bytes, balances and slots of 256 bits,
    nonces of 64, code as digits. *)
Definition account_ok (x : list byte * option Account) : Prop :=
  length x.1 = 20%nat ∧ match x.2 with Some acc => u256 (Balance acc) ∧ is_u64 (Nonce acc) | None => True end.

Definition code_ok (x : list byte * list ascii) : Prop :=
  length x.1 = 20%nat ∧ Forall (λ c, is_Some (hex_val c)) (trim0x x.2) ∧ u256 (Z.of_nat (length x.2)).

Definition number_ok (s : string) : Prop := match StrValToBigInt s with Some z => u256 z | None => False end.

Definition storage_ok (x : list byte * list (string * string)) : Prop :=
  length x.1 = 20%nat ∧ Forall (λ e, number_ok e.1 ∧ number_ok e.2) x.2.

Definition block_changes (accs : list (list byte * option Account)) (codes : list (list byte * list ascii))
    (stos : list (list byte * list (string * string))) : list change :=
  concat (account_changes <$> accs) ++ concat (code_changes <$> codes) ++ concat (storage_changes <$> stos).

Definition block_ok (accs : list (list byte * option Account)) (codes : list (list byte * list ascii))
    (stos : list (list byte * list (string * string))) : Prop :=
  Forall account_ok accs ∧ Forall code_ok codes ∧ Forall storage_ok stos.

#[export] Instance account_ok_dec x : Decision (account_ok x).
Proof. unfold account_ok. destruct x.2; apply _. Defined.

#[export] Instance number_ok_dec s : Decision (number_ok s).
Proof. unfold number_ok. destruct (StrValToBigInt s); apply _. Defined.

#[export] Instance block_ok_dec accs codes stos : Decision (block_ok accs codes stos).
Proof. unfold block_ok, code_ok, storage_ok. apply _. Defined.

Lemma Key_bytes cs a c :
  digits cs (bytes_digits a) → is_u64 c → Key hash (ascii_string (prefix0x ++ cs)) c = account_key a c.
Proof.
  intros Hcs Hc. unfold Key, account_key, key_capacity. destruct StringToH4_zeroes as [cap ->]. cbn zeta.
  by rewrite (ConvertHexToBigInt_bytes _ _ Hcs), ToUintArray_key_input.
Qed.

Lemma KeyContractStorage_bytes a k z :
  StrValToBigInt k = Some z → KeyContractStorage hash (ScalarToArrayBig (be_val a)) k = Ok (slot_key a z).
Proof.
  intros E. unfold KeyContractStorage, slot_key. rewrite E.
  change (NodeValue8FromBigIntArray (Some <$> ScalarToArrayBig z)) with (Ok (Some <$> ScalarToArrayBig z)). cbv iota zeta.
  rewrite ToUintArray_some by apply ScalarToArrayBig_u64. by rewrite ToUintArray_key_input.
Qed.

Lemma convertBytecodeToBigInt_spec code :
  Forall (λ c, is_Some (hex_val c)) (trim0x code) →
  convertBytecodeToBigInt hash code =
    Ok (if decide (code = []) then 0 else bytecode_hash hash (code_bytes code), Z.of_nat (length (code_bytes code))).
Proof.
  intros H. assert (∃ ds, mapM hex_val (trim0x code) = Some ds) as [ds Hds].
  { apply mapM_is_Some. done. }
  assert (text_bytes (trim0x code) = Some (code_bytes code)) as Et by (unfold code_bytes, text_bytes; by rewrite Hds).
  unfold convertBytecodeToBigInt. rewrite (HashContractBytecodeBigInt_spec _ _ _ Et), bind_Ok. cbn zeta.
  destruct code as [|c code]; [done|]. rewrite decide_False by done. set (bc := c :: code) in *. cbn [Nat.eqb length bc].
  do 3 f_equal. unfold code_bytes, text_bytes. rewrite Hds. cbn [fmap option_fmap option_map default id].
  rewrite (digits_length _ _ Hds). set (p := if Nat.odd (length ds) then 0 :: ds else ds).
  assert (length (if Nat.odd (length ds) then "0"%char :: trim0x bc else trim0x bc) = length p) as ->.
  { unfold p. destruct (Nat.odd _); cbn [length]; by rewrite (digits_length _ _ Hds). }
  rewrite <-(length_pair_up p); [by rewrite Nat.mul_comm, Nat.div_mul|].
  unfold p. destruct (Nat.odd (length ds)) eqn:Eo; [cbn [length]; by rewrite Nat.even_succ|]. by rewrite <-Nat.negb_odd, Eo.
Qed.
End Changes.

(** * Collecting the changes *)

Lemma ScalarToArrayBig_word8 z : word8 (ScalarToArrayBig z).
Proof. split; [done|apply ScalarToArrayBig_u64]. Qed.

Lemma ScalarToArrayBig_zero z : u256 z → ScalarToArrayBig z = replicate 8 0 ↔ z = 0.
Proof.
  intros Hz. rewrite ScalarToArrayBig_digits. split; [|by intros ->].
  intros E. apply (f_equal (le_value (2 ^ 32))) in E. by rewrite le_value_digits_small in E by first [lia|exact Hz].
Qed.

Lemma foldM_changes {A S C} (I : S → list C → Prop) (f : S → A → outcome S) (g : A → list C) l : ∀ s cs,
  (∀ s cs x, x ∈ l → I s cs → ∃ s', f s x = Ok s' ∧ I s' (cs ++ g x)) →
  I s cs → ∃ s', foldM f s l = Ok s' ∧ I s' (cs ++ concat (g <$> l)).
Proof.
  induction l as [|x l IH]; intros s cs Hf Hs; cbn [foldM]; [exists s; by rewrite app_nil_r|].
  destruct (Hf s cs x) as (s1 & -> & Hs1); [by left|done|]. rewrite bind_Ok.
  destruct (IH s1 (cs ++ g x)) as (s2 & E2 & Hs2); [intros ?????; apply Hf; [by right|done]|done|].
  exists s2. split; [done|]. csimpl. by rewrite app_assoc.
Qed.

Lemma concat_singletons {A B} (f : A → B) l : concat ((λ x, [f x]) <$> l) = f <$> l.
Proof. induction l as [|x l IH]; [done|]. csimpl. by rewrite IH. Qed.

(** A code has at most as many bytes as characters. *)
Lemma length_code_bytes code : (length (code_bytes code) ≤ length code)%nat.
Proof.
  unfold code_bytes, text_bytes. destruct (mapM hex_val (trim0x code)) as [ds|] eqn:E; [|cbn; lia].
  cbn [fmap option_fmap option_map default id]. apply digits_length in E.
  assert (length (trim0x code) ≤ length code)%nat as Ht.
  { unfold trim0x. repeat case_match; cbn [length]; lia. }
  set (p := if Nat.odd (length ds) then 0 :: ds else ds).
  assert (Nat.even (length p) = true ∧ (length p ≤ S (length ds))%nat) as [He Hp].
  { unfold p. destruct (Nat.odd (length ds)) eqn:Eo; cbn [length]; [by rewrite Nat.even_succ|].
    by rewrite <-Nat.negb_odd, Eo; split; [|lia]. }
  pose proof (length_pair_up p He). destruct (length ds) eqn:El; [|lia]. unfold p in *. cbn in *. lia.
Qed.

Section Collect.
Context (keccak : list byte → list byte).
Context (keccak_len : ∀ b, length (keccak b) = 32%nat).
Context (hash : list Z → NodeKey → NodeKey).
Context (hash_wf : ∀ i c, nk_wf (hash i c)).
Context {D : Type} {SD : SmtDB D} {SL : SmtDBLaws D} {SS : SmtDBSources D}.

(** The variables of SetStorage after the changes [cs], started on [s]. *)
Record recorded (s : SMT D) (st : setting) (cs : list change) : Prop := {
  rec_keys : keysBatchStorage st = ch_key <$> cs;
  rec_values : valuesBatchStorage st = batch_values (updates cs);
  rec_save : noSaveOnInsert (st_smt st) = noSaveOnInsert s;
  rec_nodes : same_nodes (smtDb s) (smtDb (st_smt st));
  rec_meta : same_meta (smtDb s) (smtDb (st_smt st));
  rec_sources k : nk_wf k → db_GetKeySource (smtDb (st_smt st)) k = sources (db_GetKeySource (smtDb s)) cs k;
}.

Lemma same_nodes_trans (a b c : D) : same_nodes a b → same_nodes b c → same_nodes a c.
Proof. intros H1 H2 k Hk. by rewrite H2, H1. Qed.

(** The record of one key, written or removed. *)
Lemma put_source (s : SMT D) (c : change) :
  nk_wf (ch_key c) →
  ∃ d', (if negb (ch_value c =? 0) then InsertKeySource s (ch_key c) (ch_type c) (ch_addr c) (ch_position c)
         else DeleteKeySource s (ch_key c)) = Ok (with_Db s d') ∧
    same_nodes (smtDb s) d' ∧ same_meta (smtDb s) d' ∧
    ∀ k, nk_wf k → db_GetKeySource d' k = record_source (db_GetKeySource (smtDb s)) c k.
Proof.
  intros Hk. unfold record_source, ch_source, InsertKeySource, DeleteKeySource. cbn zeta.
  destruct (ch_value c =? 0); cbn [negb].
  - destruct (law_DeleteKeySource (smtDb s) (ch_key c)) as (d' & -> & Hn & Hm & Hg & Ho); [done|].
    exists d'. split_and!; [done..|]. intros k Hk'. destruct (decide (k = ch_key c)) as [->|Hne]; auto.
  - edestruct (law_InsertKeySource (smtDb s) (ch_key c)) as (d' & -> & Hn & Hm & Hg & Ho); [done|].
    exists d'. split_and!; [done..|]. intros k Hk'. destruct (decide (k = ch_key c)) as [->|Hne]; auto.
Qed.

Lemma put_change_spec s st cs c :
  recorded s st cs → nk_wf (ch_key c) → u256 (ch_value c) →
  ∃ st', put_change st (ch_key c) (ch_value c) (ch_type c) (ch_addr c) (ch_position c) = Ok st' ∧
    recorded s st' (cs ++ [c]).
Proof.
  intros [Hks Hvs Hsv Hn Hm Hsrc] Hk Hv. unfold put_change, appendToValuesBatchStorageBigInt, NodeValue8FromBigInt.
  change (NodeValue8FromBigIntArray (Some <$> ScalarToArrayBig (ch_value c))) with (Ok (Some <$> ScalarToArrayBig (ch_value c))).
  rewrite !bind_Ok, NodeValue8_IsZero_spec by apply ScalarToArrayBig_word8.
  rewrite (bool_decide_ext _ (ch_value c = 0)) by (by apply ScalarToArrayBig_zero). replace (bool_decide (ch_value c = 0)) with (ch_value c =? 0) by (case_bool_decide; lia).
  destruct (put_source (st_smt st) c Hk) as (d' & -> & Hn' & Hm' & Hsrc'). rewrite bind_Ok.
  eexists. split; [done|]. constructor; cbn [keysBatchStorage valuesBatchStorage st_smt smtDb noSaveOnInsert with_Db].
  - by rewrite Hks, fmap_app.
  - unfold updates. rewrite Hvs. unfold batch_values. by rewrite !fmap_app.
  - done.
  - by eapply same_nodes_trans.
  - by eapply same_meta_trans.
  - intros k Hk'. rewrite Hsrc' by done. unfold sources. rewrite foldl_app. cbn [foldl].
    unfold record_source at 1 2. destruct (decide _); [done|]. by apply Hsrc.
Qed.

Lemma bytecode_hash_u256 bs : u256 (bytecode_hash hash bs).
Proof.
  apply NodeKey_ToBigInt_range. set (f := λ h i, _). generalize (seq 0 (length (pad_bytes bs) / 56)).
  assert (∀ l h, nk_wf h → nk_wf (foldl f h l)) as H; [|intros l; apply H, nk_zero_wf].
  induction l as [|i l IH]; intros h Hh; [done|]. apply IH, hash_wf.
Qed.

(** The text of an address, as the operations use it. *)
Lemma with_address {B} (a : list byte) (f : string → outcome B) (P : B → Prop) :
  length a = 20%nat →
  (∀ cs, digits cs (bytes_digits a) → ∃ b, f (ascii_string (prefix0x ++ cs)) = Ok b ∧ P b) →
  ∃ b, (ethAddr ← ascii_string <$> Address_Hex keccak a; f ethAddr) = Ok b ∧ P b.
Proof.
  intros Ha Hf. destruct (Address_Hex_spec keccak keccak_len a Ha) as (cs & -> & Hcs).
  rewrite fmap_Ok, bind_Ok. by apply Hf.
Qed.

(** Two fields of one account, one after the other. *)
Lemma put_fields_spec s st cs a t1 v1 t2 v2 :
  recorded s st cs → u256 v1 → u256 v2 →
  ∃ st', (st' ← put_change st (account_key hash a t1) v1 t1 a zero_hash;
          put_change st' (account_key hash a t2) v2 t2 a zero_hash) = Ok st' ∧
    recorded s st' (cs ++ [field hash a t1 v1; field hash a t2 v2]).
Proof.
  intros Hr H1 H2. destruct (put_change_spec s st cs (field hash a t1 v1)) as (st1 & E1 & Hr1); [done|apply hash_wf|done|].
  destruct (put_change_spec s st1 _ (field hash a t2 v2) Hr1) as (st2 & E2 & Hr2); [apply hash_wf|done|].
  exists st2. cbn [field ch_key ch_value ch_type ch_addr ch_position] in E1, E2. rewrite E1, bind_Ok. split; [exact E2|]. by rewrite <-app_assoc in Hr2.
Qed.

Lemma put_account_spec s st cs x :
  recorded s st cs → account_ok x →
  ∃ st', put_account keccak hash st x.1 x.2 = Ok st' ∧ recorded s st' (cs ++ account_changes hash x).
Proof.
  intros Hr [Ha Hx]. unfold put_account. destruct x as [a acc]. cbn [fst snd] in *. apply (with_address a); [exact Ha|]. intros ts Hts. cbn zeta.
  unfold KeyEthAddrBalance, KeyEthAddrNonce. rewrite !(Key_bytes hash ts a) by done.
  apply put_fields_spec; [done|..]; destruct acc as [acc|]; unfold u256, is_u64 in *; lia.
Qed.

Lemma put_code_spec s st cs x :
  recorded s st cs → code_ok x →
  ∃ st', put_code keccak hash st x.1 x.2 = Ok st' ∧ recorded s st' (cs ++ code_changes hash x).
Proof.
  intros Hr (Ha & Hc & Hl). unfold put_code. destruct x as [a code]. cbn [fst snd] in *. apply (with_address a); [exact Ha|]. intros ts Hts. cbn zeta.
  unfold KeyContractCode, KeyContractLength. rewrite !(Key_bytes hash ts a) by done.
  rewrite convertBytecodeToBigInt_spec, bind_Ok by done.
  apply put_fields_spec; [done| |].
  - destruct (decide _); [unfold u256; lia|apply bytecode_hash_u256].
  - split; [lia|]. eapply Z.le_lt_trans; [|apply Hl]. apply inj_le. apply length_code_bytes.
Qed.

Lemma put_slot_spec s st cs a x :
  recorded s st cs → number_ok x.1 → number_ok x.2 →
  ∃ st', put_slot hash (ScalarToArrayBig (be_val a)) a st x.1 x.2 = Ok st' ∧ recorded s st' (cs ++ [slot_change hash a x]).
Proof.
  unfold number_ok. intros Hr Hk Hv. destruct (StrValToBigInt x.1) as [z|] eqn:Ez; [|done].
  destruct (StrValToBigInt x.2) as [v|] eqn:Ev; [|done].
  unfold put_slot. rewrite (KeyContractStorage_bytes _ _ _ _ Ez), bind_Ok, Ez.
  change (convertStringToBigInt x.2) with (StrValToBigInt x.2). rewrite Ev.
  unfold slot_change, number. rewrite Ez, Ev. unfold default, id.
  apply (put_change_spec s st cs (mkChange (slot_key hash a z) v SC_STORAGE a (BigToHash z))); [done|apply hash_wf|done].
Qed.

Lemma put_storage_spec s st cs x :
  recorded s st cs → storage_ok x →
  ∃ st', put_storage keccak hash st x.1 x.2 = Ok st' ∧ recorded s st' (cs ++ storage_changes hash x).
Proof.
  intros Hr [Ha Hx]. unfold put_storage. destruct x as [a sto]. cbn [fst snd] in *. apply (with_address a); [exact Ha|]. intros ts Hts. cbn zeta.
  rewrite (ConvertHexToBigInt_bytes _ _ Hts). unfold storage_changes. cbn [fst snd].
  rewrite <-(concat_singletons (slot_change hash a)). apply (foldM_changes (recorded s)); [|done].
  intros st1 cs1 [k v] Hin Hr1. rewrite Forall_forall in Hx. destruct (Hx _ Hin) as [Hk Hv]. by apply (put_slot_spec s st1 cs1 a (k, v)).
Qed.

Lemma recorded_poll s st cs p :
  recorded s st cs → recorded s (mkSetting (st_smt st) (keysBatchStorage st) (valuesBatchStorage st) p) cs.
Proof. by intros []. Qed.

Lemma recorded_holds s st cs m : recorded s st cs → smt_holds hash s m → smt_holds hash (st_smt st) m.
Proof.
  intros [_ _ Hsv Hn [Hr Hd] _] [Hm Hs Hroot Hst Hdep]. constructor; [done|congruence|by rewrite Hr| |by rewrite Hd].
  by eapply stored_same.
Qed.

Lemma updates_wf_changes cs : Forall (λ c, nk_wf (ch_key c)) cs → updates_wf (updates cs).
Proof. intros H. apply Forall_fmap. eapply Forall_impl; [exact H|]. intros c Hc. split; [done|apply ScalarToArrayBig_word8]. Qed.

Lemma block_changes_keys accs codes stos : Forall (λ c, nk_wf (ch_key c)) (block_changes hash accs codes stos).
Proof.
  unfold block_changes. rewrite !Forall_app. split_and!; apply Forall_concat, Forall_fmap, Forall_true; intros x.
  1, 2: apply Forall_forall; intros c [->|[->|[]%elem_of_nil]%elem_of_cons]%elem_of_cons; apply hash_wf.
  apply Forall_fmap, Forall_true. intros e. apply hash_wf.
Qed.

(** One of the three loops. *)
Lemma collect_loop {A} (put : setting → list byte → A → outcome setting) (P : list byte * A → Prop) g prefix s l st cs :
  (∀ st cs x, recorded s st cs → P x → ∃ st', put st x.1 x.2 = Ok st' ∧ recorded s st' (cs ++ g x)) →
  Forall P l → recorded s st cs →
  ∃ st', foldM (λ st '(addr, y), st ← poll (λ _, false) prefix st; put st addr y) st l = Ok st' ∧
    recorded s st' (cs ++ concat (g <$> l)).
Proof.
  intros Hput Hl. rewrite Forall_forall in Hl. apply foldM_changes. intros st1 cs1 x Hx Hr.
  destruct x as [a y]. unfold poll. rewrite bind_Ok. apply (Hput _ cs1 (a, y)); [by apply recorded_poll|by apply Hl].
Qed.

Lemma collect_spec prefix s accs codes stos :
  block_ok accs codes stos →
  ∃ st, (st ← foldM (λ st '(addr, acc), st ← poll (λ _, false) prefix st; put_account keccak hash st addr acc)
                (mkSetting s [] [] 0) accs;
         st ← foldM (λ st '(addr, code), st ← poll (λ _, false) prefix st; put_code keccak hash st addr code) st codes;
         foldM (λ st '(addr, storage), st ← poll (λ _, false) prefix st; put_storage keccak hash st addr storage) st stos)
        = Ok st ∧ recorded s st (block_changes hash accs codes stos).
Proof.
  intros (Ha & Hc & Hs).
  assert (recorded s (mkSetting s [] [] 0) []) as H0 by (constructor; by try split).
  destruct (collect_loop _ _ _ prefix s accs _ [] (put_account_spec s) Ha H0) as (st1 & -> & H1). rewrite bind_Ok.
  destruct (collect_loop _ _ _ prefix s codes st1 _ (put_code_spec s) Hc H1) as (st2 & -> & H2). rewrite bind_Ok.
  destruct (collect_loop _ _ _ prefix s stos st2 _ (put_storage_spec s) Hs H2) as (st3 & -> & H3).
  exists st3. split; [done|]. by rewrite <-app_assoc in H3.
Qed.

Lemma SetStorage_spec prefix cpuNum order s m accs codes stos :
  let cs := block_changes hash accs codes stos in
  (∀ X, order X ≡ₚ elements X) → (0 < cpuNum)%nat →
  smt_holds hash s m → block_ok accs codes stos → cs ≠ [] → unshared hash m →
  hash_good hash (map_nodes hash m ++ map_nodes hash (map_sets m (updates cs))) →
  batch_ok hash m m (last_entries (updates cs)) →
  ∃ s', SetStorage keccak hash (λ _, false) prefix cpuNum order s accs codes stos =
      Ok (ch_key <$> cs, batch_values (updates cs), s') ∧
    smt_holds hash s' (map_sets m (updates cs)) ∧
    (∀ k, nk_wf k → db_GetKeySource (smtDb s') k = sources (db_GetKeySource (smtDb s)) cs k).
Proof.
  intros cs Ho Hcpu Hs Hok Hne Hun HU Hb. unfold SetStorage.
  destruct (collect_spec prefix s accs codes stos Hok) as (st & E & Hr). fold cs in Hr.
  destruct ((length stos =? 0) && (length accs =? 0) && (length codes =? 0))%nat eqn:E0.
  { destruct stos, accs, codes; try done. }
  apply bind_Ok_inv in E as (st1 & -> & E). rewrite bind_Ok. apply bind_Ok_inv in E as (st2 & -> & E). rewrite bind_Ok, E, bind_Ok.
  destruct (InsertBatch_spec hash hash_wf order Ho cpuNum (st_smt st) m (updates cs)) as (s' & Eb & Hs');
    [done|by eapply recorded_holds|by apply updates_wf_changes, block_changes_keys| |done..|].
  { by intros H%fmap_nil_inv. }
  rewrite (rec_keys _ _ _ Hr), (rec_values _ _ _ Hr).
  replace ((updates cs).*1) with (ch_key <$> cs) in Eb by (unfold updates; by rewrite <-list_fmap_compose).
  rewrite Eb, bind_Ok. exists s'. split_and!; [done..|].
  intros k Hk. apply InsertBatch_sources in Eb. rewrite Eb. by apply (rec_sources _ _ _ Hr).
Qed.
End Collect.

(** * Fields with different keys *)

Lemma sources_other cs : ∀ f k, k ∉ ch_key <$> cs → sources f cs k = f k.
Proof.
  induction cs as [|c cs IH]; intros f k Hk; [done|]. csimpl in Hk. apply not_elem_of_cons in Hk as [Hne Hk].
  unfold sources in *. cbn [foldl]. rewrite IH by done. unfold record_source. by rewrite decide_False.
Qed.

Lemma sources_lookup cs : ∀ f c,
  NoDup (ch_key <$> cs) → c ∈ cs →
  sources f cs (ch_key c) = if ch_value c =? 0 then Err "key not found" else Ok (ch_source c).
Proof.
  induction cs as [|c' cs IH]; intros f c Hnd Hc; [by apply elem_of_nil in Hc|]. csimpl in Hnd.
  apply NoDup_cons in Hnd as [Hk Hnd]. unfold sources in *. cbn [foldl].
  apply elem_of_cons in Hc as [<-|Hc]; [|by apply IH].
  fold (sources (record_source f c) cs (ch_key c)). rewrite sources_other by done.
  unfold record_source. by rewrite decide_True.
Qed.

Lemma sources_perm f cs cs' k :
  NoDup (ch_key <$> cs) → cs ≡ₚ cs' → sources f cs k = sources f cs' k.
Proof.
  intros Hnd Hp. assert (NoDup (ch_key <$> cs')) as Hnd' by (by rewrite <-Hp).
  destruct (decide (k ∈ ch_key <$> cs)) as [(c & -> & Hc)%list_elem_of_fmap|Hk].
  - rewrite !sources_lookup; [done..|by rewrite <-Hp|done|done].
  - rewrite !sources_other; [done| |done]. by rewrite <-Hp.
Qed.

Lemma updates_keys cs : (updates cs).*1 = ch_key <$> cs.
Proof. unfold updates. by rewrite <-list_fmap_compose. Qed.

Lemma map_sets_perm m l l' : NoDup l.*1 → l ≡ₚ l' → map_sets m l = map_sets m l'.
Proof.
  intros Hnd Hp. assert (NoDup l'.*1) as Hnd' by (by rewrite <-Hp). apply map_eq. intros k.
  destruct (decide (k ∈ l.*1)) as [([k' v] & -> & Hin)%list_elem_of_fmap|Hk]; cbn [fst].
  - rewrite (map_sets_lookup l m k' v), (map_sets_lookup l' m k' v) by (try done; by rewrite <-Hp). done.
  - rewrite !map_sets_other; [done| |done]. by rewrite <-Hp.
Qed.

(** The same maps, iterated in another order. *)
Definition same_slots (x y : list byte * list (string * string)) : Prop := x.1 = y.1 ∧ x.2 ≡ₚ y.2.

Definition reordered (stos stos' : list (list byte * list (string * string))) : Prop :=
  ∃ mid, stos ≡ₚ mid ∧ Forall2 same_slots mid stos'.

Lemma concat_perm {A B} (f : A → list B) l l' : l ≡ₚ l' → concat (f <$> l) ≡ₚ concat (f <$> l').
Proof.
  induction 1 as [|x l l' _ IH|x y l|l l' l'' _ IH _ IH']; csimpl; [done|by rewrite IH| |by rewrite IH].
  rewrite !app_assoc. apply Permutation_app; [apply Permutation_app_comm|done].
Qed.

Lemma block_changes_perm hash accs accs' codes codes' stos stos' :
  accs ≡ₚ accs' → codes ≡ₚ codes' → reordered stos stos' →
  block_changes hash accs codes stos ≡ₚ block_changes hash accs' codes' stos'.
Proof.
  intros Ha Hc (mid & Hs & Hm). unfold block_changes. apply Permutation_app; [|apply Permutation_app].
  - by apply concat_perm.
  - by apply concat_perm.
  - rewrite (concat_perm _ _ _ Hs). clear Hs. induction Hm as [|[a x] [b y] mid stos' [E Hxy] _ IH]; [done|]. cbn [fst snd] in *. subst b.
    csimpl. apply Permutation_app; [|done]. unfold storage_changes. cbn [fst snd]. by rewrite Hxy.
Qed.

Lemma block_ok_perm accs accs' codes codes' stos stos' :
  accs ≡ₚ accs' → codes ≡ₚ codes' → reordered stos stos' → block_ok accs codes stos → block_ok accs' codes' stos'.
Proof.
  intros Ha Hc (mid & Hs & Hm) (Ka & Kc & Ks). split_and!; [by rewrite <-Ha|by rewrite <-Hc|].
  rewrite Hs in Ks. clear Hs. induction Hm as [|[a x] [b y] mid stos' [E Hxy] _ IH]; [done|].
  apply Forall_cons in Ks as [[Kl Kx] Ks]. cbn [fst snd] in *. subst b. constructor; [|by apply IH]. split; [done|]. cbn [snd]. by rewrite <-Hxy.
Qed.

Lemma block_changes_fields hash accs codes stos :
  block_ok accs codes stos →
  Forall (λ c, is_u8 (ch_type c) ∧ length (ch_addr c) = addr_len ∧ length (ch_position c) = hash_len ∧
     ((ch_type c =? SC_STORAGE) = false → ch_position c = replicate hash_len x00)) (block_changes hash accs codes stos).
Proof.
  intros (Ha & Hc & Hs). unfold block_changes. rewrite !Forall_app.
  assert (∀ a t v, length a = 20%nat → is_u8 t → is_u8 (ch_type (field hash a t v)) ∧ length (ch_addr (field hash a t v)) = addr_len ∧
    length (ch_position (field hash a t v)) = hash_len ∧ ((ch_type (field hash a t v) =? SC_STORAGE) = false →
    ch_position (field hash a t v) = replicate hash_len x00)) as Hf by (intros a t v Hl Ht; by split_and!).
  split_and!; apply Forall_concat, Forall_fmap; (eapply Forall_impl; [eassumption|]); intros [a x] Hx; cbn.
  - destruct Hx as [Hl _]. apply Forall_forall. intros c [->|[->|[]%elem_of_nil]%elem_of_cons]%elem_of_cons; by apply Hf.
  - destruct Hx as [Hl _]. apply Forall_forall. intros c [->|[->|[]%elem_of_nil]%elem_of_cons]%elem_of_cons; by apply Hf.
  - destruct Hx as [Hl _]. apply Forall_fmap, Forall_true. intros e. cbn. split_and!; [done..|apply length_set_bytes|done].
Qed.

Lemma elem_of_concat_fmap {A B} (f : A → list B) l y : y ∈ concat (f <$> l) ↔ ∃ x, x ∈ l ∧ y ∈ f x.
Proof.
  induction l as [|x l IH]; csimpl; [set_solver|]. rewrite elem_of_app, IH. set_solver.
Qed.

(** * The storage of one contract *)

(** The value and its hash, as they are kept for a text. *)
Definition limbs_of (v : string) : NodeValue8 := Some <$> ScalarToArrayBig (number v).

Section Contract.
Context (hash : list Z → NodeKey → NodeKey).
Context (hash_wf : ∀ i c, nk_wf (hash i c)).

Definition limbs_hash (v : string) : NodeKey := phash hash (val_pre (ScalarToArrayBig (number v))).

(** Texts of numbers, or no text. *)
Definition value_ok (v : string) : Prop := v = EmptyString ∨ number_ok v.

#[export] Instance value_ok_dec v : Decision (value_ok v).
Proof. unfold value_ok. apply _. Defined.

Lemma calcHashVal_spec v : number_ok v → calcHashVal hash v = Ok (limbs_of v, limbs_hash v).
Proof.
  unfold number_ok, calcHashVal, limbs_of, limbs_hash, number. intros H.
  change (convertStringToBigInt v) with (StrValToBigInt v). destruct (StrValToBigInt v) as [z|]; [|done]. cbn [default id].
  change (NodeValue8FromBigIntArray (Some <$> ScalarToArrayBig z)) with (Ok (Some <$> ScalarToArrayBig z)).
  rewrite bind_Ok, ToUintArray_some by apply ScalarToArrayBig_u64. done.
Qed.

(** The maps hold the values of the keys [ks] that have one. *)
Definition hashed (storage : gmap string string) (ks : list string)
    (r : gmap string NodeValue8 * gmap string NodeKey) : Prop :=
  ∀ k, let v := default EmptyString (storage !! k) in
    r.1 !! k = (if decide (k ∈ ks ∧ v ≠ EmptyString) then Some (limbs_of v) else None) ∧
    r.2 !! k = (if decide (k ∈ ks ∧ v ≠ EmptyString) then Some (limbs_hash v) else None).

Lemma hashed_unique storage ks r r' : hashed storage ks r → hashed storage ks r' → r = r'.
Proof.
  intros H H'. apply injective_projections; apply map_eq; intros k; destruct (H k) as [E1 E2], (H' k) as [E1' E2']; congruence.
Qed.

Lemma hashed_nil storage : hashed storage [] (∅, ∅).
Proof. intros k v. split; (rewrite decide_False by (intros [[]%elem_of_nil _])); apply lookup_empty. Qed.

Lemma hashed_insert storage ks r k :
  let v := default EmptyString (storage !! k) in
  v ≠ EmptyString → hashed storage ks r → hashed storage (ks ++ [k]) (<[k := limbs_of v]> r.1, <[k := limbs_hash v]> r.2).
Proof.
  intros v Hv H k'. destruct (H k') as [E1 E2]. cbn [fst snd]. destruct (decide (k = k')) as [<-|Hne].
  - rewrite !lookup_insert_eq, !decide_True by (split; [set_solver|done]). done.
  - rewrite !lookup_insert_ne, E1, E2 by done. split; apply decide_ext; set_solver.
Qed.

Lemma hashed_skip storage ks r k :
  default EmptyString (storage !! k) = EmptyString → hashed storage ks r → hashed storage (ks ++ [k]) r.
Proof.
  intros Hv H k'. destruct (H k') as [E1 E2]. cbn zeta. rewrite E1, E2. split; apply decide_ext.
  all: split; intros [Hin Hne]; split; [set_solver|done| |done]; apply elem_of_app in Hin as [? | ->%list_elem_of_singleton]; done.
Qed.

Lemma hash_serial_spec storage ks :
  Forall (λ k, value_ok (default EmptyString (storage !! k))) ks →
  ∃ r, hash_serial hash storage ks = Ok r ∧ hashed storage ks r.
Proof.
  intros Hks. rewrite Forall_forall in Hks.
  destruct (foldM_changes (λ r cs, hashed storage cs r) (λ '(chm, vhm) k,
    let v := default EmptyString (storage !! k) in
    if bool_decide (v = EmptyString) then Ok (chm, vhm)
    else '(c, h) ← calcHashVal hash v; Ok (<[k := c]> chm, <[k := h]> vhm)) (λ k, [k]) ks (∅, ∅) [])
    as (r & E & Hr).
  - intros [chm vhm] cs k Hk H. cbn zeta. case_bool_decide as Hv; [eexists; split; [done|by apply hashed_skip]|].
    rewrite calcHashVal_spec, bind_Ok by (destruct (Hks k Hk); done). eexists. split; [done|]. by apply (hashed_insert _ _ (chm, vhm)).
  - apply hashed_nil.
  - exists r. split; [done|]. by rewrite concat_singletons, list_fmap_id in Hr.
Qed.

(** ** The goroutines *)

(** The keys of one goroutine. *)
Definition share (cpuNum cpuI : nat) (ks : list string) : list string :=
  imap pair ks ≫= λ '(j, k), if (cpuI <=? j)%nat && ((j - cpuI) mod cpuNum =? 0)%nat then [k] else [].

Lemma share_snoc cpuNum cpuI ks k :
  share cpuNum cpuI (ks ++ [k]) = share cpuNum cpuI ks ++
    (if (cpuI <=? length ks)%nat && ((length ks - cpuI) mod cpuNum =? 0)%nat then [k] else []).
Proof.
  unfold share. rewrite imap_app, bind_app. cbn. rewrite Nat.add_0_r. by rewrite app_nil_r.
Qed.

(** How many they are. *)
Lemma length_share cpuNum cpuI ks :
  (cpuI < cpuNum)%nat → length (share cpuNum cpuI ks) = ((length ks + (cpuNum - 1 - cpuI)) / cpuNum)%nat.
Proof.
  intros Hi. induction ks as [|k ks IH] using rev_ind; [symmetry; apply Nat.div_small; cbn; lia|].
  rewrite share_snoc, !length_app, IH. cbn [length]. set (n := length ks).
  destruct (Nat.leb_spec cpuI n) as [Hle|Hgt]; cbn [andb length].
  - pose proof (Nat.div_mod_eq (n - cpuI) cpuNum) as H3. pose proof (Nat.mod_upper_bound (n - cpuI) cpuNum ltac:(lia)) as H4.
    set (q := ((n - cpuI) / cpuNum)%nat) in *. destruct (Nat.eqb_spec ((n - cpuI) mod cpuNum) 0) as [E|E]; cbn [length].
    + rewrite <-(Nat.div_unique (n + (cpuNum - 1 - cpuI)) cpuNum q (cpuNum - 1)) by lia.
      rewrite <-(Nat.div_unique (n + 1 + (cpuNum - 1 - cpuI)) cpuNum (S q) 0) by (rewrite ?Nat.mul_succ_r; lia). lia.
    + rewrite <-(Nat.div_unique (n + (cpuNum - 1 - cpuI)) cpuNum (S q) ((n - cpuI) mod cpuNum - 1)) by (rewrite ?Nat.mul_succ_r; lia).
      rewrite <-(Nat.div_unique (n + 1 + (cpuNum - 1 - cpuI)) cpuNum (S q) ((n - cpuI) mod cpuNum)) by (rewrite ?Nat.mul_succ_r; lia). lia.
  - rewrite !Nat.div_small by lia. done.
Qed.

Lemma length_share_le cpuNum cpuI ks :
  (cpuI < cpuNum)%nat → (length (share cpuNum cpuI ks) ≤ length ks / cpuNum + length ks mod cpuNum)%nat.
Proof.
  intros Hi. rewrite length_share by done. set (n := length ks).
  pose proof (Nat.div_mod_eq n cpuNum) as H1. pose proof (Nat.mod_upper_bound n cpuNum ltac:(lia)) as H2.
  set (q := (n / cpuNum)%nat) in *. set (r := (n mod cpuNum)%nat) in *.
  apply Nat.lt_succ_r, Nat.Div0.div_lt_upper_bound. rewrite Nat.mul_succ_r, Nat.mul_add_distr_l.
  destruct r as [|r]; [lia|]. rewrite Nat.mul_succ_r. lia.
Qed.

(** Every key has its goroutine. *)
Lemma elem_of_shares cpuNum ks k :
  (0 < cpuNum)%nat → k ∈ ks ↔ ∃ cpuI, (cpuI < cpuNum)%nat ∧ k ∈ share cpuNum cpuI ks.
Proof.
  intros Hc. unfold share. setoid_rewrite list_elem_of_bind. split.
  - intros [j Hj]%list_elem_of_lookup. exists (j mod cpuNum)%nat. split; [apply Nat.mod_upper_bound; lia|].
    exists (j, k). split; [|apply list_elem_of_lookup; exists j; by rewrite list_lookup_imap, Hj].
    pose proof (Nat.div_mod_eq j cpuNum) as H1. pose proof (Nat.Div0.mod_le j cpuNum) as H2.
    rewrite (proj2 (Nat.leb_le _ _) H2). replace (j - j mod cpuNum)%nat with (j / cpuNum * cpuNum)%nat by lia.
    rewrite Nat.Div0.mod_mul. cbn. set_solver.
  - intros (i & _ & [j k'] & Hk & (j' & Hj)%list_elem_of_lookup). rewrite list_lookup_imap in Hj.
    destruct (ks !! j') as [k''|] eqn:E; [|done]. cbn in Hj. simplify_eq. destruct (_ && _) in Hk; [|by apply elem_of_nil in Hk].
    apply list_elem_of_singleton in Hk as ->. apply list_elem_of_lookup. eauto.
Qed.

(** A result of a goroutine for the key [k]. *)
Definition slot_result (storage : gmap string string) (k : string) : string * NodeValue8 * NodeKey :=
  let v := default EmptyString (storage !! k) in (k, limbs_of v, limbs_hash v).

Definition has_value (storage : gmap string string) (k : string) : Prop :=
  default EmptyString (storage !! k) ≠ EmptyString.

#[local] Instance has_value_dec storage k : Decision (has_value storage k).
Proof. unfold has_value. apply _. Defined.

Lemma hash_worker_loop storage n ks : ∀ pre,
  Forall (λ k, value_ok (default EmptyString (storage !! k))) ks → (length pre + length ks ≤ n)%nat →
  foldM (λ done k,
    let v := default EmptyString (storage !! k) in
    if bool_decide (v = EmptyString) then Ok done
    else
      '(c, h) ← calcHashVal hash v;
      if (length done <? n)%nat then Ok (done ++ [(k, c, h)]) else Panic) pre ks =
  Ok (pre ++ (slot_result storage <$> filter (has_value storage) ks)).
Proof.
  induction ks as [|k ks IH]; intros pre Hks Hn; cbn [foldM]; [by rewrite app_nil_r|].
  apply Forall_cons in Hks as [Hk Hks]. cbn [length] in Hn. cbn zeta. case_bool_decide as Hv.
  - rewrite bind_Ok, IH by (done || lia). by rewrite filter_cons_False by (by intros []).
  - rewrite calcHashVal_spec, bind_Ok by (by destruct Hk). rewrite (proj2 (Nat.ltb_lt _ _)), bind_Ok by lia.
    rewrite IH; [|done|rewrite length_app; cbn; lia]. rewrite filter_cons_True by done. csimpl. by rewrite <-app_assoc.
Qed.

(** Collecting the arrays of the goroutines. *)
Lemma merge_spec storage ks : ∀ done r,
  Forall (λ k, k ≠ EmptyString ∧ has_value storage k) ks → hashed storage done r →
  hashed storage (done ++ ks) (foldl (λ '(chm, vhm) '(k, c, h),
    if bool_decide (k = EmptyString) then (chm, vhm) else (<[k := c]> chm, <[k := h]> vhm)) r (slot_result storage <$> ks)).
Proof.
  induction ks as [|k ks IH]; intros done r Hks Hr; [by rewrite app_nil_r|]. apply Forall_cons in Hks as [[Hk Hv] Hks].
  csimpl. destruct r as [chm vhm]. unfold slot_result at 1. cbn zeta. rewrite bool_decide_false by done.
  rewrite (app_assoc done [k] ks : done ++ k :: ks = _). apply IH; [done|]. by apply (hashed_insert _ _ (chm, vhm)).
Qed.

(** What the goroutines of a range write, array after array. *)
Definition written (storage : gmap string string) (cpuNum : nat) (ks : list string) (cpuI : nat) : list string :=
  filter (has_value storage) (share cpuNum cpuI ks).

Lemma elem_of_written storage cpuNum ks k :
  (0 < cpuNum)%nat → k ∈ concat (written storage cpuNum ks <$> seq 0 cpuNum) ↔ k ∈ ks ∧ has_value storage k.
Proof.
  intros Hc. rewrite elem_of_concat_fmap, (elem_of_shares cpuNum ks k Hc). unfold written.
  setoid_rewrite list_elem_of_filter. setoid_rewrite elem_of_seq. split.
  - intros (i & Hi & Hv & Hk). split; [exists i; split; [lia|done]|done].
  - intros [(i & Hi & Hk) Hv]. exists i. split; [lia|done].
Qed.

Lemma hash_workers_spec cpuNum storage ks :
  Forall (λ k, value_ok (default EmptyString (storage !! k))) ks → (0 < cpuNum)%nat →
  foldM (λ arrays cpuI,
    a ← hash_worker hash storage ks cpuNum (length ks / cpuNum + length ks mod cpuNum)%nat cpuI; Ok (arrays ++ [a]))
    [] (seq 0 cpuNum) = Ok ((λ i, slot_result storage <$> written storage cpuNum ks i) <$> seq 0 cpuNum).
Proof.
  intros Hks Hc. rewrite Forall_forall in Hks.
  destruct (foldM_changes eq (λ arrays cpuI,
    a ← hash_worker hash storage ks cpuNum (length ks / cpuNum + length ks mod cpuNum)%nat cpuI; Ok (arrays ++ [a]))
    (λ i, [slot_result storage <$> written storage cpuNum ks i]) (seq 0 cpuNum) [] []) as (arrays & E & ->); [|done|].
  { intros arrays ? i Hi <-. apply elem_of_seq in Hi. eexists. split; [|done].
    unfold hash_worker. rewrite hash_worker_loop; [done| |].
    - apply Forall_forall. intros k Hk. apply Hks, (elem_of_shares cpuNum); [done|]. exists i. split; [lia|done].
    - cbn. apply length_share_le. lia. }
  rewrite E. by rewrite concat_singletons.
Qed.

Lemma hash_parallel_spec cpuNum storage ks :
  (0 < cpuNum)%nat → Forall (λ k, k ≠ EmptyString ∧ value_ok (default EmptyString (storage !! k))) ks →
  ∃ r, hash_parallel hash storage ks cpuNum = Ok r ∧ hashed storage ks r.
Proof.
  intros Hc Hks. rewrite Forall_forall in Hks. unfold hash_parallel. cbn zeta.
  rewrite hash_workers_spec by (done || (apply Forall_forall; intros k Hk; by apply Hks)).
  rewrite bind_Ok. eexists. split; [done|].
  replace (concat _) with (slot_result storage <$> concat (written storage cpuNum ks <$> seq 0 cpuNum)).
  2: { induction (seq 0 cpuNum) as [|i l IH]; [done|]. csimpl. by rewrite fmap_app, IH. }
  pose proof (elem_of_written storage cpuNum ks) as Hmem. set (ws := concat _) in *.
  intros k v. destruct (merge_spec storage ws [] (∅, ∅)) with (k := k) as [-> ->].
  - apply Forall_forall. intros k' [Hk' Hv]%Hmem; [|done]. split; [by apply Hks|done].
  - apply hashed_nil.
  - rewrite app_nil_l. fold v. split; apply decide_ext; rewrite Hmem by done; unfold has_value; fold v; tauto.
Qed.

(** ** The insertions *)

Context {D : Type} {SD : SmtDB D} {SL : SmtDBLaws D}.

(** The tree of [m] below the root of the last response; the root of the store
    is set at the end. *)
Record below (x : SMTResponse * SMT D) (m : gmap NodeKey (list Z)) : Prop := {
  bl_root : NewRootScalar x.1 = map_root hash m;
  bl_wf : map_wf m;
  bl_save : noSaveOnInsert x.2 = false;
  bl_stored : stored hash (smtDb x.2) (map_nodes hash m);
  bl_depth : db_GetDepth (smtDb x.2) ≠ Panic;
}.

Lemma insert_slot_spec ethAddr a chm vhm x k v m :
  below x m → number_ok k → number_ok v → chm !! k = Some (limbs_of v) → vhm !! k = Some (limbs_hash v) →
  hash_good hash (map_nodes hash m ++ map_nodes hash (map_set m (slot_key hash a (number k)) (ScalarToArrayBig (number v)))) →
  ∃ x', insert_slot hash ethAddr (ScalarToArrayBig (be_val a)) chm vhm x k = Ok x' ∧ below x' (map_set m (slot_key hash a (number k)) (ScalarToArrayBig (number v))).
Proof.
  intros [Hr Hm Hsv Hst Hd] Hk Hv Ec Eh HU. destruct x as [smtr s]. cbn [fst snd] in *. unfold insert_slot.
  unfold number_ok in Hk. destruct (StrValToBigInt k) as [z|] eqn:Ez; [|done].
  assert (number k = z) as En by (unfold number; by rewrite Ez). rewrite En in *.
  rewrite (KeyContractStorage_bytes _ _ _ _ Ez), bind_Ok, Ec, Eh, Hsv, Hr. cbn [default id].
  assert (nk_wf (slot_key hash a z)) as Hkw by apply hash_wf. set (kk := slot_key hash a z) in *.
  destruct (map_tree_spec m Hm) as [Hok _]. pose proof (ScalarToArrayBig_word8 (number v)) as Hw.
  unfold map_nodes, map_root in *. rewrite <-map_tree_set in HU by done.
  destruct (insert_spec hash hash_wf (smtDb s) (map_tree m) kk (ScalarToArrayBig (number v)) (limbs_hash v))
    as (d1 & E1 & Hst1 & _ & Hd1 & _); [done..|by right|done|].
  unfold limbs_of in *. rewrite E1, bind_Ok.
  edestruct (law_InsertKeySource d1 kk) as (d2 & -> & Hn2 & [_ Hdp2] & _); [done|]. rewrite bind_Ok.
  eexists. split; [done|]. constructor; cbn [fst snd NewRootScalar smtDb noSaveOnInsert with_Db].
  - unfold map_root. by rewrite <-map_tree_set by done.
  - by apply map_set_wf.
  - done.
  - unfold map_nodes. rewrite <-map_tree_set by done. by eapply stored_same.
  - by rewrite Hdp2.
Qed.

(** The slots [ks] of the contract [a], in this order. *)
Definition slots (a : list byte) (storage : gmap string string) (ks : list string) : list (NodeKey * list Z) :=
  updates (slot_change hash a <$> ((λ k, (k, default EmptyString (storage !! k))) <$> ks)).

Lemma number_ok_text v : number_ok v → v ≠ EmptyString.
Proof. by intros H ->. Qed.

Lemma insert_slots_spec ethAddr a storage all r ks : ∀ x m,
  hashed storage all r → ks ⊆ all → Forall (λ k, number_ok k ∧ number_ok (default EmptyString (storage !! k))) ks →
  below x m → steps_good hash m (slots a storage ks) →
  ∃ x', foldM (insert_slot hash ethAddr (ScalarToArrayBig (be_val a)) r.1 r.2) x ks = Ok x' ∧ below x' (map_sets m (slots a storage ks)).
Proof.
  induction ks as [|k ks IH]; intros x m Hh Hsub Hks Hx Hg; [by exists x|].
  apply Forall_cons in Hks as [[Hk Hv] Hks]. destruct Hg as [Hg1 Hg2]. destruct (Hh k) as [E1 E2].
  assert (k ∈ all ∧ default EmptyString (storage !! k) ≠ EmptyString) as Hin by (split; [apply Hsub; by left|by apply number_ok_text]).
  rewrite decide_True in E1 by done. rewrite decide_True in E2 by done.
  destruct (insert_slot_spec ethAddr a r.1 r.2 x k _ m Hx Hk Hv E1 E2 Hg1) as (x1 & Ex1 & Hx1).
  destruct (IH x1 _ Hh ltac:(set_solver) Hks Hx1 Hg2) as (x2 & Ex2 & Hx2).
  exists x2. split; [|exact Hx2]. cbn [foldM]. by rewrite Ex1, bind_Ok.
Qed.

Lemma holds_below (s : SMT D) m : smt_holds hash s m → below (mkResponse (map_root hash m) EmptyString, s) m.
Proof. by intros []. Qed.

Lemma InsertStorage_spec cs a storage all r ks s m :
  digits cs (bytes_digits a) → smt_holds hash s m → hashed storage all r → ks ⊆ all →
  Forall (λ k, number_ok k ∧ number_ok (default EmptyString (storage !! k))) ks → steps_good hash m (slots a storage ks) →
  ∃ smtr s', InsertStorage hash s (ascii_string (prefix0x ++ cs)) ks r.1 r.2 = Ok (smtr, s') ∧
    NewRootScalar smtr = map_root hash (map_sets m (slots a storage ks)) ∧ smt_holds hash s' (map_sets m (slots a storage ks)).
Proof.
  intros Hcs Hs Hh Hsub Hks Hg. unfold InsertStorage. rewrite (ConvertHexToBigInt_bytes _ _ Hcs). cbn zeta.
  rewrite (getLastRoot_spec (smtDb s) (map_root hash m)), bind_Ok by (apply Hs || by apply thash_wf).
  destruct (insert_slots_spec (ascii_string (prefix0x ++ cs)) a storage all r ks _ m Hh Hsub Hks (holds_below s m Hs) Hg)
    as ([smtr s1] & -> & [Hr Hm Hsv Hst Hd]). rewrite bind_Ok. cbn [fst snd] in *. unfold setLastRoot. rewrite Hr.
  destruct (law_SetLastRoot (smtDb s1) (NodeKey_ToBigInt (map_root hash (map_sets m (slots a storage ks)))))
    as (d & -> & Hn & Hdp & Hroot); [by apply NodeKey_ToBigInt_range, thash_wf|].
  rewrite bind_Ok. do 2 eexists. split_and!; [done..|]. constructor; cbn [smtDb noSaveOnInsert with_Db]; [done..| |].
  - by eapply stored_same.
  - by rewrite Hdp.
Qed.

(** A slot without a value. *)
Lemma InsertStorage_panics cs a storage all r ks k rest s m :
  digits cs (bytes_digits a) → smt_holds hash s m → hashed storage all r → ks ⊆ all →
  Forall (λ k, number_ok k ∧ number_ok (default EmptyString (storage !! k))) ks → steps_good hash m (slots a storage ks) →
  number_ok k → default EmptyString (storage !! k) = EmptyString →
  InsertStorage hash s (ascii_string (prefix0x ++ cs)) (ks ++ k :: rest) r.1 r.2 = Panic.
Proof.
  intros Hcs Hs Hh Hsub Hks Hg Hk Ek. unfold InsertStorage. rewrite (ConvertHexToBigInt_bytes _ _ Hcs). cbn zeta.
  rewrite (getLastRoot_spec (smtDb s) (map_root hash m)), bind_Ok by (apply Hs || by apply thash_wf).
  destruct (insert_slots_spec (ascii_string (prefix0x ++ cs)) a storage all r ks _ m Hh Hsub Hks (holds_below s m Hs) Hg)
    as ([smtr s1] & E1 & _). rewrite foldM_app, E1, bind_Ok. cbn [foldM]. unfold insert_slot.
  unfold number_ok in Hk. destruct (StrValToBigInt k) as [z|] eqn:Ez; [|done].
  rewrite (KeyContractStorage_bytes _ _ _ _ Ez), bind_Ok. destruct (Hh k) as [-> _]. rewrite decide_False by (intros []; done). done.
Qed.

(** Both ways to fill the maps give the same maps. *)
Lemma fill_spec cpuNum storage ks :
  (0 < cpuNum)%nat → Forall (λ k, number_ok k ∧ value_ok (default EmptyString (storage !! k))) ks →
  ∃ r, hash_parallel hash storage ks cpuNum = Ok r ∧ hash_serial hash storage ks = Ok r ∧ hashed storage ks r.
Proof.
  intros Hc Hks.
  destruct (hash_parallel_spec cpuNum storage ks Hc) as (r & E & Hr).
  { eapply Forall_impl; [exact Hks|]. intros k [Hk Hv]. split; [by apply number_ok_text|done]. }
  destruct (hash_serial_spec storage ks) as (r' & E' & Hr').
  { eapply Forall_impl; [exact Hks|]. by intros k [_ Hv]. }
  exists r. rewrite (hashed_unique _ _ _ _ Hr Hr') in *. done.
Qed.
End Contract.

Lemma steps_good_app hash l1 l2 : ∀ m, steps_good hash m (l1 ++ l2) → steps_good hash m l1 ∧ steps_good hash (map_sets m l1) l2.
Proof.
  induction l1 as [|[k v] l1 IH]; intros m H; [done|]. destruct H as [H1 H2]. apply IH in H2 as [H2 H3]. done.
Qed.

(** * One field at a time *)

Section Fields.
Context (keccak : list byte → list byte).
Context (keccak_len : ∀ b, length (keccak b) = 32%nat).
Context (hash : list Z → NodeKey → NodeKey).
Context (hash_wf : ∀ i c, nk_wf (hash i c)).
Context {D : Type} {SD : SmtDB D} {SL : SmtDBLaws D}.

(** An insertion with its key source. *)
Lemma InsertKA_source (s : SMT D) m k value ks :
  smt_holds hash s m → nk_wf k →
  hash_good hash (map_nodes hash m ++ map_nodes hash (map_set m k (ScalarToArrayBig value))) →
  ∃ r s1 d, InsertKA hash s k value = Ok (r, s1) ∧ NewRootScalar r = map_root hash (map_set m k (ScalarToArrayBig value)) ∧
    db_InsertKeySource (smtDb s1) k ks = Ok d ∧ smt_holds hash (with_Db s1 d) (map_set m k (ScalarToArrayBig value)).
Proof.
  intros Hs Hk HU.
  destruct (insertSingle_spec hash hash_wf s m k (ScalarToArrayBig value) nk_zero) as (s1 & E & [Hm Hsv Hr Hst Hd] & _);
    [done..|apply ScalarToArrayBig_word8|by left|done|].
  destruct (law_InsertKeySource (smtDb s1) k ks) as (d & Ed & Hn & [Hrt Hdp] & _); [done|].
  do 3 eexists. split_and!; [exact E|done|exact Ed|].
  constructor; cbn [smtDb noSaveOnInsert with_Db]; [done..|by rewrite Hrt|by eapply stored_same|by rewrite Hdp].
Qed.

Lemma SetAccountState_spec cs a (s : SMT D) m balance nonce :
  let us := updates [field hash a KEY_BALANCE balance; field hash a KEY_NONCE nonce] in
  digits cs (bytes_digits a) → smt_holds hash s m → steps_good hash m us →
  ∃ s', SetAccountState hash s (ascii_string (prefix0x ++ cs)) balance nonce =
      Ok (NodeKey_ToBigInt (map_root hash (map_sets m us)), s') ∧ smt_holds hash s' (map_sets m us).
Proof.
  intros us Hcs Hs (HU1 & HU2 & _). unfold SetAccountState, SetAccountBalance, SetAccountNonce, KeyEthAddrBalance, KeyEthAddrNonce.
  rewrite !(Key_bytes hash cs a) by done. cbn zeta.
  edestruct (InsertKA_source s m (account_key hash a KEY_BALANCE) balance) as (r1 & s1 & d1 & -> & _ & E1 & Hs1);
    [done|apply hash_wf|exact HU1|]. rewrite !bind_Ok, E1, !bind_Ok.
  edestruct (InsertKA_source (with_Db s1 d1)
    (map_set m (account_key hash a KEY_BALANCE) (ScalarToArrayBig balance)) (account_key hash a KEY_NONCE) nonce) as (r2 & s2 & d2 & -> & Er & E2 & Hs2);
    [exact Hs1|apply hash_wf|exact HU2|]. rewrite !bind_Ok, E2, bind_Ok.
  eexists. split; [by rewrite Er|exact Hs2].
Qed.

Lemma SetAccountStorage_spec (s : SMT D) m x :
  smt_holds hash s m → account_ok x → steps_good hash m (updates (account_changes hash x)) →
  ∃ s', SetAccountStorage keccak hash s x.1 x.2 = Ok s' ∧ smt_holds hash s' (map_sets m (updates (account_changes hash x))).
Proof.
  intros Hs [Ha _] Hg. destruct x as [a acc]. cbn [fst snd] in *. unfold SetAccountStorage.
  apply (with_address keccak keccak_len a); [exact Ha|]. intros cs Hcs.
  destruct acc as [acc|]; edestruct (SetAccountState_spec cs a s m) as (s' & -> & Hs'); try done; eauto.
Qed.

Lemma SetContractBytecode_spec cs (s : SMT D) m x :
  digits cs (bytes_digits x.1) → smt_holds hash s m → Forall (λ c, is_Some (hex_val c)) (trim0x x.2) →
  steps_good hash m (updates (code_changes hash x)) →
  ∃ s', SetContractBytecode hash s (ascii_string (prefix0x ++ cs)) x.2 = Ok s' ∧
    smt_holds hash s' (map_sets m (updates (code_changes hash x))).
Proof.
  intros Hcs Hs Hc (HU1 & HU2 & _). destruct x as [a code]. cbn [fst snd] in *.
  unfold SetContractBytecode, KeyContractCode, KeyContractLength. rewrite !(Key_bytes hash cs a) by done. cbn zeta.
  rewrite convertBytecodeToBigInt_spec, bind_Ok by done.
  set (h := if decide (code = []) then 0 else _) in *.
  edestruct (InsertKA_source s m (account_key hash a SC_CODE) h) as (r1 & s1 & d1 & -> & _ & E1 & Hs1);
    [done|apply hash_wf|exact HU1|]. rewrite !bind_Ok, E1, !bind_Ok.
  edestruct (InsertKA_source (with_Db s1 d1) (map_set m (account_key hash a SC_CODE) (ScalarToArrayBig h))
    (account_key hash a SC_LENGTH) (Z.of_nat (length (code_bytes code)))) as (r2 & s2 & d2 & -> & Er & E2 & Hs2);
    [exact Hs1|apply hash_wf|exact HU2|]. rewrite !bind_Ok, E2, bind_Ok.
  eexists. split; [done|exact Hs2].
Qed.
End Fields.

(** * Theorems *)


Definition sample_keccak (x : list byte) : list byte := BytesToHash (rev x).

(** An account that is set, one that is deleted, a code and three slots, one of
    them cleared. *)
Definition sample_accs : list (list byte * option Account) :=
  [(replicate 20 x01, Some (mkAccount 3 1000000007)); (replicate 20 x02, None)].
Definition sample_codes : list (list byte * list ascii) :=
  [(replicate 20 x01, ascii_list "0x60806040aB")].
Definition sample_stos : list (list byte * list (string * string)) :=
  [(replicate 20 x01, [("0x01", "0xff"); ("2", "0x0")]); (replicate 20 x03, [("0xAA", "17")])].


(** C26. The store knows where every key comes from: after SetStorage the record
    of a field that is not zero decodes to its type, its address and its storage
    position, fields that are zero have no record, and the records of all other
    keys are the old ones; the batch insertion that follows keeps them. *)
Theorem SetStorage_key_sources {D : Type} {SD : SmtDB D} {SL : SmtDBLaws D} {SS : SmtDBSources D}
    keccak hash prefix cpuNum order (s : SMT D) m accs codes stos :
  let cs := block_changes hash accs codes stos in
  (∀ b, length (keccak b) = 32%nat) → (∀ i c, nk_wf (hash i c)) → (∀ X, order X ≡ₚ elements X) → (0 < cpuNum)%nat →
  smt_holds hash s m → block_ok accs codes stos → cs ≠ [] → NoDup (ch_key <$> cs) → unshared hash m →
  hash_good hash (map_nodes hash m ++ map_nodes hash (map_sets m (updates cs))) →
  batch_ok hash m m (last_entries (updates cs)) →
  ∃ ks vs s', SetStorage keccak hash (λ _, false) prefix cpuNum order s accs codes stos = Ok (ks, vs, s') ∧
    (∀ c, c ∈ cs → if ch_value c =? 0 then db_GetKeySource (smtDb s') (ch_key c) = Err "key not found"
       else (ks ← db_GetKeySource (smtDb s') (ch_key c); DecodeKeySource ks) = Ok (ch_type c, ch_addr c, ch_position c)) ∧
    (∀ k, nk_wf k → k ∉ ch_key <$> cs → db_GetKeySource (smtDb s') k = db_GetKeySource (smtDb s) k).
Proof.
  intros cs Hkl Hh Ho Hcpu Hs Hok Hne Hnd Hun HU Hb.
  destruct (SetStorage_spec keccak Hkl hash Hh prefix cpuNum order s m accs codes stos) as (s' & E & _ & Hsrc); [done..|].
  do 3 eexists. split_and!; [exact E| |].
  - intros c Hc. pose proof (block_changes_keys hash Hh accs codes stos) as Hk. rewrite Forall_forall in Hk.
    rewrite Hsrc, sources_lookup by (done || by apply Hk). destruct (ch_value c =? 0); [done|]. rewrite bind_Ok.
    pose proof (block_changes_fields hash accs codes stos Hok) as Hf. rewrite Forall_forall in Hf.
    destruct (Hf c Hc) as (Ht & Hl1 & Hl2 & Hz). unfold ch_source. rewrite DecodeKeySource_EncodeKeySource by done.
    destruct (ch_type c =? SC_STORAGE); [done|]. by rewrite Hz.
  - intros k Hk Hin. by rewrite Hsrc, sources_other.
Qed.

Lemma SetStorage_key_sources_witness :
  let cs := block_changes sample_hash sample_accs sample_codes sample_stos in
  ∃ ks vs s', SetStorage sample_keccak sample_hash (λ _, false) "stage" 2 elements sample_smt2 sample_accs sample_codes sample_stos =
      Ok (ks, vs, s') ∧
    (∀ c, c ∈ cs → if ch_value c =? 0 then db_GetKeySource (smtDb s') (ch_key c) = Err "key not found"
       else (ks ← db_GetKeySource (smtDb s') (ch_key c); DecodeKeySource ks) = Ok (ch_type c, ch_addr c, ch_position c)) ∧
    (∀ k, nk_wf k → k ∉ ch_key <$> cs → db_GetKeySource (smtDb s') k = db_GetKeySource (smtDb sample_smt2) k).
Proof.
  apply (SetStorage_key_sources sample_keccak sample_hash "stage" 2 elements sample_smt2 sample_map2).
  - intros b. apply length_set_bytes.
  - apply sample_hash_wf.
  - done.
  - lia.
  - apply sample_smt2_holds.
  - apply (bool_decide_unpack _). vm_compute. exact I.
  - done.
  - apply (bool_decide_unpack _). vm_compute. exact I.
  - apply (bool_decide_unpack _). vm_compute. exact I.
  - apply (bool_decide_unpack _). vm_compute. exact I.
  - apply (@bool_decide_unpack _ (batch_ok_dec _ _ _ _)). vm_compute. exact I.
Defined.


Definition sample_stos' : list (list byte * list (string * string)) :=
  [(replicate 20 x03, [("0xAA", "17")]); (replicate 20 x01, [("2", "0x0"); ("0x01", "0xff")])].


(** SetContractStorage updates the map by all slots of the contract and
    returns the new root, whether the hashes of the values are computed by one
    loop or, for more than 100 slots, by any number of goroutines into arrays of
    their own, and whatever the orders of the two iterations over the map. *)
Theorem SetContractStorage_refines {D : Type} {SD : SmtDB D} {SL : SmtDBLaws D}
    hash cpuNum (s : SMT D) m cs a storage storageKeys iteration :
  (∀ i c, nk_wf (hash i c)) → (0 < cpuNum)%nat → smt_holds hash s m → digits cs (bytes_digits a) →
  storageKeys ≡ₚ (map_to_list storage).*1 → iteration ≡ₚ (map_to_list storage).*1 →
  Forall (λ k, number_ok k ∧ number_ok (default EmptyString (storage !! k))) iteration →
  steps_good hash m (slots hash a storage iteration) →
  ∃ s', SetContractStorage hash cpuNum s (ascii_string (prefix0x ++ cs)) storage storageKeys iteration =
      Ok (NodeKey_ToBigInt (map_root hash (map_sets m (slots hash a storage iteration))), s') ∧
    smt_holds hash s' (map_sets m (slots hash a storage iteration)).
Proof.
  intros Hh Hcpu Hs Hcs Hk Hi Hok Hg. assert (storageKeys ≡ₚ iteration) as Hp by (by rewrite Hk, Hi).
  destruct (fill_spec hash Hh cpuNum storage storageKeys Hcpu) as (r & Ep & Es & Hr).
  { rewrite Hp. eapply Forall_impl; [exact Hok|]. intros k [H1 H2]. split; [done|by right]. }
  destruct (InsertStorage_spec hash Hh cs a storage storageKeys r iteration s m) as (smtr & s' & E & Hroot & Hs');
    [done|done|done|intros k; by rewrite Hp|done|done|].
  unfold SetContractStorage. destruct r as [chm vhm].
  destruct (100 <? size storage)%nat; rewrite ?Ep, ?Es, bind_Ok; cbn [fst snd] in E; rewrite E, bind_Ok, Hroot; by exists s'.
Qed.

Definition sample_storage : gmap string string := {["0x10" := "0xabcdef"; "7" := "12345678901234567890"; "0x2" := "0x00"]}.

(** The text of an address with letters of both cases. *)
Definition sample_text : list ascii := ascii_list "aBABababababababababababababababababABAb".

Lemma SetContractStorage_refines_witness :
  let ks := (map_to_list sample_storage).*1 in
  ∃ s', SetContractStorage sample_hash 3 sample_smt2 (ascii_string (prefix0x ++ sample_text)) sample_storage (rev ks) ks =
      Ok (NodeKey_ToBigInt (map_root sample_hash (map_sets sample_map2 (slots sample_hash (replicate 20 xab) sample_storage ks))), s') ∧
    smt_holds sample_hash s' (map_sets sample_map2 (slots sample_hash (replicate 20 xab) sample_storage ks)).
Proof.
  apply (SetContractStorage_refines sample_hash 3 sample_smt2 sample_map2 sample_text).
  - apply sample_hash_wf.
  - lia.
  - apply sample_smt2_holds.
  - vm_compute. reflexivity.
  - symmetry. apply Permutation_rev.
  - done.
  - apply (bool_decide_unpack _). vm_compute. exact I.
  - apply (bool_decide_unpack _). vm_compute. exact I.
Defined.

(** A slot with an empty value is skipped when the hashes are computed but not
    when the slots are inserted: SetContractStorage panics on it, in both ways to
    compute the hashes. *)
Theorem SetContractStorage_empty_value_panics {D : Type} {SD : SmtDB D} {SL : SmtDBLaws D}
    hash cpuNum (s : SMT D) m cs a storage storageKeys ks k rest :
  (∀ i c, nk_wf (hash i c)) → (0 < cpuNum)%nat → smt_holds hash s m → digits cs (bytes_digits a) →
  storageKeys ≡ₚ ks ++ k :: rest → storage !! k = Some EmptyString →
  Forall (λ k, number_ok k ∧ value_ok (default EmptyString (storage !! k))) storageKeys →
  Forall (λ k, number_ok (default EmptyString (storage !! k))) ks → steps_good hash m (slots hash a storage ks) →
  SetContractStorage hash cpuNum s (ascii_string (prefix0x ++ cs)) storage storageKeys (ks ++ k :: rest) = Panic.
Proof.
  intros Hh Hcpu Hs Hcs Hp Ek Hok Hks Hg.
  destruct (fill_spec hash Hh cpuNum storage storageKeys Hcpu Hok) as ([chm vhm] & Ep & Es & Hr).
  rewrite Hp, Forall_app, Forall_cons in Hok. destruct Hok as (Hok & [Hk _] & _).
  assert (InsertStorage hash s (ascii_string (prefix0x ++ cs)) (ks ++ k :: rest) chm vhm = Panic) as E.
  { apply (InsertStorage_panics hash Hh cs a storage storageKeys (chm, vhm) ks k rest s m); [done|done|done| | |done|done|by rewrite Ek].
    - intros x Hx. rewrite Hp. set_solver.
    - rewrite Forall_forall in Hok, Hks |- *. intros x Hx. split; [by apply Hok|by apply Hks]. }
  unfold SetContractStorage. destruct (100 <? size storage)%nat; rewrite ?Ep, ?Es, bind_Ok, E; done.
Qed.

Lemma SetContractStorage_empty_value_panics_witness :
  SetContractStorage sample_hash 3 sample_smt2 (ascii_string (prefix0x ++ sample_text))
    {["0x10" := "0xabcdef"; "7" := EmptyString]} ["7"; "0x10"] ["0x10"; "7"] = Panic.
Proof.
  apply (SetContractStorage_empty_value_panics sample_hash 3 sample_smt2 sample_map2 sample_text (replicate 20 xab) _ _ ["0x10"] "7" []).
  - apply sample_hash_wf.
  - lia.
  - apply sample_smt2_holds.
  - vm_compute. reflexivity.
  - apply Permutation_swap.
  - done.
  - apply (bool_decide_unpack _). vm_compute. exact I.
  - apply (bool_decide_unpack _). vm_compute. exact I.
  - apply (bool_decide_unpack _). vm_compute. exact I.
Defined.

(** Setting an account and its code by single insertions and setting them as
    the changes of a block end with the same root, also on different stores. *)
Theorem SetStorage_agrees_with_setters {D1 D2 : Type} {SD1 : SmtDB D1} {SL1 : SmtDBLaws D1} {SS1 : SmtDBSources D1}
    {SD2 : SmtDB D2} {SL2 : SmtDBLaws D2} keccak hash prefix cpuNum order (s1 : SMT D1) (s2 : SMT D2) m a acc code :
  let cs := block_changes hash [(a, acc)] [(a, code)] [] in
  (∀ b, length (keccak b) = 32%nat) → (∀ i c, nk_wf (hash i c)) → (∀ X, order X ≡ₚ elements X) → (0 < cpuNum)%nat →
  smt_holds hash s1 m → smt_holds hash s2 m → block_ok [(a, acc)] [(a, code)] [] → unshared hash m →
  hash_good hash (map_nodes hash m ++ map_nodes hash (map_sets m (updates cs))) →
  batch_ok hash m m (last_entries (updates cs)) → steps_good hash m (updates cs) →
  ∃ r s1' s2' root, SetStorage keccak hash (λ _, false) prefix cpuNum order s1 [(a, acc)] [(a, code)] [] = Ok (r, s1') ∧
    (s ← SetAccountStorage keccak hash s2 a acc;
     ethAddr ← ascii_string <$> Address_Hex keccak a;
     SetContractBytecode hash s ethAddr code) = Ok s2' ∧
    db_GetLastRoot (smtDb s1') = Ok root ∧ db_GetLastRoot (smtDb s2') = Ok root.
Proof.
  intros cs Hkl Hh Ho Hcpu Hs1 Hs2 Hok Hun HU Hb Hg. pose proof Hok as (Ha & Hc & _).
  apply Forall_cons_1 in Ha as [Ha _]. apply Forall_cons_1 in Hc as [Hc _].
  destruct (SetStorage_spec keccak Hkl hash Hh prefix cpuNum order s1 m [(a, acc)] [(a, code)] [])
    as (s1' & E1 & [_ _ Hr1 _ _] & _); [done..|].
  change (updates cs) with (updates (account_changes hash (a, acc)) ++ updates (code_changes hash (a, code))) in *.
  apply steps_good_app in Hg as [Hg1 Hg2].
  destruct (SetAccountStorage_spec keccak Hkl hash Hh s2 m (a, acc)) as (s3 & E3 & Hs3); [done..|].
  cbn [fst snd] in E3. rewrite E3, bind_Ok.
  destruct (Address_Hex_spec keccak Hkl a) as (ts & -> & Hts); [apply Ha|]. rewrite fmap_Ok, bind_Ok.
  destruct (SetContractBytecode_spec hash Hh ts s3 _ (a, code) Hts Hs3) as (s4 & E4 & [_ _ Hr4 _ _]); [apply Hc|done|].
  do 4 eexists. split_and!; [exact E1|exact E4|exact Hr1|]. rewrite Hr4.
  change (updates (block_changes hash [(a, acc)] [(a, code)] [])) with
    (updates (account_changes hash (a, acc)) ++ updates (code_changes hash (a, code))).
  unfold map_sets. by rewrite foldl_app.
Qed.

Lemma SetStorage_agrees_with_setters_witness :
  ∃ r s1' s2' root,
    SetStorage sample_keccak sample_hash (λ _, false) "stage" 2 elements sample_smt2 [(replicate 20 x01, Some (mkAccount 3 1000000007))]
      [(replicate 20 x01, ascii_list "0x60806040aB")] [] = Ok (r, s1') ∧
    (s ← SetAccountStorage sample_keccak sample_hash sample_smt2 (replicate 20 x01) (Some (mkAccount 3 1000000007));
     ethAddr ← ascii_string <$> Address_Hex sample_keccak (replicate 20 x01);
     SetContractBytecode sample_hash s ethAddr (ascii_list "0x60806040aB")) = Ok s2' ∧
    db_GetLastRoot (smtDb s1') = Ok root ∧ db_GetLastRoot (smtDb s2') = Ok root.
Proof.
  apply (SetStorage_agrees_with_setters sample_keccak sample_hash "stage" 2 elements sample_smt2 sample_smt2 sample_map2).
  - intros b. apply length_set_bytes.
  - apply sample_hash_wf.
  - done.
  - lia.
  - apply sample_smt2_holds.
  - apply sample_smt2_holds.
  - apply (bool_decide_unpack _). vm_compute. exact I.
  - apply (bool_decide_unpack _). vm_compute. exact I.
  - apply (bool_decide_unpack _). vm_compute. exact I.
  - apply (@bool_decide_unpack _ (batch_ok_dec _ _ _ _)). vm_compute. exact I.
  - apply (bool_decide_unpack _). vm_compute. exact I.
Defined.
