(* ===== verification/SmtReader.v ===== *)
(** Reading accounts from the state tree (src/smt/pkg/smt/smt_state_reader.go), the
    code tables of the stores (AddCode and GetCode of src/smt/pkg/db), and
    GetNodeAtPath of smt_utils.go.

    A field of an account is read by a traversal that follows the path of its key.
    The code of a contract is stored beside the tree under its hash: the memory
    store keeps it under the text of the hash, the mdbx store in the table Code of
    the chain database under its bytes. *)

From S2P Require Import Prelude Bytes SmtUtils SmtKeys SmtDb Smt SmtProof ContractHash TxHash EntityStorage.
From Stdlib Require Import Strings.Byte.

Local Open Scope Z_scope.

(** * The traversal to one key *)

(** [libcommon.Hash.String] *)
Definition Hash_String (h : list byte) : string := ascii_string (prefix0x ++ EncodeToString h).

(** [uint256.Int.SetBytes] *)
Definition uint256_SetBytes (b : list byte) : Z := be_val b mod 2 ^ 256.

(** The fields of accounts.Account that ReadAccountData fills. *)
Record readAccount := mkRead { ra_Nonce : Z; ra_Balance : Z; ra_CodeHash : list byte; ra_Root : list byte }.

Section Reader.
Context (keccak : list byte → list byte).
Context (hash : list Z → NodeKey → NodeKey).
Context {D : Type} {SD : SmtDB D}.

(** The closure action of getValueInBytes; its state is the variable value. *)
Definition read_action (d : D) (keyPathBytes : list byte) (value : list byte) (prefix : list byte) (k : NodeKey)
    (v : NodeValue12) : outcome (list byte * bool) :=
  if negb (bool_decide (prefix `prefix_of` keyPathBytes)) then Ok (value, false)
  else if IsFinalNode v then
    v ← db_Get d (quarter v 1);
    z ← ArrayBigToScalar (GetNodeValue8 v);
    Ok (big_bytes z, false)
  else Ok (value, true).

(** context.Background() is never done. *)
Definition getValueInBytes (fuel : nat) (s : SMT D) (nodeKey : NodeKey) : option (outcome (list byte)) :=
  match db_GetLastRoot (smtDb s) with
  | Err e => Some (Err e)
  | Panic => Some Panic
  | Ok root => traverse (read_action (smtDb s) (key_path nodeKey)) (λ _, false) fuel (smtDb s) [] root []
  end.

Definition getValue (fuel : nat) (s : SMT D) (key : Z) (address : list byte) (storageKey : option (list byte))
    : option (outcome (list byte)) :=
  match ascii_string <$> Address_Hex keccak address with
  | Err e => Some (Err e)
  | Panic => Some Panic
  | Ok ethAddr =>
      match storageKey with
      | None => getValueInBytes fuel s (Key hash ethAddr key)
      | Some storageKey =>
          let a := ConvertHexToBigInt ethAddr in
          let add := ScalarToArrayBig a in
          match KeyContractStorage hash add (Hash_String storageKey) with
          | Ok kn => getValueInBytes fuel s kn
          | Err e => Some (Err e)
          | Panic => Some Panic
          end
      end
  end.

(** A reader that may run out of fuel, then a function of the bytes. *)
Definition then_read {A B} (m : option (outcome A)) (f : A → option (outcome B)) : option (outcome B) :=
  match m with
  | None => None
  | Some (Ok a) => f a
  | Some (Err e) => Some (Err e)
  | Some Panic => Some Panic
  end.

Definition GetAccountBalance (fuel : nat) (s : SMT D) (address : list byte) : option (outcome Z) :=
  then_read (getValue fuel s KEY_BALANCE address None) (λ valueInBytes, Some (Ok (uint256_SetBytes valueInBytes))).

Definition GetAccountNonce (fuel : nat) (s : SMT D) (address : list byte) : option (outcome Z) :=
  then_read (getValue fuel s KEY_NONCE address None) (λ valueInBytes, Some (Ok (uint256_SetBytes valueInBytes))).

Definition GetAccountCodeHash (fuel : nat) (s : SMT D) (address : list byte) : option (outcome (list byte)) :=
  then_read (getValue fuel s SC_CODE address None) (λ valueInBytes, Some (Ok (BytesToHash valueInBytes))).

Definition ReadAccountData (fuel : nat) (s : SMT D) (address : list byte) : option (outcome readAccount) :=
  then_read (GetAccountBalance fuel s address) (λ balance,
  then_read (GetAccountNonce fuel s address) (λ nonce,
  then_read (GetAccountCodeHash fuel s address) (λ codeHash,
    Some (Ok (mkRead (u64 nonce) balance codeHash (replicate 32 x00)))))).

Definition ReadAccountStorage (fuel : nat) (s : SMT D) (address : list byte) (key : list byte) : option (outcome (list byte)) :=
  getValue fuel s 0 address (Some key).

(** [int(^uint(0) >> 1)] is the largest int64. *)
Definition ReadAccountCodeSize (fuel : nat) (s : SMT D) (address : list byte) : option (outcome Z) :=
  then_read (getValue fuel s SC_LENGTH address None) (λ valueInBytes,
    let sizeBig := be_val valueInBytes in
    if negb (sizeBig <? 2 ^ 63) then Some (Err "code size value is too large to fit into an int")
    else if 2 ^ 63 - 1 <? sizeBig then Some (Err "code size value overflows int")
    else Some (Ok sizeBig)).

Definition ReadAccountIncarnation (s : SMT D) (address : list byte) : outcome Z :=
  Err "ReadAccountIncarnation not implemented for SMT".

(** * GetNodeAtPath *)

(** The loop from the level [level] on; the first component is the variable sl. *)
Fixpoint node_path_loop (d : D) (pathLen level : nat) (oldRoot : NodeKey) (sl : NodeValue12) (path : list Z)
    : outcome (option NodeValue12) :=
  match path with
  | [] => Ok (Some sl)
  | pathByte :: path =>
      sl ← db_Get d oldRoot;
      if IsFinalNode sl then
        let foundRKey := quarter sl 0 in
        first ← go_index (GetPath foundRKey) 0;
        if (level <? pathLen - 1)%nat || negb (first =? pathByte) then Ok None else Ok (Some sl)
      else
        if (pathByte <? 0) || (2 <? pathByte) then Panic
        else
          let oldRoot := quarter sl (Z.to_nat pathByte) in
          if NodeKey_IsZero oldRoot then Ok None else node_path_loop d pathLen (S level) oldRoot sl path
  end.

Definition GetNodeAtPath (s : SMT D) (path : list Z) : outcome (option NodeValue12) :=
  match path with
  | [] => Err "search path is empty"
  | _ =>
      match getLastRoot (smtDb s) with
      | Ok oldRoot => node_path_loop (smtDb s) (length path) 0 oldRoot (replicate 12 None) path
      | Err e => Err (String.append "getLastRoot: " e)
      | Panic => Panic
      end
  end.
End Reader.

(** * Code *)

Definition ResizeHashTo32BytesByPrefixingWithZeroes (hashValue : list byte) : list byte :=
  replicate (32 - length hashValue) x00 ++ hashValue.

Section Code.
Context (hash : list Z → NodeKey → NodeKey).

Definition HashContractBytecode (bc : list ascii) : outcome string :=
  ConvertBigIntToHex <$> HashContractBytecodeBigInt hash bc.

Definition MemDb_GetCode (m : MemDb) (codeHash : list byte) : outcome (list byte) :=
  let codeHash := ResizeHashTo32BytesByPrefixingWithZeroes codeHash in
  match DbCode m !! ascii_string (prefix0x ++ EncodeToString codeHash) with
  | None => Err "key not found"
  | Some s => Ok s
  end.

Definition MemDb_AddCode (m : MemDb) (code : list byte) : outcome MemDb :=
  codeHash ← HashContractBytecode (EncodeToString code);
  Ok (mkMemDb (Db m) (DbAccVal m) (DbKeySource m) (DbHashKey m) (<[codeHash := code]> (DbCode m))
        (LastRoot m) (Depth m) (LastHeight m)).

(** [hex.DecodeString] *)
Definition hex_DecodeString (cs : list ascii) : outcome (list byte) :=
  match mapM hex_val cs with
  | None => Err "encoding/hex: invalid byte"
  | Some ds => if Nat.odd (length cs) then Err "encoding/hex: odd length hex string" else Ok (zb <$> pair_up ds)
  end.

Definition TableCode : string := "Code".

Context {T : Type} `{KVTx T}.

(** The code is in the chain database, a transaction of its own. *)
Definition EriDb_GetCode (chainDB : T) (codeHash : list byte) : outcome (list byte) :=
  let codeHash := ResizeHashTo32BytesByPrefixingWithZeroes codeHash in
  data ← kv_GetOne chainDB TableCode codeHash;
  match data with
  | None => Err "code hash not found"
  | Some data => Ok data
  end.

Definition EriDb_AddCode (chainDB : T) (code : list byte) : outcome T :=
  codeHash ← HashContractBytecode (EncodeToString code);
  codeHashBytes ← hex_DecodeString (trim0x (ascii_list codeHash));
  kv_Put chainDB TableCode (ResizeHashTo32BytesByPrefixingWithZeroes codeHashBytes) code.
End Code.
