(* ===== verification/SmtReaderSpec.v ===== *)
(** What the readers of the state tree return.

    The traversal to a key ends at the leaf on its path ([tleaf]), and
    getValueInBytes returns the value of that leaf without comparing keys: right
    for a key that is in the tree, and the value of another key for one that is
    not.  What a block sets can be read back ([SetStorage_read_back]), a zero only
    where no other key answers for it. *)

From S2P Require Import Prelude Bytes SmtUtils SmtKeys SmtDb SmtTree Smt SmtInsert SmtRefine SmtProof.
From S2P Require Import SmtBatch SmtBatchEntries SmtBatchSpec SmtBatchRefine SmtSources ContractHash ContractHashSpec TxHash TxHashSpec.
From S2P Require Import EntityStorage EntityStorageSpec SmtReader.
From Stdlib Require Import Strings.Byte.

Local Open Scope Z_scope.
#[local] Set Warnings "-clear-no-such-hyp".
#[local] Opaque GetPath RemoveKeyBits JoinKey.

(** * The leaf on a path *)

Fixpoint tleaf (n : nat) (t : tree) (k : NodeKey) : option (NodeKey * list Z) :=
  match t with
  | Empty => None
  | Leaf k' v => Some (k', v)
  | Branch l r => if keybit k n then tleaf (S n) r k else tleaf (S n) l k
  end.

Lemma tleaf_tget n t k : tget n t k = match tleaf n t k with Some (k', v) => if decide (k = k') then Some v else None | None => None end.
Proof. revert n. induction t as [|k' v|l IHl r IHr]; intros n; cbn [tget tleaf]; [done..|]. by destruct (keybit k n). Qed.

Section Read.
Context (hash : list Z → NodeKey → NodeKey).
Context (hash_wf : ∀ i c, nk_wf (hash i c)).
Context {D : Type} {SD : SmtDB D}.

Abbreviation tree_nodes := (tree_nodes hash).
Abbreviation tvisit := (tvisit hash).

Lemma read_action_off d path value p x v : ¬ p `prefix_of` path → read_action d path value p x v = Ok (value, false).
Proof. intros Hp. unfold read_action. by rewrite bool_decide_false. Qed.

Lemma read_off d k t : ∀ n p value,
  ¬ p `prefix_of` key_path k → tvisit (read_action d (key_path k)) value n p t = Ok value.
Proof. destruct t as [|k' v|l r]; intros n p value Hp; simpl tvisit; [done|..]; by rewrite read_action_off. Qed.

Lemma read_branch d path p value x a b :
  p `prefix_of` path → read_action d path value p x (node_of (branch_pre a b)) = Ok (value, true).
Proof. intros Hp. unfold read_action. by rewrite bool_decide_true, IsFinalNode_branch. Qed.

Lemma read_leaf d k n k' v value p :
  p `prefix_of` key_path k → nk_wf k' → val_ok v → stored hash d (tree_nodes n (Leaf k' v)) →
  read_action d (key_path k) value p (thash hash n (Leaf k' v)) (node_of (leaf_pre hash n k' v)) = Ok (value_bytes v, false).
Proof.
  intros Hp Hk (Hl & Hw & _) Hst. unfold read_action. rewrite bool_decide_true by done. cbn [negb].
  destruct (quarter_node (RemoveKeyBits k' (Z.of_nat n)) (phash hash (val_pre v)) LeafCapacity)
    as (_ & E1 & _ & _); [by apply RemoveKeyBits_wf|apply hash_wf|apply LeafCapacity_wf|].
  rewrite IsFinalNode_leaf. unfold leaf_pre. rewrite E1, (stored_elem hash d _ (val_pre v) Hst) by by left. rewrite bind_Ok.
  assert (GetNodeValue8 (node_of (val_pre v)) = Some <$> v) as ->.
  { unfold GetNodeValue8, node_of, ConcatArrays8AndCapacityByPointers. apply take_app_length'. by rewrite length_fmap. }
  unfold ArrayBigToScalar. by rewrite arrayToScalar_shift_value, bind_Ok by lia.
Qed.

Lemma read_on d k t : ∀ n q value,
  tree_ok q t → length q = n → stored hash d (tree_nodes n t) →
  tvisit (read_action d (key_path k)) value n (take n (key_path k)) t =
    Ok (match tleaf n t k with Some (_, v) => value_bytes v | None => value end).
Proof.
  induction t as [|k' v|l IHl r IHr]; intros n q value Hok Hn Hst; simpl tvisit; cbn [tleaf]; [done|..].
  - destruct Hok as (Hk & _ & Hv). by rewrite (read_leaf d k n k' v) by (done || apply prefix_take).
  - destruct Hok as (Hlt & _ & Hl & Hr). apply Forall_cons in Hst as [_ [Hsl Hsr]%stored_app]. rewrite Hn in Hlt.
    rewrite read_branch, bind_Ok by apply prefix_take.
    assert (take (S n) (key_path k) = take n (key_path k) ++ [if keybit k n then x01 else x00]) as Hsnoc.
    { apply take_S_r. by apply lookup_key_path. }
    destruct (keybit k n) eqn:Eb; rewrite <-Hsnoc.
    + rewrite read_off, bind_Ok by (rewrite key_path_prefix_snoc, Eb; done).
      apply (IHr _ (q ++ [true])); [done|rewrite length_snoc; lia|done].
    + rewrite (IHl _ (q ++ [false])), bind_Ok by (try done; rewrite length_snoc; lia).
      apply read_off. by rewrite key_path_prefix_snoc, Eb.
Qed.

Lemma getValueInBytes_spec (s : SMT D) m k fuel :
  smt_holds hash s m → hash_good hash (map_nodes hash m) → (tsize (map_tree m) ≤ fuel)%nat →
  getValueInBytes fuel s k = Some (Ok (match tleaf 0 (map_tree m) k with Some (_, v) => value_bytes v | None => [] end)).
Proof.
  intros [Hwf _ Hr Hst _] HU Hf. destruct (map_tree_spec m Hwf) as [Hok _]. unfold getValueInBytes. rewrite Hr.
  unfold map_root. rewrite (traverse_spec hash hash_wf) by done. f_equal.
  rewrite <-(read_on (smtDb s) k (map_tree m) 0 [] []) by done. done.
Qed.

Lemma getValueInBytes_present (s : SMT D) m k v fuel :
  smt_holds hash s m → hash_good hash (map_nodes hash m) → (tsize (map_tree m) ≤ fuel)%nat → nk_wf k → m !! k = Some v →
  getValueInBytes fuel s k = Some (Ok (value_bytes v)).
Proof.
  intros Hs HU Hf Hk Hv. rewrite (getValueInBytes_spec s m) by done. destruct (map_tree_spec m) as [_ Hmod]; [apply Hs|].
  rewrite <-Hmod, tleaf_tget in Hv by done. destruct (tleaf 0 (map_tree m) k) as [[k' v']|]; [|done]. case_decide; by simplify_eq.
Qed.
End Read.

(** * Reading back a block *)

Lemma value_bytes_scalar z : u256 z → value_bytes (ScalarToArrayBig z) = big_bytes z.
Proof. intros Hz. unfold value_bytes. by rewrite ScalarToArrayBig_digits, le_value_digits_small. Qed.

Lemma SetBytes_big_bytes z : u256 z → uint256_SetBytes (big_bytes z) = z.
Proof. intros Hz. unfold uint256_SetBytes. rewrite be_val_big_bytes by apply Hz. by apply Z.mod_small. Qed.

Lemma SetString_digits cs ds : digits cs ds → ds ≠ [] → SetString cs 16 = Some (be_value 16 ds).
Proof.
  intros H Hne. assert (mapM (digit_val 16) cs = Some ds) as E.
  { rewrite mapM_Some in H |- *. eapply Forall2_impl; [exact H|]. intros c d Hc. unfold digit_val. rewrite Hc.
    destruct (Z.ltb_spec d 16); [done|]. apply hex_val_range in Hc. lia. }
  unfold SetString. destruct cs as [|c cs]; [by injection H as <-|]. rewrite mapM_Some in H.
  apply Forall2_cons_inv_l in H as (d & ds' & Hc & _ & _).
  do 2 (rewrite bool_decide_false by (intros ->; done)). by rewrite E.
Qed.

Lemma StrValToBigInt_hash h : h ≠ [] → StrValToBigInt (Hash_String h) = Some (be_val h).
Proof.
  intros Hne. unfold StrValToBigInt, Hash_String, prefix0x. rewrite String.list_ascii_of_string_of_list_ascii.
  cbn [app]. change (has_prefix0x _) with true. cbn [drop]. rewrite drop_0.
  rewrite (SetString_digits _ _ (digits_EncodeToString h)) by (by destruct h).
  rewrite <-be_value_pair_up, pair_up_bytes, be_value_bytes; [done|]. rewrite length_bytes_digits. apply Nat.even_even.
Qed.

Lemma be_val_BigToHash z : u256 z → be_val (BigToHash z) = z.
Proof. intros Hz. unfold BigToHash, BytesToHash. rewrite set_bytes_big_bytes, be_val_bytes by done. by apply Z.mod_small. Qed.

Lemma length_BigToHash z : length (BigToHash z) = 32%nat.
Proof. apply length_set_bytes. Qed.

Lemma BigToHash_not_nil z : BigToHash z ≠ [].
Proof. intros E. pose proof (length_BigToHash z) as H. by rewrite E in H. Qed.

Section Block.
Context (keccak : list byte → list byte).
Context (keccak_len : ∀ b, length (keccak b) = 32%nat).
Context (hash : list Z → NodeKey → NodeKey).
Context (hash_wf : ∀ i c, nk_wf (hash i c)).
Context {D : Type} {SD : SmtDB D}.

Lemma getValue_field fuel (s : SMT D) t a :
  length a = 20%nat → is_u64 t → getValue keccak hash fuel s t a None = getValueInBytes fuel s (account_key hash a t).
Proof.
  intros Ha Ht. unfold getValue. destruct (Address_Hex_spec keccak keccak_len a Ha) as (cs & -> & Hcs).
  rewrite fmap_Ok. by rewrite (Key_bytes hash cs a).
Qed.

Lemma getValue_slot fuel (s : SMT D) a h :
  length a = 20%nat → h ≠ [] → getValue keccak hash fuel s 0 a (Some h) = getValueInBytes fuel s (slot_key hash a (be_val h)).
Proof.
  intros Ha Hh. unfold getValue. destruct (Address_Hex_spec keccak keccak_len a Ha) as (cs & -> & Hcs).
  rewrite fmap_Ok. cbn zeta. rewrite (ConvertHexToBigInt_bytes _ _ Hcs).
  by rewrite (KeyContractStorage_bytes hash a _ _ (StrValToBigInt_hash h Hh)).
Qed.

(** The path of the key does not end at the leaf of another key, or the value is not
    zero, so that the key has a leaf of its own. *)
Definition readable (m : gmap NodeKey (list Z)) (k : NodeKey) (v : Z) : Prop := v ≠ 0 ∨ tleaf 0 (map_tree m) k = None.

(** A field that a block sets, read after the block. *)
Lemma read_change fuel (s : SMT D) m cs c :
  smt_holds hash s (map_sets m (updates cs)) → hash_good hash (map_nodes hash (map_sets m (updates cs))) →
  (tsize (map_tree (map_sets m (updates cs))) ≤ fuel)%nat →
  NoDup (ch_key <$> cs) → Forall (λ c, nk_wf (ch_key c)) cs → c ∈ cs → u256 (ch_value c) →
  readable (map_sets m (updates cs)) (ch_key c) (ch_value c) →
  getValueInBytes fuel s (ch_key c) = Some (Ok (big_bytes (ch_value c))).
Proof.
  intros Hs HU Hf Hnd Hwf Hc Hu Hr. destruct (decide (ch_value c = 0)) as [Hz|Hz].
  { destruct Hr as [Hr|Hr]; [done|]. by rewrite (getValueInBytes_spec hash hash_wf s (map_sets m (updates cs))), Hr, Hz. }
  rewrite <-value_bytes_scalar by done.
  apply (getValueInBytes_present hash hash_wf s (map_sets m (updates cs))); [done..|by apply (proj1 (Forall_forall _ _) Hwf)|].
  erewrite map_sets_lookup; [|by unfold updates; rewrite <-list_fmap_compose|by apply (list_elem_of_fmap_2 (λ c, (ch_key c, ScalarToArrayBig (ch_value c))))].
  rewrite decide_False; [done|]. intros E. apply Hz. rewrite <-(le_value_digits_small (2 ^ 32) 8 (ch_value c)) by done.
  by rewrite <-ScalarToArrayBig_digits, E, le_value_zeros.
Qed.

(** The readers of an account, given the fields in the tree. *)
Lemma read_back_account fuel (s : SMT D) m a acc :
  length a = 20%nat → u256 (Balance acc) ∧ is_u64 (Nonce acc) →
  (∀ t v, field hash a t v ∈ account_changes hash (a, Some acc) → u256 v → readable m (account_key hash a t) v →
    getValueInBytes fuel s (account_key hash a t) = Some (Ok (big_bytes v))) →
  (readable m (account_key hash a KEY_BALANCE) (Balance acc) → GetAccountBalance keccak hash fuel s a = Some (Ok (Balance acc))) ∧
  (readable m (account_key hash a KEY_NONCE) (Nonce acc) → GetAccountNonce keccak hash fuel s a = Some (Ok (Nonce acc))).
Proof.
  intros Hl [Hb Hn] Hfield. assert (u256 (Nonce acc)) as Hn' by (unfold u256, is_u64 in *; lia).
  unfold GetAccountBalance, GetAccountNonce. rewrite !getValue_field by done. split; intros Hz.
  - rewrite (Hfield KEY_BALANCE (Balance acc)) by (done || by left). cbn. by rewrite SetBytes_big_bytes.
  - rewrite (Hfield KEY_NONCE (Nonce acc)) by (done || by right; left). cbn. by rewrite SetBytes_big_bytes.
Qed.

Lemma read_back_code fuel (s : SMT D) m a code :
  length a = 20%nat → code ≠ [] →
  (∀ t v, field hash a t v ∈ code_changes hash (a, code) → u256 v → readable m (account_key hash a t) v →
    getValueInBytes fuel s (account_key hash a t) = Some (Ok (big_bytes v))) →
  let h := bytecode_hash hash (code_bytes code) in
  let n := Z.of_nat (length (code_bytes code)) in
  (readable m (account_key hash a SC_CODE) h → GetAccountCodeHash keccak hash fuel s a = Some (Ok (BigToHash h))) ∧
  (readable m (account_key hash a SC_LENGTH) n → n < 2 ^ 63 → ReadAccountCodeSize keccak hash fuel s a = Some (Ok n)).
Proof.
  intros Hl Hcode Hfield h n. unfold GetAccountCodeHash, ReadAccountCodeSize. rewrite !getValue_field by done.
  split; intros Hz.
  - rewrite (Hfield SC_CODE h); [done| |by apply bytecode_hash_u256|done].
    unfold code_changes. cbn [fst snd]. rewrite decide_False by done. by left.
  - intros Hn. assert (u256 n) as Hu by (unfold u256; lia).
    rewrite (Hfield SC_LENGTH n) by (done || by right; left). cbn [then_read].
    rewrite be_val_big_bytes by apply Hu. destruct (Z.ltb_spec n (2 ^ 63)); [|lia]. by destruct (Z.ltb_spec (2 ^ 63 - 1) n); [lia|].
Qed.
End Block.

Lemma elem_of_block_changes hash accs codes stos c :
  c ∈ block_changes hash accs codes stos ↔
    (∃ x, x ∈ accs ∧ c ∈ account_changes hash x) ∨ (∃ x, x ∈ codes ∧ c ∈ code_changes hash x) ∨
    (∃ x, x ∈ stos ∧ c ∈ storage_changes hash x).
Proof. unfold block_changes. by rewrite !elem_of_app, !elem_of_concat_fmap. Qed.

Lemma number_u256 v : number_ok v → u256 (number v).
Proof. unfold number_ok, number. by destruct (StrValToBigInt v). Qed.




(** C39. The readers do not compare keys.  A key that is not in the tree, whose path
    ends at the leaf of another key, reads as the value of that other key: an
    account that does not exist can have a nonce and a balance. *)
Theorem getValueInBytes_reads_other_key {D : Type} {SD : SmtDB D} hash (s : SMT D) m k k' v fuel :
  (∀ i c, nk_wf (hash i c)) → smt_holds hash s m → hash_good hash (map_nodes hash m) → (tsize (map_tree m) ≤ fuel)%nat →
  nk_wf k → tleaf 0 (map_tree m) k = Some (k', v) → k' ≠ k →
  m !! k = None ∧ getValueInBytes fuel s k = Some (Ok (value_bytes v)).
Proof.
  intros Hh Hs HU Hf Hk Et Hne. split.
  - destruct (map_tree_spec m) as [_ Hmod]; [apply Hs|]. by rewrite <-Hmod, tleaf_tget, Et, decide_False.
  - by rewrite (getValueInBytes_spec hash Hh s m), Et.
Qed.

(** The map has two keys, none of them of the account. *)
Lemma getValueInBytes_reads_other_key_witness :
  let k := account_key sample_hash (replicate 20 x07) KEY_NONCE in
  sample_map2 !! k = None ∧ ∃ v, v ≠ [] ∧ getValueInBytes 10 sample_smt2 k = Some (Ok v).
Proof.
  intros k. destruct (tleaf 0 (map_tree sample_map2) k) as [[k' v]|] eqn:E; [|by vm_compute in E].
  destruct (getValueInBytes_reads_other_key sample_hash sample_smt2 sample_map2 k k' v 10) as [H1 H2].
  - apply sample_hash_wf.
  - apply sample_smt2_holds.
  - apply (bool_decide_unpack _). vm_compute. exact I.
  - apply (bool_decide_unpack _). vm_compute. exact I.
  - apply sample_hash_wf.
  - exact E.
  - vm_compute in E. injection E as <- <-. intros H. vm_compute in H. discriminate H.
  - split; [exact H1|]. exists (value_bytes v). split; [|exact H2]. vm_compute in E. injection E as <- <-. intros H. vm_compute in H. discriminate H.
Defined.

(** * The code of contracts *)

Lemma pair_up_range ds : Forall (λ d, 0 ≤ d < 16) ds → Forall (λ d, 0 ≤ d < 256) (pair_up ds).
Proof.
  induction ds as [|a|a b ds IH] using pairs_ind; intros H; [constructor..|].
  apply Forall_cons in H as [Ha [Hb H]%Forall_cons]. constructor; [lia|by apply IH].
Qed.

Lemma be_val_zb l : Forall (λ d, 0 ≤ d < 256) l → be_val (zb <$> l) = be_value 256 l.
Proof. intros H. by rewrite <-be_value_bytes, bz_zb_digits. Qed.

Lemma EncodeToString_digits bs : EncodeToString bs = hex_char <$> bytes_digits bs.
Proof. unfold EncodeToString, bytes_digits. induction bs as [|b bs IH]; [done|]. cbn. by rewrite IH. Qed.

(** A hash as digits, padded and not. *)
Lemma bytes_digits_BigToHash h : u256 h → bytes_digits (BigToHash h) = fixed 64 h.
Proof.
  intros Hh. apply fixed_digits; [apply bytes_digits_range|by rewrite length_bytes_digits, length_BigToHash|].
  rewrite <-be_value_pair_up, pair_up_bytes, be_value_bytes; [by apply be_val_BigToHash|]. by rewrite length_bytes_digits, length_BigToHash.
Qed.

Lemma big_hex_digits h : 0 ≤ h → ∃ ds, big_hex h = hex_char <$> ds ∧ digits (big_hex h) ds ∧ be_value 16 ds = h.
Proof.
  intros Hh. unfold big_hex. destruct (Z.eqb_spec h 0) as [->|Hne]; [by exists [0]|].
  exists (rev (le_digits 16 (ndigits 4 h) h)). split_and!; [done| |].
  - apply mapM_hex_val_char, Forall_rev, le_digits_range. lia.
  - unfold be_value. rewrite rev_involutive. by apply (le_value_min_digits 4).
Qed.

Lemma length_big_hex h n : 0 ≤ h < 16 ^ Z.of_nat (S n) → (length (big_hex h) ≤ S n)%nat.
Proof.
  intros Hh. unfold big_hex. destruct (Z.eqb_spec h 0); [cbn; lia|].
  rewrite length_fmap, length_rev, length_le_digits. apply (ndigits_ub 4); [done|apply Hh].
Qed.

Lemma big_hex_long h : u256 h → 2 ^ 252 ≤ h → big_hex h = EncodeToString (BigToHash h).
Proof.
  intros Hh Hl. rewrite EncodeToString_digits, bytes_digits_BigToHash by done.
  destruct (big_hex_digits h) as (ds & E & Hds & Hv); [apply Hh|].
  pose proof (length_big_hex h 63 Hh) as Hub. rewrite (digits_length _ _ Hds) in Hub.
  rewrite E. f_equal. apply fixed_digits; [by eapply digits_range| |done].
  pose proof (le_value_range 16 (rev ds)) as [_ Hlt]; [done|by apply Forall_rev; eapply digits_range|].
  rewrite length_rev in Hlt. unfold be_value in Hv. rewrite Hv in Hlt.
  destruct (decide (length ds = 64%nat)) as [|Hne]; [done|]. exfalso.
  assert (16 ^ Z.of_nat (length ds) ≤ 16 ^ 63) by (apply Z.pow_le_mono_r; lia). lia.
Qed.

Lemma big_hex_short h : 0 ≤ h < 2 ^ 252 → big_hex h ≠ EncodeToString (BigToHash h).
Proof.
  intros Hh E. apply (f_equal length) in E. pose proof (length_big_hex h 62 ltac:(lia)) as Hub.
  rewrite EncodeToString_digits, length_fmap, length_bytes_digits, length_BigToHash in E. lia.
Qed.

Section Codes.
Context (hash : list Z → NodeKey → NodeKey).
Context (hash_wf : ∀ i c, nk_wf (hash i c)).

Lemma HashContractBytecode_spec code :
  HashContractBytecode hash (EncodeToString code) = Ok (ascii_string (prefix0x ++ big_hex (bytecode_hash hash (bz <$> code)))).
Proof.
  unfold HashContractBytecode. rewrite (HashContractBytecodeBigInt_spec hash _ (bz <$> code)).
  - pose proof (bytecode_hash_u256 hash hash_wf (bz <$> code)) as [Hh _]. rewrite fmap_Ok. unfold ConvertBigIntToHex.
    destruct (Z.ltb_spec (bytecode_hash hash (bz <$> code)) 0); [lia|]. by rewrite Z.abs_eq.
  - pose proof (digits_EncodeToString code) as D. rewrite (trim0x_digits _ _ D). unfold text_bytes. rewrite D. cbn.
    rewrite length_bytes_digits, Nat.odd_mul. cbn [Nat.odd Nat.even negb andb]. by rewrite pair_up_bytes.
Qed.

Lemma Resize_hash h : length h = 32%nat → ResizeHashTo32BytesByPrefixingWithZeroes h = h.
Proof. intros E. unfold ResizeHashTo32BytesByPrefixingWithZeroes. by rewrite E. Qed.

(** The bytes of an even number of digits. *)
Lemma Resize_digits h ds :
  u256 h → digits (big_hex h) ds → be_value 16 ds = h → Nat.even (length ds) = true →
  ResizeHashTo32BytesByPrefixingWithZeroes (zb <$> pair_up ds) = BigToHash h.
Proof.
  intros Hh Hds Hv He. pose proof (length_big_hex h 63 Hh) as Hub. rewrite (digits_length _ _ Hds) in Hub.
  pose proof (length_pair_up ds He) as Hl. unfold ResizeHashTo32BytesByPrefixingWithZeroes.
  rewrite <-(be_bytes_val' 32 (_ ++ _)) by (rewrite length_app, length_replicate, length_fmap; lia).
  rewrite be_val_zeros_app, be_val_zb, be_value_pair_up, Hv by (done || by eapply pair_up_range, digits_range).
  symmetry. by apply set_bytes_big_bytes.
Qed.
End Codes.

(** The code table of the mdbx store.  AddCode stores a code so that GetCode
    finds it under its hash when the hash has an even number of hexadecimal
    digits; the hash is formatted without leading zeros, so that AddCode fails
    for every code whose hash has an odd number of them. *)
Theorem EriDb_AddCode_GetCode {T : Type} `{KVTxLaws T} hash (chainDB : T) code :
  let h := bytecode_hash hash (bz <$> code) in
  (∀ i c, nk_wf (hash i c)) →
  if Nat.even (length (big_hex h)) then
    ∃ chainDB', EriDb_AddCode hash chainDB code = Ok chainDB' ∧ EriDb_GetCode chainDB' (BigToHash h) = Ok code ∧
      ∀ b k, (b, k) ≠ (TableCode, BigToHash h) → kv_GetOne chainDB' b k = kv_GetOne chainDB b k
  else EriDb_AddCode hash chainDB code = Err "encoding/hex: odd length hex string".
Proof.
  intros h Hh. pose proof (bytecode_hash_u256 hash Hh (bz <$> code)) as Hu. fold h in Hu.
  destruct (big_hex_digits h) as (ds & _ & Hds & Hv); [apply Hu|].
  unfold EriDb_AddCode. rewrite (HashContractBytecode_spec hash Hh), bind_Ok. fold h.
  rewrite String.list_ascii_of_string_of_list_ascii. change (trim0x (prefix0x ++ big_hex h)) with (big_hex h).
  unfold hex_DecodeString. rewrite Hds, <-Nat.negb_even. destruct (Nat.even (length (big_hex h))) eqn:Ee; cbn [negb]; [|done].
  rewrite bind_Ok, (Resize_digits h ds) by (done || by rewrite <-(digits_length _ _ Hds)).
  destruct (kv_Put_ok chainDB TableCode (BigToHash h) code) as (t' & E & Eg & Eo). exists t'. split_and!; [done| |done].
  unfold EriDb_GetCode. rewrite Resize_hash by apply length_BigToHash. by rewrite Eg, bind_Ok.
Qed.

(** The code table of the memory store.  A code is found under its hash exactly
    when the hash has all 64 hexadecimal digits: AddCode stores it under the hash
    without leading zeros, GetCode looks it up with them. *)
Theorem MemDb_AddCode_GetCode hash (m : MemDb) code :
  let h := bytecode_hash hash (bz <$> code) in
  (∀ i c, nk_wf (hash i c)) →
  ∃ m', MemDb_AddCode hash m code = Ok m' ∧
    MemDb_GetCode m' (BigToHash h) = if 2 ^ 252 <=? h then Ok code else MemDb_GetCode m (BigToHash h).
Proof.
  intros h Hh. pose proof (bytecode_hash_u256 hash Hh (bz <$> code)) as Hu. fold h in Hu.
  unfold MemDb_AddCode. rewrite (HashContractBytecode_spec hash Hh), bind_Ok. fold h.
  eexists. split; [done|]. unfold MemDb_GetCode. cbn [DbCode]. rewrite Resize_hash by apply length_BigToHash.
  destruct (Z.leb_spec (2 ^ 252) h).
  - by rewrite <-big_hex_long, lookup_insert_eq.
  - rewrite lookup_insert_ne; [done|]. intros E%(f_equal ascii_list). rewrite !String.list_ascii_of_string_of_list_ascii in E. injection E as E. apply (big_hex_short h); [|done]. unfold u256 in Hu. lia.
Qed.

(** A hash with all its digits. *)
Definition wide_hash (i : list Z) (c : NodeKey) : NodeKey :=
  match sample_hash i c with NK a b d _ => NK a b d (2 ^ 64 - 1) end.

Lemma wide_hash_wf i c : nk_wf (wide_hash i c).
Proof.
  unfold wide_hash. pose proof (sample_hash_wf i c) as H. destruct (sample_hash i c) as [a b d e].
  apply Forall_cons in H as [Ha [Hb [Hd _]%Forall_cons]%Forall_cons]. by repeat apply Forall_cons_2.
Qed.

Definition sample_code : list byte := [x60; x80; x60; x40].

Lemma EriDb_AddCode_GetCode_witness :
  let h := bytecode_hash wide_hash (bz <$> sample_code) in
  (∃ t', EriDb_AddCode wide_hash (∅ : KVMap) sample_code = Ok t' ∧ EriDb_GetCode t' (BigToHash h) = Ok sample_code) ∧
  EriDb_AddCode sample_hash (∅ : KVMap) sample_code = Err "encoding/hex: odd length hex string".
Proof.
  pose proof (EriDb_AddCode_GetCode wide_hash (∅ : KVMap) sample_code wide_hash_wf) as H1.
  pose proof (EriDb_AddCode_GetCode sample_hash (∅ : KVMap) sample_code sample_hash_wf) as H2. cbv zeta in H1, H2.
  assert (Nat.even (length (big_hex (bytecode_hash wide_hash (bz <$> sample_code)))) = true) as E1 by (vm_compute; reflexivity).
  assert (Nat.even (length (big_hex (bytecode_hash sample_hash (bz <$> sample_code)))) = false) as E2 by (vm_compute; reflexivity).
  rewrite E1 in H1. rewrite E2 in H2. split; [|exact H2]. destruct H1 as (t' & H1 & H1' & _). exists t'. split; [exact H1|exact H1'].
Defined.

Lemma MemDb_AddCode_GetCode_witness :
  ∃ m', MemDb_AddCode sample_hash MemDb.NewMemDb sample_code = Ok m' ∧
    MemDb_GetCode m' (BigToHash (bytecode_hash sample_hash (bz <$> sample_code))) = Err "key not found".
Proof.
  destruct (MemDb_AddCode_GetCode sample_hash MemDb.NewMemDb sample_code sample_hash_wf) as (m' & E & Eg).
  exists m'. split; [exact E|]. rewrite Eg. vm_compute. reflexivity.
Defined.
