(* ===== verification/SmtMaintain.v ===== *)
(** Maintenance of the state tree (the end of src/smt/pkg/smt/smt.go): the removal
    of orphaned nodes from a memory store, and the insertion of a node of which
    only the hash is known.

    [CheckOrphanedNodes] marks the nodes that a traversal visits and deletes all
    others.  The traversal stops at the leaves, so that the nodes with their
    values are never marked ([CheckOrphanedNodes_deletes_values]).
    [InsertHashNode] puts the hash of a subtree at a path
    ([InsertHashNode_root]). *)

From S2P Require Import Prelude Bytes SmtUtils SmtKeys SmtDb SmtTree Smt SmtInsert SmtRefine SmtProof.
From S2P Require Import SmtBatch SmtBatchSpec SmtBatchRefine SmtReader SmtReaderSpec.
From Stdlib Require Import Strings.Byte.

Local Open Scope Z_scope.
#[local] Set Warnings "-clear-no-such-hyp".
#[local] Opaque GetPath RemoveKeyBits JoinKey.

(** * Orphaned nodes *)

(** The closure of traverseAndMark; [visited] is a VisitedNodesMap. *)
Definition mark_action (visited : gset string) (prefix : list byte) (k : NodeKey) (v : NodeValue12)
    : outcome (gset string * bool) :=
  if decide (hex_key k ∈ visited) then Ok (visited, false)
  else Ok ({[hex_key k]} ∪ visited, true).

Definition traverseAndMark {D} `{SmtDB D} (cancelled : nat → bool) (fuel : nat) (d : D) (node : Z)
    (visited : gset string) : option (outcome (gset string)) :=
  traverse mark_action cancelled fuel d visited node [].

(** One turn of the loop that deletes; a failure is only logged. *)
Definition delete_orphan (rootKey : string) (d : MemDb) (node : string) : outcome MemDb :=
  if decide (node = rootKey) then Ok d else match MemDb.Delete d node with Err _ => Ok d | r => r end.

(** On a memory store; with the mdbx store it returns 0 at once.  [order] is the
    order in which Go iterates over the table.  The result is the number of
    orphaned nodes. *)
Definition CheckOrphanedNodes (cancelled : nat → bool) (fuel : nat) (order : gset string → list string) (s : SMT MemDb)
    : option (outcome (nat * SMT MemDb)) :=
  match MemDb.GetLastRoot (smtDb s) with
  | Err _ => Some (Ok (0%nat, s))
  | Panic => Some Panic
  | Ok root =>
      match traverseAndMark cancelled fuel (smtDb s) root ∅ with
      | None => None
      | Some (Err _) => Some (Ok (0%nat, s))
      | Some Panic => Some Panic
      | Some (Ok visited) =>
          let orphanedNodes := filter (λ dbKey, dbKey ∉ visited) (order (dom (Db (smtDb s)))) in
          let rootKey := ConvertBigIntToHex root in
          Some (d ← foldM (delete_orphan rootKey) (smtDb s) orphanedNodes;
                Ok (length orphanedNodes, mkSMT (noSaveOnInsert s) d))
      end
  end.

(** * Hash nodes *)

(** [Get0to4] and [Get4to8]: a nil pointer panics. *)
Definition Get_quarter (nv : NodeValue12) (q : nat) : outcome NodeKey :=
  match mapM id (take 4 (drop (4 * q) nv)) with
  | Some xs => Ok (list_nk (big_uint64 <$> xs))
  | None => Panic
  end.

Section HashNode.
Context (hash : list Z → NodeKey → NodeKey).
Context {D : Type} `{SmtDB D}.

(** Two arrays of pointers are equal when all pointers are; those of a stored node
    are fresh, those of emptyRootVal nil. *)
Definition is_emptyRootVal (rootVal : NodeValue12) : bool := bool_decide (rootVal = replicate 12 None).

Fixpoint insertHashNode (noSave : bool) (d : D) (path : list Z) (h : NodeKey) (root : NodeKey) : outcome (NodeKey * D) :=
  match path with
  | [] =>
      let newValHBig := ArrayToScalar (nk_list h) in
      let v := ScalarToNodeValue8 newValHBig in
      d ← hashSave noSave d (ToUintArray v) LeafCapacity h;
      Ok (h, d)
  | childIndex :: path =>
      rootVal ← (if NodeKey_IsZero root then Ok (replicate 12 None) else db_Get d root);
      if (childIndex <? 0) || (2 <? childIndex) then Panic
      else
        '(childNewRoot, d) ← insertHashNode noSave d path h (quarter rootVal (Z.to_nat childIndex));
        newIn ← (if childIndex =? 0 then
                   sibling ← (if is_emptyRootVal rootVal then Ok nk_zero else Get_quarter rootVal 1);
                   Ok (ConcatArrays4 childNewRoot sibling)
                 else
                   sibling ← (if is_emptyRootVal rootVal then Ok nk_zero else Get_quarter rootVal 0);
                   Ok (ConcatArrays4 sibling childNewRoot));
        hashcalcAndSave hash noSave d newIn BranchCapacity
  end.

Definition InsertHashNode (s : SMT D) (path : list Z) (h : Z) : outcome (Z * SMT D) :=
  oroot ← getLastRoot (smtDb s);
  let nodeHash := list_nk (ScalarToArray h) in
  '(lastRoot, d) ← insertHashNode (noSaveOnInsert s) (smtDb s) path nodeHash oroot;
  d ← setLastRoot d lastRoot;
  Ok (NodeKey_ToBigInt lastRoot, mkSMT (noSaveOnInsert s) d).
End HashNode.

(** * What is marked *)

Section Mark.
Context (hash : list Z → NodeKey → NodeKey).
Context (hash_wf : ∀ i c, nk_wf (hash i c)).

Abbreviation node_hashes := (node_hashes hash).

Definition hex_keys (l : list NodeKey) : gset string := list_to_set (hex_key <$> l).

Lemma node_hashes_branch n l r :
  node_hashes n (Branch l r) = thash hash n (Branch l r) :: node_hashes (S n) l ++ node_hashes (S n) r.
Proof. unfold node_hashes. cbn [inner_nodes]. rewrite fmap_cons, fmap_app. done. Qed.

Lemma node_hashes_wf n t : Forall nk_wf (node_hashes n t).
Proof. apply Forall_fmap, Forall_true. intros p. apply hash_wf. Qed.

Lemma elem_of_hex_keys l k : Forall nk_wf l → nk_wf k → hex_key k ∈ hex_keys l ↔ k ∈ l.
Proof.
  intros Hl Hk. unfold hex_keys. rewrite elem_of_list_to_set, list_elem_of_fmap. split; [|by exists k].
  intros (k' & E & Hk'). apply hex_key_inj in E as ->; [done..|]. by apply (proj1 (Forall_forall _ _) Hl).
Qed.

Lemma hex_keys_app l1 l2 : hex_keys (l1 ++ l2) = hex_keys l1 ∪ hex_keys l2.
Proof. unfold hex_keys. by rewrite fmap_app, list_to_set_app_L. Qed.

Lemma mark_new visited p k v : hex_key k ∉ visited → mark_action visited p k v = Ok ({[hex_key k]} ∪ visited, true).
Proof. intros Hk. unfold mark_action. by rewrite decide_False. Qed.

(** Without shared nodes the traversal marks every leaf and every branch. *)
Lemma tvisit_mark t : ∀ n p l,
  Forall nk_wf l → NoDup (node_hashes n t ++ l) →
  tvisit hash mark_action (hex_keys l) n p t = Ok (hex_keys (node_hashes n t ++ l)).
Proof.
  induction t as [|k v|tl IHl tr IHr]; intros n p l Hl Hnd; simpl tvisit; [done|..].
  - apply NoDup_cons in Hnd as [Hn _]. rewrite mark_new; [done|]. rewrite elem_of_hex_keys; [exact Hn|exact Hl|apply hash_wf].
  - rewrite node_hashes_branch in *. cbn [app] in *. set (h := thash hash n (Branch tl tr)) in *.
    apply NoDup_cons in Hnd as [Hn Hnd]. rewrite mark_new, bind_Ok.
    2:{ rewrite elem_of_hex_keys; [|exact Hl|apply hash_wf]. intros Hh. apply Hn. rewrite !elem_of_app. by right. }
    change ({[hex_key _]} ∪ hex_keys l) with (hex_keys (h :: l)).
    assert (Forall nk_wf (h :: l)) as Hl' by (constructor; [apply hash_wf|done]).
    assert (node_hashes (S n) tr ++ node_hashes (S n) tl ++ h :: l ≡ₚ h :: (node_hashes (S n) tl ++ node_hashes (S n) tr) ++ l) as HP
      by solve_Permutation.
    assert (NoDup (node_hashes (S n) tr ++ node_hashes (S n) tl ++ h :: l)) as Hnd' by (rewrite HP; by constructor).
    rewrite IHl, bind_Ok by (done || by apply NoDup_app in Hnd' as (_ & _ & ?)). rewrite IHr; [|by apply Forall_app; split; [apply node_hashes_wf|]|done].
    f_equal. unfold hex_keys. apply set_eq. intros x. rewrite !elem_of_list_to_set. by rewrite HP.
Qed.

Lemma delete_orphan_eq rootKey d y :
  delete_orphan rootKey d y = Ok (if decide (y = rootKey) then d else MemDb.with_Db d (delete y (Db d))).
Proof. unfold delete_orphan. by case_decide. Qed.

(** What the deletions leave. *)
Lemma delete_orphans rootKey l : ∀ d,
  ∃ d', foldM (delete_orphan rootKey) d l = Ok d' ∧
    same_meta d d' ∧ ∀ x, Db d' !! x = if decide (x ∈ l ∧ x ≠ rootKey) then None else Db d !! x.
Proof.
  induction l as [|y l IH]; intros d; cbn [foldM].
  { exists d. split_and!; [done..|]. intros x. rewrite decide_False; [done|]. by intros [[]%elem_of_nil _]. }
  rewrite delete_orphan_eq, bind_Ok. case_decide as Hy.
  - destruct (IH d) as (d' & -> & Hm & Hd). exists d'. split_and!; [done..|]. intros x. rewrite Hd. subst y.
    apply decide_ext. rewrite elem_of_cons. naive_solver.
  - destruct (IH (MemDb.with_Db d (delete y (Db d)))) as (d' & -> & Hm & Hd). exists d'. split_and!; [done|done|].
    intros x. rewrite Hd. cbn [Db MemDb.with_Db]. destruct (decide (x = y)) as [->|Hne].
    + rewrite lookup_delete_eq, (decide_True (P := y ∈ y :: l ∧ _)) by (split; [by left|done]). by destruct (decide _).
    + rewrite lookup_delete_ne by done. apply decide_ext. rewrite elem_of_cons. naive_solver.
Qed.

Lemma CheckOrphanedNodes_spec fuel order s m :
  (∀ X, order X ≡ₚ elements X) → smt_holds hash s m → hash_good hash (map_nodes hash m) → unshared hash m →
  (tsize (map_tree m) ≤ fuel)%nat →
  ∃ n s', CheckOrphanedNodes (λ _, false) fuel order s = Some (Ok (n, s')) ∧ same_meta (smtDb s) (smtDb s') ∧
    ∀ k, nk_wf k → k ≠ map_root hash m →
      Db (smtDb s') !! hex_key k = if decide (k ∈ node_hashes 0 (map_tree m)) then Db (smtDb s) !! hex_key k else None.
Proof.
  intros Ho [Hm _ Hr Hst _] HU [Hnd _] Hf. unfold CheckOrphanedNodes. change (MemDb.GetLastRoot _) with (db_GetLastRoot (smtDb s)).
  rewrite Hr. unfold traverseAndMark, map_root. rewrite (traverse_spec hash hash_wf) by done.
  change ∅ with (hex_keys []). rewrite tvisit_mark by (constructor || by rewrite app_nil_r). rewrite app_nil_r. cbv zeta.
  destruct (delete_orphans (ConvertBigIntToHex (NodeKey_ToBigInt (thash hash 0 (map_tree m))))
    (filter (λ dbKey, dbKey ∉ hex_keys (node_hashes 0 (map_tree m))) (order (dom (Db (smtDb s))))) (smtDb s))
    as (d' & -> & Hsm & Hd). rewrite bind_Ok. do 2 eexists. split; [done|]. split; [exact Hsm|].
  intros k Hk Hne. cbn [smtDb]. rewrite Hd. change (ConvertBigIntToHex (NodeKey_ToBigInt ?x)) with (hex_key x).
  assert (hex_key k ≠ hex_key (thash hash 0 (map_tree m))) as Hne' by (intros E%hex_key_inj; [done..|by apply thash_wf]).
  pose proof (elem_of_hex_keys _ k (node_hashes_wf 0 (map_tree m)) Hk) as Hel.
  destruct (decide (k ∈ node_hashes 0 (map_tree m))) as [Hin|Hin].
  - rewrite decide_False; [done|]. intros [[Hx _]%list_elem_of_filter _]. by apply Hx, Hel.
  - case_decide as Hx; [done|]. apply eq_None_not_Some. intros Hs. apply Hx. split; [|done]. apply list_elem_of_filter.
    split; [by rewrite Hel|]. by rewrite Ho, elem_of_elements, elem_of_dom.
Qed.
End Mark.

(** C40. The removal of orphaned nodes removes the values.  CheckOrphanedNodes takes
    the node with the value of every leaf for an orphan and deletes it: the root
    stays, but reading the value of any key afterwards finds an empty node. *)
Theorem CheckOrphanedNodes_deletes_values hash fuel order (s : SMT MemDb) m :
  (∀ i c, nk_wf (hash i c)) → (∀ X, order X ≡ₚ elements X) → smt_holds hash s m →
  hash_good hash (map_nodes hash m) → unshared hash m → (tsize (map_tree m) ≤ fuel)%nat →
  ∃ n s', CheckOrphanedNodes (λ _, false) fuel order s = Some (Ok (n, s')) ∧
    db_GetLastRoot (smtDb s') = db_GetLastRoot (smtDb s) ∧
    ∀ k v, m !! k = Some v →
      db_Get (smtDb s) (phash hash (val_pre v)) = Ok (node_of (val_pre v)) ∧
      db_Get (smtDb s') (phash hash (val_pre v)) = Ok (replicate 12 None).
Proof.
  intros Hh Ho Hs HU Hun Hf.
  destruct (CheckOrphanedNodes_spec hash Hh fuel order s m) as (n & s' & E & [Hr _] & Hd); [done..|].
  exists n, s'. split_and!; [done..|]. intros k v Hv. destruct Hun as [_ Hvals].
  assert (v ∈ tree_values (map_tree m)) as Hin by (apply map_values; [apply Hs|eauto]).
  apply (proj1 (Forall_forall _ _) Hvals) in Hin as Hn. split.
  - apply (stored_elem hash _ _ _ (sh_stored _ _ _ Hs)). apply tree_nodes_split. right. by exists v.
  - change (db_Get (smtDb s') ?x) with (MemDb.Get (smtDb s') x). unfold MemDb.Get. rewrite Hd, decide_False; [done..|apply Hh|].
    intros E'. apply Hn. rewrite E'. unfold map_root, node_hashes. destruct (map_tree m); [|by left..].
    by apply elem_of_nil in Hin.
Qed.

Lemma CheckOrphanedNodes_deletes_values_witness :
  ∃ n s', CheckOrphanedNodes (λ _, false) 10 elements sample_smt2 = Some (Ok (n, s')) ∧
    db_Get (smtDb s') (phash sample_hash (val_pre sample_value)) = Ok (replicate 12 None).
Proof.
  destruct (CheckOrphanedNodes_deletes_values sample_hash 10 elements sample_smt2 sample_map2)
    as (n & s' & E & _ & H).
  - apply sample_hash_wf.
  - done.
  - apply sample_smt2_holds.
  - apply (bool_decide_unpack _). vm_compute. exact I.
  - apply (bool_decide_unpack _). vm_compute. exact I.
  - apply (bool_decide_unpack _). vm_compute. exact I.
  - exists n, s'. split; [exact E|]. apply (H sample_key). vm_compute. reflexivity.
Defined.

(** * What a hash node does *)

(** The tree with [u] at the path [p]; a leaf in the way is not supported. *)
Fixpoint tgraft (t : tree) (p : list bool) (u : tree) : option tree :=
  match p with
  | [] => Some u
  | b :: p =>
      match t with
      | Empty => (λ u, if b : bool then Branch Empty u else Branch u Empty) <$> tgraft Empty p u
      | Leaf _ _ => None
      | Branch l r => if b then Branch l <$> tgraft r p u else (λ l, Branch l r) <$> tgraft l p u
      end
  end.

(** The branches on the path. *)
Fixpoint path_nodes (hash : list Z → NodeKey → NodeKey) (n : nat) (t : tree) (p : list bool) {struct p} : list preimage :=
  match p, t with
  | b :: p, Branch l r =>
      branch_pre (thash hash (S n) l) (thash hash (S n) r) :: path_nodes hash (S n) (if b : bool then r else l) p
  | _, _ => []
  end.

Section Graft.
Context (hash : list Z → NodeKey → NodeKey).
Context (hash_wf : ∀ i c, nk_wf (hash i c)).
Context {D : Type} {SD : SmtDB D} {SL : SmtDBLaws D}.

Abbreviation thash := (thash hash).

Lemma Get_quarter_node a b c q :
  nk_wf a → nk_wf b → (q < 2)%nat → Get_quarter (node_of (ConcatArrays4 a b, c)) q = Ok (if decide (q = 0%nat) then a else b).
Proof.
  intros Ha Hb Hq. unfold Get_quarter.
  assert (∀ k, nk_wf k → big_uint64 <$> nk_list k = nk_list k) as Hid.
  { intros k Hk. rewrite <-(list_fmap_id (nk_list k)) at 2. apply Forall_fmap_ext_1. eapply Forall_impl; [exact Hk|].
    intros z Hz. by apply big_uint64_small. }
  destruct q as [|[|]]; [| |lia]; cbn [decide].
  - change (mapM id _) with (Some (nk_list a)). cbv beta iota. by rewrite Hid, list_nk_nk_list.
  - change (mapM id _) with (Some (nk_list b)). cbv beta iota. by rewrite Hid, list_nk_nk_list.
Qed.

(** What insertHashNode reads at the root of [t]. *)
Definition root_value (n : nat) (t : tree) : NodeValue12 :=
  match t with Branch l r => node_of (branch_pre (thash (S n) l) (thash (S n) r)) | _ => replicate 12 None end.

Definition side (t : tree) (b : bool) : tree :=
  match t with Branch l r => if b then r else l | _ => Empty end.

Lemma root_value_get d n t :
  (∀ k v, t ≠ Leaf k v) → stored hash d (tree_nodes hash n t) → hash_good hash (tree_nodes hash n t) →
  (if NodeKey_IsZero (thash n t) then Ok (replicate 12 None) else db_Get d (thash n t)) = Ok (root_value n t).
Proof.
  intros Hl Hst HU. destruct t as [|k v|l r]; [done|by destruct (Hl k v)|].
  assert (thash n (Branch l r) ≠ nk_zero) as Hz by (eapply hash_good_nonzero; [exact HU|by left]).
  rewrite NodeKey_IsZero_spec, bool_decide_false by done.
  apply (stored_elem hash _ _ _ Hst). by left.
Qed.

Lemma root_value_side n t b :
  (∀ k v, t ≠ Leaf k v) → quarter (root_value n t) (Z.to_nat (Z.b2z b)) = thash (S n) (side t b).
Proof.
  intros Hl. destruct t as [|k v|l r]; [by destruct b|by destruct (Hl k v)|]. cbn [root_value side].
  destruct (quarter_node (thash (S n) l) (thash (S n) r) BranchCapacity) as (E0 & E1 & _ & _);
    [by apply thash_wf..|apply BranchCapacity_wf|]. by destruct b.
Qed.

Lemma root_value_sibling n t b :
  (∀ k v, t ≠ Leaf k v) →
  (if is_emptyRootVal (root_value n t) then Ok nk_zero else Get_quarter (root_value n t) (if b : bool then 0 else 1)) =
    Ok (thash (S n) (side t (negb b))).
Proof.
  intros Hl. destruct t as [|k v|l r]; [by destruct b|by destruct (Hl k v)|]. cbn [root_value side].
  assert (is_emptyRootVal (node_of (branch_pre (thash (S n) l) (thash (S n) r))) = false) as -> by (by apply bool_decide_eq_false_2).
  unfold branch_pre. destruct b; by rewrite Get_quarter_node by (lia || by apply thash_wf).
Qed.

Lemma hash_stub_wf h : word8 (ToUintArray (ScalarToNodeValue8 h)).
Proof.
  unfold ScalarToNodeValue8. assert (∀ n z, length (ToUintArray (ScalarToNodeValue_slow_loop n z)) = n ∧
    Forall is_u64 (ToUintArray (ScalarToNodeValue_slow_loop n z))) as H; [|apply (H 8%nat)].
  induction n as [|n IH]; intros z; [done|]. destruct (IH (Z.shiftr z 64)) as [Hl Hf]. cbn. split; [by f_equal|].
  constructor; [|done]. apply u64_range.
Qed.

Lemma ScalarToArray_NodeKey k : nk_wf k → list_nk (ScalarToArray (NodeKey_ToBigInt k)) = k.
Proof.
  intros Hk. rewrite ScalarToArray_digits. unfold NodeKey_ToBigInt, ArrayToScalar. rewrite (le_digits_value' (2 ^ 64)) by (done || lia).
  apply list_nk_nk_list.
Qed.

(** The branch that is made. *)
Definition join (b : bool) (x y : tree) : tree := if b then Branch y x else Branch x y.

Lemma tgraft_cons t b p u t' :
  tgraft t (b :: p) u = Some t' →
  (∀ k v, t ≠ Leaf k v) ∧ ∃ x, tgraft (side t b) p u = Some x ∧ t' = join b x (side t (negb b)).
Proof.
  destruct t as [|k v|l r]; cbn; [|done|]; intros E.
  - apply fmap_Some in E as (x & E & ->). split; [done|]. exists x. by destruct b.
  - destruct b; apply fmap_Some in E as (x & E & ->); (split; [done|]); by exists x.
Qed.

Lemma side_nodes n t b : tree_nodes hash (S n) (side t b) ⊆ tree_nodes hash n t.
Proof. destruct t as [|k v|l r]; [done|by intros ? []%elem_of_nil|]. cbn. destruct b; intros x Hx; right; apply elem_of_app; auto. Qed.

Lemma insertHashNode_spec p u : ∀ n t t' d,
  tgraft t p u = Some t' → stored hash d (tree_nodes hash n t) → hash_good hash (tree_nodes hash n t) →
  hash_good hash (path_nodes hash n t' p) →
  ∃ d', insertHashNode hash false d (Z.b2z <$> p) (thash (n + length p) u) (thash n t) = Ok (thash n t', d') ∧
    stored hash d' (path_nodes hash n t' p) ∧ same_meta d d'.
Proof.
  induction p as [|b p IH]; intros n t t' d Eg Hst HU HP.
  - injection Eg as ->. cbn [length fmap list_fmap insertHashNode]. rewrite Nat.add_0_r. unfold hashSave.
    destruct (law_Insert d (thash n t') (node_of (ToUintArray (ScalarToNodeValue8 (ArrayToScalar (nk_list (thash n t')))), LeafCapacity)))
      as (d' & E & _ & Hm & _); [by apply thash_wf|apply node_of_wf; split; [apply hash_stub_wf|apply LeafCapacity_wf]|].
    exists d'. unfold node_of in E. cbn [fst snd] in E. rewrite E, bind_Ok. split_and!; [done|constructor|done].
  - apply tgraft_cons in Eg as (Hl & x & Eg & ->). cbn [fmap list_fmap insertHashNode].
    rewrite root_value_get, bind_Ok by done.
    assert ((Z.b2z b <? 0) || (2 <? Z.b2z b) = false) as -> by (by destruct b).
    rewrite root_value_side by done. cbn [length]. rewrite Nat.add_succ_r, <-Nat.add_succ_l.
    assert (path_nodes hash n (join b x (side t (negb b))) (b :: p) =
      branch_pre (thash (S n) (if b then side t (negb b) else x)) (thash (S n) (if b then x else side t (negb b)))
        :: path_nodes hash (S n) x p) as EP by (by destruct b).
    rewrite EP in *. set (q := branch_pre _ _) in *.
    destruct (IH (S n) (side t b) x d) as (d1 & E1 & Hst1 & Hm1); [done|..].
    { eapply stored_sub; [exact Hst|apply side_nodes]. }
    { eapply hash_good_sub; [exact HU|apply side_nodes]. }
    { eapply hash_good_sub; [exact HP|]. intros y Hy. by right. }
    rewrite E1, bind_Ok. pose proof (root_value_sibling n t b Hl) as Hsib.
    destruct (hashcalcAndSave_spec hash hash_wf (q :: path_nodes hash (S n) x p) d1 (path_nodes hash (S n) x p) q) as (d2 & E2 & Hst2 & Hm2);
      [done|by left|intros y Hy; by right|apply branch_pre_wf; by apply thash_wf|done|].
    exists d2. split_and!; [|done|by eapply same_meta_trans].
    destruct b; cbn [Z.b2z Z.eqb negb] in *; rewrite Hsib, !bind_Ok; exact E2.
Qed.
End Graft.

(** C27. InsertHashNode puts a subtree of which only the hash is known into the tree:
    on a store that holds a map, when no leaf is above the path, it returns and
    records the root of the tree with that subtree at the path, and the branches
    on the path are stored. *)
Theorem InsertHashNode_root {D : Type} {SD : SmtDB D} {SL : SmtDBLaws D} hash (s : SMT D) m p u t' :
  (∀ i c, nk_wf (hash i c)) → smt_holds hash s m → hash_good hash (map_nodes hash m) →
  tgraft (map_tree m) p u = Some t' → hash_good hash (path_nodes hash 0 t' p) →
  ∃ s', InsertHashNode hash s (Z.b2z <$> p) (NodeKey_ToBigInt (thash hash (length p) u)) =
      Ok (NodeKey_ToBigInt (thash hash 0 t'), s') ∧
    db_GetLastRoot (smtDb s') = Ok (NodeKey_ToBigInt (thash hash 0 t')) ∧
    stored hash (smtDb s') (path_nodes hash 0 t' p).
Proof.
  intros Hh [Hm Hsv Hr Hst _] HU Eg HP.
  destruct (insertHashNode_spec hash Hh p u 0 (map_tree m) t' (smtDb s)) as (d1 & E1 & Hst1 & _); [done..|].
  destruct (law_SetLastRoot d1 (NodeKey_ToBigInt (thash hash 0 t'))) as (d2 & E2 & Hn2 & _ & Hr2);
    [by apply NodeKey_ToBigInt_range, thash_wf|].
  exists (mkSMT false d2). unfold InsertHashNode, setLastRoot.
  rewrite (getLastRoot_spec _ _ (thash_wf hash Hh 0 (map_tree m)) Hr), bind_Ok, ScalarToArray_NodeKey, Hsv by (by apply thash_wf).
  cbn [Nat.add] in E1. rewrite E1, bind_Ok, E2, bind_Ok. split_and!; [done|done|by eapply stored_same].
Qed.

Lemma InsertHashNode_root_witness :
  let u := Branch (Leaf (NK 1 2 3 4) [7; 0; 0; 0; 0; 0; 0; 0]) (Leaf (NK 1 3 0 0) [8; 0; 0; 0; 0; 0; 0; 0]) in
  let t' := Branch (Leaf (NK 2 2 3 5) [9; 0; 0; 0; 0; 0; 0; 2]) u in
  ∃ s', InsertHashNode sample_hash sample_smt2 [1] (NodeKey_ToBigInt (thash sample_hash 1 u)) =
      Ok (NodeKey_ToBigInt (thash sample_hash 0 t'), s') ∧
    db_GetLastRoot (smtDb s') = Ok (NodeKey_ToBigInt (thash sample_hash 0 t')).
Proof.
  intros u t'. destruct (InsertHashNode_root sample_hash sample_smt2 sample_map2 [true] u t') as (s' & E & Hr & _).
  - apply sample_hash_wf.
  - apply sample_smt2_holds.
  - apply (bool_decide_unpack _). vm_compute. exact I.
  - vm_compute. reflexivity.
  - apply (bool_decide_unpack _). vm_compute. exact I.
  - exists s'. split; [exact E|exact Hr].
Defined.
