(* ===== verification/BlockInfo.v ===== *)
(** The block info tree (src/smt/pkg/blockinfo): the fields of a block header and
    of its transactions as entries of a sparse Merkle tree that is built in one
    batch and not saved.

    The entries of the transactions are generated one after the other, or by
    worker goroutines that take the indexes of transactions from a channel.  The
    second version is a step relation: one step for every operation on a channel,
    in any order that the scheduler may choose.  Once the function has returned,
    the remaining goroutines are of no interest, and there are no more steps.

    The keys of the header fields are constants of the source; Poseidon, Keccak-256
    and the text of a 256-bit integer are parameters, as in the files this one
    builds on.  Pointers to receipts and addresses are not nil, except for the
    signer. *)

From S2P Require Import Prelude Bytes SmtUtils SmtKeys SmtDb Smt SmtBatch ContractHash TxHash.
From Stdlib Require Import Strings.Byte.

Local Open Scope Z_scope.

(** * Keys *)

Definition BlockHeaderBlockHashKey : NodeKey := NK 17540094328570681229 15492539097581145461 7686481670809850401 16577991319572125169.
Definition BlockHeaderCoinbaseKey : NodeKey := NK 13866806033333411216 11510953292839890698 8274877395843603978 9372332419316597113.
Definition BlockHeaderNumberKey : NodeKey := NK 6024064788222257862 13049342112699253445 12127984136733687200 8398043461199794462.
Definition BlockHeaderGasLimitKey : NodeKey := NK 5319681466197319121 14057433120745733551 5638531288094714593 17204828339478940337.
Definition BlockHeaderTimestampKey : NodeKey := NK 7890158832167317866 11032486557242372179 9653801891436451408 2062577087515942703.
Definition BlockHeaderGerKey : NodeKey := NK 16031278424721309229 4132999715765882778 6388713709192801251 10826219431775251904.
Definition BlockHeaderBlockHashL1Key : NodeKey := NK 5354929451503733866 3129555839551084896 2132809659008379950 8230742270813566472.
Definition BlockHeaderGasUsedKey : NodeKey := NK 8577769200631379655 8682051454686970557 5016656739138242322 16717481432904730287.

Definition IndexBlockHeaderParam : Z := 7.
Definition IndexBlockHeaderTransactionHash : Z := 8.
Definition IndexBlockHeaderStatus : Z := 9.
Definition IndexBlockHeaderCumulativeGasUsed : Z := 10.
Definition IndexBlockHeaderLogs : Z := 11.
Definition IndexBlockHeaderEffectivePercentage : Z := 12.

Definition bigInt2NodeVal8 (val : Z) : outcome NodeValue8 := NodeValue8FromBigIntArray (Some <$> ScalarToArrayBig val).

(** The fields of a transaction, a log, a receipt. *)
Record Transaction := mkTransaction {
  GetChainID : option Z; GetValue : option Z; GetPrice : option Z; GetNonce : Z; GetGas : Z;
  GetTo : option (list byte); GetData : list byte;
}.

Record Log := mkLog { Topics : list (list byte); Data : list byte }.
Record Receipt := mkReceipt { Status : Z; CumulativeGasUsed : Z; Logs : list Log }.

Record ExecutedTxInfo := mkExecutedTxInfo {
  Tx : Transaction; EffectiveGasPrice : Z; TxReceipt : Receipt; Signer : option (list byte);
}.

(** [h.Hex()] of a hash *)
Definition Hash_Hex (h : list byte) : list ascii := prefix0x ++ EncodeToString h.

Abbreviation entry := (NodeKey * NodeValue8)%type.

Section BlockInfo.
Context (keccak : list byte → list byte).
Context (uint256_Hex : Z → list ascii).
Context (hash : list Z → NodeKey → NodeKey).

Definition KeyBlockHeaderParams (paramKey : option Z) : outcome NodeKey := KeyBig hash paramKey IndexBlockHeaderParam.
Definition KeyTxStatus (paramKey : option Z) : outcome NodeKey := KeyBig hash paramKey IndexBlockHeaderStatus.
Definition KeyCumulativeGasUsed (paramKey : option Z) : outcome NodeKey := KeyBig hash paramKey IndexBlockHeaderCumulativeGasUsed.
Definition KeyTxHash (paramKey : option Z) : outcome NodeKey := KeyBig hash paramKey IndexBlockHeaderTransactionHash.
Definition KeyEffectivePercentage (paramKey : option Z) : outcome NodeKey := KeyBig hash paramKey IndexBlockHeaderEffectivePercentage.

Definition KeyTxLogs (txIndex logIndex : option Z) : outcome NodeKey :=
  match txIndex, logIndex with
  | Some txIndex, Some logIndex =>
      let key1 := key_input (ScalarToArrayBig txIndex) IndexBlockHeaderLogs in
      lia_ ← NodeValue8FromBigIntArray (Some <$> ScalarToArrayBig logIndex);
      let hk0 := hash (ToUintArray lia_) BranchCapacity in
      Ok (hash (ToUintArray key1) hk0)
  | _, _ => Err "nil key"
  end.

(** * Entries *)

Definition generateL2BlockHash (blockHash : list byte) : outcome entry :=
  value ← bigInt2NodeVal8 (be_val blockHash); Ok (BlockHeaderBlockHashKey, value).
Definition generateCoinbase (coinbase : list byte) : outcome entry :=
  value ← bigInt2NodeVal8 (be_val (BytesToHash coinbase)); Ok (BlockHeaderCoinbaseKey, value).
Definition generateGasLimit (gasLimit : Z) : outcome entry :=
  value ← bigInt2NodeVal8 gasLimit; Ok (BlockHeaderGasLimitKey, value).
Definition generateBlockNumber (blockNumber : Z) : outcome entry :=
  value ← bigInt2NodeVal8 blockNumber; Ok (BlockHeaderNumberKey, value).
Definition generateTimestamp (timestamp : Z) : outcome entry :=
  value ← bigInt2NodeVal8 timestamp; Ok (BlockHeaderTimestampKey, value).
Definition generateGer (ger : list byte) : outcome entry :=
  value ← bigInt2NodeVal8 (be_val ger); Ok (BlockHeaderGerKey, value).
Definition generateL1BlockHash (blockHash : list byte) : outcome entry :=
  value ← bigInt2NodeVal8 (be_val blockHash); Ok (BlockHeaderBlockHashL1Key, value).
Definition generateBlockGasUsed (gasUsed : Z) : outcome entry :=
  value ← bigInt2NodeVal8 gasUsed; Ok (BlockHeaderGasUsedKey, value).

Definition generateL2TxHash (txIndex l2TxHash : Z) : outcome entry :=
  key ← KeyTxHash (Some txIndex); value ← bigInt2NodeVal8 l2TxHash; Ok (key, value).
Definition generateTxStatus (txIndex status : Z) : outcome entry :=
  key ← KeyTxStatus (Some txIndex); value ← bigInt2NodeVal8 status; Ok (key, value).
Definition generateCumulativeGasUsed (txIndex cumulativeGasUsed : Z) : outcome entry :=
  key ← KeyCumulativeGasUsed (Some txIndex); value ← bigInt2NodeVal8 cumulativeGasUsed; Ok (key, value).
Definition generateTxLog (txIndex logIndex log : Z) : outcome entry :=
  key ← KeyTxLogs (Some txIndex) (Some logIndex); value ← bigInt2NodeVal8 log; Ok (key, value).
Definition generateTxEffectivePercentage (txIndex effectivePercentage : Z) : outcome entry :=
  key ← KeyEffectivePercentage (Some txIndex); value ← bigInt2NodeVal8 effectivePercentage; Ok (key, value).

Definition GenerateBlockHeader (oldBlockHash coinbase : list byte) (blockNumber gasLimit timestamp : Z) (ger l1BlockHash : list byte)
    : outcome (list entry) :=
  e0 ← generateL2BlockHash oldBlockHash;
  e1 ← generateCoinbase coinbase;
  e2 ← generateBlockNumber blockNumber;
  e3 ← generateGasLimit gasLimit;
  e4 ← generateTimestamp timestamp;
  e5 ← generateGer ger;
  e6 ← generateL1BlockHash l1BlockHash;
  Ok [e0; e1; e2; e3; e4; e5; e6].

(** The text of a log. *)
Definition log_text (rLog : Log) : list ascii :=
  prefix0x ++ EncodeToString (Data rLog) ++ flat_map (λ topic, drop 2 (Hash_Hex topic)) (Topics rLog).

Definition GenerateBlockTxKeysVals (l2TxHash : list byte) (txIndex : Z) (receipt : Receipt) (logIndex cumulativeGasUsed effectivePercentage : Z)
    : outcome (list entry) :=
  e1 ← generateL2TxHash txIndex (be_val l2TxHash);
  e2 ← generateTxStatus txIndex (Status receipt);
  e3 ← generateCumulativeGasUsed txIndex cumulativeGasUsed;
  '(es, _) ← foldM (λ '(es, logIndex) rLog,
    logEncodedBig ← HashContractBytecodeBigInt hash (log_text rLog);
    e ← generateTxLog txIndex logIndex logEncodedBig;
    Ok (es ++ [e], logIndex + 1)) ([e1; e2; e3], logIndex) (Logs receipt);
  e ← generateTxEffectivePercentage txIndex effectivePercentage;
  Ok (es ++ [e]).

(** * One transaction after the other *)

(** The entries of the transaction with the index [i], whose first log has the index [logIndex]. *)
Definition tx_entries (i : nat) (logIndex : Z) (txInfo : ExecutedTxInfo) : outcome (list entry) :=
  let t := Tx txInfo in
  let receipt := TxReceipt txInfo in
  l2TxHash ← ComputeL2TxHash keccak uint256_Hex hash (GetChainID t) (GetValue t) (GetPrice t) (GetNonce t) (GetGas t)
               (GetTo t) (Signer txInfo) (GetData t);
  GenerateBlockTxKeysVals l2TxHash (Z.of_nat i) receipt logIndex (CumulativeGasUsed receipt) (EffectiveGasPrice txInfo).

Definition add_tx (st : list entry * Z) (x : nat * ExecutedTxInfo) : outcome (list entry * Z) :=
  let '(es, logIndex) := st in
  let '(i, txInfo) := x in
  gen ← tx_entries i logIndex txInfo;
  Ok (es ++ gen, logIndex + Z.of_nat (length (Logs (TxReceipt txInfo)))).

(** The tree, which is not saved. *)
Definition build_root (cpuNum : nat) (order : gset NodeKey → list NodeKey) (es : list entry) : outcome (list byte) :=
  '(root, _) ← InsertBatch hash (λ _, false) cpuNum order (mkSMT true MemDb.NewMemDb) es.*1 es.*2 None None;
  Ok (BigToHash (NodeKey_ToBigInt (NewRootScalar root))).

Definition BuildBlockInfoTreeSerial (cpuNum : nat) (order : gset NodeKey → list NodeKey) (coinbase : list byte)
    (blockNumber blockTime blockGasLimit blockGasUsed : Z) (ger l1BlockHash previousStateRoot : list byte)
    (transactionInfos : list ExecutedTxInfo) : outcome (list byte) :=
  es ← GenerateBlockHeader previousStateRoot coinbase blockNumber blockGasLimit blockTime ger l1BlockHash;
  '(es, _) ← foldM add_tx (es, 0) (imap pair transactionInfos);
  e ← generateBlockGasUsed blockGasUsed;
  build_root cpuNum order (es ++ [e]).

(** What a worker computes for the index [idx]. *)
Definition task (transactionInfos : list ExecutedTxInfo) (idx : nat) : outcome (list entry) :=
  match transactionInfos !! idx with
  | None => Panic
  | Some txInfo =>
      let logIndex := foldl (λ n x, n + Z.of_nat (length (Logs (TxReceipt x)))) 0 (take idx transactionInfos) in
      tx_entries idx logIndex txInfo
  end.
End BlockInfo.

(** * Worker goroutines *)

Section Workers.
Context {R : Type} (run : nat → outcome R).

(** The number of transactions, which is also the capacity of two channels. *)
Context (n : nat).

Inductive worker :=
| w_wait  (** about to receive from taskChan *)
| w_run (idx : nat)
| w_put (idx : nat) (r : R)  (** about to send to resultChan *)
| w_err (e : string)  (** about to send to errChan, which holds one error *)
| w_done.

Inductive caller :=
| c_send (i : nat)  (** about to send the task [i] *)
| c_collect
| c_merge  (** resultChan is closed and empty *)
| c_return (e : string)
| c_panic.

Record state := mkState {
  st_caller : caller;
  st_tasks : list nat;  (** the buffer of taskChan *)
  st_closed : bool;  (** taskChan is closed *)
  st_workers : list worker;
  st_results : list (nat * R);  (** the buffer of resultChan *)
  st_finished : bool;  (** resultChan is closed *)
  st_error : option string;  (** the buffer of errChan *)
  st_collected : list (option R);  (** the slice results *)
}.

Definition start (numWorkers : nat) : state :=
  mkState (c_send 0) [] false (replicate numWorkers w_wait) [] false None (replicate n None).

Definition active (c : caller) : bool :=
  match c with c_send _ | c_collect => true | _ => false end.

Definition set_worker (w : nat) (x : worker) (s : state) : list worker := <[w := x]> (st_workers s).

Inductive step (s : state) : state → Prop :=
| step_send i :
    st_caller s = c_send i → (i < n)%nat → (length (st_tasks s) < n)%nat →
    step s (mkState (c_send (S i)) (st_tasks s ++ [i]) (st_closed s) (st_workers s) (st_results s) (st_finished s)
              (st_error s) (st_collected s))
| step_close :
    st_caller s = c_send n →
    step s (mkState c_collect (st_tasks s) true (st_workers s) (st_results s) (st_finished s) (st_error s) (st_collected s))
| step_take w idx rest :
    active (st_caller s) → st_workers s !! w = Some w_wait → st_tasks s = idx :: rest →
    step s (mkState (st_caller s) rest (st_closed s) (set_worker w (w_run idx) s) (st_results s) (st_finished s)
              (st_error s) (st_collected s))
| step_leave w :
    active (st_caller s) → st_workers s !! w = Some w_wait → st_tasks s = [] → st_closed s = true →
    step s (mkState (st_caller s) [] (st_closed s) (set_worker w w_done s) (st_results s) (st_finished s)
              (st_error s) (st_collected s))
| step_run w idx :
    active (st_caller s) → st_workers s !! w = Some (w_run idx) →
    step s (match run idx with
            | Ok r => mkState (st_caller s) (st_tasks s) (st_closed s) (set_worker w (w_put idx r) s) (st_results s)
                        (st_finished s) (st_error s) (st_collected s)
            | Err e => mkState (st_caller s) (st_tasks s) (st_closed s) (set_worker w (w_err e) s) (st_results s)
                         (st_finished s) (st_error s) (st_collected s)
            | Panic => mkState c_panic (st_tasks s) (st_closed s) (st_workers s) (st_results s) (st_finished s)
                         (st_error s) (st_collected s)
            end)
| step_put w idx r :
    active (st_caller s) → st_workers s !! w = Some (w_put idx r) → (length (st_results s) < n)%nat →
    step s (mkState (st_caller s) (st_tasks s) (st_closed s) (set_worker w w_wait s) (st_results s ++ [(idx, r)])
              (st_finished s) (st_error s) (st_collected s))
| step_err w e :
    active (st_caller s) → st_workers s !! w = Some (w_err e) → st_error s = None →
    step s (mkState (st_caller s) (st_tasks s) (st_closed s) (set_worker w w_done s) (st_results s) (st_finished s)
              (Some e) (st_collected s))
| step_finish :
    active (st_caller s) → st_closed s = true → st_finished s = false → Forall (λ x, x = w_done) (st_workers s) →
    step s (mkState (st_caller s) (st_tasks s) (st_closed s) (st_workers s) (st_results s) true (st_error s) (st_collected s))
| step_collect idx r rest :
    st_caller s = c_collect → st_results s = (idx, r) :: rest →
    step s (match st_error s with
            | Some e => mkState (c_return e) (st_tasks s) (st_closed s) (st_workers s) rest (st_finished s) None (st_collected s)
            | None => mkState c_collect (st_tasks s) (st_closed s) (st_workers s) rest (st_finished s) None
                        (<[idx := Some r]> (st_collected s))
            end)
| step_end :
    st_caller s = c_collect → st_results s = [] → st_finished s = true →
    step s (mkState c_merge (st_tasks s) (st_closed s) (st_workers s) [] true (st_error s) (st_collected s)).
End Workers.

Section Concurrent.
Context (keccak : list byte → list byte).
Context (uint256_Hex : Z → list ascii).
Context (hash : list Z → NodeKey → NodeKey).

(** The outcomes that BuildBlockInfoTree may have, with the setting
    [initBlockInfoTreeConcurrent].  A transaction without a result has no
    entries. *)
Inductive BuildBlockInfoTree (initBlockInfoTreeConcurrent : bool) (numWorkers cpuNum : nat) (order : gset NodeKey → list NodeKey)
    (coinbase : list byte) (blockNumber blockTime blockGasLimit blockGasUsed : Z)
    (ger l1BlockHash previousStateRoot : list byte) (transactionInfos : list ExecutedTxInfo) : outcome (list byte) → Prop :=
| build_serial :
    initBlockInfoTreeConcurrent = false →
    BuildBlockInfoTree initBlockInfoTreeConcurrent numWorkers cpuNum order coinbase blockNumber blockTime blockGasLimit blockGasUsed
      ger l1BlockHash previousStateRoot transactionInfos
      (BuildBlockInfoTreeSerial keccak uint256_Hex hash cpuNum order coinbase blockNumber blockTime blockGasLimit blockGasUsed
         ger l1BlockHash previousStateRoot transactionInfos)
| build_concurrent s :
    initBlockInfoTreeConcurrent = true →
    let n := length transactionInfos in
    rtc (step (task keccak uint256_Hex hash transactionInfos) n) (start n numWorkers) s →
    active (st_caller s) = false →
    BuildBlockInfoTree initBlockInfoTreeConcurrent numWorkers cpuNum order coinbase blockNumber blockTime blockGasLimit blockGasUsed
      ger l1BlockHash previousStateRoot transactionInfos
      (es ← GenerateBlockHeader previousStateRoot coinbase blockNumber blockGasLimit blockTime ger l1BlockHash;
       match st_caller s with
       | c_return e => Err e
       | c_panic => Panic
       | _ =>
           e ← generateBlockGasUsed blockGasUsed;
           build_root hash cpuNum order (es ++ concat (default [] <$> st_collected s) ++ [e])
       end).
End Concurrent.
