(* ===== verification/BlockInfoSpec.v ===== *)
(** The workers of the block info tree always deliver the results of all
    transactions in their order, and the tree is the tree of a fixed list of
    entries.

    The first part is about the step relation of the workers for any function that
    succeeds: an invariant, no deadlock, a bound on the number of steps.  The
    second part is about the entries. *)

From S2P Require Import Prelude Bytes SmtUtils SmtKeys SmtDb SmtTree Smt SmtInsert SmtRefine.
From S2P Require Import SmtBatch SmtBatchEntries SmtBatchSpec SmtBatchRefine ContractHash ContractHashSpec TxHash TxHashSpec BlockInfo.
From Stdlib Require Import Strings.Byte.

Local Open Scope Z_scope.
#[local] Set Warnings "-clear-no-such-hyp".

(** * Workers *)

Section Machine.
Context {R : Type} (run : nat → outcome R) (n : nat) (f : nat → R).
Context (run_ok : ∀ i, (i < n)%nat → run i = Ok (f i)).

Abbreviation worker := (@worker R).
Abbreviation state := (@state R).
Abbreviation step := (step run n).

Definition busy (w : worker) : option nat :=
  match w with w_run i => Some i | w_put i _ => Some i | _ => None end.

(** The transactions whose results are on their way. *)
Definition pending (s : state) : list nat := st_tasks s ++ omap busy (st_workers s) ++ (st_results s).*1.

Definition sent (s : state) : nat := match st_caller s with c_send i => i | _ => n end.

Definition worker_ok (s : state) (w : worker) : Prop :=
  match w with
  | w_put i r => r = f i
  | w_err _ => False
  | w_done => st_closed s = true ∧ st_tasks s = []
  | _ => True
  end.

Record inv (s : state) : Prop := {
  inv_caller : match st_caller s with
    | c_send i => (i ≤ n)%nat ∧ st_closed s = false
    | c_collect => st_closed s = true
    | c_merge => st_closed s = true ∧ st_finished s = true ∧ st_results s = []
    | _ => False
    end;
  inv_error : st_error s = None;
  inv_workers : Forall (worker_ok s) (st_workers s);
  inv_some : st_workers s ≠ [];
  inv_finished : st_finished s = true → Forall (λ x, x = w_done) (st_workers s);
  inv_results : Forall (λ x, x.2 = f x.1) (st_results s);
  inv_nodup : NoDup (pending s);
  inv_pending : ∀ i, i ∈ pending s → (i < sent s)%nat;
  inv_length : length (st_collected s) = n;
  inv_collected : ∀ i r, st_collected s !! i = Some (Some r) → r = f i ∧ (i < sent s)%nat ∧ i ∉ pending s;
  inv_all : ∀ i, (i < sent s)%nat → i ∈ pending s ∨ st_collected s !! i = Some (Some (f i));
}.

(** One worker among the others. *)
Lemma workers_insert (ws : list worker) w y x :
  ws !! w = Some y → ∃ rest, ws ≡ₚ y :: rest ∧ <[w := x]> ws ≡ₚ x :: rest.
Proof.
  intros Hw. exists (take w ws ++ drop (S w) ws). pose proof (lookup_lt_Some _ _ _ Hw) as Hl. split.
  - rewrite <-(take_drop_middle ws w y Hw) at 1. by rewrite Permutation_middle.
  - rewrite insert_take_drop by done. by rewrite Permutation_middle.
Qed.

Lemma sent_le s : inv s → (sent s ≤ n)%nat.
Proof. intros [Hc _ _ _ _ _ _ _ _ _ _]. unfold sent. destruct (st_caller s); by try destruct Hc. Qed.

Lemma NoDup_bound (l : list nat) m : NoDup l → (∀ i, i ∈ l → (i < m)%nat) → (length l ≤ m)%nat.
Proof.
  intros Hnd Hl. rewrite <-(length_seq m 0). apply submseteq_length, NoDup_submseteq; [done|].
  intros i Hi. apply elem_of_seq. specialize (Hl i Hi). lia.
Qed.

(** Steps that move a transaction along keep what is pending. *)
Lemma inv_move s s' :
  inv s → pending s' ≡ₚ pending s → st_caller s' = st_caller s → st_closed s' = st_closed s →
  st_collected s' = st_collected s → st_error s' = None → st_finished s' = st_finished s →
  (st_finished s = true → st_workers s' = st_workers s) →
  match st_caller s with c_merge => st_results s' = [] | _ => True end →
  st_workers s' ≠ [] → Forall (worker_ok s') (st_workers s') → Forall (λ x, x.2 = f x.1) (st_results s') → inv s'.
Proof.
  intros [Hc He Hw Hs Hf Hr Hnd Hp Hl Hcol Hall] Hpend Ec Ecl Ecol Eerr Efin Hfin Hm Hne Hok Hres.
  assert (sent s' = sent s) as Es by (unfold sent; by rewrite Ec).
  split; try done.
  - rewrite Ec, Ecl, Efin. destruct (st_caller s); try done. destruct Hc as (? & ? & _). done.
  - rewrite Efin. intros E. rewrite Hfin by done. by apply Hf.
  - by rewrite Hpend.
  - intros i. rewrite Hpend, Es. apply Hp.
  - by rewrite Ecol.
  - intros i r. rewrite Ecol, Es, Hpend. apply Hcol.
  - intros i. rewrite Ecol, Es, Hpend. apply Hall.
Qed.

Lemma not_finished s w y : inv s → st_workers s !! w = Some y → y ≠ w_done → st_finished s = false.
Proof.
  intros Hi Hw Hy. destruct (st_finished s) eqn:E; [|done]. exfalso. apply Hy.
  pose proof (inv_finished s Hi E) as Hf. by eapply Forall_lookup_1 in Hf.
Qed.

(** A step of a worker: it becomes [x], and the queues change. *)
Lemma inv_worker s s' w y x :
  inv s → st_workers s !! w = Some y → y ≠ w_done → active (st_caller s) → st_workers s' = <[w := x]> (st_workers s) →
  (∀ rest, st_workers s ≡ₚ y :: rest → st_tasks s' ++ omap busy (x :: rest) ++ (st_results s').*1 ≡ₚ pending s) →
  st_caller s' = st_caller s → st_closed s' = st_closed s → st_collected s' = st_collected s → st_error s' = None →
  st_finished s' = st_finished s → worker_ok s' x → (st_tasks s = [] → st_closed s = true → st_tasks s' = []) →
  Forall (λ x, x.2 = f x.1) (st_results s') → inv s'.
Proof.
  intros Hi Hw Hy Hact Ew Hp Ec Ecl Ecol Eerr Efin Hx Htasks Hres.
  destruct (workers_insert _ w y x Hw) as (rest & E1 & E2). eapply inv_move; try done.
  - unfold pending. rewrite Ew, E2. by apply Hp.
  - intros E. by rewrite (not_finished s w y Hi Hw Hy) in E.
  - by destruct (st_caller s).
  - rewrite Ew. intros E. apply (f_equal length) in E. rewrite length_insert in E. apply lookup_lt_Some in Hw. cbn in E. lia.
  - rewrite Ew. apply Forall_insert; [|done]. eapply Forall_impl; [apply (inv_workers s Hi)|].
    intros z. unfold worker_ok. destruct z; try done. rewrite Ecl. intros [? ?]. auto.
Qed.

Lemma send_inv s i :
  inv s → st_caller s = c_send i → (i < n)%nat →
  inv (mkState (c_send (S i)) (st_tasks s ++ [i]) (st_closed s) (st_workers s) (st_results s) (st_finished s) (st_error s) (st_collected s)).
Proof.
  intros [Hc He Hw Hs Hf Hr Hnd Hp Hl Hcol Hall] Ec Hlt. rewrite Ec in Hc. destruct Hc as [_ Hcl]. unfold sent in *. rewrite Ec in *.
  set (s' := mkState _ _ _ _ _ _ _ _). assert (pending s' ≡ₚ i :: pending s) as Hpend.
  { unfold pending. cbn. rewrite <-app_assoc. cbn [app]. by rewrite <-Permutation_middle. }
  split; unfold sent; cbn [s' st_caller st_closed st_error st_workers st_finished st_results st_collected]; try done.
  - eapply Forall_impl; [exact Hw|]. intros x. unfold worker_ok. destruct x; try done. cbn. rewrite Hcl. by intros [? _].
  - rewrite Hpend. constructor; [|done]. intros Hin. specialize (Hp i Hin). lia.
  - intros j. rewrite Hpend. intros [->|Hj]%elem_of_cons; [lia|]. specialize (Hp j Hj). lia.
  - intros j r Hj. rewrite Hpend. destruct (Hcol j r Hj) as (? & ? & ?). split_and!; [done|lia|]. apply not_elem_of_cons. split; [lia|done].
  - intros j Hj. rewrite Hpend. destruct (decide (j = i)) as [->|]; [by left; left|].
    destruct (Hall j) as [?|?]; [lia|left; by right|by right].
Qed.

Lemma close_inv s :
  inv s → st_caller s = c_send n →
  inv (mkState c_collect (st_tasks s) true (st_workers s) (st_results s) (st_finished s) (st_error s) (st_collected s)).
Proof.
  intros [Hc He Hw Hs Hf Hr Hnd Hp Hl Hcol Hall] Ec. unfold sent in *. rewrite Ec in *. destruct Hc as [_ Hcl].
  split; unfold sent; cbn [st_caller st_closed st_error st_workers st_finished st_results st_collected]; try done.
  eapply Forall_impl; [exact Hw|]. intros x. unfold worker_ok. destruct x; try done. cbn. rewrite Hcl. by intros [? _].
Qed.

Lemma collect_inv s idx r rest :
  inv s → st_caller s = c_collect → st_results s = (idx, r) :: rest →
  inv (mkState c_collect (st_tasks s) (st_closed s) (st_workers s) rest (st_finished s) None (<[idx := Some r]> (st_collected s))).
Proof.
  intros [Hc He Hw Hs Hf Hr Hnd Hp Hl Hcol Hall] Ec Er. unfold sent in *. rewrite Ec in *.
  set (s' := mkState _ _ _ _ _ _ _ _). assert (pending s ≡ₚ idx :: pending s') as Hpend.
  { unfold pending. rewrite Er. cbn. by rewrite app_assoc, <-Permutation_middle, <-app_assoc. }
  rewrite Hpend in Hnd. apply NoDup_cons in Hnd as [Hidx Hnd]. rewrite Er in Hr. apply Forall_cons in Hr as [Er' Hr]. cbn in Er'.
  assert (idx < n)%nat as Hlt by (apply Hp; rewrite Hpend; by left).
  split; unfold sent; cbn [s' st_caller st_closed st_error st_workers st_finished st_results st_collected]; try done.
  - intros i Hi. apply Hp. rewrite Hpend. by right.
  - by rewrite length_insert.
  - intros i r' Hi. destruct (decide (i = idx)) as [->|Hne].
    + rewrite list_lookup_insert_eq in Hi by lia. by injection Hi as <-.
    + rewrite list_lookup_insert_ne in Hi by done. destruct (Hcol i r' Hi) as (? & ? & Hn). split_and!; [done..|].
      intros Hin. apply Hn. rewrite Hpend. by right.
  - intros i Hi. destruct (decide (i = idx)) as [->|Hne].
    + right. rewrite list_lookup_insert_eq by lia. by rewrite Er'.
    + rewrite list_lookup_insert_ne by done. destruct (Hall i Hi) as [Hin|?]; [|by right]. left.
      rewrite Hpend in Hin. by apply elem_of_cons in Hin as [|].
Qed.

Lemma step_inv s s' : inv s → step s s' → inv s'.
Proof.
  intros Hi Hstep. pose proof (inv_error s Hi) as He. pose proof (inv_results s Hi) as Hr.
  destruct Hstep as [i Ec Hlt Hcap|Ec|w idx rest Ha Ew Et|w Ha Ew Et Ecl|w idx Ha Ew|w idx r Ha Ew Hcap|w e Ha Ew Ee|Ha Ecl Efin Hd|idx r rest Ec Er|Ec Er Efin].
  - by apply send_inv.
  - by apply close_inv.
  - eapply (inv_worker s _ w w_wait (w_run idx)); try done.
    + intros ws E. unfold pending. rewrite Et, E. cbn. by rewrite <-Permutation_middle.
    + cbn. rewrite Et. done.
  - eapply (inv_worker s _ w w_wait w_done); try done.
    intros ws E. unfold pending. by rewrite Et, E.
  - assert (idx < n)%nat as Hlt.
    { eapply Nat.lt_le_trans; [|by apply sent_le]. apply (inv_pending s Hi). unfold pending. rewrite !elem_of_app. right. left.
      apply list_elem_of_omap. exists (w_run idx). split; [by eapply list_elem_of_lookup_2|done]. }
    rewrite run_ok by done. eapply (inv_worker s _ w (w_run idx) (w_put idx (f idx))); try done.
    intros ws E. unfold pending. by rewrite E.
  - eapply (inv_worker s _ w (w_put idx r) w_wait); try done.
    + intros ws E. unfold pending. rewrite E. cbn. rewrite fmap_app. apply Permutation_app_head. rewrite app_assoc. apply Permutation_app_comm.
    + cbn. apply Forall_app. split; [done|]. constructor; [|constructor]. cbn. pose proof (inv_workers s Hi) as Hw.
      eapply Forall_lookup_1 in Hw; [|exact Ew]. done.
  - exfalso. pose proof (inv_workers s Hi) as Hw. eapply Forall_lookup_1 in Hw; [|exact Ew]. done.
  - destruct Hi as [Hc _ Hw Hs Hf _ Hnd Hp Hl Hcol Hall]. split; try done. cbn. by destruct (st_caller s).
  - rewrite He. by apply collect_inv.
  - destruct Hi as [Hc _ Hw Hs Hf _ Hnd Hp Hl Hcol Hall]. unfold sent, pending in *. rewrite Ec, Er in *.
    split; unfold sent, pending; cbn [st_caller st_tasks st_closed st_error st_workers st_finished st_results st_collected]; auto.
Qed.

(** A worker that is not done, and what it can do. *)
Lemma worker_progress s w y :
  inv s → active (st_caller s) → st_closed s = true → st_results s = [] → st_workers s !! w = Some y → y ≠ w_done → ∃ s', step s s'.
Proof.
  intros Hi Ha Hcl Hr Hw Hy. destruct y as [|idx|idx r|e|]; [| | |exfalso|done].
  - destruct (st_tasks s) as [|idx rest] eqn:Et; eexists; [by eapply step_leave|by eapply step_take].
  - eexists. by eapply step_run.
  - eexists. eapply step_put; [done..|]. rewrite Hr. cbn. eapply Nat.lt_le_trans; [|by apply sent_le].
    eapply Nat.le_lt_trans; [apply Nat.le_0_l|]. apply (inv_pending s Hi idx). unfold pending. rewrite !elem_of_app. right. left.
    apply list_elem_of_omap. exists (w_put idx r). split; [by eapply list_elem_of_lookup_2|done].
  - pose proof (inv_workers s Hi) as H. eapply Forall_lookup_1 in H; [|exact Hw]. done.
Qed.

Lemma progress s : inv s → active (st_caller s) → ∃ s', step s s'.
Proof.
  intros Hi Ha. pose proof (inv_caller s Hi) as Hc. destruct (st_caller s) as [i| | | |] eqn:Ec; try done.
  - destruct (decide (i = n)) as [->|Hne]; [eexists; by apply step_close|]. eexists. apply (step_send _ _ _ i); [done|lia|].
    assert (length (st_tasks s) ≤ i)%nat; [|lia]. apply NoDup_bound.
    + pose proof (inv_nodup s Hi) as Hnd. by apply NoDup_app in Hnd as [? _].
    + intros j Hj. pose proof (inv_pending s Hi j) as Hp. unfold sent in Hp. rewrite Ec in Hp. apply Hp. unfold pending. set_solver.
  - destruct (st_results s) as [|[idx r] rest] eqn:Er; [|eexists; by eapply step_collect].
    destruct (st_finished s) eqn:Ef; [eexists; by eapply step_end|].
    destruct (decide (Forall (λ x : worker, match x with w_done => true | _ => false end = true) (st_workers s))) as [Hd|Hd].
    + eexists. apply step_finish; rewrite ?Ec; try done. eapply Forall_impl; [exact Hd|]. by intros [].
    + apply not_Forall_Exists in Hd; [|apply _]. apply Exists_exists in Hd as (y & Hy & Hn).
      apply list_elem_of_lookup in Hy as [w Hw]. eapply (worker_progress s w y); try done; [by rewrite Ec|]. by intros ->; apply Hn.
Qed.

(** * Every run ends *)

Definition weight (w : worker) : nat :=
  match w with w_wait => 1 | w_run _ => 4 | w_put _ _ => 3 | w_err _ => 2 | w_done => 0 end.

Definition measure (s : state) : nat :=
  5 * (n - sent s) + 4 * length (st_tasks s) + sum_list (weight <$> st_workers s) + length (st_results s) +
  (if st_closed s then 0 else 1) + (if st_finished s then 0 else 1) + (if active (st_caller s) then 1 else 0).

Lemma weight_insert (ws : list worker) w y x :
  ws !! w = Some y → (sum_list (weight <$> <[w := x]> ws) + weight y = sum_list (weight <$> ws) + weight x)%nat.
Proof.
  revert w. induction ws as [|z ws IH]; intros [|w] Hw; [done..| |].
  - injection Hw as ->. cbn. lia.
  - specialize (IH w Hw).
    change (weight z + sum_list (weight <$> <[w := x]> ws) + weight y = weight z + sum_list (weight <$> ws) + weight x)%nat. lia.
Qed.

Lemma step_measure s s' : inv s → step s s' → (measure s' < measure s)%nat.
Proof.
  intros Hi Hstep. pose proof (inv_caller s Hi) as Hc. unfold measure, sent.
  destruct Hstep as [i Ec Hlt Hcap|Ec|w idx rest Ha Ew Et|w Ha Ew Et Ecl|w idx Ha Ew|w idx r Ha Ew Hcap|w e Ha Ew Ee|Ha Ecl Efin Hd|idx r rest Ec Er|Ec Er Efin];
    cbn [st_caller st_tasks st_closed st_error st_workers st_finished st_results st_collected].
  - rewrite Ec, length_app. cbn [length active]. lia.
  - rewrite Ec in *. destruct Hc as [_ ->]. cbn [active]. lia.
  - pose proof (weight_insert _ w w_wait (w_run idx) Ew) as E. unfold set_worker. rewrite Et. cbn [length weight] in *. lia.
  - pose proof (weight_insert _ w w_wait w_done Ew) as E. unfold set_worker. rewrite Et. cbn [length weight] in *. lia.
  - destruct (run idx) as [r|e|]; unfold set_worker; cbn [st_caller st_tasks st_closed st_error st_workers st_finished st_results st_collected].
    + pose proof (weight_insert _ w (w_run idx) (w_put idx r) Ew) as E. cbn [weight] in *. lia.
    + pose proof (weight_insert _ w (w_run idx) (w_err e) Ew) as E. cbn [weight] in *. lia.
    + destruct (st_caller s); cbn [active] in *; try done; lia.
  - pose proof (weight_insert _ w (w_put idx r) w_wait Ew) as E. unfold set_worker. rewrite length_app. cbn [length weight] in *. lia.
  - pose proof (weight_insert _ w (w_err e) w_done Ew) as E. unfold set_worker. cbn [weight] in *. lia.
  - rewrite Efin. lia.
  - rewrite Ec, Er. destruct (st_error s); cbn [st_caller st_tasks st_closed st_error st_workers st_finished st_results length active]; lia.
  - rewrite Ec, Er, Efin. cbn [active length]. lia.
Qed.

Lemma start_inv numWorkers : (0 < numWorkers)%nat → inv (start n numWorkers).
Proof.
  intros Hw. assert (pending (start n numWorkers) = []) as Hp.
  { unfold pending, start. cbn. rewrite app_nil_r. clear. by induction numWorkers. }
  split; cbn [start st_caller st_closed st_error st_workers st_finished st_results st_collected]; try done.
  - split; [lia|done].
  - apply Forall_replicate. done.
  - destruct numWorkers; [lia|done].
  - rewrite Hp. constructor.
  - intros i. rewrite Hp. by intros ?%elem_of_nil.
  - by rewrite length_replicate.
  - intros i r [? _]%lookup_replicate_1. done.
  - intros i Hi. cbn in Hi. lia.
Qed.

Lemma workers_inv numWorkers s : (0 < numWorkers)%nat → rtc step (start n numWorkers) s → inv s.
Proof.
  intros Hw Hr. pose proof (start_inv numWorkers Hw) as Hi. induction Hr as [|s1 s2 s3 Hs _ IH]; [done|].
  apply IH. by eapply step_inv.
Qed.

(** The results at the end. *)
Lemma final_results s : inv s → active (st_caller s) = false → st_caller s = c_merge ∧ st_collected s = Some ∘ f <$> seq 0 n.
Proof.
  intros Hi Ha. pose proof (inv_caller s Hi) as Hc. destruct (st_caller s) eqn:Ec; try done. destruct Hc as (_ & Hfin & Hr).
  split; [done|]. pose proof (inv_finished s Hi Hfin) as Hd.
  assert (pending s = []) as Hp.
  { unfold pending. rewrite Hr, app_nil_r. assert (st_tasks s = []) as ->.
    - pose proof (inv_workers s Hi) as Hw. pose proof (inv_some s Hi) as Hs. destruct (st_workers s) as [|w ws]; [done|].
      apply Forall_cons in Hd as [-> _]. apply Forall_cons in Hw as [[_ ?] _]. done.
    - cbn. induction Hd as [|w ws -> _ IH]; done. }
  apply list_eq. intros i. destruct (decide (i < n)%nat) as [Hlt|Hge].
  - rewrite list_lookup_fmap, lookup_seq_lt by done. cbn. destruct (inv_all s Hi i) as [Hin| ->]; [unfold sent; by rewrite Ec| |done].
    rewrite Hp in Hin. by apply elem_of_nil in Hin.
  - rewrite !lookup_ge_None_2; [done|rewrite length_fmap, length_seq; lia|rewrite (inv_length s Hi); lia].
Qed.

(** Some run ends. *)
Lemma reaches_end s : inv s → ∃ s', rtc step s s' ∧ active (st_caller s') = false.
Proof.
  remember (measure s) as m eqn:Em. revert s Em. induction (lt_wf m) as [m _ IH]. intros s -> Hi.
  destruct (active (st_caller s)) eqn:Ha; [|by exists s]. destruct (progress s Hi) as [s1 Hs]; [by apply Is_true_eq_left|].
  destruct (IH (measure s1) (step_measure s s1 Hi Hs) s1 eq_refl (step_inv s s1 Hi Hs)) as (s' & Hr & Ha').
  exists s'. split; [by eapply rtc_l|done].
Qed.
End Machine.

(** C21. The workers of BuildBlockInfoTree: whatever the scheduler does, when every
    transaction can be processed, no run of them has more than 5 n + w + 3 steps
    for n transactions and w workers, none of them is ever stuck before the
    function is done, and at the end the results of all transactions are there, in
    their order. *)
Theorem workers_deliver {R : Type} (run : nat → outcome R) n f numWorkers :
  (∀ i, (i < n)%nat → run i = Ok (f i)) → (0 < numWorkers)%nat →
  ∀ k s, nsteps (step run n) k (start n numWorkers) s →
    (k ≤ 5 * n + numWorkers + 3)%nat ∧
    ((∃ s', step run n s s') ∨ (st_caller s = c_merge ∧ st_collected s = Some ∘ f <$> seq 0 n)).
Proof.
  intros Hrun Hw k s Hk. split.
  - assert (∀ s0, inv n f s0 → nsteps (step run n) k s0 s → k ≤ measure n s0)%nat as Hm.
    { clear Hk. induction k as [|k IH]; intros s0 Hi Hk; [lia|]. inversion_clear Hk as [|? ? s1 ? Hs Hk'].
      pose proof (step_measure run n f s0 s1 Hi Hs). specialize (IH s1 (step_inv run n f Hrun s0 s1 Hi Hs) Hk'). lia. }
    specialize (Hm _ (start_inv n f numWorkers Hw) Hk). unfold measure, start, sent in Hm. cbn [st_caller st_tasks st_workers st_results
      st_closed st_finished length active] in Hm. rewrite fmap_replicate, sum_list_replicate in Hm. cbn [weight] in Hm. lia.
  - assert (inv n f s) as Hi by (eapply workers_inv; [done..|]; apply rtc_nsteps; by exists k).
    destruct (active (st_caller s)) eqn:Ha; [left; apply (progress run n f); [done..|by apply Is_true_eq_left]|right; by apply final_results].
Qed.

(** The whole run of one task on one worker, which is as long as the bound. *)
Lemma workers_deliver_witness :
  let s := mkState c_merge [] true [w_done] [] true None [Some 49%nat] in
  (9 ≤ 5 * 1 + 1 + 3)%nat ∧
  ((∃ s', step (λ i, Ok (i + 49)%nat) 1 s s') ∨ (st_caller s = c_merge ∧ st_collected s = Some ∘ (λ i, i + 49)%nat <$> seq 0 1)).
Proof.
  apply (workers_deliver (λ i, Ok (i + 49)%nat) 1 (λ i, i + 49)%nat 1); [done|lia|].
  eapply nsteps_l; [by apply (step_send _ _ _ 0); cbn; [|lia..]|cbn]. eapply nsteps_l; [by apply step_close|cbn].
  eapply nsteps_l; [by eapply (step_take _ _ _ 0)|cbn]. eapply nsteps_l; [by eapply (step_run _ _ _ 0)|cbn].
  eapply nsteps_l; [by eapply (step_put _ _ _ 0); cbn; [..|lia]|cbn]. eapply nsteps_l; [by eapply (step_leave _ _ _ 0)|cbn].
  eapply nsteps_l; [by apply step_finish; repeat constructor|cbn]. eapply nsteps_l; [by eapply step_collect|cbn].
  eapply nsteps_l; [by apply step_end|cbn]. apply nsteps_O.
Defined.

(** * The entries *)

Definition word (z : Z) : list Z := ScalarToArrayBig z.
Definition as_entry (u : NodeKey * list Z) : entry := (u.1, Some <$> u.2).

Lemma bigInt2NodeVal8_ok z : bigInt2NodeVal8 z = Ok (Some <$> word z).
Proof. done. Qed.

Section Entries.
Context (hash : list Z → NodeKey → NodeKey).

(** The key of the field [c] of the transaction [i], and of a log. *)
Definition field_key (i c : Z) : NodeKey := match KeyBig hash (Some i) c with Ok k => k | _ => nk_zero end.
Definition log_key (i j : Z) : NodeKey :=
  hash (ToUintArray (key_input (ScalarToArrayBig i) IndexBlockHeaderLogs)) (hash (ToUintArray (Some <$> word j)) BranchCapacity).

Definition log_value (l : Log) : Z := bytecode_hash hash (bz <$> Data l ++ concat (Topics l)).

Definition l2_of (info : ExecutedTxInfo) : L2Tx :=
  let t := Tx info in
  mkL2Tx (GetChainID t) (GetValue t) (GetPrice t) (GetNonce t) (GetGas t) (GetTo t) (default [] (Signer info)) (GetData t).

Definition tx_updates (i : nat) (logIndex : Z) (info : ExecutedTxInfo) : list (NodeKey * list Z) :=
  let x := Z.of_nat i in
  let receipt := TxReceipt info in
  [(field_key x IndexBlockHeaderTransactionHash, word (be_val (BigToHash (bytecode_hash hash (l2_bytes (l2_of info))))));
   (field_key x IndexBlockHeaderStatus, word (Status receipt));
   (field_key x IndexBlockHeaderCumulativeGasUsed, word (CumulativeGasUsed receipt))] ++
  imap (λ j l, (log_key x (logIndex + Z.of_nat j), word (log_value l))) (Logs receipt) ++
  [(field_key x IndexBlockHeaderEffectivePercentage, word (EffectiveGasPrice info))].

(** The number of logs of the transactions before [i]. *)
Definition logs_before (infos : list ExecutedTxInfo) (i : nat) : Z :=
  foldl (λ n x, n + Z.of_nat (length (Logs (TxReceipt x)))) 0 (take i infos).

Definition header_updates (coinbase : list byte) (blockNumber blockTime blockGasLimit : Z) (ger l1BlockHash previousStateRoot : list byte)
    : list (NodeKey * list Z) :=
  [(BlockHeaderBlockHashKey, word (be_val previousStateRoot)); (BlockHeaderCoinbaseKey, word (be_val (BytesToHash coinbase)));
   (BlockHeaderNumberKey, word blockNumber); (BlockHeaderGasLimitKey, word blockGasLimit); (BlockHeaderTimestampKey, word blockTime);
   (BlockHeaderGerKey, word (be_val ger)); (BlockHeaderBlockHashL1Key, word (be_val l1BlockHash))].

(** The header, the transactions in their order, and the gas used. *)
Definition block_updates (coinbase : list byte) (blockNumber blockTime blockGasLimit blockGasUsed : Z)
    (ger l1BlockHash previousStateRoot : list byte) (infos : list ExecutedTxInfo) : list (NodeKey * list Z) :=
  header_updates coinbase blockNumber blockTime blockGasLimit ger l1BlockHash previousStateRoot ++
  concat (imap (λ i info, tx_updates i (logs_before infos i) info) infos) ++ [(BlockHeaderGasUsedKey, word blockGasUsed)].

Definition info_wf (info : ExecutedTxInfo) : Prop := is_Some (Signer info) ∧ l2_wf (l2_of info).

#[export] Instance info_wf_dec info : Decision (info_wf info).
Proof. unfold info_wf. apply _. Defined.

Lemma KeyBig_field i c : KeyBig hash (Some i) c = Ok (field_key i c).
Proof. unfold field_key. cbn [KeyBig]. destruct StringToH4_zeroes as [x ->]. done. Qed.

Lemma log_value_ok l : HashContractBytecodeBigInt hash (log_text l) = Ok (log_value l).
Proof.
  apply HashContractBytecodeBigInt_spec. unfold log_text. change (trim0x (prefix0x ++ ?x)) with x.
  assert (flat_map (λ topic, drop 2 (Hash_Hex topic)) (Topics l) = EncodeToString (concat (Topics l))) as ->.
  { unfold EncodeToString. induction (Topics l) as [|x xs IH]; [done|]. cbn [flat_map concat]. rewrite IH, flat_map_app. done. }
  assert (EncodeToString (Data l) ++ EncodeToString (concat (Topics l)) = EncodeToString (Data l ++ concat (Topics l))) as ->.
  { unfold EncodeToString. by rewrite flat_map_app. }
  unfold text_bytes. rewrite digits_EncodeToString. cbn [fmap option_fmap option_map].
  rewrite length_bytes_digits, <-Nat.negb_even. replace (Nat.even (2 * length (Data l ++ concat (Topics l)))) with true.
  - cbn [negb]. by rewrite pair_up_bytes.
  - symmetry. apply even_div_2. lia.
Qed.

Context (hash_wf : ∀ i c, nk_wf (hash i c)).
Context (keccak : list byte → list byte) (keccak_len : ∀ x, length (keccak x) = 32%nat).
Context (uint256_Hex : Z → list ascii).
Context (uint256_Hex_spec : ∀ v, 0 ≤ v < 2 ^ 256 → uint256_Hex v = prefix0x ++ big_hex v).

Lemma generateTxLog_ok i j v : generateTxLog hash i j v = Ok (as_entry (log_key i j, word v)).
Proof. done. Qed.

Lemma log_loop x logs : ∀ es logIndex,
  foldM (λ '(es, logIndex) rLog,
    logEncodedBig ← HashContractBytecodeBigInt hash (log_text rLog);
    e ← generateTxLog hash x logIndex logEncodedBig;
    Ok (es ++ [e], logIndex + 1)) (es, logIndex) logs =
  Ok (es ++ (as_entry <$> imap (λ j l, (log_key x (logIndex + Z.of_nat j), word (log_value l))) logs), logIndex + Z.of_nat (length logs)).
Proof.
  induction logs as [|l logs IH]; intros es logIndex; [by rewrite app_nil_r, Z.add_0_r|].
  cbn [foldM]. rewrite log_value_ok, bind_Ok, generateTxLog_ok, !bind_Ok, IH.
  do 2 f_equal; [|cbn [length]; lia]. rewrite <-app_assoc. cbn [imap fmap list_fmap app]. do 2 f_equal.
  - unfold as_entry. cbn [fst snd]. by rewrite Z.add_0_r.
  - f_equal. apply imap_ext. intros j y _. cbn. do 2 f_equal. lia.
Qed.

Lemma tx_entries_spec i logIndex info :
  info_wf info → tx_entries keccak uint256_Hex hash i logIndex info = Ok (as_entry <$> tx_updates i logIndex info).
Proof.
  intros [[signer Es] Hwf]. unfold tx_entries. cbn zeta.
  pose proof (ComputeL2TxHash_spec keccak keccak_len uint256_Hex uint256_Hex_spec hash (l2_of info) Hwf) as E.
  unfold l2_hash, l2_of in E. cbn [l2_chainId l2_value l2_gasPrice l2_nonce l2_gas l2_to l2_from l2_data] in E.
  rewrite Es in E. cbn [default from_option id] in E. rewrite Es, E, bind_Ok. clear E.
  unfold GenerateBlockTxKeysVals, generateL2TxHash, generateTxStatus, generateCumulativeGasUsed, generateTxEffectivePercentage,
    KeyTxHash, KeyTxStatus, KeyCumulativeGasUsed, KeyEffectivePercentage.
  rewrite !KeyBig_field, !bigInt2NodeVal8_ok, !bind_Ok, log_loop, !bind_Ok.
  unfold tx_updates, l2_of. rewrite Es. cbn [default from_option id]. cbn zeta. rewrite !fmap_app. cbn [fmap list_fmap]. by rewrite app_assoc.
Qed.

Abbreviation tx_entries := (tx_entries keccak uint256_Hex hash).
Abbreviation task := (task keccak uint256_Hex hash).

Lemma add_tx_ok es logIndex i info :
  info_wf info →
  add_tx keccak uint256_Hex hash (es, logIndex) (i, info) =
    Ok (es ++ (as_entry <$> tx_updates i logIndex info), logIndex + Z.of_nat (length (Logs (TxReceipt info)))).
Proof. intros Hi. unfold add_tx. by rewrite tx_entries_spec, bind_Ok. Qed.

(** The entries of transactions that follow those in [pre]. *)
Lemma add_tx_all_spec suf : ∀ pre es,
  Forall info_wf suf →
  foldM (add_tx keccak uint256_Hex hash) (es, logs_before (pre ++ suf) (length pre)) (imap (λ i, pair (length pre + i)%nat) suf) =
  Ok (es ++ (as_entry <$> concat (imap (λ i info, tx_updates (length pre + i) (logs_before (pre ++ suf) (length pre + i)) info) suf)),
      logs_before (pre ++ suf) (length (pre ++ suf))).
Proof.
  induction suf as [|info suf IH]; intros pre es Hwf; [by rewrite !app_nil_r|]. apply Forall_cons in Hwf as [Hi Hwf].
  cbn [imap foldM]. rewrite Nat.add_0_r, add_tx_ok, !bind_Ok by done.
  specialize (IH (pre ++ [info]) (es ++ (as_entry <$> tx_updates (length pre) (logs_before (pre ++ info :: suf) (length pre)) info)) Hwf).
  rewrite length_app in IH. cbn [length] in IH. rewrite <-app_assoc in IH. cbn [app] in IH.
  assert (logs_before (pre ++ info :: suf) (length pre + 1) = logs_before (pre ++ info :: suf) (length pre) + Z.of_nat (length (Logs (TxReceipt info)))) as El.
  { unfold logs_before. rewrite take_app_add', take_app_length, foldl_app by done. done. }
  rewrite <-El. replace (imap _ suf) with (imap (λ i : nat, @pair nat ExecutedTxInfo (length pre + 1 + i)%nat) suf).
  2: { apply imap_ext. intros j x _. cbn. f_equal. lia. }
  rewrite IH. do 2 f_equal. rewrite <-app_assoc. cbn [concat]. rewrite fmap_app. do 3 f_equal.
  f_equal. apply imap_ext. intros j x _. cbn. by replace (length pre + 1 + j)%nat with (length pre + S j)%nat by lia.
Qed.

Lemma task_spec infos idx :
  Forall info_wf infos → (idx < length infos)%nat →
  task infos idx = Ok (match infos !! idx with Some info => as_entry <$> tx_updates idx (logs_before infos idx) info | None => [] end).
Proof.
  intros Hwf Hlt. unfold BlockInfo.task. destruct (lookup_lt_is_Some_2 infos idx Hlt) as [info Ei]. rewrite Ei.
  apply tx_entries_spec. by eapply Forall_lookup_1.
Qed.

Lemma fmap_concat {A B} (g : A → B) (ls : list (list A)) : (g <$> concat ls) = concat (fmap (M := list) g <$> ls).
Proof. induction ls as [|l ls IH]; [done|]. cbn [concat]. by rewrite fmap_app, IH. Qed.

Lemma merged_entries infos :
  concat (default [] <$> (Some ∘ (λ idx, match infos !! idx with
    | Some info => as_entry <$> tx_updates idx (logs_before infos idx) info | None => [] end) <$> seq 0 (length infos))) =
  as_entry <$> concat (imap (λ i info, tx_updates i (logs_before infos i) info) infos).
Proof.
  rewrite <-list_fmap_compose, fmap_concat. f_equal. apply list_eq. intros i. rewrite !list_lookup_fmap, list_lookup_imap.
  destruct (infos !! i) as [info|] eqn:Ei.
  - rewrite lookup_seq_lt by (by apply lookup_lt_Some in Ei). cbn. by rewrite Ei.
  - rewrite (lookup_ge_None_2 (seq _ _)); [done|]. rewrite length_seq. by apply lookup_ge_None in Ei.
Qed.

Lemma word_wf z : word8 (word z).
Proof. split; [done|apply ScalarToArrayBig_u64]. Qed.

Lemma field_key_wf i c : nk_wf (field_key i c).
Proof. unfold field_key. cbn [KeyBig]. destruct StringToH4_zeroes as [x ->]. cbn. apply hash_wf. Qed.

Lemma tx_updates_wf i logIndex info : updates_wf (tx_updates i logIndex info).
Proof.
  unfold tx_updates, updates_wf. cbn zeta. rewrite !Forall_app.
  split; [|split]; [repeat (apply Forall_cons; split; [split; [apply field_key_wf|apply word_wf]|]); constructor| |
    apply Forall_singleton; split; [apply field_key_wf|apply word_wf]].
  apply Forall_forall. intros u Hu. apply list_elem_of_lookup in Hu as [j Hj]. rewrite list_lookup_imap in Hj.
  apply fmap_Some in Hj as (l & _ & ->). split; [apply hash_wf|apply word_wf].
Qed.

Lemma block_updates_wf coinbase blockNumber blockTime blockGasLimit blockGasUsed ger l1BlockHash previousStateRoot infos :
  updates_wf (block_updates coinbase blockNumber blockTime blockGasLimit blockGasUsed ger l1BlockHash previousStateRoot infos).
Proof.
  unfold block_updates, updates_wf. rewrite !Forall_app. split; [|split].
  - unfold header_updates. repeat (apply Forall_cons; split; [split; [by apply (bool_decide_unpack _)|apply word_wf]|]). constructor.
  - apply Forall_concat, Forall_forall. intros us Hus. apply list_elem_of_lookup in Hus as [j Hj]. rewrite list_lookup_imap in Hj.
    apply fmap_Some in Hj as (info & _ & ->). apply tx_updates_wf.
  - apply Forall_singleton. split; [by apply (bool_decide_unpack _)|apply word_wf].
Qed.

Section Build.
Context (order : gset NodeKey → list NodeKey) (order_elements : ∀ X, order X ≡ₚ elements X).
Context (cpuNum : nat) (cpuNum_pos : (0 < cpuNum)%nat).
Context (coinbase : list byte) (blockNumber blockTime blockGasLimit blockGasUsed : Z).
Context (ger l1BlockHash previousStateRoot : list byte) (infos : list ExecutedTxInfo).

Let updates := block_updates coinbase blockNumber blockTime blockGasLimit blockGasUsed ger l1BlockHash previousStateRoot infos.

Definition block_root : outcome (list byte) := Ok (BigToHash (NodeKey_ToBigInt (map_root hash (map_sets ∅ updates)))).

Context (infos_wf : Forall info_wf infos).
Context (updates_ok : batch_ok hash ∅ ∅ (last_entries updates)).

Lemma build_root_spec : build_root hash cpuNum order (as_entry <$> updates) = block_root.
Proof.
  unfold build_root. replace ((as_entry <$> updates).*1) with updates.*1 by (by rewrite <-list_fmap_compose).
  replace ((as_entry <$> updates).*2) with (batch_values updates) by (unfold batch_values; by rewrite <-!list_fmap_compose).
  destruct (InsertBatch_unsaved hash hash_wf order order_elements cpuNum MemDb.NewMemDb updates) as [d' E];
    [done|done|done|by apply block_updates_wf|done|done|]. rewrite E. done.
Qed.

Lemma header_spec :
  GenerateBlockHeader previousStateRoot coinbase blockNumber blockGasLimit blockTime ger l1BlockHash =
  Ok (as_entry <$> header_updates coinbase blockNumber blockTime blockGasLimit ger l1BlockHash previousStateRoot).
Proof. done. Qed.

Lemma updates_split :
  as_entry <$> updates = (as_entry <$> header_updates coinbase blockNumber blockTime blockGasLimit ger l1BlockHash previousStateRoot) ++
    (as_entry <$> concat (imap (λ i info, tx_updates i (logs_before infos i) info) infos)) ++ [as_entry (BlockHeaderGasUsedKey, word blockGasUsed)].
Proof. unfold updates, block_updates. by rewrite !fmap_app. Qed.

Lemma serial_spec :
  BuildBlockInfoTreeSerial keccak uint256_Hex hash cpuNum order coinbase blockNumber blockTime blockGasLimit blockGasUsed
    ger l1BlockHash previousStateRoot infos = block_root.
Proof.
  unfold BuildBlockInfoTreeSerial. rewrite header_spec, bind_Ok.
  pose proof (add_tx_all_spec infos [] (as_entry <$> header_updates coinbase blockNumber blockTime blockGasLimit ger l1BlockHash previousStateRoot) infos_wf) as E.
  cbn [app length Nat.add] in E. change (logs_before infos 0) with 0 in E.
  change (imap (λ i, pair i) infos) with (imap (@pair nat ExecutedTxInfo) infos) in E. rewrite E, bind_Ok.
  change (generateBlockGasUsed blockGasUsed) with (Ok (as_entry (BlockHeaderGasUsedKey, word blockGasUsed))). rewrite bind_Ok.
  rewrite <-app_assoc, <-updates_split. apply build_root_spec.
Qed.

Lemma concurrent_spec numWorkers concurrent :
  (0 < numWorkers)%nat →
  let build := BuildBlockInfoTree keccak uint256_Hex hash concurrent numWorkers cpuNum order coinbase blockNumber blockTime
    blockGasLimit blockGasUsed ger l1BlockHash previousStateRoot infos in
  (∃ o, build o) ∧ ∀ o, build o → o = block_root.
Proof.
  intros Hw build. set (n := length infos).
  assert (∀ i, (i < n)%nat → task infos i = Ok (match infos !! i with
    | Some info => as_entry <$> tx_updates i (logs_before infos i) info | None => [] end)) as Hrun by (intros i Hi; by apply task_spec).
  split.
  - destruct concurrent; [|eexists; by apply build_serial].
    destruct (reaches_end (task infos) n _ Hrun (start n numWorkers)) as (s & Hr & Ha); [by apply start_inv|].
    eexists. by eapply build_concurrent.
  - intros o [_|s _ n' Hr Ha]; [apply serial_spec|].
    destruct (final_results n _ s (workers_inv (task infos) n _ Hrun numWorkers s Hw Hr) Ha) as [-> ->].
    rewrite header_spec, bind_Ok.
    change (generateBlockGasUsed blockGasUsed) with (Ok (as_entry (BlockHeaderGasUsedKey, word blockGasUsed))). rewrite bind_Ok.
    unfold n. rewrite merged_entries, <-updates_split. apply build_root_spec.
Qed.
End Build.
End Entries.

(** C8. BuildBlockInfoTree returns, with any setting, any number of workers and any
    schedule of them, and whatever it returns is the root of the tree of the block:
    the seven header fields, then for every transaction its hash, status, gas,
    logs, numbered through the block, and percentage, then the gas used.  So the
    concurrent version and the serial one agree. *)
Theorem BuildBlockInfoTree_root hash keccak uint256_Hex order cpuNum numWorkers concurrent coinbase blockNumber blockTime blockGasLimit
    blockGasUsed ger l1BlockHash previousStateRoot infos :
  (∀ i c, nk_wf (hash i c)) → (∀ x, length (keccak x) = 32%nat) →
  (∀ v, 0 ≤ v < 2 ^ 256 → uint256_Hex v = prefix0x ++ big_hex v) → (∀ X, order X ≡ₚ elements X) →
  (0 < cpuNum)%nat → (0 < numWorkers)%nat → Forall info_wf infos →
  batch_ok hash ∅ ∅ (last_entries (block_updates hash coinbase blockNumber blockTime blockGasLimit blockGasUsed ger l1BlockHash
    previousStateRoot infos)) →
  let build := BuildBlockInfoTree keccak uint256_Hex hash concurrent numWorkers cpuNum order coinbase blockNumber blockTime
    blockGasLimit blockGasUsed ger l1BlockHash previousStateRoot infos in
  (∃ o, build o) ∧
  ∀ o, build o → o = block_root hash coinbase blockNumber blockTime blockGasLimit blockGasUsed ger l1BlockHash previousStateRoot infos.
Proof. intros. by apply concurrent_spec. Qed.

Definition sample_info (status : Z) (logs : list Log) : ExecutedTxInfo :=
  mkExecutedTxInfo (mkTransaction (Some 196) (Some 5) (Some 1000) 3 21000 (Some (replicate 20 xab)) [x01]) 255
    (mkReceipt status 21000 logs) (Some (replicate 20 xcd)).

Definition sample_infos : list ExecutedTxInfo :=
  [sample_info 1 [mkLog [replicate 32 x11] [x22; x33]; mkLog [] []]; sample_info 0 [mkLog [] [x44]]].

Lemma BuildBlockInfoTree_root_witness :
  let build := BuildBlockInfoTree (λ x, BytesToHash (rev x)) (λ v, prefix0x ++ big_hex v) sample_hash true 2 4 elements
    (replicate 20 x01) 7 1700000000 30000000 42000 (replicate 32 x00) (replicate 32 x05) (replicate 32 x06) sample_infos in
  (∃ o, build o) ∧
  ∀ o, build o → o = block_root sample_hash (replicate 20 x01) 7 1700000000 30000000 42000 (replicate 32 x00) (replicate 32 x05)
    (replicate 32 x06) sample_infos.
Proof.
  apply BuildBlockInfoTree_root.
  - apply sample_hash_wf.
  - intros x. apply length_set_bytes.
  - done.
  - done.
  - lia.
  - lia.
  - apply (bool_decide_unpack _). vm_compute. exact I.
  - apply (@bool_decide_unpack _ (batch_ok_dec _ _ _ _)). vm_compute. exact I.
Defined.

(** If a transaction cannot be processed, the error may be lost: with one
    transaction, the function goes on without its entries, and with two, both of
    which fail, it can wait forever. *)
Theorem workers_lose_errors {R : Type} e :
  (∃ s : state, rtc (step (λ _, Err e : outcome R) 1) (start 1 1) s ∧ st_caller s = c_merge ∧ st_collected s = [None]) ∧
  (∃ s : state, rtc (step (λ _, Err e : outcome R) 2) (start 2 2) s ∧ st_caller s = c_collect ∧
    ¬ ∃ s', step (λ _, Err e : outcome R) 2 s s').
Proof.
  split.
  - exists (mkState c_merge [] true [w_done] [] true (Some e) [None]). split; [|done].
    eapply rtc_l; [by apply (step_send _ _ _ 0); cbn; [|lia..]|cbn]. eapply rtc_l; [by apply step_close|cbn].
    eapply rtc_l; [by eapply (step_take _ _ _ 0)|cbn]. eapply rtc_l; [by eapply (step_run _ _ _ 0)|cbn].
    eapply rtc_l; [by eapply (step_err _ _ _ 0)|cbn]. eapply rtc_l; [by apply step_finish; repeat constructor|cbn].
    eapply rtc_l; [by apply step_end|cbn]. apply rtc_refl.
  - exists (mkState c_collect [] true [w_done; w_err e] [] false (Some e) [None; None]). split; [|split; [done|]].
    + eapply rtc_l; [by apply (step_send _ _ _ 0); cbn; [|lia..]|cbn]. eapply rtc_l; [by apply (step_send _ _ _ 1); cbn; [|lia..]|cbn].
      eapply rtc_l; [by apply step_close|cbn]. eapply rtc_l; [by eapply (step_take _ _ _ 0)|cbn]. eapply rtc_l; [by eapply (step_take _ _ _ 1)|cbn].
      eapply rtc_l; [by eapply (step_run _ _ _ 0)|cbn]. eapply rtc_l; [by eapply (step_run _ _ _ 1)|cbn].
      eapply rtc_l; [by eapply (step_err _ _ _ 0)|cbn]. apply rtc_refl.
    + intros [s' H]. inversion H as [| |w| w|w|w|w|_ _ _ Hd| |]; simplify_eq/=; try (by destruct w as [|[|]]).
      by apply Forall_cons in Hd as [_ [? _]%Forall_cons].
Qed.
