(* ===== verification/L1InfoTree.v ===== *)
(** The L1 info tree: src/zk/l1infotree/tree.go and hash.go.

    An append-only Merkle tree over global exit roots, kept as the list of
    left siblings of the next leaf.  Keccak-256 is a parameter, of which only
    the length of its result is used.  The specification is [mroot], the root
    of the perfect tree of a given height over the leaves padded with zeros;
    BuildL1InfoRoot computes it level by level, AddLeaf incrementally, and
    ComputeMerkleProof gives the siblings of a leaf. *)

From S2P Require Import Prelude Bytes.
From Stdlib Require Import Strings.Byte.

Local Open Scope Z_scope.

(** * Definitions *)

(** A [32]byte. *)
Definition hash32 : Type := list byte.

Record L1InfoTree := mkTree {
  height : nat;
  zeroHashes : list hash32;
  count : Z;
  siblings : list hash32;
  currentRoot : hash32;
  allLeaves : gset hash32;
}.

Section Tree.
Context (keccak : list byte → list byte).

Definition Hash (data : list hash32) : hash32 := keccak (concat data).

Definition HashLeafData (ger prevBlockHash : hash32) (minTimestamp : Z) : hash32 :=
  keccak (ger ++ prevBlockHash ++ be_bytes 8 minTimestamp).

(** The loop of generateZeroHashes: [n] more levels above the hash [z]. *)
Fixpoint zero_levels (n : nat) (z : hash32) : list hash32 :=
  match n with
  | O => [z]
  | S n => z :: zero_levels n (Hash [z; z])
  end.

Definition generateZeroHashes (height : nat) : list hash32 := zero_levels height (replicate 32 x00).

(** The hashes of the pairs; a last leaf without a partner panics. *)
Fixpoint buildIntermediate (leaves : list hash32) : outcome (list hash32) :=
  match leaves with
  | [] => Ok []
  | [_] => Panic
  | l :: r :: leaves =>
      hashes ← buildIntermediate leaves;
      Ok (Hash [l; r] :: hashes)
  end.

(** [if len(leaves)%2 == 1 { leaves = append(leaves, mt.zeroHashes[h]) }] *)
Definition pad_odd (zeroHashes leaves : list hash32) (h : nat) : outcome (list hash32) :=
  if (Nat.odd (length leaves)) then z ← go_index zeroHashes (Z.of_nat h); Ok (leaves ++ [z]) else Ok leaves.

Definition nonempty_leaves (mt : L1InfoTree) (leaves : list hash32) : outcome (list hash32) :=
  match leaves with
  | [] => z ← go_index (zeroHashes mt) 0; Ok [z]
  | _ => Ok leaves
  end.

(** One level: the new nodes [ns] are the new leaves. *)
Definition build_level (mt : L1InfoTree) (leaves : list hash32) (h : nat) : outcome (list hash32) :=
  leaves ← pad_odd (zeroHashes mt) leaves h;
  buildIntermediate leaves.

Definition BuildL1InfoRoot (mt : L1InfoTree) (leaves : list hash32) : outcome hash32 :=
  leaves ← nonempty_leaves mt leaves;
  ns ← foldM (λ st h, Some <$> build_level mt (default leaves st) h) None (seq 0 (height mt));
  match ns with
  | Some [n] => Ok (BytesToHash n)
  | _ => Err "error: more than one root detected"
  end.

(** One level of ComputeMerkleProof: the leaves, the index and the siblings so far. *)
Definition proof_level (mt : L1InfoTree) (st : list hash32 * Z * list hash32) (h : nat)
    : outcome (list hash32 * Z * list hash32) :=
  let '(leaves, index, sibs) := st in
  leaves ← pad_odd (zeroHashes mt) leaves h;
  sib ← (if u32 (Z.of_nat (length leaves)) <=? index then go_index (zeroHashes mt) (Z.of_nat h)
         else if index mod 2 =? 1 then go_index leaves (index - 1)
         else go_index leaves (index + 1));
  hashes ← buildIntermediate leaves;
  Ok (hashes, index / 2, sibs ++ [sib]).

Definition ComputeMerkleProof (mt : L1InfoTree) (gerIndex : Z) (leaves : list hash32)
    : outcome (list hash32 * hash32) :=
  leaves ← nonempty_leaves mt leaves;
  '(ns, _, sibs) ← foldM (proof_level mt) (leaves, gerIndex, []) (seq 0 (height mt));
  match height mt, ns with
  | S _, [n] => Ok (sibs, BytesToHash n)
  | _, _ => Err "error: more than one root detected"
  end.

Definition initSiblings (mt : L1InfoTree) (initialLeaves : list hash32) : outcome (list hash32 * hash32) :=
  if negb (count mt =? u32 (Z.of_nat (length initialLeaves)))
  then Err "error: mt.count and initialLeaves length mismatch"
  else if count mt =? 0 then
    sibs ← foldM (λ sibs h, z ← go_index (zeroHashes mt) (Z.of_nat h); Ok (sibs ++ [z])) [] (seq 0 (height mt));
    root ← BuildL1InfoRoot mt initialLeaves;
    Ok (sibs, root)
  else ComputeMerkleProof mt (count mt) initialLeaves.

Definition NewL1InfoTree (height : nat) (initialLeaves : list hash32) : outcome L1InfoTree :=
  let mt := mkTree height (generateZeroHashes height) (u32 (Z.of_nat (length initialLeaves)))
              [] (replicate 32 x00) ∅ in
  '(sibs, root) ← initSiblings mt initialLeaves;
  Ok (mkTree height (zeroHashes mt) (count mt) sibs root (list_to_set initialLeaves)).

Definition ResetL1InfoTree (mt : L1InfoTree) (initialLeaves : list hash32) : outcome L1InfoTree :=
  NewL1InfoTree 32 initialLeaves.

(** One level of AddLeaf: the current hash, whether the subtree is still
    filled, and the siblings. *)
Definition add_level (mt : L1InfoTree) (index : Z) (st : hash32 * bool * list hash32) (h : nat)
    : outcome (hash32 * bool * list hash32) :=
  let '(cur, isFilledSubTree, sibs) := st in
  if 0 <? Z.land index (u32 (Z.shiftl 1 (Z.of_nat h))) then
    sib ← go_index sibs (Z.of_nat h);
    Ok (Hash [sib; cur], isFilledSubTree, sibs)
  else
    sibs ← (if isFilledSubTree : bool then _ ← go_index sibs (Z.of_nat h); Ok (<[h := cur]> sibs) else Ok sibs);
    z ← go_index (zeroHashes mt) (Z.of_nat h);
    Ok (Hash [cur; z], false, sibs).

Definition AddLeaf (mt : L1InfoTree) (index : Z) (leaf : hash32) : outcome (hash32 * L1InfoTree) :=
  if negb (index =? count mt) then Err "mismatched leaf count"
  else
    '(cur, _, sibs) ← foldM (add_level mt index) (leaf, true, siblings mt) (seq 0 (height mt));
    Ok (cur, mkTree (height mt) (zeroHashes mt) (u32 (count mt + 1)) sibs cur ({[leaf]} ∪ allLeaves mt)).

Definition LeafExists (mt : L1InfoTree) (leaf : hash32) : bool := bool_decide (leaf ∈ allLeaves mt).

Definition GetCurrentRootCountAndSiblings (mt : L1InfoTree) : hash32 * Z * list hash32 :=
  (currentRoot mt, count mt, siblings mt).
End Tree.

(** * The specification *)

Section Spec.
Context (keccak : list byte → list byte).
Context (keccak_len : ∀ x, length (keccak x) = 32%nat).


Definition zero32 : hash32 := replicate 32 x00.

(** The root of the perfect tree of height [h] over [ls], padded with zeros. *)
Fixpoint mroot (h : nat) (ls : list hash32) : hash32 :=
  match h with
  | O => default zero32 (head ls)
  | S h => Hash keccak [mroot h (take (2 ^ h) ls); mroot h (drop (2 ^ h) ls)]
  end.

(** The [j]-th node of level [h]. *)
Definition node (h j : nat) (ls : list hash32) : hash32 := mroot h (take (2 ^ h) (drop (j * 2 ^ h) ls)).

Lemma pow2_pos h : (0 < 2 ^ h)%nat.
Proof. apply Nat.neq_0_lt_0, Nat.pow_nonzero. lia. Qed.

Lemma mroot_take h ls : mroot h (take (2 ^ h) ls) = mroot h ls.
Proof.
  revert ls. induction h as [|h IH]; intros ls; [by destruct ls|]. cbn [mroot].
  pose proof (pow2_pos h). rewrite Nat.pow_succ_r', take_take, Nat.min_l by lia.
  rewrite skipn_firstn_comm. replace (2 * 2 ^ h - 2 ^ h)%nat with (2 ^ h)%nat by lia.
  by rewrite !IH.
Qed.

Lemma node_mroot h j ls : node h j ls = mroot h (drop (j * 2 ^ h) ls).
Proof. apply mroot_take. Qed.

(** A node is the hash of its two children. *)
Lemma node_S h j ls : node (S h) j ls = Hash keccak [node h (2 * j) ls; node h (2 * j + 1) ls].
Proof.
  rewrite !node_mroot. cbn [mroot]. rewrite mroot_take, drop_drop. do 3 f_equal.
  - f_equal. rewrite Nat.pow_succ_r'. lia.
  - do 2 f_equal. rewrite Nat.pow_succ_r'. lia.
Qed.

Lemma node_0 j ls : node 0 j ls = default zero32 (ls !! j).
Proof.
  rewrite node_mroot. simpl. rewrite Nat.mul_1_r, head_lookup, lookup_drop. do 2 f_equal. lia.
Qed.

Lemma mroot_node h ls : mroot h ls = node h 0 ls.
Proof. by rewrite node_mroot. Qed.

(** The zero hashes are the roots of empty trees. *)
Lemma lookup_zero_levels n h k : 
  (h ≤ n)%nat → zero_levels keccak n (mroot k []) !! h = Some (mroot (k + h) []).
Proof.
  revert h k. induction n as [|n IH]; intros [|h] k Hh; [|lia| |].
  - simpl. by rewrite Nat.add_0_r.
  - simpl. by rewrite Nat.add_0_r.
  - cbn [zero_levels]. assert (Hash keccak [mroot k []; mroot k []] = mroot (S k) []) as ->
      by (cbn [mroot]; by rewrite take_nil, drop_nil).
    cbn [lookup list_lookup]. rewrite IH by lia. do 2 f_equal. lia.
Qed.

Lemma lookup_zeroHashes n h : (h ≤ n)%nat → generateZeroHashes keccak n !! h = Some (mroot h []).
Proof. intros Hh. by apply (lookup_zero_levels n h 0). Qed.

Lemma node_beyond h j ls : (length ls ≤ j * 2 ^ h)%nat → node h j ls = mroot h [].
Proof. intros Hl. by rewrite node_mroot, drop_ge. Qed.

(** Appending a leaf leaves the nodes before it alone. *)
Lemma node_app h j ls x : ((j + 1) * 2 ^ h ≤ length ls)%nat → node h j (ls ++ x) = node h j ls.
Proof.
  intros Hl. unfold node. rewrite drop_app_le by lia. rewrite take_app_le; [done|].
  rewrite length_drop. lia.
Qed.

(** ** Level by level *)

Definition level (h a n : nat) (ls : list hash32) : list hash32 := (λ j, node h j ls) <$> seq a n.

(** The number of nodes of level [h] above [n] leaves. *)
Definition width (n h : nat) : nat := ((n + 2 ^ h - 1) / 2 ^ h)%nat.

Lemma width_0 n : width n 0 = n.
Proof. unfold width. change (2 ^ 0)%nat with 1%nat. rewrite Nat.div_1_r. lia. Qed.

Lemma width_S n h : width n (S h) = ((width n h + 1) / 2)%nat.
Proof.
  unfold width. pose proof (pow2_pos h). rewrite <-(Nat.div_add _ 1) by lia.
  rewrite Nat.Div0.div_div, Nat.pow_succ_r'. f_equal; lia.
Qed.

Lemma width_bound n h : (n ≤ width n h * 2 ^ h)%nat.
Proof.
  unfold width. pose proof (pow2_pos h).
  pose proof (Nat.div_mod_eq (n + 2 ^ h - 1) (2 ^ h)).
  pose proof (Nat.mod_upper_bound (n + 2 ^ h - 1) (2 ^ h) ltac:(lia)). lia.
Qed.

Lemma width_1 n h : (1 ≤ n)%nat → width n h = 1%nat ↔ (n ≤ 2 ^ h)%nat.
Proof.
  intros Hn. pose proof (width_bound n h). pose proof (pow2_pos h). split; [intros E; rewrite E in *; lia|].
  intros Hle. unfold width. symmetry. apply (Nat.div_unique _ _ _ (n - 1)); lia.
Qed.

Lemma buildIntermediate_level h ls m : ∀ a,
  buildIntermediate keccak (level h (2 * a) (2 * m) ls) = Ok (level (S h) a m ls).
Proof.
  induction m as [|m IH]; intros a; [done|]. unfold level in *.
  replace (2 * S m)%nat with (S (S (2 * m))) by lia. rewrite <-!cons_seq, !fmap_cons.
  replace (S (S (2 * a))) with (2 * S a)%nat by lia. cbn [buildIntermediate].
  rewrite IH, bind_Ok, node_S. by replace (S (2 * a)) with (2 * a + 1)%nat by lia.
Qed.

Section Levels.
Context (mt : L1InfoTree).
Context (Hz : zeroHashes mt = generateZeroHashes keccak (height mt)).

Lemma zero_index h : (h ≤ height mt)%nat → go_index (zeroHashes mt) (Z.of_nat h) = Ok (mroot h []).
Proof. intros Hh. rewrite Hz. by apply go_index_lookup, lookup_zeroHashes. Qed.

(** Padding a level to an even number of nodes. *)
Lemma pad_odd_level h n ls :
  (h ≤ height mt)%nat → (length ls ≤ n * 2 ^ h)%nat →
  pad_odd (zeroHashes mt) (level h 0 n ls) h = Ok (level h 0 (2 * ((n + 1) / 2)) ls).
Proof.
  intros Hh Hn. unfold pad_odd. assert (length (level h 0 n ls) = n) as ->
    by (unfold level; by rewrite length_fmap, length_seq).
  destruct (Nat.odd n) eqn:E.
  - apply Nat.odd_spec in E as [m ->]. rewrite zero_index, bind_Ok by done. f_equal.
    replace (2 * ((2 * m + 1 + 1) / 2))%nat with (S (2 * m + 1))
      by (replace (2 * m + 1 + 1)%nat with ((m + 1) * 2)%nat by lia; rewrite Nat.div_mul; lia).
    unfold level. rewrite seq_S, fmap_app. csimpl. by rewrite node_beyond.
  - apply (f_equal negb) in E. rewrite Nat.negb_odd in E. apply Nat.even_spec in E as [m ->].
    do 2 f_equal. replace (2 * m + 1)%nat with (1 + m * 2)%nat by lia. rewrite Nat.div_add by lia. simpl. lia.
Qed.

Lemma build_level_spec h n ls :
  (h ≤ height mt)%nat → (length ls ≤ n * 2 ^ h)%nat →
  build_level keccak mt (level h 0 n ls) h = Ok (level (S h) 0 ((n + 1) / 2) ls).
Proof.
  intros Hh Hn. unfold build_level. rewrite pad_odd_level, bind_Ok by done.
  apply (buildIntermediate_level h ls ((n + 1) / 2) 0).
Qed.

(** The leaves, at least one of them, as level 0. *)
Lemma nonempty_leaves_spec ls :
  nonempty_leaves mt ls = Ok (level 0 0 (Nat.max 1 (length ls)) ls).
Proof.
  unfold nonempty_leaves. destruct ls as [|x ls].
  - change 0 with (Z.of_nat 0). by rewrite zero_index by lia.
  - f_equal. rewrite Nat.max_r by (simpl; lia). unfold level. apply list_eq. intros j.
    rewrite list_lookup_fmap. destruct (decide (j < length (x :: ls))%nat) as [Hj|Hj].
    + rewrite lookup_seq_lt by done. destruct (lookup_lt_is_Some_2 (x :: ls) j Hj) as [y Hy].
      cbn [fmap option_fmap option_map]. by rewrite node_0, Nat.add_0_l, Hy.
    + rewrite !lookup_ge_None_2; [done|rewrite length_seq; lia|lia].
Qed.

Lemma build_levels ls k :
  (k ≤ height mt)%nat →
  let n0 := Nat.max 1 (length ls) in
  foldM (λ st h, Some <$> build_level keccak mt (default (level 0 0 n0 ls) st) h) None (seq 0 k) =
    Ok (match k with O => None | S _ => Some (level k 0 (width n0 k) ls) end).
Proof.
  intros Hk n0. induction k as [|k IH]; [done|].
  rewrite seq_S, foldM_app, IH, bind_Ok by lia. cbn [foldM]. rewrite Nat.add_0_l.
  assert (default (level 0 0 n0 ls) (match k with O => None | S _ => Some (level k 0 (width n0 k) ls) end) =
    level k 0 (width n0 k) ls) as -> by (destruct k; simpl default; by rewrite ?width_0).
  rewrite build_level_spec; [|lia|pose proof (width_bound n0 k); lia].
  by rewrite fmap_Ok, bind_Ok, <-width_S.
Qed.

Lemma mroot_32 h ls : (1 ≤ h)%nat → BytesToHash (mroot h ls) = mroot h ls.
Proof.
  intros Hh. destruct h as [|h]; [lia|]. apply set_bytes_id, keccak_len.
Qed.

Lemma level_root h ls : level h 0 1 ls = [mroot h ls].
Proof. unfold level. simpl. by rewrite mroot_node. Qed.

Lemma BuildL1InfoRoot_spec ls :
  (1 ≤ height mt)%nat → (length ls ≤ 2 ^ height mt)%nat →
  BuildL1InfoRoot keccak mt ls = Ok (mroot (height mt) ls).
Proof.
  intros Hh Hl. unfold BuildL1InfoRoot. rewrite nonempty_leaves_spec, bind_Ok, build_levels, bind_Ok by done.
  pose proof (pow2_pos (height mt)).
  assert (width (Nat.max 1 (length ls)) (height mt) = 1%nat) as -> by (apply width_1; lia).
  destruct (height mt) as [|h] eqn:E; [lia|]. rewrite level_root. by rewrite mroot_32.
Qed.

Lemma BuildL1InfoRoot_full ls :
  (2 ^ height mt < length ls)%nat → is_ok (BuildL1InfoRoot keccak mt ls) = false.
Proof.
  intros Hl. unfold BuildL1InfoRoot. rewrite nonempty_leaves_spec, bind_Ok, build_levels, bind_Ok by done.
  destruct (height mt) as [|h] eqn:E; [done|]. pose proof (pow2_pos (S h)).
  pose proof (width_bound (Nat.max 1 (length ls)) (S h)).
  destruct (width (Nat.max 1 (length ls)) (S h)) as [|[|w]] eqn:Ew; [simpl in *; lia| |done].
  apply width_1 in Ew; lia.
Qed.

(** ** Siblings *)

Definition flip (j : nat) : nat := if Nat.odd j then (j - 1)%nat else (j + 1)%nat.

(** The sibling, at level [h], of the node above leaf [i]. *)
Definition sib_at (i : nat) (ls : list hash32) (h : nat) : hash32 := node h (flip (i / 2 ^ h)) ls.

Lemma flip_bound j m : (2 * m ≤ j)%nat → (2 * m ≤ flip j)%nat.
Proof.
  intros H. unfold flip. destruct (Nat.odd j) eqn:E; [|lia]. apply Nat.odd_spec in E as [x ->]. lia.
Qed.

Lemma flip_lt j m : (j < 2 * m)%nat → (flip j < 2 * m)%nat.
Proof.
  intros H. unfold flip. destruct (Nat.odd j) eqn:E; [lia|].
  apply (f_equal negb) in E. rewrite Nat.negb_odd in E. apply Nat.even_spec in E as [x ->]. lia.
Qed.

Lemma go_index_level h n ls j :
  (j < n)%nat → go_index (level h 0 n ls) (Z.of_nat j) = Ok (node h j ls).
Proof.
  intros Hj. apply go_index_lookup. unfold level. by rewrite list_lookup_fmap, lookup_seq_lt.
Qed.

Lemma div_pow2_S i h : (i / 2 ^ S h = i / 2 ^ h / 2)%nat.
Proof. by rewrite Nat.Div0.div_div, Nat.pow_succ_r', Nat.mul_comm. Qed.

Lemma proof_level_spec h n i ls sibs :
  (h ≤ height mt)%nat → (length ls ≤ n * 2 ^ h)%nat → Z.of_nat n < 2 ^ 32 - 1 →
  proof_level keccak mt (level h 0 n ls, Z.of_nat (i / 2 ^ h), sibs) h =
    Ok (level (S h) 0 ((n + 1) / 2) ls, Z.of_nat (i / 2 ^ S h), sibs ++ [sib_at i ls h]).
Proof.
  intros Hh Hn Hu. unfold proof_level. rewrite pad_odd_level, bind_Ok by done.
  set (m := ((n + 1) / 2)%nat). set (j := (i / 2 ^ h)%nat).
  assert (2 * m ≤ n + 1 < 2 * m + 2)%nat as Hm.
  { unfold m. pose proof (Nat.div_mod_eq (n + 1) 2). pose proof (Nat.mod_upper_bound (n + 1) 2). lia. }
  assert (length (level h 0 (2 * m) ls) = (2 * m)%nat) as -> by (unfold level; by rewrite length_fmap, length_seq).
  unfold u32. rewrite Z.mod_small by lia.
  assert ((if Z.of_nat (2 * m) <=? Z.of_nat j then go_index (zeroHashes mt) (Z.of_nat h)
     else if Z.of_nat j mod 2 =? 1 then go_index (level h 0 (2 * m) ls) (Z.of_nat j - 1)
     else go_index (level h 0 (2 * m) ls) (Z.of_nat j + 1)) = Ok (sib_at i ls h)) as ->.
  { unfold sib_at. fold j. case_bool.
    - rewrite zero_index by done. rewrite node_beyond; [done|].
      etrans; [exact Hn|]. apply Nat.mul_le_mono_r. pose proof (flip_bound j m). lia.
    - pose proof (flip_lt j m ltac:(lia)) as Hlt. rewrite <-(go_index_level h (2 * m)) by done.
      unfold flip in *. destruct (Nat.odd j) eqn:E.
      + apply Nat.odd_spec in E as [x ->]. case_bool; [f_equal; lia|exfalso; zlia].
      + apply (f_equal negb) in E. rewrite Nat.negb_odd in E. apply Nat.even_spec in E as [x ->].
        case_bool; [exfalso; zlia|f_equal; lia]. }
  rewrite bind_Ok. pose proof (buildIntermediate_level h ls m 0) as E. rewrite Nat.mul_0_r in E.
  rewrite E, bind_Ok.
  rewrite div_pow2_S. fold j. by rewrite Nat2Z.inj_div.
Qed.

Lemma proof_levels ls i k :
  (k ≤ height mt)%nat → Z.of_nat (length ls) < 2 ^ 32 - 1 →
  let n0 := Nat.max 1 (length ls) in
  foldM (proof_level keccak mt) (level 0 0 n0 ls, Z.of_nat i, []) (seq 0 k) =
    Ok (level k 0 (width n0 k) ls, Z.of_nat (i / 2 ^ k), sib_at i ls <$> seq 0 k).
Proof.
  intros Hk Hl n0. induction k as [|k IH].
  { cbn [seq foldM]. rewrite width_0. change (2 ^ 0)%nat with 1%nat. by rewrite Nat.div_1_r. }
  rewrite seq_S, foldM_app, IH, bind_Ok by lia. cbn [foldM]. rewrite Nat.add_0_l.
  assert (width n0 k ≤ n0)%nat as Hw.
  { unfold width. pose proof (pow2_pos k). apply Nat.Div0.div_le_upper_bound. nia. }
  rewrite proof_level_spec, bind_Ok; [|lia|pose proof (width_bound n0 k); lia|lia].
  by rewrite <-width_S, fmap_app.
Qed.

Lemma ComputeMerkleProof_spec ls i :
  (1 ≤ height mt)%nat → (length ls ≤ 2 ^ height mt)%nat → Z.of_nat (length ls) < 2 ^ 32 - 1 →
  ComputeMerkleProof keccak mt (Z.of_nat i) ls =
    Ok (sib_at i ls <$> seq 0 (height mt), mroot (height mt) ls).
Proof.
  intros Hh Hl Hu. unfold ComputeMerkleProof. rewrite nonempty_leaves_spec, bind_Ok.
  rewrite (proof_levels ls i), bind_Ok by done. pose proof (pow2_pos (height mt)).
  assert (width (Nat.max 1 (length ls)) (height mt) = 1%nat) as -> by (apply width_1; lia).
  rewrite level_root. destruct (height mt) as [|h]; [lia|]. by rewrite mroot_32 by lia.
Qed.
End Levels.

(** ** The incremental tree *)

(** The tree stands for the leaves [ls]. *)
Record tree_inv (mt : L1InfoTree) (ls : list hash32) : Prop := {
  ti_height : (1 ≤ height mt)%nat;
  ti_zero : zeroHashes mt = generateZeroHashes keccak (height mt);
  ti_count : count mt = Z.of_nat (length ls);
  ti_bound : Z.of_nat (length ls) < 2 ^ 32;
  ti_fits : (length ls ≤ 2 ^ height mt)%nat;
  ti_len : length (siblings mt) = height mt;
  ti_sibs : ∀ h, (h < height mt)%nat → Nat.odd (length ls / 2 ^ h) = true →
    siblings mt !! h = Some (node h (length ls / 2 ^ h - 1) ls);
  ti_root : currentRoot mt = mroot (height mt) ls;
  ti_leaves : allLeaves mt = list_to_set ls;
}.

Lemma zero_siblings mt k :
  zeroHashes mt = generateZeroHashes keccak (height mt) → (k ≤ height mt)%nat →
  foldM (λ sibs h, z ← go_index (zeroHashes mt) (Z.of_nat h); Ok (sibs ++ [z])) [] (seq 0 k) =
    Ok ((λ h, mroot h []) <$> seq 0 k).
Proof.
  intros Hz Hk. induction k as [|k IH]; [done|].
  rewrite seq_S, foldM_app, IH, bind_Ok, Nat.add_0_l by lia. cbn [foldM].
  rewrite (zero_index mt Hz), !bind_Ok by lia. by rewrite fmap_app.
Qed.

Lemma NewL1InfoTree_spec h ls :
  (1 ≤ h)%nat → (length ls ≤ 2 ^ h)%nat → Z.of_nat (length ls) < 2 ^ 32 - 1 →
  ∃ mt, NewL1InfoTree keccak h ls = Ok mt ∧ tree_inv mt ls ∧ height mt = h.
Proof.
  intros Hh Hl Hu. unfold NewL1InfoTree, initSiblings.
  set (mt0 := mkTree _ _ _ _ _ _). assert (count mt0 = Z.of_nat (length ls)) as Hc
    by (simpl; unfold u32; apply Z.mod_small; lia).
  rewrite Hc. unfold u32. rewrite (Z.mod_small (Z.of_nat (length ls))), Z.eqb_refl by lia. cbn [negb].
  case_bool.
  - assert (ls = []) as -> by (destruct ls; [done|simpl in *; lia]).
    rewrite zero_siblings, bind_Ok by done. rewrite (BuildL1InfoRoot_spec mt0), !bind_Ok by done.
    eexists. split; [done|]. split; [|done]. constructor; simpl; try done.
    + by rewrite length_fmap, length_seq.
    + intros k _ Hodd. by rewrite Nat.Div0.div_0_l in Hodd.
  - rewrite (ComputeMerkleProof_spec mt0), bind_Ok by done.
    eexists. split; [done|]. split; [|done]. constructor; simpl; try done; try lia.
    + by rewrite length_fmap, length_seq.
    + intros k Hk Hodd. rewrite list_lookup_fmap, lookup_seq_lt by done. simpl. unfold sib_at, flip.
      by rewrite Hodd.
Qed.

(** The bit test of the code. *)
Lemma odd_of_nat n : Z.odd (Z.of_nat n) = Nat.odd n.
Proof.
  apply Bool.eq_iff_eq_true. rewrite Nat.odd_spec, Z.odd_spec. split.
  - intros [x E]. exists (Z.to_nat x). lia.
  - intros [x ->]. exists (Z.of_nat x). lia.
Qed.

Lemma land_pow2 a n : 0 ≤ n → Z.land a (2 ^ n) = if Z.testbit a n then 2 ^ n else 0.
Proof.
  intros Hn. apply Z.bits_inj'. intros m Hm. rewrite Z.land_spec, Z.pow2_bits_eqb by done.
  destruct (Z.eqb_spec n m) as [<-|Hne].
  - rewrite Bool.andb_true_r. destruct (Z.testbit a n) eqn:E; [by rewrite Z.pow2_bits_true|by rewrite Z.bits_0].
  - rewrite Bool.andb_false_r. destruct (Z.testbit a n); [by rewrite Z.pow2_bits_false|by rewrite Z.bits_0].
Qed.

Lemma bit_test c h :
  Z.of_nat c < 2 ^ 32 →
  (0 <? Z.land (Z.of_nat c) (u32 (Z.shiftl 1 (Z.of_nat h)))) = Nat.odd (c / 2 ^ h).
Proof.
  intros Hc. rewrite Z.shiftl_1_l. unfold u32.
  assert (Nat.odd (c / 2 ^ h) = Z.testbit (Z.of_nat c) (Z.of_nat h)) as ->.
  { rewrite Z.testbit_odd, Z.shiftr_div_pow2 by lia. change 2 with (Z.of_nat 2).
    by rewrite <-Nat2Z.inj_pow, <-Nat2Z.inj_div, odd_of_nat. }
  destruct (decide (h < 32)%nat) as [Hh|Hh].
  - rewrite Z.mod_small by (split; [lia|]; apply Z.pow_lt_mono_r; lia). rewrite land_pow2 by lia.
    destruct (Z.testbit _ _); [|done]. apply Z.ltb_lt. lia.
  - assert (2 ^ Z.of_nat h mod 2 ^ 32 = 0) as ->.
    { replace (Z.of_nat h) with (Z.of_nat h - 32 + 32) by lia. rewrite Z.pow_add_r by lia. apply Z.mod_mul. lia. }
    rewrite Z.land_0_r. symmetry. destruct (Z.eq_dec (Z.of_nat c) 0) as [->|]; [apply Z.bits_0|].
    apply Z.bits_above_log2; [lia|]. apply Z.log2_lt_pow2; [lia|]. eapply Z.lt_le_trans; [exact Hc|].
    apply Z.pow_le_mono_r; lia.
Qed.

(** ** AddLeaf *)

Lemma odd_half j : Nat.odd j = true → (j = 2 * (j / 2) + 1)%nat.
Proof. intros [m ->]%Nat.odd_spec. replace (2 * m + 1)%nat with (1 + m * 2)%nat by lia. rewrite Nat.div_add by lia. simpl. lia. Qed.

Lemma even_half j : Nat.odd j = false → (j = 2 * (j / 2))%nat.
Proof.
  intros E. apply (f_equal negb) in E. rewrite Nat.negb_odd in E. apply Nat.even_spec in E as [m ->].
  replace (2 * m)%nat with (m * 2)%nat by lia. rewrite Nat.div_mul; lia.
Qed.

(** The node above the new leaf, one level up. *)
Lemma node_last_odd c h ls leaf :
  length ls = c → Nat.odd (c / 2 ^ h) = true →
  node (S h) (c / 2 ^ S h) (ls ++ [leaf]) =
    Hash keccak [node h (c / 2 ^ h - 1) ls; node h (c / 2 ^ h) (ls ++ [leaf])].
Proof.
  intros Hc Hodd. pose proof (odd_half _ Hodd) as Hj. rewrite node_S, div_pow2_S.
  replace (2 * (c / 2 ^ h / 2) + 1)%nat with (c / 2 ^ h)%nat by lia.
  replace (2 * (c / 2 ^ h / 2))%nat with (c / 2 ^ h - 1)%nat by lia.
  rewrite (node_app h (c / 2 ^ h - 1)); [done|]. rewrite Hc.
  pose proof (Nat.Div0.mul_div_le c (2 ^ h)). nia.
Qed.

Lemma node_last_even c h ls leaf :
  length ls = c → Nat.odd (c / 2 ^ h) = false →
  node (S h) (c / 2 ^ S h) (ls ++ [leaf]) = Hash keccak [node h (c / 2 ^ h) (ls ++ [leaf]); mroot h []].
Proof.
  intros Hc Hev. pose proof (even_half _ Hev) as Hj. rewrite node_S, div_pow2_S, <-Hj.
  rewrite (node_beyond h (c / 2 ^ h + 1)); [done|]. rewrite length_app, Hc. simpl length.
  pose proof (pow2_pos h). pose proof (Nat.div_mod_eq c (2 ^ h)).
  pose proof (Nat.mod_upper_bound c (2 ^ h)). nia.
Qed.

(** Dividing the next count. *)
Lemma next_filled c h :
  ((c + 1) mod 2 ^ h = 0)%nat → ((c + 1) / 2 ^ h = c / 2 ^ h + 1)%nat.
Proof.
  intros Hm. pose proof (pow2_pos h). pose proof (Nat.div_mod_eq (c + 1) (2 ^ h)) as E.
  rewrite Hm in E. destruct ((c + 1) / 2 ^ h)%nat as [|q]; [lia|]. rewrite Nat.mul_succ_r in E.
  rewrite <-(Nat.div_unique c (2 ^ h) q (2 ^ h - 1)); lia.
Qed.

Lemma next_unfilled c h :
  ((c + 1) mod 2 ^ h ≠ 0)%nat → ((c + 1) / 2 ^ h = c / 2 ^ h)%nat.
Proof.
  intros Hm. pose proof (pow2_pos h). pose proof (Nat.div_mod_eq (c + 1) (2 ^ h)) as E.
  pose proof (Nat.mod_upper_bound (c + 1) (2 ^ h)).
  apply (Nat.div_unique _ _ _ ((c + 1) mod 2 ^ h - 1)); lia.
Qed.

Lemma filled_S c h :
  ((c + 1) mod 2 ^ S h = 0)%nat ↔ ((c + 1) mod 2 ^ h = 0)%nat ∧ Nat.odd (c / 2 ^ h) = true.
Proof.
  pose proof (pow2_pos h). rewrite Nat.pow_succ_r', Nat.mul_comm, Nat.Div0.mod_mul_r.
  destruct (decide ((c + 1) mod 2 ^ h = 0)%nat) as [Hm|Hm].
  - rewrite Hm, next_filled by done. destruct (Nat.odd (c / 2 ^ h)) eqn:Eo.
    + pose proof (odd_half _ Eo) as Hj. rewrite Hj.
      replace (2 * (c / 2 ^ h / 2) + 1 + 1)%nat with ((c / 2 ^ h / 2 + 1) * 2)%nat by lia.
      rewrite Nat.Div0.mod_mul. lia.
    + pose proof (even_half _ Eo) as Hj. rewrite Hj.
      replace (2 * (c / 2 ^ h / 2) + 1)%nat with (1 + (c / 2 ^ h / 2) * 2)%nat by lia.
      rewrite Nat.Div0.mod_add. simpl (1 mod 2)%nat. split; [nia|by intros [_ ?]].
  - split; [|tauto]. intros E. exfalso. apply Hm. lia.
Qed.

(** The loop of AddLeaf after [k] levels. *)
Lemma add_levels mt ls leaf k :
  tree_inv mt ls → (k ≤ height mt)%nat →
  let c := length ls in
  ∃ sibs, foldM (add_level keccak mt (Z.of_nat c)) (leaf, true, siblings mt) (seq 0 k) =
      Ok (node k (c / 2 ^ k) (ls ++ [leaf]), bool_decide ((c + 1) mod 2 ^ k = 0)%nat, sibs) ∧
    length sibs = height mt ∧
    (∀ h, (k ≤ h)%nat → sibs !! h = siblings mt !! h) ∧
    (∀ h, (h < k)%nat → Nat.odd ((c + 1) / 2 ^ h) = true →
      sibs !! h = Some (node h ((c + 1) / 2 ^ h - 1) (ls ++ [leaf]))).
Proof.
  intros [Hh Hz Hc Hb Hfit Hlen Hsib _ _] Hk c. induction k as [|k IH].
  { exists (siblings mt). split; [|split_and!; [done|done|lia]].
    cbn [seq foldM]. rewrite node_0. change (2 ^ 0)%nat with 1%nat.
    rewrite Nat.div_1_r, Nat.mod_1_r, lookup_app_r, Nat.sub_diag by lia. done. }
  destruct IH as (sibs & E & Hl & Hup & Hlow); [lia|].
  rewrite seq_S, foldM_app, E, bind_Ok, Nat.add_0_l. cbn [foldM]. unfold add_level at 1.
  rewrite bit_test by done. destruct (Nat.odd (c / 2 ^ k)) eqn:Eo.
  - assert (go_index sibs (Z.of_nat k) = Ok (node k (c / 2 ^ k - 1) ls)) as ->.
    { apply go_index_lookup. rewrite Hup by lia. by apply Hsib. }
    rewrite !bind_Ok. rewrite <-node_last_odd by done. exists sibs. split.
    { do 4 f_equal. apply bool_decide_ext. rewrite filled_S. tauto. }
    split_and!; [done|intros h Hle; apply Hup; lia|]. intros h Hlt Hodd.
    destruct (decide (h = k)) as [->|]; [|apply Hlow; [lia|done]].
    destruct (decide ((c + 1) mod 2 ^ k = 0)%nat) as [Hm|Hm].
    + rewrite next_filled in Hodd by done. rewrite Nat.add_1_r, Nat.odd_succ, <-Nat.negb_odd, Eo in Hodd. done.
    + rewrite next_unfilled by done. rewrite Hup, Hsib by (done || lia). f_equal.
      symmetry. apply node_app. pose proof (Nat.Div0.mul_div_le c (2 ^ k)). pose proof (odd_half _ Eo).
      fold c. nia.
  - rewrite (zero_index mt Hz) by lia.
    assert (¬ ((c + 1) mod 2 ^ S k = 0)%nat) as Hnf by (rewrite filled_S, Eo; by intros [_ ?]).
    rewrite (bool_decide_false _ Hnf), (node_last_even c k) by done.
    case_bool_decide as Hm.
    + assert (is_Some (sibs !! k)) as [x Hx] by (apply lookup_lt_is_Some_2; lia).
      rewrite (go_index_lookup sibs k x Hx), !bind_Ok. eexists. split; [done|]. split_and!.
      * by rewrite length_insert.
      * intros h Hle. rewrite list_lookup_insert_ne by lia. apply Hup. lia.
      * intros h Hlt Hodd. destruct (decide (h = k)) as [->|].
        -- rewrite list_lookup_insert_eq by lia. rewrite next_filled by done. do 2 f_equal. lia.
        -- rewrite list_lookup_insert_ne by lia. apply Hlow; [lia|done].
    + rewrite !bind_Ok. exists sibs. split; [done|]. split_and!; [done|intros h Hle; apply Hup; lia|].
      intros h Hlt Hodd. destruct (decide (h = k)) as [->|]; [|apply Hlow; [lia|done]].
      rewrite next_unfilled, Eo in Hodd by done. done.
Qed.

Lemma AddLeaf_spec mt ls leaf :
  tree_inv mt ls → (length ls < 2 ^ height mt)%nat → Z.of_nat (length ls) + 1 < 2 ^ 32 →
  ∃ mt', AddLeaf keccak mt (count mt) leaf = Ok (mroot (height mt) (ls ++ [leaf]), mt') ∧
    tree_inv mt' (ls ++ [leaf]) ∧ height mt' = height mt.
Proof.
  intros Hinv Hlt Hb. destruct (add_levels mt ls leaf (height mt) Hinv) as (sibs & E & Hl & _ & Hs); [done|].
  destruct Hinv as [Hh Hz Hc _ _ _ _ _ Hal].
  unfold AddLeaf. rewrite Z.eqb_refl, Hc, E, bind_Ok. cbn [negb].
  rewrite Nat.div_small, <-mroot_node by done. eexists. split; [done|]. split; [|done].
  constructor; simpl; rewrite ?length_app; simpl length; try done; try lia.
  - unfold u32. rewrite Z.mod_small by lia. lia.
  - rewrite Hal, list_to_set_app_L, (union_comm_L {[leaf]}). simpl. by rewrite union_empty_r_L.
Qed.

(** Adding leaves one by one. *)
Definition AddLeaves (mt : L1InfoTree) (xs : list hash32) : outcome L1InfoTree :=
  foldM (λ mt x, snd <$> AddLeaf keccak mt (count mt) x) mt xs.

Lemma AddLeaves_spec xs : ∀ mt ls,
  tree_inv mt ls → (length (ls ++ xs) ≤ 2 ^ height mt)%nat → Z.of_nat (length (ls ++ xs)) < 2 ^ 32 →
  ∃ mt', AddLeaves mt xs = Ok mt' ∧ tree_inv mt' (ls ++ xs) ∧ height mt' = height mt.
Proof.
  induction xs as [|x xs IH]; intros mt ls Hinv Hl Hb.
  { exists mt. rewrite app_nil_r. done. }
  rewrite length_app in Hl, Hb. simpl length in Hl, Hb.
  destruct (AddLeaf_spec mt ls x Hinv) as (mt1 & E1 & Hinv1 & Hh1); [lia..|].
  destruct (IH mt1 (ls ++ [x]) Hinv1) as (mt2 & E2 & Hinv2 & Hh2).
  { rewrite <-app_assoc, Hh1, length_app. simpl. lia. }
  { rewrite <-app_assoc, length_app. simpl. lia. }
  exists mt2. rewrite <-app_assoc in Hinv2. split_and!; [|done|congruence].
  unfold AddLeaves. cbn [foldM]. by rewrite E1, fmap_Ok, bind_Ok.
Qed.

(** Recomputing the root from a leaf, its index and the siblings. *)
Fixpoint climb (cur : hash32) (i : nat) (sibs : list hash32) : hash32 :=
  match sibs with
  | [] => cur
  | s :: sibs => climb (if Nat.odd i then Hash keccak [s; cur] else Hash keccak [cur; s]) (i / 2) sibs
  end.

Lemma climb_node ls i n : ∀ h,
  climb (node h (i / 2 ^ h) ls) (i / 2 ^ h) (sib_at i ls <$> seq h n) = node (h + n) (i / 2 ^ (h + n)) ls.
Proof.
  induction n as [|n IH]; intros h; [by rewrite Nat.add_0_r|]. cbn [seq]. rewrite fmap_cons. cbn [climb].
  rewrite <-div_pow2_S. assert ((if Nat.odd (i / 2 ^ h) then Hash keccak [sib_at i ls h; node h (i / 2 ^ h) ls]
    else Hash keccak [node h (i / 2 ^ h) ls; sib_at i ls h]) = node (S h) (i / 2 ^ S h) ls) as ->.
  { rewrite node_S, div_pow2_S. unfold sib_at, flip. destruct (Nat.odd (i / 2 ^ h)) eqn:Eo.
    - pose proof (odd_half _ Eo). do 3 f_equal; [|f_equal]; f_equal; lia.
    - pose proof (even_half _ Eo). do 3 f_equal; [|f_equal]; f_equal; lia. }
  rewrite IH. by rewrite <-plus_n_Sm.
Qed.
End Spec.

(** * Properties *)

(** C17. The incremental tree agrees with the whole-tree computation: creating
    the tree with some leaves and adding the others with AddLeaf succeeds as
    long as the tree has room, and the current root is the one
    BuildL1InfoRoot computes from all the leaves, which is the root of the
    perfect Merkle tree padded with zeros; creating the tree from all the
    leaves at once gives the same root and count. *)
Theorem AddLeaf_builds_root keccak h ls xs :
  (∀ x, length (keccak x) = 32%nat) → (1 ≤ h)%nat →
  (length (ls ++ xs) ≤ 2 ^ h)%nat → Z.of_nat (length (ls ++ xs)) < 2 ^ 32 - 1 →
  ∃ mt mt1 mt2, NewL1InfoTree keccak h ls = Ok mt ∧ AddLeaves keccak mt xs = Ok mt1 ∧
    BuildL1InfoRoot keccak mt (ls ++ xs) = Ok (currentRoot mt1) ∧
    currentRoot mt1 = mroot keccak h (ls ++ xs) ∧
    NewL1InfoTree keccak h (ls ++ xs) = Ok mt2 ∧
    currentRoot mt2 = currentRoot mt1 ∧ count mt2 = count mt1 ∧ allLeaves mt2 = allLeaves mt1.
Proof.
  intros Hk Hh Hl Hb.
  assert (length ls ≤ length (ls ++ xs))%nat as Hle by (rewrite length_app; lia).
  destruct (NewL1InfoTree_spec keccak Hk h ls) as (mt & E & Hinv & Hmt); [done|lia|lia|].
  destruct (AddLeaves_spec keccak xs mt ls) as (mt1 & E1 & Hinv1 & Hh1); [done|by rewrite Hmt|lia|].
  destruct (NewL1InfoTree_spec keccak Hk h (ls ++ xs)) as (mt2 & E2 & Hinv2 & Hh2); [done..|].
  exists mt, mt1, mt2. rewrite (BuildL1InfoRoot_spec keccak Hk mt) by (apply Hinv || by rewrite Hmt).
  pose proof (ti_root _ _ _ Hinv1) as R1. pose proof (ti_root _ _ _ Hinv2) as R2.
  rewrite Hh1, Hmt in R1. rewrite Hh2 in R2. rewrite R1, R2, Hmt. split_and!; try done.
  - by rewrite (ti_count _ _ _ Hinv1), (ti_count _ _ _ Hinv2).
  - by rewrite (ti_leaves _ _ _ Hinv1), (ti_leaves _ _ _ Hinv2).
Qed.

(** A stand-in for the hash, for closed instances: the last 32 bytes of the
    input, each incremented. *)
Definition sample_keccak (x : list byte) : list byte := BytesToHash (map (λ b, zb (bz b + 1)) (drop 1 x)).

Lemma AddLeaf_builds_root_witness :
  ∃ mt mt1 mt2, NewL1InfoTree sample_keccak 3 [replicate 32 x01] = Ok mt ∧
    AddLeaves sample_keccak mt [replicate 32 x02; replicate 32 x03] = Ok mt1 ∧
    BuildL1InfoRoot sample_keccak mt ([replicate 32 x01] ++ [replicate 32 x02; replicate 32 x03]) = Ok (currentRoot mt1) ∧
    currentRoot mt1 = mroot sample_keccak 3 ([replicate 32 x01] ++ [replicate 32 x02; replicate 32 x03]) ∧
    NewL1InfoTree sample_keccak 3 ([replicate 32 x01] ++ [replicate 32 x02; replicate 32 x03]) = Ok mt2 ∧
    currentRoot mt2 = currentRoot mt1 ∧ count mt2 = count mt1 ∧ allLeaves mt2 = allLeaves mt1.
Proof.
  apply (AddLeaf_builds_root sample_keccak 3 [replicate 32 x01] [replicate 32 x02; replicate 32 x03]).
  - intros x. apply length_set_bytes.
  - lia.
  - simpl. lia.
  - simpl. lia.
Defined.

(** C31. The proof returned by ComputeMerkleProof leads from the leaf to the
    root that it returns, which is the root of the tree over the leaves. *)
Theorem ComputeMerkleProof_verifies keccak mt ls i leaf :
  (∀ x, length (keccak x) = 32%nat) →
  zeroHashes mt = generateZeroHashes keccak (height mt) → (1 ≤ height mt)%nat →
  (length ls ≤ 2 ^ height mt)%nat → Z.of_nat (length ls) < 2 ^ 32 - 1 → ls !! i = Some leaf →
  ∃ sibs root, ComputeMerkleProof keccak mt (Z.of_nat i) ls = Ok (sibs, root) ∧
    length sibs = height mt ∧ climb keccak leaf i sibs = root ∧
    BuildL1InfoRoot keccak mt ls = Ok root.
Proof.
  intros Hk Hz Hh Hl Hb Hi. exists (sib_at keccak i ls <$> seq 0 (height mt)), (mroot keccak (height mt) ls).
  rewrite (ComputeMerkleProof_spec keccak Hk mt Hz), (BuildL1InfoRoot_spec keccak Hk mt Hz) by done.
  split_and!; [done|by rewrite length_fmap, length_seq| |done].
  pose proof (climb_node keccak ls i (height mt) 0) as E. change (2 ^ 0)%nat with 1%nat in E.
  rewrite Nat.div_1_r, node_0, Hi, Nat.add_0_l in E. simpl default in E. rewrite E.
  pose proof (lookup_lt_Some _ _ _ Hi). by rewrite Nat.div_small, <-mroot_node by lia.
Qed.

Definition sample_tree : L1InfoTree :=
  mkTree 2 (generateZeroHashes sample_keccak 2) 0 [] (replicate 32 x00) ∅.

Lemma ComputeMerkleProof_verifies_witness :
  ∃ sibs root, ComputeMerkleProof sample_keccak sample_tree (Z.of_nat 1)
      [replicate 32 x01; replicate 32 x02; replicate 32 x03] = Ok (sibs, root) ∧
    length sibs = height sample_tree ∧ climb sample_keccak (replicate 32 x02) 1 sibs = root ∧
    BuildL1InfoRoot sample_keccak sample_tree [replicate 32 x01; replicate 32 x02; replicate 32 x03] = Ok root.
Proof.
  apply (ComputeMerkleProof_verifies sample_keccak sample_tree
    [replicate 32 x01; replicate 32 x02; replicate 32 x03] 1 (replicate 32 x02)).
  - intros x. apply length_set_bytes.
  - reflexivity.
  - simpl. lia.
  - simpl. lia.
  - simpl. lia.
  - reflexivity.
Defined.
