(* ===== verification/Rlp.v ===== *)
(** The RLP codec of package rlp, for nested lists of byte strings.

    Encoding (rlp/encode.go): the encoder [encbuf] writes the string data and
    the list headers to two separate places and merges them at the end.
    Decoding (rlp/decode.go): the decoder is a [Stream], a state machine with
    the kind of the value ahead, the remaining input and the stack of enclosing
    lists.  RlpSpec.v relates both to a recursive definition of the encoding. *)

From S2P Require Import Prelude Bytes.
From Stdlib Require Import Strings.Byte.

Local Open Scope Z_scope.
#[local] Set Warnings "-register-all".

(** * Integers and headers *)

(** BitLenToByteLen of bits.Len64. *)
Definition intsize (i : Z) : Z := ((if i =? 0 then 0 else Z.log2 i + 1) + 7) / 8.

Definition putint (i : Z) : list byte :=
  if i <? Z.shiftl 1 8 then [zb i]
  else if i <? Z.shiftl 1 16 then [zb (Z.shiftr i 8); zb i]
  else if i <? Z.shiftl 1 24 then [zb (Z.shiftr i 16); zb (Z.shiftr i 8); zb i]
  else if i <? Z.shiftl 1 32 then
    [zb (Z.shiftr i 24); zb (Z.shiftr i 16); zb (Z.shiftr i 8); zb i]
  else if i <? Z.shiftl 1 40 then
    [zb (Z.shiftr i 32); zb (Z.shiftr i 24); zb (Z.shiftr i 16); zb (Z.shiftr i 8); zb i]
  else if i <? Z.shiftl 1 48 then
    [zb (Z.shiftr i 40); zb (Z.shiftr i 32); zb (Z.shiftr i 24); zb (Z.shiftr i 16);
     zb (Z.shiftr i 8); zb i]
  else if i <? Z.shiftl 1 56 then
    [zb (Z.shiftr i 48); zb (Z.shiftr i 40); zb (Z.shiftr i 32); zb (Z.shiftr i 24);
     zb (Z.shiftr i 16); zb (Z.shiftr i 8); zb i]
  else
    [zb (Z.shiftr i 56); zb (Z.shiftr i 48); zb (Z.shiftr i 40); zb (Z.shiftr i 32);
     zb (Z.shiftr i 24); zb (Z.shiftr i 16); zb (Z.shiftr i 8); zb i].

(** The bytes puthead writes. *)
Definition puthead (smalltag largetag size : Z) : list byte :=
  if size <? 56 then [zb (smalltag + size)]
  else zb (largetag + Z.of_nat (length (putint size))) :: putint size.

(** * The encoder *)

Record listhead := mkHead { lh_offset : Z; lh_size : Z }.

Record encbuf := mkEncbuf { eb_str : list byte; eb_lheads : list listhead; eb_lhsize : Z }.

Definition EmptyStringCode : Z := 0x80.

Definition encbuf_reset : encbuf := mkEncbuf [] [] 0.

Definition eb_append (w : encbuf) (b : list byte) : encbuf :=
  mkEncbuf (eb_str w ++ b) (eb_lheads w) (eb_lhsize w).

Definition encodeStringHeader (w : encbuf) (size : Z) : encbuf :=
  if size <? 56 then eb_append w [zb (EmptyStringCode + size)]
  else eb_append w (zb (0xB7 + Z.of_nat (length (putint size))) :: putint size).

Definition encodeString (w : encbuf) (b : list byte) : encbuf :=
  match b with
  | [c] => if bz c <=? 0x7F then eb_append w [c]
           else eb_append (encodeStringHeader w 1) b
  | _ => eb_append (encodeStringHeader w (Z.of_nat (length b))) b
  end.

Definition encodeUint (w : encbuf) (i : Z) : encbuf :=
  if i =? 0 then eb_append w [zb 0x80]
  else if i <? 128 then eb_append w [zb i]
  else eb_append w (zb (0x80 + Z.of_nat (length (putint i))) :: putint i).

Definition encbuf_size (w : encbuf) : Z := Z.of_nat (length (eb_str w)) + eb_lhsize w.

Definition encbuf_list (w : encbuf) : encbuf * nat :=
  (mkEncbuf (eb_str w) (eb_lheads w ++ [mkHead (Z.of_nat (length (eb_str w))) (eb_lhsize w)]) (eb_lhsize w),
   length (eb_lheads w)).

Definition encbuf_listEnd (w : encbuf) (index : nat) : outcome encbuf :=
  match eb_lheads w !! index with
  | Some lh =>
      let size := encbuf_size w - lh_offset lh - lh_size lh in
      Ok (mkEncbuf (eb_str w) (<[index := mkHead (lh_offset lh) size]> (eb_lheads w))
        (if size <? 56 then eb_lhsize w + 1 else eb_lhsize w + (1 + intsize size)))
  | None => Panic
  end.

(** [copy(out[pos:], src)], with the number of bytes copied, and the writes of
    puthead to [out[pos:]], which panic when they do not fit. *)
Definition copy_at (out : list byte) (pos : nat) (src : list byte) : outcome (list byte * nat) :=
  if (length out <? pos)%nat then Panic
  else let n := Nat.min (length out - pos) (length src) in
       Ok (take pos out ++ take n src ++ drop (pos + n) out, n).

Definition put_at (out : list byte) (pos : nat) (src : list byte) : outcome (list byte) :=
  if (length out <? pos + length src)%nat then Panic
  else Ok (take pos out ++ src ++ drop (pos + length src) out).

Definition head_encode (h : listhead) : list byte := puthead 0xC0 0xF7 (lh_size h).

Definition toBytes_step (str : list byte) (st : list byte * nat * nat) (h : listhead)
    : outcome (list byte * nat * nat) :=
  let '(out, pos, strpos) := st in
  src ← go_slice str (Z.of_nat strpos) (lh_offset h);
  '(out, n) ← copy_at out pos src;
  out ← put_at out (pos + n) (head_encode h);
  Ok (out, (pos + n + length (head_encode h))%nat, (strpos + n)%nat).

Definition encbuf_toBytes (w : encbuf) : outcome (list byte) :=
  '(out, pos, strpos) ←
    foldM (toBytes_step (eb_str w)) (replicate (Z.to_nat (encbuf_size w)) x00, 0%nat, 0%nat) (eb_lheads w);
  src ← go_slice (eb_str w) (Z.of_nat strpos) (Z.of_nat (length (eb_str w)));
  '(out, _) ← copy_at out pos src;
  Ok out.

(** The values encoded here: byte slices, and slices of such values.  The
    writer of a type is writeBytes or the one makeSliceWriter builds. *)
Inductive item :=
| Str (b : list byte)
| Lst (l : list item).

Fixpoint write_item (w : encbuf) (it : item) : outcome encbuf :=
  match it with
  | Str b => Ok (encodeString w b)
  | Lst l =>
      let '(w, index) := encbuf_list w in
      w ← foldM write_item w l;
      encbuf_listEnd w index
  end.

Definition EncodeToBytes (it : item) : outcome (list byte) :=
  w ← write_item encbuf_reset it; encbuf_toBytes w.

(** * The decoder *)

Inductive rlp_error :=
| EOL | ErrExpectedString | ErrExpectedList | ErrCanonSize | ErrElemTooLarge | ErrValueTooLarge
| ErrMoreThanOneValue | errNotInList | errNotAtEOL | io_EOF | io_ErrUnexpectedEOF.

#[export] Instance rlp_error_eq_dec : EqDecision rlp_error.
Proof. solve_decision. Defined.

Inductive Kind := KByte | KString | KList.

#[export] Instance Kind_eq_dec : EqDecision Kind.
Proof. solve_decision. Defined.

Record listpos := mkPos { lp_pos : Z; lp_size : Z }.

(** The stream over a byte slice: [st_r] is the unread input, a negative kind
    is [None], and the head of [st_stack] is the innermost list. *)
Record Stream := mkStream {
  st_r : list byte;
  st_remaining : Z;
  st_limited : bool;
  st_kind : option Kind;
  st_size : Z;
  st_byteval : byte;
  st_kinderr : option rlp_error;
  st_stack : list listpos;
}.

Definition set_r (r : list byte) (s : Stream) : Stream :=
  mkStream r (st_remaining s) (st_limited s) (st_kind s) (st_size s) (st_byteval s) (st_kinderr s) (st_stack s).
Definition set_remaining (n : Z) (s : Stream) : Stream :=
  mkStream (st_r s) n (st_limited s) (st_kind s) (st_size s) (st_byteval s) (st_kinderr s) (st_stack s).
Definition set_kind (k : option Kind) (s : Stream) : Stream :=
  mkStream (st_r s) (st_remaining s) (st_limited s) k (st_size s) (st_byteval s) (st_kinderr s) (st_stack s).
Definition set_size (n : Z) (s : Stream) : Stream :=
  mkStream (st_r s) (st_remaining s) (st_limited s) (st_kind s) n (st_byteval s) (st_kinderr s) (st_stack s).
Definition set_byteval (b : byte) (s : Stream) : Stream :=
  mkStream (st_r s) (st_remaining s) (st_limited s) (st_kind s) (st_size s) b (st_kinderr s) (st_stack s).
Definition set_kinderr (e : option rlp_error) (s : Stream) : Stream :=
  mkStream (st_r s) (st_remaining s) (st_limited s) (st_kind s) (st_size s) (st_byteval s) e (st_stack s).
Definition set_stack (l : list listpos) (s : Stream) : Stream :=
  mkStream (st_r s) (st_remaining s) (st_limited s) (st_kind s) (st_size s) (st_byteval s) (st_kinderr s) l.

(** A method of the stream returns a value or an error and leaves the stream in
    a new state either way. *)
Definition SM (A : Type) : Type := Stream → Stream * (rlp_error + A).

Definition sm_ret {A} (a : A) : SM A := λ s, (s, inr a).
Definition sm_bind {A B} (m : SM A) (f : A → SM B) : SM B := λ s,
  match m s with
  | (s, inl e) => (s, inl e)
  | (s, inr a) => f a s
  end.

Declare Scope rlp_scope.
Notation "m >>> f" := (sm_bind m f) (at level 60, right associativity) : rlp_scope.
Local Open Scope rlp_scope.

Definition sm_err {A} (e : rlp_error) : SM A := λ s, (s, inl e).
Definition sm_upd (f : Stream → Stream) : SM unit := λ s, (f s, inr ()).

(** Reset on a bytes.Reader: the input limit is the length of the data. *)
Definition Stream_Reset (b : list byte) : Stream :=
  mkStream b (Z.of_nat (length b)) true None 0 x00 None [].

Definition willRead (n : Z) : SM unit := λ s,
  let s := set_kind None s in
  let limit s :=
    if st_limited s then
      if st_remaining s <? n then (s, inl ErrValueTooLarge)
      else (set_remaining (u64 (st_remaining s - n)) s, inr ())
    else (s, inr ()) in
  match st_stack s with
  | [] => limit s
  | tos :: rest =>
      if u64 (lp_size tos - lp_pos tos) <? n then (s, inl ErrElemTooLarge)
      else limit (set_stack (mkPos (u64 (lp_pos tos + n)) (lp_size tos) :: rest) s)
  end.

Definition readByte : SM byte :=
  willRead 1 >>> λ _ s,
  match st_r s with
  | [] => (s, inl io_ErrUnexpectedEOF)
  | b :: r => (set_r r s, inr b)
  end.

(** readFull into a buffer of [n] bytes. *)
Definition readFull (n : Z) : SM (list byte) :=
  willRead n >>> λ _ s,
  if Z.of_nat (length (st_r s)) <? n then (set_r [] s, inl io_ErrUnexpectedEOF)
  else (set_r (drop (Z.to_nat n) (st_r s)) s, inr (take (Z.to_nat n) (st_r s))).

Definition readUint (size : Z) : SM Z :=
  if size =? 0 then sm_upd (set_kind None) >>> λ _, sm_ret 0
  else if size =? 1 then readByte >>> λ b, sm_ret (bz b)
  else
    readFull size >>> λ bs,
    if bool_decide (head bs = Some x00) then sm_err ErrCanonSize
    else sm_ret (be_val (replicate (Z.to_nat (8 - size)) x00 ++ bs)).

(** The end of readKind for a length that follows the tag. *)
Definition readLong (k : Kind) (size : Z) (s : Stream) : Stream * (Kind * Z * option rlp_error) :=
  match readUint size s with
  | (s, inl e) => (s, (k, 0, Some e))
  | (s, inr n) => (s, (k, n, if n <? 56 then Some ErrCanonSize else None))
  end.

Definition readKind (s : Stream) : Stream * (Kind * Z * option rlp_error) :=
  match readByte s with
  | (s, inl err) =>
      let err :=
        match st_stack s with
        | [] => match err with
                | io_ErrUnexpectedEOF | ErrValueTooLarge => io_EOF
                | _ => err
                end
        | _ => err
        end in
      (s, (KByte, 0, Some err))
  | (s, inr b) =>
      let s := set_byteval x00 s in
      if bz b <? 0x80 then (set_byteval b s, (KByte, 0, None))
      else if bz b <? 0xB8 then (s, (KString, bz b - 0x80, None))
      else if bz b <? 0xC0 then readLong KString (bz b - 0xB7) s
      else if bz b <? 0xF8 then (s, (KList, bz b - 0xC0, None))
      else readLong KList (bz b - 0xF7) s
  end.

Definition Stream_Kind : SM (Kind * Z) := λ s,
  match st_kind s with
  | Some k =>
      (s, match st_kinderr s with Some e => inl e | None => inr (k, st_size s) end)
  | None =>
      let s := set_kinderr None s in
      if match st_stack s with tos :: _ => lp_pos tos =? lp_size tos | [] => false end then (s, inl EOL)
      else
        let '(s, (k, size, err)) := readKind s in
        let err :=
          match err with
          | Some e => Some e
          | None =>
              match st_stack s with
              | [] => if st_limited s && (st_remaining s <? size) then Some ErrValueTooLarge else None
              | tos :: _ => if u64 (lp_size tos - lp_pos tos) <? size then Some ErrElemTooLarge else None
              end
          end in
        (set_kinderr err (set_size size (set_kind (Some k) s)),
         match err with Some e => inl e | None => inr (k, size) end)
  end.

Definition Stream_Bytes : SM (list byte) :=
  Stream_Kind >>> λ ks,
  let size := ks.2 in
  match ks.1 with
  | KByte => λ s, (set_kind None s, inr [st_byteval s])
  | KString =>
      readFull size >>> λ b,
      if (size =? 1) && match b with c :: _ => bz c <? 128 | [] => false end
      then sm_err ErrCanonSize
      else sm_ret b
  | KList => sm_err ErrExpectedString
  end.

Definition NewList (size : Z) (s : Stream) : Stream :=
  set_size 0 (set_kind None (set_stack (mkPos 0 size :: st_stack s) s)).

Definition Stream_List : SM Z :=
  Stream_Kind >>> λ ks,
  if bool_decide (ks.1 = KList) then sm_upd (NewList ks.2) >>> λ _, sm_ret ks.2
  else sm_err ErrExpectedList.

Definition ListEnd : SM unit := λ s,
  match st_stack s with
  | [] => (s, inl errNotInList)
  | tos :: rest =>
      if negb (lp_pos tos =? lp_size tos) then (s, inl errNotAtEOL)
      else
        let rest :=
          match rest with
          | [] => []
          | p :: rest => mkPos (u64 (lp_pos p + lp_size tos)) (lp_size p) :: rest
          end in
        (set_size 0 (set_kind None (set_stack rest s)), inr ())
  end.

(** The decoders of slices, for any decoder of the elements; [None] when the
    fuel is used up. *)
Fixpoint decodeSliceElems {A} (fuel : nat) (elemdec : SM A) (s : Stream)
    : option (Stream * (rlp_error + list A)) :=
  match fuel with
  | O => None
  | S fuel =>
      match elemdec s with
      | (s, inl EOL) => Some (s, inr [])
      | (s, inl e) => Some (s, inl e)
      | (s, inr x) =>
          match decodeSliceElems fuel elemdec s with
          | Some (s, inr xs) => Some (s, inr (x :: xs))
          | o => o
          end
      end
  end.

Definition finish_list {A} (xs : A) (s : Stream) : Stream * (rlp_error + A) :=
  (ListEnd >>> λ _, sm_ret xs) s.

Definition decodeListSlice {A} (fuel : nat) (elemdec : SM A) (s : Stream)
    : option (Stream * (rlp_error + list A)) :=
  match Stream_List s with
  | (s, inl e) => Some (s, inl e)
  | (s, inr size) =>
      if size =? 0 then Some (finish_list [] s)
      else match decodeSliceElems fuel elemdec s with
           | Some (s, inr xs) => Some (finish_list xs s)
           | o => o
           end
  end.

(** DecodeBytes into a [][]byte.  Every element takes at least one byte of the
    input, so one more iteration than the input has bytes is enough. *)
Definition DecodeBytes (b : list byte) : option (rlp_error + list (list byte)) :=
  match decodeListSlice (S (length b)) Stream_Bytes (Stream_Reset b) with
  | None => None
  | Some (_, inl e) => Some (inl e)
  | Some (s, inr v) =>
      Some (match st_r s with [] => inr v | _ => inl ErrMoreThanOneValue end)
  end.
