(* ===== verification/RlpSpec.v ===== *)
(** Correctness of the RLP codec of Rlp.v.

    [enc] is the encoding as a recursive definition on nested lists of byte
    strings.  The encoder, which keeps string data and list headers apart until
    the end, produces it; the decoder accepts exactly it, for lists of byte
    strings, and always terminates. *)

From S2P Require Import Prelude Bytes Rlp.
From Stdlib Require Import Strings.Byte.

Local Open Scope Z_scope.
Local Open Scope rlp_scope.

(** * The encoding as a recursive definition *)

Definition enc_str (b : list byte) : list byte :=
  match b with
  | [c] => if bz c <=? 0x7F then [c] else puthead 0x80 0xB7 1 ++ b
  | _ => puthead 0x80 0xB7 (Z.of_nat (length b)) ++ b
  end.

Definition enc_payload (p : list byte) : list byte := puthead 0xC0 0xF7 (Z.of_nat (length p)) ++ p.

Fixpoint enc (it : item) : list byte :=
  match it with
  | Str b => enc_str b
  | Lst l => enc_payload (concat (map enc l))
  end.

Fixpoint item_rect' (P : item → Prop) (HS : ∀ b, P (Str b))
    (HL : ∀ l, Forall P l → P (Lst l)) (it : item) : P it :=
  match it with
  | Str b => HS b
  | Lst l => HL l ((fix go (l : list item) : Forall P l :=
      match l with
      | [] => List.Forall_nil _
      | it :: l => List.Forall_cons _ _ _ (item_rect' P HS HL it) (go l)
      end) l)
  end.

(** ** Integers *)

Lemma zb_mod z : zb (z mod 256) = zb z.
Proof. unfold zb. by rewrite Z.mod_mod by lia. Qed.

Lemma le_digits_snoc b n z :
  0 < b → le_digits b (S n) z = le_digits b n z ++ [z / b ^ Z.of_nat n mod b].
Proof.
  intros Hb. apply list_eq_same_length with (n := S n);
    [rewrite ?length_app, ?length_le_digits; simpl; lia..|].
  intros i x y Hi Hx Hy. rewrite lookup_le_digits in Hx by (done || lia). injection Hx as <-.
  destruct (decide (i < n)%nat) as [Hin|Hin].
  - rewrite lookup_app_l, lookup_le_digits in Hy by (rewrite ?length_le_digits; done || lia). by injection Hy.
  - assert (i = n) as -> by lia.
    rewrite lookup_app_r, length_le_digits, Nat.sub_diag in Hy by (rewrite length_le_digits; lia).
    by injection Hy.
Qed.

Lemma be_bytes_S n z : be_bytes (S n) z = zb (Z.shiftr z (8 * Z.of_nat n)) :: be_bytes n z.
Proof.
  unfold be_bytes, le_bytes. rewrite le_digits_snoc, fmap_app, rev_app_distr by lia. cbn [fmap list_fmap rev app].
  rewrite zb_mod, Z.shiftr_div_pow2, Z.pow_mul_r by lia. done.
Qed.

Lemma putint_be_bytes i : putint i = be_bytes (length (putint i)) i.
Proof.
  unfold putint. repeat case_bool; cbn [length]; rewrite ?be_bytes_S;
    cbn [Z.of_nat Pos.of_succ_nat Pos.succ Z.mul Pos.mul Pos.add]; rewrite ?Z.shiftr_0_r; reflexivity.
Qed.

Lemma length_putint_bounds i : (1 ≤ length (putint i) ≤ 8)%nat.
Proof. unfold putint. repeat case_bool; cbn [length]; lia. Qed.

Lemma length_putint k i :
  (1 ≤ k ≤ 8)%nat → k = 1%nat ∨ 256 ^ (Z.of_nat k - 1) ≤ i → i < 256 ^ Z.of_nat k →
  length (putint i) = k.
Proof.
  intros Hk Hlo Hhi.
  assert (k ∈ [1; 2; 3; 4; 5; 6; 7; 8]%nat) as Hin by (repeat (rewrite elem_of_cons; try lia)).
  unfold putint. rewrite !Z.shiftl_1_l.
  repeat (apply elem_of_cons in Hin as [->|Hin];
    [cbn [Z.of_nat Pos.of_succ_nat Pos.succ] in *; repeat case_bool; cbn [length]; lia|]).
  by apply elem_of_nil in Hin.
Qed.

Lemma be_val_putint i : is_u64 i → be_val (putint i) = i.
Proof.
  intros Hi. rewrite putint_be_bytes, be_val_bytes. apply Z.mod_small.
  unfold is_u64 in Hi. split; [lia|].
  unfold putint. rewrite !Z.shiftl_1_l. repeat case_bool; cbn [length]; lia.
Qed.

Lemma putint_intsize i : 0 < i → i < 2 ^ 64 → Z.of_nat (length (putint i)) = intsize i.
Proof.
  intros Hi Hm. pose proof (length_putint (Z.to_nat (intsize i)) i) as H.
  unfold intsize in *. rewrite (proj2 (Z.eqb_neq i 0)) in * by lia.
  pose proof (Z.log2_spec i Hi) as [Hl Hu].
  assert (0 ≤ Z.log2 i < 64) as Hr.
  { split; [apply Z.log2_nonneg|]. by apply Z.log2_lt_pow2. }
  set (q := (Z.log2 i + 1 + 7) / 8) in *. assert (1 ≤ q ≤ 8) by (unfold q; zlia).
  rewrite H; [lia|lia| |].
  - right. rewrite Z2Nat.id by lia. change 256 with (2 ^ 8). rewrite <-Z.pow_mul_r by lia.
    etransitivity; [|apply Hl]. apply Z.pow_le_mono_r; [lia|unfold q; zlia].
  - rewrite Z2Nat.id by lia. change 256 with (2 ^ 8). rewrite <-Z.pow_mul_r by lia.
    eapply Z.lt_le_trans; [apply Hu|]. apply Z.pow_le_mono_r; [lia|unfold q; zlia].
Qed.

(** A length without leading zeros is the one putint writes. *)
Lemma putint_be_val bs :
  (1 ≤ length bs ≤ 8)%nat → length bs = 1%nat ∨ head bs ≠ Some x00 → putint (be_val bs) = bs.
Proof.
  intros Hl Hc. pose proof (be_val_range bs) as Hr.
  rewrite putint_be_bytes, (length_putint (length bs)); [apply be_bytes_val|lia| |lia].
  destruct Hc as [Hc|Hc]; [by left|]. right. destruct bs as [|b bs]; [simpl in Hl; lia|].
  rewrite be_val_cons. cbn [length]. pose proof (be_val_range bs). pose proof (bz_range b).
  assert (bz b ≠ 0) by (intros E; apply Hc; simpl; f_equal; by apply bz_inj).
  replace (Z.of_nat (S (length bs)) - 1) with (Z.of_nat (length bs)) by lia. nia.
Qed.

Lemma putint_head i : 256 ≤ i → i < 2 ^ 64 → head (putint i) ≠ Some x00.
Proof.
  intros H1 H2 E. unfold putint in E. rewrite !Z.shiftl_1_l in E.
  assert (∀ k, 0 ≤ k → 2 ^ k ≤ i → i < 2 ^ (k + 8) → zb (Z.shiftr i k) ≠ x00) as Hz.
  { intros k Hk Ha Hb Hx. apply (f_equal bz) in Hx. rewrite bz_zb, Z.shiftr_div_pow2 in Hx by done.
    change (bz x00) with 0 in Hx. rewrite Z.pow_add_r in Hb by lia.
    assert (1 ≤ i / 2 ^ k < 256).
    { split; [apply Z.div_le_lower_bound; lia|apply Z.div_lt_upper_bound; lia]. }
    rewrite Z.mod_small in Hx; lia. }
  repeat match type of E with
  | context [if (?a <? ?b)%Z then _ else _] => destruct (Z.ltb_spec a b)
  end; cbn [head] in E; try lia; injection E as E; revert E; apply Hz; lia.
Qed.

(** ** Headers *)

(** The header of a value, with its kind and the size of the content. *)
Inductive header : list byte → Kind → Z → Prop :=
| header_byte b : bz b < 0x80 → header [b] KByte 0
| header_string n : is_u64 n → header (puthead 0x80 0xB7 n) KString n
| header_list n : is_u64 n → header (puthead 0xC0 0xF7 n) KList n.

Lemma puthead_short st lt n : n < 56 → puthead st lt n = [zb (st + n)].
Proof. intros H. unfold puthead. case_bool; [done|lia]. Qed.

Lemma puthead_long st lt n :
  56 ≤ n → puthead st lt n = zb (lt + Z.of_nat (length (putint n))) :: putint n.
Proof. intros H. unfold puthead. case_bool; [lia|done]. Qed.

Lemma length_puthead st lt n : (1 ≤ length (puthead st lt n) ≤ 9)%nat.
Proof.
  unfold puthead. case_bool; cbn [length]; [lia|]. pose proof (length_putint_bounds n). lia.
Qed.

Lemma header_nonempty hd k n : header hd k n → (1 ≤ length hd)%nat.
Proof. destruct 1; [simpl; lia|apply length_puthead..]. Qed.

Lemma bz_zb_small z : 0 ≤ z < 256 → bz (zb z) = z.
Proof. intros Hz. rewrite bz_zb. by apply Z.mod_small. Qed.

(** ** The stream *)

(** [at_input s rest n lvl]: the unread input is [rest]; [n] bytes of it may be
    read at the current level, which is the top level or, for [Some size], a
    list whose content has [size] bytes. *)
Record at_input (s : Stream) (rest : list byte) (n : Z) (lvl : option Z) : Prop := {
  ai_r : st_r s = rest;
  ai_remaining : st_remaining s = Z.of_nat (length rest);
  ai_limited : st_limited s = true;
  ai_bound : Z.of_nat (length rest) < 2 ^ 64;
  ai_range : 0 ≤ n ≤ Z.of_nat (length rest);
  ai_stack : match lvl with
             | None => st_stack s = [] ∧ n = Z.of_nat (length rest)
             | Some size => st_stack s = [mkPos (size - n) size] ∧ n ≤ size < 2 ^ 64
             end;
}.

Lemma at_input_same s s' rest n lvl :
  st_r s' = st_r s → st_remaining s' = st_remaining s → st_limited s' = st_limited s →
  st_stack s' = st_stack s → at_input s rest n lvl → at_input s' rest n lvl.
Proof. intros E1 E2 E3 E4 [H1 H2 H3 H4 H5 H6]. split; rewrite ?E1, ?E2, ?E3, ?E4; done. Qed.

Lemma Reset_at b : Z.of_nat (length b) < 2 ^ 64 → at_input (Stream_Reset b) b (Z.of_nat (length b)) None.
Proof. intros Hb. split; simpl; auto with lia. Qed.

(** What willRead leaves: the budget is charged, the input is not yet read. *)
Lemma willRead_ok s rest n lvl k :
  at_input s rest n lvl → 0 ≤ k ≤ n →
  ∃ s', willRead k s = (s', inr ()) ∧ st_r s' = rest ∧
    ∀ s'', st_r s'' = drop (Z.to_nat k) rest → st_remaining s'' = st_remaining s' →
      st_limited s'' = st_limited s' → st_stack s'' = st_stack s' →
      at_input s'' (drop (Z.to_nat k) rest) (n - k) lvl.
Proof.
  intros [H1 H2 H3 H4 H5 H6] Hk. unfold willRead. change (st_stack (set_kind None s)) with (st_stack s).
  assert (Z.of_nat (length (drop (Z.to_nat k) rest)) = Z.of_nat (length rest) - k) as Hd
    by (rewrite length_drop; lia).
  destruct lvl as [size|]; destruct H6 as [Hs Hn]; rewrite Hs; cbn [lp_size lp_pos].
  - rewrite (u64_small (size - (size - n))) by (unfold is_u64; lia). case_bool; [lia|]. simpl. rewrite H3, H2.
    case_bool; [lia|]. eexists. split; [done|]. split; [done|]. simpl.
    intros s'' E1 E2 E3 E4. split; rewrite ?E1, ?E2, ?E3, ?E4, ?Hd; simpl; try done; try lia.
    + apply u64_small. unfold is_u64. lia.
    + split; [|lia]. rewrite u64_small by (unfold is_u64; lia). do 2 f_equal. lia.
  - simpl. rewrite H3, H2. case_bool; [lia|]. eexists. split; [done|]. split; [done|]. simpl.
    intros s'' E1 E2 E3 E4. split; rewrite ?E1, ?E2, ?E3, ?E4, ?Hd; simpl; try done; try lia.
    + apply u64_small. unfold is_u64. lia.
    + split; [done|lia].
Qed.

Lemma willRead_err s rest n lvl k :
  at_input s rest n lvl → n < k → ∃ s' e, willRead k s = (s', inl e) ∧ e ≠ EOL.
Proof.
  intros [H1 H2 H3 H4 H5 H6] Hk. unfold willRead. change (st_stack (set_kind None s)) with (st_stack s).
  destruct lvl as [size|]; destruct H6 as [Hs Hn]; rewrite Hs; cbn [lp_size lp_pos].
  - rewrite (u64_small (size - (size - n))) by (unfold is_u64; lia). case_bool; [|lia]. eauto.
  - simpl. rewrite H3, H2. case_bool; [|lia]. eauto.
Qed.

Lemma readFull_ok s rest n lvl k :
  at_input s rest n lvl → 0 ≤ k ≤ n →
  ∃ s', readFull k s = (s', inr (take (Z.to_nat k) rest)) ∧ at_input s' (drop (Z.to_nat k) rest) (n - k) lvl.
Proof.
  intros Ha Hk. destruct (willRead_ok _ _ _ _ _ Ha Hk) as (s1 & E & Er & H1).
  unfold readFull, sm_bind. rewrite E, Er. pose proof (ai_range _ _ _ _ Ha). case_bool; [lia|].
  eexists. split; [done|]. by apply H1.
Qed.

Lemma readFull_err s rest n lvl k :
  at_input s rest n lvl → n < k → ∃ s' e, readFull k s = (s', inl e) ∧ e ≠ EOL.
Proof.
  intros Ha Hk. destruct (willRead_err _ _ _ _ _ Ha Hk) as (s1 & e & E & He).
  unfold readFull, sm_bind. rewrite E. eauto.
Qed.

Lemma readByte_ok s b rest n lvl :
  at_input s (b :: rest) n lvl → 1 ≤ n →
  ∃ s', readByte s = (s', inr b) ∧ at_input s' rest (n - 1) lvl.
Proof.
  intros Ha Hn. destruct (willRead_ok _ _ _ _ 1 Ha ltac:(lia)) as (s1 & E & Er & H1).
  unfold readByte, sm_bind. rewrite E, Er. eexists. split; [done|]. by apply H1.
Qed.

Lemma readUint_ok s rest n lvl k :
  at_input s rest n lvl → 1 ≤ k ≤ 8 → k ≤ n →
  k = 1 ∨ head (take (Z.to_nat k) rest) ≠ Some x00 →
  ∃ s', readUint k s = (s', inr (be_val (take (Z.to_nat k) rest))) ∧
    at_input s' (drop (Z.to_nat k) rest) (n - k) lvl.
Proof.
  intros Ha Hk Hn Hc. unfold readUint. case_bool; [lia|]. case_bool.
  - subst k. pose proof (ai_range _ _ _ _ Ha). destruct rest as [|b rest]; [simpl in *; lia|].
    destruct (readByte_ok _ _ _ _ _ Ha Hn) as (s1 & E & H1). unfold sm_bind. rewrite E. exists s1.
    split; [|done]. unfold sm_ret. change (take (Z.to_nat 1) (b :: rest)) with [b].
    rewrite be_val_cons. unfold be_val. simpl. do 2 f_equal. change (le_val []) with 0. lia.
  - destruct (readFull_ok _ _ _ _ k Ha ltac:(lia)) as (s1 & E & H1).
    unfold sm_bind. rewrite E. rewrite bool_decide_false by (destruct Hc; done || lia).
    unfold sm_ret. rewrite be_val_zeros_app. eauto.
Qed.

Lemma readUint_inv s rest n lvl k :
  at_input s rest n lvl → 1 ≤ k ≤ 8 →
  (k ≤ n ∧ (k = 1 ∨ head (take (Z.to_nat k) rest) ≠ Some x00)) ∨
  (∃ s' e, readUint k s = (s', inl e) ∧ e ≠ EOL).
Proof.
  intros Ha Hk. destruct (Z.lt_ge_cases n k) as [Hn|Hn].
  - right. unfold readUint. case_bool; [lia|]. case_bool.
    + destruct (willRead_err _ _ _ _ 1 Ha ltac:(lia)) as (s1 & err & E & He).
      unfold readByte, sm_bind. rewrite E. eauto.
    + destruct (readFull_err _ _ _ _ _ Ha Hn) as (s1 & err & E & He). unfold sm_bind. rewrite E. eauto.
  - destruct (decide (k = 1)) as [|Hk1]; [by left; auto|].
    destruct (decide (head (take (Z.to_nat k) rest) = Some x00)) as [E0|]; [|by left; auto].
    right. unfold readUint. case_bool; [lia|]. case_bool; [lia|].
    destruct (readFull_ok _ _ _ _ k Ha ltac:(lia)) as (s1 & E & H1).
    unfold sm_bind. rewrite E, bool_decide_true by done. unfold sm_err. eauto.
Qed.

Lemma readLong_complete s rest n lvl k sz :
  at_input s (putint sz ++ rest) n lvl → 56 ≤ sz → is_u64 sz → Z.of_nat (length (putint sz)) ≤ n →
  ∃ s', readLong k (Z.of_nat (length (putint sz))) s = (s', (k, sz, None)) ∧
    at_input s' rest (n - Z.of_nat (length (putint sz))) lvl.
Proof.
  intros Ha Hsz H64 Hn. unfold readLong. pose proof (length_putint_bounds sz).
  destruct (readUint_ok _ _ _ _ (Z.of_nat (length (putint sz))) Ha) as (s1 & E & H1); [lia|done| |].
  - rewrite Nat2Z.id, take_app_length. destruct (Z.lt_ge_cases sz 256) as [Hs|Hs].
    + left. rewrite (length_putint 1); [done|lia|by left|]. change (256 ^ Z.of_nat 1) with 256. lia.
    + right. unfold is_u64 in H64. apply putint_head; lia.
  - rewrite Nat2Z.id, take_app_length, drop_app_length in *. rewrite E, be_val_putint by done.
    case_bool; [lia|]. eauto.
Qed.

Lemma readLong_sound s rest n lvl k len s' k' sz e :
  at_input s rest n lvl → 1 ≤ len ≤ 8 → readLong k len s = (s', (k', sz, e)) →
  e ≠ Some EOL ∧ (e = None → k' = k ∧ 56 ≤ sz ∧ is_u64 sz ∧ ∃ rest', rest = putint sz ++ rest' ∧
    Z.of_nat (length (putint sz)) = len ∧ at_input s' rest' (n - len) lvl).
Proof.
  intros Ha Hl H. unfold readLong in H.
  destruct (readUint_inv _ _ _ _ len Ha Hl) as [[Hn Hc]|(s1 & err & E & He)].
  - destruct (readUint_ok _ _ _ _ _ Ha Hl Hn Hc) as (s1 & E & H1). rewrite E in H.
    pose proof (ai_range _ _ _ _ Ha).
    assert (length (take (Z.to_nat len) rest) = Z.to_nat len) as Ht by (rewrite length_take; lia).
    assert (putint (be_val (take (Z.to_nat len) rest)) = take (Z.to_nat len) rest) as Ep.
    { apply putint_be_val; [lia|]. destruct Hc; [left; lia|by right]. }
    pose proof (be_val_range (take (Z.to_nat len) rest)) as Hr. rewrite Ht, Z2Nat.id in Hr by lia.
    assert (256 ^ len ≤ 2 ^ 64) as H64.
    { change 256 with (2 ^ 8). rewrite <-Z.pow_mul_r by lia. apply Z.pow_le_mono_r; lia. }
    injection H as <- <- <- <-. revert Hr. case_bool; [by split|]. intros Hr.
    split; [done|]. intros _. split_and!; [done|done|unfold is_u64; lia|].
    exists (drop (Z.to_nat len) rest). rewrite Ep, take_drop. split_and!; [done|lia|done].
  - rewrite E in H. injection H as <- <- <- <-. split; [congruence|done].
Qed.

Lemma set_byteval_at s rest n lvl b : at_input s rest n lvl → at_input (set_byteval b s) rest n lvl.
Proof. by apply at_input_same. Qed.

Lemma readKind_complete s hd rest n lvl k sz :
  at_input s (hd ++ rest) n lvl → header hd k sz → Z.of_nat (length hd) ≤ n →
  ∃ s', readKind s = (s', (k, sz, None)) ∧ at_input s' rest (n - Z.of_nat (length hd)) lvl ∧
    (k = KByte → hd = [st_byteval s']).
Proof.
  intros Ha Hh Hn. destruct (readByte_ok s (default x00 (head hd)) (tail hd ++ rest) n lvl) as (s1 & E & H1).
  { pose proof (header_nonempty _ _ _ Hh). destruct hd; [simpl in *; lia|done]. }
  { pose proof (header_nonempty _ _ _ Hh). lia. }
  unfold readKind. rewrite E. apply (set_byteval_at _ _ _ _ x00) in H1.
  destruct Hh as [b Hb|sz Hsz|sz Hsz].
  - cbn [head default from_option id tail app length] in *. case_bool; [|lia]. eexists. split; [done|].
    split; [by apply set_byteval_at|done].
  - unfold is_u64 in Hsz. destruct (Z.lt_ge_cases sz 56) as [Hs|Hs].
    + rewrite puthead_short in * by done. cbn [head default from_option id tail app length] in *.
      rewrite (bz_zb_small (0x80 + sz)) by lia. case_bool; [lia|]. case_bool; [|lia].
      eexists. split; [|split; [exact H1|done]]. do 3 f_equal. lia.
    + pose proof (length_putint_bounds sz). rewrite puthead_long in * by done.
      cbn [head default from_option id tail app length] in *. rewrite (bz_zb_small (0xB7 + _)) by lia.
      do 2 (case_bool; [lia|]). case_bool; [|lia]. rewrite Z.add_simpl_l.
      destruct (readLong_complete _ _ _ _ KString sz H1) as (s2 & E2 & Ha2); [lia|done|lia|].
      exists s2. split; [done|]. split; [|done]. by replace (n - _) with (n - 1 - Z.of_nat (length (putint sz))) by lia.
  - unfold is_u64 in Hsz. destruct (Z.lt_ge_cases sz 56) as [Hs|Hs].
    + rewrite puthead_short in * by done. cbn [head default from_option id tail app length] in *.
      rewrite (bz_zb_small (0xC0 + sz)) by lia. do 3 (case_bool; [lia|]). case_bool; [|lia].
      eexists. split; [|split; [exact H1|done]]. do 3 f_equal. lia.
    + pose proof (length_putint_bounds sz). rewrite puthead_long in * by done.
      cbn [head default from_option id tail app length] in *. rewrite (bz_zb_small (0xF7 + _)) by lia.
      do 4 (case_bool; [lia|]). rewrite Z.add_simpl_l.
      destruct (readLong_complete _ _ _ _ KList sz H1) as (s2 & E2 & Ha2); [lia|done|lia|].
      exists s2. split; [done|]. split; [|done]. by replace (n - _) with (n - 1 - Z.of_nat (length (putint sz))) by lia.
Qed.

Lemma puthead_tag st lt n b : n < 56 → bz b = st + n → [b] = puthead st lt n.
Proof. intros Hn E. by rewrite puthead_short, <-E, zb_bz. Qed.

Lemma puthead_long_tag st lt n b :
  56 ≤ n → bz b = lt + Z.of_nat (length (putint n)) → b :: putint n = puthead st lt n.
Proof. intros Hn E. by rewrite puthead_long, <-E, zb_bz. Qed.

Lemma readKind_sound s rest n lvl s' k sz e :
  at_input s rest n lvl → readKind s = (s', (k, sz, e)) →
  e ≠ Some EOL ∧ (e = None → ∃ hd rest', rest = hd ++ rest' ∧ header hd k sz ∧
    at_input s' rest' (n - Z.of_nat (length hd)) lvl ∧ (k = KByte → hd = [st_byteval s'])).
Proof.
  intros Ha H. unfold readKind in H. destruct (Z.lt_ge_cases n 1) as [Hn|Hn].
  { destruct (willRead_err _ _ _ _ 1 Ha ltac:(lia)) as (s1 & err & E & He).
    unfold readByte, sm_bind in H. rewrite E in H. injection H as <- <- <- <-.
    split; [|done]. destruct (st_stack s1), err; congruence. }
  pose proof (ai_range _ _ _ _ Ha). destruct rest as [|b rest]; [simpl in *; lia|].
  destruct (readByte_ok _ _ _ _ _ Ha Hn) as (s1 & E & H1). rewrite E in H.
  apply (set_byteval_at _ _ _ _ x00) in H1. pose proof (bz_range b).
  destruct (Z.ltb_spec (bz b) 0x80).
  { injection H as <- <- <- <-. split; [done|]. intros _. exists [b], rest.
    split_and!; [done|by constructor|by apply set_byteval_at|done]. }
  destruct (Z.ltb_spec (bz b) 0xB8).
  { injection H as <- <- <- <-. split; [done|]. intros _. exists [b], rest.
    split_and!; [done| |done|done]. rewrite (puthead_tag 0x80 0xB7 (bz b - 0x80)) by lia.
    constructor. unfold is_u64. lia. }
  destruct (Z.ltb_spec (bz b) 0xC0).
  { destruct (readLong_sound _ _ _ _ _ (bz b - 0xB7) _ _ _ _ H1 ltac:(lia) H) as [He Hok]. split; [done|].
    intros ->. destruct (Hok eq_refl) as (-> & Hsz & H64 & rest' & -> & Hl & Ha').
    exists (b :: putint sz), rest'. rewrite (puthead_long_tag 0x80 0xB7 sz) at 2 by lia.
    split_and!; [done|by constructor|by replace (n - _) with (n - 1 - (bz b - 183)) by (cbn [length]; lia)|done]. }
  destruct (Z.ltb_spec (bz b) 0xF8).
  { injection H as <- <- <- <-. split; [done|]. intros _. exists [b], rest.
    split_and!; [done| |done|done]. rewrite (puthead_tag 0xC0 0xF7 (bz b - 0xC0)) by lia.
    constructor. unfold is_u64. lia. }
  destruct (readLong_sound _ _ _ _ _ (bz b - 0xF7) _ _ _ _ H1 ltac:(lia) H) as [He Hok]. split; [done|].
  intros ->. destruct (Hok eq_refl) as (-> & Hsz & H64 & rest' & -> & Hl & Ha').
  exists (b :: putint sz), rest'. rewrite (puthead_long_tag 0xC0 0xF7 sz) at 2 by lia.
  split_and!; [done|by constructor|by replace (n - _) with (n - 1 - (bz b - 247)) by (cbn [length]; lia)|done].
Qed.

(** The size check of Kind compares with the budget of the current level. *)
Lemma size_check s rest n lvl sz :
  at_input s rest n lvl →
  match st_stack s with
  | [] => if st_limited s && (st_remaining s <? sz) then Some ErrValueTooLarge else None
  | tos :: _ => if u64 (lp_size tos - lp_pos tos) <? sz then Some ErrElemTooLarge else None
  end = if n <? sz then Some (match lvl with Some _ => ErrElemTooLarge | None => ErrValueTooLarge end) else None.
Proof.
  intros [H1 H2 H3 H4 H5 H6]. destruct lvl as [size|]; destruct H6 as [-> Hn].
  - cbn [lp_size lp_pos]. rewrite u64_small by (unfold is_u64; lia). by replace (size - (size - n)) with n by lia.
  - rewrite H3, H2, Hn. done.
Qed.

Definition at_end (s : Stream) : bool :=
  match st_stack s with tos :: _ => lp_pos tos =? lp_size tos | [] => false end.

Lemma at_end_spec s rest n lvl : at_input s rest n lvl → 0 < n → at_end s = false.
Proof.
  intros [H1 H2 H3 H4 H5 H6] Hn. unfold at_end. destruct lvl as [size|]; destruct H6 as [-> Hr]; [|done].
  cbn [lp_pos lp_size]. apply Z.eqb_neq. lia.
Qed.

Lemma Kind_complete s hd rest n lvl k sz :
  st_kind s = None → at_input s (hd ++ rest) n lvl → header hd k sz → Z.of_nat (length hd) + sz ≤ n → 0 ≤ sz →
  ∃ s', Stream_Kind s = (s', inr (k, sz)) ∧ at_input s' rest (n - Z.of_nat (length hd)) lvl ∧
    (k = KByte → hd = [st_byteval s']).
Proof.
  intros Hk Ha Hh Hn Hsz. unfold Stream_Kind. rewrite Hk. pose proof (header_nonempty _ _ _ Hh).
  change (match st_stack (set_kinderr None s) with tos :: _ => lp_pos tos =? lp_size tos | [] => false end)
    with (at_end s). rewrite (at_end_spec _ _ _ _ Ha) by lia.
  apply (at_input_same _ (set_kinderr None s)) in Ha; try done.
  destruct (readKind_complete _ _ _ _ _ _ _ Ha Hh) as (s1 & E & H1 & Hb); [lia|].
  rewrite E, (size_check _ _ _ _ _ H1). case_bool; [lia|]. eexists. split; [done|].
  split; [by apply (at_input_same s1)|done].
Qed.

Lemma Kind_sound s rest n lvl s' k sz :
  st_kind s = None → at_input s rest n lvl → Stream_Kind s = (s', inr (k, sz)) →
  ∃ hd rest', rest = hd ++ rest' ∧ header hd k sz ∧ Z.of_nat (length hd) + sz ≤ n ∧
    at_input s' rest' (n - Z.of_nat (length hd)) lvl ∧ (k = KByte → hd = [st_byteval s']).
Proof.
  intros Hk Ha H. unfold Stream_Kind in H. rewrite Hk in H.
  destruct (match st_stack (set_kinderr None s) with tos :: _ => lp_pos tos =? lp_size tos | [] => false end); [done|].
  apply (at_input_same _ (set_kinderr None s)) in Ha; try done.
  destruct (readKind (set_kinderr None s)) as [s1 [[k1 sz1] e]] eqn:E.
  destruct (readKind_sound _ _ _ _ _ _ _ _ Ha E) as [He Hok]. destruct e as [e|]; [done|].
  destruct (Hok eq_refl) as (hd & rest' & -> & Hh & H1 & Hb). rewrite (size_check _ _ _ _ _ H1) in H.
  revert H. case_bool; [done|]. intros [= <- <- <-]. exists hd, rest'. split_and!; try done; [lia|].
  by apply (at_input_same s1).
Qed.

Lemma Kind_eol s rest n lvl s' :
  st_kind s = None → at_input s rest n lvl → Stream_Kind s = (s', inl EOL) →
  at_input s' rest n lvl ∧ n = 0.
Proof.
  intros Hk Ha H. unfold Stream_Kind in H. rewrite Hk in H.
  change (match st_stack (set_kinderr None s) with tos :: _ => lp_pos tos =? lp_size tos | [] => false end)
    with (at_end s) in H. destruct (at_end s) eqn:Ee.
  - injection H as <-. split; [by apply (at_input_same s)|].
    destruct (Z.lt_ge_cases 0 n); [|pose proof (ai_range _ _ _ _ Ha); lia].
    by rewrite (at_end_spec _ _ _ _ Ha) in Ee.
  - apply (at_input_same _ (set_kinderr None s)) in Ha; try done.
    destruct (readKind (set_kinderr None s)) as [s1 [[k1 sz1] e]] eqn:E.
    destruct (readKind_sound _ _ _ _ _ _ _ _ Ha E) as [He Hok]. destruct e as [e|]; [congruence|].
    destruct (Hok eq_refl) as (hd & rest' & -> & Hh & H1 & Hb). rewrite (size_check _ _ _ _ _ H1) in H.
    revert H. case_bool; [|done]. by destruct lvl.
Qed.

(** ** Byte strings *)

Lemma enc_str_small c : bz c ≤ 0x7F → enc_str [c] = [c].
Proof. intros H. unfold enc_str. case_bool; [done|lia]. Qed.

Lemma enc_str_head b :
  (∀ c, b = [c] → 0x80 ≤ bz c) → enc_str b = puthead 0x80 0xB7 (Z.of_nat (length b)) ++ b.
Proof.
  intros H. destruct b as [|c [|d b]]; [done| |done]. unfold enc_str. specialize (H c eq_refl).
  case_bool; [lia|done].
Qed.

Lemma enc_str_cases (x : list byte) :
  (∃ c, x = [c] ∧ bz c ≤ 0x7F) ∨ (∀ c, x = [c] → 0x80 ≤ bz c).
Proof.
  destruct x as [|c [|d x]]; [by right| |by right].
  destruct (Z.lt_ge_cases (bz c) 0x80); [left; exists c; auto with lia|right; by intros ? [= <-]].
Qed.

Lemma willRead_kind n s : st_kind (willRead n s).1 = None.
Proof. unfold willRead. destruct (st_stack _); repeat (case_match; simpl; try done). Qed.

Lemma readFull_kind n s : st_kind (readFull n s).1 = None.
Proof.
  unfold readFull, sm_bind. pose proof (willRead_kind n s). destruct (willRead n s) as [s1 [e|[]]]; [done|].
  simpl in *. case_bool; done.
Qed.

Lemma Bytes_complete s x rest n lvl :
  st_kind s = None → at_input s (enc_str x ++ rest) n lvl → Z.of_nat (length (enc_str x)) ≤ n →
  ∃ s', Stream_Bytes s = (s', inr x) ∧ st_kind s' = None ∧
    at_input s' rest (n - Z.of_nat (length (enc_str x))) lvl.
Proof.
  intros Hk Ha Hn. pose proof (ai_bound _ _ _ _ Ha) as Hb. rewrite length_app in Hb.
  unfold Stream_Bytes, sm_bind.
  destruct (enc_str_cases x) as [(c & -> & Hc)|Hx'].
  - rewrite enc_str_small in * by done.
    destruct (Kind_complete _ [c] rest n lvl KByte 0 Hk Ha) as (s1 & -> & H1 & Hv);
      [constructor; lia|simpl in *; lia|lia|].
    cbn [fst snd]. injection (Hv eq_refl) as ->. eexists. split; [done|]. split; [done|].
    by apply (at_input_same s1).
  - rewrite (enc_str_head _ Hx') in *. rewrite length_app in *. rewrite <-app_assoc in Ha.
    destruct (Kind_complete _ _ _ _ _ KString (Z.of_nat (length x)) Hk Ha) as (s1 & -> & H1 & _);
      [constructor; unfold is_u64; lia|lia|lia|].
    cbn [fst snd]. destruct (readFull_ok _ _ _ _ (Z.of_nat (length x)) H1) as (s2 & E & H2); [lia|].
    pose proof (readFull_kind (Z.of_nat (length x)) s1) as Hk2.
    rewrite E, Nat2Z.id, take_app_length, drop_app_length in *. cbn [fst] in Hk2.
    assert ((Z.of_nat (length x) =? 1) && match x with c :: _ => bz c <? 128 | [] => false end = false) as ->.
    { destruct x as [|c [|d x]]; [done| |]; cbn [length].
      - specialize (Hx' c eq_refl). destruct (Z.ltb_spec (bz c) 128); [lia|]. apply Bool.andb_false_r.
      - rewrite (proj2 (Z.eqb_neq _ _)) by lia. done. }
    unfold sm_ret. exists s2. split_and!; [done|done|].
    by replace (n - _) with (n - Z.of_nat (length (puthead 128 183 (Z.of_nat (length x)))) - Z.of_nat (length x)) by lia.
Qed.

Lemma Bytes_sound s rest n lvl s' x :
  st_kind s = None → at_input s rest n lvl → Stream_Bytes s = (s', inr x) →
  ∃ rest', rest = enc_str x ++ rest' ∧ st_kind s' = None ∧ Z.of_nat (length (enc_str x)) ≤ n ∧
    at_input s' rest' (n - Z.of_nat (length (enc_str x))) lvl.
Proof.
  intros Hk Ha H. unfold Stream_Bytes, sm_bind in H.
  destruct (Stream_Kind s) as [s1 [e|[k sz]]] eqn:E; [done|].
  destruct (Kind_sound _ _ _ _ _ _ _ Hk Ha E) as (hd & rest' & -> & Hh & Hn & H1 & Hv).
  cbn [fst snd] in H. destruct Hh as [b Hb|sz Hsz|sz Hsz]; [| |done].
  - injection H as <- <-. injection (Hv eq_refl) as ->. rewrite enc_str_small by lia.
    exists rest'. split_and!; [done|done|simpl in *; lia|by apply (at_input_same s1)].
  - unfold is_u64 in Hsz.
    destruct (readFull_ok _ _ _ _ sz H1) as (s2 & E2 & H2); [lia|]. pose proof (readFull_kind sz s1) as Hk2.
    rewrite E2 in *. cbn [fst] in Hk2.
    pose proof (ai_range _ _ _ _ H1) as Hr. pose proof (length_take_le rest' (Z.to_nat sz) ltac:(lia)) as Ht.
    destruct ((sz =? 1) && match take (Z.to_nat sz) rest' with c :: _ => bz c <? 128 | [] => false end) eqn:Ec; [done|].
    injection H as <- <-. rewrite enc_str_head.
    + rewrite Ht, Z2Nat.id in * by lia. exists (drop (Z.to_nat sz) rest').
      rewrite <-app_assoc, take_drop, length_app, Ht. split_and!; [done|done|lia|].
      by replace (n - _) with (n - Z.of_nat (length (puthead 128 183 sz)) - sz) by lia.
    + intros c Hc. rewrite Hc in Ec, Ht. cbn [length] in Ht. rewrite (proj2 (Z.eqb_eq sz 1)) in Ec by lia.
      destruct (Z.ltb_spec (bz c) 128); [done|lia].
Qed.

Lemma Bytes_eol s rest n lvl s' :
  st_kind s = None → at_input s rest n lvl → Stream_Bytes s = (s', inl EOL) →
  at_input s' rest n lvl ∧ n = 0.
Proof.
  intros Hk Ha H. unfold Stream_Bytes, sm_bind in H.
  destruct (Stream_Kind s) as [s1 [e|[k sz]]] eqn:E.
  - injection H as <- ->. by apply (Kind_eol s).
  - destruct (Kind_sound _ _ _ _ _ _ _ Hk Ha E) as (hd & rest' & -> & Hh & Hn & H1 & Hv).
    cbn [fst snd] in H. destruct k; [done| |done].
    assert (0 ≤ sz) by (inversion Hh as [| |]; unfold is_u64 in *; lia).
    destruct (readFull_ok _ _ _ _ sz H1) as (s2 & E2 & H2); [lia|]. rewrite E2 in H.
    by destruct (_ && _).
Qed.

(** ** Lists of byte strings *)

Definition enc_elems (xs : list (list byte)) : list byte := concat (map enc_str xs).

Lemma enc_list_strings xs : enc (Lst (map Str xs)) = enc_payload (enc_elems xs).
Proof. cbn [enc]. by rewrite map_map. Qed.

Lemma enc_str_nonempty x : (1 ≤ length (enc_str x))%nat.
Proof.
  destruct (enc_str_cases x) as [(c & -> & Hc)|Hx].
  - by rewrite enc_str_small.
  - rewrite enc_str_head, length_app by done. pose proof (length_puthead 128 183 (Z.of_nat (length x))). lia.
Qed.

Lemma Elems_complete xs fuel s rest size :
  st_kind s = None → at_input s (enc_elems xs ++ rest) (Z.of_nat (length (enc_elems xs))) (Some size) →
  (length xs < fuel)%nat →
  ∃ s', decodeSliceElems fuel Stream_Bytes s = Some (s', inr xs) ∧ at_input s' rest 0 (Some size).
Proof.
  revert fuel s. induction xs as [|x xs IH]; intros [|fuel] s Hk Ha Hf; try (simpl in Hf; lia).
  - cbn [decodeSliceElems]. unfold Stream_Bytes, sm_bind, Stream_Kind. rewrite Hk.
    change (st_stack (set_kinderr None s)) with (st_stack s). destruct (ai_stack _ _ _ _ Ha) as [-> _].
    cbn [lp_pos lp_size]. rewrite (proj2 (Z.eqb_eq _ _)) by (simpl; lia). eexists. split; [done|].
    by apply (at_input_same s).
  - cbn [decodeSliceElems]. change (enc_elems (x :: xs)) with (enc_str x ++ enc_elems xs) in Ha.
    rewrite <-app_assoc, length_app in Ha.
    destruct (Bytes_complete _ _ _ _ _ Hk Ha) as (s1 & -> & Hk1 & H1); [lia|].
    rewrite Nat2Z.inj_add, Z.add_simpl_l in H1. destruct (IH fuel s1 Hk1 H1) as (s2 & -> & H2); [simpl in Hf; lia|].
    by exists s2.
Qed.

Lemma Elems_sound fuel s rest n lvl s' xs :
  st_kind s = None → at_input s rest n lvl → decodeSliceElems fuel Stream_Bytes s = Some (s', inr xs) →
  ∃ rest', rest = enc_elems xs ++ rest' ∧ n = Z.of_nat (length (enc_elems xs)) ∧ at_input s' rest' 0 lvl.
Proof.
  revert s rest n xs. induction fuel as [|fuel IH]; intros s rest n xs Hk Ha H; [done|].
  cbn [decodeSliceElems] in H. destruct (Stream_Bytes s) as [s1 [e|x]] eqn:E.
  - destruct e; try done. injection H as <- <-. destruct (Bytes_eol _ _ _ _ _ Hk Ha E) as [H1 ->].
    by exists rest.
  - destruct (Bytes_sound _ _ _ _ _ _ Hk Ha E) as (r1 & -> & Hk1 & Hn1 & H1).
    destruct (decodeSliceElems fuel Stream_Bytes s1) as [[s2 [e|ys]]|] eqn:E2; [done| |done].
    injection H as -> <-. destruct (IH _ _ _ _ Hk1 H1 E2) as (r2 & -> & Hn2 & H2).
    exists r2. change (enc_elems (x :: ys)) with (enc_str x ++ enc_elems ys).
    rewrite <-app_assoc, length_app. split_and!; [done|lia|done].
Qed.

Lemma Elems_total fuel s rest n lvl :
  st_kind s = None → at_input s rest n lvl → (length rest < fuel)%nat →
  decodeSliceElems fuel Stream_Bytes s ≠ None.
Proof.
  revert s rest n. induction fuel as [|fuel IH]; intros s rest n Hk Ha Hf; [lia|].
  cbn [decodeSliceElems]. destruct (Stream_Bytes s) as [s1 [e|x]] eqn:E; [by destruct e|].
  destruct (Bytes_sound _ _ _ _ _ _ Hk Ha E) as (r1 & -> & Hk1 & Hn1 & H1).
  pose proof (enc_str_nonempty x). rewrite length_app in Hf.
  destruct (decodeSliceElems fuel Stream_Bytes s1) as [[s2 [e|ys]]|] eqn:E2; [done..|].
  apply (IH s1 r1 _ Hk1 H1) in E2; [done|lia].
Qed.

Lemma length_enc_elems xs : (length xs ≤ length (enc_elems xs))%nat.
Proof.
  induction xs as [|x xs IH]; [done|]. change (enc_elems (x :: xs)) with (enc_str x ++ enc_elems xs).
  rewrite length_app. pose proof (enc_str_nonempty x). simpl. lia.
Qed.

Lemma List_complete s sz rest n :
  st_kind s = None → at_input s (puthead 0xC0 0xF7 sz ++ rest) n None → 0 ≤ sz ≤ Z.of_nat (length rest) →
  ∃ s', Stream_List s = (s', inr sz) ∧ st_kind s' = None ∧ at_input s' rest sz (Some sz).
Proof.
  intros Hk Ha Hs. destruct (ai_stack _ _ _ _ Ha) as [_ Hn]. pose proof (ai_bound _ _ _ _ Ha) as Hb.
  rewrite length_app in *. unfold Stream_List, sm_bind.
  destruct (Kind_complete _ _ _ _ _ KList sz Hk Ha) as (s1 & -> & [A1 A2 A3 A4 A5 [A6 A7]] & _);
    [constructor; unfold is_u64; lia|lia|lia|].
  cbn [fst snd]. rewrite bool_decide_true by done. unfold sm_upd, sm_ret. eexists. split; [done|]. split; [done|].
  split; simpl; try done; try lia. rewrite A6, Z.sub_diag. split; [done|lia].
Qed.

Lemma header_list_inv hd sz : header hd KList sz → hd = puthead 0xC0 0xF7 sz ∧ is_u64 sz.
Proof. inversion 1; done. Qed.

Lemma List_sound s rest n s' sz :
  st_kind s = None → at_input s rest n None → Stream_List s = (s', inr sz) →
  ∃ rest', rest = puthead 0xC0 0xF7 sz ++ rest' ∧ st_kind s' = None ∧ at_input s' rest' sz (Some sz).
Proof.
  intros Hk Ha H. unfold Stream_List, sm_bind in H. destruct (Stream_Kind s) as [s1 [e|[k z]]] eqn:E; [done|].
  destruct (Kind_sound _ _ _ _ _ _ _ Hk Ha E) as (hd & rest' & -> & Hh & Hn & [A1 A2 A3 A4 A5 [A6 A7]] & _).
  cbn [fst snd] in H. case_bool_decide as Hkl; [|done]. subst k. injection H as <- <-.
  apply header_list_inv in Hh as [-> Hz]. unfold is_u64 in Hz. exists rest'. split; [done|]. split; [done|].
  split; simpl; try done; try lia. rewrite A6, Z.sub_diag. split; [done|lia].
Qed.

Lemma finish_list_ok {A} (xs : A) s rest size :
  at_input s rest 0 (Some size) → ∃ s', finish_list xs s = (s', inr xs) ∧ st_r s' = rest.
Proof.
  intros Ha. destruct (ai_stack _ _ _ _ Ha) as [Hs _]. unfold finish_list, sm_bind, ListEnd. rewrite Hs.
  cbn [lp_pos lp_size]. rewrite (proj2 (Z.eqb_eq _ _)) by lia. cbn [negb]. eexists. split; [done|]. apply Ha.
Qed.

Lemma DecodeBytes_enc b xs :
  Z.of_nat (length b) < 2 ^ 64 → (DecodeBytes b = Some (inr xs) ↔ b = enc (Lst (map Str xs))).
Proof.
  intros Hb. rewrite enc_list_strings. unfold enc_payload, DecodeBytes, decodeListSlice.
  pose proof (Reset_at b Hb) as Ha. split.
  - intros H. destruct (Stream_List (Stream_Reset b)) as [s1 [e|sz]] eqn:E1; [done|].
    destruct (List_sound (Stream_Reset b) _ _ _ _ eq_refl Ha E1) as (rest & -> & Hk1 & H1).
    destruct (Z.eqb_spec sz 0) as [->|Hz].
    + destruct (finish_list_ok (@nil (list byte)) _ _ _ H1) as (s2 & E2 & Hr). rewrite E2, Hr in H.
      destruct rest; [|done]. by injection H as <-.
    + destruct (decodeSliceElems _ _ s1) as [[s2 [e|ys]]|] eqn:E2; [done| |done].
      destruct (Elems_sound _ _ _ _ _ _ _ Hk1 H1 E2) as (rest' & -> & Hn & H2).
      destruct (finish_list_ok ys _ _ _ H2) as (s3 & E3 & Hr). rewrite E3, Hr in H.
      destruct rest'; [|done]. injection H as <-. rewrite app_nil_r. by subst sz.
  - intros ->. destruct (List_complete (Stream_Reset _) _ _ _ eq_refl Ha) as (s1 & -> & Hk1 & H1); [lia|].
    rewrite <-(app_nil_r (enc_elems xs)) in H1 at 1.
    destruct (Z.eqb_spec (Z.of_nat (length (enc_elems xs))) 0) as [Hz|Hz].
    + pose proof (length_enc_elems xs). destruct xs; [|simpl in *; lia].
      by destruct (finish_list_ok (@nil (list byte)) _ _ _ H1) as (s2 & -> & ->).
    + destruct (Elems_complete xs (S (length (puthead 192 247 (Z.of_nat (length (enc_elems xs))) ++ enc_elems xs))) s1 [] _ Hk1 H1)
        as (s2 & E2 & H2).
      { rewrite length_app. pose proof (length_enc_elems xs). lia. }
      rewrite E2. by destruct (finish_list_ok xs _ _ _ H2) as (s3 & -> & ->).
Qed.

Lemma DecodeBytes_total b : Z.of_nat (length b) < 2 ^ 64 → DecodeBytes b ≠ None.
Proof.
  intros Hb. pose proof (Reset_at b Hb) as Ha. unfold DecodeBytes, decodeListSlice.
  destruct (Stream_List (Stream_Reset b)) as [s1 [e|sz]] eqn:E1; [done|].
  destruct (List_sound (Stream_Reset b) _ _ _ _ eq_refl Ha E1) as (rest & -> & Hk1 & H1).
  destruct (sz =? 0); [by destruct (finish_list _ s1) as [? [?|?]]|].
  pose proof (Elems_total (S (length (puthead 192 247 sz ++ rest))) _ _ _ _ Hk1 H1) as Ht.
  destruct (decodeSliceElems _ _ s1) as [[s2 [e|ys]]|]; [done|by destruct (finish_list ys s2) as [? [?|?]]|].
  rewrite length_app in Ht. exfalso. apply Ht; [lia|done].
Qed.

(** * The encoder implements the recursive definition *)

Definition blen (b : list byte) : Z := Z.of_nat (length b).

(** The string data of an item, and its list headers in the order in which the
    encoder opens them, for string data that starts at [off]. *)
Fixpoint flat (it : item) : list byte :=
  match it with
  | Str b => enc_str b
  | Lst l => concat (map flat l)
  end.

Fixpoint heads (off : Z) (it : item) : list listhead :=
  match it with
  | Str _ => []
  | Lst l =>
      mkHead off (blen (concat (map enc l))) ::
      (fix go (off : Z) (l : list item) : list listhead :=
         match l with
         | [] => []
         | it :: l => heads off it ++ go (off + blen (flat it)) l
         end) off l
  end.

Fixpoint heads_list (off : Z) (l : list item) : list listhead :=
  match l with
  | [] => []
  | it :: l => heads off it ++ heads_list (off + blen (flat it)) l
  end.

Lemma heads_Lst off l :
  heads off (Lst l) = mkHead off (blen (concat (map enc l))) :: heads_list off l.
Proof. reflexivity. Qed.

Lemma blen_app a b : blen (a ++ b) = blen a + blen b.
Proof. unfold blen. rewrite length_app. lia. Qed.

Lemma blen_nonneg b : 0 ≤ blen b.
Proof. unfold blen. lia. Qed.

(** The writer of [it] appends its string data and headers. *)
Definition writes (w : encbuf) (str : list byte) (hs : list listhead) (n : Z) : encbuf :=
  mkEncbuf (eb_str w ++ str) (eb_lheads w ++ hs) (eb_lhsize w + (n - blen str)).

Lemma encodeString_writes w b : encodeString w b = writes w (enc_str b) [] (blen (enc_str b)).
Proof.
  unfold writes. rewrite app_nil_r, Z.sub_diag, Z.add_0_r.
  assert (∀ n, encodeStringHeader w n = eb_append w (puthead 0x80 0xB7 n)) as Hh.
  { intros n. unfold encodeStringHeader, puthead. by case_bool. }
  assert (∀ x y, eb_append (eb_append w x) y = eb_append w (x ++ y)) as Ha.
  { intros x y. unfold eb_append. simpl. by rewrite app_assoc. }
  unfold encodeString, enc_str. destruct b as [|c [|d b]]; rewrite ?Hh, ?Ha; try done.
  case_bool; rewrite ?Hh, ?Ha; done.
Qed.

Lemma writes_writes w s1 h1 n1 s2 h2 n2 :
  writes (writes w s1 h1 n1) s2 h2 n2 = writes w (s1 ++ s2) (h1 ++ h2) (n1 + n2).
Proof. unfold writes. simpl. rewrite <-!app_assoc, blen_app. f_equal. lia. Qed.

Lemma length_puthead_list n :
  0 ≤ n < 2 ^ 64 → blen (puthead 0xC0 0xF7 n) = if n <? 56 then 1 else 1 + intsize n.
Proof.
  intros Hn. unfold puthead, blen. case_bool; [done|]. cbn [length]. rewrite <-putint_intsize by lia. lia.
Qed.

Lemma encbuf_list_end w l :
  blen (concat (map enc l)) < 2 ^ 64 →
  encbuf_listEnd (writes (encbuf_list w).1 (concat (map flat l)) (heads_list (blen (eb_str w)) l)
    (blen (concat (map enc l)))) (encbuf_list w).2 =
  Ok (writes w (flat (Lst l)) (heads (blen (eb_str w)) (Lst l)) (blen (enc (Lst l)))).
Proof.
  intros Hb. rewrite heads_Lst. unfold encbuf_listEnd, writes, encbuf_list. simpl. fold (blen (eb_str w)).
  rewrite <-app_assoc. cbn [app]. rewrite list_lookup_middle by done.
  rewrite insert_app_r_alt, Nat.sub_diag by done. cbn [insert list_insert lh_offset lh_size].
  unfold encbuf_size. simpl. fold (blen (eb_str w ++ concat (map flat l))). rewrite blen_app.
  set (p := concat (map enc l)) in *. set (f := concat (map flat l)).
  replace (blen (eb_str w) + blen f + (eb_lhsize w + (blen p - blen f)) - blen (eb_str w) - eb_lhsize w)
    with (blen p) by lia.
  unfold enc_payload. fold (blen p). rewrite blen_app, length_puthead_list by (pose proof (blen_nonneg p); lia).
  do 2 f_equal. case_bool; lia.
Qed.

Lemma enc_payload_le p : blen p ≤ blen (enc_payload p).
Proof. unfold enc_payload. rewrite blen_app. pose proof (blen_nonneg (puthead 192 247 (Z.of_nat (length p)))). lia. Qed.

Lemma write_item_spec it w :
  blen (enc it) < 2 ^ 64 →
  write_item w it = Ok (writes w (flat it) (heads (blen (eb_str w)) it) (blen (enc it))).
Proof.
  revert w. induction it as [b|l IH] using item_rect'; intros w Hb.
  - cbn [write_item flat heads enc]. by rewrite encodeString_writes.
  - cbn [enc] in Hb. pose proof (enc_payload_le (concat (map enc l))) as Hp.
    cbn [write_item]. rewrite (surjective_pairing (encbuf_list w)).
    rewrite <-encbuf_list_end by lia.
    assert (∀ w, foldM write_item w l =
      Ok (writes w (concat (map flat l)) (heads_list (blen (eb_str w)) l) (blen (concat (map enc l))))) as Hf.
    { assert (blen (concat (map enc l)) < 2 ^ 64) as Hl by lia. clear Hb Hp. revert Hl.
      induction IH as [|it l Hit _ IHl]; intros Hl w'.
      - cbn. unfold writes. rewrite !app_nil_r. f_equal. destruct w'; simpl. f_equal. unfold blen. simpl. lia.
      - cbn [map concat] in *. rewrite blen_app in *. pose proof (blen_nonneg (enc it)).
        pose proof (blen_nonneg (concat (map enc l))).
        cbn [foldM]. rewrite Hit, bind_Ok, IHl by lia. rewrite writes_writes. cbn [heads_list].
        unfold writes at 2. simpl. by rewrite blen_app. }
    rewrite Hf, bind_Ok. done.
Qed.

(** The output of toBytes for string data [str] from offset [base] on. *)
Fixpoint render (base : Z) (str : list byte) (hs : list listhead) : list byte :=
  match hs with
  | [] => str
  | h :: hs =>
      let n := Z.to_nat (lh_offset h - base) in
      take n str ++ head_encode h ++ render (lh_offset h) (drop n str) hs
  end.

Fixpoint offsets_ok (base len : Z) (hs : list listhead) : Prop :=
  match hs with
  | [] => base ≤ len
  | h :: hs => base ≤ lh_offset h ∧ offsets_ok (lh_offset h) len hs
  end.

Lemma offsets_ok_le base len hs : offsets_ok base len hs → base ≤ len.
Proof.
  revert base. induction hs as [|h hs IH]; intros base; simpl; [done|]. intros [H1 H2%IH]. lia.
Qed.

Lemma render_app base str1 str2 hs :
  offsets_ok (base + blen str1) (base + blen str1 + blen str2) hs →
  render base (str1 ++ str2) hs = str1 ++ render (base + blen str1) str2 hs.
Proof.
  destruct hs as [|h hs]; [done|]. intros [H1 H2]. cbn [render].
  replace (Z.to_nat (lh_offset h - base)) with (length str1 + Z.to_nat (lh_offset h - (base + blen str1)))%nat
    by (unfold blen in *; lia).
  by rewrite take_app_add, drop_app_add, <-!app_assoc.
Qed.

(** ** The headers and the string data together give the encoding *)

Definition renders (it : item) : Prop :=
  ∀ base s hs, offsets_ok (base + blen (flat it)) (base + blen (flat it) + blen s) hs →
    render base (flat it ++ s) (heads base it ++ hs) = enc it ++ render (base + blen (flat it)) s hs ∧
    offsets_ok base (base + blen (flat it) + blen s) (heads base it ++ hs).

Lemma render_items l :
  Forall renders l → ∀ base s hs,
  offsets_ok (base + blen (concat (map flat l))) (base + blen (concat (map flat l)) + blen s) hs →
  render base (concat (map flat l) ++ s) (heads_list base l ++ hs) =
    concat (map enc l) ++ render (base + blen (concat (map flat l))) s hs ∧
  offsets_ok base (base + blen (concat (map flat l)) + blen s) (heads_list base l ++ hs).
Proof.
  induction 1 as [|it l Hit _ IH]; intros base s hs Ho.
  - simpl. change (blen []) with 0 in *. rewrite Z.add_0_r in *. done.
  - cbn [map concat heads_list] in *. rewrite blen_app, Z.add_assoc in *. rewrite <-!app_assoc.
    destruct (IH _ _ _ Ho) as [E1 O1].
    destruct (Hit base (concat (map flat l) ++ s) (heads_list (base + blen (flat it)) l ++ hs)) as [E2 O2].
    { by rewrite blen_app, Z.add_assoc. }
    rewrite blen_app, Z.add_assoc in O2. by rewrite E2, E1.
Qed.

Lemma render_item it : renders it.
Proof.
  induction it as [b|l IH] using item_rect'; intros base s hs Ho.
  - cbn [flat heads enc app] in *. split; [by apply render_app|].
    destruct hs as [|h hs]; simpl in *; [pose proof (blen_nonneg (enc_str b)); lia|].
    pose proof (blen_nonneg (enc_str b)). split; [lia|apply Ho].
  - rewrite heads_Lst. cbn [app render lh_offset offsets_ok]. rewrite Z.sub_diag. cbn [Z.to_nat take drop app].
    destruct (render_items l IH base s hs Ho) as [E O]. split; [|split; [lia|exact O]].
    cbn [flat]. change (Z.to_nat 0) with 0%nat. rewrite take_0, drop_0, E. cbn [enc app]. unfold head_encode, enc_payload, blen. cbn [lh_size]. by rewrite <-app_assoc.
Qed.

(** ** The output buffer is filled exactly *)

Lemma copy_at_app d pad src :
  (length src ≤ length pad)%nat →
  copy_at (d ++ pad) (length d) src = Ok (d ++ src ++ drop (length src) pad, length src).
Proof.
  intros H. unfold copy_at. rewrite length_app. rewrite (proj2 (Nat.ltb_ge _ _)) by lia.
  replace (Nat.min (length d + length pad - length d) (length src)) with (length src) by lia.
  by rewrite take_app_length, drop_app_add, (take_ge src) by lia.
Qed.

Lemma put_at_app d pad src :
  (length src ≤ length pad)%nat →
  put_at (d ++ pad) (length d) src = Ok (d ++ src ++ drop (length src) pad).
Proof.
  intros H. unfold put_at. rewrite length_app. rewrite (proj2 (Nat.ltb_ge _ _)) by lia.
  by rewrite take_app_length, drop_app_add.
Qed.

Lemma toBytes_step_ok str h base d pad :
  let n := Z.to_nat (lh_offset h - Z.of_nat base) in
  Z.of_nat base ≤ lh_offset h ≤ Z.of_nat (length str) → (n + length (head_encode h) ≤ length pad)%nat →
  toBytes_step str (d ++ pad, length d, base) h =
    Ok ((d ++ take n (drop base str) ++ head_encode h) ++ drop (n + length (head_encode h)) pad,
        length (d ++ take n (drop base str) ++ head_encode h), (base + n)%nat).
Proof.
  intros n Ho Hp. assert (length (take n (drop base str)) = n) as Hn by (rewrite length_take, length_drop; lia).
  unfold toBytes_step. rewrite go_slice_ok, bind_Ok, Nat2Z.id by lia. fold n.
  rewrite copy_at_app, bind_Ok, app_assoc, <-length_app by lia.
  rewrite put_at_app, bind_Ok, drop_drop, Hn by (rewrite length_drop; lia).
  by rewrite <-!app_assoc, !length_app, Nat.add_assoc.
Qed.

Lemma toBytes_steps str hs base d pad :
  offsets_ok (Z.of_nat base) (blen str) hs →
  length pad = length (render (Z.of_nat base) (drop base str) hs) →
  ('(out, pos, strpos) ← foldM (toBytes_step str) (d ++ pad, length d, base) hs;
   src ← go_slice str (Z.of_nat strpos) (Z.of_nat (length str));
   '(out, _) ← copy_at out pos src;
   Ok out) = Ok (d ++ render (Z.of_nat base) (drop base str) hs).
Proof.
  revert base d pad. induction hs as [|h hs IH]; intros base d pad Ho Hp.
  - cbn [foldM render offsets_ok] in *. unfold blen in Ho. rewrite bind_Ok, go_slice_ok, bind_Ok by lia.
    rewrite Nat2Z.id, take_ge by (rewrite length_drop; lia).
    rewrite copy_at_app, bind_Ok, (drop_ge pad), app_nil_r by lia. done.
  - cbn [foldM render] in *. destruct Ho as [Ho1 Ho2]. pose proof (offsets_ok_le _ _ _ Ho2) as Ho3. unfold blen in Ho3.
    set (n := Z.to_nat (lh_offset h - Z.of_nat base)) in *.
    assert (length (take n (drop base str)) = n) as Hn by (rewrite length_take, length_drop; lia).
    rewrite !length_app, Hn in Hp. rewrite toBytes_step_ok, bind_Ok by lia. fold n.
    replace (lh_offset h) with (Z.of_nat (base + n)) in * by lia. rewrite drop_drop in *.
    rewrite IH; [|done|rewrite length_drop; lia]. by rewrite <-!app_assoc.
Qed.

Lemma EncodeToBytes_enc it : blen (enc it) < 2 ^ 64 → EncodeToBytes it = Ok (enc it).
Proof.
  intros Hb. unfold EncodeToBytes. rewrite write_item_spec, bind_Ok by done.
  destruct (render_item it 0 [] []) as [E O].
  { simpl. change (blen []) with 0. lia. }
  rewrite !app_nil_r in *. change (blen []) with 0 in O. rewrite Z.add_0_r in O. cbn [render] in E. rewrite ?app_nil_r in E.
  unfold encbuf_toBytes, writes, encbuf_size, encbuf_reset. cbn [eb_str eb_lheads eb_lhsize app].
  change (blen []) with 0. set (pad := replicate _ x00).
  pose proof (toBytes_steps (flat it) (heads 0 it) 0 [] pad O) as H. rewrite drop_0 in H.
  change (Z.of_nat 0) with 0 in H. rewrite E in H. apply H. unfold pad. rewrite length_replicate. unfold blen in *. lia.
Qed.

(** * The properties of the codec *)

(** EncodeToBytes returns, for any value made of byte slices and slices,
    the RLP encoding of the value: the buffer that is filled from the separate
    string data and list headers has exactly the right size, every header is
    in its place and holds the length of its payload. *)
Theorem EncodeToBytes_spec it : blen (enc it) < 2 ^ 63 → EncodeToBytes it = Ok (enc it).
Proof. intros H. apply EncodeToBytes_enc. lia. Qed.

Definition sample_item : item := Lst [Str []; Lst [Str [x7f]; Lst []; Str [x80]]; Str (replicate 60 x01)].

Lemma EncodeToBytes_spec_witness :
  blen (enc sample_item) < 2 ^ 63 ∧ EncodeToBytes sample_item = Ok (enc sample_item).
Proof. split; [vm_compute; reflexivity|]. apply (EncodeToBytes_spec sample_item). vm_compute. reflexivity. Defined.

(** C15. Round trip of the codec: a list of byte strings is encoded without
    error, and DecodeBytes of the encoding returns the list. *)
Theorem DecodeBytes_EncodeToBytes xs :
  blen (enc_payload (enc_elems xs)) < 2 ^ 63 →
  ∃ b, EncodeToBytes (Lst (map Str xs)) = Ok b ∧ DecodeBytes b = Some (inr xs).
Proof.
  intros H. exists (enc (Lst (map Str xs))). rewrite <-enc_list_strings in H.
  rewrite EncodeToBytes_enc by lia. split; [done|]. apply DecodeBytes_enc; [unfold blen in H; lia|done].
Qed.

Lemma DecodeBytes_EncodeToBytes_witness :
  ∃ b, EncodeToBytes (Lst (map Str [[]; [x05]; replicate 60 xff])) = Ok b ∧
    DecodeBytes b = Some (inr [[]; [x05]; replicate 60 xff]).
Proof. apply (DecodeBytes_EncodeToBytes [[]; [x05]; replicate 60 xff]). vm_compute. reflexivity. Defined.

(** C30. The decoder is canonical and terminates: on every input DecodeBytes
    returns, and when it returns a list the input is the one encoding of that
    list, so no two inputs decode to the same list. *)
Theorem DecodeBytes_canonical b :
  Z.of_nat (length b) < 2 ^ 63 →
  ∃ r, DecodeBytes b = Some r ∧
    match r with
    | inr xs => EncodeToBytes (Lst (map Str xs)) = Ok b
    | inl _ => ∀ xs, b ≠ enc (Lst (map Str xs))
    end.
Proof.
  intros Hb. destruct (DecodeBytes b) as [r|] eqn:E; [|by apply DecodeBytes_total in E; [|lia]].
  exists r. split; [done|]. destruct r as [e|xs].
  - intros xs Hx. apply (DecodeBytes_enc b xs) in Hx; [congruence|lia].
  - apply DecodeBytes_enc in E; [|lia]. subst b. apply EncodeToBytes_enc. unfold blen. lia.
Qed.

Lemma DecodeBytes_canonical_witness :
  ∃ r, DecodeBytes [xc3; x81; x05; x80] = Some r ∧
    match r with
    | inr xs => EncodeToBytes (Lst (map Str xs)) = Ok [xc3; x81; x05; x80]
    | inl _ => ∀ xs, [xc3; x81; x05; x80] ≠ enc (Lst (map Str xs))
    end.
Proof. apply (DecodeBytes_canonical [xc3; x81; x05; x80]). vm_compute. reflexivity. Defined.
