(* ===== verification/L2Data.v ===== *)
(** The batch L2 data codec of zk/tx/tx.go.

    A batch is a byte string: for every block a "change L2 block" marker with
    the time delta and the L1 info tree index, followed by the transactions,
    each the RLP list of its fields, the signature, and the effective gas price
    percentage.  [GenerateBlockBatchL2Data] writes a block and
    [DecodeBatchL2Blocks] reads a batch.  Transactions are legacy transactions
    (core/types/legacy_tx.go), the kind the decoder produces. *)

From S2P Require Import Prelude Bytes Rlp RlpSpec.
From Stdlib Require Import Strings.Byte.

Local Open Scope Z_scope.

(** * Constants *)

Definition double : Z := 2.
Definition ether155V : Z := 27.
Definition etherPre155V : Z := 35.
Definition headerByteLength : Z := 1.
Definition sLength : Z := 32.
Definition rLength : Z := 32.
Definition vLength : Z := 1.
Definition c0 : Z := 192.
Definition shortRlp : Z := 55.
Definition f7 : Z := 247.
Definition efficiencyPercentageByteLength : Z := 1.
Definition changeL2BlockTxType : Z := 11.
Definition changeL2BlockLength : Z := 9.
Definition ForkID5Dragonfruit : Z := 5.
Definition ForkID7Etrog : Z := 7.
Definition START_BLOCK_BATCH_L2_DATA_SIZE : Z := 65.

Definition ErrInvalidData : string := "invalid data".
Definition ErrTxTypeNotSupported : string := "transaction type not supported".

(** * Legacy transactions *)

(** 256-bit words of holiman/uint256: [u256] is SetBytes and FromBig, which keep
    the low 256 bits. *)
Definition u256 (x : Z) : Z := x mod 2 ^ 256.

Record LegacyTx := mkLegacyTx {
  Nonce : Z;
  GasPrice : Z;
  Gas : Z;
  To : option (list byte);
  Value : option Z;
  Data : list byte;
  V : Z;
  R : Z;
  S_ : Z;
  ChainID : Z;
}.

#[export] Instance LegacyTx_eq_dec : EqDecision LegacyTx.
Proof. solve_decision. Defined.

Definition isProtectedV (V : Z) : bool :=
  if (ndigits 1 V <=? 8)%nat then negb (V =? 27) && negb (V =? 28) && negb (V =? 1) && negb (V =? 0)
  else true.

Definition DeriveChainId (v : Z) : Z :=
  if v <? 2 ^ 64 then
    if (v =? 27) || (v =? 28) then 0 else u64 (v - 35) / 2
  else u256 (v - 35) / 2.

Definition Protected (tx : LegacyTx) : bool := isProtectedV (V tx).
Definition GetChainID (tx : LegacyTx) : Z := DeriveChainId (V tx).

(** * Encoding *)

Fixpoint removeLeadingZeroesFromBytes (source : list byte) : list byte :=
  match source with
  | [] => []
  | b :: rest => if bool_decide (b = x00) then removeLeadingZeroesFromBytes rest else source
  end.

Definition GetDecodedV (tx : LegacyTx) (v : Z) : Z :=
  if negb (Protected tx) then v
  else u256 (v + ether155V - GetChainID tx * double - etherPre155V).

Definition tx_fields (tx : LegacyTx) : list (list byte) :=
  let toEncode :=
    [removeLeadingZeroesFromBytes (be_bytes 8 (Nonce tx));
     removeLeadingZeroesFromBytes (big_bytes (GasPrice tx));
     removeLeadingZeroesFromBytes (be_bytes 8 (Gas tx));
     default [] (To tx);
     removeLeadingZeroesFromBytes (big_bytes (default 0 (Value tx)));
     Data tx] in
  if negb (GetChainID tx =? 0) || negb ((V tx =? 27) || (V tx =? 28)) then
    toEncode ++ [removeLeadingZeroesFromBytes (big_bytes (GetChainID tx)); []; []]
  else toEncode.

Definition TransactionToL2Data (tx : LegacyTx) (forkId efficiencyPercentage : Z) : outcome (list byte) :=
  encoded ← EncodeToBytes (Lst (map Str (tx_fields tx)));
  let v := GetDecodedV tx (V tx) in
  let encoded := encoded ++ be_bytes 32 (R tx) ++ be_bytes 32 (S_ tx) ++ big_bytes v in
  Ok (if ForkID5Dragonfruit <=? forkId then encoded ++ [zb efficiencyPercentage] else encoded).

Definition GenerateStartBlockBatchL2Data (deltaTimestamp l1InfoTreeIndex : Z) : list byte :=
  [zb changeL2BlockTxType] ++ be_bytes 4 deltaTimestamp ++ be_bytes 4 l1InfoTreeIndex.

Definition GenerateBlockBatchL2Data (forkId deltaTimestamp l1InfoTreeIndex : Z)
    (transactionsData : list (LegacyTx * Z)) : outcome (list byte) :=
  let result :=
    if ForkID7Etrog <=? forkId then GenerateStartBlockBatchL2Data deltaTimestamp l1InfoTreeIndex else [] in
  foldM (λ result '(tx, percentage),
    encoded ← TransactionToL2Data tx forkId percentage;
    Ok (result ++ encoded)) result transactionsData.

(** * Decoding *)

Definition rlpFieldsToLegacyTx (fields : list (list byte)) (v r s : list byte) : outcome LegacyTx :=
  if (length fields <? 6)%nat then Err ErrTxTypeNotSupported
  else
    f0 ← go_index fields 0; f1 ← go_index fields 1; f2 ← go_index fields 2;
    f3 ← go_index fields 3; f4 ← go_index fields 4; f5 ← go_index fields 5;
    '(txV, chainIDBig) ←
      (if (7 <=? length fields)%nat then
         f6 ← go_index fields 6;
         let chainIDBig := be_val f6 in
         let a := chainIDBig * double in
         let b := be_val v - ether155V in
         let c := a + etherPre155V in
         Ok (b + c, chainIDBig)
       else Ok (be_val v, 0));
    Ok {| Nonce := u64 (be_val f0);
          GasPrice := u256 (be_val f1);
          Gas := u64 (be_val f2);
          To := if (length f3 =? 0)%nat then None else Some (BytesToAddress f3);
          Value := Some (u256 (be_val f4));
          Data := f5;
          V := u256 (be_val (big_bytes txV));
          R := u256 (be_val r);
          S_ := u256 (be_val s);
          ChainID := u256 chainIDBig |}.

Record DecodedBatchL2Data := mkDecoded {
  Transactions : list LegacyTx;
  EffectiveGasPricePercentages : list Z;
  DeltaTimestamp : Z;
  L1InfoTreeIndex : Z;
}.

#[export] Instance DecodedBatchL2Data_eq_dec : EqDecision DecodedBatchL2Data.
Proof. solve_decision. Defined.

Definition empty_data : DecodedBatchL2Data := mkDecoded [] [] 0 0.

(** [strconv.ParseUint] of the hexadecimal text of [bs], into 64 bits. *)
Definition parse_hex_bytes (bs : list byte) : outcome Z :=
  if (length bs =? 0)%nat then Err "invalid syntax"
  else if be_val bs <? 2 ^ 64 then Ok (be_val bs) else Err "value out of range".

(** The variables of the loop of DecodeBatchL2Blocks. *)
Record decoding := mkDecoding {
  d_pos : Z;
  d_result : list DecodedBatchL2Data;
  d_current : DecodedBatchL2Data;
  d_delta : Z;
  d_index : Z;
}.

(** One iteration goes on, or returns the blocks decoded so far with an error
    (or, in one place, without one), or panics. *)
Inductive iteration :=
| Continue (st : decoding)
| Return (result : list DecodedBatchL2Data) (err : option string)
| Crash.

(** The current data with the pending delta and index, closing a block. *)
Definition seal (st : decoding) : DecodedBatchL2Data :=
  mkDecoded (Transactions (d_current st)) (EffectiveGasPricePercentages (d_current st)) (d_delta st) (d_index st).

Definition or_crash {A} (m : outcome A) (result : list DecodedBatchL2Data) (k : A → option iteration)
    : option iteration :=
  match m with
  | Ok a => k a
  | Err e => Some (Return result (Some e))
  | Panic => Some Crash
  end.

Definition change_block (txsData : list byte) (st : decoding) : option iteration :=
  let pos := d_pos st in
  let hasStarted := 0 <? pos in
  or_crash (if hasStarted then Ok true
            else b ← go_index txsData (pos + 1); Ok (bz b =? changeL2BlockTxType)) (d_result st) (λ capture,
  let result := if capture : bool then d_result st ++ [seal st] else d_result st in
  let current := if capture : bool then empty_data else d_current st in
  or_crash (go_slice txsData (pos + 1) (pos + 5)) result (λ delta,
  or_crash (go_slice txsData (pos + 5) (pos + 9)) result (λ index,
  Some (Continue (mkDecoding (pos + changeL2BlockLength) result current (be_val delta) (be_val index)))))).

(** The length of the RLP data without its first byte; [inr] is a return. *)
Definition tx_length (txsData : list byte) (pos num : Z) : outcome (Z + option string) :=
  if num <? c0 then Ok (inr (Some ErrInvalidData))
  else if num - c0 <=? shortRlp then Ok (inl (num - c0))
  else if Z.of_nat (length txsData) <? pos + 1 + num - f7 then Ok (inr None)
  else
    bs ← go_slice txsData (pos + 1) (pos + 1 + num - f7);
    n ← parse_hex_bytes bs;
    Ok (if u64 (n + num) <? f7 then inr (Some ErrInvalidData) else inl (u64 (n + num - f7))).

Definition decode_tx (txsData : list byte) (forkID : Z) (st : decoding) (length_ : Z) : option iteration :=
  let result := d_result st in
  let pos := d_pos st in
  let hasPercentage := ForkID5Dragonfruit <=? forkID in
  let endPos := u64 (pos + length_ + rLength + sLength + vLength + headerByteLength +
                     (if hasPercentage then efficiencyPercentageByteLength else 0)) in
  if Z.of_nat (length txsData) <? endPos then Some (Return result (Some ErrInvalidData))
  else if endPos <? pos then Some (Return result (Some ErrInvalidData))
  else
    let dataStart := pos + length_ + headerByteLength in
    or_crash (go_slice txsData pos dataStart) result (λ txInfo,
    or_crash (go_slice txsData dataStart (dataStart + rLength)) result (λ rData,
    or_crash (go_slice txsData (dataStart + rLength) (dataStart + rLength + sLength)) result (λ sData,
    or_crash (go_slice txsData (dataStart + rLength + sLength) (dataStart + rLength + sLength + vLength)) result (λ vData,
    or_crash
      (if hasPercentage then
         p ← go_slice txsData (dataStart + rLength + sLength + vLength) endPos;
         b ← go_index p 0;
         Ok (EffectiveGasPricePercentages (d_current st) ++ [bz b])
       else Ok (EffectiveGasPricePercentages (d_current st))) result (λ percentages,
    match DecodeBytes txInfo with
    | None => None
    | Some (inl _) => Some (Return result (Some ErrInvalidData))
    | Some (inr rlpFields) =>
        or_crash (rlpFieldsToLegacyTx rlpFields vData rData sData) result (λ legacyTx,
        Some (Continue (mkDecoding endPos result
          (mkDecoded (Transactions (d_current st) ++ [legacyTx]) percentages
             (DeltaTimestamp (d_current st)) (L1InfoTreeIndex (d_current st)))
          (d_delta st) (d_index st))))
    end))))).

Definition decode_iteration (txsData : list byte) (forkID : Z) (st : decoding) : option iteration :=
  or_crash (bs ← go_slice txsData (d_pos st) (d_pos st + 1); parse_hex_bytes bs) (d_result st) (λ num,
  if num =? changeL2BlockTxType then change_block txsData st
  else or_crash (tx_length txsData (d_pos st) num) (d_result st) (λ len,
       match len with
       | inr err => Some (Return (d_result st) err)
       | inl length => decode_tx txsData forkID st length
       end)).

Fixpoint decode_loop (fuel : nat) (txsData : list byte) (forkID : Z) (st : decoding)
    : option (outcome (list DecodedBatchL2Data * option string)) :=
  if d_pos st <? Z.of_nat (length txsData) then
    match fuel with
    | O => None
    | S fuel =>
        match decode_iteration txsData forkID st with
        | None => None
        | Some (Continue st) => decode_loop fuel txsData forkID st
        | Some (Return result err) => Some (Ok (result, err))
        | Some Crash => Some Panic
        end
    end
  else Some (Ok (d_result st ++ [seal st], None)).

(** The result is [None] only when the loop takes more iterations than the data
    has bytes. *)
Definition DecodeBatchL2Blocks (txsData : list byte) (forkID : Z)
    : option (outcome (list DecodedBatchL2Data * option string)) :=
  if (length txsData =? 0)%nat then Some (Ok ([], None))
  else decode_loop (length txsData) txsData forkID (mkDecoding 0 [] empty_data 0 0).
