(* ===== verification/L2DataSpec.v ===== *)
(** Correctness of the batch L2 data codec of L2Data.v: the decoder inverts the
    encoder on batches of well-formed legacy transactions, it terminates on
    every input, it panics only on a truncated block marker, and what it does
    with truncated batches. *)

From S2P Require Import Prelude Bytes Rlp RlpSpec L2Data.
From Stdlib Require Import Strings.Byte.

Local Open Scope Z_scope.

#[local] Opaque DecodeBytes EncodeToBytes.

(** * Well-formed transactions *)

Definition is_u256 (x : Z) : Prop := 0 ≤ x < 2 ^ 256.

Record tx_wf (tx : LegacyTx) : Prop := {
  wf_nonce : is_u64 (Nonce tx);
  wf_price : is_u256 (GasPrice tx);
  wf_gas : is_u64 (Gas tx);
  wf_to : match To tx with Some a => length a = 20%nat | None => True end;
  wf_value : match Value tx with Some v => is_u256 v | None => False end;
  wf_v : V tx = 27 ∨ V tx = 28 ∨ 35 ≤ V tx < 2 ^ 256;
  wf_r : is_u256 (R tx);
  wf_s : is_u256 (S_ tx);
  wf_chain : ChainID tx = DeriveChainId (V tx);
}.

Lemma be_val_removeLeadingZeroes bs : be_val (removeLeadingZeroesFromBytes bs) = be_val bs.
Proof.
  induction bs as [|b bs IH]; [done|]. cbn [removeLeadingZeroesFromBytes].
  case_bool_decide as Hb; [|done]. rewrite IH, be_val_cons, Hb. change (bz x00) with 0. lia.
Qed.

Lemma u256_small x : is_u256 x → u256 x = x.
Proof. intros H. apply Z.mod_small, H. Qed.

Lemma be_val_be_bytes_8 x : is_u64 x → be_val (be_bytes 8 x) = x.
Proof. intros H. rewrite be_val_bytes. apply Z.mod_small, H. Qed.

Lemma be_val_be_bytes_32 x : is_u256 x → be_val (be_bytes 32 x) = x.
Proof. intros H. rewrite be_val_bytes. apply Z.mod_small, H. Qed.

(** ** The signature value V *)

Lemma DeriveChainId_protected v :
  35 ≤ v < 2 ^ 256 → DeriveChainId v = (v - 35) / 2.
Proof.
  intros Hv. unfold DeriveChainId. case_bool.
  - rewrite !(proj2 (Z.eqb_neq _ _)) by lia. cbn [orb]. by rewrite u64_small by (unfold is_u64; lia).
  - by rewrite u256_small by (unfold is_u256; lia).
Qed.

Lemma isProtectedV_ge v : 35 ≤ v → isProtectedV v = true.
Proof.
  intros Hv. unfold isProtectedV. destruct (_ <=? _)%nat; [|done].
  by rewrite !(proj2 (Z.eqb_neq _ _)) by lia.
Qed.

Lemma GetDecodedV_range tx :
  tx_wf tx → GetDecodedV tx (V tx) = if V tx <? 35 then V tx else 27 + (V tx - 35) mod 2.
Proof.
  intros H. unfold GetDecodedV, Protected, GetChainID. destruct (wf_v _ H) as [E|[E|Hv]]; [by rewrite E..|].
  rewrite isProtectedV_ge, DeriveChainId_protected by lia. cbn [negb].
  case_bool; [lia|]. unfold ether155V, double, etherPre155V.
  pose proof (Z.div_mod (V tx - 35) 2 ltac:(lia)). pose proof (Z.mod_pos_bound (V tx - 35) 2 ltac:(lia)).
  rewrite u256_small by (unfold is_u256; lia). lia.
Qed.

Lemma GetDecodedV_byte tx : tx_wf tx → 27 ≤ GetDecodedV tx (V tx) ≤ 28.
Proof.
  intros H. rewrite (GetDecodedV_range _ H). destruct (wf_v _ H) as [->|[->|Hv]]; [simpl; lia..|].
  case_bool; [lia|]. pose proof (Z.mod_pos_bound (V tx - 35) 2 ltac:(lia)). lia.
Qed.

Lemma big_bytes_byte v : 1 ≤ v < 256 → big_bytes v = [zb v].
Proof.
  intros Hv. unfold big_bytes. rewrite Z.abs_eq by lia.
  assert (ndigits 8 v = 1%nat) as ->.
  { pose proof (ndigits_ub 8 1 v ltac:(lia) ltac:(change ((2 ^ 8) ^ Z.of_nat 1) with 256; lia)).
    pose proof (ndigits_bound 8 v ltac:(lia) ltac:(lia)) as Hb. destruct (ndigits 8 v) as [|[|n]]; [simpl in Hb; lia|done|lia]. }
  rewrite be_bytes_S. simpl. by rewrite Z.shiftr_0_r.
Qed.

(** ** The fields of a transaction *)

Definition has_chain (tx : LegacyTx) : bool :=
  negb (GetChainID tx =? 0) || negb ((V tx =? 27) || (V tx =? 28)).

Lemma has_chain_spec tx : tx_wf tx → has_chain tx = (35 <=? V tx).
Proof.
  intros H. unfold has_chain, GetChainID. destruct (wf_v _ H) as [E|[E|Hv]]; [by rewrite E..|].
  rewrite (proj2 (Z.eqb_neq (V tx) 27)), (proj2 (Z.eqb_neq (V tx) 28)), (proj2 (Z.leb_le 35 _)) by lia.
  cbn [orb negb]. apply Bool.orb_true_r.
Qed.

(** The transaction decoded from six fields, for given V and chain id. *)
Definition fields_tx (f0 f1 f2 f3 f4 f5 r s : list byte) (txV chainID : Z) : LegacyTx :=
  {| Nonce := u64 (be_val f0);
     GasPrice := u256 (be_val f1);
     Gas := u64 (be_val f2);
     To := if (length f3 =? 0)%nat then None else Some (BytesToAddress f3);
     Value := Some (u256 (be_val f4));
     Data := f5;
     V := u256 (be_val (big_bytes txV));
     R := u256 (be_val r);
     S_ := u256 (be_val s);
     ChainID := u256 chainID |}.

Lemma rlpFields_short f0 f1 f2 f3 f4 f5 v r s :
  rlpFieldsToLegacyTx [f0; f1; f2; f3; f4; f5] v r s = Ok (fields_tx f0 f1 f2 f3 f4 f5 r s (be_val v) 0).
Proof. reflexivity. Qed.

Lemma rlpFields_long f0 f1 f2 f3 f4 f5 f6 l v r s :
  rlpFieldsToLegacyTx (f0 :: f1 :: f2 :: f3 :: f4 :: f5 :: f6 :: l) v r s =
  Ok (fields_tx f0 f1 f2 f3 f4 f5 r s (be_val v - 27 + (be_val f6 * 2 + 35)) (be_val f6)).
Proof. reflexivity. Qed.

(** Decoding the fields gives the transaction back. *)
Lemma fields_roundtrip tx :
  tx_wf tx →
  rlpFieldsToLegacyTx (tx_fields tx) [zb (GetDecodedV tx (V tx))] (be_bytes 32 (R tx)) (be_bytes 32 (S_ tx)) = Ok tx.
Proof.
  intros H. pose proof (GetDecodedV_byte _ H) as Hd. pose proof (GetDecodedV_range _ H) as Hr.
  assert (be_val [zb (GetDecodedV tx (V tx))] = GetDecodedV tx (V tx)) as Hbv.
  { rewrite be_val_cons, bz_zb_small by lia. change (be_val []) with 0. simpl. lia. }
  unfold tx_fields. fold (has_chain tx). rewrite (has_chain_spec _ H).
  pose proof (wf_value _ H) as Hval. pose proof (wf_to _ H) as Hto. pose proof (wf_chain _ H) as Hc.
  assert (∀ x, is_u256 x → u256 (be_val (removeLeadingZeroesFromBytes (big_bytes x))) = x) as Hbig.
  { intros x Hx. rewrite be_val_removeLeadingZeroes, be_val_big_bytes, u256_small; [done|done|apply Hx]. }
  assert (∀ x, is_u64 x → u64 (be_val (removeLeadingZeroesFromBytes (be_bytes 8 x))) = x) as H8.
  { intros x Hx. by rewrite be_val_removeLeadingZeroes, be_val_be_bytes_8, u64_small. }
  destruct H as [Hn Hp Hg _ _ Hv Hrr Hss _]. revert Hd Hr Hbv. generalize (GetDecodedV tx (V tx)). intros w Hd Hr Hbv.
  destruct tx as [n p g to val data v r s ch].
  unfold GetChainID. cbn [Nonce GasPrice Gas To Value Data V R S_ ChainID] in *.
  destruct val as [val|]; [|done]. cbn [default from_option id].
  assert ((if (length (default [] to) =? 0)%nat then None else Some (BytesToAddress (default [] to))) = to) as Eto.
  { destruct to as [a|]; [|done]. cbn [default from_option id].
    unfold BytesToAddress. by rewrite set_bytes_id, Hto.  }
  destruct (Z.leb_spec 35 v) as [Hge|Hlt].
  - assert (is_u256 (DeriveChainId v)) as Hcu.
    { rewrite DeriveChainId_protected by lia. unfold is_u256. zlia. }
    cbn [app]. rewrite rlpFields_long, Hbv, Hr. unfold fields_tx.
    rewrite (be_val_removeLeadingZeroes (big_bytes (DeriveChainId v))), (be_val_big_bytes (DeriveChainId v)) by apply Hcu.
    rewrite Eto, !Hbig, !H8, !be_val_be_bytes_32, !(u256_small r), !(u256_small s), (u256_small (DeriveChainId v)) by done.
    do 2 f_equal; [|done]. rewrite (proj2 (Z.ltb_ge v 35)) by lia. rewrite DeriveChainId_protected by lia.
    pose proof (Z.div_mod (v - 35) 2 ltac:(lia)). pose proof (Z.mod_pos_bound (v - 35) 2 ltac:(lia)).
    rewrite be_val_big_bytes, u256_small by (unfold is_u256; lia). lia.
  - rewrite rlpFields_short, Hbv, Hr. unfold fields_tx.
    rewrite Eto, !Hbig, !H8, !be_val_be_bytes_32, !(u256_small r), !(u256_small s) by done.
    rewrite (proj2 (Z.ltb_lt v 35)), be_val_big_bytes by lia. rewrite (u256_small v) by (unfold is_u256; lia).
    do 2 f_equal. rewrite Hc. unfold DeriveChainId. destruct Hv as [->|[->|Hv]]; [done..|lia].
Qed.

(** * Encoding and decoding one transaction *)

Definition tx_rlp (tx : LegacyTx) : list byte := enc_payload (enc_elems (tx_fields tx)).

(** The bytes of a transaction with its effective gas price percentage. *)
Definition tx_bytes (tx : LegacyTx) (p : Z) : list byte :=
  tx_rlp tx ++ be_bytes 32 (R tx) ++ be_bytes 32 (S_ tx) ++ [zb (GetDecodedV tx (V tx))] ++ [zb p].

Lemma TransactionToL2Data_bytes tx forkId p :
  tx_wf tx → blen (tx_rlp tx) < 2 ^ 64 → ForkID5Dragonfruit ≤ forkId →
  TransactionToL2Data tx forkId p = Ok (tx_bytes tx p).
Proof.
  intros H Hb Hf. unfold TransactionToL2Data. unfold tx_rlp in Hb. rewrite <-enc_list_strings in Hb.
  rewrite EncodeToBytes_enc, bind_Ok by done. rewrite (proj2 (Z.leb_le _ _)) by done.
  pose proof (GetDecodedV_byte _ H). rewrite big_bytes_byte by lia.
  unfold tx_bytes, tx_rlp. by rewrite enc_list_strings, <-!app_assoc.
Qed.

Lemma go_slice_at {A} (l a b c : list A) lo hi :
  l = a ++ b ++ c → lo = Z.of_nat (length a) → hi = lo + Z.of_nat (length b) → go_slice l lo hi = Ok b.
Proof. intros -> -> ->. apply go_slice_app; lia. Qed.

Lemma parse_hex_byte b : parse_hex_bytes [b] = Ok (bz b).
Proof.
  unfold parse_hex_bytes. rewrite be_val_cons. change (be_val []) with 0. cbn [length Nat.eqb].
  change (256 ^ Z.of_nat 0) with 1. pose proof (bz_range b). case_bool; [f_equal; lia|lia].
Qed.

Lemma tx_length_payload pre p post b rest :
  enc_payload p = b :: rest → blen (pre ++ enc_payload p ++ post) < 2 ^ 63 →
  c0 ≤ bz b ∧ tx_length (pre ++ enc_payload p ++ post) (blen pre) (bz b) = Ok (inl (blen (enc_payload p) - 1)).
Proof.
  intros E Hb. unfold enc_payload in *. fold (blen p) in *. rewrite !blen_app in Hb.
  pose proof (blen_nonneg p). pose proof (blen_nonneg pre). pose proof (blen_nonneg post).
  unfold tx_length, c0, shortRlp, f7. fold (blen (pre ++ (puthead 0xC0 0xF7 (blen p) ++ p) ++ post)).
  rewrite !blen_app. destruct (Z.lt_ge_cases (blen p) 56) as [Hs|Hs].
  - rewrite puthead_short in * by done. injection E as <- <-. rewrite bz_zb_small by lia.
    rewrite (proj2 (Z.ltb_ge _ 192)), (proj2 (Z.leb_le _ 55)) by lia.
    split; [lia|]. do 2 f_equal. change (blen [zb (192 + blen p)]) with 1. lia.
  - rewrite puthead_long in * by done. pose proof (length_putint_bounds (blen p)). injection E as <- <-.
    rewrite bz_zb_small by lia. rewrite (proj2 (Z.ltb_ge _ 192)), (proj2 (Z.leb_gt _ 55)) by lia. split; [lia|].
    set (k := length (putint (blen p))) in *.
    assert (blen (zb (247 + Z.of_nat k) :: putint (blen p)) = 1 + Z.of_nat k) as Hl
      by (unfold k, blen; cbn [length]; lia).
    rewrite Hl in *. rewrite (proj2 (Z.ltb_ge _ (_ + _ - 247))) by lia.
    rewrite (go_slice_at _ (pre ++ [zb (247 + Z.of_nat k)]) (putint (blen p)) (p ++ post)).
    + rewrite bind_Ok. unfold parse_hex_bytes. rewrite (proj2 (Nat.eqb_neq _ _)) by (fold k; lia).
      rewrite be_val_putint by (unfold is_u64; lia). rewrite (proj2 (Z.ltb_lt _ _)), bind_Ok by lia.
      rewrite !u64_small by (unfold is_u64; lia). case_bool; [lia|]. do 2 f_equal. lia.
    + by rewrite <-!app_assoc.
    + rewrite length_app. unfold blen. cbn [length]. lia.
    + fold k. lia.
Qed.

Lemma enc_payload_cons p : ∃ b rest, enc_payload p = b :: rest.
Proof.
  unfold enc_payload. pose proof (length_puthead 192 247 (Z.of_nat (length p))).
  destruct (puthead 192 247 (Z.of_nat (length p))); [simpl in *; lia|]. simpl. eauto.
Qed.

Lemma blen_be_bytes n z : blen (be_bytes n z) = Z.of_nat n.
Proof. unfold blen. by rewrite length_be_bytes. Qed.

Lemma blen_tx_bytes tx p : blen (tx_bytes tx p) = blen (tx_rlp tx) + 66.
Proof.
  unfold tx_bytes. rewrite !blen_app, !blen_be_bytes.
  change (blen [zb (GetDecodedV tx (V tx))]) with 1. change (blen [zb p]) with 1. lia.
Qed.

(** The state after the transaction [tx]. *)
Definition add_tx (st : decoding) (tx : LegacyTx) (p : Z) : decoding :=
  mkDecoding (d_pos st + blen (tx_bytes tx p)) (d_result st)
    (mkDecoded (Transactions (d_current st) ++ [tx]) (EffectiveGasPricePercentages (d_current st) ++ [p])
       (DeltaTimestamp (d_current st)) (L1InfoTreeIndex (d_current st))) (d_delta st) (d_index st).

Lemma decode_tx_bytes pre tx p post forkID st :
  tx_wf tx → is_u8 p → ForkID5Dragonfruit ≤ forkID → blen (pre ++ tx_bytes tx p ++ post) < 2 ^ 63 →
  d_pos st = blen pre →
  decode_tx (pre ++ tx_bytes tx p ++ post) forkID st (blen (tx_rlp tx) - 1) = Some (Continue (add_tx st tx p)).
Proof.
  intros H Hp Hf Hb Hpos. pose proof (blen_tx_bytes tx p) as Hl.
  assert (blen (pre ++ tx_bytes tx p ++ post) = blen pre + blen (tx_bytes tx p) + blen post) as Hd by (rewrite !blen_app; lia).
  pose proof (blen_nonneg pre). pose proof (blen_nonneg post). pose proof (blen_nonneg (tx_rlp tx)).
  unfold decode_tx. fold (blen (pre ++ tx_bytes tx p ++ post)). rewrite Hpos, Hd, (proj2 (Z.leb_le ForkID5Dragonfruit forkID)) by done.
  unfold rLength, sLength, vLength, headerByteLength, efficiencyPercentageByteLength.
  assert (∀ z, z = blen pre + blen (tx_bytes tx p) → u64 z = blen pre + blen (tx_bytes tx p)) as Hend.
  { intros z ->. apply u64_small. unfold is_u64. lia. }
  rewrite Hend by lia. rewrite !(proj2 (Z.ltb_ge _ _)) by lia.
  clear Hend. revert Hd. remember (pre ++ tx_bytes tx p ++ post) as data eqn:Ed. intros Hd.
  assert (∀ x, pre ++ tx_bytes tx p ++ post = x → data = x) as Ed' by (intros x <-; done).
  unfold tx_bytes at 1 in Ed'.
  rewrite (go_slice_at _ pre (tx_rlp tx) ((be_bytes 32 (R tx) ++ be_bytes 32 (S_ tx) ++
    [zb (GetDecodedV tx (V tx))] ++ [zb p]) ++ post)); [|apply Ed'; by rewrite <-!app_assoc|done|fold (blen (tx_rlp tx)); lia].
  cbn [or_crash].
  rewrite (go_slice_at _ (pre ++ tx_rlp tx) (be_bytes 32 (R tx)) ((be_bytes 32 (S_ tx) ++
    [zb (GetDecodedV tx (V tx))] ++ [zb p]) ++ post));
    [|apply Ed'; by rewrite <-!app_assoc|rewrite length_app; unfold blen; lia|rewrite length_be_bytes; lia].
  cbn [or_crash].
  rewrite (go_slice_at _ (pre ++ tx_rlp tx ++ be_bytes 32 (R tx)) (be_bytes 32 (S_ tx)) ((
    [zb (GetDecodedV tx (V tx))] ++ [zb p]) ++ post));
    [|apply Ed'; by rewrite <-!app_assoc|rewrite !length_app, length_be_bytes; unfold blen; lia|rewrite length_be_bytes; lia].
  cbn [or_crash].
  rewrite (go_slice_at _ (pre ++ tx_rlp tx ++ be_bytes 32 (R tx) ++ be_bytes 32 (S_ tx))
    [zb (GetDecodedV tx (V tx))] ([zb p] ++ post));
    [|apply Ed'; by rewrite <-!app_assoc|rewrite !length_app, !length_be_bytes; unfold blen; lia|simpl; lia].
  cbn [or_crash].
  rewrite (go_slice_at _ (pre ++ tx_rlp tx ++ be_bytes 32 (R tx) ++ be_bytes 32 (S_ tx) ++
    [zb (GetDecodedV tx (V tx))]) [zb p] post);
    [|apply Ed'; by rewrite <-!app_assoc|rewrite !length_app, !length_be_bytes; unfold blen; simpl; lia|rewrite Hl; simpl; lia].
  rewrite bind_Ok. change (go_index [zb p] 0) with (Ok (zb p)). rewrite bind_Ok, bz_zb_small by apply Hp.
  cbn [or_crash]. rewrite (proj2 (DecodeBytes_enc (tx_rlp tx) (tx_fields tx) ltac:(unfold blen in *; lia)))
    by (by rewrite enc_list_strings).
  rewrite fields_roundtrip by done. cbn [or_crash]. unfold add_tx. by rewrite Hpos.
Qed.

Lemma decode_iteration_tx pre tx p post forkID st :
  tx_wf tx → is_u8 p → ForkID5Dragonfruit ≤ forkID → blen (pre ++ tx_bytes tx p ++ post) < 2 ^ 63 →
  d_pos st = blen pre →
  decode_iteration (pre ++ tx_bytes tx p ++ post) forkID st = Some (Continue (add_tx st tx p)).
Proof.
  intros H Hp Hf Hb Hpos. unfold decode_iteration. destruct (enc_payload_cons (enc_elems (tx_fields tx))) as (b & rest & Eb).
  set (tail := (be_bytes 32 (R tx) ++ be_bytes 32 (S_ tx) ++ [zb (GetDecodedV tx (V tx))] ++ [zb p]) ++ post).
  assert (pre ++ tx_bytes tx p ++ post = pre ++ enc_payload (enc_elems (tx_fields tx)) ++ tail) as Ed
    by (unfold tx_bytes, tx_rlp, tail; by rewrite <-!app_assoc).
  destruct (tx_length_payload pre (enc_elems (tx_fields tx)) tail b rest Eb) as [Hc Hlen]; [by rewrite <-Ed|].
  rewrite (go_slice_at _ pre [b] (rest ++ tail));
    [|by rewrite Ed, Eb|by rewrite Hpos|simpl; lia].
  rewrite bind_Ok, parse_hex_byte. cbn [or_crash]. unfold c0 in Hc.
  rewrite (proj2 (Z.eqb_neq (bz b) changeL2BlockTxType)) by (unfold changeL2BlockTxType; lia).
  rewrite Ed at 1. rewrite Hpos, Hlen. cbn [or_crash]. by apply decode_tx_bytes.
Qed.

(** * Blocks and batches *)

Record block := mkBlock { b_delta : Z; b_index : Z; b_txs : list (LegacyTx * Z) }.

Definition marker (b : block) : list byte := GenerateStartBlockBatchL2Data (b_delta b) (b_index b).
Definition txs_bytes (txs : list (LegacyTx * Z)) : list byte := concat (map (λ x, tx_bytes x.1 x.2) txs).
Definition block_bytes (b : block) : list byte := marker b ++ txs_bytes (b_txs b).
Definition batch_bytes (bs : list block) : list byte := concat (map block_bytes bs).

Definition txs_wf (txs : list (LegacyTx * Z)) : Prop := Forall (λ x, tx_wf x.1 ∧ is_u8 x.2) txs.
Definition block_wf (b : block) : Prop := is_u32 (b_delta b) ∧ is_u32 (b_index b) ∧ txs_wf (b_txs b).

(** What the decoder returns for a block. *)
Definition decoded (b : block) : DecodedBatchL2Data :=
  mkDecoded (b_txs b).*1 (b_txs b).*2 (b_delta b) (b_index b).

Lemma GenerateBlock_bytes forkId b :
  block_wf b → ForkID7Etrog ≤ forkId → blen (block_bytes b) < 2 ^ 63 →
  GenerateBlockBatchL2Data forkId (b_delta b) (b_index b) (b_txs b) = Ok (block_bytes b).
Proof.
  intros (_ & _ & Hw) Hf Hb. unfold GenerateBlockBatchL2Data. rewrite (proj2 (Z.leb_le _ _)) by done.
  unfold block_bytes in *. fold (marker b). revert Hb. generalize (marker b) as acc.
  induction Hw as [|[tx p] txs [Htx Hp] _ IH]; intros acc Hb.
  - cbn [foldM txs_bytes map concat]. by rewrite app_nil_r.
  - cbn [fst snd] in *. change (txs_bytes ((tx, p) :: txs)) with (tx_bytes tx p ++ txs_bytes txs) in *.
    rewrite !blen_app in Hb. pose proof (blen_tx_bytes tx p). pose proof (blen_nonneg acc).
    pose proof (blen_nonneg (txs_bytes txs)). pose proof (blen_nonneg (tx_rlp tx)).
    cbn [foldM]. rewrite TransactionToL2Data_bytes by (done || unfold ForkID7Etrog, ForkID5Dragonfruit in *; lia).
    rewrite !bind_Ok, IH; [by rewrite app_assoc|]. rewrite !blen_app. lia.
Qed.

Lemma blen_marker b : blen (marker b) = 9.
Proof. unfold marker, GenerateStartBlockBatchL2Data. rewrite !blen_app, !blen_be_bytes. done. Qed.

Lemma be_val_be_bytes_4 x : is_u32 x → be_val (be_bytes 4 x) = x.
Proof. intros H. rewrite be_val_bytes. apply Z.mod_small, H. Qed.

(** A time delta whose first byte is the marker byte. *)
Definition looks_like_marker (b : block) : bool := b_delta b / 2 ^ 24 =? changeL2BlockTxType.

(** The state after a block marker, which closes the block read so far if
    [capture] is set. *)
Definition start_block (capture : bool) (st : decoding) (b : block) : decoding :=
  mkDecoding (d_pos st + 9) (if capture then d_result st ++ [seal st] else d_result st)
    (if capture then empty_data else d_current st) (b_delta b) (b_index b).

Lemma decode_iteration_marker pre b post forkID st :
  is_u32 (b_delta b) → is_u32 (b_index b) → d_pos st = blen pre →
  decode_iteration (pre ++ marker b ++ post) forkID st =
    Some (Continue (start_block ((0 <? blen pre) || looks_like_marker b) st b)).
Proof.
  intros Hd Hi Hpos. unfold decode_iteration, marker, GenerateStartBlockBatchL2Data.
  set (db := be_bytes 4 (b_delta b)). set (ib := be_bytes 4 (b_index b)).
  rewrite (go_slice_at _ pre [zb changeL2BlockTxType] ((db ++ ib) ++ post));
    [|by rewrite <-!app_assoc|by rewrite Hpos|simpl; lia].
  rewrite bind_Ok, parse_hex_byte, bz_zb_small by (unfold changeL2BlockTxType; lia). cbn [or_crash].
  rewrite Z.eqb_refl. unfold change_block. rewrite Hpos.
  assert ((if 0 <? blen pre then Ok true
    else b0 ← go_index (pre ++ ([zb changeL2BlockTxType] ++ db ++ ib) ++ post) (blen pre + 1); Ok (bz b0 =? changeL2BlockTxType))
    = Ok ((0 <? blen pre) || looks_like_marker b)) as ->.
  { pose proof (blen_nonneg pre). case_bool; [done|]. assert (pre = []) as ->.
    { destruct pre; [done|]. unfold blen in *. simpl in *. lia. }
    unfold db. rewrite be_bytes_S. cbn [app]. change (blen [] + 1) with (Z.of_nat 1).
    rewrite (go_index_lookup _ 1 (zb (Z.shiftr (b_delta b) (8 * Z.of_nat 3)))) by done. rewrite bind_Ok. f_equal.
    change (8 * Z.of_nat 3) with 24. unfold is_u32 in Hd.
    by rewrite Z.shiftr_div_pow2, bz_zb_small by zlia. }
  cbn [or_crash].
  rewrite (go_slice_at _ (pre ++ [zb changeL2BlockTxType]) db (ib ++ post));
    [|by rewrite <-!app_assoc|rewrite length_app; unfold blen; simpl; lia|unfold db; rewrite length_be_bytes; lia].
  cbn [or_crash].
  rewrite (go_slice_at _ (pre ++ [zb changeL2BlockTxType] ++ db) ib post);
    [|by rewrite <-!app_assoc|rewrite !length_app; unfold db, blen; rewrite length_be_bytes; simpl; lia|
     unfold ib; rewrite length_be_bytes; lia].
  cbn [or_crash]. unfold db, ib. rewrite !be_val_be_bytes_4 by done. unfold start_block. by rewrite Hpos.
Qed.

(** ** The loop *)

Lemma decode_loop_step fuel data forkID st st' :
  d_pos st < blen data → decode_iteration data forkID st = Some (Continue st') →
  decode_loop (S fuel) data forkID st = decode_loop fuel data forkID st'.
Proof.
  intros Hp E. cbn [decode_loop]. fold (blen data). by rewrite (proj2 (Z.ltb_lt _ _)), E.
Qed.

Definition add_txs (st : decoding) (txs : list (LegacyTx * Z)) : decoding :=
  foldl (λ st x, add_tx st x.1 x.2) st txs.

Lemma decode_loop_txs txs pre post forkID st fuel :
  txs_wf txs → ForkID5Dragonfruit ≤ forkID → blen (pre ++ txs_bytes txs ++ post) < 2 ^ 63 → d_pos st = blen pre →
  decode_loop (length txs + fuel) (pre ++ txs_bytes txs ++ post) forkID st =
  decode_loop fuel (pre ++ txs_bytes txs ++ post) forkID (add_txs st txs).
Proof.
  intros Hw Hf. revert pre st. induction Hw as [|[tx p] txs [Htx Hp] _ IH]; intros pre st Hb Hpos; [done|].
  cbn [fst snd] in *. change (txs_bytes ((tx, p) :: txs)) with (tx_bytes tx p ++ txs_bytes txs) in *.
  rewrite <-app_assoc in *. cbn [length Nat.add].
  rewrite (decode_loop_step _ _ _ st (add_tx st tx p)); [|
    rewrite Hpos, !blen_app, blen_tx_bytes; pose proof (blen_nonneg (tx_rlp tx));
      pose proof (blen_nonneg (txs_bytes txs)); pose proof (blen_nonneg post); lia|by apply decode_iteration_tx].
  rewrite (app_assoc pre) in *. apply IH; [done|]. cbn [add_tx d_pos]. by rewrite Hpos, blen_app.
Qed.

Lemma add_txs_spec txs st :
  d_pos (add_txs st txs) = d_pos st + blen (txs_bytes txs) ∧ d_result (add_txs st txs) = d_result st ∧
  d_delta (add_txs st txs) = d_delta st ∧ d_index (add_txs st txs) = d_index st ∧
  Transactions (d_current (add_txs st txs)) = Transactions (d_current st) ++ txs.*1 ∧
  EffectiveGasPricePercentages (d_current (add_txs st txs)) =
    EffectiveGasPricePercentages (d_current st) ++ txs.*2.
Proof.
  revert st. induction txs as [|[tx p] txs IH]; intros st.
  - change (blen (txs_bytes [])) with 0. cbn [add_txs foldl fmap list_fmap]. rewrite !app_nil_r. split_and!; try done. lia.
  - change (add_txs st ((tx, p) :: txs)) with (add_txs (add_tx st tx p) txs).
    change (txs_bytes ((tx, p) :: txs)) with (tx_bytes tx p ++ txs_bytes txs). rewrite blen_app.
    destruct (IH (add_tx st tx p)) as (H1 & H2 & H3 & H4 & H5 & H6). cbn [add_tx d_pos d_result d_delta d_index d_current
      Transactions EffectiveGasPricePercentages] in *. rewrite <-app_assoc in H5, H6. split_and!; try done. lia.
Qed.

Lemma length_txs_bytes txs : (length txs ≤ length (txs_bytes txs))%nat.
Proof.
  induction txs as [|[tx p] l IH]; [done|].
  change (txs_bytes ((tx, p) :: l)) with (tx_bytes tx p ++ txs_bytes l). rewrite length_app.
  pose proof (blen_tx_bytes tx p). pose proof (blen_nonneg (tx_rlp tx)). unfold blen in *. simpl. lia.
Qed.

(** A batch from its second block on: the pending block is closed and the new
    ones are read. *)
Lemma decode_loop_blocks bs pre post forkID st fuel :
  Forall block_wf bs → ForkID5Dragonfruit ≤ forkID → blen (pre ++ batch_bytes bs ++ post) < 2 ^ 63 →
  d_pos st = blen pre → 0 < blen pre → (length (batch_bytes bs) ≤ fuel)%nat →
  ∃ fuel' st', (fuel - length (batch_bytes bs) ≤ fuel')%nat ∧
    decode_loop fuel (pre ++ batch_bytes bs ++ post) forkID st =
      decode_loop fuel' (pre ++ batch_bytes bs ++ post) forkID st' ∧
    d_pos st' = blen (pre ++ batch_bytes bs) ∧
    d_result st' ++ [seal st'] = d_result st ++ [seal st] ++ map decoded bs.
Proof.
  intros Hw Hf. revert pre st fuel. induction Hw as [|b bs (Hd & Hi & Ht) _ IH]; intros pre st fuel Hb Hpos Hpre Hfuel.
  - exists fuel, st. cbn. rewrite app_nil_r. auto with lia.
  - change (batch_bytes (b :: bs)) with ((marker b ++ txs_bytes (b_txs b)) ++ batch_bytes bs) in *.
    rewrite <-!app_assoc in *. rewrite !length_app in Hfuel.
    pose proof (length_txs_bytes (b_txs b)) as Hn.
    pose proof (blen_marker b) as Hm. unfold blen in Hm.
    replace fuel with (S (length (b_txs b) + (fuel - 1 - length (b_txs b)))) by lia.
    rewrite (decode_loop_step _ _ _ st (start_block true st b)).
    2: { rewrite Hpos, !blen_app, blen_marker. pose proof (blen_nonneg (txs_bytes (b_txs b))).
         pose proof (blen_nonneg (batch_bytes bs)). pose proof (blen_nonneg post). lia. }
    2: { rewrite decode_iteration_marker by done. by rewrite (proj2 (Z.ltb_lt _ _)). }
    rewrite (app_assoc pre) in *. rewrite decode_loop_txs; [|done|done|done|].
    2: { cbn [start_block d_pos]. by rewrite Hpos, blen_app, blen_marker. }
    rewrite (app_assoc (pre ++ marker b) (txs_bytes (b_txs b)) (batch_bytes bs ++ post)) in *.
    destruct (add_txs_spec (b_txs b) (start_block true st b)) as (A1 & A2 & A3 & A4 & A5 & A6).
    destruct (IH ((pre ++ marker b) ++ txs_bytes (b_txs b)) (add_txs (start_block true st b) (b_txs b))
      (fuel - 1 - length (b_txs b))%nat) as (fuel' & st' & F1 & F2 & F3 & F4); [done| | |lia|].
    + rewrite A1. cbn [start_block d_pos]. rewrite !blen_app, blen_marker. lia.
    + rewrite !blen_app, blen_marker. pose proof (blen_nonneg (txs_bytes (b_txs b))). lia.
    + exists fuel', st'. split_and!; [rewrite !length_app; lia|done|by rewrite F3, <-!app_assoc|].
      rewrite F4, A2. unfold seal at 1. rewrite A3, A4, A5, A6. cbn [start_block d_result d_current d_delta d_index
        empty_data Transactions EffectiveGasPricePercentages app]. by rewrite <-app_assoc.
Qed.

(** The first marker closes nothing, unless the first byte of the time delta is
    the marker byte: then it closes a block without transactions. *)
Definition spurious (b : block) : list DecodedBatchL2Data := if looks_like_marker b then [empty_data] else [].

Lemma decode_batch b bs post forkID :
  Forall block_wf (b :: bs) → ForkID5Dragonfruit ≤ forkID → blen (batch_bytes (b :: bs) ++ post) < 2 ^ 63 →
  ∃ fuel st, (length post ≤ fuel)%nat ∧
    DecodeBatchL2Blocks (batch_bytes (b :: bs) ++ post) forkID =
      decode_loop fuel (batch_bytes (b :: bs) ++ post) forkID st ∧
    d_pos st = blen (batch_bytes (b :: bs)) ∧ d_result st ++ [seal st] = spurious b ++ map decoded (b :: bs).
Proof.
  intros [(Hd & Hi & Ht) Hw]%Forall_cons Hf Hb.
  change (batch_bytes (b :: bs)) with ((marker b ++ txs_bytes (b_txs b)) ++ batch_bytes bs) in *.
  unfold DecodeBatchL2Blocks. pose proof (blen_marker b) as Hm. unfold blen in Hm.
  rewrite (proj2 (Nat.eqb_neq _ _)) by (rewrite !length_app; lia).
  set (n := length (((marker b ++ txs_bytes (b_txs b)) ++ batch_bytes bs) ++ post)).
  assert (n = 9 + length (txs_bytes (b_txs b)) + length (batch_bytes bs) + length post)%nat as En
    by (unfold n; rewrite !length_app; lia).
  pose proof (length_txs_bytes (b_txs b)) as Hn.
  clearbody n. rewrite <-!app_assoc in *. set (st0 := mkDecoding 0 [] empty_data 0 0).
  replace n with (S (length (b_txs b) + (n - 1 - length (b_txs b)))) by lia.
  rewrite (decode_loop_step _ _ _ st0 (start_block (looks_like_marker b) st0 b)).
  2: { rewrite !blen_app, blen_marker. cbn. pose proof (blen_nonneg (txs_bytes (b_txs b))).
       pose proof (blen_nonneg (batch_bytes bs)). pose proof (blen_nonneg post). lia. }
  2: { by apply (decode_iteration_marker [] b _ forkID st0). }
  rewrite decode_loop_txs; [|done|done|done|by rewrite blen_marker].
  destruct (add_txs_spec (b_txs b) (start_block (looks_like_marker b) st0 b)) as (A1 & A2 & A3 & A4 & A5 & A6).
  rewrite (app_assoc (marker b)) in *.
  destruct (decode_loop_blocks bs (marker b ++ txs_bytes (b_txs b)) post forkID (add_txs (start_block (looks_like_marker b) st0 b) (b_txs b))
      (n - 1 - length (b_txs b))) as (fuel' & st' & F1 & F2 & F3 & F4); [done..| | |lia|].
  - by rewrite A1, blen_app, blen_marker.
  - rewrite blen_app, blen_marker. pose proof (blen_nonneg (txs_bytes (b_txs b))). lia.
  - exists fuel', st'. split_and!; [lia|done|by rewrite F3, <-?app_assoc|].
    rewrite F4, A2. unfold seal at 1. rewrite A3, A4, A5, A6. unfold spurious. by destruct (looks_like_marker b).
Qed.

(** * Termination and panics *)

(** The outcome of one iteration: progress within the data, a return, or a
    panic on a marker byte with fewer than eight bytes after it. *)
Definition good_iteration (data : list byte) (st : decoding) (it : iteration) : Prop :=
  match it with
  | Continue st' => d_pos st < d_pos st' ≤ blen data
  | Return _ _ => True
  | Crash => ∃ i, d_pos st = Z.of_nat i ∧ data !! i = Some x0b ∧ blen data < d_pos st + 9
  end.

Lemma go_slice_bounds {A} (l : list A) lo hi :
  0 ≤ lo ≤ hi → hi ≤ Z.of_nat (length l) →
  ∃ s, go_slice l lo hi = Ok s ∧ Z.of_nat (length s) = hi - lo.
Proof.
  intros H1 H2. rewrite go_slice_ok by lia. eexists. split; [done|].
  rewrite length_take, length_drop. lia.
Qed.

Lemma change_block_good data st i :
  d_pos st = Z.of_nat i → data !! i = Some x0b →
  ∃ it, change_block data st = Some it ∧ good_iteration data st it.
Proof.
  intros Hpos Hi. unfold change_block. rewrite Hpos.
  destruct (Z.lt_ge_cases (blen data) (Z.of_nat i + 9)) as [Hl|Hl].
  - assert (∀ k : list byte → option iteration, ∀ r, or_crash (go_slice data (Z.of_nat i + 5) (Z.of_nat i + 9)) r k = Some Crash) as Hc.
    { intros k r. by rewrite go_slice_panic. }
    assert (good_iteration data st Crash) as Hg by (exists i; by rewrite Hpos).
    destruct (if 0 <? Z.of_nat i then _ else _) as [c|e|] eqn:E; cbn [or_crash]; eauto.
    + destruct (go_slice data _ (Z.of_nat i + 5)) as [d|e|] eqn:E2; cbn [or_crash]; rewrite ?Hc; eauto.
      by eexists.
    + by eexists.
  - assert (is_ok (if 0 <? Z.of_nat i then Ok true
        else b ← go_index data (Z.of_nat i + 1); Ok (bz b =? changeL2BlockTxType))) as Hc.
    { case_bool; [done|]. unfold blen in Hl. replace (Z.of_nat i + 1) with (Z.of_nat (i + 1)) by lia.
      destruct (lookup_lt_is_Some_2 data (i + 1)) as [b Hb]; [lia|]. by rewrite (go_index_lookup _ _ _ Hb). }
    destruct (if 0 <? Z.of_nat i then _ else _) as [c|e|]; [|done..]. cbn [or_crash]. unfold blen in Hl.
    destruct (go_slice_bounds data (Z.of_nat i + 1) (Z.of_nat i + 5)) as (d & -> & _); [lia..|].
    destruct (go_slice_bounds data (Z.of_nat i + 5) (Z.of_nat i + 9)) as (x & -> & _); [lia..|].
    cbn [or_crash]. eexists. split; [done|]. cbn. unfold changeL2BlockLength, blen. lia.
Qed.

Lemma tx_length_bounds data pos num :
  0 ≤ pos < blen data → blen data < 2 ^ 63 → 0 ≤ num < 256 →
  match tx_length data pos num with
  | Ok (inl n) => 0 ≤ n ≤ 2 ^ 64 - 248
  | Ok (inr _) => True
  | _ => False
  end.
Proof.
  intros Hp Hb Hn. unfold tx_length, c0, shortRlp, f7. destruct (Z.ltb_spec num 192); [done|].
  destruct (Z.leb_spec (num - 192) 55); [lia|]. unfold blen in *.
  destruct (Z.ltb_spec (Z.of_nat (length data)) (pos + 1 + num - 247)); [done|].
  destruct (go_slice_bounds data (pos + 1) (pos + 1 + num - 247)) as (bs & -> & Hl); [lia..|].
  rewrite bind_Ok. unfold parse_hex_bytes. rewrite (proj2 (Nat.eqb_neq _ _)) by lia.
  pose proof (be_val_range bs) as Hr.
  assert (256 ^ Z.of_nat (length bs) ≤ 2 ^ 64).
  { change 256 with (2 ^ 8). rewrite <-Z.pow_mul_r by lia. apply Z.pow_le_mono_r; lia. }
  rewrite (proj2 (Z.ltb_lt _ _)), bind_Ok by lia. case_bool; [done|].
  pose proof (u64_range (be_val bs + num)) as Hu. unfold is_u64 in Hu.
  assert (u64 (be_val bs + num - 247) = u64 (be_val bs + num) - 247) as ->; [|lia].
  unfold u64. rewrite <-Zminus_mod_idemp_l. fold (u64 (be_val bs + num)). apply Z.mod_small. lia.
Qed.

Lemma rlpFieldsToLegacyTx_no_panic fields v r s : rlpFieldsToLegacyTx fields v r s ≠ Panic.
Proof.
  destruct fields as [|f0 [|f1 [|f2 [|f3 [|f4 [|f5 [|f6 l]]]]]]]; try discriminate.
Qed.

Lemma decode_tx_good data forkID st n :
  0 ≤ d_pos st < blen data → blen data < 2 ^ 63 → 0 ≤ n ≤ 2 ^ 64 - 248 →
  ∃ it, decode_tx data forkID st n = Some it ∧ good_iteration data st it.
Proof.
  intros Hp Hb Hn. unfold decode_tx, rLength, sLength, vLength, headerByteLength, efficiencyPercentageByteLength.
  set (pos := d_pos st) in *. set (hp := ForkID5Dragonfruit <=? forkID).
  set (e := pos + n + 32 + 32 + 1 + 1 + (if hp then 1 else 0)).
  assert (u64 e = e ∨ u64 e < pos) as Hu.
  { destruct (Z.lt_ge_cases e (2 ^ 64)); [left; apply u64_small; unfold is_u64, e; destruct hp; lia|right].
    unfold u64. rewrite <-(Z_mod_plus_full e (-1)), Z.mod_small; unfold e in *; destruct hp; lia. }
  fold (blen data). case_bool; [by eexists|]. case_bool; [by eexists|]. destruct Hu as [Hu|]; [|lia].
  rewrite Hu in *. assert (pos + n + 66 + (if hp then 1 else 0) = e) as He by (unfold e; lia).
  assert (0 ≤ (if hp then 1 else 0) ≤ 1) as Hhp by (destruct hp; lia). unfold blen in *.
  destruct (go_slice_bounds data pos (pos + n + 1)) as (txInfo & -> & Hl); [lia..|]. cbn [or_crash].
  destruct (go_slice_bounds data (pos + n + 1) (pos + n + 1 + 32)) as (rd & -> & _); [lia..|]. cbn [or_crash].
  destruct (go_slice_bounds data (pos + n + 1 + 32) (pos + n + 1 + 32 + 32)) as (sd & -> & _); [lia..|]. cbn [or_crash].
  destruct (go_slice_bounds data (pos + n + 1 + 32 + 32) (pos + n + 1 + 32 + 32 + 1)) as (vd & -> & _); [lia..|]. cbn [or_crash].
  assert (∃ ps, (if hp then p ← go_slice data (pos + n + 1 + 32 + 32 + 1) e; b ← go_index p 0;
    Ok (EffectiveGasPricePercentages (d_current st) ++ [bz b])
    else Ok (EffectiveGasPricePercentages (d_current st))) = Ok ps) as [ps ->].
  { destruct hp; [|eauto]. destruct (go_slice_bounds data (pos + n + 1 + 32 + 32 + 1) e) as (p & -> & Hpl); [lia..|].
    destruct p as [|b p]; [simpl in Hpl; lia|]. eexists. reflexivity. }
  cbn [or_crash]. destruct (DecodeBytes txInfo) as [[er|fs]|] eqn:Ed; [by eexists| |].
  2: { by apply DecodeBytes_total in Ed; [|lia]. }
  destruct (rlpFieldsToLegacyTx fs vd rd sd) as [tx|er|] eqn:Er; [|by eexists|by apply rlpFieldsToLegacyTx_no_panic in Er].
  cbn [or_crash]. eexists. split; [done|]. cbn. fold pos. unfold blen. lia.
Qed.

Lemma decode_iteration_good data forkID st :
  0 ≤ d_pos st < blen data → blen data < 2 ^ 63 →
  ∃ it, decode_iteration data forkID st = Some it ∧ good_iteration data st it.
Proof.
  intros Hp Hb. set (i := Z.to_nat (d_pos st)). assert (d_pos st = Z.of_nat i) as Hi by (unfold i; lia).
  unfold blen in *. destruct (lookup_lt_is_Some_2 data i) as [b Eb]; [lia|].
  pose proof (take_drop_middle _ _ _ Eb) as Ed. unfold decode_iteration.
  rewrite (go_slice_at data (take i data) [b] (drop (S i) data)); [|by rewrite <-Ed at 1|
    rewrite length_take; lia|simpl; lia].
  rewrite bind_Ok, parse_hex_byte. cbn [or_crash]. destruct (Z.eqb_spec (bz b) changeL2BlockTxType) as [Hm|Hm].
  - assert (b = x0b) as ->. { apply bz_inj. by rewrite Hm. } by apply (change_block_good data st i).
  - pose proof (tx_length_bounds data (d_pos st) (bz b)) as Ht. unfold blen in Ht.
    specialize (Ht ltac:(lia) Hb (bz_range b)).
    destruct (tx_length data (d_pos st) (bz b)) as [[n|e]|e|]; [|by eexists|done..].
    cbn [or_crash]. by apply decode_tx_good.
Qed.

Lemma decode_loop_good fuel data forkID st :
  0 ≤ d_pos st → blen data < 2 ^ 63 → blen data - d_pos st ≤ Z.of_nat fuel →
  ∃ r, decode_loop fuel data forkID st = Some r ∧
    (r = Panic → ∃ i, data !! i = Some x0b ∧ (length data < i + 9)%nat).
Proof.
  revert st. induction fuel as [|fuel IH]; intros st Hp Hb Hf; cbn [decode_loop]; fold (blen data).
  - rewrite (proj2 (Z.ltb_ge _ _)) by lia. by eexists.
  - destruct (Z.ltb_spec (d_pos st) (blen data)); [|by eexists].
    destruct (decode_iteration_good data forkID st) as (it & -> & Hg); [done..|].
    destruct it as [st'|r e|]; cbn in Hg.
    + apply IH; lia.
    + by eexists.
    + eexists. split; [done|]. intros _. destruct Hg as (i & Hi & Hd & Hl). exists i. split; [done|]. unfold blen in Hl. lia.
Qed.

(** * The properties of the codec *)

(** The data of a batch: its blocks one after the other. *)
Definition generate_batch (forkId : Z) (bs : list block) : outcome (list byte) :=
  foldM (λ acc b,
    data ← GenerateBlockBatchL2Data forkId (b_delta b) (b_index b) (b_txs b); Ok (acc ++ data)) [] bs.

Lemma generate_batch_bytes forkId bs :
  Forall block_wf bs → ForkID7Etrog ≤ forkId → blen (batch_bytes bs) < 2 ^ 63 →
  generate_batch forkId bs = Ok (batch_bytes bs).
Proof.
  intros Hw Hf Hb. unfold generate_batch.
  assert (∀ acc, foldM (λ acc b, data ← GenerateBlockBatchL2Data forkId (b_delta b) (b_index b) (b_txs b);
    Ok (acc ++ data)) acc bs = Ok (acc ++ batch_bytes bs)) as H; [|by rewrite H].
  revert Hb. induction Hw as [|b bs Hbw _ IH]; intros Hb acc.
  - cbn [foldM]. change (batch_bytes []) with (@nil byte). by rewrite app_nil_r.
  - change (batch_bytes (b :: bs)) with (block_bytes b ++ batch_bytes bs) in *. rewrite blen_app in Hb.
    pose proof (blen_nonneg (block_bytes b)). pose proof (blen_nonneg (batch_bytes bs)).
    cbn [foldM]. rewrite GenerateBlock_bytes, !bind_Ok, IH by (done || lia). by rewrite app_assoc.
Qed.

Lemma decode_loop_end fuel data forkID st :
  d_pos st = blen data → decode_loop fuel data forkID st = Some (Ok (d_result st ++ [seal st], None)).
Proof.
  intros E. destruct fuel; cbn [decode_loop]; fold (blen data); by rewrite E, Z.ltb_irrefl.
Qed.

(** C16. Round trip of batch data: a batch of blocks of well-formed transactions
    is encoded without error, and DecodeBatchL2Blocks returns every block with
    its transactions, percentages, time delta and index, without error,
    provided that the first byte of the first time delta is not the marker
    byte. *)
Theorem DecodeBatchL2Blocks_roundtrip forkId b bs :
  ForkID7Etrog ≤ forkId → Forall block_wf (b :: bs) → looks_like_marker b = false →
  blen (batch_bytes (b :: bs)) < 2 ^ 63 →
  ∃ data, generate_batch forkId (b :: bs) = Ok data ∧
    DecodeBatchL2Blocks data forkId = Some (Ok (map decoded (b :: bs), None)).
Proof.
  intros Hf Hw Hm Hb. exists (batch_bytes (b :: bs)). split; [by apply generate_batch_bytes|].
  destruct (decode_batch b bs [] forkId) as (fuel & st & _ & E & Hp & Hr); [done| |by rewrite app_nil_r|].
  { unfold ForkID7Etrog, ForkID5Dragonfruit in *. lia. }
  rewrite app_nil_r in E. rewrite E, decode_loop_end, Hr by done. unfold spurious. by rewrite Hm.
Qed.

(** A first block whose time delta starts with the byte 11 is decoded with
    an additional empty block before it: the test meant for an empty first
    block looks at the delta instead of the next marker. *)
Theorem DecodeBatchL2Blocks_spurious_block forkId b bs :
  ForkID7Etrog ≤ forkId → Forall block_wf (b :: bs) → looks_like_marker b = true →
  blen (batch_bytes (b :: bs)) < 2 ^ 63 →
  ∃ data, generate_batch forkId (b :: bs) = Ok data ∧
    DecodeBatchL2Blocks data forkId = Some (Ok (mkDecoded [] [] 0 0 :: map decoded (b :: bs), None)).
Proof.
  intros Hf Hw Hm Hb. exists (batch_bytes (b :: bs)). split; [by apply generate_batch_bytes|].
  destruct (decode_batch b bs [] forkId) as (fuel & st & _ & E & Hp & Hr); [done| |by rewrite app_nil_r|].
  { unfold ForkID7Etrog, ForkID5Dragonfruit in *. lia. }
  rewrite app_nil_r in E. rewrite E, decode_loop_end, Hr by done. unfold spurious. by rewrite Hm.
Qed.

(** C32. The decoder terminates on every input, and panics only when a marker
    byte has fewer than eight bytes after it. *)
Theorem DecodeBatchL2Blocks_total data forkID :
  blen data < 2 ^ 63 →
  ∃ r, DecodeBatchL2Blocks data forkID = Some r ∧
    (r = Panic → ∃ i, data !! i = Some x0b ∧ (length data < i + 9)%nat).
Proof.
  intros Hb. unfold DecodeBatchL2Blocks. destruct (length data =? 0)%nat; [by eexists|].
  apply decode_loop_good; cbn; [lia|done|unfold blen; lia].
Qed.

(** Truncated batches: after any batch, a marker byte with fewer than eight
    bytes after it makes the decoder panic. *)
Theorem DecodeBatchL2Blocks_truncated_marker forkId b bs tail :
  ForkID7Etrog ≤ forkId → Forall block_wf (b :: bs) → (length tail < 8)%nat →
  blen (batch_bytes (b :: bs) ++ x0b :: tail) < 2 ^ 63 →
  DecodeBatchL2Blocks (batch_bytes (b :: bs) ++ x0b :: tail) forkId = Some Panic.
Proof.
  intros Hf Hw Ht Hb.
  destruct (decode_batch b bs (x0b :: tail) forkId) as (fuel & st & Hfu & E & Hp & Hr); [done| |done|].
  { unfold ForkID7Etrog, ForkID5Dragonfruit in *. lia. }
  rewrite E. destruct fuel as [|fuel]; [simpl in Hfu; lia|].
  assert (d_pos st < blen (batch_bytes (b :: bs) ++ x0b :: tail)) as Hlt
    by (rewrite Hp, blen_app; unfold blen; simpl; lia).
  cbn [decode_loop]. fold (blen (batch_bytes (b :: bs) ++ x0b :: tail)). rewrite (proj2 (Z.ltb_lt _ _) Hlt).
  unfold decode_iteration. rewrite (go_slice_at _ (batch_bytes (b :: bs)) [x0b] tail) by (done || simpl; lia).
  rewrite bind_Ok, parse_hex_byte. cbn [or_crash]. change (bz x0b =? changeL2BlockTxType) with true. cbn iota.
  unfold change_block. assert (0 < d_pos st) as Hpp.
  { rewrite Hp. change (batch_bytes (b :: bs)) with ((marker b ++ txs_bytes (b_txs b)) ++ batch_bytes bs).
    rewrite !blen_app, blen_marker. pose proof (blen_nonneg (txs_bytes (b_txs b))). pose proof (blen_nonneg (batch_bytes bs)). lia. }
  rewrite (proj2 (Z.ltb_lt _ _) Hpp). cbn [or_crash].
  destruct (go_slice _ (d_pos st + 1) (d_pos st + 5)) as [d|e|] eqn:E1; cbn [or_crash]; [| |done].
  - by rewrite go_slice_panic by (rewrite length_app, Hp; unfold blen; simpl; lia).
  - unfold go_slice in E1. by destruct (_ && _).
Qed.

(** Truncated batches: after any batch, a long RLP header whose length bytes
    are missing makes the decoder return without an error, and the last block
    is missing from the result. *)
Theorem DecodeBatchL2Blocks_truncated_header forkId b bs h tail :
  ForkID7Etrog ≤ forkId → Forall block_wf (b :: bs) → 0xF7 < bz h → Z.of_nat (length tail) < bz h - 0xF7 →
  looks_like_marker b = false → blen (batch_bytes (b :: bs) ++ h :: tail) < 2 ^ 63 →
  DecodeBatchL2Blocks (batch_bytes (b :: bs) ++ h :: tail) forkId =
    Some (Ok (removelast (map decoded (b :: bs)), None)).
Proof.
  intros Hf Hw Hh Ht Hm Hb.
  destruct (decode_batch b bs (h :: tail) forkId) as (fuel & st & Hfu & E & Hp & Hr); [done| |done|].
  { unfold ForkID7Etrog, ForkID5Dragonfruit in *. lia. }
  rewrite E. destruct fuel as [|fuel]; [simpl in Hfu; lia|].
  assert (d_pos st < blen (batch_bytes (b :: bs) ++ h :: tail)) as Hlt
    by (rewrite Hp, blen_app; unfold blen; simpl; lia).
  cbn [decode_loop]. fold (blen (batch_bytes (b :: bs) ++ h :: tail)). rewrite (proj2 (Z.ltb_lt _ _) Hlt).
  unfold decode_iteration. rewrite (go_slice_at _ (batch_bytes (b :: bs)) [h] tail) by (done || simpl; lia).
  rewrite bind_Ok, parse_hex_byte. cbn [or_crash].
  rewrite (proj2 (Z.eqb_neq (bz h) changeL2BlockTxType)) by (unfold changeL2BlockTxType; lia).
  unfold tx_length, c0, shortRlp, f7. rewrite (proj2 (Z.ltb_ge (bz h) 192)), (proj2 (Z.leb_gt (bz h - 192) 55)) by lia.
  rewrite (proj2 (Z.ltb_lt _ (_ - 247))) by (rewrite length_app, Hp; unfold blen; simpl; lia).
  cbn [or_crash]. do 3 f_equal. unfold spurious in Hr. rewrite Hm in Hr. cbn [app] in Hr. rewrite <-Hr. by rewrite removelast_last.
Qed.

(** * Sample batches *)

Definition sample_tx : LegacyTx :=
  {| Nonce := 3; GasPrice := 1000; Gas := 21000; To := Some (replicate 20 x11); Value := Some 7;
     Data := [x01; x02]; V := 37; R := 5; S_ := 6; ChainID := 1 |}.

Definition sample_block (delta : Z) : block := mkBlock delta 2 [(sample_tx, 255)].

Lemma sample_block_wf delta : is_u32 delta → block_wf (sample_block delta).
Proof.
  intros Hd. split; [done|]. split; [unfold is_u32; cbn; lia|]. constructor; [|constructor].
  split; [|unfold is_u8; cbn; lia].
  constructor; cbn; unfold is_u64, is_u256; try lia; reflexivity.
Qed.

Lemma sample_blocks_wf d1 d2 : is_u32 d1 → is_u32 d2 → Forall block_wf [sample_block d1; sample_block d2].
Proof. auto using sample_block_wf. Qed.

Lemma DecodeBatchL2Blocks_roundtrip_witness :
  ∃ data, generate_batch 9 [sample_block 5; sample_block 6] = Ok data ∧
    DecodeBatchL2Blocks data 9 = Some (Ok (map decoded [sample_block 5; sample_block 6], None)).
Proof.
  apply (DecodeBatchL2Blocks_roundtrip 9 (sample_block 5) [sample_block 6]).
  - unfold ForkID7Etrog. lia.
  - apply sample_blocks_wf; unfold is_u32; lia.
  - reflexivity.
  - vm_compute. reflexivity.
Defined.

Lemma DecodeBatchL2Blocks_spurious_block_witness :
  ∃ data, generate_batch 9 [sample_block 184549376] = Ok data ∧
    DecodeBatchL2Blocks data 9 = Some (Ok (mkDecoded [] [] 0 0 :: map decoded [sample_block 184549376], None)).
Proof.
  apply (DecodeBatchL2Blocks_spurious_block 9 (sample_block 184549376) []).
  - unfold ForkID7Etrog. lia.
  - constructor; [|constructor]. apply sample_block_wf. unfold is_u32. lia.
  - reflexivity.
  - vm_compute. reflexivity.
Defined.

Lemma DecodeBatchL2Blocks_total_witness :
  ∃ r, DecodeBatchL2Blocks [x0b; x00] 9 = Some r ∧
    (r = Panic → ∃ i, [x0b; x00] !! i = Some x0b ∧ (length [x0b; x00] < i + 9)%nat).
Proof. apply (DecodeBatchL2Blocks_total [x0b; x00] 9). vm_compute. reflexivity. Defined.

Lemma DecodeBatchL2Blocks_truncated_marker_witness :
  DecodeBatchL2Blocks (batch_bytes [sample_block 5] ++ x0b :: [x00; x00]) 9 = Some Panic.
Proof.
  apply (DecodeBatchL2Blocks_truncated_marker 9 (sample_block 5) [] [x00; x00]).
  - unfold ForkID7Etrog. lia.
  - constructor; [|constructor]. apply sample_block_wf. unfold is_u32. lia.
  - cbn. lia.
  - vm_compute. reflexivity.
Defined.

Lemma DecodeBatchL2Blocks_truncated_header_witness :
  DecodeBatchL2Blocks (batch_bytes [sample_block 5; sample_block 6] ++ xf9 :: [x01]) 9 =
    Some (Ok (removelast (map decoded [sample_block 5; sample_block 6]), None)).
Proof.
  apply (DecodeBatchL2Blocks_truncated_header 9 (sample_block 5) [sample_block 6] xf9 [x01]).
  - unfold ForkID7Etrog. lia.
  - apply sample_blocks_wf; unfold is_u32; lia.
  - cbn. lia.
  - cbn. lia.
  - reflexivity.
  - vm_compute. reflexivity.
Defined.
