(* ===== verification/Float64.v ===== *)
(** Non-negative double-precision numbers, as far as the counter code uses
    them: [float64(x) / c], [float64(x) * p], [x - y], [math.Ceil] and
    [math.Floor].

    A number is [m * 2 ^ e] with a mantissa of at most 53 bits; every operation
    computes the exact rational result and rounds it to nearest, ties to even.
    The numbers of the code are far from the limits of the exponent, which is
    not bounded here. *)

From S2P Require Import Prelude.

Local Open Scope Z_scope.

Record f64 := mkF64 { f_mant : Z; f_exp : Z }.

(** Numerator and denominator of the value. *)
Definition f_num (x : f64) : Z := if 0 <=? f_exp x then f_mant x * 2 ^ f_exp x else f_mant x.
Definition f_den (x : f64) : Z := if 0 <=? f_exp x then 1 else 2 ^ (- f_exp x).

(** [n / d] rounded to an integer, ties to even. *)
Definition round_even (n d : Z) : Z :=
  let q := n / d in
  let r := n mod d in
  if 2 * r <? d then q else if d <? 2 * r then q + 1 else if Z.even q then q else q + 1.

(** [n / (d * 2 ^ e)] rounded to an integer. *)
Definition scale_round (n d e : Z) : Z :=
  if 0 <=? e then round_even n (d * 2 ^ e) else round_even (n * 2 ^ (- e)) d.

(** The double nearest to [n / d], for [0 <= n] and [0 < d]. *)
Definition f64_of_ratio (n d : Z) : f64 :=
  if n <=? 0 then mkF64 0 0
  else
    let e := Z.log2 n - Z.log2 d - 53 in
    let m := scale_round n d e in
    if m <? 2 ^ 53 then mkF64 m e else mkF64 (scale_round n d (e + 1)) (e + 1).

Definition f64_of_Z (x : Z) : f64 := f64_of_ratio x 1.
Definition f64_mul (x y : f64) : f64 := f64_of_ratio (f_num x * f_num y) (f_den x * f_den y).
Definition f64_div (x y : f64) : f64 := f64_of_ratio (f_num x * f_den y) (f_den x * f_num y).
Definition f64_sub (x y : f64) : f64 :=
  f64_of_ratio (f_num x * f_den y - f_num y * f_den x) (f_den x * f_den y).

Definition f64_floor (x : f64) : Z := f_num x / f_den x.
Definition f64_ceil (x : f64) : Z := - (- f_num x / f_den x).

(** [int(math.Ceil(float64(x) / d))] and [int(math.Floor(float64(x) / d))]. *)
Definition ceil_div (x d : Z) : Z := f64_ceil (f64_div (f64_of_Z x) (f64_of_Z d)).
Definition floor_div (x d : Z) : Z := f64_floor (f64_div (f64_of_Z x) (f64_of_Z d)).

(** * Exactness on small operands *)

Lemma f_den_pos x : 0 < f_den x.
Proof.
  unfold f_den. case_bool; [lia|]. apply Z.pow_pos_nonneg; lia.
Qed.

Lemma round_even_nonneg n d : 0 ≤ n → 0 < d → 0 ≤ round_even n d.
Proof.
  intros Hn Hd. unfold round_even. pose proof (Z.div_pos n d Hn Hd). repeat case_bool; try lia.
  destruct (Z.even _); lia.
Qed.

(** Rounding does not cross an integer bound. *)
Lemma round_even_le n d k : 0 < d → n ≤ k * d → round_even n d ≤ k.
Proof.
  intros Hd H. unfold round_even. pose proof (Z.div_mod n d ltac:(lia)). pose proof (Z.mod_pos_bound n d Hd).
  assert (n / d ≤ k) by nia. destruct (Z.eq_dec (n / d) k) as [E|]; [|repeat case_bool; try (destruct (Z.even _)); lia].
  assert (n mod d = 0) as -> by nia. case_bool; [lia|]. lia.
Qed.

Lemma round_even_ge n d k : 0 < d → k * d ≤ n → k ≤ round_even n d.
Proof.
  intros Hd H. unfold round_even. pose proof (Z.div_mod n d ltac:(lia)). pose proof (Z.mod_pos_bound n d Hd).
  assert (k ≤ n / d) by nia. repeat case_bool; try (destruct (Z.even _)); lia.
Qed.

(** The result is off by at most half. *)
Lemma round_even_half n d : 0 < d → 2 * n - d ≤ 2 * d * round_even n d ≤ 2 * n + d.
Proof.
  intros Hd. unfold round_even. pose proof (Z.div_mod n d ltac:(lia)). pose proof (Z.mod_pos_bound n d Hd).
  repeat case_bool; try (destruct (Z.even _)); nia.
Qed.

Lemma round_even_exact n d k : 0 < d → n = k * d → round_even n d = k.
Proof.
  intros Hd ->. pose proof (round_even_le (k * d) d k Hd ltac:(lia)).
  pose proof (round_even_ge (k * d) d k Hd ltac:(lia)). lia.
Qed.

(** The shape of a quotient below [2 ^ 51]: a mantissa over a power of two,
    with enough bits after the point to tell the quotient from an integer. *)
Lemma f64_of_ratio_small x d s :
  0 < x < 2 ^ 50 → 0 < d < 2 ^ 50 → 0 < s →
  ∃ k, 0 < k ∧ d < 2 ^ (k + 1) ∧
    f64_of_ratio (x * s) (d * s) = mkF64 (round_even (x * s * 2 ^ k) (d * s)) (- k).
Proof.
  intros Hx Hd Hs. unfold f64_of_ratio. destruct (Z.leb_spec (x * s) 0); [nia|].
  set (e := Z.log2 (x * s) - Z.log2 (d * s) - 53).
  assert (e ≤ Z.log2 x - Z.log2 d - 52) as He.
  { unfold e. pose proof (Z.log2_mul_above x s ltac:(lia) ltac:(lia)).
    pose proof (Z.log2_mul_below d s ltac:(lia) ltac:(lia)). lia. }
  assert (Z.log2 x < 50) by (apply Z.log2_lt_pow2; lia). pose proof (Z.log2_nonneg d).
  pose proof (Z.log2_spec d ltac:(lia)) as [_ Hd2].
  assert (∀ k, k ≤ - e → - e - 1 ≤ k → 0 < k ∧ d < 2 ^ (k + 1)) as Hk.
  { intros k Ha Hb. split; [lia|]. eapply Z.lt_le_trans; [apply Hd2|]. apply Z.pow_le_mono_r; lia. }
  unfold scale_round. rewrite (proj2 (Z.leb_gt 0 e)), (proj2 (Z.leb_gt 0 (e + 1))) by lia. case_bool.
  - exists (- e). rewrite Z.opp_involutive. destruct (Hk (- e)); [lia..|]. done.
  - exists (- (e + 1)). rewrite Z.opp_involutive. destruct (Hk (- (e + 1))); [lia..|]. done.
Qed.

(** Small integers are represented exactly. *)
Lemma f64_of_Z_exact x : 0 ≤ x < 2 ^ 50 → f_num (f64_of_Z x) = x * f_den (f64_of_Z x).
Proof.
  intros Hx. unfold f64_of_Z. destruct (Z.eq_dec x 0) as [->|Hne]; [done|].
  destruct (f64_of_ratio_small x 1 1) as (k & Hk & _ & E); [lia..|].
  rewrite !Z.mul_1_r in E. rewrite E. unfold f_num, f_den. cbn [f_exp f_mant].
  rewrite (proj2 (Z.leb_gt 0 (- k))), Z.opp_involutive by lia. by apply round_even_exact; [lia|rewrite Z.mul_1_r].
Qed.

Lemma f64_div_small x d :
  0 < x < 2 ^ 50 → 0 < d < 2 ^ 50 →
  ∃ k s, 0 < k ∧ 0 < s ∧ d < 2 ^ (k + 1) ∧
    f64_div (f64_of_Z x) (f64_of_Z d) = mkF64 (round_even (x * s * 2 ^ k) (d * s)) (- k).
Proof.
  intros Hx Hd. unfold f64_div. rewrite !f64_of_Z_exact by lia.
  pose proof (f_den_pos (f64_of_Z x)). pose proof (f_den_pos (f64_of_Z d)).
  set (s := f_den (f64_of_Z x) * f_den (f64_of_Z d)).
  destruct (f64_of_ratio_small x d s) as (k & Hk & Hd2 & E); [done|done|unfold s; nia|].
  exists k, s. split_and!; [done|unfold s; nia|done|]. rewrite <-E. f_equal; unfold s; ring.
Qed.

(** The mantissa of the quotient lies between the scaled integer bounds, and
    reaches them only when the quotient is an integer. *)
Lemma round_quotient x d k s :
  0 < d → 0 < s → 0 < k → d < 2 ^ (k + 1) →
  let m := round_even (x * s * 2 ^ k) (d * s) in
  x / d * 2 ^ k ≤ m ≤ (x / d + 1) * 2 ^ k ∧
  (x mod d ≠ 0 → x / d * 2 ^ k < m < (x / d + 1) * 2 ^ k) ∧ (x mod d = 0 → m = x / d * 2 ^ k).
Proof.
  intros Hd Hs Hk H2 m. pose proof (Z.div_mod x d ltac:(lia)) as E. pose proof (Z.mod_pos_bound x d Hd) as Hr.
  set (q := x / d) in *. set (r := x mod d) in *. assert (0 < 2 ^ k) by (apply Z.pow_pos_nonneg; lia).
  rewrite Z.pow_add_r in H2 by lia. assert (0 < d * s) as Hds by nia.
  pose proof (round_even_half (x * s * 2 ^ k) (d * s) Hds) as [Hh1 Hh2]. fold m in Hh1, Hh2.
  assert (q * 2 ^ k * (d * s) ≤ x * s * 2 ^ k) as H1 by (rewrite E; nia).
  assert (x * s * 2 ^ k ≤ (q + 1) * 2 ^ k * (d * s)) as H3 by (rewrite E; nia).
  pose proof (round_even_ge _ _ _ Hds H1) as H4. pose proof (round_even_le _ _ _ Hds H3) as H5. fold m in H4, H5.
  split; [lia|]. split.
  - intros Hr0. assert (1 ≤ r ≤ d - 1) as Hr1 by lia. split.
    + destruct (Z.eq_dec m (q * 2 ^ k)) as [Em|]; [|lia]. exfalso. rewrite Em in Hh1.
      assert (2 * (r * s * 2 ^ k) ≤ d * s) by (rewrite E in Hh1; nia).
      assert (s * 2 ^ k ≤ r * s * 2 ^ k) by nia. nia.
    + destruct (Z.eq_dec m ((q + 1) * 2 ^ k)) as [Em|]; [|lia]. exfalso. rewrite Em in Hh2.
      assert (2 * ((d - r) * s * 2 ^ k) ≤ d * s) by (rewrite E in Hh2; nia).
      assert (s * 2 ^ k ≤ (d - r) * s * 2 ^ k) by nia. nia.
  - intros Hr0. apply round_even_exact; [done|]. rewrite E, Hr0. ring.
Qed.

Lemma ceil_div_exact x d : 0 ≤ x < 2 ^ 50 → 0 < d < 2 ^ 50 → ceil_div x d = (x + d - 1) / d.
Proof.
  intros Hx Hd. unfold ceil_div. destruct (Z.eq_dec x 0) as [->|Hne].
  { unfold f64_div. change (f64_of_Z 0) with (mkF64 0 0). cbn. rewrite Z.div_small by lia. done. }
  destruct (f64_div_small x d) as (k & s & Hk & Hs & H2 & ->); [lia..|].
  destruct (round_quotient x d k s) as (_ & Hne0 & H0); [lia..|]. unfold f64_ceil, f_num, f_den. cbn [f_exp f_mant].
  rewrite (proj2 (Z.leb_gt 0 (- k))), Z.opp_involutive by lia.
  set (m := round_even (x * s * 2 ^ k) (d * s)) in *. assert (0 < 2 ^ k) by (apply Z.pow_pos_nonneg; lia).
  pose proof (Z.div_mod x d ltac:(lia)) as E. pose proof (Z.mod_pos_bound x d ltac:(lia)) as Hr.
  destruct (Z.eq_dec (x mod d) 0) as [Er|Er].
  - rewrite (H0 Er), <-Z.mul_opp_l, Z.div_mul, Z.opp_involutive by lia.
    apply (Z.div_unique _ _ _ (d - 1)); lia.
  - specialize (Hne0 Er). rewrite <-(Z.div_unique (- m) (2 ^ k) (- (x / d + 1)) ((x / d + 1) * 2 ^ k - m)) by lia.
    rewrite Z.opp_involutive. apply (Z.div_unique _ _ _ (x mod d - 1)); lia.
Qed.

Lemma floor_div_exact x d : 0 ≤ x < 2 ^ 50 → 0 < d < 2 ^ 50 → floor_div x d = x / d.
Proof.
  intros Hx Hd. unfold floor_div. destruct (Z.eq_dec x 0) as [->|Hne].
  { unfold f64_div. change (f64_of_Z 0) with (mkF64 0 0). cbn. done. }
  destruct (f64_div_small x d) as (k & s & Hk & Hs & H2 & ->); [lia..|].
  destruct (round_quotient x d k s) as (Hb & Hne0 & H0); [lia..|]. unfold f64_floor, f_num, f_den. cbn [f_exp f_mant].
  rewrite (proj2 (Z.leb_gt 0 (- k))), Z.opp_involutive by lia.
  set (m := round_even (x * s * 2 ^ k) (d * s)) in *. assert (0 < 2 ^ k) by (apply Z.pow_pos_nonneg; lia).
  symmetry. apply (Z.div_unique _ _ _ (m - x / d * 2 ^ k)); [|lia]. left.
  destruct (Z.eq_dec (x mod d) 0) as [Er|Er]; [rewrite (H0 Er)|specialize (Hne0 Er)]; lia.
Qed.

(** * Rounding respects bounds with few bits after the point *)

(** [between lo hi j x]: the value of [x] lies between [lo / 2 ^ j] and
    [hi / 2 ^ j]. *)
Definition between (lo hi j : Z) (x : f64) : Prop :=
  lo * f_den x ≤ f_num x * 2 ^ j ≤ hi * f_den x.

Lemma scale_round_between n d e lo hi j :
  0 < d → 0 ≤ j → e ≤ - j → lo * d ≤ n * 2 ^ j ≤ hi * d → between lo hi j (mkF64 (scale_round n d e) e).
Proof.
  intros Hd Hj He [H1 H2]. unfold between, scale_round, f_num, f_den. cbn [f_exp f_mant].
  assert (0 < 2 ^ j) as Hp by (apply Z.pow_pos_nonneg; lia). destruct (Z.leb_spec 0 e) as [H0|H0].
  - assert (e = 0) as -> by lia. assert (j = 0) as -> by lia. rewrite !Z.pow_0_r, !Z.mul_1_r in *.
    split; [by apply round_even_ge|by apply round_even_le].
  - assert (2 ^ (- e) = 2 ^ (- e - j) * 2 ^ j) as E by (rewrite <-Z.pow_add_r by lia; f_equal; lia).
    assert (0 < 2 ^ (- e - j)) by (apply Z.pow_pos_nonneg; lia). rewrite E.
    assert (lo * 2 ^ (- e - j) ≤ round_even (n * (2 ^ (- e - j) * 2 ^ j)) d) by (apply round_even_ge; [done|nia]).
    assert (round_even (n * (2 ^ (- e - j) * 2 ^ j)) d ≤ hi * 2 ^ (- e - j)) by (apply round_even_le; [done|nia]).
    split; nia.
Qed.

Lemma f64_of_ratio_between n d lo hi j :
  0 < d → 0 ≤ j ≤ 10 → n < 2 ^ 40 * d → 0 ≤ hi → lo * d ≤ n * 2 ^ j ≤ hi * d →
  lo ≤ 0 ∨ 0 < n → between lo hi j (f64_of_ratio n d).
Proof.
  intros Hd Hj Hn Hhi H Hlo. unfold f64_of_ratio. destruct (Z.leb_spec n 0) as [H0|H0].
  { unfold between, f_num, f_den. cbn. lia. }
  assert (Z.log2 n ≤ 41 + Z.log2 d) as Hl.
  { apply Z.lt_succ_r, Z.log2_lt_pow2; [lia|]. pose proof (Z.log2_spec d Hd) as [_ Hs].
    replace (Z.succ (41 + Z.log2 d)) with (40 + (Z.succ (Z.log2 d) + 1)) by lia.
    pose proof (Z.log2_nonneg d). rewrite !Z.pow_add_r by lia. lia. }
  destruct (_ <? _); apply scale_round_between; (done || lia).
Qed.

Lemma f64_mul_between x s lo hi j :
  0 ≤ x < 2 ^ 40 → 0 ≤ j ≤ 10 → 0 ≤ lo → hi ≤ 2 ^ j → between lo hi j s →
  between (x * lo) (x * hi) j (f64_mul (f64_of_Z x) s).
Proof.
  intros Hx Hj Hlo Hhi [H1 H2]. unfold f64_mul. rewrite f64_of_Z_exact by lia.
  pose proof (f_den_pos (f64_of_Z x)). pose proof (f_den_pos s). set (dx := f_den (f64_of_Z x)) in *.
  assert (0 < 2 ^ j) by (apply Z.pow_pos_nonneg; lia).
  assert (0 ≤ f_num s) by nia. assert (f_num s ≤ f_den s) by nia. assert (0 < dx * f_den s) by nia.
  apply f64_of_ratio_between; [done|done| |nia| |].
  - assert (x * dx * f_num s ≤ x * (dx * f_den s)) by nia. nia.
  - assert (lo * f_den s * (x * dx) ≤ f_num s * 2 ^ j * (x * dx)) by (apply Z.mul_le_mono_nonneg_r; nia).
    assert (f_num s * 2 ^ j * (x * dx) ≤ hi * f_den s * (x * dx)) by (apply Z.mul_le_mono_nonneg_r; nia). nia.
  - destruct (Z.eq_dec x 0) as [->|]; [lia|]. destruct (Z.eq_dec lo 0) as [->|]; [lia|]. right.
    assert (0 < f_num s) by nia. nia.
Qed.

Lemma f64_sub_between x y hi j :
  0 ≤ x < 2 ^ 40 → 0 ≤ j ≤ 10 → hi < 2 ^ j → between 0 (x * hi) j y →
  between (x * (2 ^ j - hi)) (x * 2 ^ j) j (f64_sub (f64_of_Z x) y).
Proof.
  intros Hx Hj Hhi [H1 H2]. unfold f64_sub. rewrite f64_of_Z_exact by lia.
  pose proof (f_den_pos (f64_of_Z x)). pose proof (f_den_pos y). set (dx := f_den (f64_of_Z x)) in *.
  assert (0 < 2 ^ j) by (apply Z.pow_pos_nonneg; lia). assert (0 ≤ f_num y) by nia.
  assert (0 < dx * f_den y) by nia.
  assert (f_num y * 2 ^ j * dx ≤ x * hi * f_den y * dx) by (apply Z.mul_le_mono_nonneg_r; lia).
  apply f64_of_ratio_between; [done|done|nia|nia|nia|].
  destruct (Z.eq_dec x 0) as [->|]; [lia|]. right. apply (Z.mul_pos_cancel_l (2 ^ j)); [done|].
  assert (x * hi * (f_den y * dx) < x * 2 ^ j * (f_den y * dx)) by (apply Z.mul_lt_mono_pos_r; nia). nia.
Qed.

Lemma f64_ceil_between lo hi j k x :
  0 ≤ j → 0 < lo → hi ≤ k * 2 ^ j → between lo hi j x → 1 ≤ f64_ceil x ≤ k.
Proof.
  intros Hj Hlo Hhi [H1 H2]. pose proof (f_den_pos x). assert (0 < 2 ^ j) by (apply Z.pow_pos_nonneg; lia).
  assert (0 < f_num x) by nia. assert (f_num x ≤ k * f_den x) by nia.
  unfold f64_ceil. split.
  - assert (- f_num x / f_den x < 0); [|lia]. apply Z.div_lt_upper_bound; lia.
  - assert (- k ≤ - f_num x / f_den x); [|lia]. apply Z.div_le_lower_bound; lia.
Qed.

Lemma f64_floor_between lo hi j k k' x :
  0 ≤ j → k * 2 ^ j ≤ lo → hi ≤ k' * 2 ^ j → between lo hi j x → k ≤ f64_floor x ≤ k'.
Proof.
  intros Hj Hlo Hhi [H1 H2]. pose proof (f_den_pos x). assert (0 < 2 ^ j) by (apply Z.pow_pos_nonneg; lia).
  unfold f64_floor. split; [apply Z.div_le_lower_bound; nia|].
  apply Z.lt_succ_r, Z.div_lt_upper_bound; nia.
Qed.
