(* ===== verification/ZkCounters.v ===== *)
(** The zkEVM counters of core/vm: how many rows of each of the prover's state
    machines an execution uses.

    Models core/vm/zk_counters.go (the counters, the collector, the cost of
    every opcode and precompile), core/vm/zk_counters_limits.go and its X Layer
    extension (the limits per fork) and core/vm/virtual_counters_util.go (the
    cost of modular exponentiation).  Go's [int] is a signed number of 64 bits:
    [to_int] is the wrap-around, written out where a counter is changed and where a
    comparison, a shift or a division sees a result.  Sums and products that only
    go into a counter wrap there. *)

From S2P Require Import Prelude Bytes Float64.
From Stdlib Require Import Strings.Byte.

Local Open Scope Z_scope.

(** The low 64 bits as a signed number: the wrap-around of [int], [int(x.Int64())] of
    a big integer and [int(x.Uint64())] of a 256-bit word. *)
Definition to_int (x : Z) : Z := let y := x mod 2 ^ 64 in if y <? 2 ^ 63 then y else y - 2 ^ 64.

(** * Counters *)

Record Counter := mkCounter { remaining : Z; used : Z; name : string; initialAmount : Z }.

(** The keys S, A, B, M, K, D, P and SHA, in the order of their values. *)
Inductive CounterKey := KS | KA | KB | KM | KK | KD | KP | KSHA.

Definition all_keys : list CounterKey := [KS; KA; KB; KM; KK; KD; KP; KSHA].

#[export] Instance CounterKey_eq_dec : EqDecision CounterKey.
Proof. solve_decision. Defined.

(** The slice of the eight counters, by key. *)
Record Counters := mkCounters {
  c_S : Counter; c_A : Counter; c_B : Counter; c_M : Counter;
  c_K : Counter; c_D : Counter; c_P : Counter; c_SHA : Counter;
}.

Definition get (c : Counters) (k : CounterKey) : Counter :=
  match k with
  | KS => c_S c | KA => c_A c | KB => c_B c | KM => c_M c
  | KK => c_K c | KD => c_D c | KP => c_P c | KSHA => c_SHA c
  end.

(** The counters with the value [f k] at every key [k]. *)
Definition build (f : CounterKey → Counter) : Counters :=
  mkCounters (f KS) (f KA) (f KB) (f KM) (f KK) (f KD) (f KP) (f KSHA).

Definition set (c : Counters) (k : CounterKey) (x : Counter) : Counters :=
  build (λ k', if bool_decide (k' = k) then x else get c k').

Definition Counter_Clone (c : Counter) : Counter :=
  mkCounter (remaining c) (used c) (name c) (initialAmount c).

Definition NullateUsed (c : Counters) : Counters :=
  build (λ k, mkCounter (remaining (get c k)) 0 (name (get c k)) (initialAmount (get c k))).

Definition UsedAsArray (c : Counters) : list Z := map (λ k, used (get c k)) all_keys.

Definition NewEmptyCounters : Counters := build (λ _, mkCounter 0 0 EmptyString 0).

Definition GetDifferUsed (newer older : Counters) (k : CounterKey) : Z :=
  to_int (used (get newer k) - used (get older k)).

(** [res := Counters{}; for k, v := range used { res[k] = ... }]: the slice is
    empty, so the first assignment is out of range. *)
Definition slice_put {A} (res : list A) (k : nat) (x : A) : outcome (list A) :=
  if (k <? length res)%nat then Ok (<[k := x]> res) else Panic.

Definition NewCountersFromUsedArray (used : list Z) : outcome (list Counter) :=
  foldM (λ res '(k, v), slice_put res k (mkCounter 0 v EmptyString 0)) [] (imap pair used).

Definition Counters_Clone (cc : list Counter) : outcome (list Counter) :=
  foldM (λ res '(k, v), slice_put res k (Counter_Clone v)) [] (imap pair cc).

(** * The collector *)

Record CounterCollector := mkCollector {
  counters : Counters;
  smtLevels : Z;
  isDeploy : bool;
  forkId : Z;
}.

Definition with_counters (cc : CounterCollector) (c : Counters) : CounterCollector :=
  mkCollector c (smtLevels cc) (isDeploy cc) (forkId cc).

Definition isOverflown (cc : CounterCollector) : bool :=
  existsb (λ k, remaining (get (counters cc) k) <? 0) all_keys.

(** A piece of the cost: a change of the collector. *)
Abbreviation cost := (CounterCollector → CounterCollector).

Definition andThen (f g : cost) : cost := λ cc, g (f cc).

Declare Scope cost_scope.
Delimit Scope cost_scope with cost.
Notation "f ;> g" := (andThen f g) (at level 60, right associativity) : cost_scope.
Local Open Scope cost_scope.

Definition Deduct (key : CounterKey) (amount : Z) : cost := λ cc,
  let c := get (counters cc) key in
  with_counters cc (set (counters cc) key
    (mkCounter (to_int (remaining c - amount)) (to_int (used c + amount)) (name c) (initialAmount c))).

Definition no_cost : cost := λ cc, cc.
Definition cost_if (b : bool) (f : cost) : cost := if b then f else no_cost.

(** Costs that depend on the settings of the collector. *)
Definition levels (f : Z → cost) : cost := λ cc, f (smtLevels cc) cc.
Definition deploying (f : bool → cost) : cost := λ cc, f (isDeploy cc) cc.
Definition fork (f : Z → cost) : cost := λ cc, f (forkId cc) cc.

(** [multiCall]: [n] iterations are left, [i] have run. *)
Fixpoint multiCall_loop (call : cost) (n : nat) (i : Z) (cc : CounterCollector) : CounterCollector :=
  match n with
  | O => cc
  | S n =>
      if (i mod 1000 =? 0) && isOverflown cc then cc
      else multiCall_loop call n (i + 1) (call cc)
  end.

Definition multiCall (call : cost) (times : Z) : cost := multiCall_loop call (Z.to_nat times) 0.

(** A loop without the test of multiCall. *)
Definition repeat_cost (n : Z) (f : cost) : cost := Nat.iter (Z.to_nat n) f.

(** * Limits *)

Definition ForkID10 : Z := 10.
Definition ForkID11 : Z := 11.
Definition ForkId13Durian : Z := 13.
Definition MCPL : Z := 23.
Definition stepDeduction : Z := 200.
Definition MaxInt32 : Z := 2 ^ 31 - 1.

Record counterLimits := mkLimits {
  totalSteps : Z; arith : Z; binary : Z; memAlign : Z; keccaks : Z; padding : Z; poseidon : Z; sha256 : Z;
}.

Definition unlimitedCounters : counterLimits :=
  mkLimits MaxInt32 MaxInt32 MaxInt32 MaxInt32 MaxInt32 MaxInt32 MaxInt32 MaxInt32.

Definition createCountrsByLimits (c : counterLimits) : Counters :=
  mkCounters
    (mkCounter (totalSteps c) 0 "defaultTotalSteps" (totalSteps c))
    (mkCounter (arith c) 0 "arith" (arith c))
    (mkCounter (binary c) 0 "binary" (binary c))
    (mkCounter (memAlign c) 0 "memAlign" (memAlign c))
    (mkCounter (keccaks c) 0 "keccaks" (keccaks c))
    (mkCounter (padding c) 0 "padding" (padding c))
    (mkCounter (poseidon c) 0 "poseidon" (poseidon c))
    (mkCounter (sha256 c) 0 "sha256" (sha256 c)).

Definition MinPercentage : Z := 20.
Definition MaxPercentage : Z := 100.

(** The new value of gCounterLimitPercentage. *)
Definition SetBatchCounterLimitPercentage (factor : Z) : outcome Z :=
  if (factor <? MinPercentage) || (MaxPercentage <? factor)
  then Err "counter limits percentage should be between 20 and 100"
  else Ok factor.

Definition rewriteTotalSteps (gCounterLimitPercentage totalSteps : Z) : Z :=
  let percentage := f64_div (f64_of_Z gCounterLimitPercentage) (f64_of_Z 100) in
  f64_floor (f64_mul (f64_of_Z totalSteps) percentage).

Definition getTotalSteps (gCounterLimitPercentage forkId : Z) : Z :=
  if forkId <? ForkID10 then Z.shiftl 1 23
  else
    let totalSteps := if forkId =? ForkID10 then Z.shiftl 1 24 else Z.shiftl 1 25 in
    rewriteTotalSteps gCounterLimitPercentage (totalSteps - stepDeduction).

Definition safetyPercentage (forkId : Z) : f64 :=
  if forkId =? ForkID10 then f64_of_ratio 25 1000
  else if forkId =? ForkID11 then f64_of_ratio 125 10000
  else f64_of_ratio 5 100.

Definition applyDeduction (forkId input : Z) : Z :=
  let asFloat := f64_of_Z input in
  let reduction := f64_mul asFloat (safetyPercentage forkId) in
  f64_ceil (f64_sub asFloat reduction).

Definition getCounterLimits (gCounterLimitPercentage forkId : Z) : Counters :=
  let totalSteps := getTotalSteps gCounterLimitPercentage forkId in
  let arith := applyDeduction forkId (Z.shiftr totalSteps 5) in
  createCountrsByLimits (mkLimits
    (applyDeduction forkId totalSteps)
    (if arith <? 500000 then 500000 else arith)
    (applyDeduction forkId (Z.shiftr totalSteps 4))
    (applyDeduction forkId (Z.shiftr totalSteps 5))
    (applyDeduction forkId (floor_div totalSteps 155286 * 44))
    (applyDeduction forkId (floor_div totalSteps 56))
    (applyDeduction forkId (floor_div totalSteps 31))
    (applyDeduction forkId (floor_div (totalSteps - 1) 31488 * 7))).

(** The bit length of [2 ^ smtMaxLevel + 50000], at least [minValue], scaled. *)
Definition calculateSmtLevels (smtMaxLevel minValue : Z) (mcpReduction : f64) : Z :=
  let binaryLength := Z.log2 (2 ^ smtMaxLevel + 50000) + 1 in
  let binaryLength := if binaryLength <? minValue then minValue else binaryLength in
  f64_floor (f64_mul (f64_of_Z binaryLength) mcpReduction).

Definition NewUnlimitedCounterCollector : CounterCollector :=
  mkCollector (createCountrsByLimits unlimitedCounters) 256 false 0.

Definition NewCounterCollector (gCounterLimitPercentage smtLevels forkId : Z) : CounterCollector :=
  mkCollector (getCounterLimits gCounterLimitPercentage forkId) smtLevels false forkId.

(** * The cost of the building blocks *)

Definition offsetUtil : cost := Deduct KS 10 ;> Deduct KB 1.
Definition divArith : cost := Deduct KS 40 ;> Deduct KB 3 ;> Deduct KA 1.
Definition SHRarith : cost := Deduct KS 40 ;> Deduct KB 2 ;> Deduct KA 1 ;> divArith.
Definition SHLarith : cost := Deduct KS 40 ;> Deduct KB 2 ;> Deduct KA 2.
Definition mLoadX : cost := Deduct KS 30 ;> Deduct KB 2 ;> Deduct KM 1 ;> offsetUtil ;> SHRarith ;> SHLarith.
Definition addBatchHashData : cost := Deduct KS 10.

Definition getLenBytes (l : Z) : cost :=
  Deduct KS (l * 7 + 12) ;> Deduct KB (l * 1) ;> multiCall SHRarith l.

Definition addHashTx : cost := Deduct KS 10.
Definition addL2HashTx : cost := Deduct KS 10.

Definition addBatchHashByteByByte : cost :=
  Deduct KS 25 ;> Deduct KB 1 ;> SHRarith ;> addBatchHashData.

Definition failAssert : cost := Deduct KS 2.
Definition consolidateBlock : cost := Deduct KS 20 ;> Deduct KB 2 ;> Deduct KP (2 * MCPL).

Definition finishBatchProcessing : cost :=
  Deduct KS 200 ;> Deduct KK 2 ;> levels (Deduct KP) ;> Deduct KB 2.

Definition isColdAddress : cost :=
  Deduct KS 100 ;>
  fork (λ f, if ForkId13Durian <=? f then Deduct KB (3 + 1) else Deduct KB (2 + 1)) ;>
  Deduct KP (2 * MCPL).

Definition addArith : cost := Deduct KS 10 ;> Deduct KB 1.
Definition subArith : cost := Deduct KS 10 ;> Deduct KB 1.
Definition mulArith : cost := Deduct KS 40 ;> Deduct KB 1 ;> Deduct KA 1.
Definition fillBlockInfoTreeWithTxReceipt : cost := Deduct KS 20 ;> Deduct KP (3 * MCPL).
Definition moveBalances (smtLevels : Z) : cost := Deduct KS 25 ;> Deduct KB (3 + 2) ;> Deduct KP (4 * smtLevels).
Definition checkBytecodeStartsEF : cost := Deduct KS 20 ;> mLoadX ;> SHRarith.

Definition mLoad32 : cost :=
  Deduct KS 40 ;> Deduct KB 2 ;> Deduct KM 1 ;> offsetUtil ;> SHRarith ;> SHLarith.

Definition hashPoseidonLinearFromMemoryLoop : cost := Deduct KS 8 ;> mLoad32.

Definition hashPoseidonLinearFromMemory (memSize : Z) : cost :=
  Deduct KS 50 ;> Deduct KB (1 + 1) ;> Deduct KP (ceil_div (to_int (memSize + 1)) 56) ;>
  Deduct KD (ceil_div (to_int (memSize + 1)) 56) ;> divArith ;>
  multiCall hashPoseidonLinearFromMemoryLoop (Z.shiftr memSize 5) ;> mLoadX ;> SHRarith.

Definition maskAddress : cost := Deduct KS 6 ;> Deduct KB 1.

Definition processContractCall (smtLevels bytecodeLength : Z) (isDeploy isCreate isCreate2 : bool) : cost :=
  Deduct KS 40 ;> Deduct KB (4 + 1) ;> Deduct KP 1 ;> Deduct KD 1 ;> Deduct KP (2 * smtLevels) ;>
  moveBalances smtLevels ;>
  (if isDeploy || isCreate || isCreate2 then
     Deduct KS 15 ;> Deduct KB 2 ;> Deduct KP (2 * smtLevels) ;> checkBytecodeStartsEF ;>
     hashPoseidonLinearFromMemory bytecodeLength ;>
     (if isCreate then Deduct KS 40 ;> Deduct KK 1 ;> maskAddress
      else cost_if isCreate2
        (Deduct KS 40 ;> divArith ;> Deduct KK (ceil_div (to_int (bytecodeLength + 1)) 136 + 1) ;>
         multiCall mLoad32 (Z.shiftr bytecodeLength 5) ;> mLoadX ;> SHRarith ;> Deduct KK 1 ;> maskAddress))
   else
     Deduct KP (ceil_div (to_int (bytecodeLength + 1)) 56) ;> Deduct KD (ceil_div (to_int (bytecodeLength + 1)) 56) ;>
     cost_if (56 <=? bytecodeLength) divArith).

Definition setupNewBlockInfoTree : cost := Deduct KS 40 ;> Deduct KB 7 ;> Deduct KP (6 * MCPL).
Definition verifyMerkleProof_cost : cost := Deduct KS 250 ;> Deduct KB 1 ;> Deduct KK 33.

Definition processChangeL2Block (verifyMerkleProof : bool) : cost :=
  Deduct KS 70 ;> Deduct KB (4 + 4) ;> levels (λ l, Deduct KP (6 * l)) ;> Deduct KK 2 ;>
  consolidateBlock ;> setupNewBlockInfoTree ;> cost_if verifyMerkleProof verifyMerkleProof_cost.

Definition readFromCallDataOffset : cost := Deduct KS 25 ;> mLoadX.

Definition mStore32 : cost :=
  Deduct KS 80 ;> Deduct KB 1 ;> Deduct KM 1 ;> offsetUtil ;> multiCall SHRarith 2 ;> multiCall SHLarith 2.
Definition mStoreX : cost :=
  Deduct KS 80 ;> Deduct KB 1 ;> Deduct KM 1 ;> offsetUtil ;> multiCall SHRarith 2 ;> multiCall SHLarith 2.

Definition decodeChangeL2BlockTx : cost := Deduct KS 20 ;> multiCall addBatchHashData 3.

(** * Elliptic curves *)

Definition fnec : Z := 0xFFFFFFFFFFFFFFFFFFFFFFFFFFFFFFFEBAAEDCE6AF48A03BBFD25E8CD0364141.
Definition fpec : Z := 0xFFFFFFFFFFFFFFFFFFFFFFFFFFFFFFFFFFFFFFFFFFFFFFFFFFFFFFFEFFFFFC2F.
Definition fnecMinusOne : Z := fnec - 1.
Definition fnecHalf : Z := fnec / 2.

(** ecRecover; [Sqrt] of uint256 is the integer square root and its result is
    never nil, so [r2] is set to the largest 256-bit number. *)
Definition ecRecover (v r s : Z) (isPrecompiled : bool) : cost :=
  let upperLimit := if negb isPrecompiled then fnecHalf else fnecMinusOne in
  let fnecCheck := fnecMinusOne <? r in
  let upperLimitCheck := upperLimit <? s in
  if (u64 r =? 0) || (u64 s =? 0) || fnecCheck || upperLimitCheck ||
     (negb (u64 v =? 27) && negb (u64 v =? 28)) then
    Deduct KS 45 ;> Deduct KA 2 ;> Deduct KB 8
  else
    let c := ((r ^ 3 mod 2 ^ 256 + 7) mod 2 ^ 256) mod fpec in
    let sqrt_c := Some (Z.sqrt c) in
    let r2 := match sqrt_c with
              | Some _ => 0xFFFFFFFFFFFFFFFFFFFFFFFFFFFFFFFFFFFFFFFFFFFFFFFFFFFFFFFFFFFFFFFF
              | None => (- r) mod 2 ^ 256
              end in
    if r2 <? fpec then Deduct KS 4527 ;> Deduct KA 1014 ;> Deduct KB 10
    else Deduct KS 6294 ;> Deduct KA 528 ;> Deduct KB 523 ;> Deduct KK 1.

Definition preEcRecover (v r s : Z) : cost :=
  Deduct KS 35 ;> Deduct KB 1 ;> multiCall readFromCallDataOffset 4 ;> ecRecover v r s true ;>
  mStore32 ;> mStoreX.

Definition ecAdd : cost := Deduct KS 800 ;> Deduct KB 50 ;> Deduct KA 50.

Definition preECAdd : cost :=
  Deduct KS 50 ;> Deduct KB 1 ;> multiCall readFromCallDataOffset 4 ;> multiCall mStore32 4 ;> mStoreX ;> ecAdd.

Definition ecMul : cost := Deduct KS 175000 ;> Deduct KB 20000 ;> Deduct KA 20000.

Definition preECMul : cost :=
  Deduct KS 50 ;> Deduct KB 1 ;> multiCall readFromCallDataOffset 3 ;> multiCall mStore32 4 ;> mStoreX ;> ecMul.

Definition ecPairing (inputsCount : Z) : cost :=
  Deduct KS (16 + inputsCount * 200000 + 175000) ;> Deduct KB (inputsCount * 4100 + 750) ;>
  Deduct KA (inputsCount * 15000 + 17500).

Definition preECPairing (inputsCount : Z) : cost :=
  Deduct KS 50 ;> Deduct KB 1 ;> multiCall readFromCallDataOffset 6 ;> divArith ;> mStore32 ;> mStoreX ;>
  ecPairing inputsCount.

(** ** secp256r1

    The package variables are pointers to big integers.  [SECP256R1_N_MINUS_ONE]
    is the object [SECP256R1_N] after a subtraction in place, and so is
    [SECP256R1_P_MINUS_ONE]: after initialisation the three names stand for one
    object, which holds the value assigned last. *)

Record secp256r1 := mkSecp { o_N : Z; o_P : Z; o_A : Z; o_B : Z }.

Definition secp_literals : secp256r1 :=
  mkSecp 0xffffffff00000000ffffffffffffffffbce6faada7179e84f3b9cac2fc632551
    0xffffffff00000001000000000000000000000000ffffffffffffffffffffffff
    0xffffffff00000001000000000000000000000000fffffffffffffffffffffffc
    0x5ac635d8aa3a93e7b3ebbd55769886bc651d06b0cc53b0f63bce3c3e27d2604b.

Definition secp_init (o : secp256r1) : secp256r1 :=
  let o := mkSecp (o_N o - 1) (o_P o) (o_A o) (o_B o) in
  mkSecp (o_P o - 1) (o_P o) (o_A o) (o_B o).

Definition secp_vars : secp256r1 := secp_init secp_literals.
Definition SECP256R1_N_MINUS_ONE : Z := o_N secp_vars.
Definition SECP256R1_P_MINUS_ONE : Z := o_N secp_vars.
Definition SECP256R1_P : Z := o_P secp_vars.
Definition SECP256R1_A : Z := o_A secp_vars.
Definition SECP256R1_B : Z := o_B secp_vars.

(** [new(big.Int).Mul(x, A).Add(x, B)] is [x + B]: Add overwrites the product. *)
Definition p256verify (r s x y : Z) : cost :=
  if r =? 0 then Deduct KS 13 ;> Deduct KB 1
  else if SECP256R1_N_MINUS_ONE <? r then Deduct KS 15 ;> Deduct KB 2
  else if s =? 0 then Deduct KS 17 ;> Deduct KB 3
  else if SECP256R1_N_MINUS_ONE <? s then Deduct KS 19 ;> Deduct KB 4
  else if SECP256R1_P_MINUS_ONE <? x then Deduct KS 22 ;> Deduct KB 5
  else if SECP256R1_P_MINUS_ONE <? y then Deduct KS 24 ;> Deduct KB 6
  else if (x =? 0) && (y =? 0) then Deduct KS 29 ;> Deduct KB 8
  else
    let aux_x3 := x ^ 3 mod SECP256R1_P in
    let aux_ax_b := x + SECP256R1_B in
    let aux_x3_ax_b := (aux_x3 + aux_ax_b) mod SECP256R1_P in
    let aux_y2 := y ^ 2 mod SECP256R1_P in
    if negb (aux_y2 =? aux_x3_ax_b) then Deduct KS 104 ;> Deduct KB 15 ;> Deduct KA 12
    else Deduct KS 7718 ;> Deduct KB 22 ;> Deduct KA 531.

Definition preP256Verify (r s x y : Z) : cost :=
  Deduct KS 50 ;> Deduct KB 1 ;> multiCall readFromCallDataOffset 5 ;> p256verify r s x y ;> mStore32 ;> mStoreX.

(** * Modular exponentiation (virtual_counters_util.go) *)

(** [big.NewInt(0).SetUint64(uint64(in))]. *)
Definition newInt (i : Z) : Z := u64 i.

(** The product starts from [newInt(0)] and does not use [x]. *)
Definition newMul (x : Z) (vals : list Z) : Z := foldl Z.mul (newInt 0) vals.

(** computeLenThisBase shifts its argument down to zero: the result and the new
    value of the argument. *)
Fixpoint len_loop (fuel : nat) (x length : Z) : Z * Z :=
  match fuel with
  | O => (length, x)
  | S fuel => if 0 <? x then len_loop fuel (Z.shiftr x 256) (length + 1) else (length, x)
  end.

Definition computeLenThisBase (x : Z) : Z * Z :=
  if x =? 0 then (1, x) else len_loop (Z.to_nat (Z.log2 x + 1)) x 0.

(** The three results of setupAndFirstDivCounters; the calls of
    computeLenThisBase are in the order of the code, each on what the previous
    ones left of [q_b_m] and [r_b_m]. *)
Definition setupAndFirstDivCounters (lenB lenM q_b_m r_b_m : Z) : Z * Z * Z :=
  let '(lenQ1, q_b_m) := computeLenThisBase q_b_m in
  let '(lenR1, r_b_m) := computeLenThisBase r_b_m in
  let steps := newInt 84 + newInt 2 + newMul (newInt 10) [newInt lenB] + newMul (newInt 3) [newInt lenM] +
    newMul (newInt (8 + 19 * lenM)) [newInt lenQ1] + newMul (newInt 12) [newInt lenR1] in
  let '(lenR2, r_b_m) := computeLenThisBase r_b_m in
  let '(lenQ2, q_b_m) := computeLenThisBase q_b_m in
  let binaries := newInt 4 - newInt lenM + newInt lenR2 + newMul (newInt 2) [newInt lenQ2; newInt lenM] in
  let '(lenQ3, q_b_m) := computeLenThisBase q_b_m in
  let ariths := newInt (lenM * lenQ3) in
  (steps, binaries, ariths).

Definition halfLoopCounters (lenB lenM lenE lenQE2 : Z) : Z * Z * Z :=
  let steps := newInt 153 + newMul (newInt 82) [newInt lenM] + newMul (newInt 6) [newInt lenE] +
    newInt (Z.quot (to_int (80 * lenM * (lenM - 1))) 2) + newMul (newInt 19) [newInt (lenM * lenM)] +
    newMul (newInt 25) [lenQE2] in
  let binaries := newInt 9 + newMul (newInt 6) [newInt lenM] + newInt (Z.quot (to_int (23 * lenM * (lenM - 1))) 2) +
    newMul (newInt 2) [newInt (lenM * lenM)] + newMul (newInt 3) [lenQE2] in
  let ariths := newInt (-1) + newMul (newInt 2) [newInt lenM] + newInt (Z.quot (to_int (2 * lenM * (lenM - 1))) 2) +
    newInt (lenM * lenM) in
  (steps, binaries, ariths).

Definition fullLoopCounters (lenB lenM lenE lenQE2 : Z) : Z * Z * Z :=
  let steps := newInt 263 + newMul (newInt 114) [newInt lenM] + newMul (newInt 6) [newInt lenE] +
    newInt (Z.quot (to_int (80 * lenM * (lenM - 1))) 2) + newMul (newInt 57) [newInt (lenM * lenM)] +
    newMul (newInt 25) [lenQE2] in
  let binaries := newInt 17 + newMul (newInt 3) [newInt lenM] + newInt (Z.quot (to_int (23 * lenM * (lenM - 1))) 2) +
    newMul (newInt 6) [newInt (lenM * lenM)] + newMul (newInt 3) [lenQE2] in
  let ariths := newInt (-1) + newMul (newInt 2) [newInt lenM] + newInt (Z.quot (to_int (2 * lenM * (lenM - 1))) 2) +
    newMul (newInt 3) [newInt (lenM * lenM)] in
  (steps, binaries, ariths).

Definition combineResults (nTimesOdd nTimesEven firstDiv halfLoop fullLoop : Z) : Z :=
  firstDiv + nTimesEven * halfLoop + nTimesOdd * fullLoop.

(** The number of odd values among [E], [E >> 1], ... while positive. *)
Fixpoint odd_loop (fuel : nat) (E nTimesOdd : Z) : Z :=
  match fuel with
  | O => nTimesOdd
  | S fuel => if 0 <? E then odd_loop fuel (Z.shiftr E 1) (nTimesOdd + Z.land E 1) else nTimesOdd
  end.

Definition expectedModExpCounters (lenB lenE lenM B E M : Z) : Z * Z * Z :=
  let lenQE2 := floor_div lenE 2 in
  let nTimesOdd := odd_loop (Z.to_nat (Z.log2 E + 1)) E 0 in
  let nTimesEven := u64 lenE * 256 in
  let '(sF, bF, aF) := setupAndFirstDivCounters lenB lenM (B / M) (B mod M) in
  let '(sH, bH, aH) := halfLoopCounters lenB lenM lenE lenQE2 in
  let '(sL, bL, aL) := fullLoopCounters lenB lenM lenE lenQE2 in
  (combineResults nTimesOdd nTimesEven sF sH sL,
   combineResults nTimesOdd nTimesEven bF bH bL,
   combineResults nTimesOdd nTimesEven aF aH aL).

Definition modExp (bLen mLen eLen base exponent modulus : Z) : cost :=
  fork (λ f,
    let '(steps, binary, arith) :=
      if ForkId13Durian <=? f
      then expectedModExpCounters (ceil_div bLen 32) (ceil_div eLen 32) (ceil_div mLen 32) base exponent modulus
      else expectedModExpCounters (ceil_div bLen 32) (ceil_div mLen 32) (ceil_div eLen 32) base exponent modulus in
    Deduct KS (to_int steps) ;> Deduct KB (to_int binary) ;> Deduct KA (to_int arith)).

Definition preModExpLoop : cost := Deduct KS 8 ;> mStore32.

Definition preModExp (callDataLength returnDataLength bLen mLen eLen base exponent modulus : Z) : cost :=
  Deduct KS 100 ;> Deduct KB 20 ;> multiCall readFromCallDataOffset 4 ;> SHRarith ;> multiCall addArith 2 ;>
  multiCall divArith 3 ;> multiCall mulArith 3 ;> subArith ;> multiCall SHLarith 2 ;> multiCall mStoreX 2 ;>
  multiCall preModExpLoop (Z.shiftr callDataLength 5) ;> multiCall preModExpLoop (Z.shiftr returnDataLength 5) ;>
  cost_if (0 <? u64 modulus) (modExp bLen mLen eLen base exponent modulus).

(** * Hashing and copying *)

Definition preSha256Loop : cost := Deduct KS 11 ;> readFromCallDataOffset.

Definition preSha256 (callDataLength : Z) : cost :=
  Deduct KS 100 ;> Deduct KB 1 ;> Deduct KSHA (ceil_div (to_int (callDataLength + 8)) 64) ;> multiCall divArith 2 ;>
  mStore32 ;> mStoreX ;> multiCall preSha256Loop (Z.shiftr callDataLength 5) ;> readFromCallDataOffset ;> SHRarith.

Definition identityLoop : cost := Deduct KS 8 ;> readFromCallDataOffset ;> mStore32.
Definition identityReturnLoop : cost := Deduct KS 12 ;> mLoad32 ;> mStore32.

Definition preIdentity (callDataLength returnDataLength : Z) : cost :=
  Deduct KS 45 ;> Deduct KB 2 ;> divArith ;> multiCall identityLoop (Z.shiftr callDataLength 5) ;>
  readFromCallDataOffset ;> mStoreX ;> multiCall identityReturnLoop (Z.shiftr returnDataLength 5) ;> mLoadX ;> mStoreX.

Definition abs : cost := Deduct KS 10 ;> Deduct KB 2.
Definition utilMulMod : cost := Deduct KS 50 ;> Deduct KB 4 ;> Deduct KA 2 ;> mulArith.

Definition getLenBits (inputLength : Z) : cost :=
  Deduct KS 12 ;> repeat_cost inputLength (Deduct KS 9 ;> Deduct KB 1 ;> divArith).

Definition expAd (inputLength : Z) : cost :=
  Deduct KS 30 ;> Deduct KB 2 ;> getLenBits inputLength ;>
  repeat_cost inputLength (Deduct KS 12 ;> Deduct KB 2 ;> divArith ;> mulArith ;> mulArith).

Definition saveMem (inputSize : Z) : cost :=
  if inputSize =? 0 then Deduct KS 12 ;> Deduct KB 1
  else Deduct KS 50 ;> Deduct KB 5 ;> mulArith ;> divArith.

Definition opCalldataCopyLoop : cost := Deduct KS 30 ;> readFromCallDataOffset ;> offsetUtil ;> Deduct KM 1.
Definition opCodeCopyLoop : cost := Deduct KS 30 ;> Deduct KB 2 ;> Deduct KM 1 ;> offsetUtil.
Definition returnDataCopyLoop : cost := Deduct KS 10 ;> mLoad32 ;> mStore32.
Definition shrArithBit : cost := Deduct KS 30 ;> Deduct KB 2 ;> divArith.
Definition shlArithBit : cost := Deduct KS 50 ;> Deduct KB 2 ;> Deduct KA 2.
Definition computeGasSendCall : cost := Deduct KS 25 ;> Deduct KB 2.
Definition saveCalldataPointer : cost := Deduct KS 6.
Definition checkpointBlockInfoTree : cost := Deduct KS 4.
Definition checkpointTouched : cost := Deduct KS 2.
Definition isEmptyAccount : cost := Deduct KS 30 ;> Deduct KB 3 ;> levels (λ l, Deduct KP (3 * l)).
Definition returnLoop : cost := Deduct KS 12 ;> mLoad32 ;> mStore32.
Definition revertTouched : cost := Deduct KS 2.
Definition revertBlockInfoTree : cost := Deduct KS 4.
Definition revertLoop : cost := Deduct KS 12 ;> mLoad32 ;> mStore32.
Definition sha3Loop : cost := Deduct KS 8 ;> mLoad32.
Definition logLoop : cost := Deduct KS 10 ;> mLoad32.
Definition fillBlockInfoTreeWithLog : cost := Deduct KS 11 ;> Deduct KP MCPL ;> Deduct KB 1.
Definition isColdSlot : cost := Deduct KS 20 ;> Deduct KB 1 ;> Deduct KP (2 * MCPL).

Definition readPush (num : Z) : cost :=
  if num =? 1 then Deduct KS 2
  else if num =? 2 then Deduct KS 4
  else if num =? 3 then Deduct KS 5
  else if num =? 4 then Deduct KS 6
  else if num =? 32 then Deduct KS 45
  else Deduct KS (6 + num * 2).

Fixpoint first_nonzero (input : list byte) (i : Z) : Z :=
  match input with
  | [] => 0
  | b :: rest => if bool_decide (b = x00) then first_nonzero rest (i + 1) else i
  end.

Definition getRelevantNumberBytes (input : list byte) : Z :=
  Z.of_nat (length input) - first_nonzero input 0.
