(* ===== verification/ZkOpcodes.v ===== *)
(** The cost of every opcode (core/vm/zk_counters.go, the op functions and the
    table SimpleCounterOperations).

    An opcode reads its sizes from the EVM stack and the code sizes and nonces
    from the state; it fails only when the stack is too short, which the
    interpreter excludes before it runs an opcode.

    The end of the file is the construction of the interpreter: its jump table is an
    array of pointers to operations, which live in a store.  The table of a fork is
    shared; NewZKEVMInterpreter copies its operations and then wraps the copies in
    place.  [RunZk_loop] is the main loop of the interpreter over such a table. *)

From stdpp Require Import gmap.
From Stdlib Require Import Strings.Byte.
From S2P Require Import Prelude Bytes Float64 ZkCounters.

Local Open Scope Z_scope.
Local Open Scope cost_scope.

(** The parts of ScopeContext that the costs read; the last element of the stack
    is its top. *)
Record ScopeContext := mkScope {
  IsCreate : bool;
  IsCreate2 : bool;
  CallerAddress : Z;
  Stack : list Z;
}.

(** The state of the EVM apart from the stack and the counters: the world state, the
    contract, its gas, the memory, the program counter.  The class holds what the
    costs and the main loop of the interpreter use of it. *)
Class EVMState (X : Type) := {
  GetCodeSize : X → Z → Z;
  GetNonce : X → Z → Z;
  Cancelled : X → bool;
  GetOp : X → Z;                     (* contract.GetOp(_pc) *)
  UseGas : X → Z → option X;         (* [None] when the gas does not suffice *)
  Resize : X → Z → X;                (* mem.Resize *)
  incPc : X → X;                     (* _pc++ *)
}.

(** An operation gets pointers to the program counter, the interpreter and the
    scope; the counter functions have the collector as well.  All of them are parts
    of one machine, of which an operation may change any. *)
Record machine (X : Type) := mkMachine { m_cc : CounterCollector; m_scope : ScopeContext; m_evm : X }.
Arguments mkMachine {X} m_cc m_scope m_evm.
Arguments m_cc {X} m.
Arguments m_scope {X} m.
Arguments m_evm {X} m.

Definition set_cc {X} (m : machine X) (cc : CounterCollector) : machine X := mkMachine cc (m_scope m) (m_evm m).
Definition set_evm {X} (m : machine X) (x : X) : machine X := mkMachine (m_cc m) (m_scope m) x.

(** The machine after an operation, the bytes and the error that it returns. *)
Record result (X : Type) := mkResult { r_machine : machine X; r_ret : list byte; r_err : option string }.
Arguments mkResult {X} r_machine r_ret r_err.
Arguments r_machine {X} r.
Arguments r_ret {X} r.
Arguments r_err {X} r.

Definition executionFunc (X : Type) : Type := machine X → outcome (result X).

(** A change of the collector, then [return nil, nil]. *)
Definition charged {X} (m : machine X) (f : cost) : outcome (result X) := Ok (mkResult (set_cc m (f (m_cc m))) [] None).

(** [&st.Data[st.Len()-position]] *)
Definition PeekAt (s : ScopeContext) (position : Z) : outcome Z :=
  go_index (Stack s) (Z.of_nat (length (Stack s)) - position).

Definition opCode (s : ScopeContext) : cost :=
  Deduct KS 12 ;>
  deploying (λ deploy, cost_if (IsCreate s || IsCreate2 s || deploy) (mLoadX ;> SHRarith)).

Section Opcodes.
Context {X : Type} {E : EVMState X}.

(** An opcode with a cost that depends on the scope only. *)
Definition simple (f : cost) : executionFunc X := λ m, charged m (opCode (m_scope m) ;> f).

Definition opAdd := simple (Deduct KS 10 ;> Deduct KB 1).
Definition opMul := simple (Deduct KS 10 ;> mulArith).
Definition opSub := simple (Deduct KS 10 ;> Deduct KB 1).
Definition opDiv := simple (Deduct KS 15 ;> divArith).
Definition opSDiv := simple (Deduct KS 25 ;> Deduct KB 1 ;> multiCall abs 2 ;> divArith).
Definition opMod := simple (Deduct KS 20 ;> divArith).
Definition opSMod := simple (Deduct KS 20 ;> Deduct KB 1 ;> multiCall abs 2 ;> divArith).
Definition opAddMod := simple (Deduct KS 30 ;> Deduct KB 3 ;> Deduct KA 1).
Definition opMulMod := simple (Deduct KS 10 ;> utilMulMod).

Definition opExp : executionFunc X := λ m,
  let s := m_scope m in
  exponent ← PeekAt s 2;
  let exponentLength := if exponent =? 0 then 1 else Z.of_nat (length (big_bytes exponent)) in
  charged m (opCode s ;> Deduct KS 10 ;> getLenBytes exponentLength ;> expAd (exponentLength * 8)).

Definition opSignExtend := simple (Deduct KS 20 ;> Deduct KB 6 ;> levels (λ l, Deduct KP (2 * l))).
Definition opBlockHash := simple (Deduct KS 15 ;> levels (Deduct KP) ;> Deduct KK 1).
Definition opCoinbase := simple (Deduct KS 5).
Definition opTimestamp := simple (Deduct KS 5).
Definition opNumber := simple (Deduct KS 5).
Definition opDifficulty := simple (Deduct KS 5).
Definition opGasLimit := simple (Deduct KS 5).
Definition opChainId := simple (Deduct KS 5).
Definition opCalldataLoad := simple (Deduct KS 15 ;> readFromCallDataOffset).
Definition opCalldataSize := simple (Deduct KS 10).

Definition opCalldataCopy : executionFunc X := λ m,
  let s := m_scope m in
  x ← PeekAt s 3;
  let inputLen := to_int x in
  charged m (cost_if (negb (inputLen =? 0))
    (opCode s ;> Deduct KS 100 ;> Deduct KB 2 ;> saveMem inputLen ;> offsetUtil ;>
     multiCall opCalldataCopyLoop (Z.shiftr inputLen 5) ;> readFromCallDataOffset ;> multiCall mStoreX 2)).

Definition opCodeSize := simple (Deduct KS 10 ;> levels (Deduct KP)).
Definition opExtCodeSize := simple (Deduct KS 10 ;> levels (Deduct KP) ;> maskAddress ;> isColdAddress).

(** [Bytes20]: the low 20 bytes. *)
Definition address_of (x : Z) : Z := x mod 2 ^ 160.

Definition opExtCodeCopy : executionFunc X := λ m,
  let '(s, st) := (m_scope m, m_evm m) in
  a ← PeekAt s 1;
  let bytecodeLen := GetCodeSize st (address_of a) in
  x ← PeekAt s 4;
  let length := to_int x in
  charged m (cost_if (negb (length =? 0))
    (opCode s ;> Deduct KS 60 ;> maskAddress ;> isColdAddress ;>
     levels (λ l, Deduct KP (2 * l + ceil_div bytecodeLen 56)) ;> Deduct KD (ceil_div bytecodeLen 56) ;>
     multiCall divArith 2 ;> saveMem length ;> mulArith ;> Deduct KM length ;>
     multiCall opCodeCopyLoop length ;> Deduct KB 1)).

Definition opCodeCopy : executionFunc X := λ m,
  let '(s, st) := (m_scope m, m_evm m) in
  x ← PeekAt s 3;
  let length := to_int x in
  if negb (length =? 0) then
    let m := set_cc m (opCode s (m_cc m)) in
    if IsCreate s || isDeploy (m_cc m) then opCalldataCopy m
    else charged m (Deduct KS 40 ;> Deduct KB 3 ;> saveMem length ;> divArith ;> mulArith ;> multiCall opCodeCopyLoop length)
  else charged m no_cost.

Definition opReturnDataSize := simple (Deduct KS 11 ;> Deduct KB 1).

Definition opReturnDataCopy : executionFunc X := λ m,
  let s := m_scope m in
  x ← PeekAt s 3;
  let length := to_int x in
  charged m (cost_if (negb (length =? 0))
    (opCode s ;> Deduct KS 50 ;> Deduct KB 2 ;> saveMem length ;> divArith ;> mulArith ;>
     multiCall returnDataCopyLoop (Z.shiftr length 5) ;> mLoadX ;> mStoreX)).

Definition opExtCodeHash := simple (Deduct KS 10 ;> levels (Deduct KP) ;> maskAddress ;> isColdAddress).
Definition opLT := simple (Deduct KS 8 ;> Deduct KB 1).
Definition opGT := simple (Deduct KS 8 ;> Deduct KB 1).
Definition opSLT := simple (Deduct KS 8 ;> Deduct KB 1).
Definition opSGT := simple (Deduct KS 8 ;> Deduct KB 1).
Definition opEQ := simple (Deduct KS 8 ;> Deduct KB 1).
Definition opIsZero := simple (Deduct KS 8 ;> Deduct KB 1).
Definition opAnd := simple (Deduct KS 10 ;> Deduct KB 1).
Definition opOr := simple (Deduct KS 10 ;> Deduct KB 1).
Definition opXor := simple (Deduct KS 10 ;> Deduct KB 1).
Definition opNot := simple (Deduct KS 10 ;> Deduct KB 1).
Definition opByte := simple (Deduct KS 15 ;> Deduct KB 2 ;> SHRarith).
Definition opSHR := simple (Deduct KS 8 ;> Deduct KB 1 ;> shrArithBit).
Definition opSHL := simple (Deduct KS 8 ;> Deduct KB 1 ;> shlArithBit).
Definition opSAR := simple (Deduct KS 25 ;> Deduct KB 5 ;> shrArithBit).
Definition opStop := simple (Deduct KS 20).

(** The four charges before a call or a creation. *)
Definition before_call : cost :=
  computeGasSendCall ;> saveCalldataPointer ;> checkpointBlockInfoTree ;> checkpointTouched.

Definition nonce_length (st : X) (s : ScopeContext) : Z :=
  getRelevantNumberBytes (be_bytes 8 (u64 (GetNonce st (CallerAddress s) + 1))).

Definition opCreate : executionFunc X := λ m,
  let '(s, st) := (m_scope m, m_evm m) in
  x ← PeekAt s 3;
  let size := to_int x in
  charged m (opCode s ;> Deduct KS 70 ;> Deduct KB 3 ;> levels (λ l, Deduct KP (3 * l)) ;> saveMem size ;>
       getLenBytes (nonce_length st s) ;> before_call ;>
       levels (λ l, processContractCall l size false true false)).

Definition opCall : executionFunc X := λ m,
  let '(s, st) := (m_scope m, m_evm m) in
  addr ← PeekAt s 2;
  let toAddrBytecodeLength := GetCodeSize st (address_of addr) in
  i ← PeekAt s 5;
  o ← PeekAt s 7;
  charged m (opCode s ;> Deduct KS 80 ;> Deduct KB 5 ;> maskAddress ;> saveMem (to_int i) ;> saveMem (to_int o) ;>
       isColdAddress ;> isEmptyAccount ;> before_call ;>
       levels (λ l, processContractCall l toAddrBytecodeLength false false false)).

Definition opCallCode : executionFunc X := λ m,
  let '(s, st) := (m_scope m, m_evm m) in
  addr ← PeekAt s 2;
  let toAddrBytecodeLength := GetCodeSize st (address_of addr) in
  i ← PeekAt s 5;
  o ← PeekAt s 7;
  charged m (opCode s ;> Deduct KS 80 ;> Deduct KB 5 ;> maskAddress ;> saveMem (to_int i) ;> saveMem (to_int o) ;>
       isColdAddress ;> before_call ;>
       levels (λ l, processContractCall l toAddrBytecodeLength false false false)).

Definition opDelegateCall : executionFunc X := λ m,
  let '(s, st) := (m_scope m, m_evm m) in
  addr ← PeekAt s 2;
  let toAddrBytecodeLength := GetCodeSize st (address_of addr) in
  i ← PeekAt s 4;
  o ← PeekAt s 6;
  charged m (opCode s ;> Deduct KS 80 ;> maskAddress ;> saveMem (to_int i) ;> saveMem (to_int o) ;>
       isColdAddress ;> before_call ;>
       levels (λ l, processContractCall l toAddrBytecodeLength false false false)).

Definition opStaticCall : executionFunc X := λ m,
  let '(s, st) := (m_scope m, m_evm m) in
  addr ← PeekAt s 2;
  let toAddrBytecodeLength := GetCodeSize st (address_of addr) in
  i ← PeekAt s 4;
  o ← PeekAt s 6;
  charged m (opCode s ;> Deduct KS 80 ;> maskAddress ;> saveMem (to_int i) ;> saveMem (to_int o) ;>
       isColdAddress ;> before_call ;>
       levels (λ l, processContractCall l toAddrBytecodeLength false false false)).

Definition opCreate2 : executionFunc X := λ m,
  let '(s, st) := (m_scope m, m_evm m) in
  x ← PeekAt s 3;
  let inSize := to_int x in
  charged m (opCode s ;> Deduct KS 80 ;> Deduct KB 4 ;> levels (λ l, Deduct KP (2 * l)) ;> saveMem inSize ;> divArith ;>
       getLenBytes (nonce_length st s) ;> before_call ;>
       levels (λ l, processContractCall l inSize false false true)).

Definition opReturn : executionFunc X := λ m,
  let s := m_scope m in
  x ← PeekAt s 2;
  let returnSize := to_int x in
  charged m (opCode s ;> Deduct KS 30 ;> Deduct KB 1 ;> saveMem returnSize ;>
       deploying (λ deploy,
         if deploy || IsCreate s then
           cost_if (IsCreate s)
             (Deduct KS 25 ;> Deduct KB 2 ;> levels (λ l, Deduct KP (2 * l)) ;> checkBytecodeStartsEF ;>
              hashPoseidonLinearFromMemory returnSize)
         else multiCall returnLoop (Z.shiftr returnSize 5) ;> mLoadX ;> mStoreX)).

Definition opRevert : executionFunc X := λ m,
  let s := m_scope m in
  x ← PeekAt s 2;
  let size := to_int x in
  charged m (opCode s ;> Deduct KS 40 ;> Deduct KB 1 ;> revertTouched ;> revertBlockInfoTree ;> saveMem size ;>
       multiCall revertLoop (Z.shiftr size 5) ;> mLoadX ;> mStoreX).

Definition opSendAll :=
  simple (Deduct KS 60 ;> Deduct KB (2 + 1) ;> levels (λ l, Deduct KP (4 * l)) ;> maskAddress ;> isEmptyAccount ;>
          isColdAddress ;> addArith).
Definition opInvalid := simple (Deduct KS 50).
Definition opAddress := simple (Deduct KS 6).
Definition opSelfBalance := simple (Deduct KS 8 ;> levels (Deduct KP)).
Definition opBalance := simple (Deduct KS 8 ;> levels (Deduct KP) ;> maskAddress ;> isColdAddress).
Definition opOrigin := simple (Deduct KS 5).
Definition opCaller := simple (Deduct KS 5).
Definition opCallValue := simple (Deduct KS 5).
Definition opGasPrice := simple (Deduct KS 5).
Definition opGas := simple (Deduct KS 4).

Definition opSha3 : executionFunc X := λ m,
  let s := m_scope m in
  x ← PeekAt s 2;
  let size := to_int x in
  charged m (opCode s ;> Deduct KS 40 ;> Deduct KK (ceil_div (to_int (size + 1)) 136) ;> saveMem size ;> multiCall divArith 2 ;>
       mulArith ;> multiCall sha3Loop (Z.shiftr size 5) ;> mLoadX ;> SHRarith).

Definition checkJumpDest (s : ScopeContext) : cost :=
  Deduct KS 10 ;> Deduct KB 1 ;>
  deploying (λ deploy, cost_if (IsCreate s) (cost_if deploy (Deduct KB 1 ;> mLoadX))).

Definition opJump : executionFunc X := λ m, simple (Deduct KS 5 ;> checkJumpDest (m_scope m)) m.
Definition opJumpI : executionFunc X := λ m, simple (Deduct KS 10 ;> Deduct KB 1 ;> checkJumpDest (m_scope m)) m.
Definition opPC := simple (Deduct KS 4).
Definition opJumpDest := simple (Deduct KS 2).

Definition log : executionFunc X := λ m,
  let s := m_scope m in
  x ← PeekAt s 2;
  let size := to_int x in
  charged m (opCode s ;> Deduct KS (34 + 7 * 4) ;> saveMem size ;> mulArith ;> divArith ;>
       Deduct KP (ceil_div size 56 + 4) ;> Deduct KD (ceil_div size 56 + 4) ;>
       multiCall logLoop (Z.shiftr (to_int (size + 1)) 5) ;> mLoadX ;> SHRarith ;> fillBlockInfoTreeWithLog ;> Deduct KB 1).

Definition opLog0 : executionFunc X := log.
Definition opLog1 : executionFunc X := log.
Definition opLog2 : executionFunc X := log.
Definition opLog3 : executionFunc X := log.
Definition opLog4 : executionFunc X := log.

Definition opPush0 := simple (Deduct KS 4).

Definition opPush (num : Z) : executionFunc X := λ m,
  let s := m_scope m in
  charged m (opCode s ;> Deduct KS 2 ;>
       deploying (λ deploy,
         if IsCreate s || deploy then
           if IsCreate s then Deduct KS 20 ;> mLoadX ;> SHRarith
           else Deduct KS 10 ;> repeat_cost num (Deduct KS 10 ;> SHLarith)
         else Deduct KS 10 ;> readPush num)).

Definition opDup := simple (Deduct KS 6).
Definition opSwap := simple (Deduct KS 7).
Definition opPop := simple (Deduct KS 3).
Definition opMLoad := simple (Deduct KS 8 ;> saveMem 32 ;> mLoad32).
Definition opMStore := simple (Deduct KS 22 ;> Deduct KM 1 ;> saveMem 32 ;> offsetUtil).
Definition opMStore8 := simple (Deduct KS 13 ;> Deduct KM 1 ;> saveMem 1 ;> offsetUtil).
Definition opMSize := simple (Deduct KS 15 ;> divArith).
Definition opSLoad := simple (Deduct KS 10 ;> levels (Deduct KP) ;> isColdSlot).
Definition opSSTore := simple (Deduct KS 70 ;> Deduct KB 8 ;> levels (λ l, Deduct KP (3 * l)) ;> isColdSlot).

(** * The table of the costs, by opcode *)

Definition numbered (first : Z) (ops : list (executionFunc X)) : list (Z * executionFunc X) :=
  imap (λ i f, (first + Z.of_nat i, f)) ops.

Definition opPushGenerator (num : Z) : executionFunc X := opPush num.

Definition SimpleCounterOperations : list (Z * executionFunc X) :=
  (* STOP .. SIGNEXTEND *)
  numbered 0x00 [opStop; opAdd; opMul; opSub; opDiv; opSDiv; opMod; opSMod; opAddMod; opMulMod; opExp; opSignExtend] ++
  (* LT .. SAR *)
  numbered 0x10 [opLT; opGT; opSLT; opSGT; opEQ; opIsZero; opAnd; opOr; opXor; opNot; opByte; opSHL; opSHR; opSAR] ++
  (* KECCAK256 *)
  numbered 0x20 [opSha3] ++
  (* ADDRESS .. EXTCODEHASH *)
  numbered 0x30 [opAddress; opBalance; opOrigin; opCaller; opCallValue; opCalldataLoad; opCalldataSize; opCalldataCopy;
    opCodeSize; opCodeCopy; opGasPrice; opExtCodeSize; opExtCodeCopy; opReturnDataSize; opReturnDataCopy; opExtCodeHash] ++
  (* BLOCKHASH .. SELFBALANCE *)
  numbered 0x40 [opBlockHash; opCoinbase; opTimestamp; opNumber; opDifficulty; opGasLimit; opChainId; opSelfBalance] ++
  (* POP .. JUMPDEST *)
  numbered 0x50 [opPop; opMLoad; opMStore; opMStore8; opSLoad; opSSTore; opJump; opJumpI; opPC; opMSize; opGas; opJumpDest] ++
  (* PUSH0, PUSH1 .. PUSH32 *)
  numbered 0x5f (opPush0 :: map opPushGenerator (seqZ 1 32)) ++
  (* DUP1 .. DUP16, SWAP1 .. SWAP16 *)
  numbered 0x80 (replicate 16 opDup ++ replicate 16 opSwap) ++
  (* LOG0 .. LOG4 *)
  numbered 0xa0 [opLog0; opLog1; opLog2; opLog3; opLog4] ++
  (* CREATE, CALL, CALLCODE, RETURN, DELEGATECALL, CREATE2 *)
  numbered 0xf0 [opCreate; opCall; opCallCode; opReturn; opDelegateCall; opCreate2] ++
  [(0xfa, opStaticCall); (0xfd, opRevert); (0xfe, opInvalid); (0xff, opSendAll)].

(** [counterCalls[op]]; an opcode without a cost is nil. *)
Fixpoint counterCall (table : list (Z * executionFunc X)) (op : Z) : option (executionFunc X) :=
  match table with
  | [] => None
  | (k, f) :: table => if k =? op then Some f else counterCall table op
  end.

End Opcodes.

(** * The jump table of the interpreter *)

(** The struct of jump_table.go; the functions that may be nil are options. *)
Record operation (X : Type) := mkOperation {
  execute : executionFunc X;
  constantGas : Z;
  dynamicGas : option (machine X → Z → outcome (machine X * Z * option string));
  maxStack : Z;
  numPop : Z;
  numPush : Z;
  isPush : bool;
  isSwap : bool;
  isDup : bool;
  opNum : Z;
  memorySize : option (list Z → Z * bool);
}.
Arguments mkOperation {X} execute constantGas dynamicGas maxStack numPop numPush isPush isSwap isDup opNum memorySize.
Arguments execute {X} o.
Arguments constantGas {X} o.
Arguments dynamicGas {X} o.
Arguments maxStack {X} o.
Arguments numPop {X} o.
Arguments numPush {X} o.
Arguments isPush {X} o.
Arguments isSwap {X} o.
Arguments isDup {X} o.
Arguments opNum {X} o.
Arguments memorySize {X} o.

(** [o.execute = f] *)
Definition set_execute {X} (o : operation X) (f : executionFunc X) : operation X :=
  mkOperation f (constantGas o) (dynamicGas o) (maxStack o) (numPop o) (numPush o) (isPush o) (isSwap o) (isDup o)
    (opNum o) (memorySize o).

(** The operations in memory, by address, and an array of 256 pointers to them. *)
Abbreviation operations X := (gmap nat (operation X)).
Abbreviation JumpTable := (list (option nat)).

Section JumpTables.
Context {X : Type} {E : EVMState X}.

Definition deref_op (h : operations X) (p : nat) : outcome (operation X) :=
  match h !! p with Some o => Ok o | None => Panic end.

(** [opCopy := *op; copy[i] = &opCopy] *)
Definition copy_entry (st : operations X * JumpTable) (op : option nat) : outcome (operations X * JumpTable) :=
  let '(h, copy) := st in
  match op with
  | None => Ok (h, copy ++ [None])
  | Some p =>
      o ← deref_op h p;
      let q := fresh (dom h) in
      Ok (<[q := o]> h, copy ++ [Some q])
  end.

Definition copyJumpTable (h : operations X) (jt : JumpTable) : outcome (operations X * JumpTable) :=
  foldM copy_entry (h, []) jt.

(** The function wrapper: the counter first, whose error is returned. *)
Definition wrapper (originalExec counterExec : executionFunc X) : executionFunc X := λ m,
  r ← counterExec m;
  match r_err r with
  | Some err => Ok (mkResult (r_machine r) [] (Some err))
  | None => originalExec (r_machine r)
  end.

(** One turn of the loop; the operation is changed where it is. *)
Definition wrap_entry (counterCalls : list (Z * executionFunc X)) (st : operations X * JumpTable) (e : nat * option nat)
    : outcome (operations X * JumpTable) :=
  let '(h, result) := st in
  let '(idx, original) := e in
  match counterCall counterCalls (Z.of_nat idx), original with
  | Some _, None => Panic
  | Some counterExec, Some p =>
      o ← deref_op h p;
      Ok (<[p := set_execute o (wrapper (execute o) counterExec)]> h, result ++ [Some p])
  | None, _ => Ok (h, result ++ [original])
  end.

Definition WrapJumpTableWithZkCounters (h : operations X) (originalTable : JumpTable)
    (counterCalls : list (Z * executionFunc X)) : outcome (operations X * JumpTable) :=
  foldM (wrap_entry counterCalls) (h, []) (imap pair originalTable).

(** The jump table of a new interpreter, without extra EIPs: the table that
    WrapJumpTableWithZkCounters returns is not used. *)
Definition NewZKEVMInterpreter (h : operations X) (jt : JumpTable) (withCollector : bool)
    : outcome (operations X * JumpTable) :=
  '(h, jt) ← copyJumpTable h jt;
  if withCollector then
    '(h, _) ← WrapJumpTableWithZkCounters h jt SimpleCounterOperations;
    Ok (h, jt)
  else Ok (h, jt).

(** [in.jt[op]]; the loop uses the fields of the operation at once. *)
Definition table_op (h : operations X) (jt : JumpTable) (op : Z) : outcome (operation X) :=
  e ← go_index jt op;
  match e with Some p => deref_op h p | None => Panic end.

(** The errors of the loop by name; the depths and limits in the first two are left out. *)
Definition ErrStackUnderflow : string := "stack underflow".
Definition ErrStackOverflow : string := "stack limit reached".
Definition ErrOutOfGas : string := "out of gas".
Definition ErrGasUintOverflow : string := "gas uint64 overflow".
Definition errStopToken : string := "stop token".

(** [return nil, err] *)
Definition failed (m : machine X) (err : string) : result X := mkResult m [] (Some err).

Definition ToWordSize (size : Z) : Z :=
  if 2 ^ 64 - 1 - 31 <? size then (2 ^ 64 - 1) / 32 + 1 else (size + 31) / 32.

(** [math.SafeMul(ToWordSize(memSize), 32)]; [None] when it overflows. *)
Definition round_words (memSize : Z) : option Z :=
  let size := ToWordSize memSize * 32 in
  if size <? 2 ^ 64 then Some size else None.

(** [memorySize] of the operation; 0 when it has none. *)
Definition memory_size (o : operation X) (m : machine X) : option Z :=
  match memorySize o with
  | None => Some 0
  | Some f => let '(memSize, overflow) := f (Stack (m_scope m)) in if overflow then None else round_words memSize
  end.

(** The dynamic gas of the operation, and the memory it needs. *)
Definition use_dynamic_gas (o : operation X) (m : machine X) : outcome (machine X + result X) :=
  match dynamicGas o with
  | None => Ok (inl m)
  | Some gas =>
      match memory_size o m with
      | None => Ok (inr (failed m ErrGasUintOverflow))
      | Some memorySize =>
          '(m, dynamicCost, err) ← gas m memorySize;
          match err with
          | Some _ => Ok (inr (failed m ErrOutOfGas))
          | None =>
              match UseGas (m_evm m) dynamicCost with
              | None => Ok (inr (failed m ErrOutOfGas))
              | Some x => Ok (inl (set_evm m (if 0 <? memorySize then Resize x memorySize else x)))
              end
          end
      end
  end.

(** What the loop does before it executes an operation: the machine to execute it
    on, or the result of the run. *)
Definition prepare (o : operation X) (m : machine X) : outcome (machine X + result X) :=
  let sLen := Z.of_nat (length (Stack (m_scope m))) in
  if sLen <? numPop o then Ok (inr (failed m ErrStackUnderflow))
  else if maxStack o <? sLen then Ok (inr (failed m ErrStackOverflow))
  else match UseGas (m_evm m) (constantGas o) with
       | None => Ok (inr (failed m ErrOutOfGas))
       | Some x => use_dynamic_gas o (set_evm m x)
       end.

(** The end of RunZk: a stop token is no error. *)
Definition finish (m : machine X) (res : list byte) (err : option string) : result X :=
  mkResult m res (if bool_decide (err = Some errStopToken) then None else err).

(** The main loop of RunZk, without a tracer and without the deferred function that
    executes the last operation again after an error; [res] is what the last operation
    returned.  [None]: the loop has not ended after [fuel] operations. *)
Fixpoint RunZk_loop (fuel : nat) (h : operations X) (jt : JumpTable) (steps : Z) (res : list byte) (m : machine X)
    : outcome (option (result X)) :=
  match fuel with
  | O => Ok None
  | S fuel =>
      let steps := steps + 1 in
      if (steps mod 1000 =? 0) && Cancelled (m_evm m) then Ok (Some (finish m res None))
      else
        o ← table_op h jt (GetOp (m_evm m));
        p ← prepare o m;
        match p with
        | inr r => Ok (Some r)
        | inl m =>
            r ← execute o m;
            match r_err r with
            | Some err => Ok (Some (finish (r_machine r) (r_ret r) (Some err)))
            | None =>
                let m := r_machine r in
                RunZk_loop fuel h jt steps (r_ret r) (set_evm m (incPc (m_evm m)))
            end
        end
  end.
End JumpTables.
