(* ===== verification/ZkCountersSpec.v ===== *)
(** Properties of the counters and of the cost of the opcodes.

    [Charges f b] says that a cost charges every counter at most [b]: where the
    counters have [room b] before the ends of [int], what is used grows and what
    remains shrinks by the same amount, without a wrap-around ([grows b]).  It is
    proved for every building block (the hint database [charges]), hence for every
    opcode; from it follow the soundness of the early exit of multiCall and the
    persistence of an overflow.  [NewZKEVMInterpreter_table] is the jump table of a
    new interpreter, and [interpreter_transparent] compares the runs of the main loop
    over it with those over the original table. *)

From S2P Require Import Prelude Bytes Float64 ZkCounters ZkOpcodes.
From Stdlib Require Import Strings.Byte.

Local Open Scope Z_scope.
Local Open Scope cost_scope.

(** * Counters by key *)

Lemma get_build f k : get (build f) k = f k.
Proof. by destruct k. Qed.

Lemma get_set c k x k' : get (set c k x) k' = if bool_decide (k' = k) then x else get c k'.
Proof. unfold set. by rewrite get_build. Qed.

Lemma counters_ext c d : (∀ k, get c k = get d k) → c = d.
Proof.
  intros H. pose proof (H KS). pose proof (H KA). pose proof (H KB). pose proof (H KM).
  pose proof (H KK). pose proof (H KD). pose proof (H KP). pose proof (H KSHA).
  destruct c, d. simpl in *. congruence.
Qed.

Lemma elem_of_all_keys k : k ∈ all_keys.
Proof. unfold all_keys. rewrite !elem_of_cons. destruct k; tauto. Qed.

Lemma isOverflown_spec cc :
  isOverflown cc = true ↔ ∃ k, remaining (get (counters cc) k) < 0.
Proof.
  unfold isOverflown. rewrite existsb_exists. split.
  - intros (k & _ & Hk%Z.ltb_lt). by exists k.
  - intros (k & Hk). exists k. split; [|by apply Z.ltb_lt]. apply list_elem_of_In, elem_of_all_keys.
Qed.

(** * Charges *)

Lemma to_int_id x : - 2 ^ 63 ≤ x < 2 ^ 63 → to_int x = x.
Proof.
  intros Hx. unfold to_int. destruct (Z.lt_ge_cases x 0).
  - rewrite <-(Z.mod_unique x (2 ^ 64) (-1) (x + 2 ^ 64)) by lia. case_bool; lia.
  - rewrite Z.mod_small by lia. case_bool; lia.
Qed.

(** Every counter can be charged [b] without leaving the range of [int]. *)
Definition room (b : Z) (cc : CounterCollector) : Prop := ∀ k,
  - 2 ^ 63 + b ≤ remaining (get (counters cc) k) < 2 ^ 63 ∧ - 2 ^ 63 ≤ used (get (counters cc) k) < 2 ^ 63 - b.

(** Every counter is charged between nothing and [b]: the amount is added to what is
    used and taken from what remains, without a wrap-around. *)
Record grows (b : Z) (cc cc' : CounterCollector) : Prop := {
  g_levels : smtLevels cc' = smtLevels cc;
  g_deploy : isDeploy cc' = isDeploy cc;
  g_fork : forkId cc' = forkId cc;
  g_initial : ∀ k, initialAmount (get (counters cc') k) = initialAmount (get (counters cc) k);
  g_amount : ∀ k, ∃ t, 0 ≤ t ≤ b ∧
    used (get (counters cc') k) = used (get (counters cc) k) + t ∧
    remaining (get (counters cc') k) = remaining (get (counters cc) k) - t;
}.

Lemma grows_refl b cc : 0 ≤ b → grows b cc cc.
Proof. intros Hb. split; try done. intros k. exists 0. lia. Qed.

Lemma grows_trans b1 b2 a b c : grows b1 a b → grows b2 b c → grows (b1 + b2) a c.
Proof.
  intros H1 H2. split; [etransitivity; [apply H2|apply H1]..| |].
  - intros k. etransitivity; [apply H2|apply H1].
  - intros k. destruct (g_amount _ _ _ H1 k) as (t & ? & ? & ?), (g_amount _ _ _ H2 k) as (u & ? & ? & ?).
    exists (t + u). lia.
Qed.

Lemma grows_weaken b b' cc cc' : b ≤ b' → grows b cc cc' → grows b' cc cc'.
Proof.
  intros Hb H. split; try apply H. intros k. destruct (g_amount _ _ _ H k) as (t & ? & ? & ?). exists t. lia.
Qed.

Lemma room_weaken b b' cc : b' ≤ b → room b cc → room b' cc.
Proof. intros Hb H k. specialize (H k). lia. Qed.

Lemma room_grows b1 b2 cc cc' : room (b1 + b2) cc → grows b1 cc cc' → room b2 cc'.
Proof. intros H Hg k. specialize (H k). destruct (g_amount _ _ _ Hg k) as (t & ? & ? & ?). lia. Qed.

Lemma overflown_grows b cc cc' : grows b cc cc' → isOverflown cc = true → isOverflown cc' = true.
Proof.
  rewrite !isOverflown_spec. intros H [k Hk]. exists k. destruct (g_amount _ _ _ H k) as (t & ? & ? & ?). lia.
Qed.

(** The depth of the tree: calculateSmtLevels is at most 257. *)
Definition maxLevels : Z := 1024.
Definition levels_ok (cc : CounterCollector) : Prop := 0 ≤ smtLevels cc ≤ maxLevels.

Lemma levels_ok_grows b cc cc' : grows b cc cc' → levels_ok cc → levels_ok cc'.
Proof. unfold levels_ok. intros H. by rewrite (g_levels _ _ _ H). Qed.

(** A cost of at most [b] for every counter. *)
Record Charges (f : cost) (b : Z) : Prop := {
  ch_bound : 0 ≤ b;
  ch_grows : ∀ cc, levels_ok cc → room b cc → grows b cc (f cc);
}.

Lemma Charges_weaken f b b' : Charges f b → b ≤ b' → Charges f b'.
Proof.
  intros [Hb H] Hle. split; [lia|]. intros cc Hl Hr. apply (grows_weaken b); [done|].
  apply H; [done|]. by apply (room_weaken b').
Qed.

Lemma Charges_Deduct k n : 0 ≤ n → Charges (Deduct k n) n.
Proof.
  intros Hn. split; [done|]. intros cc _ Hr. unfold Deduct, with_counters. specialize (Hr k).
  split; try done; intros k'; simpl; rewrite get_set; case_bool_decide as Hk; subst; simpl; try done.
  - exists n. rewrite !to_int_id by lia. lia.
  - exists 0. lia.
Qed.

Lemma Charges_seq f g b1 b2 : Charges f b1 → Charges g b2 → Charges (f ;> g) (b1 + b2).
Proof.
  intros [Hb1 Hf] [Hb2 Hg]. split; [lia|]. intros cc Hl Hr. unfold andThen.
  assert (grows b1 cc (f cc)) as H by (apply Hf; [done|]; apply (room_weaken (b1 + b2)); [lia|done]).
  apply (grows_trans _ _ _ (f cc)); [done|].
  apply Hg; [by apply (levels_ok_grows b1 cc)|by apply (room_grows b1 b2 cc)].
Qed.

Lemma Charges_no_cost : Charges no_cost 0.
Proof. split; [lia|]. intros cc _ _. unfold no_cost. by apply grows_refl. Qed.

Lemma Charges_if (c : bool) f g b1 b2 :
  (c = true → Charges f b1) → (c = false → Charges g b2) → Charges (if c then f else g) (Z.max b1 b2).
Proof.
  intros Hf Hg. destruct c.
  - apply (Charges_weaken _ b1); [by apply Hf|lia].
  - apply (Charges_weaken _ b2); [by apply Hg|lia].
Qed.

Lemma Charges_cost_if c f b : 0 ≤ b → (c = true → Charges f b) → Charges (cost_if c f) b.
Proof.
  intros Hb H. destruct c; [by apply H|]. apply (Charges_weaken _ 0); [apply Charges_no_cost|done].
Qed.

Lemma Charges_levels f B :
  (∀ l, 0 ≤ l ≤ maxLevels → Charges (f l) (B l)) → (∀ l, 0 ≤ l ≤ maxLevels → B l ≤ B maxLevels) →
  Charges (levels f) (B maxLevels).
Proof.
  intros H HB. assert (0 ≤ maxLevels) as Hm by done. split; [apply (H maxLevels); lia|]. intros cc Hl.
  apply (Charges_weaken (f (smtLevels cc)) (B (smtLevels cc))); [by apply H|by apply HB|done].
Qed.

Lemma Charges_deploying f b : (∀ d, Charges (f d) b) → Charges (deploying f) b.
Proof. intros H. split; [apply (H true)|]. intros cc. by apply (H (isDeploy cc)). Qed.

Lemma Charges_fork f b : (∀ x, Charges (f x) b) → Charges (fork f) b.
Proof. intros H. split; [apply (H 0)|]. intros cc. by apply (H (forkId cc)). Qed.

Lemma iter_succ_r {A} n (f : A → A) x : Nat.iter (S n) f x = Nat.iter n f (f x).
Proof. induction n as [|n IH]; [done|]. simpl. f_equal. exact IH. Qed.

Lemma Charges_iter n f b : Charges f b → Charges (Nat.iter n f) (Z.of_nat n * b).
Proof.
  intros Hf. induction n as [|n IH]; [apply Charges_no_cost|].
  replace (Z.of_nat (S n) * b) with (Z.of_nat n * b + b) by lia. by apply (Charges_seq (Nat.iter n f) f).
Qed.

Lemma Charges_multiCall_loop call n i b : Charges call b → Charges (multiCall_loop call n i) (Z.of_nat n * b).
Proof.
  intros Hf. pose proof (ch_bound _ _ Hf) as Hb. revert i. induction n as [|n IH]; intros i; [apply Charges_no_cost|].
  split; [nia|]. intros cc. cbn [multiCall_loop]. destruct (_ && _).
  - intros _ _. apply grows_refl. nia.
  - replace (Z.of_nat (S n) * b) with (b + Z.of_nat n * b) by lia. apply (Charges_seq _ _ _ _ Hf (IH (i + 1))).
Qed.

Lemma Charges_multiCall call n b : Charges call b → Charges (multiCall call n) (Z.max 0 n * b).
Proof. intros H. replace (Z.max 0 n) with (Z.of_nat (Z.to_nat n)) by lia. by apply Charges_multiCall_loop. Qed.

Lemma Charges_repeat n f b : Charges f b → Charges (repeat_cost n f) (Z.max 0 n * b).
Proof. intros H. replace (Z.max 0 n) with (Z.of_nat (Z.to_nat n)) by lia. by apply Charges_iter. Qed.

(** The divisions by way of floating point numbers, on sizes. *)
Lemma ceil_div_bounds x d : 0 ≤ x < 2 ^ 50 → 0 < d < 2 ^ 50 → 0 ≤ ceil_div x d ≤ x.
Proof.
  intros Hx Hd. rewrite ceil_div_exact by done. split; [apply Z.div_pos; lia|].
  destruct (Z.eq_dec x 0) as [->|]; [rewrite Z.div_small by lia; lia|]. apply Z.div_le_upper_bound; nia.
Qed.

(** [charge] proves that a composition of charges is one, and finds its bound; the
    hint database [charges] holds the building blocks proved so far.  [charge_bound]
    proves a given bound. *)
Create HintDb charges discriminated.
#[export] Hint Constants Opaque : charges.

Ltac charge_amount :=
  unfold MCPL; rewrite ?Z.shiftr_div_pow2 by lia;
  repeat match goal with
  | |- context [to_int ?x] => rewrite (to_int_id x) by lia
  | |- context [ceil_div ?x ?d] =>
      lazymatch goal with
      | _ : 0 <= ceil_div x d <= x |- _ => fail
      | _ => pose proof (ceil_div_bounds x d ltac:(lia) ltac:(lia))
      end
  end; unfold maxLevels in *; lia.

Ltac charge :=
  lazymatch goal with
  | |- Charges (andThen _ _) _ => eapply Charges_seq; charge
  | |- Charges (Deduct _ _) _ => eapply Charges_Deduct; charge_amount
  | |- Charges no_cost _ => apply Charges_no_cost
  | |- Charges (levels _) _ => eapply Charges_levels; [intros ? ?; charge | intros ? ?; cbn beta; charge_amount]
  | |- Charges (deploying _) _ => eapply Charges_deploying; intros ?; charge
  | |- Charges (fork _) _ => eapply Charges_fork; intros ?; charge
  | |- Charges (multiCall _ _) _ => eapply Charges_multiCall; charge
  | |- Charges (repeat_cost _ _) _ => eapply Charges_repeat; charge
  | |- Charges (cost_if _ _) _ => eapply Charges_cost_if; [|intros ?; charge]; [charge_amount]
  | |- Charges (if ?b then _ else _) _ => eapply Charges_if; intros ?; charge
  | |- Charges (?f ?x) _ => first [solve [eauto with charges nocore] | progress unfold f; charge | idtac]
  | |- Charges ?f _ => first [solve [eauto with charges nocore] | unfold f; charge]
  end.

Ltac charge_bound f := unfold f; eapply Charges_weaken; [charge | charge_amount].

Lemma Charges_offsetUtil : Charges offsetUtil 11.
Proof. charge_bound offsetUtil. Qed.
Lemma Charges_divArith : Charges divArith 44.
Proof. charge_bound divArith. Qed.
Lemma Charges_mulArith : Charges mulArith 42.
Proof. charge_bound mulArith. Qed.
Lemma Charges_SHLarith : Charges SHLarith 44.
Proof. charge_bound SHLarith. Qed.
#[export] Hint Resolve Charges_offsetUtil Charges_divArith Charges_mulArith Charges_SHLarith : charges.

Lemma Charges_SHRarith : Charges SHRarith 87.
Proof. charge_bound SHRarith. Qed.
#[export] Hint Resolve Charges_SHRarith : charges.

Lemma Charges_mLoadX : Charges mLoadX 175.
Proof. charge_bound mLoadX. Qed.
Lemma Charges_mLoad32 : Charges mLoad32 185.
Proof. charge_bound mLoad32. Qed.
Lemma Charges_mStore32 : Charges mStore32 355.
Proof. charge_bound mStore32. Qed.
Lemma Charges_mStoreX : Charges mStoreX 355.
Proof. charge_bound mStoreX. Qed.
#[export] Hint Resolve Charges_mLoadX Charges_mLoad32 Charges_mStore32 Charges_mStoreX : charges.

Lemma Charges_readFromCallDataOffset : Charges readFromCallDataOffset 200.
Proof. charge_bound readFromCallDataOffset. Qed.
Lemma Charges_maskAddress : Charges maskAddress 7.
Proof. charge_bound maskAddress. Qed.
Lemma Charges_isColdAddress : Charges isColdAddress 150.
Proof. charge_bound isColdAddress. Qed.
Lemma Charges_isColdSlot : Charges isColdSlot 67.
Proof. charge_bound isColdSlot. Qed.
Lemma Charges_checkBytecodeStartsEF : Charges checkBytecodeStartsEF 282.
Proof. charge_bound checkBytecodeStartsEF. Qed.
Lemma Charges_getLenBytes l : 0 ≤ l → Charges (getLenBytes l) (95 * l + 12).
Proof. intros Hl. charge_bound getLenBytes. Qed.
Lemma Charges_saveMem n : Charges (saveMem n) 141.
Proof. charge_bound saveMem. Qed.
#[export] Hint Resolve Charges_readFromCallDataOffset Charges_saveMem Charges_maskAddress Charges_isColdAddress
  Charges_isColdSlot Charges_checkBytecodeStartsEF : charges.

(** The largest memory for which the interpreter computes the gas. *)
Definition maxMemory : Z := 0x1FFFFFFFE0.

Lemma Charges_hashPoseidon n : 0 ≤ n ≤ maxMemory → Charges (hashPoseidonLinearFromMemory n) (400 + 10 * n).
Proof.
  unfold maxMemory. intros Hn. unfold hashPoseidonLinearFromMemory, hashPoseidonLinearFromMemoryLoop.
  eapply Charges_weaken; [charge|charge_amount].
Qed.

Lemma Charges_processContractCall l n d c c2 :
  0 ≤ l ≤ maxLevels → 0 ≤ n ≤ maxMemory → Charges (processContractCall l n d c c2) (2000 + 8 * l + 20 * n).
Proof.
  intros Hl Hn. pose proof (Charges_hashPoseidon n Hn). unfold maxMemory in Hn. unfold processContractCall, moveBalances.
  eapply Charges_weaken; [charge|charge_amount].
Qed.

Lemma Charges_before_call : Charges before_call 39.
Proof.
  unfold before_call, computeGasSendCall, saveCalldataPointer, checkpointBlockInfoTree, checkpointTouched.
  eapply Charges_weaken; [charge|charge_amount].
Qed.
Lemma Charges_opCode s : Charges (opCode s) 274.
Proof. charge_bound opCode. Qed.
#[export] Hint Resolve Charges_before_call Charges_opCode : charges.

(** ** The precompiles *)

Lemma Charges_ecRecover v r s p : Charges (ecRecover v r s p) 8000.
Proof. charge_bound ecRecover. Qed.
Lemma Charges_p256verify r s x y : Charges (p256verify r s x y) 8300.
Proof. charge_bound p256verify. Qed.
#[export] Hint Resolve Charges_ecRecover Charges_p256verify : charges.

(** A precompile charges at most 2^18 per byte or input, and 2^18 for the call. *)
Lemma Charges_precompiles v r s x y n m :
  0 ≤ n ≤ maxMemory → 0 ≤ m ≤ maxMemory →
  Charges (preEcRecover v r s) (2 ^ 18) ∧ Charges preECAdd (2 ^ 18) ∧ Charges preECMul (2 ^ 18) ∧
  Charges (preECPairing n) (2 ^ 18 * (n + 1)) ∧ Charges (preSha256 n) (2 ^ 18 * (n + 1)) ∧
  Charges (preIdentity n m) (2 ^ 18 * (n + m + 1)) ∧ Charges (preP256Verify r s x y) (2 ^ 18).
Proof.
  unfold maxMemory. intros Hn Hm. unfold preEcRecover, preECAdd, ecAdd, preECMul, ecMul, preECPairing, ecPairing, preSha256,
    preSha256Loop, preIdentity, identityLoop, identityReturnLoop, preP256Verify.
  split_and!; (eapply Charges_weaken; [charge|charge_amount]).
Qed.

(** ** The opcodes *)

(** What the cost of an opcode reads of the stack: how many elements, and which
    positions it uses as a size of memory. *)
Definition operands (op : Z) : Z * list Z :=
  if decide (op = 0x0a) then (2, [])                              (* EXP *)
  else if decide (op ∈ [0x20; 0xf3; 0xfd; 0xa0; 0xa1; 0xa2; 0xa3; 0xa4]) then (2, [2])  (* KECCAK256 RETURN REVERT LOG *)
  else if decide (op ∈ [0x37; 0x39; 0x3e; 0xf0; 0xf5]) then (3, [3])  (* CALLDATACOPY CODECOPY RETURNDATACOPY CREATE CREATE2 *)
  else if decide (op = 0x3c) then (4, [4])                        (* EXTCODECOPY *)
  else if decide (op ∈ [0xf1; 0xf2]) then (7, [5; 7])             (* CALL CALLCODE *)
  else if decide (op ∈ [0xf4; 0xfa]) then (6, [4; 6])             (* DELEGATECALL STATICCALL *)
  else (0, []).

Section opcodes.
Context {X : Type} {E : EVMState X} (M : Z) (HM : 0 ≤ M ≤ maxMemory).

(** The scope in which the interpreter executes an opcode: it has checked the depth of
    the stack and, by the gas of the memory, that the sizes are at most [M], which
    is also a bound on the sizes of code; the stack holds 256-bit words. *)
Record scope_ok (os : Z * list Z) (m : machine X) : Prop := {
  so_len : os.1 ≤ Z.of_nat (length (Stack (m_scope m)));
  so_sizes : Forall (λ p, ∀ x, PeekAt (m_scope m) p = Ok x → 0 ≤ x ≤ M) os.2;
  so_words : Forall (λ x, 0 ≤ x < 2 ^ 256) (Stack (m_scope m));
  so_code : ∀ a, 0 ≤ GetCodeSize (m_evm m) a ≤ M;
}.

(** What one opcode charges at most. *)
Definition op_bound : Z := 2 ^ 17 + 2 ^ 8 * M.

(** A cost function that returns no error and changes the counters only, by at most
    the bound. *)
Definition op_ok (os : Z * list Z) (f : executionFunc X) : Prop := ∀ m,
  levels_ok (m_cc m) → room op_bound (m_cc m) → scope_ok os m →
  ∃ cc', f m = Ok (mkResult (set_cc m cc') [] None) ∧ grows op_bound (m_cc m) cc'.

Lemma PeekAt_ok os m n :
  scope_ok os m → 1 ≤ n ≤ os.1 → ∃ x, PeekAt (m_scope m) n = Ok x ∧ 0 ≤ x < 2 ^ 256.
Proof.
  intros [Hl _ Hw _] Hn. unfold PeekAt. set (st := Stack (m_scope m)) in *.
  destruct (lookup_lt_is_Some_2 st (Z.to_nat (Z.of_nat (length st) - n))) as [x Hx]; [lia|].
  exists x. split.
  - rewrite <-(Z2Nat.id (Z.of_nat _ - n)) by lia. by apply go_index_lookup.
  - rewrite Forall_lookup in Hw. by apply (Hw _ _ Hx).
Qed.

Lemma PeekAt_size os m n :
  scope_ok os m → 1 ≤ n ≤ os.1 → n ∈ os.2 → ∃ x, PeekAt (m_scope m) n = Ok x ∧ 0 ≤ x ≤ M.
Proof.
  intros H Hn Hin. destruct (PeekAt_ok _ _ _ H Hn) as (x & Ex & _). exists x. split; [done|].
  pose proof (so_sizes _ _ H) as Hs. rewrite Forall_forall in Hs. by apply (Hs n Hin).
Qed.

Lemma op_charged f (m : machine X) b :
  levels_ok (m_cc m) → room op_bound (m_cc m) → Charges f b → b ≤ op_bound →
  ∃ cc', charged m f = Ok (mkResult (set_cc m cc') [] None) ∧ grows op_bound (m_cc m) cc'.
Proof.
  intros Hl Hr Hf Hb. exists (f (m_cc m)). split; [done|]. by apply (Charges_weaken _ _ _ Hf Hb).
Qed.

Lemma op_simple os f b : Charges f b → b ≤ 2 ^ 16 → op_ok os (simple f).
Proof.
  intros Hf Hb m Hl Hr _. apply (op_charged _ _ (274 + b)); [done..| |unfold op_bound; lia].
  apply Charges_seq; [apply Charges_opCode|done].
Qed.

Lemma first_nonzero_le input i : 0 ≤ i → 0 ≤ first_nonzero input i ≤ i + Z.of_nat (length input).
Proof.
  revert i. induction input as [|b input IH]; intros i Hi; simpl; [lia|].
  destruct (bool_decide _); [|lia]. specialize (IH (i + 1) ltac:(lia)). lia.
Qed.

Lemma nonce_length_bounds (x : X) s : 0 ≤ nonce_length x s ≤ 8.
Proof.
  unfold nonce_length, getRelevantNumberBytes. set (l := be_bytes 8 _).
  pose proof (first_nonzero_le l 0 ltac:(lia)). assert (length l = 8%nat) by apply length_be_bytes. lia.
Qed.

Lemma Charges_expAd n : 0 ≤ n → Charges (expAd n) (44 + 200 * n).
Proof. intros Hn. unfold expAd, getLenBits. eapply Charges_weaken; [charge|charge_amount]. Qed.

Lemma Charges_readPush n : 0 ≤ n ≤ 32 → Charges (readPush n) 70.
Proof. intros Hn. charge_bound readPush. Qed.

(** [op] proves [op_ok os f]: it reads the stack and then uses [charge]. *)
Ltac peek m n :=
  let x := fresh "x" in let Ex := fresh "Ex" in let Hx := fresh "Hx" in
  first
  [ destruct (PeekAt_size _ m n ltac:(eassumption) ltac:(simpl; lia) ltac:(simpl; rewrite !elem_of_cons; tauto)) as (x & Ex & Hx);
    rewrite Ex, bind_Ok; cbv zeta; rewrite ?(to_int_id x) by lia
  | destruct (PeekAt_ok _ m n ltac:(eassumption) ltac:(simpl; lia)) as (x & Ex & Hx); rewrite Ex, bind_Ok; cbv zeta ].

(** The sizes of code and the length of the nonce that the cost reads. *)
Ltac sizes Hs :=
  repeat match goal with
  | |- context [GetCodeSize ?x ?a] =>
      let n := fresh "n" in let Hn := fresh "Hn" in
      pose proof (so_code _ _ Hs a) as Hn; set (n := GetCodeSize x a) in *; clearbody n
  | |- context [nonce_length ?x ?s] =>
      let n := fresh "n" in let Hn := fresh "Hn" in
      pose proof (nonce_length_bounds x s) as Hn; set (n := nonce_length x s) in *; clearbody n
  end.

Ltac head t := lazymatch t with ?f _ => head f | _ => t end.
Ltac unfold_op := lazymatch goal with |- op_ok _ ?f => let h := head f in unfold h end.

Ltac op :=
  unfold_op; first
  [ eapply op_simple; [charge|charge_amount]
  | let m := fresh "m" in let Hl := fresh "Hl" in let Hr := fresh "Hr" in let Hs := fresh "Hs" in
    intros m Hl Hr Hs; unfold maxMemory in HM; cbv zeta;
    repeat match goal with |- context [PeekAt (m_scope m) ?n ≫= _] => peek m n end; sizes Hs;
    try (eapply op_charged; [exact Hl|exact Hr|charge|unfold op_bound; charge_amount]) ].

Hint Extern 1 (Charges (getLenBytes _) _) => apply Charges_getLenBytes; lia : charges.
Hint Extern 1 (Charges (expAd _) _) => apply Charges_expAd; lia : charges.
Hint Extern 1 (Charges (processContractCall _ _ _ _ _) _) =>
  apply Charges_processContractCall; unfold maxMemory in *; lia : charges.
Hint Extern 1 (Charges (hashPoseidonLinearFromMemory _) _) =>
  apply Charges_hashPoseidon; unfold maxMemory in *; lia : charges.
Hint Extern 1 (Charges (readPush _) _) => apply Charges_readPush; lia : charges.

Lemma op_opExp : op_ok (2, []) opExp.
Proof.
  intros m Hl Hr Hs. unfold opExp. cbv zeta. peek m 2.
  assert (0 ≤ (if x =? 0 then 1 else Z.of_nat (length (big_bytes x))) ≤ 32) as Hn.
  { destruct (x =? 0); [lia|]. pose proof (length_big_bytes x 32 ltac:(lia)). lia. }
  set (n := if x =? 0 then _ else _) in *. clearbody n.
  eapply op_charged; [exact Hl|exact Hr|charge|unfold op_bound; charge_amount].
Qed.

Lemma op_opCalldataCopy : op_ok (3, [3]) opCalldataCopy.
Proof. op. Qed.

Lemma op_opCodeCopy : op_ok (3, [3]) opCodeCopy.
Proof.
  intros m Hl Hr Hs. unfold opCodeCopy. pose proof HM as HM'. unfold maxMemory in HM'. peek m 3.
  destruct (negb (x =? 0)); [|by eapply op_charged; [exact Hl|exact Hr|apply Charges_no_cost|unfold op_bound; lia]].
  destruct (IsCreate (m_scope m) || _).
  - unfold opCalldataCopy. cbn [m_scope set_cc]. rewrite Ex, bind_Ok. cbv zeta. rewrite (to_int_id x) by lia.
    set (f := cost_if _ _). change (charged _ f) with (charged m (opCode (m_scope m) ;> f)).
    eapply op_charged; [exact Hl|exact Hr|unfold f; charge|unfold op_bound; charge_amount].
  - set (f := Deduct KS 40 ;> _). change (charged _ f) with (charged m (opCode (m_scope m) ;> f)).
    eapply op_charged; [exact Hl|exact Hr|unfold f; charge|unfold op_bound; charge_amount].
Qed.

Lemma op_opPush os n : 0 ≤ n ≤ 32 → op_ok os (opPush n).
Proof. intros Hn. op. Qed.

Lemma op_opJump os : op_ok os opJump.
Proof.
  intros m Hl Hr Hs. eapply (op_simple os (Deduct KS 5 ;> checkJumpDest (m_scope m))); [|..|done|done|done];
    unfold checkJumpDest; [charge|charge_amount].
Qed.

Lemma op_opJumpI os : op_ok os opJumpI.
Proof.
  intros m Hl Hr Hs.
  eapply (op_simple os (Deduct KS 10 ;> Deduct KB 1 ;> checkJumpDest (m_scope m))); [|..|done|done|done];
    unfold checkJumpDest; [charge|charge_amount].
Qed.

(** ** The table *)

(** The cost of an opcode of the table only charges, in the scope the
    interpreter runs it in. *)
Definition charged_op (p : Z * executionFunc X) : Prop := op_ok (operands p.1) p.2.

Lemma numbered_cons first (f : executionFunc X) fs : numbered first (f :: fs) = (first, f) :: numbered (first + 1) fs.
Proof.
  unfold numbered. cbn [imap]. f_equal; [f_equal; lia|].
  apply imap_ext. intros i g _. cbn. f_equal. lia.
Qed.

Lemma charged_cons first (f : executionFunc X) fs :
  op_ok (operands first) f → Forall charged_op (numbered (first + 1) fs) → Forall charged_op (numbered first (f :: fs)).
Proof. intros Hf Hfs. rewrite numbered_cons. by apply Forall_cons_2. Qed.

Ltac op_case :=
  lazymatch goal with
  | |- op_ok (operands ?n) ?f =>
      let v := eval vm_compute in (operands n) in change (operands n) with v;
      lazymatch f with
      | opExp => apply op_opExp
      | opCalldataCopy => apply op_opCalldataCopy
      | opCodeCopy => apply op_opCodeCopy
      | opJump => apply op_opJump
      | opJumpI => apply op_opJumpI
      | _ => first [solve [op] | unfold_op; op]
      end
  end.

Ltac op_cases := repeat (apply charged_cons; [op_case|]); apply Forall_nil_2.

Lemma charged_arith :
  Forall charged_op (numbered 0x00
    [opStop; opAdd; opMul; opSub; opDiv; opSDiv; opMod; opSMod; opAddMod; opMulMod; opExp; opSignExtend]).
Proof. op_cases. Qed.

Lemma charged_compare :
  Forall charged_op (numbered 0x10
    [opLT; opGT; opSLT; opSGT; opEQ; opIsZero; opAnd; opOr; opXor; opNot; opByte; opSHL; opSHR; opSAR]).
Proof. op_cases. Qed.

Lemma charged_sha3 : Forall charged_op (numbered 0x20 [opSha3]).
Proof. op_cases. Qed.

Lemma charged_env :
  Forall charged_op (numbered 0x30
    [opAddress; opBalance; opOrigin; opCaller; opCallValue; opCalldataLoad; opCalldataSize; opCalldataCopy;
     opCodeSize; opCodeCopy; opGasPrice; opExtCodeSize; opExtCodeCopy; opReturnDataSize; opReturnDataCopy; opExtCodeHash]).
Proof. op_cases. Qed.

Lemma charged_block :
  Forall charged_op (numbered 0x40
    [opBlockHash; opCoinbase; opTimestamp; opNumber; opDifficulty; opGasLimit; opChainId; opSelfBalance]).
Proof. op_cases. Qed.

Lemma charged_memory :
  Forall charged_op (numbered 0x50
    [opPop; opMLoad; opMStore; opMStore8; opSLoad; opSSTore; opJump; opJumpI; opPC; opMSize; opGas; opJumpDest]).
Proof. op_cases. Qed.

Lemma charged_push : Forall charged_op (numbered 0x5f (opPush0 :: map opPushGenerator (seqZ 1 32))).
Proof.
  apply charged_cons; [op_case|]. apply Forall_lookup. intros i [n f] Hi. unfold numbered in Hi.
  rewrite list_lookup_imap in Hi. apply fmap_Some in Hi as (g & Hi & [= -> ->]).
  rewrite list_lookup_fmap in Hi. apply fmap_Some in Hi as (k & Hk & ->).
  apply lookup_seqZ in Hk as [-> Hk]. apply op_opPush. lia.
Qed.

Lemma charged_dup_swap : Forall charged_op (numbered 0x80 (replicate 16 opDup ++ replicate 16 opSwap)).
Proof.
  assert (∀ os, op_ok os opDup) as Hd by (intros; op).
  assert (∀ os, op_ok os opSwap) as Hs by (intros; op).
  cbn [replicate app]. repeat (apply charged_cons; [first [apply Hd | apply Hs]|]). apply Forall_nil_2.
Qed.

Lemma charged_log : Forall charged_op (numbered 0xa0 [opLog0; opLog1; opLog2; opLog3; opLog4]).
Proof. op_cases. Qed.

Lemma charged_call :
  Forall charged_op (numbered 0xf0 [opCreate; opCall; opCallCode; opReturn; opDelegateCall; opCreate2]).
Proof. op_cases. Qed.

Lemma charged_end : Forall charged_op [(0xfa, opStaticCall); (0xfd, opRevert); (0xfe, opInvalid); (0xff, opSendAll)].
Proof. repeat (apply Forall_cons_2; [unfold charged_op; cbn [fst snd]; op_case|]); apply Forall_nil_2. Qed.

Lemma charged_table : Forall charged_op SimpleCounterOperations.
Proof.
  unfold SimpleCounterOperations. rewrite !Forall_app.
  split_and!; [apply charged_arith|apply charged_compare|apply charged_sha3|apply charged_env|apply charged_block|
    apply charged_memory|apply charged_push|apply charged_dup_swap|apply charged_log|apply charged_call|apply charged_end].
Qed.

Lemma counterCall_elem (table : list (Z * executionFunc X)) op f : counterCall table op = Some f → (op, f) ∈ table.
Proof.
  induction table as [|[k g] table IH]; simpl; [done|].
  destruct (Z.eqb_spec k op) as [->|]; [intros [= ->]; by left|intros H; right; auto].
Qed.

Lemma counterCall_ok op f : counterCall SimpleCounterOperations op = Some f → op_ok (operands op) f.
Proof.
  intros Hf%counterCall_elem. pose proof charged_table as Ht. rewrite Forall_forall in Ht. exact (Ht _ Hf).
Qed.
End opcodes.

(** * The jump table of an interpreter *)

Section tables.
Context {X : Type} {E : EVMState X}.
Implicit Types (h : operations X) (jt : JumpTable) (ops : list (option (operation X))).

(** The pointers of a table, and the operations they point to. *)
Definition points_to h (e : option nat) (o : option (operation X)) : Prop :=
  match e, o with
  | Some p, Some o => h !! p = Some o
  | None, None => True
  | _, _ => False
  end.

Definition represents h jt ops : Prop := Forall2 (points_to h) jt ops.
Definition pointers jt : list nat := omap id jt.

Lemma represents_frame h h' jt ops :
  (∀ p, p ∈ pointers jt → h' !! p = h !! p) → represents h jt ops → represents h' jt ops.
Proof.
  intros Hp H. induction H as [|[p|] [o|] jt ops Ho H IH]; try done; constructor; try done.
  - cbn in *. rewrite Hp; [done|left].
  - apply IH. intros q Hq. apply Hp. by right.
  - by apply IH.
Qed.

Lemma represents_pointer h jt ops p : represents h jt ops → p ∈ pointers jt → is_Some (h !! p).
Proof.
  intros H. induction H as [|[q|] [o|] jt ops Ho H IH]; cbn; try done; [by intros ?%elem_of_nil|].
  intros [->|Hp]%elem_of_cons; [by exists o|by apply IH].
Qed.

Lemma table_op_represents h jt ops op :
  represents h jt ops →
  table_op h jt op = (o ← go_index ops op; match o with Some o => Ok o | None => Panic end).
Proof.
  intros H. unfold table_op, go_index. destruct (op <? 0); [done|].
  destruct (jt !! Z.to_nat op) as [e|] eqn:Ee.
  - destruct (Forall2_lookup_l _ _ _ _ _ H Ee) as (o & -> & Ho). rewrite !bind_Ok.
    destruct e, o; try done. cbn in *. unfold deref_op. by rewrite Ho.
  - apply lookup_ge_None in Ee. rewrite (Forall2_length _ _ _ H) in Ee. apply lookup_ge_None in Ee. by rewrite Ee.
Qed.

(** The copies are new objects, one for each pointer. *)
Record copies h0 (st : operations X * JumpTable) ops : Prop := {
  cp_sub : h0 ⊆ st.1;
  cp_table : represents st.1 st.2 ops;
  cp_nodup : NoDup (pointers st.2);
  cp_fresh : Forall (λ p, h0 !! p = None) (pointers st.2);
}.

Lemma pointers_app jt jt' : pointers (jt ++ jt') = pointers jt ++ pointers jt'.
Proof. apply omap_app. Qed.

Lemma copy_entry_copies h0 st ops e o :
  copies h0 st ops → points_to h0 e o → ∃ st', copy_entry st e = Ok st' ∧ copies h0 st' (ops ++ [o]).
Proof.
  destruct st as [h copy]. intros [Hs Ht Hn Hf] He. cbn [fst snd] in *. destruct e as [p|], o as [o|]; try done; cbn in *.
  - unfold deref_op. rewrite (lookup_weaken _ _ _ _ He Hs), bind_Ok. eexists. split; [done|].
    set (q := fresh (dom h)). assert (h !! q = None) as Hq by (apply not_elem_of_dom, is_fresh).
    assert (q ∉ pointers copy) as Hqc by (intros [? ?]%(represents_pointer _ _ _ _ Ht); congruence).
    split; cbn [fst snd].
    + by apply insert_subseteq_r, Hs; apply (lookup_weaken_None _ h).
    + apply Forall2_app; [|repeat constructor; apply lookup_insert_eq].
      apply (represents_frame h); [|done]. intros p' Hp'. apply lookup_insert_ne. by intros ->.
    + rewrite pointers_app. apply NoDup_app. split_and!; [done| |apply NoDup_singleton].
      intros p' Hp' ->%list_elem_of_singleton. done.
    + rewrite pointers_app, Forall_app. split; [done|]. repeat constructor. by apply (lookup_weaken_None _ h).
  - eexists. split; [done|]. split; cbn [fst snd]; rewrite ?pointers_app; cbn; rewrite ?app_nil_r; try done.
    apply Forall2_app; [done|by repeat constructor].
Qed.

Lemma copyJumpTable_copies h jt ops :
  represents h jt ops → ∃ st, copyJumpTable h jt = Ok st ∧ copies h st ops.
Proof.
  unfold copyJumpTable. intros H.
  assert (copies h (h, []) []) as H0 by (split; cbn; try done; constructor).
  change ops with ([] ++ ops). revert H0. generalize (@nil (option (operation X))) as acc. generalize (h, @nil (option nat)).
  induction H as [|e o jt ops He H IH]; intros st acc H0; cbn [foldM].
  - exists st. by rewrite app_nil_r.
  - destruct (copy_entry_copies _ _ _ _ _ H0 He) as (st1 & -> & H1). rewrite bind_Ok.
    destruct (IH _ _ H1) as (st2 & E2 & H2). exists st2. by rewrite <-app_assoc in H2.
Qed.

(** The operation of an index as the wrapped table has it. *)
Definition wrapped (idx : nat) (o : operation X) : operation X :=
  match counterCall SimpleCounterOperations (Z.of_nat idx) with
  | Some counterExec => set_execute o (wrapper (execute o) counterExec)
  | None => o
  end.

Lemma wrap_entry_wraps k h e o result :
  points_to h e o → (o = None → counterCall (@SimpleCounterOperations X E) (Z.of_nat k) = None) →
  ∃ h', wrap_entry SimpleCounterOperations (h, result) (k, e) = Ok (h', result ++ [e]) ∧
    points_to h' e (option_map (wrapped k) o) ∧ (∀ p, p ∉ pointers [e] → h' !! p = h !! p).
Proof.
  intros Ho Hnil. unfold wrap_entry, wrapped. destruct o as [o|], e as [p|]; try done; cbn in Ho.
  - destruct (counterCall _ _); cbn; [|by exists h]. unfold deref_op. rewrite Ho, bind_Ok. eexists. split; [done|].
    split; [apply lookup_insert_eq|]. intros q Hq. apply lookup_insert_ne. intros ->. apply Hq. left.
  - rewrite (Hnil eq_refl). by exists h.
Qed.

Lemma wrap_loop k h jt ops result :
  represents h jt ops → NoDup (pointers jt) →
  (∀ i, ops !! i = Some None → counterCall (@SimpleCounterOperations X E) (Z.of_nat (k + i)) = None) →
  ∃ h', foldM (wrap_entry SimpleCounterOperations) (h, result) (imap (λ i e, ((k + i)%nat, e)) jt) = Ok (h', result ++ jt) ∧
    represents h' jt (imap (λ i, option_map (wrapped (k + i))) ops) ∧ (∀ p, p ∉ pointers jt → h' !! p = h !! p).
Proof.
  revert k h ops result. induction jt as [|e jt IH]; intros k h ops result H Hn Hnil.
  { apply Forall2_nil_inv_l in H as ->. exists h. split_and!; [by rewrite app_nil_r|constructor|done]. }
  apply Forall2_cons_inv_l in H as (o & ops' & Ho & H & ->).
  destruct (wrap_entry_wraps (k + 0) h e o result Ho) as (h1 & E1 & P1 & F1).
  { intros ->. by apply (Hnil 0%nat). }
  assert (∀ p, p ∈ pointers [e] → p ∉ pointers jt) as Hd.
  { destruct e as [q|]; [|by intros p ?%elem_of_nil]. intros p ->%list_elem_of_singleton. by apply NoDup_cons in Hn as [? _]. }
  assert (∀ p, p ∈ pointers jt → h1 !! p = h !! p) as F1' by (intros p Hp; apply F1; intros Hp'; by apply (Hd p)).
  destruct (IH (S k) h1 ops' (result ++ [e])) as (h' & E' & R' & F').
  - by apply (represents_frame h).
  - destruct e; [by apply NoDup_cons in Hn as [_ ?]|done].
  - intros i Hi. replace (S k + i)%nat with (k + S i)%nat by lia. by apply Hnil.
  - exists h'. cbn [imap foldM]. rewrite E1, bind_Ok. split_and!.
    + rewrite <-app_assoc in E'. etransitivity; [|exact E']. f_equal. apply imap_ext. intros i x _. cbn. f_equal. lia.
    + constructor.
      * destruct e as [p|], o as [o|]; try done; cbn in *. rewrite F'; [done|]. apply Hd. left.
      * erewrite imap_ext; [exact R'|]. intros i x _. cbn. f_equal. f_equal. lia.
    + intros p Hp. rewrite F', F1; [done|..]; intros Hp'; apply Hp; destruct e as [q|]; try done.
      * apply list_elem_of_singleton in Hp' as ->. left.
      * by apply elem_of_nil in Hp'.
      * by right.
Qed.

(** The table of a new interpreter has copies of the operations, each wrapped once;
    the operations of the instruction set are as they were. *)
Lemma NewZKEVMInterpreter_table h jt ops :
  represents h jt ops →
  (∀ i, ops !! i = Some None → counterCall (@SimpleCounterOperations X E) (Z.of_nat i) = None) →
  ∃ h' jt', NewZKEVMInterpreter h jt true = Ok (h', jt') ∧ h ⊆ h' ∧
    represents h' jt' (imap (λ i, option_map (wrapped i)) ops).
Proof.
  intros H Hnil. unfold NewZKEVMInterpreter.
  destruct (copyJumpTable_copies _ _ _ H) as ([h1 jt1] & -> & [Hs Ht Hn Hf]). cbn [fst snd] in *. rewrite bind_Ok.
  destruct (wrap_loop 0 h1 jt1 ops [] Ht Hn Hnil) as (h' & E' & R' & F').
  unfold WrapJumpTableWithZkCounters. change (imap pair jt1) with (imap (λ i e, ((0 + i)%nat, e)) jt1).
  rewrite E', bind_Ok. exists h', jt1. split_and!; [done| |exact R'].
  apply map_subseteq_spec. intros p o Hp. rewrite F'; [by apply (lookup_weaken h)|].
  intros Hp'. rewrite Forall_forall in Hf. specialize (Hf p Hp'). congruence.
Qed.
End tables.

(** * Runs of the interpreter *)

(** The result with other counters. *)
Definition recounted {X} (cc : CounterCollector) (r : result X) : result X :=
  mkResult (set_cc (r_machine r) cc) (r_ret r) (r_err r).

(** A function of an operation that does not read the counters and charges at most
    [W] (the nested run of a call). *)
Definition execute_blind {X} (W : Z) (f : executionFunc X) : Prop := ∀ m cc,
  levels_ok cc → room W cc → ∃ cc', grows W cc cc' ∧ f (set_cc m cc) = recounted cc' <$> f m.

(** A gas function does not use the counters. *)
Definition gas_blind {X} (f : machine X → Z → outcome (machine X * Z * option string)) : Prop := ∀ m size cc,
  f (set_cc m cc) size = (λ '(m', gas, err), (set_cc m' cc, gas, err)) <$> f m size.

Section runs.
Context {X : Type} {E : EVMState X} (M W : Z) (HM : 0 ≤ M ≤ maxMemory) (HW : 0 ≤ W).
Context (Inv : machine X → Prop).

(** What the original operation of an index has to satisfy: it is blind to the
    counters; once the interpreter has checked the stack and has charged the gas, the
    operands that its cost reads are there and the sizes are at most [M]; and it
    keeps the invariant [Inv] of the machine. *)
Record operation_ok (i : nat) (o : operation X) : Prop := {
  ok_execute : execute_blind W (execute o);
  ok_gas : ∀ gas, dynamicGas o = Some gas → gas_blind gas;
  ok_prepare : ∀ m m', Inv m → prepare o m = Ok (inl m') → Inv m' ∧ scope_ok M (operands (Z.of_nat i)) m';
  ok_step : ∀ m r, Inv m → execute o m = Ok r → r_err r = None →
    Inv (set_evm (r_machine r) (incPc (m_evm (r_machine r))));
}.

(** The outcome of [prepare] with other counters. *)
Definition reprepared (cc : CounterCollector) (p : machine X + result X) : machine X + result X :=
  match p with inl m => inl (set_cc m cc) | inr r => inr (recounted cc r) end.

Lemma prepare_blind o m cc :
  (∀ gas, dynamicGas o = Some gas → gas_blind gas) → prepare o (set_cc m cc) = reprepared cc <$> prepare o m.
Proof.
  intros Hg. unfold prepare. cbn [m_scope m_evm set_cc].
  destruct (_ <? _); [done|]. destruct (_ <? _); [done|]. destruct (UseGas _ _) as [x|]; [|done].
  unfold use_dynamic_gas. destruct (dynamicGas o) as [gas|]; [|done].
  change (set_evm (set_cc m cc) x) with (set_cc (set_evm m x) cc).
  change (memory_size o (set_cc (set_evm m x) cc)) with (memory_size o (set_evm m x)).
  destruct (memory_size o _) as [size|]; [|done].
  rewrite (Hg gas eq_refl). destruct (gas (set_evm m x) size) as [[[m' cost] [err|]]|e|]; try done. cbn.
  by destruct (UseGas _ _).
Qed.

Lemma prepare_wrapped i o m : prepare (wrapped i o) m = prepare o m.
Proof. unfold wrapped. by destruct (counterCall _ _). Qed.

Lemma cost_step i f m cc :
  counterCall SimpleCounterOperations (Z.of_nat i) = Some f →
  levels_ok cc → room (op_bound M) cc → scope_ok M (operands (Z.of_nat i)) m →
  ∃ cc', grows (op_bound M) cc cc' ∧ f (set_cc m cc) = Ok (mkResult (set_cc m cc') [] None).
Proof.
  intros Hf Hl Hr [? ? ? ?]. destruct (counterCall_ok M HM _ _ Hf (set_cc m cc)) as (cc' & E' & G'); [done..|].
  by exists cc'.
Qed.

Lemma execute_wrapped i o m cc :
  operation_ok i o → levels_ok cc → room (op_bound M + W) cc → scope_ok M (operands (Z.of_nat i)) m →
  ∃ cc', grows (op_bound M + W) cc cc' ∧ execute (wrapped i o) (set_cc m cc) = recounted cc' <$> execute o m.
Proof.
  intros Ho Hl Hr Hs. assert (0 ≤ op_bound M) by (unfold op_bound; lia).
  assert (∃ c1, grows (op_bound M) cc c1 ∧ execute (wrapped i o) (set_cc m cc) = execute o (set_cc m c1)) as (c1 & G1 & ->).
  { unfold wrapped. destruct (counterCall _ _) as [f|] eqn:Ef; [|exists cc; split; [by apply grows_refl|done]].
    destruct (cost_step i f m cc Ef Hl) as (c1 & G1 & E1); [by apply (room_weaken (op_bound M + W)); [lia|]|done|].
    exists c1. split; [done|]. cbn. unfold wrapper. by rewrite E1, bind_Ok. }
  destruct (ok_execute _ _ Ho m c1) as (c2 & G2 & E2).
  - by apply (levels_ok_grows (op_bound M) cc).
  - by apply (room_grows (op_bound M) W cc).
  - exists c2. split; [by apply (grows_trans _ _ _ c1)|done].
Qed.

Lemma loop_blind fuel h jt h' jt' ops steps res m cc :
  represents h jt ops → represents h' jt' (imap (λ i, option_map (wrapped i)) ops) →
  (∀ i o, ops !! i = Some (Some o) → operation_ok i o) →
  Inv m → levels_ok cc → room (Z.of_nat fuel * (op_bound M + W)) cc →
  ∃ cc', grows (Z.of_nat fuel * (op_bound M + W)) cc cc' ∧
    RunZk_loop fuel h' jt' steps res (set_cc m cc) = option_map (recounted cc') <$> RunZk_loop fuel h jt steps res m.
Proof.
  intros Hj Hj' Hok. assert (0 ≤ op_bound M + W) as HB by (unfold op_bound; lia).
  revert steps res m cc. induction fuel as [|fuel IH]; intros steps res m cc Hi Hl Hr.
  { exists cc. split; [by apply grows_refl|done]. }
  assert (grows (Z.of_nat (S fuel) * (op_bound M + W)) cc cc) as Hstay by (apply grows_refl; nia).
  cbn [RunZk_loop]. change (m_evm (set_cc m cc)) with (m_evm m).
  destruct (_ && _); [by exists cc|].
  rewrite (table_op_represents _ _ _ _ Hj), (table_op_represents _ _ _ _ Hj').
  set (op := GetOp (m_evm m)). unfold go_index. destruct (op <? 0); [by exists cc|].
  rewrite list_lookup_imap. destruct (ops !! Z.to_nat op) as [[o|]|] eqn:Eo; cbn [fmap option_fmap option_map];
    [|by exists cc..].
  rewrite !bind_Ok. specialize (Hok _ _ Eo). rewrite prepare_wrapped, (prepare_blind o m cc (ok_gas _ _ Hok)).
  destruct (prepare o m) as [[m1|r]|e|] eqn:Ep; [|by exists cc..]. rewrite fmap_Ok, !bind_Ok. cbn [reprepared].
  destruct (ok_prepare _ _ Hok _ _ Hi Ep) as [Hi1 Hs].
  replace (Z.of_nat (S fuel) * (op_bound M + W)) with ((op_bound M + W) + Z.of_nat fuel * (op_bound M + W)) in * by lia.
  destruct (execute_wrapped _ o m1 cc Hok Hl) as (c1 & G1 & E1).
  - apply (room_weaken ((op_bound M + W) + Z.of_nat fuel * (op_bound M + W))); [nia|done].
  - done.
  - rewrite E1. assert (room (Z.of_nat fuel * (op_bound M + W)) c1) as Hr1 by by apply (room_grows (op_bound M + W) _ cc).
    assert (∀ c2, grows (Z.of_nat fuel * (op_bound M + W)) c1 c2 →
      grows ((op_bound M + W) + Z.of_nat fuel * (op_bound M + W)) cc c2) as Hg by (intros c2; by apply grows_trans).
    destruct (execute o m1) as [r|e|] eqn:Ex; cbn [fmap outcome_fmap]; [|by exists cc..].
    rewrite !bind_Ok. cbn [r_err recounted]. destruct (r_err r) as [err|] eqn:Er.
    + exists c1. split; [|done]. apply Hg, grows_refl. nia.
    + destruct (IH (steps + 1) (r_ret r) _ c1 (ok_step _ _ Hok _ _ Hi1 Ex Er)) as (c2 & G2 & E2); [|done|].
      * by apply (levels_ok_grows (op_bound M + W) cc).
      * exists c2. split; [by apply Hg|exact E2].
Qed.

(** C19. An interpreter with a counter collector runs every contract as the shared
    instruction set would, and the counters are exact.  NewZKEVMInterpreter succeeds,
    leaves the operations of the instruction set as they are, and its own table has
    for every opcode the original operation, with its cost function called once
    before it.  The main loop over this table ends in the same way as over the original
    one (the same state, stack, bytes, error or panic, or both still run) and differs
    in the counters only: what is used grows and what remains shrinks by the same
    amount, without a wrap-around of [int], by at most [op_bound M + W] per operation,
    and an overflow, once there, stays.  This is for original operations that do not
    read the counters and charge at most [W] in nested runs, for memory and code
    sizes of at most [M], and for counters that are at least the whole bound away from
    the ends of [int]. *)
Theorem interpreter_transparent h jt ops fuel m :
  represents h jt ops →
  (∀ i, ops !! i = Some None → counterCall (@SimpleCounterOperations X E) (Z.of_nat i) = None) →
  (∀ i o, ops !! i = Some (Some o) → operation_ok i o) →
  Inv m → levels_ok (m_cc m) → room (Z.of_nat fuel * (op_bound M + W)) (m_cc m) →
  ∃ h' jt' cc', NewZKEVMInterpreter h jt true = Ok (h', jt') ∧ h ⊆ h' ∧
    represents h' jt' (imap (λ i, option_map (wrapped i)) ops) ∧
    RunZk_loop fuel h' jt' 0 [] m = option_map (recounted cc') <$> RunZk_loop fuel h jt 0 [] m ∧
    grows (Z.of_nat fuel * (op_bound M + W)) (m_cc m) cc' ∧
    (isOverflown (m_cc m) = true → isOverflown cc' = true).
Proof.
  intros Hj Hnil Hok Hi Hl Hr. destruct (NewZKEVMInterpreter_table h jt ops Hj Hnil) as (h' & jt' & EN & Hs & Hj').
  destruct (loop_blind fuel h jt h' jt' ops 0 [] m (m_cc m)) as (cc' & G & ER); [done..|].
  exists h', jt', cc'. split_and!; [done..|by destruct m|done|]. by apply (overflown_grows _ _ _ G).
Qed.
End runs.

(** A machine whose state is the rest of the program, and an operation that does
    nothing but end the run at STOP.  One object is the whole instruction set. *)
Section sample.
Local Instance sample_evm : EVMState (list Z) := {
  GetCodeSize _ _ := 100; GetNonce _ _ := 1; Cancelled _ := false; GetOp x := default 0 (head x);
  UseGas x _ := Some x; Resize x _ := x; incPc := tail }.

Definition sample_op : operation (list Z) :=
  mkOperation (λ m, Ok (mkResult m [] (if GetOp (m_evm m) =? 0 then Some errStopToken else None)))
    3 None 1024 7 1 false false false 0 None.
Definition sample_scope : ScopeContext := mkScope false false 1 [0; 64; 0; 32; 7; 55; 50000].

Lemma operands_range op : (operands op).1 ≤ 7 ∧ Forall (λ p, 2 ≤ p ≤ 7) (operands op).2.
Proof. unfold operands. repeat case_decide; (split; [cbn; lia|]); repeat constructor; lia. Qed.

Lemma sample_sizes : Forall (λ p, ∀ x, PeekAt sample_scope p = Ok x → 0 ≤ x ≤ 100) (seqZ 2 6).
Proof. cbn. repeat (apply Forall_cons_2; [intros x [= <-]; lia|]). apply Forall_nil_2. Qed.

Lemma sample_op_ok i : operation_ok 100 0 (λ m, m_scope m = sample_scope) i sample_op.
Proof.
  pose proof (operands_range (Z.of_nat i)) as [Hlen Hpos]. split.
  - intros m cc _ _. exists cc. split; [by apply grows_refl|done].
  - done.
  - intros [cc s x] m' Hs Hp. cbn in Hs. subst s. cbn in Hp. injection Hp as <-. split; [done|]. split; cbn.
    + lia.
    + apply (Forall_impl _ _ _ Hpos). intros p Hp. apply (proj1 (Forall_forall _ _) sample_sizes). apply elem_of_seqZ. lia.
    + repeat constructor; lia.
    + lia.
  - intros m r Hs [= <-] _. exact Hs.
Qed.

(** ADD, MLOAD, STATICCALL and STOP. *)
Lemma interpreter_transparent_witness :
  let m := mkMachine (NewCounterCollector 100 80 11) sample_scope [0x01; 0x51; 0xfa; 0x00] in
  ∃ h' jt' cc', NewZKEVMInterpreter {[ 0%nat := sample_op ]} (replicate 256 (Some 0%nat)) true = Ok (h', jt') ∧
    RunZk_loop 4 h' jt' 0 [] m = Ok (Some (mkResult (mkMachine cc' sample_scope [0x00]) [] None)) ∧
    grows (4 * (op_bound 100 + 0)) (m_cc m) cc'.
Proof.
  intros m.
  destruct (interpreter_transparent 100 0 ltac:(split; vm_compute; discriminate) ltac:(lia) (λ m, m_scope m = sample_scope)
    {[ 0%nat := sample_op ]} (replicate 256 (Some 0%nat)) (replicate 256 (Some sample_op)) 4 m)
    as (h' & jt' & cc' & EN & _ & _ & ER & G & _).
  - by repeat constructor.
  - intros i [? _]%lookup_replicate. done.
  - intros i o [[= ->] _]%lookup_replicate. apply sample_op_ok.
  - done.
  - split; vm_compute; discriminate.
  - intros k. destruct k; (split; split; vm_compute; congruence).
  - exists h', jt', cc'. split_and!; [exact EN| |exact G]. rewrite ER. reflexivity.
Defined.
End sample.

(** * The early exit of multiCall *)

Lemma multiCall_loop_exit call n i cc b :
  Charges call b → levels_ok cc → room (Z.of_nat n * b) cc →
  multiCall_loop call n i cc = Nat.iter n call cc ∨
  isOverflown (multiCall_loop call n i cc) = true ∧ isOverflown (Nat.iter n call cc) = true.
Proof.
  intros Hc. pose proof (ch_bound _ _ Hc). revert i cc. induction n as [|n IH]; intros i cc Hl Hr; [by left|].
  cbn [multiCall_loop]. destruct (_ && isOverflown cc) eqn:Eo.
  - right. apply andb_prop in Eo as [_ Eo]. split; [done|].
    apply (overflown_grows (Z.of_nat (S n) * b) cc); [|done]. by apply (Charges_iter (S n) call b Hc).
  - rewrite iter_succ_r. replace (Z.of_nat (S n) * b) with (b + Z.of_nat n * b) in Hr by lia.
    assert (grows b cc (call cc)) as Hg by (apply Hc; [done|]; apply (room_weaken (b + Z.of_nat n * b)); [nia|done]).
    apply IH; [by apply (levels_ok_grows b cc)|by apply (room_grows b _ cc)].
Qed.

(** Leaving multiCall early is sound: where the counters do not wrap around, it
    finds an overflow exactly when all the repetitions would, and without an overflow
    it has made all of them. *)
Theorem multiCall_early_exit call times cc b :
  Charges call b → levels_ok cc → room (Z.max 0 times * b) cc →
  isOverflown (multiCall call times cc) = isOverflown (repeat_cost times call cc) ∧
  (isOverflown (multiCall call times cc) = false → multiCall call times cc = repeat_cost times call cc).
Proof.
  intros Hc Hl Hr. unfold multiCall, repeat_cost.
  replace (Z.max 0 times) with (Z.of_nat (Z.to_nat times)) in Hr by lia.
  destruct (multiCall_loop_exit call (Z.to_nat times) 0 cc b Hc Hl Hr) as [->|[-> ->]]; done.
Qed.

(** A cost of 40 steps, 2500 times, on a collector with 50000 steps. *)
Lemma multiCall_early_exit_witness :
  let cc := mkCollector (build (λ _, mkCounter 50000 0 "limit" 50000)) 80 false 11 in
  isOverflown (multiCall divArith 2500 cc) = isOverflown (repeat_cost 2500 divArith cc) ∧
  bool_decide (used (get (counters (multiCall divArith 2500 cc)) KS) = 80000) = true.
Proof.
  intros cc. split; [|vm_compute; reflexivity].
  destruct (multiCall_early_exit divArith 2500 cc 44) as [He _]; [| | |exact He].
  - apply Charges_divArith.
  - split; vm_compute; discriminate.
  - intros k. destruct k; (split; split; vm_compute; congruence).
Defined.

(** * The cost of a P-256 verification *)

(** The order of the group, and the coefficients of the curve. *)
Definition p256_order : Z := 0xffffffff00000000ffffffffffffffffbce6faada7179e84f3b9cac2fc632551.
Definition on_p256 (x y : Z) : Prop :=
  y ^ 2 mod SECP256R1_P = (x ^ 3 + SECP256R1_A * x + SECP256R1_B) mod SECP256R1_P.

(** [a - 1] is [-4]: its inverse modulo the prime of the curve. *)
Lemma p256_a_minus_one_cancel x :
  ((SECP256R1_A - 1) * x) mod SECP256R1_P = 0 → x mod SECP256R1_P = 0.
Proof.
  intros H. set (i := 0xbfffffff40000000c00000000000000000000000bfffffffffffffffffffffff).
  assert ((i * (SECP256R1_A - 1)) mod SECP256R1_P = 1) as Hi by (vm_compute; reflexivity).
  rewrite <-(Z.mul_1_l x), <-Hi, Z.mul_mod_idemp_l by (vm_compute; discriminate).
  rewrite <-Z.mul_assoc, <-Z.mul_mod_idemp_r, H by (vm_compute; discriminate). by rewrite Z.mul_0_r.
Qed.

(** The two sides the code compares differ on every point of the curve but those
    with [x = 0]. *)
Lemma p256_equation_differs x y :
  0 < x < SECP256R1_P → on_p256 x y →
  y ^ 2 mod SECP256R1_P ≠ (x ^ 3 mod SECP256R1_P + (x + SECP256R1_B)) mod SECP256R1_P.
Proof.
  intros Hx Hc E. assert (SECP256R1_P ≠ 0) as Hp by lia.
  rewrite Hc, Z.add_mod_idemp_l in E by done.
  assert (((SECP256R1_A - 1) * x) mod SECP256R1_P = 0) as H0.
  { replace ((SECP256R1_A - 1) * x) with
      ((x ^ 3 + SECP256R1_A * x + SECP256R1_B) - (x ^ 3 + (x + SECP256R1_B))) by ring.
    rewrite Zminus_mod, E, Z.sub_diag. apply Z.mod_0_l. done. }
  apply p256_a_minus_one_cancel in H0. rewrite Z.mod_small in H0 by lia. lia.
Qed.

(** p256verify charges a valid signature as if its point were not on the
    curve: [Mul(x, A).Add(x, B)] overwrites the product, so the equation it
    tests is y^2 = x^3 + x + b, and no point of the curve with [x <> 0]
    satisfies it.  The cost of a verification (7718 steps) is charged to none. *)
Theorem p256verify_undercharges_curve_points r s x y cc :
  0 < r < p256_order → 0 < s < p256_order →
  0 < x < SECP256R1_P → 0 ≤ y < SECP256R1_P → on_p256 x y →
  p256verify r s x y cc = (Deduct KS 104 ;> Deduct KB 15 ;> Deduct KA 12) cc.
Proof.
  intros Hr Hs Hx Hy Hc.
  assert (SECP256R1_N_MINUS_ONE = SECP256R1_P - 1) as EN by reflexivity.
  assert (SECP256R1_P_MINUS_ONE = SECP256R1_P - 1) as EP by reflexivity.
  assert (p256_order ≤ SECP256R1_P) as Ho by (vm_compute; discriminate).
  unfold p256verify. rewrite EN, EP.
  rewrite (proj2 (Z.eqb_neq r 0)), (proj2 (Z.eqb_neq s 0)), (proj2 (Z.eqb_neq x 0)) by lia.
  rewrite !(proj2 (Z.ltb_ge (SECP256R1_P - 1) _)) by lia. cbn [andb].
  cbv zeta. rewrite (proj2 (Z.eqb_neq _ _)); [reflexivity|]. by apply p256_equation_differs.
Qed.

(** The generator of the group. *)
Lemma p256verify_undercharges_witness :
  let cc := NewUnlimitedCounterCollector in
  p256verify 1 1 0x6b17d1f2e12c4247f8bce6e563a440f277037d812deb33a0f4a13945d898c296
    0x4fe342e2fe1a7f9b8ee7eb4a7c0f9e162bce33576b315ececbb6406837bf51f5 cc =
  (Deduct KS 104 ;> Deduct KB 15 ;> Deduct KA 12) cc.
Proof.
  intros cc. apply p256verify_undercharges_curve_points; [split; vm_compute; reflexivity..| |].
  - split; [vm_compute; discriminate|vm_compute; reflexivity].
  - vm_compute; reflexivity.
Defined.

(** * The cost of modular exponentiation *)

Lemma foldl_mul_zero l : foldl Z.mul 0 l = 0.
Proof. induction l as [|a l IH]; [done|]. cbn [foldl]. by rewrite Z.mul_0_l. Qed.

Lemma newMul_zero x vals : newMul x vals = 0.
Proof. apply foldl_mul_zero. Qed.

(** Every product in the cost of a modular exponentiation is zero, because
    newMul multiplies up from zero: the setup is charged 86 steps whatever the
    length of the base and the quotient, and an iteration charges the same for
    every length of the exponent. *)
Theorem modexp_products_vanish lenB lenM lenE lenE' q r lenQE2 lenQE2' :
  (setupAndFirstDivCounters lenB lenM q r).1.1 = 86 ∧
  halfLoopCounters lenB lenM lenE lenQE2 = halfLoopCounters lenB lenM lenE' lenQE2' ∧
  fullLoopCounters lenB lenM lenE lenQE2 = fullLoopCounters lenB lenM lenE' lenQE2'.
Proof.
  split_and!.
  - unfold setupAndFirstDivCounters. repeat case_match. simplify_eq/=. by rewrite !newMul_zero.
  - unfold halfLoopCounters. by rewrite !newMul_zero.
  - unfold fullLoopCounters. by rewrite !newMul_zero.
Qed.

(** * Limits *)

Lemma safetyPercentage_between forkId : between 0 1 3 (safetyPercentage forkId).
Proof. unfold safetyPercentage. destruct (_ =? _); [|destruct (_ =? _)]; by apply f64_of_ratio_between; lia. Qed.

(** A positive limit stays positive and does not grow. *)
Lemma applyDeduction_bounds forkId x : 0 < x < 2 ^ 40 → 1 ≤ applyDeduction forkId x ≤ x.
Proof.
  intros Hx. unfold applyDeduction. apply (f64_ceil_between (x * (2 ^ 3 - 1)) (x * 2 ^ 3) 3); [lia..|].
  apply f64_sub_between; [lia..|]. rewrite <-(Z.mul_0_r x) at 1.
  apply f64_mul_between; [lia..|]. apply safetyPercentage_between.
Qed.

Lemma rewriteTotalSteps_bounds p x :
  MinPercentage ≤ p ≤ MaxPercentage → 0 ≤ x < 2 ^ 40 → x / 8 ≤ rewriteTotalSteps p x ≤ x.
Proof.
  unfold MinPercentage, MaxPercentage. intros Hp Hx. unfold rewriteTotalSteps.
  apply (f64_floor_between (x * 1) (x * 8) 3).
  - lia.
  - pose proof (Z.mul_div_le x 8). lia.
  - lia.
  - apply f64_mul_between; [lia..|]. unfold f64_div.
    rewrite !f64_of_Z_exact by lia. pose proof (f_den_pos (f64_of_Z p)). pose proof (f_den_pos (f64_of_Z 100)).
    apply f64_of_ratio_between; nia.
Qed.

Lemma getTotalSteps_bounds p forkId :
  MinPercentage ≤ p ≤ MaxPercentage → 2 ^ 20 ≤ getTotalSteps p forkId ≤ 2 ^ 25.
Proof.
  intros Hp. unfold getTotalSteps, stepDeduction. destruct (_ <? _); [by split|].
  destruct (_ =? _).
  - change (Z.shiftl 1 24 - 200) with 16777016. pose proof (rewriteTotalSteps_bounds p 16777016 Hp). lia.
  - change (Z.shiftl 1 25 - 200) with 33554232. pose proof (rewriteTotalSteps_bounds p 33554232 Hp). lia.
Qed.

(** C33. For every percentage that SetBatchCounterLimitPercentage accepts and on
    every fork, a new collector has a positive limit of at most 2^25 for every
    counter, nothing is used and the remaining amount is the limit. *)
Theorem getCounterLimits_bounds factor p forkId k :
  SetBatchCounterLimitPercentage factor = Ok p →
  let c := get (getCounterLimits p forkId) k in
  0 < remaining c ≤ 2 ^ 25 ∧ used c = 0 ∧ initialAmount c = remaining c.
Proof.
  unfold SetBatchCounterLimitPercentage.
  destruct (Z.ltb_spec factor MinPercentage); [done|]. destruct (Z.ltb_spec MaxPercentage factor); [done|].
  intros [= <-]. pose proof (getTotalSteps_bounds factor forkId ltac:(lia)) as Ht.
  unfold getCounterLimits. set (t := getTotalSteps factor forkId) in *.
  assert (∀ x, 0 < x ≤ 2 ^ 25 → 0 < applyDeduction forkId x ≤ 2 ^ 25) as Hd
    by (intros x Hx; pose proof (applyDeduction_bounds forkId x ltac:(lia)); lia).
  rewrite !floor_div_exact by lia. rewrite !Z.shiftr_div_pow2 by lia. cbv zeta.
  pose proof (Hd t ltac:(lia)). pose proof (Hd (t / 2 ^ 5) ltac:(lia)). pose proof (Hd (t / 2 ^ 4) ltac:(lia)).
  pose proof (Hd (t / 155286 * 44) ltac:(lia)). pose proof (Hd (t / 56) ltac:(lia)).
  pose proof (Hd (t / 31) ltac:(lia)). pose proof (Hd ((t - 1) / 31488 * 7) ltac:(lia)).
  destruct k; cbn [get createCountrsByLimits remaining used initialAmount c_S c_A c_B c_M c_K c_D c_P c_SHA
    totalSteps arith binary memAlign keccaks padding poseidon sha256]; try lia.
  destruct (Z.ltb_spec (applyDeduction forkId (t / 2 ^ 5)) 500000); lia.
Qed.

Lemma getCounterLimits_bounds_witness :
  let c := get (getCounterLimits 60 11) KP in
  0 < remaining c ≤ 2 ^ 25 ∧ used c = 0 ∧ initialAmount c = remaining c.
Proof. apply (getCounterLimits_bounds 60). reflexivity. Defined.
