(* ===== verification/BatchCounters.v ===== *)
(** The counters of a batch: core/vm/zk_transaction_counters.go and
    core/vm/zk_batch_counters.go.

    A batch collector keeps pointers to the counters of its transactions, which
    the EVM and the caller go on changing after they are added, and three sums
    over them that it updates on its own.  The counters of transactions
    therefore live in a store, and the collector holds their addresses.

    [pct] is the package variable gCounterLimitPercentage. *)

From stdpp Require Import gmap.
From Stdlib Require Import Strings.Byte.
From S2P Require Import Prelude Bytes Float64 Rlp L2Data ZkCounters.

Local Open Scope Z_scope.
Local Open Scope cost_scope.

(** * Transactions *)

Record TransactionCounter := mkTransactionCounter {
  transaction : LegacyTx;
  rlpCounters : CounterCollector;
  executionCounters : CounterCollector;
  processingCounters : CounterCollector;
  tc_smtLevels : Z;
  tc_forkId : Z;
  l2DataCache : option (list byte);
}.

Definition set_rlp (tc : TransactionCounter) (c : CounterCollector) : TransactionCounter :=
  mkTransactionCounter (transaction tc) c (executionCounters tc) (processingCounters tc) (tc_smtLevels tc)
    (tc_forkId tc) (l2DataCache tc).
Definition set_execution (tc : TransactionCounter) (c : CounterCollector) : TransactionCounter :=
  mkTransactionCounter (transaction tc) (rlpCounters tc) c (processingCounters tc) (tc_smtLevels tc)
    (tc_forkId tc) (l2DataCache tc).
Definition set_processing (tc : TransactionCounter) (c : CounterCollector) : TransactionCounter :=
  mkTransactionCounter (transaction tc) (rlpCounters tc) (executionCounters tc) c (tc_smtLevels tc)
    (tc_forkId tc) (l2DataCache tc).
Definition set_cache (tc : TransactionCounter) (d : list byte) : TransactionCounter :=
  mkTransactionCounter (transaction tc) (rlpCounters tc) (executionCounters tc) (processingCounters tc)
    (tc_smtLevels tc) (tc_forkId tc) (Some d).

Definition IsContractDeploy (tx : LegacyTx) : bool :=
  match To tx with None => true | Some _ => false end.

Definition SetTransaction (cc : CounterCollector) (tx : LegacyTx) : CounterCollector :=
  mkCollector (counters cc) (smtLevels cc) (IsContractDeploy tx) (forkId cc).

Definition NewTransactionCounter (pct : Z) (transaction : LegacyTx) (smtMaxLevel forkId : Z) (mcpReduction : f64)
    (shouldCountersBeUnlimited : bool) : TransactionCounter :=
  let totalLevel := calculateSmtLevels smtMaxLevel 32 mcpReduction in
  let tc :=
    if shouldCountersBeUnlimited then
      mkTransactionCounter transaction NewUnlimitedCounterCollector NewUnlimitedCounterCollector
        NewUnlimitedCounterCollector 1 forkId None
    else
      let cc := NewCounterCollector pct totalLevel forkId in
      mkTransactionCounter transaction cc cc cc totalLevel forkId None in
  set_execution tc (SetTransaction (executionCounters tc) transaction).

(** CombineCountersInto replaces what is used and keeps the rest of [combined],
    CombineCounters starts from entries that are nil. *)
Definition CombineCountersInto (tc : TransactionCounter) (combined : Counters) : Counters :=
  build (λ k,
    let c := get combined k in
    mkCounter (remaining c)
      (to_int (used (get (counters (rlpCounters tc)) k) + used (get (counters (executionCounters tc)) k) +
       used (get (counters (processingCounters tc)) k)))
      (name c) (initialAmount c)).

Definition CombineCounters (tc : TransactionCounter) : Counters := CombineCountersInto tc NewEmptyCounters.

Definition MaxEffectivePercentage : Z := 255.

Definition GetL2DataCache (tc : TransactionCounter) : outcome (TransactionCounter * list byte) :=
  match l2DataCache tc with
  | Some data => Ok (tc, data)
  | None =>
      data ← TransactionToL2Data (transaction tc) 8 MaxEffectivePercentage;
      Ok (set_cache tc data, data)
  end.

(** The number of bytes of a number printed in hexadecimal and completed to
    whole bytes; zero is printed as one digit. *)
Definition hex_bytes (x : Z) : Z :=
  let digits := if x =? 0 then 1 else Z.of_nat (ndigits 4 x) in
  Z.quot (digits + digits mod 2) 2.

Definition rlp_cost (tx : LegacyTx) (txRlpLength : Z) : cost :=
  let txDataLen := Z.of_nat (length (Data tx)) in
  Deduct KS 250 ;> Deduct KB (1 + 1) ;> Deduct KK (ceil_div (to_int (txRlpLength + 1)) 136) ;>
  Deduct KP (ceil_div (to_int (txRlpLength + 1)) 56 + 3) ;> Deduct KD (ceil_div (to_int (txRlpLength + 1)) 56 + 3) ;>
  multiCall addBatchHashData 21 ;> Deduct KS (6 * 7) ;>
  getLenBytes 3 ;> getLenBytes (hex_bytes (GasPrice tx)) ;> getLenBytes (hex_bytes (Gas tx)) ;>
  getLenBytes (hex_bytes (default 0 (Value tx))) ;> cost_if (56 <=? txDataLen) (getLenBytes txDataLen) ;>
  getLenBytes (hex_bytes (GetChainID tx)) ;> getLenBytes (hex_bytes (Nonce tx)) ;>
  divArith ;> multiCall addHashTx (9 + Z.shiftr txDataLen 5) ;> multiCall addL2HashTx (8 + Z.shiftr txDataLen 5) ;>
  multiCall addBatchHashByteByByte txDataLen ;> SHLarith ;>
  ecRecover (GetDecodedV tx (V tx)) (R tx) (S_ tx) false.

Definition CalculateRlp (pct : Z) (tc : TransactionCounter) : outcome TransactionCounter :=
  '(tc, raw) ← GetL2DataCache tc;
  Ok (set_rlp tc (rlp_cost (transaction tc) (Z.of_nat (length raw))
    (NewCounterCollector pct (tc_smtLevels tc) (tc_forkId tc)))).

Definition process_cost (levels forkId byteCodeLength : Z) (isDeploy : bool) : cost :=
  Deduct KS 300 ;> (if ForkId13Durian <=? forkId then Deduct KB (12 + 7) else Deduct KB (11 + 7)) ;>
  Deduct KP (14 * levels) ;> Deduct KD 5 ;> Deduct KA 2 ;> Deduct KK 1 ;>
  multiCall isColdAddress 2 ;> multiCall addArith 3 ;> subArith ;> divArith ;> multiCall mulArith 4 ;>
  fillBlockInfoTreeWithTxReceipt ;> processContractCall levels byteCodeLength isDeploy false false.

(** [GetCodeSize] is the read of the state, by address. *)
Definition ProcessTx (pct : Z) (GetCodeSize : list byte → Z) (returnData : list byte) (tc : TransactionCounter) :
    TransactionCounter :=
  let '(byteCodeLength, isDeploy) :=
    match To (transaction tc) with
    | None => (Z.of_nat (length returnData), true)
    | Some a => (GetCodeSize a, false)
    end in
  set_processing tc (process_cost (tc_smtLevels tc) (tc_forkId tc) byteCodeLength isDeploy
    (NewCounterCollector pct (tc_smtLevels tc) (tc_forkId tc))).

(** * Batches *)

Record BatchCounterCollector := mkBatch {
  l2DataCollector : option CounterCollector;
  transactions : list nat;
  b_smtLevels : Z;
  smtLevelsForTransaction : Z;
  blockCount : Z;
  b_forkId : Z;
  b_unlimited : bool;
  addonCounters : option Counters;
  rlpCombined : Counters;
  executionCombined : Counters;
  processingCombined : Counters;
}.

Abbreviation store := (gmap nat TransactionCounter).

Definition BatchNewCounters (pct forkId : Z) (unlimited : bool) : Counters :=
  if unlimited then createCountrsByLimits unlimitedCounters else getCounterLimits pct forkId.

Definition NewBatchCounterCollector (pct smtMaxLevel forkId : Z) (mcpReduction : f64) (unlimited : bool)
    (addonCounters : option Counters) : BatchCounterCollector :=
  let c := BatchNewCounters pct forkId unlimited in
  mkBatch None [] (calculateSmtLevels smtMaxLevel 0 mcpReduction) (calculateSmtLevels smtMaxLevel 32 mcpReduction)
    0 forkId unlimited addonCounters c c c.

Definition set_transactions (b : BatchCounterCollector) (l : list nat) : BatchCounterCollector :=
  mkBatch (l2DataCollector b) l (b_smtLevels b) (smtLevelsForTransaction b) (blockCount b) (b_forkId b)
    (b_unlimited b) (addonCounters b) (rlpCombined b) (executionCombined b) (processingCombined b).
Definition set_blockCount (b : BatchCounterCollector) (n : Z) : BatchCounterCollector :=
  mkBatch (l2DataCollector b) (transactions b) (b_smtLevels b) (smtLevelsForTransaction b) n (b_forkId b)
    (b_unlimited b) (addonCounters b) (rlpCombined b) (executionCombined b) (processingCombined b).
Definition set_l2Data (b : BatchCounterCollector) (c : CounterCollector) : BatchCounterCollector :=
  mkBatch (Some c) (transactions b) (b_smtLevels b) (smtLevelsForTransaction b) (blockCount b) (b_forkId b)
    (b_unlimited b) (addonCounters b) (rlpCombined b) (executionCombined b) (processingCombined b).
Definition set_caches (b : BatchCounterCollector) (r e p : Counters) : BatchCounterCollector :=
  mkBatch (l2DataCollector b) (transactions b) (b_smtLevels b) (smtLevelsForTransaction b) (blockCount b) (b_forkId b)
    (b_unlimited b) (addonCounters b) r e p.

(** [c[k].used += v.used] for every key, and with the remaining amount. *)
Definition add_used (sign : Z) (c : Counters) (cc : CounterCollector) : Counters :=
  build (λ k, let x := get c k in
    mkCounter (remaining x) (to_int (used x + sign * used (get (counters cc) k))) (name x) (initialAmount x)).
Definition charge (c : Counters) (amount : CounterKey → Z) : Counters :=
  build (λ k, let x := get c k in
    mkCounter (to_int (remaining x - amount k)) (to_int (used x + amount k)) (name x) (initialAmount x)).

Definition UpdateRlpCountersCache (tc : TransactionCounter) (b : BatchCounterCollector) : BatchCounterCollector :=
  set_caches b (add_used 1 (rlpCombined b) (rlpCounters tc)) (executionCombined b) (processingCombined b).

Definition UpdateExecutionAndProcessingCountersCache (tc : TransactionCounter) (b : BatchCounterCollector) :
    BatchCounterCollector :=
  set_caches b (rlpCombined b) (add_used 1 (executionCombined b) (executionCounters tc))
    (add_used 1 (processingCombined b) (processingCounters tc)).

Definition UndoTransactionCountersCache (tc : TransactionCounter) (b : BatchCounterCollector) : BatchCounterCollector :=
  set_caches b (add_used (-1) (rlpCombined b) (rlpCounters tc))
    (add_used (-1) (executionCombined b) (executionCounters tc))
    (add_used (-1) (processingCombined b) (processingCounters tc)).

(** * Operations of a batch *)

Abbreviation bstate := (store * BatchCounterCollector)%type.

(** A pointer of the collector. *)
Definition deref (h : store) (id : nat) : outcome TransactionCounter :=
  match h !! id with Some tc => Ok tc | None => Panic end.

(** The length of the encoded transactions; GetL2DataCache fills their caches. *)
Definition encode_step (s : store * Z) (id : nat) : outcome (store * Z) :=
  let '(h, total) := s in
  tc ← deref h id;
  '(tc, l2Data) ← GetL2DataCache tc;
  Ok (<[id := tc]> h, total + Z.of_nat (length l2Data)).

Definition encoded_length (h : store) (ids : list nat) : outcome (store * Z) := foldM encode_step (h, 0) ids.

Definition l2Data_cost (smtLevels totalEncodedTxLength : Z) : cost :=
  Deduct KS 100 ;> Deduct KP smtLevels ;> Deduct KB 2 ;> divArith ;>
  Deduct KK (ceil_div (to_int (totalEncodedTxLength + 1)) 136) ;> failAssert ;> consolidateBlock ;> finishBatchProcessing.

Definition processBatchLevelData (pct : Z) : bstate → outcome bstate := λ '(h, b),
  '(h, total) ← encoded_length h (transactions b);
  let total := total + 9 * blockCount b in
  Ok (h, set_l2Data b (l2Data_cost (b_smtLevels b) total (NewCounterCollector pct (b_smtLevels b) (b_forkId b)))).

Definition used_of (cc : CounterCollector) (k : CounterKey) : Z := used (get (counters cc) k).

(** [combined[k].used = v.used; combined[k].remaining -= v.used] *)
Definition with_addon (combined : Counters) (addon : option Counters) : Counters :=
  match addon with
  | None => combined
  | Some a => build (λ k, let x := get combined k in
      mkCounter (to_int (remaining x - used (get a k))) (used (get a k)) (name x) (initialAmount x))
  end.

Definition change_counters (pct : Z) (b : BatchCounterCollector) (verifyMerkleProof : bool) :
    CounterCollector * CounterCollector :=
  let cc := NewCounterCollector pct (smtLevelsForTransaction b) (b_forkId b) in
  (processChangeL2Block verifyMerkleProof cc, decodeChangeL2BlockTx cc).

Definition CombineCollectors (pct : Z) (verifyMerkleProof : bool) : bstate → outcome (bstate * Counters) := λ '(h, b),
  let combined := with_addon (BatchNewCounters pct (b_forkId b) (b_unlimited b)) (addonCounters b) in
  '(h, b) ← processBatchLevelData pct (h, b);
  let '(changeL2BlockCounter, changeBlockCounters) := change_counters pct b verifyMerkleProof in
  let combined :=
    Nat.iter (Z.to_nat (blockCount b))
      (λ c, charge (charge c (used_of changeBlockCounters)) (used_of changeL2BlockCounter)) combined in
  let combined :=
    match l2DataCollector b with Some cc => charge combined (used_of cc) | None => combined end in
  Ok (h, b, charge combined (λ k,
    used (get (rlpCombined b) k) + used (get (executionCombined b) k) + used (get (processingCombined b) k))).

Definition CheckForOverflow (pct : Z) (verifyMerkleProof : bool) : bstate → outcome (bstate * bool) := λ '(h, b),
  if b_unlimited b then Ok (h, b, false)
  else
    '(s, combined) ← CombineCollectors pct verifyMerkleProof (h, b);
    Ok (s, existsb (λ k, remaining (get combined k) <? 0) all_keys).

Definition CombineCollectorsNoChanges (pct : Z) : bstate → outcome Counters := λ '(h, b),
  let combined := with_addon (BatchNewCounters pct (b_forkId b) (b_unlimited b)) (addonCounters b) in
  let combined :=
    match l2DataCollector b with Some cc => charge combined (used_of cc) | None => combined end in
  '(combined, _) ← foldM (λ '(combined, txCounters) id,
    tc ← deref h id;
    let txCounters := CombineCountersInto tc txCounters in
    Ok (charge combined (λ k, used (get txCounters k)), NullateUsed txCounters))
    (combined, NewEmptyCounters) (transactions b);
  Ok combined.

(** CalculateRlp on the counters at [id], which then join the batch. *)
Definition append_transaction (pct : Z) (id : nat) : bstate → outcome bstate := λ '(h, b),
  tc ← deref h id;
  tc ← CalculateRlp pct tc;
  Ok (<[id := tc]> h, UpdateRlpCountersCache tc (set_transactions b (transactions b ++ [id]))).

Definition AddNewTransactionCounters (pct : Z) (id : nat) : bstate → outcome (bstate * bool) := λ s,
  s ← append_transaction pct id s;
  CheckForOverflow pct false s.

Definition SingleTransactionOverflowCheck (pct : Z) (id : nat) : bstate → outcome (bstate * bool) := λ s,
  '(h, b) ← append_transaction pct id s;
  tc ← deref h id;
  CheckForOverflow pct false (h, UpdateExecutionAndProcessingCountersCache tc (set_blockCount b 1)).

Definition RemovePreviousTransactionCounters : bstate → outcome bstate := λ '(h, b),
  id ← go_index (transactions b) (Z.of_nat (length (transactions b)) - 1);
  tc ← deref h id;
  let b := UndoTransactionCountersCache tc b in
  Ok (h, set_transactions b (take (length (transactions b) - 1) (transactions b))).

Definition ClearTransactionCounters : bstate → bstate := λ '(h, b), (h, set_transactions b []).

Definition StartNewBlock (pct : Z) (verifyMerkleProof : bool) : bstate → outcome (bstate * bool) := λ '(h, b),
  CheckForOverflow pct verifyMerkleProof (h, set_blockCount b (to_int (blockCount b + 1))).
