(* ===== verification/BatchCountersSpec.v ===== *)
(** Properties of the counters of a batch.

    The sums that a batch collector keeps are related to its transactions by an
    invariant over the sequences of operations a caller makes: a transaction is
    added, executed, its execution is added to the sums, it may be removed again, and
    the list may be cleared.  The sums wrap around like Go's [int], so the invariant
    holds up to multiples of 2^64 ([cong], a congruence for setoid rewriting).  From the
    invariant follows what CheckForOverflow decides. *)

From stdpp Require Import gmap.
From Stdlib Require Import Strings.Byte.
From S2P Require Import Prelude Bytes Float64 Rlp L2Data ZkCounters ZkOpcodes ZkCountersSpec BatchCounters.

Local Open Scope Z_scope.
Local Open Scope cost_scope.

(** * Sums over transactions *)

Fixpoint total (g : TransactionCounter → Z) (h : store) (ids : list nat) : Z :=
  match ids with
  | [] => 0
  | id :: ids => match h !! id with Some tc => g tc | None => 0 end + total g h ids
  end.

Lemma total_app g h l1 l2 : total g h (l1 ++ l2) = total g h l1 + total g h l2.
Proof. induction l1 as [|id l1 IH]; simpl; lia. Qed.

Lemma total_insert g h id tc ids : id ∉ ids → total g (<[id := tc]> h) ids = total g h ids.
Proof.
  induction ids as [|i ids IH]; intros Hn; [done|]. apply not_elem_of_cons in Hn as [Hi Hn]. simpl.
  rewrite lookup_insert_ne by done. by rewrite IH.
Qed.

(** A change that [g] does not see. *)
Lemma total_update g h id tc tc' ids :
  h !! id = Some tc → g tc' = g tc → total g (<[id := tc']> h) ids = total g h ids.
Proof.
  intros Hid Hg. induction ids as [|i ids IH]; [done|]. simpl. rewrite IH. f_equal.
  destruct (decide (i = id)) as [->|]; [by rewrite lookup_insert_eq, Hid|by rewrite lookup_insert_ne].
Qed.

(** The transactions in [ids], with their counters as they are in [h]. *)
Definition txs_of (h : store) (ids : list nat) : list TransactionCounter := omap (λ id, h !! id) ids.

Definition sum_of (g : TransactionCounter → Z) (l : list TransactionCounter) : Z := foldr (λ tc n, g tc + n) 0 l.

Lemma sum_of_app g l1 l2 : sum_of g (l1 ++ l2) = sum_of g l1 + sum_of g l2.
Proof. induction l1 as [|tc l1 IH]; cbn; unfold sum_of in *; lia. Qed.

Lemma sum_of_txs g h ids : sum_of g (txs_of h ids) = total g h ids.
Proof.
  induction ids as [|id ids IH]; [done|]. unfold txs_of in *. cbn. destruct (h !! id); cbn; unfold sum_of in *; lia.
Qed.

(** * Amounts *)

(** Equality of the values of type [int]: up to a multiple of 2^64. *)
Definition cong (a b : Z) : Prop := ∃ n, a = b + n * 2 ^ 64.

#[export] Instance cong_equivalence : Equivalence cong.
Proof.
  split.
  - intros a. exists 0. lia.
  - intros a b [n ->]. exists (- n). lia.
  - intros a b c [n ->] [m ->]. exists (n + m). lia.
Qed.

#[export] Instance cong_add : Proper (cong ==> cong ==> cong) Z.add.
Proof. intros a a' [n ->] b b' [m ->]. exists (n + m). lia. Qed.
#[export] Instance cong_sub : Proper (cong ==> cong ==> cong) Z.sub.
Proof. intros a a' [n ->] b b' [m ->]. exists (n - m). lia. Qed.

Lemma eq_cong a b : a = b → cong a b.
Proof. by intros ->. Qed.

Lemma cong_to_int a : cong (to_int a) a.
Proof.
  unfold to_int. pose proof (Z.div_mod a (2 ^ 64)). case_bool; [exists (- (a / 2 ^ 64))|exists (- (a / 2 ^ 64) - 1)]; lia.
Qed.

Lemma to_int_range a : - 2 ^ 63 ≤ to_int a < 2 ^ 63.
Proof. unfold to_int. pose proof (Z.mod_pos_bound a (2 ^ 64)). case_bool; lia. Qed.

Lemma to_int_cong a b : cong a b → to_int a = to_int b.
Proof. intros [n ->]. unfold to_int. by rewrite Z.mod_add. Qed.

(** A value of [int] that is known up to a multiple of 2^64. *)
Lemma int_cong a b : - 2 ^ 63 ≤ a < 2 ^ 63 → cong a b → a = to_int b.
Proof. intros Ha Hc. by rewrite <-(to_int_cong _ _ Hc), to_int_id. Qed.

(** [c'] is [c] after spending [amount]. *)
Definition spent (c c' : Counters) (amount : CounterKey → Z) : Prop := ∀ k,
  cong (used (get c' k)) (used (get c k) + amount k) ∧ cong (remaining (get c' k)) (remaining (get c k) - amount k).

Lemma spent_charge c amount : spent c (charge c amount) amount.
Proof. intros k. unfold charge. rewrite get_build. cbn. by rewrite !cong_to_int. Qed.

Lemma spent_trans c1 c2 c3 a b d :
  spent c1 c2 a → spent c2 c3 b → (∀ k, d k = a k + b k) → spent c1 c3 d.
Proof.
  intros H1 H2 Hd k. destruct (H1 k) as [U1 R1], (H2 k) as [U2 R2]. rewrite U2, R2, U1, R1, Hd.
  split; apply eq_cong; lia.
Qed.

Lemma spent_refl c : spent c c (λ _, 0).
Proof. intros k. split; apply eq_cong; lia. Qed.

Lemma spent_iter c n a b :
  spent c (Nat.iter n (λ c, charge (charge c a) b) c) (λ k, Z.of_nat n * (a k + b k)).
Proof.
  induction n as [|n IH]; [apply spent_refl|].
  eapply spent_trans; [apply IH| |].
  - eapply spent_trans; [apply spent_charge|apply spent_charge|done].
  - intros k. cbn beta. lia.
Qed.

Definition addon_used (addon : option Counters) (k : CounterKey) : Z :=
  match addon with Some a => used (get a k) | None => 0 end.

Lemma spent_addon c addon : (∀ k, used (get c k) = 0) → spent c (with_addon c addon) (addon_used addon).
Proof.
  intros H0 k. unfold with_addon, addon_used. destruct addon as [a|].
  - rewrite get_build. cbn. by rewrite cong_to_int, H0.
  - apply (spent_refl c k).
Qed.

(** The counters before anything is used; a percentage is one that
    SetBatchCounterLimitPercentage accepts. *)
Lemma BatchNewCounters_unused pct forkId unlimited k : used (get (BatchNewCounters pct forkId unlimited) k) = 0.
Proof. unfold BatchNewCounters. destruct unlimited; by destruct k. Qed.

Lemma get_add_used sign c cc k :
  used (get (add_used sign c cc) k) = to_int (used (get c k) + sign * used_of cc k).
Proof. unfold add_used. by rewrite get_build. Qed.

(** * The invariant of a batch *)

(** A cached encoding is the encoding of the transaction. *)
Definition cache_ok (tc : TransactionCounter) : Prop :=
  ∀ d, l2DataCache tc = Some d → TransactionToL2Data (transaction tc) 8 MaxEffectivePercentage = Ok d.

Definition cached (h : store) (id : nat) : Prop :=
  ∃ tc d, h !! id = Some tc ∧ l2DataCache tc = Some d.

(** The sum of a part of the counters, up to a multiple of 2^64: over the
    transactions in [ids] as they are now, and over [cleared]. *)
Definition sums (c : Counters) (part : TransactionCounter → CounterCollector) (cleared : list TransactionCounter)
    (h : store) (ids : list nat) : Prop := ∀ k,
  - 2 ^ 63 ≤ used (get c k) < 2 ^ 63 ∧
  cong (used (get c k)) (sum_of (λ tc, used_of (part tc) k) cleared + total (λ tc, used_of (part tc) k) h ids).

(** [cleared] are the counters of the transactions that were cleared from the list, as
    they were then; [settled] are the transactions whose execution is in the sums. *)
Record batch_inv (cleared : list TransactionCounter) (settled : list nat) (s : bstate) : Prop := {
  bi_store : map_Forall (λ _, cache_ok) s.1;
  bi_nodup : NoDup (transactions s.2);
  bi_cached : Forall (cached s.1) (transactions s.2);
  bi_rlp : sums (rlpCombined s.2) rlpCounters cleared s.1 (transactions s.2);
  bi_execution : sums (executionCombined s.2) executionCounters cleared s.1 settled;
  bi_processing : sums (processingCombined s.2) processingCounters cleared s.1 settled;
}.

Lemma sums_nil c part h : (∀ k, used (get c k) = 0) → sums c part [] h [].
Proof. intros H k. rewrite H. split; [lia|done]. Qed.

Lemma sums_total c part cleared h ids h' ids' :
  sums c part cleared h ids →
  (∀ k, total (λ tc, used_of (part tc) k) h' ids' = total (λ tc, used_of (part tc) k) h ids) →
  sums c part cleared h' ids'.
Proof. intros H E k. rewrite E. apply H. Qed.

(** The counters of [id] join the sum, or leave it. *)
Lemma sums_add c part cleared h ids id tc :
  sums c part cleared h ids → h !! id = Some tc → sums (add_used 1 c (part tc)) part cleared h (ids ++ [id]).
Proof.
  intros H Hid k. destruct (H k) as [_ Hk]. rewrite get_add_used. split; [apply to_int_range|].
  rewrite cong_to_int, Hk, total_app. cbn [total]. rewrite Hid. apply eq_cong. lia.
Qed.

Lemma sums_undo c part cleared h ids id tc :
  sums c part cleared h (ids ++ [id]) → h !! id = Some tc → sums (add_used (-1) c (part tc)) part cleared h ids.
Proof.
  intros H Hid k. destruct (H k) as [_ Hk]. rewrite get_add_used. split; [apply to_int_range|].
  rewrite cong_to_int, Hk, total_app. cbn [total]. rewrite Hid. apply eq_cong. lia.
Qed.

Lemma sums_clear c part cleared h ids : sums c part cleared h ids → sums c part (cleared ++ txs_of h ids) h [].
Proof. intros H k. rewrite sum_of_app, sum_of_txs. cbn [total]. rewrite Z.add_0_r. apply H. Qed.

Lemma new_batch_inv pct smtMaxLevel forkId r unlimited addon :
  batch_inv [] [] (∅, NewBatchCounterCollector pct smtMaxLevel forkId r unlimited addon).
Proof.
  split; cbn; [apply map_Forall_empty|apply NoDup_nil_2|apply Forall_nil_2|apply sums_nil; intros k; apply BatchNewCounters_unused..].
Qed.

Lemma deref_Some h id tc : h !! id = Some tc → deref h id = Ok tc.
Proof. unfold deref. by intros ->. Qed.

Lemma GetL2DataCache_hit tc d : l2DataCache tc = Some d → GetL2DataCache tc = Ok (tc, d).
Proof. unfold GetL2DataCache. by intros ->. Qed.

(** The encoded length of a transaction of the batch. *)
Definition encoded_size (tc : TransactionCounter) : Z := Z.of_nat (length (default [] (l2DataCache tc))).

Lemma encode_step_cached h n id tc d :
  h !! id = Some tc → l2DataCache tc = Some d → encode_step (h, n) id = Ok (h, n + encoded_size tc).
Proof.
  intros Hid Hd. unfold encode_step, encoded_size.
  by rewrite (deref_Some _ _ _ Hid), bind_Ok, (GetL2DataCache_hit _ _ Hd), bind_Ok, insert_id, Hd.
Qed.

Lemma encoded_length_cached h ids :
  Forall (cached h) ids → encoded_length h ids = Ok (h, total encoded_size h ids).
Proof.
  intros H. unfold encoded_length.
  enough (∀ n, foldM encode_step (h, n) ids = Ok (h, n + total encoded_size h ids)) as E by apply (E 0).
  induction H as [|id ids (tc & d & Hid & Hd) _ IH]; intros n; [cbn; by rewrite Z.add_0_r|].
  cbn [foldM total]. rewrite (encode_step_cached _ _ _ _ _ Hid Hd), bind_Ok, IH, Hid. by rewrite Z.add_assoc.
Qed.

(** * What CombineCollectors computes *)

Section combine.
Context (pct : Z).

Definition limit (b : BatchCounterCollector) (k : CounterKey) : Z :=
  remaining (get (BatchNewCounters pct (b_forkId b) (b_unlimited b)) k).

(** The cost of the block markers, of the batch as a whole and of the
    transactions in [ids]. *)
Definition blocks_used (b : BatchCounterCollector) (v : bool) (k : CounterKey) : Z :=
  let '(c, d) := change_counters pct b v in
  Z.of_nat (Z.to_nat (blockCount b)) * (used_of d k + used_of c k).

Definition l2Data_of (h : store) (b : BatchCounterCollector) : CounterCollector :=
  l2Data_cost (b_smtLevels b) (total encoded_size h (transactions b) + 9 * blockCount b)
    (NewCounterCollector pct (b_smtLevels b) (b_forkId b)).

Definition sums_used (b : BatchCounterCollector) (k : CounterKey) : Z :=
  used (get (rlpCombined b) k) + used (get (executionCombined b) k) + used (get (processingCombined b) k).

Lemma processBatchLevelData_eq h b :
  Forall (cached h) (transactions b) → processBatchLevelData pct (h, b) = Ok (h, set_l2Data b (l2Data_of h b)).
Proof. intros H. unfold processBatchLevelData. by rewrite (encoded_length_cached _ _ H), bind_Ok. Qed.

Definition in_range (c : Counters) : Prop := ∀ k,
  - 2 ^ 63 ≤ used (get c k) < 2 ^ 63 ∧ - 2 ^ 63 ≤ remaining (get c k) < 2 ^ 63.

Lemma in_range_charge c amount : in_range (charge c amount).
Proof. intros k. unfold charge. rewrite get_build. split; apply to_int_range. Qed.

Lemma CombineCollectors_eq h b v :
  Forall (cached h) (transactions b) →
  ∃ combined, CombineCollectors pct v (h, b) = Ok (h, set_l2Data b (l2Data_of h b), combined) ∧ in_range combined ∧
    spent (BatchNewCounters pct (b_forkId b) (b_unlimited b)) combined
      (λ k, addon_used (addonCounters b) k + blocks_used b v k + used_of (l2Data_of h b) k + sums_used b k).
Proof.
  intros H. unfold CombineCollectors. rewrite (processBatchLevelData_eq _ _ H), bind_Ok.
  unfold blocks_used. change (change_counters pct (set_l2Data _ _) v) with (change_counters pct b v).
  destruct (change_counters pct b v) as [c d]. cbv zeta. eexists. split; [reflexivity|]. cbn [l2DataCollector set_l2Data].
  split; [apply in_range_charge|].
  eapply spent_trans; [eapply spent_trans; [eapply spent_trans|apply spent_charge|]|apply spent_charge|].
  - apply spent_addon. intros k. apply BatchNewCounters_unused.
  - apply spent_iter.
  - done.
  - done.
  - done.
Qed.

End combine.

(** * The operations keep the invariant *)

Lemma cached_insert h id tc i :
  cached h i → (i = id → is_Some (l2DataCache tc)) → cached (<[id := tc]> h) i.
Proof.
  intros (tc0 & d & Hi & Hd) H. destruct (decide (i = id)) as [->|Hn].
  - destruct (H eq_refl) as [d' E]. exists tc, d'. by rewrite lookup_insert_eq.
  - exists tc0, d. by rewrite lookup_insert_ne.
Qed.

(** A change of the counters of one transaction that the sums do not cover. *)
Lemma batch_inv_change cleared settled h b id tc tc' :
  batch_inv cleared settled (h, b) → h !! id = Some tc → id ∉ settled →
  l2DataCache tc' = l2DataCache tc → transaction tc' = transaction tc → rlpCounters tc' = rlpCounters tc →
  batch_inv cleared settled (<[id := tc']> h, b).
Proof.
  intros [H0 H1 H2 H3 H4 H5] Hid Hn Ec Et Er. split; cbn in *.
  - apply map_Forall_insert_2; [|done]. unfold cache_ok. rewrite Ec, Et. by apply (H0 id).
  - done.
  - eapply Forall_impl; [exact H2|]. intros i Hi. apply (cached_insert _ _ _ _ Hi). intros ->.
    destruct Hi as (tc0 & d & E & Ed). rewrite Hid in E. injection E as <-. rewrite Ec, Ed. done.
  - apply (sums_total _ _ _ _ _ _ _ H3). intros k. apply (total_update _ _ _ _ _ _ Hid). by rewrite Er.
  - apply (sums_total _ _ _ _ _ _ _ H4). intros k. by apply total_insert.
  - apply (sums_total _ _ _ _ _ _ _ H5). intros k. by apply total_insert.
Qed.

Lemma CalculateRlp_Ok pct tc tc' :
  cache_ok tc → CalculateRlp pct tc = Ok tc' → cache_ok tc' ∧ is_Some (l2DataCache tc').
Proof.
  unfold CalculateRlp, GetL2DataCache. intros Hc E. destruct (l2DataCache tc) as [d|] eqn:Ed.
  - rewrite bind_Ok in E. injection E as <-. unfold cache_ok. cbn. rewrite Ed. split; [|done].
    intros d' [= <-]. by apply Hc.
  - destruct (TransactionToL2Data _ _ _) as [d|e|] eqn:Et; [|done..]. rewrite !bind_Ok in E. injection E as <-.
    split; [|done]. intros d' [= <-]. exact Et.
Qed.

Lemma batch_inv_add pct cleared settled h b id s :
  batch_inv cleared settled (h, b) → id ∉ transactions b → id ∉ settled → append_transaction pct id (h, b) = Ok s →
  batch_inv cleared settled s ∧ transactions s.2 = transactions b ++ [id] ∧ is_Some (s.1 !! id).
Proof.
  intros [H0 H1 H2 H3 H4 H5] Hn Hn' E. unfold append_transaction, deref in E.
  destruct (h !! id) as [tc|] eqn:Etc; [|done]. rewrite bind_Ok in E.
  destruct (CalculateRlp pct tc) as [tc'|e|] eqn:E1; [|done..]. rewrite bind_Ok in E. injection E as <-.
  destruct (CalculateRlp_Ok _ _ _ (H0 _ _ Etc) E1) as [Hc Hd].
  cbn [fst snd] in *. split_and!; [split|done|by rewrite lookup_insert_eq]; cbn.
  - by apply map_Forall_insert_2.
  - apply NoDup_app. split_and!; [done| |apply NoDup_singleton]. by intros i Hi ->%list_elem_of_singleton.
  - apply Forall_app. split.
    + eapply Forall_impl; [exact H2|]. intros i Hi. by apply cached_insert.
    + apply Forall_singleton. destruct Hd as [d Hd]. exists tc', d. by rewrite lookup_insert_eq.
  - apply sums_add; [|by rewrite lookup_insert_eq]. apply (sums_total _ _ _ _ _ _ _ H3). intros k. by apply total_insert.
  - apply (sums_total _ _ _ _ _ _ _ H4). intros k. by apply total_insert.
  - apply (sums_total _ _ _ _ _ _ _ H5). intros k. by apply total_insert.
Qed.

Lemma batch_inv_settle cleared settled h b id tc :
  batch_inv cleared settled (h, b) → h !! id = Some tc →
  batch_inv cleared (settled ++ [id]) (h, UpdateExecutionAndProcessingCountersCache tc b).
Proof. intros [H0 H1 H2 H3 H4 H5] Hid. split; cbn in *; try done; by apply sums_add. Qed.

Lemma batch_inv_remove cleared ids id h b tc :
  batch_inv cleared (ids ++ [id]) (h, b) → transactions b = ids ++ [id] → h !! id = Some tc →
  ∃ b', RemovePreviousTransactionCounters (h, b) = Ok (h, b') ∧ batch_inv cleared ids (h, b') ∧ transactions b' = ids.
Proof.
  intros [H0 H1 H2 H3 H4 H5] Ht Hid. unfold RemovePreviousTransactionCounters. cbn [fst snd] in *. rewrite Ht in *.
  replace (Z.of_nat (length (ids ++ [id])) - 1) with (Z.of_nat (length ids)) by (rewrite length_app; simpl; lia).
  rewrite (go_index_lookup _ _ id) by (by rewrite list_lookup_middle). rewrite bind_Ok, (deref_Some _ _ _ Hid), bind_Ok.
  eexists. split; [reflexivity|]. cbn. rewrite Ht, length_app. cbn [length].
  replace (length ids + 1 - 1)%nat with (length ids) by lia. rewrite take_app_length.
  apply NoDup_app in H1 as (H1 & _ & _). apply Forall_app in H2 as [H2 _].
  split; [|done]. split; cbn; try done; by apply (sums_undo _ _ _ _ _ id).
Qed.

Lemma batch_inv_clear cleared h b :
  batch_inv cleared (transactions b) (h, b) →
  batch_inv (cleared ++ txs_of h (transactions b)) [] (ClearTransactionCounters (h, b)).
Proof.
  intros [H0 H1 H2 H3 H4 H5]. split; cbn in *; [done|apply NoDup_nil_2|apply Forall_nil_2|by apply sums_clear..].
Qed.

(** * Runs of a batch *)

(** What a caller has done: the transaction that has been added and whose execution
    is not yet in the sums, and the transactions it has cleared from the list, with
    their counters at that time. *)
Record history := mkHistory { pending : option nat; cleared_txs : list TransactionCounter }.

Definition int_collector (cc : CounterCollector) : Prop := ∀ k, - 2 ^ 63 ≤ used_of cc k < 2 ^ 63.

Section runs.
Context (pct : Z).

(** One operation of a caller: new counters for a transaction, adding a transaction,
    its execution and processing, the update of the sums, the removal of the last
    transaction, the check of a single transaction, clearing the list, a new block, and a
    check. *)
Inductive bstep : history * bstate → history * bstate → Prop :=
| step_new g h b id tx smtMaxLevel forkId r unlimited : h !! id = None →
    bstep (g, (h, b)) (g, (<[id := NewTransactionCounter pct tx smtMaxLevel forkId r unlimited]> h, b))
| step_add l h b id s o : id ∉ transactions b → AddNewTransactionCounters pct id (h, b) = Ok (s, o) →
    bstep (mkHistory None l, (h, b)) (mkHistory (Some id) l, s)
| step_execute l h b id tc cc : h !! id = Some tc → int_collector cc →
    bstep (mkHistory (Some id) l, (h, b)) (mkHistory (Some id) l, (<[id := set_execution tc cc]> h, b))
| step_process l h b id tc size ret : h !! id = Some tc →
    bstep (mkHistory (Some id) l, (h, b)) (mkHistory (Some id) l, (<[id := ProcessTx pct size ret tc]> h, b))
| step_update l h b id tc : h !! id = Some tc →
    bstep (mkHistory (Some id) l, (h, b)) (mkHistory None l, (h, UpdateExecutionAndProcessingCountersCache tc b))
| step_remove l s s' : RemovePreviousTransactionCounters s = Ok s' → bstep (mkHistory None l, s) (mkHistory None l, s')
| step_single l h b id s o : id ∉ transactions b → SingleTransactionOverflowCheck pct id (h, b) = Ok (s, o) →
    bstep (mkHistory None l, (h, b)) (mkHistory None l, s)
| step_clear l h b :
    bstep (mkHistory None l, (h, b)) (mkHistory None (l ++ txs_of h (transactions b)), ClearTransactionCounters (h, b))
| step_block g s v s' o : StartNewBlock pct v s = Ok (s', o) → bstep (g, s) (g, s')
| step_check g s v s' o : CheckForOverflow pct v s = Ok (s', o) → bstep (g, s) (g, s').

(** The transactions of the batch whose execution is in the sums. *)
Definition settled (g : history) (ids : list nat) : list nat :=
  match pending g with None => ids | Some _ => take (length ids - 1) ids end.

Definition history_inv (x : history * bstate) : Prop :=
  batch_inv (cleared_txs x.1) (settled x.1 (transactions x.2.2)) x.2 ∧
  ∀ id, pending x.1 = Some id → last (transactions x.2.2) = Some id.

(** The operations that change no counter of a transaction and no sum. *)
Lemma batch_inv_same l settled h b b' :
  batch_inv l settled (h, b) → transactions b' = transactions b → rlpCombined b' = rlpCombined b →
  executionCombined b' = executionCombined b → processingCombined b' = processingCombined b →
  batch_inv l settled (h, b').
Proof. intros [] E1 E2 E3 E4. split; cbn in *; by rewrite ?E1, ?E2, ?E3, ?E4. Qed.

Lemma CheckForOverflow_state l settled h b v s o :
  batch_inv l settled (h, b) → CheckForOverflow pct v (h, b) = Ok (s, o) →
  batch_inv l settled s ∧ transactions s.2 = transactions b.
Proof.
  intros H E. unfold CheckForOverflow in E. destruct (b_unlimited b); [by injection E as <- <-|].
  destruct (CombineCollectors_eq pct h b v (bi_cached _ _ _ H)) as (c & Ec & _). rewrite Ec, bind_Ok in E.
  injection E as <- <-. split; [|done]. by apply (batch_inv_same l settled h b).
Qed.

Lemma history_inv_checked g h b v s o :
  history_inv (g, (h, b)) → CheckForOverflow pct v (h, b) = Ok (s, o) → history_inv (g, s).
Proof.
  intros [H Hp] E. cbn [fst snd] in *. destruct (CheckForOverflow_state _ _ _ _ _ _ _ H E) as [H' E'].
  unfold history_inv. cbn [fst snd]. by rewrite E'.
Qed.

Lemma batch_inv_new l settled h b id tx smtMaxLevel forkId r unlimited :
  batch_inv l settled (h, b) → h !! id = None → id ∉ settled → id ∉ transactions b →
  batch_inv l settled (<[id := NewTransactionCounter pct tx smtMaxLevel forkId r unlimited]> h, b).
Proof.
  intros [H0 H1 H2 H3 H4 H5] Hid Hs Ht. split; cbn in *.
  - apply map_Forall_insert_2; [|done]. unfold NewTransactionCounter. by destruct unlimited.
  - done.
  - eapply Forall_impl; [exact H2|]. intros i Hi. apply cached_insert; [done|]. intros ->.
    destruct Hi as (tc & d & E & _). congruence.
  - apply (sums_total _ _ _ _ _ _ _ H3). intros k. by apply total_insert.
  - apply (sums_total _ _ _ _ _ _ _ H4). intros k. by apply total_insert.
  - apply (sums_total _ _ _ _ _ _ _ H5). intros k. by apply total_insert.
Qed.

Lemma cached_not_None h ids id : Forall (cached h) ids → h !! id = None → id ∉ ids.
Proof.
  intros H E Hin. rewrite Forall_forall in H. destruct (H id Hin) as (tc & d & E' & _). congruence.
Qed.

Lemma settled_subseteq g ids id : id ∈ settled g ids → id ∈ ids.
Proof. unfold settled. destruct (pending g); [apply subseteq_take|done]. Qed.
Lemma settled_pending id l ids : settled (mkHistory (Some id) l) (ids ++ [id]) = ids.
Proof.
  unfold settled. cbn. rewrite length_app. cbn [length]. replace (length ids + 1 - 1)%nat with (length ids) by lia.
  apply take_app_length.
Qed.

Lemma pending_inv id l h b :
  history_inv (mkHistory (Some id) l, (h, b)) ↔ ∃ ids, transactions b = ids ++ [id] ∧ batch_inv l ids (h, b).
Proof.
  unfold history_inv. cbn [fst snd]. split.
  - intros [H Hp]. destruct (proj1 (last_Some _ _) (Hp id eq_refl)) as [ids Et]. rewrite Et, settled_pending in H. by exists ids.
  - intros (ids & Et & H). rewrite Et, settled_pending. split; [done|]. intros i [= <-]. apply last_snoc.
Qed.

Lemma history_inv_new g h b id tx smtMaxLevel forkId r unlimited :
  history_inv (g, (h, b)) → h !! id = None →
  history_inv (g, (<[id := NewTransactionCounter pct tx smtMaxLevel forkId r unlimited]> h, b)).
Proof.
  intros [H Hp] Hid. split; [|done]. cbn [fst snd] in *. pose proof (cached_not_None _ _ _ (bi_cached _ _ _ H) Hid).
  apply batch_inv_new; [done|done| |done]. by intros ?%settled_subseteq.
Qed.

Lemma history_inv_change l h b id tc tc' :
  history_inv (mkHistory (Some id) l, (h, b)) → h !! id = Some tc →
  l2DataCache tc' = l2DataCache tc → transaction tc' = transaction tc → rlpCounters tc' = rlpCounters tc →
  history_inv (mkHistory (Some id) l, (<[id := tc']> h, b)).
Proof.
  rewrite !pending_inv. intros (ids & Et & H) Hid E1 E2 E3. exists ids. split; [done|].
  apply (batch_inv_change _ _ _ _ _ tc); try done.
  pose proof (bi_nodup _ _ _ H) as Hd. cbn in Hd. rewrite Et in Hd. apply NoDup_app in Hd as (_ & Hd & _).
  intros Hin. apply (Hd id Hin). by left.
Qed.

Lemma history_inv_remove l s s' :
  history_inv (mkHistory None l, s) → RemovePreviousTransactionCounters s = Ok s' → history_inv (mkHistory None l, s').
Proof.
  destruct s as [h b]. intros [H _] E. cbn in H.
  destruct (decide (transactions b = [])) as [Et|Hne]; [unfold RemovePreviousTransactionCounters in E; by rewrite Et in E|].
  destruct (exists_last Hne) as (ids & id & Et). rewrite Et in H.
  pose proof (bi_cached _ _ _ H) as Hc. cbn in Hc. rewrite Et in Hc. apply Forall_app in Hc as [_ Hc].
  apply Forall_singleton in Hc as (tc & d & Hid & _).
  destruct (batch_inv_remove l ids id h b tc) as (b' & E' & H' & Et'); [done..|].
  rewrite E' in E. injection E as <-. split; [|done]. cbn. by rewrite Et'.
Qed.

Lemma history_inv_single l h b id s o :
  history_inv (mkHistory None l, (h, b)) → id ∉ transactions b →
  SingleTransactionOverflowCheck pct id (h, b) = Ok (s, o) → history_inv (mkHistory None l, s).
Proof.
  intros [H _] Hn E. cbn in H. unfold SingleTransactionOverflowCheck in E.
  destruct (append_transaction pct id (h, b)) as [[h1 b1]|e|] eqn:E1; [|done..]. rewrite bind_Ok in E.
  destruct (batch_inv_add pct _ _ h b id _ H Hn Hn E1) as (H1 & Et & [tc Hid]). cbn [fst snd] in *.
  rewrite (deref_Some _ _ _ Hid), bind_Ok in E. refine (history_inv_checked _ _ _ _ _ _ _ E). split; [|done].
  cbn. rewrite Et. apply (batch_inv_settle _ _ _ _ id); [|done]. by apply (batch_inv_same _ _ h1 b1).
Qed.

Lemma bstep_inv x y : bstep x y → history_inv x → history_inv y.
Proof.
  intros Hs. destruct Hs as [g h b id tx lv f r u Hn|l h b id s o Hn E|l h b id tc cc Hid _|l h b id tc size ret Hid
    |l h b id tc Hid|l s s' E|l h b id s o Hn E|l h b|g [h b] v s' o E|g [h b] v s' o E]; intros H.
  - by apply history_inv_new.
  - unfold AddNewTransactionCounters in E. destruct (append_transaction pct id (h, b)) as [[h1 b1]|e|] eqn:E1; [|done..].
    rewrite bind_Ok in E. destruct H as [H _]. destruct (batch_inv_add pct _ _ h b id _ H Hn Hn E1) as (H1 & Et & _).
    refine (history_inv_checked _ h1 b1 _ _ _ _ E). apply pending_inv. by exists (transactions b).
  - by apply (history_inv_change l h b id tc).
  - apply (history_inv_change l h b id tc); [done|done|unfold ProcessTx; by destruct (To _)..].
  - apply pending_inv in H as (ids & Et & H). split; [|done]. cbn. rewrite Et. by apply batch_inv_settle.
  - by apply (history_inv_remove l s).
  - by apply (history_inv_single l h b id s o).
  - destruct H as [H _]. split; [|done]. by apply batch_inv_clear.
  - unfold StartNewBlock in E. refine (history_inv_checked _ h _ _ _ _ _ E). destruct H as [H Hp].
    split; [|done]. by apply (batch_inv_same _ _ h b).
  - exact (history_inv_checked _ h b _ _ _ H E).
Qed.

Lemma reachable_inv smtMaxLevel forkId r unlimited addon x :
  rtc bstep (mkHistory None [], (∅, NewBatchCounterCollector pct smtMaxLevel forkId r unlimited addon)) x → history_inv x.
Proof.
  assert (history_inv (mkHistory None [], (∅, NewBatchCounterCollector pct smtMaxLevel forkId r unlimited addon))) as H0
    by (split; [apply new_batch_inv|done]).
  intros H. induction H as [x|x y z Hxy _ IH]; [done|]. apply IH. by apply (bstep_inv x).
Qed.

End runs.

(** * Claims *)

(** What a transaction has used in all its parts. *)
Definition tx_used (k : CounterKey) (tc : TransactionCounter) : Z :=
  used_of (rlpCounters tc) k + used_of (executionCounters tc) k + used_of (processingCounters tc) k.

Lemma total_tx_used k h ids :
  total (tx_used k) h ids =
    total (λ tc, used_of (rlpCounters tc) k) h ids + total (λ tc, used_of (executionCounters tc) k) h ids +
    total (λ tc, used_of (processingCounters tc) k) h ids.
Proof. induction ids as [|id ids IH]; [done|]. cbn [total]. rewrite IH. destruct (h !! id); unfold tx_used; lia. Qed.

Lemma sum_tx_used k l :
  sum_of (tx_used k) l =
    sum_of (λ tc, used_of (rlpCounters tc) k) l + sum_of (λ tc, used_of (executionCounters tc) k) l +
    sum_of (λ tc, used_of (processingCounters tc) k) l.
Proof. induction l as [|tc l IH]; [done|]. unfold sum_of in *. cbn. rewrite IH. unfold tx_used. lia. Qed.

(** What the transactions have used: those that were cleared, those in the batch, and
    of the one whose execution is not accounted yet its encoding only. *)
Definition txs_used (g : history) (h : store) (b : BatchCounterCollector) (k : CounterKey) : Z :=
  sum_of (tx_used k) (cleared_txs g) + total (tx_used k) h (settled g (transactions b)) +
  total (λ tc, used_of (rlpCounters tc) k) h (match pending g with Some id => [id] | None => [] end).

(** Everything that is charged to the batch. *)
Definition batch_used (pct : Z) (v : bool) (g : history) (h : store) (b : BatchCounterCollector) (k : CounterKey) : Z :=
  addon_used (addonCounters b) k + blocks_used pct b v k + used_of (l2Data_of pct h b) k + txs_used g h b k.

Lemma sums_used_total g h b k : history_inv (g, (h, b)) → cong (sums_used b k) (txs_used g h b k).
Proof.
  intros [H Hp]. cbn [fst snd] in *. destruct H as [_ _ _ H3 H4 H5]. cbn [fst snd] in *.
  unfold sums_used, txs_used. rewrite (proj2 (H3 k)), (proj2 (H4 k)), (proj2 (H5 k)), sum_tx_used, total_tx_used.
  apply eq_cong. destruct g as [[id|] l]; cbn [pending cleared_txs total] in *; [|unfold settled; cbn; lia].
  destruct (proj1 (last_Some _ _) (Hp id eq_refl)) as [ids ->]. rewrite settled_pending, total_app. cbn [total]. lia.
Qed.

(** C20. The overflow check of a batch is exact.  Let a caller create counters for
    transactions, add one to the batch, run and process it, account it, remove the last
    one, check a single one, clear the list, start blocks and check, in any order in
    which a transaction is in the list at most once and is accounted before the next is
    added, removed or cleared.  Then CheckForOverflow returns, and it reports an overflow
    exactly when the batch is limited and, for some counter, the limit minus what is
    charged to the batch is negative as an [int]; where these differences fit into an
    [int], when for some counter more is charged than the limit.  Charged are what was
    carried over, the block markers, the batch data, what the accounted transactions of the
    list have used, the encoding of one that is not accounted yet, and what the
    transactions that were cleared had used at that time. *)
Theorem CheckForOverflow_exact pct smtMaxLevel forkId r unlimited addon g h b v :
  rtc (bstep pct) (mkHistory None [], (∅, NewBatchCounterCollector pct smtMaxLevel forkId r unlimited addon)) (g, (h, b)) →
  ∃ s o, CheckForOverflow pct v (h, b) = Ok (s, o) ∧
    (o = true ↔ b_unlimited b = false ∧ ∃ k, to_int (limit pct b k - batch_used pct v g h b k) < 0) ∧
    ((∀ k, - 2 ^ 63 ≤ limit pct b k - batch_used pct v g h b k < 2 ^ 63) →
     (o = true ↔ b_unlimited b = false ∧ ∃ k, limit pct b k < batch_used pct v g h b k)).
Proof.
  intros Hr. apply reachable_inv in Hr. unfold CheckForOverflow.
  destruct (b_unlimited b) eqn:Hu; [exists (h, b), false; by split_and!; [|split; [|intros [[=] _]]|split; [|intros [[=] _]]]|].
  destruct (CombineCollectors_eq pct h b v (bi_cached _ _ _ (proj1 Hr))) as (c & -> & Hin & Hc). rewrite bind_Ok.
  assert (∀ k, remaining (get c k) = to_int (limit pct b k - batch_used pct v g h b k)) as Hrem.
  { intros k. apply int_cong; [apply Hin|]. rewrite (proj2 (Hc k)). unfold batch_used.
    by rewrite (sums_used_total g h b k Hr). }
  set (o := existsb _ _).
  assert (o = true ↔ ∃ k, to_int (limit pct b k - batch_used pct v g h b k) < 0) as Ho.
  { unfold o. rewrite existsb_exists. setoid_rewrite Z.ltb_lt. setoid_rewrite Hrem. split; [intros (k & _ & Hk); by exists k|].
    intros [k Hk]. exists k. split; [apply list_elem_of_In, elem_of_all_keys|done]. }
  eexists _, o. split; [reflexivity|]. split; [tauto|]. intros Hfit. rewrite Ho.
  split; [intros [k Hk]; split; [done|]; exists k|intros [_ [k Hk]]; exists k]; specialize (Hfit k);
    rewrite to_int_id in * by done; lia.
Qed.

(** A batch of one block and one transaction, which is added, executed and
    accounted. *)
Definition sample_tx : LegacyTx :=
  mkLegacyTx 1 1000 21000 (Some (replicate 20 x01)) (Some 5) [x01; x02] 27 7 9 0.
Definition sample_batch : BatchCounterCollector := Eval vm_compute in
  NewBatchCounterCollector 100 80 11 (f64_of_ratio 6 10) false None.
Definition sample_counter : TransactionCounter := Eval vm_compute in NewTransactionCounter 100 sample_tx 80 11 (f64_of_ratio 6 10) false.

Definition result_state (m : outcome (bstate * bool)) : bstate :=
  match m with Ok (s, _) => s | _ => (∅, sample_batch) end.

Definition sample1 : bstate := Eval vm_compute in result_state (StartNewBlock 100 false ({[0%nat := sample_counter]}, sample_batch)).
Definition sample2 : bstate := Eval vm_compute in result_state (AddNewTransactionCounters 100 0%nat sample1).
Definition sample_counter2 : TransactionCounter := Eval vm_compute in default sample_counter (sample2.1 !! 0%nat).
Definition sample3 : store := <[0%nat := ProcessTx 100 (λ _, 60) [] sample_counter2]> sample2.1.

Lemma sample_run :
  rtc (bstep 100) (mkHistory None [], (∅, sample_batch))
    (mkHistory None [],
     (sample3, UpdateExecutionAndProcessingCountersCache (ProcessTx 100 (λ _, 60) [] sample_counter2) sample2.2)).
Proof.
  eapply rtc_l; [apply (step_new 100 _ ∅ sample_batch 0%nat sample_tx 80 11 (f64_of_ratio 6 10) false); done|].
  eapply rtc_l; [apply (step_block 100 _ _ false sample1 false); vm_compute; reflexivity|].
  eapply rtc_l; [apply (step_add 100 [] sample1.1 sample1.2 0%nat sample2 false)|].
  - vm_compute. intros H. inversion H.
  - vm_compute. reflexivity.
  - eapply rtc_l; [apply (step_process 100 [] sample2.1 sample2.2 0%nat sample_counter2 (λ _, 60) []); vm_compute; reflexivity|].
    eapply rtc_l; [apply step_update; vm_compute; reflexivity|]. apply rtc_refl.
Qed.

(** After the transaction is cleared, too. *)
Lemma CheckForOverflow_exact_witness :
  let b := UpdateExecutionAndProcessingCountersCache (ProcessTx 100 (λ _, 60) [] sample_counter2) sample2.2 in
  let '(g, b') := (mkHistory None (txs_of sample3 (transactions b)), set_transactions b []) in
  ∃ s o, CheckForOverflow 100 true (sample3, b') = Ok (s, o) ∧
    (o = true ↔ b_unlimited b' = false ∧ ∃ k, to_int (limit 100 b' k - batch_used 100 true g sample3 b' k) < 0) ∧
    ((∀ k, - 2 ^ 63 ≤ limit 100 b' k - batch_used 100 true g sample3 b' k < 2 ^ 63) →
     (o = true ↔ b_unlimited b' = false ∧ ∃ k, limit 100 b' k < batch_used 100 true g sample3 b' k)).
Proof.
  intros b. apply (CheckForOverflow_exact 100 80 11 (f64_of_ratio 6 10) false None).
  eapply rtc_r; [exact sample_run|]. apply (step_clear 100 [] sample3 b).
Defined.

Lemma add_used_cancel c cc : (∀ k, - 2 ^ 63 ≤ used (get c k) < 2 ^ 63) → add_used (-1) (add_used 1 c cc) cc = c.
Proof.
  intros Hr. apply counters_ext. intros k. unfold add_used. rewrite !get_build. specialize (Hr k).
  destruct (get c k) as [r u n i]. cbn [used remaining name initialAmount] in *. f_equal.
  symmetry. apply int_cong; [done|]. rewrite cong_to_int. apply eq_cong. lia.
Qed.

Lemma CheckForOverflow_result pct l settled h b v s o :
  batch_inv l settled (h, b) → CheckForOverflow pct v (h, b) = Ok (s, o) →
  s = (h, b) ∨ s = (h, set_l2Data b (l2Data_of pct h b)).
Proof.
  intros H E. unfold CheckForOverflow in E. destruct (b_unlimited b); [injection E as <- <-; by left|].
  destruct (CombineCollectors_eq pct h b v (bi_cached _ _ _ H)) as (c & Ec & _). rewrite Ec, bind_Ok in E.
  injection E as <- <-. by right.
Qed.

Lemma AddNew_fields pct l settled id h b h1 b1 o :
  batch_inv l settled (h, b) → id ∉ transactions b → id ∉ settled →
  AddNewTransactionCounters pct id (h, b) = Ok ((h1, b1), o) →
  ∃ tc, h1 !! id = Some tc ∧ transactions b1 = transactions b ++ [id] ∧
    rlpCombined b1 = add_used 1 (rlpCombined b) (rlpCounters tc) ∧
    executionCombined b1 = executionCombined b ∧ processingCombined b1 = processingCombined b.
Proof.
  intros H Hn Hn' E. unfold AddNewTransactionCounters in E.
  destruct (append_transaction pct id (h, b)) as [s|e|] eqn:E1; [|done..]. rewrite bind_Ok in E.
  destruct (batch_inv_add pct _ _ h b id _ H Hn Hn' E1) as (H1 & _ & _).
  unfold append_transaction, deref in E1. destruct (h !! id) as [tc0|]; [|done]. rewrite bind_Ok in E1.
  destruct (CalculateRlp pct tc0) as [tc|e|]; [|done..]. rewrite bind_Ok in E1. injection E1 as <-.
  exists tc. destruct (CheckForOverflow_result _ _ _ _ _ _ _ _ H1 E) as [[= -> ->]|[= -> ->]];
    by rewrite lookup_insert_eq.
Qed.

(** Removing the last transaction undoes adding it: when a transaction has
    been added, has run and has been accounted, whatever its execution used,
    RemovePreviousTransactionCounters gives back the list and the three sums
    from before. *)
Theorem Remove_undoes_add pct l settled id h b h1 b1 o tc1 tc :
  batch_inv l settled (h, b) → id ∉ transactions b → id ∉ settled →
  AddNewTransactionCounters pct id (h, b) = Ok ((h1, b1), o) →
  h1 !! id = Some tc1 → rlpCounters tc = rlpCounters tc1 →
  ∃ b', RemovePreviousTransactionCounters
      (<[id := tc]> h1, UpdateExecutionAndProcessingCountersCache tc b1) = Ok (<[id := tc]> h1, b') ∧
    transactions b' = transactions b ∧ rlpCombined b' = rlpCombined b ∧
    executionCombined b' = executionCombined b ∧ processingCombined b' = processingCombined b.
Proof.
  intros H Hn Hn' E Hid Er.
  destruct (AddNew_fields _ _ _ _ _ _ _ _ _ H Hn Hn' E) as (tc0 & Hid0 & Et & Erlp & Eex & Epr).
  rewrite Hid in Hid0. injection Hid0 as <-. unfold RemovePreviousTransactionCounters.
  cbn [transactions UpdateExecutionAndProcessingCountersCache set_caches]. rewrite Et.
  replace (Z.of_nat (length (transactions b ++ [id])) - 1) with (Z.of_nat (length (transactions b)))
    by (rewrite length_app; simpl; lia).
  rewrite (go_index_lookup _ _ id) by (by rewrite list_lookup_middle).
  rewrite bind_Ok, (deref_Some _ _ tc) by (by rewrite lookup_insert_eq). rewrite bind_Ok. eexists.
  split; [reflexivity|]. cbn. rewrite Et, length_app. cbn [length].
  replace (length (transactions b) + 1 - 1)%nat with (length (transactions b)) by lia.
  destruct H as [_ _ _ H3 H4 H5]. rewrite take_app_length, Erlp, Eex, Epr, Er.
  split_and!; [done|apply add_used_cancel; intros k..]; [apply (H3 k)|apply (H4 k)|apply (H5 k)].
Qed.

Lemma Remove_undoes_add_witness :
  ∃ b', RemovePreviousTransactionCounters
      (sample3, UpdateExecutionAndProcessingCountersCache (ProcessTx 100 (λ _, 60) [] sample_counter2) sample2.2) =
      Ok (sample3, b') ∧
    transactions b' = transactions sample1.2 ∧ rlpCombined b' = rlpCombined sample1.2 ∧
    executionCombined b' = executionCombined sample1.2 ∧ processingCombined b' = processingCombined sample1.2.
Proof.
  apply (Remove_undoes_add 100 [] [] 0%nat sample1.1 sample1.2 sample2.1 sample2.2 false sample_counter2).
  - apply (reachable_inv 100 80 11 (f64_of_ratio 6 10) false None (mkHistory None [], sample1)).
    eapply rtc_l; [apply (step_new 100 _ ∅ sample_batch 0%nat sample_tx 80 11 (f64_of_ratio 6 10) false); done|].
    eapply rtc_l; [apply (step_block 100 _ _ false sample1 false); vm_compute; reflexivity|]. apply rtc_refl.
  - vm_compute. intros H. inversion H.
  - vm_compute. intros H. inversion H.
  - vm_compute. reflexivity.
  - vm_compute. reflexivity.
  - vm_compute. reflexivity.
Defined.

(** ClearTransactionCounters empties the list and leaves the sums: what is
    combined afterwards still charges every transaction that was cleared. *)
Theorem Clear_keeps_charging pct l h b v :
  history_inv (mkHistory None l, (h, b)) →
  ∃ s c, CombineCollectors pct v (ClearTransactionCounters (h, b)) = Ok (s, c) ∧ transactions s.2 = [] ∧
    ∀ k, used (get c k) = to_int (addon_used (addonCounters b) k + blocks_used pct b v k +
      used_of (l2Data_of pct h (set_transactions b [])) k + sum_of (tx_used k) l + total (tx_used k) h (transactions b)).
Proof.
  intros H. unfold ClearTransactionCounters.
  destruct (CombineCollectors_eq pct h (set_transactions b []) v) as (c & -> & Hin & Hc); [apply Forall_nil_2|].
  eexists _, c. split; [reflexivity|]. split; [done|]. intros k. apply int_cong; [apply Hin|]. rewrite (proj1 (Hc k)).
  rewrite BatchNewCounters_unused. change (sums_used (set_transactions b []) k) with (sums_used b k).
  rewrite (sums_used_total _ h b k H). apply eq_cong. unfold txs_used, settled. cbn [pending cleared_txs total].
  change (blocks_used pct (set_transactions b []) v k) with (blocks_used pct b v k). cbn [addonCounters set_transactions]. lia.
Qed.

Lemma Clear_keeps_charging_witness :
  let b := UpdateExecutionAndProcessingCountersCache (ProcessTx 100 (λ _, 60) [] sample_counter2) sample2.2 in
  ∃ s c, CombineCollectors 100 false (ClearTransactionCounters (sample3, b)) = Ok (s, c) ∧ transactions s.2 = [] ∧
    ∀ k, used (get c k) = to_int (addon_used (addonCounters b) k + blocks_used 100 b false k +
      used_of (l2Data_of 100 sample3 (set_transactions b [])) k + sum_of (tx_used k) [] +
      total (tx_used k) sample3 (transactions b)).
Proof.
  intros b. apply (Clear_keeps_charging 100 [] sample3 b false).
  exact (reachable_inv 100 80 11 (f64_of_ratio 6 10) false None _ sample_run).
Defined.
