(* ===== verification/Kv.v ===== *)
(** Ordered tables: the cursors of a key-value transaction.

    A cursor walks the entries of a table in the order of their keys, compared
    byte by byte.  [kv_entries] lists what a cursor visits from First on; Seek,
    SeekExact, Last and Prev are positions in that list (the Cursor interface of
    erigon-lib/kv/kv_interface.go).  Numbers are stored in eight bytes, highest
    first, so that the order of the keys is the order of the numbers. *)

From stdpp Require Import gmap sorting.
From Stdlib Require Import Strings.Byte.
From S2P Require Import Prelude Bytes SmtDb.

Local Open Scope Z_scope.

(** * The order of keys *)

Fixpoint bytes_leb (a b : list byte) : bool :=
  match a, b with
  | [], _ => true
  | _ :: _, [] => false
  | x :: a, y :: b => if bz x <? bz y then true else if bz x =? bz y then bytes_leb a b else false
  end.

Definition bytes_le (a b : list byte) : Prop := bytes_leb a b = true.

#[export] Instance bytes_le_dec : RelDecision bytes_le.
Proof. intros a b. unfold bytes_le. apply _. Defined.

#[export] Instance bytes_le_refl : Reflexive bytes_le.
Proof.
  intros a. unfold bytes_le. induction a as [|x a IH]; [done|]. simpl.
  by rewrite Z.ltb_irrefl, Z.eqb_refl.
Qed.

#[export] Instance bytes_le_trans : Transitive bytes_le.
Proof.
  unfold bytes_le. intros a. induction a as [|x a IH]; [done|]. intros [|y b] [|z c]; simpl; try done.
  destruct (Z.ltb_spec (bz x) (bz y)), (Z.eqb_spec (bz x) (bz y)), (Z.ltb_spec (bz y) (bz z)),
    (Z.eqb_spec (bz y) (bz z)), (Z.ltb_spec (bz x) (bz z)), (Z.eqb_spec (bz x) (bz z)); try done; try lia.
  apply IH.
Qed.

#[export] Instance bytes_le_antisymm : AntiSymm (=) bytes_le.
Proof.
  unfold bytes_le. intros a. induction a as [|x a IH]; intros [|y b]; simpl; try done.
  destruct (Z.ltb_spec (bz x) (bz y)), (Z.eqb_spec (bz x) (bz y)), (Z.ltb_spec (bz y) (bz x)),
    (Z.eqb_spec (bz y) (bz x)); try done; try lia.
  intros H1 H2. f_equal; [by apply bz_inj|by apply IH].
Qed.

#[export] Instance bytes_le_total : Total bytes_le.
Proof.
  unfold bytes_le. intros a. induction a as [|x a IH]; intros [|y b]; simpl; auto.
  destruct (Z.ltb_spec (bz x) (bz y)), (Z.eqb_spec (bz x) (bz y)), (Z.ltb_spec (bz y) (bz x)),
    (Z.eqb_spec (bz y) (bz x)); auto; lia.
Qed.

(** On keys of one length the order is the order of the numbers. *)
Lemma bytes_leb_val a b : length a = length b → bytes_leb a b = (be_val a <=? be_val b).
Proof.
  revert b. induction a as [|x a IH]; intros [|y b] E; try done. injection E as E. cbn [bytes_leb].
  rewrite !be_val_cons, (IH b E), E. pose proof (be_val_range a) as Ha. pose proof (be_val_range b) as Hb. rewrite E in Ha.
  set (p := 256 ^ Z.of_nat (length b)) in *.
  destruct (Z.ltb_spec (bz x) (bz y)) as [H|H]; [symmetry; apply Z.leb_le; nia|].
  destruct (Z.eqb_spec (bz x) (bz y)) as [->|Hn].
  - destruct (Z.leb_spec (be_val a) (be_val b)); symmetry; [apply Z.leb_le|apply Z.leb_gt]; lia.
  - symmetry. apply Z.leb_gt. nia.
Qed.

(** * Cursors *)

Definition entry : Type := list byte * list byte.

Class KVCursor (T : Type) `{KVTx T} := kv_entries : T → string → list entry.

Definition key_lt (p q : entry) : Prop := bytes_le p.1 q.1 ∧ p.1 ≠ q.1.

(** The documented behaviour: an open transaction can be read, and a cursor
    visits every pair of a table once, in the order of the keys. *)
Class KVCursorLaws (T : Type) `{KVCursor T} := {
  kv_open t b k : ∃ o, kv_GetOne t b k = Ok o;
  kv_entries_sorted t b : StronglySorted key_lt (kv_entries t b);
  kv_entries_iff t b k v : (k, v) ∈ kv_entries t b ↔ kv_GetOne t b k = Ok (Some v);
}.

(** Seek: the first entry whose key is not below [k], and what follows it. *)
Fixpoint seek_in (k : list byte) (l : list entry) : list entry :=
  match l with
  | [] => []
  | p :: l' => if bytes_leb k p.1 then l else seek_in k l'
  end.

Section cursor.
Context {T : Type} `{KVCursor T}.

Definition kv_Seek (t : T) (table : string) (k : list byte) : option entry := head (seek_in k (kv_entries t table)).
Definition kv_Last (t : T) (table : string) : option entry := last (kv_entries t table).
Definition kv_Count (t : T) (table : string) : Z := Z.of_nat (length (kv_entries t table)).

End cursor.

(** The mathematical map has cursors with these laws. *)
Definition entry_le (p q : entry) : Prop := bytes_le p.1 q.1.

#[export] Instance entry_le_dec : RelDecision entry_le.
Proof. intros p q. unfold entry_le. apply _. Defined.
#[export] Instance entry_le_trans : Transitive entry_le.
Proof. intros p q r. unfold entry_le. apply transitivity. Qed.
#[export] Instance entry_le_total : Total entry_le.
Proof. intros p q. unfold entry_le. apply bytes_le_total. Qed.

Definition pick_table (table : string) (x : string * list byte * list byte) : option entry :=
  let '((b, k), v) := x in if decide (b = table) then Some (k, v) else None.

Definition map_entries (t : KVMap) (table : string) : list entry :=
  merge_sort entry_le (omap (pick_table table) (map_to_list t)).

#[export] Instance gmap_KVCursor : KVCursor KVMap := map_entries.

Lemma elem_of_map_entries t table k v : (k, v) ∈ map_entries t table ↔ t !! (table, k) = Some v.
Proof.
  unfold map_entries. rewrite merge_sort_Permutation, list_elem_of_omap. split.
  - intros ([[b k'] v'] & Hin & E). apply elem_of_map_to_list in Hin. unfold pick_table in E.
    case_decide; [|done]. by simplify_eq.
  - intros E. exists ((table, k), v). split; [by apply elem_of_map_to_list|]. unfold pick_table. by rewrite decide_True.
Qed.

Lemma NoDup_map_entries t table : NoDup (map_entries t table).*1.
Proof.
  unfold map_entries. rewrite merge_sort_Permutation.
  pose proof (NoDup_fst_map_to_list t) as H. induction (map_to_list t) as [|[[b k] v] l IH]; [apply NoDup_nil_2|].
  cbn [fmap list_fmap omap list_omap] in *. apply NoDup_cons in H as [Hn H]. 
  change (pick_table table (b, k, v)) with (if decide (b = table) then Some (k, v) else None).
  destruct (decide (b = table)) as [Hb|Hb]; [|by apply IH]. cbn. apply NoDup_cons. split; [|by apply IH]. subst b.
  intros Hin. apply Hn. apply list_elem_of_fmap in Hin as ([k' v'] & -> & Hin). apply list_elem_of_omap in Hin as ([[b k] v''] & Hin & E).
  unfold pick_table in E. case_decide; [|done]. simplify_eq. apply list_elem_of_fmap. by exists (table, k', v').
Qed.

Lemma sorted_key_lt l : StronglySorted entry_le l → NoDup l.*1 → StronglySorted key_lt l.
Proof.
  induction 1 as [|p l Hs IH Hp]; [constructor|]. cbn. intros [Hn Hd]%NoDup_cons. constructor; [by apply IH|].
  rewrite Forall_forall in *. intros q Hq. split; [by apply Hp|]. intros E. apply Hn. rewrite E.
  apply list_elem_of_fmap. by exists q.
Qed.

#[export] Instance gmap_KVCursorLaws : KVCursorLaws KVMap.
Proof.
  split.
  - intros t b k. by eexists.
  - intros t b. apply sorted_key_lt; [apply StronglySorted_merge_sort; apply _|apply NoDup_map_entries].
  - intros t b k v. change (kv_entries t b) with (map_entries t b). rewrite elem_of_map_entries. cbn. split; congruence.
Qed.
