(* ===== verification/MemBatch.v ===== *)
(** Batches of writes over a key-value transaction
    (src/erigon-lib/kv/membatch/mapmutation.go and mapmutation_okx.go), the load of
    sorted records into a table (src/erigon-lib/etl/collector.go), and the batches
    of the mdbx store of the state tree (src/smt/pkg/db/mdbx.go).

    A batch keeps the writes in maps of maps and reads through to the transaction.
    A nil value marks a deleted key.  The batch is itself a transaction
    ([Mapmutation_KVTx]), so that the store of the state tree over a batch is
    [EriDb (Mapmutation T)]; the batch with two caches is the one of EriCacheDb
    (src/smt/pkg/db/mdbx_cache.go). *)

From stdpp Require Import gmap sorting.
From Stdlib Require Import Strings.Byte.
From S2P Require Import Prelude Bytes SmtDb Kv.

Local Open Scope Z_scope.

(** [map[string]map[string][]byte]: a nil slice is [None]. *)
Abbreviation bucket := (gmap (list byte) (option (list byte))).
Abbreviation tables := (gmap string bucket).

(** [binary.BigEndian.Uint64]: reads eight bytes. *)
Definition BigEndian_Uint64 (b : list byte) : outcome Z :=
  if (length b <? 8)%nat then Panic else Ok (be_val (take 8 b)).

Definition lookup2 (ts : tables) (table : string) (key : list byte) : option (option (list byte)) :=
  match ts !! table with Some ptm => ptm !! key | None => None end.

Definition insert2 (ts : tables) (table : string) (k : list byte) (v : option (list byte)) : tables :=
  <[table := <[k := v]> (default ∅ (ts !! table))]> ts.

Definition value_len (v : option (list byte)) : Z := Z.of_nat (length (default [] v)).

(** * What the batch uses of a transaction *)

Section Reads.
Context {T : Type} `{KVCursor T}.

(** Has: whether the key exists. *)
Definition kv_Has (t : T) (table : string) (key : list byte) : outcome bool :=
  o ← kv_GetOne t table key; Ok (match o with Some _ => true | None => false end).

(** ForEach: the entries from the first key that is not below [fromPrefix]. *)
Definition kv_ForEach {ST : Type} (t : T) (table : string) (fromPrefix : list byte)
    (walker : ST → list byte → option (list byte) → outcome ST) (st : ST) : outcome ST :=
  foldM (λ st p, walker st p.1 (Some p.2)) st (seek_in fromPrefix (kv_entries t table)).

(** Append: for keys after the last one of the table. *)
Definition kv_Append (t : T) (table : string) (k v : list byte) : outcome T :=
  match kv_Last t table with
  | Some (k', _) => if bytes_leb k k' then Err "MDBX_EKEYMISMATCH" else kv_Put t table k v
  | None => kv_Put t table k v
  end.
End Reads.

(** * Loading records *)

(** The order of the keys. *)
Definition record : Type := list byte * option (list byte).
Definition record_le (p q : record) : Prop := bytes_le p.1 q.1.

#[export] Instance record_le_dec : RelDecision record_le.
Proof. intros p q. unfold record_le. apply _. Defined.
#[export] Instance record_le_trans : Transitive record_le.
Proof. intros p q r. unfold record_le. apply transitivity. Qed.
#[export] Instance record_le_total : Total record_le.
Proof. intros p q. unfold record_le. apply bytes_le_total. Qed.

Section Load.
Context {T : Type} `{KVCursor T}.

(** The variables of Collector.Load: the number of the record, whether Append can
    be used, the table. *)
Record loading := mkLoading { ld_i : nat; ld_append : bool; ld_tx : T }.

(** One record: mergeSortFiles stops when quit is closed, IdentityLoadFunc passes
    the record to loadNextFunc.  The tables of the state tree are not DupSort. *)
Definition load_record (stopped : nat → bool) (toBucket : string) (lastKey : option (list byte)) (st : loading) (r : record)
    : outcome loading :=
  if stopped (ld_i st) then Err (String.append "loadIntoTable " (String.append toBucket ": stopped"))
  else
    let '(k, v) := r in
    let canUseAppend :=
      if (ld_i st =? 0)%nat
      then match lastKey with None => true | Some lastKey => negb (bytes_leb k lastKey) end
      else ld_append st in
    tx ← match v with
         | None => if canUseAppend then Ok (ld_tx st) else kv_Delete (ld_tx st) toBucket k
         | Some v => if canUseAppend then kv_Append (ld_tx st) toBucket k v else kv_Put (ld_tx st) toBucket k v
         end;
    Ok (mkLoading (S (ld_i st)) canUseAppend tx).

(** Collector.Load of records that were collected in any order: each provider is
    sorted, and mergeSortFiles takes the records in the order of their keys. *)
Definition Load (stopped : nat → bool) (tx : T) (toBucket : string) (rs : list record) : outcome T :=
  let lastKey := fst <$> kv_Last tx toBucket in
  st ← foldM (load_record stopped toBucket lastKey) (mkLoading 0 false tx) (merge_sort record_le rs);
  Ok (ld_tx st).
End Load.
Arguments loading T : clear implicits.

(** * Mapmutation *)

(** [quit]: [None] for a channel of the caller, [Some closed] for one that the
    batch made.  [clean] says whether the function of that name is still set. *)
Record Mapmutation (T : Type) := mkMapmutation {
  puts : tables; mm_db : option T; quit : option bool; clean : bool; mm_size : Z; mm_count : Z
}.
Arguments mkMapmutation {T} puts mm_db quit clean mm_size mm_count.
Arguments puts {T} m.
Arguments mm_db {T} m.
Arguments quit {T} m.
Arguments clean {T} m.
Arguments mm_size {T} m.
Arguments mm_count {T} m.

Definition kv_Sequence : string := "Sequence".

Module Mapmutation.
Section Mapmutation.
Context {T : Type} `{KVCursor T}.

(** [quitNil]: whether the caller passes nil. *)
Definition NewHashBatch (tx : option T) (quitNil : bool) : Mapmutation T :=
  mkMapmutation ∅ tx (if quitNil then Some false else None) true 0 0.

Definition getMem (m : Mapmutation T) (table : string) (key : list byte) : option (option (list byte)) :=
  lookup2 (puts m) table key.

Definition GetOne (m : Mapmutation T) (table : string) (key : list byte) : outcome (option (list byte)) :=
  match getMem m table key with
  | Some value => Ok value
  | None => match mm_db m with Some db => kv_GetOne db table key | None => Ok None end
  end.

Definition Last (m : Mapmutation T) (table : string) : outcome (option entry) :=
  match mm_db m with Some db => Ok (kv_Last db table) | None => Panic end.

Definition Has (m : Mapmutation T) (table : string) (key : list byte) : outcome bool :=
  match getMem m table key with
  | Some _ => Ok true
  | None => match mm_db m with Some db => kv_Has db table key | None => Ok false end
  end.

(** Put with a value that may be nil. *)
Definition put (m : Mapmutation T) (table : string) (k : list byte) (v : option (list byte)) : outcome (Mapmutation T) :=
  match lookup2 (puts m) table k with
  | Some old =>
      Ok (mkMapmutation (insert2 (puts m) table k v) (mm_db m) (quit m) (clean m)
            (mm_size m + (value_len v - value_len old)) (mm_count m))
  | None =>
      Ok (mkMapmutation (insert2 (puts m) table k v) (mm_db m) (quit m) (clean m)
            (mm_size m + (Z.of_nat (length k) + value_len v)) (u64 (mm_count m + 1)))
  end.

Definition Put (m : Mapmutation T) (table : string) (k v : list byte) : outcome (Mapmutation T) := put m table k (Some v).

Definition Delete (m : Mapmutation T) (table : string) (k : list byte) : outcome (Mapmutation T) := put m table k None.

(** The current value of a sequence. *)
Definition sequence (m : Mapmutation T) (b : string) : outcome Z :=
  v ← match getMem m kv_Sequence (str_bytes b) with
      | Some v => Ok v
      | None => match mm_db m with Some db => kv_GetOne db kv_Sequence (str_bytes b) | None => Ok None end
      end;
  match v with
  | None | Some [] => Ok 0
  | Some v => BigEndian_Uint64 v
  end.

Definition ReadSequence (m : Mapmutation T) (b : string) : outcome Z := sequence m b.

Definition IncrementSequence (m : Mapmutation T) (b : string) (amount : Z) : outcome (Z * Mapmutation T) :=
  currentV ← sequence m b;
  m ← Put m kv_Sequence (str_bytes b) (be_bytes 8 (u64 (currentV + amount)));
  Ok (currentV, m).

(** [sort.Search] for the first key that is not below [k], then the insertion at
    that place; the keys are sorted, so that the search finds it. *)
Fixpoint insert_key (k : list byte) (keys : list (list byte)) : list (list byte) :=
  match keys with
  | [] => [k]
  | k' :: keys => if bytes_leb k k' then k :: k' :: keys else k' :: insert_key k keys
  end.

(** The closures and the loop bodies of ForEach, on the variables keys and values. *)
Definition collect_entry (kvs : list (list byte) * bucket) (k : list byte) (v : option (list byte))
    : outcome (list (list byte) * bucket) := Ok (kvs.1 ++ [k], <[k := v]> kvs.2).

Definition merge_record (kvs : list (list byte) * bucket) (r : record) : list (list byte) * bucket :=
  (insert_key r.1 kvs.1, <[r.1 := r.2]> kvs.2).

Definition walk_key {ST : Type} (fromPrefix : list byte) (values : bucket)
    (walker : ST → list byte → option (list byte) → outcome ST) (st : ST) (k : list byte) : outcome ST :=
  if decide (fromPrefix `prefix_of` k) then walker st k (default None (values !! k)) else Ok st.

(** [order]: the order in which Go iterates over the bucket. *)
Definition ForEach {ST : Type} (order : bucket → list record) (m : Mapmutation T) (b : string) (fromPrefix : list byte)
    (walker : ST → list byte → option (list byte) → outcome ST) (st : ST) : outcome ST :=
  match mm_db m with
  | None => Panic
  | Some db =>
      match puts m !! b with
      | None => kv_ForEach db b fromPrefix walker st
      | Some ptm =>
          kvs ← kv_ForEach db b fromPrefix collect_entry ([], ∅);
          let '(keys, values) := foldl merge_record kvs (order ptm) in
          foldM (walk_key fromPrefix values walker) st (merge_sort bytes_le keys)
      end
  end.

(** Whether quit is closed at a record; [stopped] for a channel of the caller. *)
Definition quit_closed (m : Mapmutation T) (stopped : nat → bool) (i : nat) : bool :=
  match quit m with Some closed => closed | None => stopped i end.

(** [torder]: the order in which Go iterates over the tables. *)
Definition doCommit (torder : tables → list (string * bucket)) (stopped : nat → bool) (m : Mapmutation T) (tx : T) : outcome T :=
  foldM (λ tx e, Load (quit_closed m stopped) tx e.1 (map_to_list e.2)) tx (torder (puts m)).

(** The transaction of the batch and [tx] are one object, where the code flushes. *)
Definition Flush (torder : tables → list (string * bucket)) (stopped : nat → bool) (m : Mapmutation T) (tx : option T)
    : outcome (Mapmutation T * T) :=
  match tx with
  | None => Err "rwTx needed"
  | Some tx =>
      tx ← doCommit torder stopped m tx;
      Ok (mkMapmutation ∅ (Some tx) (quit m) (clean m) 0 0, tx)
  end.

Definition Close (m : Mapmutation T) : Mapmutation T :=
  if clean m then mkMapmutation ∅ (mm_db m) ((λ _, true) <$> quit m) false 0 0 else m.

Definition SetCache (m : Mapmutation T) (cache : tables) : Mapmutation T :=
  mkMapmutation cache (mm_db m) (quit m) (clean m) (mm_size m) (mm_count m).
End Mapmutation.
End Mapmutation.

#[export] Instance Mapmutation_KVTx {T} `{KVCursor T} : KVTx (Mapmutation T) := {|
  kv_GetOne := Mapmutation.GetOne; kv_Put := Mapmutation.Put; kv_Delete := Mapmutation.Delete |}.

(** * The batches of the mdbx store *)

(** EriDb.tx (and kvTxRoSMT, always the same): the transaction kvTxSMT or a batch
    over it. *)
Inductive EriTx (T : Type) :=
  | TxDirect (t : T)
  | TxBatch (t : T) (batch : Mapmutation T).
Arguments TxDirect {T} t.
Arguments TxBatch {T} t batch.

Section EriTx.
Context {T : Type} `{KVCursor T}.

Definition kvTxSMT (e : EriTx T) : T := match e with TxDirect t | TxBatch t _ => t end.

(** The deferred Close runs before OpenBatch returns. *)
Definition OpenBatch (quitNil : bool) (e : EriTx T) : EriTx T :=
  let batch := Mapmutation.NewHashBatch (Some (kvTxSMT e)) quitNil in
  TxBatch (kvTxSMT e) (Mapmutation.Close batch).

Definition CommitBatch (torder : tables → list (string * bucket)) (stopped : nat → bool) (e : EriTx T) : outcome (EriTx T) :=
  match e with
  | TxDirect t => Ok e
  | TxBatch t batch =>
      '(_, t) ← Mapmutation.Flush torder stopped batch (Some t);
      Ok (TxDirect t)
  end.

(** Closing the batch changes nothing that is kept. *)
Definition RollbackBatch (e : EriTx T) : EriTx T :=
  match e with
  | TxDirect t => e
  | TxBatch t batch => TxDirect t
  end.

Definition EriDb_SetCache (e : EriTx T) (cache : option tables) : EriTx T :=
  match e with
  | TxDirect t => e
  | TxBatch t batch => TxBatch t (Mapmutation.SetCache batch (default ∅ cache))
  end.
End EriTx.

(** * The batch with two caches *)

Record DoubleCache (T : Type) := mkDoubleCache {
  modifiedCache : tables; immutableCache : tables; dc_db : option T; dc_quit : option bool; dc_clean : bool;
  dc_size : Z; dc_count : Z
}.
Arguments mkDoubleCache {T} modifiedCache immutableCache dc_db dc_quit dc_clean dc_size dc_count.
Arguments modifiedCache {T} d.
Arguments immutableCache {T} d.
Arguments dc_db {T} d.
Arguments dc_quit {T} d.
Arguments dc_clean {T} d.
Arguments dc_size {T} d.
Arguments dc_count {T} d.

(** [for table, bucket := range src { for k, v := range bucket { dst[table][k] = v } }] *)
Definition overlay (dst src : tables) : tables := union_with (λ d s, Some (s ∪ d)) dst src.

Module DoubleCache.
Section DoubleCache.
Context {T : Type} `{KVCursor T}.

Definition NewHashCacheBatch (tx : option T) (quitNil : bool) : DoubleCache T :=
  mkDoubleCache ∅ ∅ tx (if quitNil then Some false else None) true 0 0.

Definition getMem (m : DoubleCache T) (table : string) (key : list byte) : option (option (list byte)) :=
  match lookup2 (modifiedCache m) table key with
  | Some value => Some value
  | None => lookup2 (immutableCache m) table key
  end.

Definition GetOne (m : DoubleCache T) (table : string) (key : list byte) : outcome (option (list byte)) :=
  match getMem m table key with
  | Some value => Ok value
  | None => match dc_db m with Some db => kv_GetOne db table key | None => Ok None end
  end.

Definition Has (m : DoubleCache T) (table : string) (key : list byte) : outcome bool :=
  match getMem m table key with
  | Some _ => Ok true
  | None => match dc_db m with Some db => kv_Has db table key | None => Ok false end
  end.

Definition put (m : DoubleCache T) (table : string) (k : list byte) (v : option (list byte)) : outcome (DoubleCache T) :=
  match lookup2 (modifiedCache m) table k with
  | Some old =>
      Ok (mkDoubleCache (insert2 (modifiedCache m) table k v) (immutableCache m) (dc_db m) (dc_quit m) (dc_clean m)
            (dc_size m + (value_len v - value_len old)) (dc_count m))
  | None =>
      Ok (mkDoubleCache (insert2 (modifiedCache m) table k v) (immutableCache m) (dc_db m) (dc_quit m) (dc_clean m)
            (dc_size m + (Z.of_nat (length k) + value_len v)) (u64 (dc_count m + 1)))
  end.

Definition Put (m : DoubleCache T) (table : string) (k v : list byte) : outcome (DoubleCache T) := put m table k (Some v).

Definition Delete (m : DoubleCache T) (table : string) (k : list byte) : outcome (DoubleCache T) := put m table k None.

Definition Close (m : DoubleCache T) : DoubleCache T :=
  if dc_clean m then mkDoubleCache ∅ ∅ (dc_db m) ((λ _, true) <$> dc_quit m) false 0 0 else m.

(** The map is shared with the caller, who only reads it while the batch is used. *)
Definition SetCache (m : DoubleCache T) (cache : tables) : DoubleCache T :=
  mkDoubleCache (modifiedCache m) cache (dc_db m) (dc_quit m) (dc_clean m) (dc_size m) (dc_count m).

(** The loop over smtTables. *)
Definition retrieve_table (m : tables * tables) (table : string) : tables * tables :=
  match m.1 !! table with
  | Some b => (delete table m.1, <[table := b]> m.2)
  | None => m
  end.

Definition RetrieveAndCleanSmtCache (m : DoubleCache T) (smtTables : list string) : tables * DoubleCache T :=
  let '(modified, deltaTargetCached) := foldl retrieve_table (modifiedCache m, ∅) smtTables in
  (deltaTargetCached,
   mkDoubleCache modified (immutableCache m) (dc_db m) (dc_quit m) (dc_clean m) (dc_size m) (dc_count m)).
End DoubleCache.
End DoubleCache.

#[export] Instance DoubleCache_KVTx {T} `{KVCursor T} : KVTx (DoubleCache T) := {|
  kv_GetOne := DoubleCache.GetOne; kv_Put := DoubleCache.Put; kv_Delete := DoubleCache.Delete |}.

(** * EriCacheDb *)

Definition HermezSmtTables : list string := [TableSmt; TableStats; TableAccountValues; TableMetadata; TableHashKey].

Section EriCacheDb.
Context {T : Type} `{KVCursor T}.

(** The cacheTx of an EriCacheDb; the deferred Close runs before the function returns. *)
Definition NewEriCacheDb (txsmt : option T) (quitNil : bool) : DoubleCache T :=
  DoubleCache.Close (DoubleCache.NewHashCacheBatch txsmt quitNil).

Definition EriCacheDb_SetCache (m : DoubleCache T) (smtCachedMapValue : option tables) : DoubleCache T :=
  DoubleCache.SetCache m (default ∅ smtCachedMapValue).

Definition EriCacheDb_RetriveAndCleanCache (m : DoubleCache T) : tables * DoubleCache T :=
  DoubleCache.RetrieveAndCleanSmtCache m HermezSmtTables.

Definition EriCacheDb_CommitBatch (m : DoubleCache T) : DoubleCache T := DoubleCache.Close m.

Definition EriCacheDb_RollbackBatch (m : DoubleCache T) : DoubleCache T := DoubleCache.Close m.
End EriCacheDb.
