(* ===== verification/MemBatchSpec.v ===== *)
(** What the batches promise.

    A batch behaves as the transaction with its writes applied
    ([Mapmutation_KVTxLaws]), and after Flush the transaction reads as the batch
    did ([Flush_spec]): Load brings every record into its table, by Append where
    the keys are behind the last one, by Put and Delete elsewhere. *)

From stdpp Require Import gmap sorting.
From Stdlib Require Import Strings.Byte.
From S2P Require Import Prelude Bytes SmtUtils SmtKeys SmtDb SmtTree Smt SmtInsert SmtRefine SmtBatch SmtBatchEntries SmtBatchSpec SmtBatchRefine SmtSources Kv MemBatch.

Local Open Scope Z_scope.
#[local] Set Warnings "-clear-no-such-hyp".

(** * Tables *)

Lemma lookup2_insert2 ts b k v b' k' :
  lookup2 (insert2 ts b k v) b' k' = if decide ((b', k') = (b, k)) then Some v else lookup2 ts b' k'.
Proof.
  unfold lookup2, insert2. destruct (decide (b' = b)) as [->|Hb].
  - rewrite lookup_insert_eq. destruct (decide (k' = k)) as [->|Hk].
    + rewrite lookup_insert_eq. by rewrite decide_True.
    + rewrite lookup_insert_ne by done. rewrite decide_False by congruence. by destruct (ts !! b).
  - rewrite lookup_insert_ne by done. by rewrite decide_False by congruence.
Qed.

Lemma lookup2_overlay d s b k :
  lookup2 (overlay d s) b k = match lookup2 s b k with Some v => Some v | None => lookup2 d b k end.
Proof.
  unfold lookup2, overlay. rewrite lookup_union_with. destruct (d !! b) as [db|], (s !! b) as [sb|]; cbn; [|done| |done].
  - rewrite lookup_union. destruct (sb !! k); [by destruct (db !! k)|]. by destruct (db !! k).
  - by destruct (sb !! k).
Qed.

(** * Batches are transactions *)

Section Laws.
Context {T : Type} `{KVCursor T}.

Lemma mm_put_spec (m : Mapmutation T) b k v :
  ∃ m', Mapmutation.put m b k v = Ok m' ∧ puts m' = insert2 (puts m) b k v ∧ mm_db m' = mm_db m ∧ quit m' = quit m.
Proof. unfold Mapmutation.put. destruct (lookup2 (puts m) b k); by eexists. Qed.

Lemma mm_GetOne_put (m m' : Mapmutation T) b k v b' k' :
  puts m' = insert2 (puts m) b k v → mm_db m' = mm_db m →
  Mapmutation.GetOne m' b' k' = if decide ((b', k') = (b, k)) then Ok v else Mapmutation.GetOne m b' k'.
Proof.
  intros Hp Hd. unfold Mapmutation.GetOne, Mapmutation.getMem. rewrite Hp, Hd, lookup2_insert2. by destruct (decide _).
Qed.

#[export] Instance Mapmutation_KVTxLaws : KVTxLaws (Mapmutation T).
Proof.
  split; intros m b k; [intros v; destruct (mm_put_spec m b k (Some v)) as (m' & E & Hp & Hd & _)|
    destruct (mm_put_spec m b k None) as (m' & E & Hp & Hd & _)]; exists m'; (split; [exact E|]);
    cbn [kv_GetOne Mapmutation_KVTx]; (split; [by rewrite (mm_GetOne_put m m' _ _ _ _ _ Hp Hd), decide_True|]);
    intros b' k' Hne; by rewrite (mm_GetOne_put m m' _ _ _ _ _ Hp Hd), decide_False.
Qed.

Lemma dc_put_spec (m : DoubleCache T) b k v :
  ∃ m', DoubleCache.put m b k v = Ok m' ∧ modifiedCache m' = insert2 (modifiedCache m) b k v ∧
    immutableCache m' = immutableCache m ∧ dc_db m' = dc_db m ∧ dc_clean m' = dc_clean m.
Proof. unfold DoubleCache.put. destruct (lookup2 (modifiedCache m) b k); by eexists. Qed.

Lemma dc_GetOne_put (m m' : DoubleCache T) b k v b' k' :
  modifiedCache m' = insert2 (modifiedCache m) b k v → immutableCache m' = immutableCache m → dc_db m' = dc_db m →
  DoubleCache.GetOne m' b' k' = if decide ((b', k') = (b, k)) then Ok v else DoubleCache.GetOne m b' k'.
Proof.
  intros Hp Hi Hd. unfold DoubleCache.GetOne, DoubleCache.getMem. rewrite Hp, Hi, Hd, lookup2_insert2. by destruct (decide _).
Qed.

#[export] Instance DoubleCache_KVTxLaws : KVTxLaws (DoubleCache T).
Proof.
  split; intros m b k; [intros v; destruct (dc_put_spec m b k (Some v)) as (m' & E & Hp & Hi & Hd & _)|
    destruct (dc_put_spec m b k None) as (m' & E & Hp & Hi & Hd & _)]; exists m'; (split; [exact E|]);
    cbn [kv_GetOne DoubleCache_KVTx]; (split; [by rewrite (dc_GetOne_put m m' _ _ _ _ _ Hp Hi Hd), decide_True|]);
    intros b' k' Hne; by rewrite (dc_GetOne_put m m' _ _ _ _ _ Hp Hi Hd), decide_False.
Qed.
End Laws.

(** * Load *)

Section Load.
Context {T : Type} `{KVCursorLaws T} `{!KVTxLaws T}.
Implicit Types (t : T) (k : list byte).

(** All keys of the table are below [k]. *)
Definition below_key t b k : Prop := ∀ k' v, kv_GetOne t b k' = Ok (Some v) → bytes_le k' k ∧ k' ≠ k.

Lemma last_below t b k :
  match kv_Last t b with Some (k', _) => bytes_leb k k' = false | None => True end ↔ below_key t b k.
Proof.
  unfold kv_Last, below_key. split.
  - intros Hl k' v Hv. apply kv_entries_iff in Hv. pose proof (kv_entries_sorted t b) as Hs.
    destruct (last (kv_entries t b)) as [[kl vl]|] eqn:E; [|apply last_None in E; rewrite E in Hv; by apply elem_of_nil in Hv].
    apply last_Some in E as [l E]. rewrite E in Hv, Hs.
    assert (bytes_le k' kl) as Hle.
    { apply elem_of_app in Hv as [Hv|[[= -> ->]|[]%elem_of_nil]%elem_of_cons]; [|done].
      apply StronglySorted_app in Hs as (Hs & _ & _). destruct (Hs (k', v) (kl, vl)) as [Hx _]; [done|by left|done]. }
    destruct (total bytes_le k k') as [Hk|Hk].
    + assert (bytes_le k kl) as Hx by (by etrans). unfold bytes_le in Hx. congruence.
    + split; [done|]. intros ->. unfold bytes_le in Hle. congruence.
  - intros Hb. destruct (last (kv_entries t b)) as [[kl vl]|] eqn:E; [|done]. apply last_Some in E as [l E].
    destruct (Hb kl vl) as [Hle Hne]; [apply kv_entries_iff; rewrite E; apply elem_of_app; right; by left|].
    destruct (bytes_leb k kl) eqn:Ek; [|done]. destruct Hne. by apply (anti_symm bytes_le).
Qed.

Lemma kv_Append_spec t b k v : below_key t b k → kv_Append t b k v = kv_Put t b k v.
Proof. intros Hb. apply last_below in Hb. unfold kv_Append. destruct (kv_Last t b) as [[k' v']|]; [|done]. by rewrite Hb. Qed.

(** What one record does. *)
Definition write_record t b (r : record) : outcome T :=
  match r.2 with None => kv_Delete t b r.1 | Some v => kv_Put t b r.1 v end.

Definition record_lt (p q : record) : Prop := bytes_le p.1 q.1 ∧ p.1 ≠ q.1.

(** [t'] is [t] with the record [r] in the table [b]. *)
Definition wrote t b (r : record) t' : Prop :=
  kv_GetOne t' b r.1 = Ok r.2 ∧ ∀ b' k', (b', k') ≠ (b, r.1) → kv_GetOne t' b' k' = kv_GetOne t b' k'.

(** Whether loadNextFunc appends. *)
Definition appends (lastKey : option (list byte)) (st : loading T) (k : list byte) : bool :=
  if (ld_i st =? 0)%nat then match lastKey with None => true | Some lastKey => negb (bytes_leb k lastKey) end else ld_append st.

Lemma load_record_spec b lastKey st r :
  (appends lastKey st r.1 = true → below_key (ld_tx st) b r.1) →
  ∃ t', load_record (λ _, false) b lastKey st r = Ok (mkLoading (S (ld_i st)) (appends lastKey st r.1) t') ∧ wrote (ld_tx st) b r t'.
Proof.
  destruct r as [k v]. intros Hb. unfold load_record. cbn [fst] in *. fold (appends lastKey st k). destruct v as [v|].
  - assert ((if appends lastKey st k then kv_Append (ld_tx st) b k v else kv_Put (ld_tx st) b k v) = kv_Put (ld_tx st) b k v) as ->
      by (destruct (appends lastKey st k); [by rewrite kv_Append_spec by auto|done]).
    destruct (kv_Put_ok (ld_tx st) b k v) as (t' & E & Eg & Eo). exists t'. rewrite E, bind_Ok. done.
  - destruct (appends lastKey st k).
    + exists (ld_tx st). rewrite bind_Ok. split; [done|]. split; [|done]. cbn [fst snd].
      destruct (kv_open (ld_tx st) b k) as [[v|] E]; [|done]. destruct (Hb eq_refl k v E) as [_ []]. done.
    + destruct (kv_Delete_ok (ld_tx st) b k) as (t' & E & Eg & Eo). exists t'. rewrite E, bind_Ok. done.
Qed.

Lemma wrote_below t b r t' k : wrote t b r t' → below_key t b r.1 → bytes_le r.1 k → r.1 ≠ k → below_key t' b k.
Proof.
  intros [Hw Ho] Hb Hle Hne k' v Hv. destruct (decide (k' = r.1)) as [->|Hk]; [done|].
  rewrite Ho in Hv by congruence. destruct (Hb k' v Hv) as [Hlt _]. split; [by etrans|].
  intros ->. destruct Hne. by apply (anti_symm bytes_le).
Qed.

Lemma load_loop b lastKey rs : ∀ st,
  StronglySorted record_lt rs →
  match rs with [] => True | r :: _ => appends lastKey st r.1 = true → below_key (ld_tx st) b r.1 end →
  ∃ st', foldM (load_record (λ _, false) b lastKey) st rs = Ok st' ∧
    ∀ b' k', kv_GetOne (ld_tx st') b' k' =
      match (if decide (b' = b) then (list_to_map rs : bucket) !! k' else None) with
      | Some v => Ok v | None => kv_GetOne (ld_tx st) b' k' end.
Proof.
  induction rs as [|r rs IH]; intros st Hs Hb; cbn [foldM].
  { exists st. split; [done|]. intros b' k'. by destruct (decide _). }
  apply StronglySorted_inv in Hs as [Hs Hr].
  destruct (load_record_spec b lastKey st r Hb) as (t' & -> & Hw). rewrite bind_Ok.
  destruct (IH (mkLoading (S (ld_i st)) (appends lastKey st r.1) t')) as (st' & E & Hg); [done| |].
  { destruct rs as [|r' rs]; [done|]. intros Ha. apply Forall_cons in Hr as [[Hle Hne] _]. cbn [ld_tx].
    eapply wrote_below; [exact Hw|by apply Hb|done|done]. }
  exists st'. split; [done|]. intros b' k'. rewrite Hg. cbn [ld_tx list_to_map foldr].
  destruct Hw as [Hw Ho]. destruct (decide (b' = b)) as [->|Hne]; [|by apply Ho; congruence].
  destruct r as [k v]. cbn [fst snd] in *. change (foldr _ _ rs) with (list_to_map rs : bucket).
  destruct (decide (k' = k)) as [->|Hk].
  - rewrite lookup_insert_eq. rewrite not_elem_of_list_to_map_1; [done|]. intros ([k' v'] & Ek & Hin)%list_elem_of_fmap.
    rewrite Forall_forall in Hr. destruct (Hr _ Hin) as [_ Hx]. done.
  - rewrite lookup_insert_ne by done. destruct (list_to_map rs !! k'); [done|]. apply Ho. congruence.
Qed.

Lemma Load_spec (t : T) (b : string) (bk : bucket) :
  ∃ t', Load (λ _, false) t b (map_to_list bk) = Ok t' ∧
    ∀ b' k', kv_GetOne t' b' k' = match (if decide (b' = b) then bk !! k' else None) with Some v => Ok v | None => kv_GetOne t b' k' end.
Proof.
  unfold Load. set (rs := merge_sort record_le (map_to_list bk)).
  assert (rs ≡ₚ map_to_list bk) as HP by apply merge_sort_Permutation.
  assert (NoDup rs.*1) as Hnd by (rewrite HP; apply NoDup_fst_map_to_list).
  assert (StronglySorted record_lt rs) as Hs.
  { assert (StronglySorted record_le rs) as Hs by (apply StronglySorted_merge_sort; apply _). revert Hs Hnd. clear.
    generalize rs. clear rs. induction 1 as [|r rs Hs IH Hr]; intros Hnd; constructor; apply NoDup_cons in Hnd as [Hn Hnd]; [by apply IH|].
    rewrite Forall_forall in *. intros x Hx. split; [by apply Hr|]. intros E. apply Hn. rewrite E. by apply list_elem_of_fmap_2. }
  destruct (load_loop b (fst <$> kv_Last t b) rs (mkLoading 0 false t)) as (st' & E & Hg); [done| |].
  { destruct rs as [|r rs']; [done|]. unfold appends. cbn [ld_i ld_tx Nat.eqb]. intros Ha. apply last_below.
    destruct (kv_Last t b) as [[kl vl]|]; [|done]. cbn in Ha. by destruct (bytes_leb r.1 kl). }
  rewrite E, bind_Ok. exists (ld_tx st'). split; [done|]. intros b' k'. rewrite Hg. cbn [ld_tx].
  destruct (decide (b' = b)); [|done]. by rewrite (list_to_map_proper rs (map_to_list bk) Hnd HP), list_to_map_to_list.
Qed.
End Load.

(** * Flush *)

Lemma quit_open {T} (m : Mapmutation T) : quit m ≠ Some true → Mapmutation.quit_closed m (λ _, false) = λ _, false.
Proof. unfold Mapmutation.quit_closed. by destruct (quit m) as [[]|]. Qed.

Section Flush.
Context {T : Type} `{KVCursorLaws T} `{!KVTxLaws T}.

Lemma commit_loop l : ∀ t : T,
  NoDup l.*1 →
  ∃ t', foldM (λ tx e, Load (λ _, false) tx e.1 (map_to_list e.2)) t l = Ok t' ∧
    ∀ b k, kv_GetOne t' b k = match lookup2 (list_to_map l : tables) b k with Some v => Ok v | None => kv_GetOne t b k end.
Proof.
  induction l as [|[b bk] l IH]; intros t Hnd; cbn [foldM]; [by exists t|].
  apply NoDup_cons in Hnd as [Hb Hnd]. cbn [fst snd] in *. destruct (Load_spec t b bk) as (t1 & -> & H1'). rewrite bind_Ok.
  destruct (IH t1 Hnd) as (t' & E & Hg). exists t'. split; [done|]. intros b' k'. rewrite Hg, H1'. unfold lookup2.
  cbn [list_to_map foldr fst snd]. change (foldr _ _ l) with (list_to_map l : tables). destruct (decide (b' = b)) as [->|Hne].
  - rewrite lookup_insert_eq. by rewrite not_elem_of_list_to_map_1.
  - by rewrite lookup_insert_ne by done.
Qed.

Lemma Flush_spec torder (m : Mapmutation T) t :
  torder (puts m) ≡ₚ map_to_list (puts m) → quit m ≠ Some true →
  ∃ m' t', Mapmutation.Flush torder (λ _, false) m (Some t) = Ok (m', t') ∧
    ∀ b k, kv_GetOne t' b k = match Mapmutation.getMem m b k with Some v => Ok v | None => kv_GetOne t b k end.
Proof.
  intros Ho Hq. unfold Mapmutation.Flush, Mapmutation.doCommit. rewrite quit_open by done.
  assert (NoDup (torder (puts m)).*1) as Hnd by (rewrite Ho; apply NoDup_fst_map_to_list).
  destruct (commit_loop (torder (puts m)) t Hnd) as (t' & -> & Hg). rewrite bind_Ok. do 2 eexists. split; [done|].
  intros b k. rewrite Hg, (list_to_map_proper _ _ Hnd Ho), list_to_map_to_list. done.
Qed.

Lemma CommitBatch_spec torder (m : Mapmutation T) t :
  torder (puts m) ≡ₚ map_to_list (puts m) → quit m ≠ Some true → mm_db m = Some t →
  ∃ t', CommitBatch torder (λ _, false) (TxBatch t m) = Ok (TxDirect t') ∧ ∀ b k, kv_GetOne t' b k = kv_GetOne m b k.
Proof.
  intros Ho Hq Hd. unfold CommitBatch. destruct (Flush_spec torder m t Ho Hq) as (m' & t' & -> & Hg). rewrite bind_Ok.
  exists t'. split; [done|]. intros b k. rewrite Hg. cbn [kv_GetOne Mapmutation_KVTx]. unfold Mapmutation.GetOne. by rewrite Hd.
Qed.
End Flush.

(** A store of the state tree is what its transaction reads. *)
Lemma smt_holds_reads {T1 T2 : Type} {K1 : KVTx T1} {K2 : KVTx T2} hash (t1 : T1) (t2 : T2) m :
  (∀ b k, kv_GetOne t2 b k = kv_GetOne t1 b k) →
  smt_holds hash (mkSMT false (mkEriDb t1)) m → smt_holds hash (mkSMT false (mkEriDb t2)) m.
Proof.
  intros Hg [Hm Hs Hr Hst Hd]. split; [done|done|..]; cbn in *.
  - unfold EriDb.GetLastRoot in *. cbn in *. by rewrite Hg.
  - unfold stored in *. eapply Forall_impl; [exact Hst|]. intros p E. cbn in *. unfold EriDb.Get in *. cbn in *. by rewrite Hg.
  - unfold EriDb.GetDepth in *. cbn in *. by rewrite Hg.
Qed.

(** Insertions into the state tree write to the batch and leave what it is over. *)
Definition same_base {T} (d d' : EriDb (Mapmutation T)) : Prop :=
  mm_db (eri_tx d') = mm_db (eri_tx d) ∧ quit (eri_tx d') = quit (eri_tx d).

#[export] Instance same_base_keeps {T} `{KVCursor T} : SmtDBKeeps (same_base (T := T)).
Proof.
  assert (∀ d b k v d', mkEriDb <$> Mapmutation.put (eri_tx d) b k v = Ok d' → same_base (T := T) d d') as Hput.
  { intros d b k v d' E. destruct (mm_put_spec (eri_tx d) b k v) as (m' & Em & _ & Hd & Hq). rewrite Em in E. by injection E as <-. }
  apply EriDb_keeps.
  - split; [by split|]. intros x y z [H1 H2] [H3 H4]. split; congruence.
  - intros d b k v d' _. apply Hput.
  - intros d b k d' _. apply Hput.
Qed.

(** * Theorems *)



(** A batch says of a key that it deleted that it exists: Has answers true
    although GetOne finds nothing, in the batch of either kind. *)
Theorem Has_deleted {T : Type} `{KVCursor T} (m : Mapmutation T) (d : DoubleCache T) b k :
  ∃ m' d', Mapmutation.Delete m b k = Ok m' ∧ DoubleCache.Delete d b k = Ok d' ∧
    Mapmutation.GetOne m' b k = Ok None ∧ Mapmutation.Has m' b k = Ok true ∧
    DoubleCache.GetOne d' b k = Ok None ∧ DoubleCache.Has d' b k = Ok true.
Proof.
  destruct (mm_put_spec m b k None) as (m' & E & Hp & _). destruct (dc_put_spec d b k None) as (d' & E' & Hp' & _).
  exists m', d'. split_and!; [exact E|exact E'|..]; unfold Mapmutation.GetOne, Mapmutation.Has, Mapmutation.getMem,
    DoubleCache.GetOne, DoubleCache.Has, DoubleCache.getMem; rewrite ?Hp, ?Hp', lookup2_insert2, decide_True by done; done.
Qed.

(** OpenBatch without a channel of the caller opens a batch that cannot be
    committed: the Close that is deferred in it closes the channel it made, and
    CommitBatch of anything that was written stops at the first record. *)
Theorem CommitBatch_stopped {T : Type} `{KVCursor T} torder stopped (t : T) b k v :
  (∀ ts, torder ts ≡ₚ map_to_list ts) →
  ∃ batch batch', OpenBatch true (TxDirect t) = TxBatch t batch ∧ Mapmutation.Put batch b k v = Ok batch' ∧
    CommitBatch torder stopped (TxBatch t batch') = Err (String.append "loadIntoTable " (String.append b ": stopped")).
Proof.
  intros Ho. do 2 eexists. split_and!; [done|done|]. unfold CommitBatch, Mapmutation.Flush, Mapmutation.doCommit.
  change (torder _) with (torder (insert2 ∅ b k (Some v))). assert (torder (insert2 ∅ b k (Some v)) = [(b, {[k := Some v]})]) as ->.
  { apply Permutation_singleton_r. rewrite Ho. unfold insert2. rewrite lookup_empty. by rewrite insert_empty, map_to_list_singleton. }
  cbn [foldM fst snd]. rewrite map_to_list_singleton. done.
Qed.

Lemma CommitBatch_stopped_witness :
  ∃ batch batch', OpenBatch true (TxDirect (∅ : KVMap)) = TxBatch ∅ batch ∧ Mapmutation.Put batch TableStats [x01] [x02] = Ok batch' ∧
    CommitBatch map_to_list (λ _, false) (TxBatch ∅ batch') = Err "loadIntoTable HermezSmtStats: stopped".
Proof. apply (CommitBatch_stopped map_to_list (λ _, false) (∅ : KVMap)). intros ts. reflexivity. Defined.

(** The batch of EriCacheDb cannot be rolled back: the constructor closes the
    batch, a second Close does nothing, and RollbackBatch leaves every write. *)
Theorem EriCacheDb_RollbackBatch_keeps {T : Type} `{KVCursor T} (txsmt : option T) quitNil b k v :
  ∃ m, DoubleCache.Put (NewEriCacheDb txsmt quitNil) b k v = Ok m ∧ EriCacheDb_RollbackBatch m = m ∧
    EriCacheDb_CommitBatch m = m ∧ DoubleCache.GetOne (EriCacheDb_RollbackBatch m) b k = Ok (Some v).
Proof.
  destruct (dc_put_spec (NewEriCacheDb txsmt quitNil) b k (Some v)) as (m & E & Hp & Hi & Hd & Hc). exists m.
  assert (DoubleCache.Close m = m) as Em by (unfold DoubleCache.Close; by rewrite Hc).
  unfold EriCacheDb_RollbackBatch, EriCacheDb_CommitBatch. split_and!; [exact E|exact Em|exact Em|].
  rewrite Em, (dc_GetOne_put _ m b k (Some v) b k Hp Hi Hd). by rewrite decide_True.
Qed.

(** ** Handing the writes of a block over *)

Lemma retrieve_tables ts : ∀ modified delta,
  let r := foldl DoubleCache.retrieve_table (modified, delta) ts in
  ∀ b, r.1 !! b = (if decide (b ∈ ts) then None else modified !! b) ∧
    r.2 !! b = (if decide (b ∈ ts ∧ is_Some (modified !! b)) then modified !! b else delta !! b).
Proof.
  induction ts as [|t ts IH]; intros modified delta r b; cbn [foldl] in r.
  { subst r. rewrite !decide_False; [done| |]; [intros [[]%elem_of_nil _]|intros []%elem_of_nil]. }
  subst r. unfold DoubleCache.retrieve_table at 2 4. cbn [fst snd]. destruct (modified !! t) as [bk|] eqn:Et.
  - destruct (IH (delete t modified) (<[t := bk]> delta) b) as [E1 E2]. rewrite E1, E2.
    destruct (decide (b = t)) as [->|Hne].
    + rewrite lookup_delete_eq, lookup_insert_eq, Et. rewrite (decide_True (P := t ∈ t :: ts)) by left.
      rewrite (decide_True (P := t ∈ t :: ts ∧ _)) by (split; [left|eauto]). split; [by destruct (decide (t ∈ ts))|].
      rewrite decide_False; [done|]. by intros [_ [? ?]].
    + rewrite lookup_delete_ne, lookup_insert_ne by done. split; apply decide_ext; rewrite elem_of_cons; naive_solver.
  - destruct (IH modified delta b) as [E1 E2]. rewrite E1, E2. destruct (decide (b = t)) as [->|Hne].
    + rewrite Et. split; [by repeat case_decide|]. rewrite !decide_False; [done|..]; by intros [_ [? ?]].
    + split; apply decide_ext; rewrite elem_of_cons; naive_solver.
Qed.

Lemma Retrieve_lookup {T : Type} `{KVCursor T} (m : DoubleCache T) b k :
  let '(delta, m') := EriCacheDb_RetriveAndCleanCache m in
  lookup2 (modifiedCache m') b k = (if decide (b ∈ HermezSmtTables) then None else lookup2 (modifiedCache m) b k) ∧
  lookup2 delta b k = (if decide (b ∈ HermezSmtTables) then lookup2 (modifiedCache m) b k else None).
Proof.
  unfold EriCacheDb_RetriveAndCleanCache, DoubleCache.RetrieveAndCleanSmtCache.
  destruct (foldl DoubleCache.retrieve_table (modifiedCache m, ∅) HermezSmtTables) as [modified delta] eqn:E.
  pose proof (retrieve_tables HermezSmtTables (modifiedCache m) ∅ b) as [E1 E2]. rewrite E in E1, E2. cbn [fst snd modifiedCache] in *.
  split; unfold lookup2; [rewrite E1; by destruct (decide (b ∈ HermezSmtTables))|]. rewrite E2.
  destruct (modifiedCache m !! b) as [bk|] eqn:Eb.
  - destruct (decide (b ∈ HermezSmtTables)) as [Hb|Hb]; [rewrite decide_True by eauto; done|].
    rewrite decide_False by (intros [? _]; done). by rewrite lookup_empty.
  - rewrite decide_False by (by intros [_ [? ?]]). rewrite lookup_empty. by destruct (decide (b ∈ HermezSmtTables)).
Qed.

(** C29. The writes of a block can be handed over: what RetriveAndCleanCache takes
    out of the batch of EriCacheDb, laid over the cache that it read from and
    given back with SetCache, reads as before, in every table. *)
Theorem RetriveAndCleanCache_handover {T : Type} `{KVCursor T} (m : DoubleCache T) b k :
  let '(delta, m') := EriCacheDb_RetriveAndCleanCache m in
  DoubleCache.GetOne (EriCacheDb_SetCache m' (Some (overlay (immutableCache m) delta))) b k = DoubleCache.GetOne m b k ∧
  (b ∈ HermezSmtTables → lookup2 (modifiedCache m') b k = None ∧ lookup2 delta b k = lookup2 (modifiedCache m) b k).
Proof.
  pose proof (Retrieve_lookup m b k) as HL. destruct (EriCacheDb_RetriveAndCleanCache m) as [delta m'] eqn:E. destruct HL as [L1 L2].
  assert (dc_db m' = dc_db m) as Ed.
  { unfold EriCacheDb_RetriveAndCleanCache, DoubleCache.RetrieveAndCleanSmtCache in E.
    destruct (foldl _ _ _) as [modified delta']. by injection E as _ <-. }
  split.
  - unfold DoubleCache.GetOne, DoubleCache.getMem, EriCacheDb_SetCache, DoubleCache.SetCache. cbn [modifiedCache immutableCache dc_db default].
    rewrite L1, Ed. unfold id. rewrite lookup2_overlay, L2.
    destruct (decide (b ∈ HermezSmtTables)); [|done]. by destruct (lookup2 (modifiedCache m) b k).
  - intros Hb. rewrite decide_True in L1, L2 by done. done.
Qed.

(** ** Iterating *)

Lemma insert_key_perm k ks : Mapmutation.insert_key k ks ≡ₚ k :: ks.
Proof.
  induction ks as [|k' ks IH]; cbn; [done|]. destruct (bytes_leb k k'); [done|]. rewrite IH. apply Permutation_swap.
Qed.

Lemma collect_entries {T : Type} `{KVCursor T} (t : T) b p ks0 vs0 :
  ∃ vs, kv_ForEach t b p Mapmutation.collect_entry (ks0, vs0) = Ok (ks0 ++ (seek_in p (kv_entries t b)).*1, vs).
Proof.
  unfold kv_ForEach. generalize (seek_in p (kv_entries t b)). intros l. revert ks0 vs0.
  induction l as [|e l IH]; intros ks0 vs0; cbn [foldM]; [exists vs0; by rewrite app_nil_r|].
  assert (∀ k v, Mapmutation.collect_entry (ks0, vs0) k v = Ok (ks0 ++ [k], <[k := v]> vs0)) as -> by done. rewrite bind_Ok.
  destruct (IH (ks0 ++ [e.1]) (<[e.1 := Some e.2]> vs0)) as [vs ->]. exists vs. by rewrite <-app_assoc.
Qed.

Lemma merge_records l : ∀ kvs, (foldl Mapmutation.merge_record kvs l).1 ≡ₚ kvs.1 ++ l.*1.
Proof.
  induction l as [|r l IH]; intros kvs; cbn [foldl]; [by rewrite app_nil_r|].
  rewrite IH. cbn [Mapmutation.merge_record fst fmap list_fmap]. rewrite insert_key_perm. solve_Permutation.
Qed.

Lemma walk_keys (p : list byte) (vs : bucket) (l : list (list byte)) : ∀ ks0,
  foldM (Mapmutation.walk_key p vs (λ ks k _, Ok (ks ++ [k]))) ks0 l = Ok (ks0 ++ filter (λ k, p `prefix_of` k) l).
Proof.
  induction l as [|k l IH]; intros ks0; cbn [foldM]; [by rewrite app_nil_r|]. rewrite filter_cons.
  assert (Mapmutation.walk_key p vs (λ ks k _, Ok (ks ++ [k])) ks0 k = Ok (if decide (p `prefix_of` k) then ks0 ++ [k] else ks0)) as ->
    by (unfold Mapmutation.walk_key; by case_decide).
  rewrite bind_Ok, IH. destruct (decide (p `prefix_of` k)); [by rewrite <-app_assoc|done].
Qed.

(** Iterating over a table of a batch repeats keys: ForEach calls the walker for
    every key of the transaction from the prefix on and again for every key of
    the batch, deleted keys included, so that a key that the batch overwrites is
    visited twice. *)
Theorem ForEach_repeats {T : Type} `{KVCursor T} (order : bucket → list record) (m : Mapmutation T) (db : T) (b : string) (ptm : bucket) (p : list byte) :
  order ptm ≡ₚ map_to_list ptm → mm_db m = Some db → puts m !! b = Some ptm →
  ∃ ks, Mapmutation.ForEach order m b p (λ ks k _, Ok (ks ++ [k])) [] = Ok ks ∧
    ks ≡ₚ filter (λ k, p `prefix_of` k) ((seek_in p (kv_entries db b)).*1 ++ (map_to_list ptm).*1).
Proof.
  intros Ho Hd Hp. unfold Mapmutation.ForEach. rewrite Hd, Hp.
  destruct (collect_entries db b p [] ∅) as [vs ->]. rewrite bind_Ok. cbn [app].
  pose proof (merge_records (order ptm) ((seek_in p (kv_entries db b)).*1, vs)) as HP.
  destruct (foldl Mapmutation.merge_record _ (order ptm)) as [ks1 vs1]. cbn [fst] in HP. rewrite walk_keys.
  eexists. split; [done|]. cbn [app]. by rewrite merge_sort_Permutation, HP, Ho.
Qed.

Lemma ForEach_repeats_witness :
  let db := {[(TableStats, [x01]) := [x0a]]} : KVMap in
  ∃ m ks, Mapmutation.Put (Mapmutation.NewHashBatch (Some db) false) TableStats [x01] [x0b] = Ok m ∧
    Mapmutation.ForEach map_to_list m TableStats [] (λ ks k _, Ok (ks ++ [k])) [] = Ok ks ∧ ks ≡ₚ [[x01]; [x01]].
Proof.
  intros db. destruct (Mapmutation.Put (Mapmutation.NewHashBatch (Some db) false) TableStats [x01] [x0b]) as [m| |] eqn:E; [|done..].
  destruct (ForEach_repeats map_to_list m db TableStats {[[x01] := Some [x0b]]} []) as (ks & Ek & HP).
  - reflexivity.
  - injection E as <-. reflexivity.
  - injection E as <-. reflexivity.
  - exists m, ks. split_and!; [reflexivity|exact Ek|exact HP].
Defined.
