(* ===== verification/SmtHeap.v ===== *)
(** The heap of heights of the asynchronous commit (src/zk/smt/smt_heap.go) with
    Push and Pop of the package container/heap of the Go library.

    The slice is a heap: no element is below its parent ([heap_ok]), so that the
    first is the smallest.  [ThreadSafePush_spec] and [ThreadSafePop_spec] give
    the operations as those of a set of numbers of which a number can be in the
    heap only once, ever: Pop leaves it in the map that Push looks into. *)

From S2P Require Import Prelude Bytes.

Local Open Scope Z_scope.
#[local] Set Warnings "-clear-no-such-hyp".

(** * container/heap *)

(** An index that is out of range panics. *)
Definition idx (h : list Z) (i : nat) : outcome Z := match h !! i with Some x => Ok x | None => Panic end.

Definition Less (h : list Z) (i j : nat) : outcome bool := a ← idx h i; b ← idx h j; Ok (a <? b).

Definition Swap (h : list Z) (i j : nat) : outcome (list Z) :=
  a ← idx h i; b ← idx h j; Ok (<[i := b]> (<[j := a]> h)).

(** [up(h, j)]; the index decreases, [j] iterations are enough. *)
Fixpoint up (fuel : nat) (h : list Z) (j : nat) : outcome (list Z) :=
  match fuel with
  | O => Ok h
  | S fuel =>
      let i := ((j - 1) / 2)%nat in
      if (i =? j)%nat then Ok h
      else
        less ← Less h j i;
        if negb less then Ok h
        else h ← Swap h i j; up fuel h i
  end.

(** [down(h, i, n)]; the index grows, [n] iterations are enough. *)
Fixpoint down (fuel : nat) (h : list Z) (i n : nat) : outcome (list Z) :=
  match fuel with
  | O => Ok h
  | S fuel =>
      let j1 := (2 * i + 1)%nat in
      if (n <=? j1)%nat then Ok h
      else
        let j2 := (j1 + 1)%nat in
        right ← (if (j2 <? n)%nat then Less h j2 j1 else Ok false);
        let j := if right : bool then j2 else j1 in
        less ← Less h j i;
        if negb less then Ok h
        else h ← Swap h i j; down fuel h j n
  end.

(** * Uint64MinHeap *)

Record Uint64MinHeap := mkHeap { hdata : list Z; hset : gset Z }.

Definition NewUint64MinHeap : Uint64MinHeap := mkHeap [] ∅.

(** The methods of heap.Interface. *)
Definition Heap_Push (h : Uint64MinHeap) (value : Z) : Uint64MinHeap :=
  if decide (value ∈ hset h) then h else mkHeap (hdata h ++ [value]) ({[value]} ∪ hset h).

Definition Heap_Pop (h : Uint64MinHeap) : outcome (Z * Uint64MinHeap) :=
  match last (hdata h) with
  | Some x => Ok (x, mkHeap (removelast (hdata h)) (hset h))
  | None => Panic
  end.

(** [heap.Push] and [heap.Pop]. *)
Definition heap_Push (h : Uint64MinHeap) (x : Z) : outcome Uint64MinHeap :=
  let h := Heap_Push h x in
  let j := (length (hdata h) - 1)%nat in
  d ← up j (hdata h) j;
  Ok (mkHeap d (hset h)).

Definition heap_Pop (h : Uint64MinHeap) : outcome (Z * Uint64MinHeap) :=
  let n := (length (hdata h) - 1)%nat in
  d ← Swap (hdata h) 0 n;
  d ← down n d 0 n;
  Heap_Pop (mkHeap d (hset h)).

Definition ThreadSafePush (h : Uint64MinHeap) (value : Z) : outcome (bool * Uint64MinHeap) :=
  if decide (value ∈ hset h) then Ok (false, h)
  else h ← heap_Push h value; Ok (true, h).

Definition ThreadSafePop (h : Uint64MinHeap) : outcome (option Z * Uint64MinHeap) :=
  if (length (hdata h) =? 0)%nat then Ok (None, h)
  else '(x, h) ← heap_Pop h; Ok (Some x, h).

Definition ThreadSafeTop (h : Uint64MinHeap) : Z * bool :=
  match hdata h with [] => (0, false) | x :: _ => (x, true) end.

Definition Contains (h : Uint64MinHeap) (value : Z) : bool := bool_decide (value ∈ hset h).

(** * The order of a heap *)

Abbreviation parent i := ((i - 1) / 2)%nat.

Definition heap_ok (l : list Z) : Prop :=
  ∀ i x y, (0 < i)%nat → l !! i = Some x → l !! (parent i) = Some y → y ≤ x.

Lemma idx_Some h i x : h !! i = Some x → idx h i = Ok x.
Proof. intros E. unfold idx. by rewrite E. Qed.

Lemma swap_perm (h : list Z) i j a b :
  h !! i = Some a → h !! j = Some b → <[i := b]> (<[j := a]> h) ≡ₚ h.
Proof.
  intros Hi Hj. destruct (decide (i = j)) as [->|Hne].
  { rewrite Hi in Hj. injection Hj as ->. rewrite list_insert_insert_eq. by rewrite list_insert_id. }
  apply Permutation_inj. split; [by rewrite !length_insert|].
  exists (λ k, if decide (k = i) then j else if decide (k = j) then i else k). split.
  - intros x y. repeat case_decide; congruence.
  - intros k. assert (i < length h)%nat by (by eapply lookup_lt_Some). assert (j < length h)%nat by (by eapply lookup_lt_Some).
    destruct (decide (k = i)) as [->|Hki]; [by rewrite list_lookup_insert_eq by (by rewrite length_insert)|].
    rewrite list_lookup_insert_ne by done.
    destruct (decide (k = j)) as [->|Hkj]; [by rewrite list_lookup_insert_eq|]. by rewrite list_lookup_insert_ne.
Qed.

Lemma lookup_swap (h : list Z) i j a b k :
  h !! i = Some a → h !! j = Some b →
  (<[i := b]> (<[j := a]> h)) !! k = if decide (k = i) then Some b else if decide (k = j) then Some a else h !! k.
Proof.
  intros Hi Hj. assert (i < length h)%nat by (by eapply lookup_lt_Some). assert (j < length h)%nat by (by eapply lookup_lt_Some).
  destruct (decide (k = i)) as [->|Hki]; [by rewrite list_lookup_insert_eq by (by rewrite length_insert)|].
  rewrite list_lookup_insert_ne by done. case_decide as Hkj; [subst; by rewrite list_lookup_insert_eq|]. by rewrite list_lookup_insert_ne.
Qed.

Lemma parent_spec k : (0 < k)%nat → (k = 2 * parent k + 1 ∨ k = 2 * parent k + 2)%nat.
Proof. intros Hk. pose proof (Nat.div_mod_eq (k - 1) 2). pose proof (Nat.mod_upper_bound (k - 1) 2 ltac:(done)). lia. Qed.

Lemma parent_eq k i : (k = 2 * i + 1 ∨ k = 2 * i + 2)%nat → parent k = i.
Proof. intros H. pose proof (parent_spec k ltac:(lia)). lia. Qed.

(** ** Moving up *)

(** A heap but for the element at [j], which its children need not mind. *)
Definition up_inv (l : list Z) (j : nat) : Prop :=
  (∀ i x y, (0 < i)%nat → i ≠ j → l !! i = Some x → l !! (parent i) = Some y → y ≤ x) ∧
  (∀ c x y, (0 < c)%nat → parent c = j → (0 < j)%nat → l !! c = Some x → l !! (parent j) = Some y → y ≤ x).

Lemma up_inv_swap l j x y :
  (0 < j)%nat → l !! j = Some x → l !! (parent j) = Some y → x < y → up_inv l j →
  up_inv (<[parent j := x]> (<[j := y]> l)) (parent j).
Proof.
  intros Hj Hx Hy Hlt [H1 H2]. set (i := parent j) in *. assert (i < j)%nat by (pose proof (parent_spec j Hj); lia). split.
  - intros k a b Hk Hki. rewrite !(lookup_swap l i j y x) by done. rewrite decide_False by done.
    destruct (decide (k = j)) as [->|Hkj].
    + fold i. rewrite decide_True by done. intros [= <-] [= <-]. lia.
    + intros Ha. destruct (decide (parent k = i)) as [E|E]; [intros [= <-]; specialize (H1 k a y Hk Hkj Ha); rewrite E in H1; by specialize (H1 Hy); lia|].
      destruct (decide (parent k = j)) as [E'|E']; [intros [= <-]; by apply (H2 k)|]. by apply H1.
  - intros c a b Hc Hci Hi. rewrite !(lookup_swap l i j y x) by done.
    assert (parent i < i)%nat by (pose proof (parent_spec i Hi); lia).
    assert (parent c < c)%nat by (pose proof (parent_spec c Hc); lia).
    rewrite (decide_False (P := c = i)), (decide_False (P := parent i = i)), (decide_False (P := parent i = j)) by lia.
    destruct (decide (c = j)) as [->|Hcj]; intros Ha Hb.
    + injection Ha as <-. apply (H1 i y b); [done|lia|done|done].
    + assert (y ≤ a) by (apply (H1 c a y); [done..|by rewrite Hci]). assert (b ≤ y) by (apply (H1 i y b); [done|lia|done|done]). lia.
Qed.

Lemma up_spec fuel : ∀ l j,
  (j < length l)%nat → (j ≤ fuel)%nat → up_inv l j → ∃ l', up fuel l j = Ok l' ∧ l' ≡ₚ l ∧ heap_ok l'.
Proof.
  induction fuel as [|fuel IH]; intros l j Hj Hf Hinv; cbn [up].
  { assert (j = 0%nat) as -> by lia. exists l. split_and!; [done..|]. intros i x y Hi. apply Hinv; lia. }
  destruct (decide (j = 0%nat)) as [->|Hj0].
  { exists l. split_and!; [done..|]. intros i x y Hi. apply Hinv; lia. }
  assert (parent j < j)%nat as Hp by (pose proof (parent_spec j ltac:(lia)); lia).
  replace (parent j =? j)%nat with false by (symmetry; apply Nat.eqb_neq; lia).
  destruct (lookup_lt_is_Some_2 l j Hj) as [x Hx]. destruct (lookup_lt_is_Some_2 l (parent j) ltac:(lia)) as [y Hy].
  unfold Less, Swap. rewrite (idx_Some _ _ _ Hx), (idx_Some _ _ _ Hy), !bind_Ok. cbn [negb].
  destruct (Z.ltb_spec x y) as [Hlt|Hge]; cbn [negb].
  - rewrite ?bind_Ok. destruct (IH (<[parent j := x]> (<[j := y]> l)) (parent j)) as (l' & E & HP & Hok).
    + rewrite !length_insert. lia.
    + lia.
    + apply up_inv_swap; [lia|done..].
    + exists l'. split_and!; [done| |done]. rewrite HP. by apply swap_perm.
  - exists l. split_and!; [done..|]. intros i a b Hi Ha Hb. destruct (decide (i = j)) as [->|Hne]; [|by apply (proj1 Hinv i)].
    rewrite Hx in Ha. rewrite Hy in Hb. injection Ha as <-. injection Hb as <-. lia.
Qed.

(** ** Moving down *)

(** The first [n] elements are a heap, but for the children of [i]. *)
Definition down_inv (l : list Z) (i n : nat) : Prop :=
  (∀ k x y, (0 < k < n)%nat → parent k ≠ i → l !! k = Some x → l !! (parent k) = Some y → y ≤ x) ∧
  (∀ k x y, (0 < k < n)%nat → parent k = i → (0 < i)%nat → l !! k = Some x → l !! (parent i) = Some y → y ≤ x).

Definition heap_upto (l : list Z) (n : nat) : Prop :=
  ∀ k x y, (0 < k < n)%nat → l !! k = Some x → l !! (parent k) = Some y → y ≤ x.

(** [j] is the child of [i] with the smaller element. *)
Lemma down_inv_swap l i j n x y :
  (0 < j < n)%nat → parent j = i → l !! i = Some x → l !! j = Some y → y < x →
  (∀ k z, (0 < k < n)%nat → parent k = i → l !! k = Some z → y ≤ z) → down_inv l i n →
  down_inv (<[i := y]> (<[j := x]> l)) j n.
Proof.
  intros Hj Hp Hx Hy Hlt Hmin [H1 H2]. assert (i < j)%nat by (pose proof (parent_spec j ltac:(lia)); lia). split.
  - intros k a b Hk Hkj. rewrite !(lookup_swap l i j x y) by done.
    destruct (decide (parent k = i)) as [E|E].
    + rewrite (decide_False (P := k = i)) by (pose proof (parent_spec k ltac:(lia)); lia).
      destruct (decide (k = j)) as [->|Hne]; intros Ha [= <-]; [injection Ha as <-; lia|]. by apply (Hmin k).
    + rewrite (decide_False (P := parent k = j)) by done. destruct (decide (k = i)) as [->|Hki].
      * intros [= <-] Hb. by apply (H2 j y b); [lia|done|lia|..].
      * rewrite (decide_False (P := k = j)) by (intros ->; done). by apply H1.
  - intros k a b Hk Hkj _. rewrite !(lookup_swap l i j x y) by done. rewrite Hp, (decide_True (P := i = i)) by done.
    assert (j < k)%nat by (pose proof (parent_spec k ltac:(lia)); lia). rewrite !decide_False by lia.
    intros Ha [= <-]. apply (H1 k a y); [done|lia|done|by rewrite Hkj].
Qed.

Lemma down_spec fuel : ∀ l i n,
  (n ≤ length l)%nat → (n ≤ fuel + i)%nat → down_inv l i n →
  ∃ l', down fuel l i n = Ok l' ∧ l' ≡ₚ l ∧ heap_upto l' n ∧ ∀ k, (n ≤ k)%nat → l' !! k = l !! k.
Proof.
  assert (∀ l i n, down_inv l i n → (n ≤ 2 * i + 1)%nat → heap_upto l n) as Hend.
  { intros l i n Hinv Hn k x y Hk. apply (proj1 Hinv k); [done|]. pose proof (parent_spec k ltac:(lia)). lia. }
  induction fuel as [|fuel IH]; intros l i n Hl Hf Hinv; cbn [down].
  { exists l. split_and!; [done..|eapply Hend; [done|lia]|done]. }
  destruct (Nat.leb_spec n (2 * i + 1)) as [Hn|Hn]; [exists l; split_and!; [done..|by eapply Hend|done]|].
  destruct (lookup_lt_is_Some_2 l i ltac:(lia)) as [x Hx]. destruct (lookup_lt_is_Some_2 l (2 * i + 1) ltac:(lia)) as [y1 Hy1].
  assert (∃ j y, (right ← (if (2 * i + 1 + 1 <? n)%nat then Less l (2 * i + 1 + 1) (2 * i + 1) else Ok false);
      Ok (if right : bool then 2 * i + 1 + 1 else 2 * i + 1)%nat) = Ok j ∧ (0 < j < n)%nat ∧ parent j = i ∧ l !! j = Some y ∧
      ∀ k z, (0 < k < n)%nat → parent k = i → l !! k = Some z → y ≤ z) as (j & y & Ej & Hj & Hp & Hy & Hmin).
  { destruct (Nat.ltb_spec (2 * i + 1 + 1) n) as [Hj2|Hj2].
    - destruct (lookup_lt_is_Some_2 l (2 * i + 1 + 1) ltac:(lia)) as [y2 Hy2].
      unfold Less. rewrite (idx_Some _ _ _ Hy1), (idx_Some _ _ _ Hy2), !bind_Ok.
      destruct (Z.ltb_spec y2 y1); do 2 eexists; (split_and!; [done|lia|lia|apply parent_eq; lia|done|]); intros k z Hk E Hz;
        (assert (k = 2 * i + 1 ∨ k = 2 * i + 1 + 1)%nat as [->| ->] by (pose proof (parent_spec k ltac:(lia)); lia)); simplify_eq; lia.
    - do 2 eexists. split_and!; [done|lia|lia|apply parent_eq; lia|done|]. intros k z Hk E Hz.
      assert (k = 2 * i + 1)%nat as -> by (pose proof (parent_spec k ltac:(lia)); lia). simplify_eq. lia. }
  apply bind_Ok_inv in Ej as (right & Er & Ej).
  assert ((if right then 2 * i + 1 + 1 else 2 * i + 1)%nat = j) as Ej' by congruence. rewrite Er, bind_Ok, Ej'. clear Er Ej Ej'.
  unfold Less, Swap. rewrite (idx_Some _ _ _ Hx), (idx_Some _ _ _ Hy), !bind_Ok. assert (i < j)%nat by (pose proof (parent_spec j ltac:(lia)); lia).
  destruct (Z.ltb_spec y x) as [Hlt|Hge]; cbn [negb]; rewrite ?bind_Ok.
  - destruct (IH (<[i := y]> (<[j := x]> l)) j n) as (l' & E & HP & Hok & Hr); [by rewrite !length_insert|lia|by eapply down_inv_swap|].
    exists l'. split_and!; [done|rewrite HP; by apply swap_perm|done|]. intros k Hk. rewrite Hr by done.
    rewrite (lookup_swap l i j x y) by done. by rewrite !decide_False by lia.
  - exists l. split_and!; [done..| |done]. intros k a b Hk Ha Hb. destruct (decide (parent k = i)) as [E|E]; [|by apply (proj1 Hinv k)].
    rewrite E, Hx in Hb. injection Hb as <-. specialize (Hmin k a Hk E Ha). lia.
Qed.

(** * What the operations do *)

Lemma heap_min l x : heap_ok l → l !! 0%nat = Some x → Forall (λ y, x ≤ y) l.
Proof.
  intros Hok Hx. apply Forall_lookup. intros i. induction i as [i IH] using lt_wf_ind. intros y Hy.
  destruct (decide (i = 0%nat)) as [->|Hi]; [rewrite Hx in Hy; injection Hy as <-; done|].
  assert (parent i < i)%nat as Hp by (pose proof (parent_spec i ltac:(lia)); lia).
  destruct (lookup_lt_is_Some_2 l (parent i)) as [z Hz]; [apply lookup_lt_Some in Hy; lia|].
  etrans; [by apply (IH (parent i))|]. by apply (Hok i); [lia|..].
Qed.

(** The elements are those pushed and not yet popped; [hset] has every one that was
    ever pushed. *)
Record heap_wf (h : Uint64MinHeap) : Prop := {
  hw_ok : heap_ok (hdata h);
  hw_nodup : NoDup (hdata h);
  hw_set : ∀ x, x ∈ hdata h → x ∈ hset h;
}.

Lemma NewUint64MinHeap_wf : heap_wf NewUint64MinHeap.
Proof. split; [by intros i x y|constructor|by intros x []%elem_of_nil]. Qed.

Lemma up_inv_snoc l v : heap_ok l → up_inv (l ++ [v]) (length l).
Proof.
  intros Hok. assert (∀ i x, (l ++ [v]) !! i = Some x → i ≠ length l → l !! i = Some x) as Hl.
  { intros i x Hx Hi. pose proof (lookup_lt_Some _ _ _ Hx) as Hlt. rewrite length_app in Hlt. cbn in Hlt.
    by rewrite lookup_app_l in Hx by lia. }
  split.
  - intros i x y Hi Hne Hx Hy. assert (parent i < i)%nat by (pose proof (parent_spec i Hi); lia).
    apply Hl in Hx; [|done]. pose proof (lookup_lt_Some _ _ _ Hx). apply Hl in Hy; [|lia]. by apply (Hok i).
  - intros c x y Hc Hp _ Hx. pose proof (lookup_lt_Some _ _ _ Hx) as Hlt. rewrite length_app in Hlt. cbn in Hlt.
    pose proof (parent_spec c Hc). lia.
Qed.

Lemma ThreadSafePush_new h v :
  heap_wf h → v ∉ hset h →
  ∃ h', ThreadSafePush h v = Ok (true, h') ∧ heap_wf h' ∧ hdata h' ≡ₚ v :: hdata h ∧ hset h' = {[v]} ∪ hset h.
Proof.
  intros [Hok Hnd Hset] Hv. unfold ThreadSafePush, heap_Push, Heap_Push. rewrite !decide_False by done. cbn [hdata hset].
  destruct (up_spec (length (hdata h ++ [v]) - 1) (hdata h ++ [v]) (length (hdata h ++ [v]) - 1)) as (l' & E & HP & Hok');
    [rewrite length_app; cbn; lia|done|rewrite length_app; cbn; rewrite Nat.add_sub; by apply up_inv_snoc|].
  rewrite E, !bind_Ok. assert (l' ≡ₚ v :: hdata h) as HP' by (rewrite HP; symmetry; apply Permutation_cons_append).
  eexists. split; [done|]. cbn [hdata hset]. split_and!; [|done|done]. split; cbn [hdata hset]; [done|..].
  - rewrite HP'. constructor; [|done]. by intros Hin%Hset.
  - intros x. rewrite HP', elem_of_cons. set_solver.
Qed.

Lemma ThreadSafePush_seen h v : v ∈ hset h → ThreadSafePush h v = Ok (false, h).
Proof. intros Hv. unfold ThreadSafePush. by rewrite decide_True. Qed.

Lemma removelast_snoc {A} (l : list A) x : removelast (l ++ [x]) = l.
Proof. apply removelast_last. Qed.

Lemma ThreadSafePop_spec h :
  heap_wf h → hdata h ≠ [] →
  ∃ x h', ThreadSafePop h = Ok (Some x, h') ∧ heap_wf h' ∧ hdata h ≡ₚ x :: hdata h' ∧ hset h' = hset h ∧
    Forall (λ y, x ≤ y) (hdata h') ∧ ThreadSafeTop h = (x, true).
Proof.
  intros [Hok Hnd Hset] Hne. destruct (hdata h) as [|x0 l0] eqn:El; [done|]. clear Hne. rewrite <-El in *.
  set (n := (length (hdata h) - 1)%nat). assert (length (hdata h) = S n) as Hlen by (rewrite El in *; unfold n; rewrite El; cbn; lia).
  assert (hdata h !! 0%nat = Some x0) as Hx by (by rewrite El). destruct (lookup_lt_is_Some_2 (hdata h) n ltac:(lia)) as [y Hy].
  unfold ThreadSafePop. rewrite Hlen. cbn [Nat.eqb]. unfold heap_Pop. fold n.
  unfold Swap. rewrite (idx_Some _ _ _ Hx), (idx_Some _ _ _ Hy), !bind_Ok.
  set (l1 := <[0%nat := y]> (<[n := x0]> (hdata h))). assert (l1 ≡ₚ hdata h) as HP1 by (by apply swap_perm).
  assert (∀ k, l1 !! k = if decide (k = 0%nat) then Some y else if decide (k = n) then Some x0 else hdata h !! k) as Hl1
    by (intros k; by apply lookup_swap).
  destruct (down_spec n l1 0 n) as (l2 & E2 & HP2 & Hok2 & Hr2); [rewrite HP1; lia|lia| |].
  { split; [|intros; lia]. intros k a b Hk Hp. rewrite !Hl1, (decide_False (P := parent k = _)) by done.
    assert (parent k < k)%nat by (pose proof (parent_spec k ltac:(lia)); lia). rewrite !decide_False by lia. apply Hok. lia. }
  rewrite E2, bind_Ok. assert (l2 !! n = Some x0) as Hlast by (rewrite Hr2, Hl1 by lia; repeat case_decide; congruence).
  assert (length l2 = S n) as Hlen2 by (by rewrite HP2, HP1).
  assert (l2 = take n l2 ++ [x0]) as Esn.
  { rewrite <-(take_drop n l2) at 1. f_equal. rewrite (drop_S l2 x0 n) by done. by rewrite drop_ge by lia. }
  assert (hdata h ≡ₚ x0 :: take n l2) as HP by (rewrite <-HP1, <-HP2, Esn at 1; symmetry; apply Permutation_cons_append).
  unfold Heap_Pop. cbn [hdata hset]. rewrite Esn, last_snoc, removelast_snoc, bind_Ok.
  do 2 eexists. split; [done|]. cbn [hdata hset]. split_and!; [split; cbn [hdata hset]|done|done| |unfold ThreadSafeTop; by rewrite El].
  - intros k a b Hk Ha Hb. pose proof (lookup_lt_Some _ _ _ Ha) as Hlt. rewrite length_take in Hlt.
    assert (parent k < k)%nat by (pose proof (parent_spec k Hk); lia). rewrite !lookup_take_lt in Ha, Hb by lia. by apply (Hok2 k a b); [lia|..].
  - rewrite HP in Hnd. by apply NoDup_cons in Hnd as [_ ?].
  - intros z Hz. apply Hset. rewrite HP. by right.
  - pose proof (heap_min _ _ Hok Hx) as Hmin. rewrite HP in Hmin. by apply Forall_cons in Hmin as [_ ?].
Qed.

Definition push_all (h : Uint64MinHeap) (l : list Z) : outcome Uint64MinHeap :=
  foldM (λ h v, snd <$> ThreadSafePush h v) h l.

Lemma push_all_spec l : ∀ h,
  heap_wf h → (∀ x, x ∈ hset h ↔ x ∈ hdata h) →
  ∃ h', push_all h l = Ok h' ∧ heap_wf h' ∧ (∀ x, x ∈ hset h' ↔ x ∈ hdata h') ∧ ∀ x, x ∈ hdata h' ↔ x ∈ hdata h ∨ x ∈ l.
Proof.
  induction l as [|v l IH]; intros h Hwf Hs; unfold push_all in *; cbn [foldM].
  { exists h. split_and!; [done..|]. intros x. rewrite elem_of_nil. naive_solver. }
  destruct (decide (v ∈ hset h)) as [Hv|Hv].
  - rewrite ThreadSafePush_seen, fmap_Ok, bind_Ok by done. destruct (IH h Hwf Hs) as (h' & E & Hwf' & Hs' & Hx).
    exists h'. split_and!; [done..|]. intros x. rewrite Hx, elem_of_cons. apply Hs in Hv. naive_solver.
  - destruct (ThreadSafePush_new h v Hwf Hv) as (h1 & -> & Hwf1 & HP & Hset). rewrite fmap_Ok, bind_Ok. cbn [snd].
    destruct (IH h1 Hwf1) as (h' & E & Hwf' & Hs' & Hx).
    { intros x. rewrite Hset, HP, elem_of_cons, elem_of_union, elem_of_singleton, Hs. done. }
    exists h'. split_and!; [done..|]. intros x. rewrite Hx, HP, !elem_of_cons. naive_solver.
Qed.

(** C28. The heap of heights.  After any pushes, in any order and with repetitions,
    Top and Pop give the smallest height and leave the others; but a height that
    was popped can never be pushed again, and Contains still reports it. *)
Theorem Uint64MinHeap_pops_minimum l :
  ∃ h, push_all NewUint64MinHeap l = Ok h ∧ NoDup (hdata h) ∧ (∀ x, x ∈ hdata h ↔ x ∈ l) ∧
    match l with
    | [] => ThreadSafePop h = Ok (None, h)
    | _ => (∃ x h', ThreadSafeTop h = (x, true) ∧ ThreadSafePop h = Ok (Some x, h') ∧ hdata h ≡ₚ x :: hdata h' ∧
        x ∈ l ∧ Forall (λ y, x ≤ y) l ∧
        (x ∉ hdata h') ∧ ThreadSafePush h' x = Ok (false, h') ∧ Contains h' x = true)
    end.
Proof.
  destruct (push_all_spec l NewUint64MinHeap NewUint64MinHeap_wf) as (h & E & Hwf & Hs & Hx).
  { intros x. cbn. rewrite elem_of_nil. set_solver. }
  assert (∀ x, x ∈ hdata h ↔ x ∈ l) as Hel by (intros x; rewrite Hx; cbn; rewrite elem_of_nil; naive_solver).
  exists h. split_and!; [done|apply Hwf|done|]. destruct l as [|v l].
  - destruct (hdata h) as [|y d] eqn:Ed; [|exfalso; apply (elem_of_nil y), Hel; by left].
    unfold ThreadSafePop. by rewrite Ed.
  - destruct (ThreadSafePop_spec h Hwf) as (x & h' & Ep & Hwf' & HP & Hset & Hmin & Ht).
    { intros Ed. assert (v ∈ hdata h) as Hv by (apply Hel; left). rewrite Ed in Hv. by apply elem_of_nil in Hv. }
    assert (x ∈ hdata h) as Hin by (rewrite HP; left). assert (x ∈ hset h') as Hseen by (rewrite Hset; by apply Hs).
    exists x, h'. split_and!; [done..|by apply Hel| | |by apply ThreadSafePush_seen|by apply bool_decide_eq_true_2].
    + apply Forall_forall. intros y Hy%Hel. rewrite HP in Hy. apply elem_of_cons in Hy as [->|Hy]; [done|].
      by apply (proj1 (Forall_forall _ _) Hmin).
    + pose proof (hw_nodup _ Hwf) as Hnd. rewrite HP in Hnd. by apply NoDup_cons in Hnd as [? _].
Qed.
