(* ===== verification/SmtCacheList.v ===== *)
(** The list of the writes of recent blocks (src/zk/smt/smt_snapshot.go): a doubly
    linked list, the newest block at the head.

    The nodes are in a store of their own, with pointers to the next (older) and
    to the previous (newer) node; the operations are the assignments of the code.
    [is_list] says that the pointers form a list, and every operation is one on
    lists of blocks ([Push_spec], [cascadeGet_spec], [cascadeDelete_spec],
    [deleteTarget_spec]). *)

From stdpp Require Import gmap.
From Stdlib Require Import Strings.Byte.
From S2P Require Import Prelude Bytes MemBatch MemBatchSpec.

Local Open Scope Z_scope.
#[local] Set Warnings "-clear-no-such-hyp".

(** * Nodes and lists *)

(** A pointer, [None] for nil. *)
Abbreviation ptr := (option nat).

Record SmtCacheSnapshot := mkSnapshot {
  BlockHeight : Z; DeltaSmtCache : tables; s_next : ptr; s_pre : ptr
}.

Record SmtCacheList := mkList {
  l_nodes : gmap nat SmtCacheSnapshot; l_head : ptr; l_tail : ptr; l_length : Z; l_maxHeight : Z
}.

Definition NewSmtCacheList : SmtCacheList := mkList ∅ None None 0 0.

(** Assignments to the fields of a node; through nil they panic. *)
Definition node_at (l : SmtCacheList) (p : ptr) : outcome (nat * SmtCacheSnapshot) :=
  match p with
  | Some i => match l_nodes l !! i with Some n => Ok (i, n) | None => Panic end
  | None => Panic
  end.

Definition with_nodes (l : SmtCacheList) (ns : gmap nat SmtCacheSnapshot) : SmtCacheList :=
  mkList ns (l_head l) (l_tail l) (l_length l) (l_maxHeight l).

Definition set_next (l : SmtCacheList) (p q : ptr) : outcome SmtCacheList :=
  '(i, n) ← node_at l p;
  Ok (with_nodes l (<[i := mkSnapshot (BlockHeight n) (DeltaSmtCache n) q (s_pre n)]> (l_nodes l))).

Definition set_pre (l : SmtCacheList) (p q : ptr) : outcome SmtCacheList :=
  '(i, n) ← node_at l p;
  Ok (with_nodes l (<[i := mkSnapshot (BlockHeight n) (DeltaSmtCache n) (s_next n) q]> (l_nodes l))).

Definition set_head (l : SmtCacheList) (p : ptr) : SmtCacheList := mkList (l_nodes l) p (l_tail l) (l_length l) (l_maxHeight l).
Definition set_tail (l : SmtCacheList) (p : ptr) : SmtCacheList := mkList (l_nodes l) (l_head l) p (l_length l) (l_maxHeight l).
Definition set_length (l : SmtCacheList) (n : Z) : SmtCacheList := mkList (l_nodes l) (l_head l) (l_tail l) n (l_maxHeight l).

(** * Operations *)

(** [&SmtCacheSnapshot{...}] allocates a node that is not in use. *)
Definition Push (l : SmtCacheList) (blockHeight : Z) (deltaSmtCache : tables) : outcome SmtCacheList :=
  let p := fresh (dom (l_nodes l)) in
  let l := with_nodes l (<[p := mkSnapshot blockHeight deltaSmtCache (l_head l) None]> (l_nodes l)) in
  l ← match l_head l with
      | Some h => set_pre l (Some h) (Some p)
      | None => Ok (set_tail l (Some p))
      end;
  Ok (mkList (l_nodes l) (Some p) (l_tail l) (l_length l + 1) blockHeight).

(** The loop of findNodeUnsafe from [current]; the nodes there are bound it. *)
Fixpoint find_from (fuel : nat) (l : SmtCacheList) (current : ptr) (blockHeight : Z) : outcome ptr :=
  match current, fuel with
  | None, _ => Ok None
  | Some _, O => Panic
  | Some i, S fuel =>
      '(_, n) ← node_at l current;
      if BlockHeight n =? blockHeight then Ok current else find_from fuel l (s_next n) blockHeight
  end.

Definition findNodeUnsafe (l : SmtCacheList) (blockHeight : Z) : outcome ptr :=
  find_from (size (l_nodes l)) l (l_head l) blockHeight.

(** The loop of cascadeGetCacheShapshot from [current] up to [stop]. *)
Fixpoint merge_from (fuel : nat) (l : SmtCacheList) (current stop : ptr) (mergedCache : tables) : outcome tables :=
  if decide (current = stop) then Ok mergedCache
  else
    match fuel with
    | O => Panic
    | S fuel =>
        '(_, n) ← node_at l current;
        merge_from fuel l (s_pre n) stop (overlay mergedCache (DeltaSmtCache n))
    end.

Definition cascadeGetCacheShapshot (l : SmtCacheList) (blockHeight : Z) : outcome (tables * bool) :=
  node ← findNodeUnsafe l blockHeight;
  match node with
  | None => Ok (∅, false)
  | Some _ =>
      '(_, n) ← node_at l node;
      mergedCache ← merge_from (size (l_nodes l)) l (l_tail l) (s_pre n) ∅;
      Ok (mergedCache, true)
  end.

(** [None] for a nil map. *)
Definition getAllCacheShapshot (l : SmtCacheList) : outcome (option tables * bool) :=
  match l_head l with
  | None => Ok (None, false)
  | Some _ =>
      '(_, n) ← node_at l (l_head l);
      '(m, ok) ← cascadeGetCacheShapshot l (BlockHeight n);
      Ok (Some m, ok)
  end.

(** The loop that counts the nodes before [node]. *)
Fixpoint count_from (fuel : nat) (l : SmtCacheList) (cur node : ptr) (n : Z) : outcome Z :=
  if decide (cur = node) then Ok n
  else
    match fuel with
    | O => Panic
    | S fuel => '(_, c) ← node_at l cur; count_from fuel l (s_next c) node (n + 1)
    end.

Definition cascadeDeleteCache (l : SmtCacheList) (blockHeight : Z) : outcome (bool * SmtCacheList) :=
  node ← findNodeUnsafe l blockHeight;
  match node with
  | None => Ok (false, l)
  | Some _ =>
      if decide (node = l_head l) then Ok (true, set_length (set_tail (set_head l None) None) 0)
      else
        len ← count_from (size (l_nodes l)) l (l_head l) node 0;
        let l := set_length l len in
        '(_, n) ← node_at l node;
        let l := set_tail l (s_pre n) in
        l ← set_next l (s_pre n) None;
        l ← set_pre l node None;
        Ok (true, l)
  end.

(** The three cases of deleteTargetCache, for the pointer [node] to [n]. *)
Definition delete_head (l : SmtCacheList) (node : ptr) (n : SmtCacheSnapshot) : outcome SmtCacheList :=
  let l := set_head l (s_next n) in
  l ← set_next l node None;
  let l := set_length l (l_length l - 1) in
  match l_head l with
  | Some _ => set_pre l (l_head l) None
  | None => Ok (set_tail l None)
  end.

Definition delete_tail (l : SmtCacheList) (node : ptr) (n : SmtCacheSnapshot) : outcome SmtCacheList :=
  let l := set_tail l (s_pre n) in
  l ← set_pre l node None;
  l ← set_next l (l_tail l) None;
  Ok (set_length l (l_length l - 1)).

Definition delete_middle (l : SmtCacheList) (node : ptr) (n : SmtCacheSnapshot) : outcome SmtCacheList :=
  l ← set_next l (s_pre n) (s_next n);
  l ← set_pre l (s_next n) (s_pre n);
  l ← set_pre l node None;
  l ← set_next l node None;
  Ok (set_length l (l_length l - 1)).

Definition deleteTargetCache (l : SmtCacheList) (blockHeight : Z) : outcome (bool * SmtCacheList) :=
  node ← findNodeUnsafe l blockHeight;
  match node with
  | None => Ok (false, l)
  | Some _ =>
      '(_, n) ← node_at l node;
      l ← (if decide (node = l_head l) then delete_head l node n
           else if decide (node = l_tail l) then delete_tail l node n
           else delete_middle l node n);
      Ok (true, l)
  end.

Definition Length (l : SmtCacheList) : Z := l_length l.

Definition MaxBlockHeight (l : SmtCacheList) : Z := l_maxHeight l.

(** The loop of getBlockList. *)
Fixpoint heights_from (fuel : nat) (l : SmtCacheList) (current : ptr) : outcome (list Z) :=
  match current, fuel with
  | None, _ => Ok []
  | Some _, O => Panic
  | Some _, S fuel =>
      '(_, n) ← node_at l current;
      hs ← heights_from fuel l (s_next n);
      Ok (BlockHeight n :: hs)
  end.

Definition getBlockList (l : SmtCacheList) : outcome (list Z) :=
  if l_length l =? 0 then Ok [] else heights_from (size (l_nodes l)) l (l_head l).

(** * Lists *)

(** The pointer before index [i]. *)
Definition before (ids : list nat) (i : nat) : ptr := match i with O => None | S i => ids !! i end.

(** The pointers [ids] hold the blocks [bs], newest first. *)
Record linked (ns : gmap nat SmtCacheSnapshot) (ids : list nat) (bs : list (Z * tables)) : Prop := {
  lk_nodup : NoDup ids;
  lk_length : length ids = length bs;
  lk_node : ∀ i p b, ids !! i = Some p → bs !! i = Some b →
    ns !! p = Some (mkSnapshot b.1 b.2 (ids !! S i) (before ids i));
}.

Definition is_list (l : SmtCacheList) (bs : list (Z * tables)) : Prop :=
  ∃ ids, linked (l_nodes l) ids bs ∧ l_head l = ids !! 0%nat ∧ l_tail l = last ids ∧ l_length l = Z.of_nat (length bs).

Definition merge_blocks (m : tables) (bs : list (Z * tables)) : tables := foldr (λ b m, overlay m b.2) m bs.

Definition with_height (h : Z) (b : Z * tables) : Prop := b.1 = h.

#[export] Instance with_height_dec h b : Decision (with_height h b).
Proof. unfold with_height. apply _. Defined.

Section Linked.
Context (l : SmtCacheList) (ids : list nat) (bs : list (Z * tables)).
Context (Hlk : linked (l_nodes l) ids bs).

Lemma linked_at i b : bs !! i = Some b → ∃ p, ids !! i = Some p ∧
  node_at l (Some p) = Ok (p, mkSnapshot b.1 b.2 (ids !! S i) (before ids i)).
Proof.
  intros Hb. destruct (lookup_lt_is_Some_2 ids i) as [p Hp]; [rewrite (lk_length _ _ _ Hlk); by eapply lookup_lt_Some|].
  exists p. split; [done|]. unfold node_at. by rewrite (lk_node _ _ _ Hlk i p b).
Qed.

Lemma linked_size : (length bs ≤ size (l_nodes l))%nat.
Proof.
  destruct Hlk as [Hnd Hlen Hn]. rewrite <-Hlen, <-size_dom, <-(size_list_to_set (C := gset nat) ids Hnd). apply subseteq_size.
  intros p Hp%elem_of_list_to_set. apply list_elem_of_lookup in Hp as [i Hi].
  destruct (lookup_lt_is_Some_2 bs i) as [b Hb]; [rewrite <-Hlen; by eapply lookup_lt_Some|].
  apply elem_of_dom. rewrite (Hn i p b) by done. by eexists.
Qed.

Lemma ids_None i : (length bs ≤ i)%nat → ids !! i = None.
Proof. intros Hi. apply lookup_ge_None. by rewrite (lk_length _ _ _ Hlk). Qed.

Lemma ids_inj i j p : ids !! i = Some p → ids !! j = Some p → i = j.
Proof. intros Hi Hj. by apply (NoDup_lookup ids i j p (lk_nodup _ _ _ Hlk)). Qed.

Lemma find_from_spec h fuel : ∀ i,
  (length bs - i ≤ fuel)%nat →
  find_from fuel l (ids !! i) h = Ok (match list_find (with_height h) (drop i bs) with Some (j, _) => ids !! (i + j)%nat | None => None end).
Proof.
  induction fuel as [|fuel IH]; intros i Hf.
  { rewrite ids_None, drop_ge by lia. done. }
  destruct (decide (i < length bs)%nat) as [Hi|Hi]; [|rewrite ids_None, drop_ge by lia; done].
  destruct (lookup_lt_is_Some_2 bs i Hi) as [b Hb]. destruct (linked_at i b Hb) as (p & Hp & En).
  rewrite Hp. cbn [find_from]. rewrite En, bind_Ok. cbn [BlockHeight s_next]. rewrite (drop_S bs b i) by done. cbn [list_find].
  destruct (Z.eqb_spec b.1 h) as [E|E].
  - rewrite decide_True by exact E. by rewrite Nat.add_0_r, Hp.
  - rewrite decide_False by exact E. rewrite IH by lia. destruct (list_find (with_height h) (drop (S i) bs)) as [[j x]|]; [|done].
    cbn. by rewrite Nat.add_succ_r.
Qed.

(** The first block with the height. *)
Definition find_block (h : Z) : option (nat * (Z * tables)) := list_find (with_height h) bs.

Lemma findNodeUnsafe_spec h :
  l_head l = ids !! 0%nat →
  findNodeUnsafe l h = Ok (match find_block h with Some (j, _) => ids !! j | None => None end).
Proof.
  intros Hh. unfold findNodeUnsafe. rewrite Hh, find_from_spec by (pose proof linked_size; lia). by rewrite drop_0.
Qed.

Lemma find_block_Some h j b : find_block h = Some (j, b) → bs !! j = Some b ∧ b.1 = h.
Proof. intros E%list_find_Some. naive_solver. Qed.

Lemma before_ne i j p : (j ≤ i)%nat → ids !! i = Some p → Some p ≠ before ids j.
Proof. intros Hij Hp E. destruct j as [|j]; [done|]. cbn in E. pose proof (ids_inj i j p Hp (eq_sym E)). lia. Qed.

Lemma merge_from_spec j fuel : ∀ d acc,
  (d ≤ fuel)%nat → (j + d ≤ length bs)%nat →
  merge_from fuel l (before ids (j + d)) (before ids j) acc = Ok (merge_blocks acc (take d (drop j bs))).
Proof.
  induction fuel as [|fuel IH]; intros d acc Hd Hj.
  { assert (d = 0%nat) as -> by lia. rewrite Nat.add_0_r. cbn. by rewrite decide_True. }
  destruct d as [|d]; [rewrite Nat.add_0_r; cbn; by rewrite decide_True|].
  destruct (lookup_lt_is_Some_2 bs (j + d) ltac:(lia)) as [b Hb]. destruct (linked_at (j + d) b Hb) as (p & Hp & En).
  rewrite Nat.add_succ_r. cbn [before]. rewrite Hp. cbn [merge_from].
  rewrite decide_False by (eapply before_ne; [|exact Hp]; lia). rewrite En, bind_Ok. cbn [s_pre DeltaSmtCache].
  rewrite IH by lia. f_equal. rewrite (take_S_r _ _ b) by (by rewrite lookup_drop). unfold merge_blocks. by rewrite foldr_app.
Qed.

Lemma count_from_spec j fuel : ∀ i n,
  (i ≤ j < length bs)%nat → (j - i ≤ fuel)%nat →
  count_from fuel l (ids !! i) (ids !! j) n = Ok (n + Z.of_nat (j - i)).
Proof.
  assert (∀ i, (i < length bs)%nat → is_Some (ids !! i)) as Hs
    by (intros i Hi; apply lookup_lt_is_Some_2; by rewrite (lk_length _ _ _ Hlk)).
  induction fuel as [|fuel IH]; intros i n Hij Hf; cbn [count_from].
  { assert (i = j) as -> by lia. rewrite decide_True by done. f_equal. lia. }
  destruct (decide (i = j)) as [->|Hne]; [rewrite decide_True by done; f_equal; lia|].
  destruct (lookup_lt_is_Some_2 bs i ltac:(lia)) as [b Hb]. destruct (linked_at i b Hb) as (p & Hp & En).
  rewrite decide_False. 2:{ rewrite Hp. intros E. by pose proof (ids_inj i j p Hp (eq_sym E)). }
  rewrite Hp, En, bind_Ok. cbn [s_next]. rewrite IH by lia. f_equal. lia.
Qed.
End Linked.

(** * What the operations do *)

Lemma last_before (ids : list nat) : last ids = before ids (length ids).
Proof. rewrite last_lookup. destruct ids as [|p ids]; [done|]. done. Qed.

Lemma NewSmtCacheList_spec : is_list NewSmtCacheList [].
Proof. exists []. split_and!; [|done..]. split; [constructor|done|]. by intros i p b. Qed.

Lemma cascadeGet_spec l bs h :
  is_list l bs →
  cascadeGetCacheShapshot l h = Ok (match list_find (with_height h) bs with
    | Some (j, _) => (merge_blocks ∅ (drop j bs), true) | None => (∅, false) end).
Proof.
  intros (ids & Hlk & Hh & Ht & _). unfold cascadeGetCacheShapshot. rewrite (findNodeUnsafe_spec l ids bs Hlk h Hh), bind_Ok.
  destruct (find_block bs h) as [[j b]|] eqn:E; unfold find_block in E; rewrite E; [|done].
  apply find_block_Some in E as [Hb _]. destruct (linked_at l ids bs Hlk j b Hb) as (p & -> & ->). rewrite bind_Ok. cbn [s_pre].
  pose proof (lookup_lt_Some _ _ _ Hb) as Hj. rewrite Ht, last_before, (lk_length _ _ _ Hlk).
  replace (length bs) with (j + (length bs - j))%nat at 1 by lia.
  rewrite (merge_from_spec l ids bs Hlk) by (pose proof (linked_size l ids bs Hlk); lia).
  rewrite bind_Ok, take_ge by (rewrite length_drop; lia). done.
Qed.

Lemma getAll_spec l bs :
  is_list l bs → getAllCacheShapshot l = Ok (match bs with [] => (None, false) | _ => (Some (merge_blocks ∅ bs), true) end).
Proof.
  intros Hl. pose proof (λ h, cascadeGet_spec l bs h Hl) as Hg. destruct Hl as (ids & Hlk & Hh & Ht & _). unfold getAllCacheShapshot. rewrite Hh.
  destruct bs as [|b bs].
  - rewrite (ids_None l ids [] Hlk) by done. done.
  - destruct (linked_at l ids (b :: bs) Hlk 0 b eq_refl) as (p & -> & ->). rewrite bind_Ok. cbn [BlockHeight].
    rewrite Hg, bind_Ok. cbn [list_find]. by rewrite decide_True by done.
Qed.

Lemma Push_spec l bs h d :
  is_list l bs → ∃ l', Push l h d = Ok l' ∧ is_list l' ((h, d) :: bs) ∧ MaxBlockHeight l' = h.
Proof.
  intros (ids & Hlk & Hh & Ht & Hn). unfold Push. set (p := fresh (dom (l_nodes l))). cbv zeta.
  assert (l_nodes l !! p = None) as Hp by (apply not_elem_of_dom, is_fresh).
  set (n0 := mkSnapshot h d (l_head l) None).
  assert (∀ i q b, ids !! i = Some q → bs !! i = Some b → q ≠ p) as Hne.
  { intros i q b Hq Hb ->. by rewrite (lk_node _ _ _ Hlk i p b) in Hp. }
  assert (∀ q, q ∈ ids → q ≠ p) as Hne'.
  { intros q [i Hi]%list_elem_of_lookup. destruct (lookup_lt_is_Some_2 bs i) as [b Hb];
      [rewrite <-(lk_length _ _ _ Hlk); by eapply lookup_lt_Some|]. by eapply Hne. }
  assert (∀ ns, ns !! p = Some n0 →
    (∀ i q b, ids !! i = Some q → bs !! i = Some b → ns !! q = Some (mkSnapshot b.1 b.2 (ids !! S i) (match i with O => Some p | S i => ids !! i end))) →
    linked ns (p :: ids) ((h, d) :: bs)) as Hlk'.
  { intros ns Hn0 Hns. split; [constructor; [by intros Hin; apply (Hne' p)|apply Hlk]|cbn; by rewrite (lk_length _ _ _ Hlk)|].
    intros [|i] q b; cbn [lookup list_lookup before]; [intros [= <-] [= <-]; rewrite Hn0; unfold n0; by rewrite Hh|].
    intros Hq Hb. rewrite (Hns i q b) by done. by destruct i. }
  destruct bs as [|b0 bs].
  - rewrite (ids_None l ids [] Hlk) in Hh by done. cbn [l_head with_nodes]. rewrite Hh, bind_Ok. eexists. split; [done|]. split; [|done].
    destruct ids as [|]; [|by pose proof (lk_length _ _ _ Hlk)].
    exists [p]. cbn. split_and!; [|done|done|by rewrite Hn]. apply Hlk'; [by rewrite lookup_insert_eq|by intros i q b].
  - destruct (linked_at l ids (b0 :: bs) Hlk 0 b0 eq_refl) as (q0 & Hq0 & En). cbn [l_head with_nodes]. rewrite Hh, Hq0.
    pose proof (Hne 0%nat q0 b0 Hq0 eq_refl) as Hq0p. pose proof (lk_node _ _ _ Hlk 0%nat q0 b0 Hq0 eq_refl) as Hn1.
    unfold set_pre, node_at. cbn [l_nodes with_nodes]. rewrite lookup_insert_ne, Hn1, !bind_Ok by done.
    eexists. split; [done|]. split; [|done]. exists (p :: ids). cbn [l_nodes l_head l_tail l_length with_nodes].
    split_and!; [|done|rewrite Ht; destruct ids; [done|done]|rewrite Hn; cbn; lia].
    apply Hlk'; [rewrite lookup_insert_ne by done; unfold n0; by rewrite Hh, lookup_insert_eq|].
    intros i q b Hq Hb. destruct (decide (q = q0)) as [->|Hqq].
    + rewrite (ids_inj l ids (b0 :: bs) Hlk i 0 q0 Hq Hq0) in *. injection Hb as <-. by rewrite lookup_insert_eq.
    + rewrite !lookup_insert_ne by (done || by apply not_eq_sym, (Hne i q b)). rewrite (lk_node _ _ _ Hlk i q b) by done.
      destruct i as [|i]; [|done]. by rewrite Hq0 in Hq; injection Hq as ->.
Qed.

(** The nodes before index [S j], the last of them with no next node. *)
Lemma linked_take ns ns' ids bs j q b :
  linked ns ids bs → ids !! j = Some q → bs !! j = Some b →
  ns' !! q = Some (mkSnapshot b.1 b.2 None (before ids j)) →
  (∀ i p, (i < j)%nat → ids !! i = Some p → ns' !! p = ns !! p) →
  linked ns' (take (S j) ids) (take (S j) bs).
Proof.
  intros [Hnd Hlen Hn] Hq Hb Hq' Hns. split.
  - eapply sublist_NoDup; [exact Hnd|]. apply sublist_take.
  - by rewrite !length_take, Hlen.
  - intros i p c Hp Hc. pose proof (lookup_lt_Some _ _ _ Hp) as Hi. rewrite length_take in Hi.
    rewrite lookup_take_lt in Hp by lia. rewrite lookup_take_lt in Hc by lia.
    assert (before (take (S j) ids) i = before ids i) as -> by (destruct i; [done|]; cbn [before]; by rewrite lookup_take_lt by lia).
    destruct (decide (i = j)) as [->|Hij].
    + rewrite lookup_take_ge by lia. by simplify_eq.
    + rewrite lookup_take_lt by lia. rewrite (Hns i p) by (done || lia). by apply Hn.
Qed.

Lemma cascadeDelete_spec l bs h :
  is_list l bs →
  ∃ l', cascadeDeleteCache l h = Ok (bool_decide (is_Some (list_find (with_height h) bs)), l') ∧
    is_list l' (match list_find (with_height h) bs with Some (j, _) => take j bs | None => bs end) ∧
    MaxBlockHeight l' = MaxBlockHeight l.
Proof.
  intros Hl. pose proof Hl as (ids & Hlk & Hh & Ht & Hn). unfold cascadeDeleteCache. rewrite (findNodeUnsafe_spec l ids bs Hlk h Hh), bind_Ok.
  destruct (find_block bs h) as [[j b]|] eqn:E; unfold find_block in E; rewrite E; [|by exists l].
  apply find_block_Some in E as [Hb _]. destruct (linked_at l ids bs Hlk j b Hb) as (p & Hp & En). rewrite Hp.
  destruct j as [|j].
  { rewrite Hh, Hp, decide_True by done. eexists. split; [done|]. split; [|done]. exists []. split_and!; [|done..]. split; [constructor|done|by intros i]. }
  rewrite decide_False. 2:{ rewrite Hh. intros E. by pose proof (ids_inj l ids bs Hlk _ _ _ Hp (eq_sym E)). }
  pose proof (lookup_lt_Some _ _ _ Hb) as Hj. rewrite <-Hp, Hh, (count_from_spec l ids bs Hlk) by (pose proof (linked_size l ids bs Hlk); lia).
  rewrite bind_Ok, Hp. change (node_at (set_length l _) (Some p)) with (node_at l (Some p)). rewrite En, bind_Ok. cbn [s_pre before].
  destruct (lookup_lt_is_Some_2 bs j ltac:(lia)) as [b' Hb']. destruct (linked_at l ids bs Hlk j b' Hb') as (q & Hq & En').
  assert (p ≠ q) as Hpq by (intros ->; pose proof (ids_inj l ids bs Hlk _ _ _ Hp Hq); lia).
  pose proof (lk_node _ _ _ Hlk _ _ _ Hp Hb) as Np. pose proof (lk_node _ _ _ Hlk _ _ _ Hq Hb') as Nq.
  rewrite Hq. unfold set_next, set_pre, node_at. cbn [l_nodes set_tail set_length with_nodes].
  rewrite Nq, !bind_Ok. cbn [l_nodes with_nodes]. rewrite lookup_insert_ne, Np, !bind_Ok by done.
  eexists. split; [done|]. split; [|done]. exists (take (S j) ids).
  cbn [l_nodes l_head l_tail l_length with_nodes set_tail set_length BlockHeight DeltaSmtCache s_next s_pre].
  split_and!; [|by rewrite lookup_take_lt by lia| |rewrite length_take, Nat.min_l by lia; lia].
  - eapply linked_take; [exact Hlk|exact Hq|exact Hb'|by rewrite lookup_insert_ne, lookup_insert_eq|].
    intros i r Hi Hr. rewrite !lookup_insert_ne; [done|..]; intros ->.
    + pose proof (ids_inj l ids bs Hlk _ _ _ Hr Hq). lia.
    + pose proof (ids_inj l ids bs Hlk _ _ _ Hr Hp). lia.
  - rewrite last_lookup, length_take, (lk_length _ _ _ Hlk), Nat.min_l by lia. cbn [pred]. by rewrite lookup_take_lt by lia.
Qed.

Lemma linked_tail ns ns' p ids b bs :
  linked ns (p :: ids) (b :: bs) →
  (∀ q c, ids !! 0%nat = Some q → bs !! 0%nat = Some c → ns' !! q = Some (mkSnapshot c.1 c.2 (ids !! 1%nat) None)) →
  (∀ i q, ids !! S i = Some q → ns' !! q = ns !! q) →
  linked ns' ids bs.
Proof.
  intros [Hnd Hlen Hn] H0 Hns. apply NoDup_cons in Hnd as [_ Hnd]. split; [done|by injection Hlen|].
  intros [|i] q c Hq Hc; [by apply H0|]. rewrite (Hns i q Hq). by apply (Hn (S (S i))).
Qed.

Lemma linked_delete ns ns' ids bs j q b r c :
  linked ns ids bs → ids !! j = Some q → bs !! j = Some b → ids !! S (S j) = Some r → bs !! S (S j) = Some c →
  ns' !! q = Some (mkSnapshot b.1 b.2 (Some r) (before ids j)) →
  ns' !! r = Some (mkSnapshot c.1 c.2 (ids !! S (S (S j))) (Some q)) →
  (∀ i p, ids !! i = Some p → i ≠ j → i ≠ S j → i ≠ S (S j) → ns' !! p = ns !! p) →
  linked ns' (delete (S j) ids) (delete (S j) bs).
Proof.
  intros [Hnd Hlen Hn] Hq Hb Hr Hc Hq' Hr' Hns. split.
  - eapply sublist_NoDup; [exact Hnd|]. apply sublist_delete.
  - pose proof (lookup_lt_Some _ _ _ Hr). rewrite !length_delete; [lia|apply lookup_lt_is_Some_2; lia..].
  - intros i p x. destruct (decide (i < S j)%nat) as [Hi|Hi].
    + rewrite !(list_lookup_delete_lt _ (S j) i) by lia. intros Hp Hx.
      assert (before (delete (S j) ids) i = before ids i) as -> by (destruct i; [done|]; cbn [before]; by rewrite list_lookup_delete_lt by lia).
      destruct (decide (i = j)) as [->|Hij].
      * rewrite list_lookup_delete_ge by lia. rewrite Hr. by simplify_eq.
      * rewrite list_lookup_delete_lt by lia. rewrite (Hns i p) by (done || lia). by apply Hn.
    + rewrite !(list_lookup_delete_ge _ (S j)) by lia. intros Hp Hx. destruct i as [|i]; [lia|]. cbn [before].
      destruct (decide (i = j)) as [->|Hij].
      * rewrite list_lookup_delete_lt, Hq by lia. by simplify_eq.
      * rewrite list_lookup_delete_ge by lia. rewrite (Hns (S (S i)) p) by (done || lia). by apply Hn.
Qed.

Section Delete.
Context (l : SmtCacheList) (ids : list nat) (bs : list (Z * tables)).
Context (Hlk : linked (l_nodes l) ids bs) (Hh : l_head l = ids !! 0%nat) (Ht : l_tail l = last ids) (Hn : l_length l = Z.of_nat (length bs)).

Lemma delete_head_spec p b n :
  ids !! 0%nat = Some p → bs !! 0%nat = Some b → l_nodes l !! p = Some n → s_next n = ids !! 1%nat →
  ∃ l', delete_head l (Some p) n = Ok l' ∧ is_list l' (delete 0%nat bs).
Proof.
  intros Hp Hb Np Hnext. destruct ids as [|p' ids']; [done|]. injection Hp as ->. destruct bs as [|b' bs']; [done|]. injection Hb as ->.
  unfold delete_head. rewrite Hnext. unfold set_next, node_at. cbn [l_nodes set_head]. rewrite Np, !bind_Ok.
  change ((p :: ids') !! 1%nat) with (ids' !! 0%nat). cbn [l_head set_length with_nodes set_head].
  destruct (ids' !! 0%nat) as [q|] eqn:Hq.
  - destruct (lookup_lt_is_Some_2 bs' 0) as [c Hc].
    { pose proof (lookup_lt_Some _ _ _ Hq). pose proof (lk_length _ _ _ Hlk) as Hlen. cbn in Hlen. lia. }
    pose proof (lk_node _ _ _ Hlk 1%nat q c Hq Hc) as Nq.
    assert (p ≠ q) as Hpq by (intros ->; pose proof (ids_inj l _ _ Hlk 0%nat 1%nat q eq_refl Hq); lia).
    unfold set_pre, node_at. cbn [l_nodes set_length with_nodes set_head]. rewrite lookup_insert_ne, Nq, !bind_Ok by done.
    eexists. split; [done|]. exists ids'. cbn [l_nodes l_head l_tail l_length with_nodes set_head set_length].
    split_and!; [|done|rewrite Ht; by destruct ids'|rewrite Hn; cbn; lia]. eapply linked_tail; [exact Hlk|..].
    + intros q' c' Hq' Hc'. change (bs' !! 0%nat = Some c') in Hc'. assert (c' = c) as -> by congruence. assert (q' = q) as -> by congruence. by rewrite lookup_insert_eq.
    + intros i r Hr. rewrite !lookup_insert_ne; [done|..]; intros ->.
      * by pose proof (ids_inj l _ _ Hlk 0%nat (S (S i)) r eq_refl Hr).
      * pose proof (ids_inj l _ _ Hlk 1%nat (S (S i)) r Hq Hr). lia.
  - assert (ids' = []) as -> by (by destruct ids'). assert (bs' = []) as ->.
    { pose proof (lk_length _ _ _ Hlk) as Hlen. by destruct bs'. }
    eexists. split; [done|]. exists []. cbn. split_and!; [|done|done|rewrite Hn; done]. split; [constructor|done|by intros i].
Qed.

Lemma delete_tail_spec j p b n :
  ids !! S j = Some p → bs !! S j = Some b → l_nodes l !! p = Some n → s_pre n = ids !! j → (S (S j) = length bs)%nat →
  ∃ l', delete_tail l (Some p) n = Ok l' ∧ is_list l' (delete (S j) bs).
Proof.
  intros Hp Hb Np Hpre Hj. destruct (lookup_lt_is_Some_2 bs j ltac:(lia)) as [b' Hb']. destruct (linked_at l ids bs Hlk j b' Hb') as (q & Hq & _).
  pose proof (lk_node _ _ _ Hlk _ _ _ Hq Hb') as Nq.
  assert (p ≠ q) as Hpq by (intros ->; pose proof (ids_inj l ids bs Hlk _ _ _ Hp Hq); lia).
  unfold delete_tail. rewrite Hpre, Hq. unfold set_pre, set_next, node_at. cbn [l_nodes set_tail]. rewrite Np, !bind_Ok.
  cbn [l_nodes l_tail set_tail with_nodes]. rewrite lookup_insert_ne, Nq, !bind_Ok by done.
  eexists. split; [done|]. exists (take (S j) ids). cbn [l_nodes l_head l_tail l_length with_nodes set_tail set_length].
  assert (delete (S j) bs = take (S j) bs) as ->.
  { rewrite delete_take_drop. rewrite (drop_ge bs) by lia. by rewrite app_nil_r. }
  split_and!; [|by rewrite Hh, lookup_take_lt by lia| |rewrite Hn, length_take; lia].
  - eapply linked_take; [exact Hlk|exact Hq|exact Hb'|by rewrite lookup_insert_eq|].
    intros i r Hi Hr. rewrite !lookup_insert_ne; [done|..]; intros ->.
    + pose proof (ids_inj l ids bs Hlk _ _ _ Hr Hp). lia.
    + pose proof (ids_inj l ids bs Hlk _ _ _ Hr Hq). lia.
  - rewrite last_lookup, length_take, (lk_length _ _ _ Hlk), Nat.min_l by lia. cbn [pred]. by rewrite lookup_take_lt by lia.
Qed.

Lemma delete_middle_spec j p b n :
  ids !! S j = Some p → bs !! S j = Some b → l_nodes l !! p = Some n → s_pre n = ids !! j → s_next n = ids !! S (S j) →
  (S (S j) < length bs)%nat → ∃ l', delete_middle l (Some p) n = Ok l' ∧ is_list l' (delete (S j) bs).
Proof.
  intros Hp Hb Np Hpre Hnext Hj. destruct (lookup_lt_is_Some_2 bs j ltac:(lia)) as [b' Hb']. destruct (linked_at l ids bs Hlk j b' Hb') as (q & Hq & _).
  destruct (lookup_lt_is_Some_2 bs (S (S j)) Hj) as [c Hc]. destruct (linked_at l ids bs Hlk (S (S j)) c Hc) as (r & Hr & _).
  pose proof (lk_node _ _ _ Hlk _ _ _ Hq Hb') as Nq. pose proof (lk_node _ _ _ Hlk _ _ _ Hr Hc) as Nr.
  assert (∀ i i' x x', ids !! i = Some x → ids !! i' = Some x' → i ≠ i' → x ≠ x') as Hinj.
  { intros i i' x x' Hx Hx' Hne ->. by pose proof (ids_inj l ids bs Hlk _ _ _ Hx Hx'). }
  assert (p ≠ q ∧ p ≠ r ∧ q ≠ r) as (Hpq & Hpr & Hqr) by (split_and!; eapply Hinj; try eassumption; lia).
  unfold delete_middle. rewrite Hpre, Hnext, Hq, Hr. unfold set_pre, set_next, node_at.
  rewrite Nq, !bind_Ok. cbn [l_nodes with_nodes]. rewrite lookup_insert_ne, Nr, !bind_Ok by done. cbn [l_nodes with_nodes].
  rewrite !lookup_insert_ne, Np, !bind_Ok by done. cbn [l_nodes with_nodes]. rewrite lookup_insert_eq, !bind_Ok.
  eexists. split; [done|]. exists (delete (S j) ids). cbn [l_nodes l_head l_tail l_length with_nodes set_length].
  pose proof (lk_length _ _ _ Hlk) as Hlen.
  split_and!; [|by rewrite Hh, list_lookup_delete_lt by lia| |rewrite Hn, length_delete by eauto; lia].
  - eapply linked_delete; [exact Hlk|exact Hq|exact Hb'|exact Hr|exact Hc|..].
    + rewrite !lookup_insert_ne by done. by rewrite lookup_insert_eq.
    + rewrite !lookup_insert_ne by done. by rewrite lookup_insert_eq.
    + intros i x Hx H1 H2 H3. by rewrite !lookup_insert_ne by (eapply Hinj; [| |apply not_eq_sym]; eassumption).
  - rewrite Ht, !last_lookup, length_delete by eauto. rewrite list_lookup_delete_ge by lia. f_equal. lia.
Qed.
End Delete.

Lemma deleteTarget_spec l bs h :
  is_list l bs →
  ∃ l', deleteTargetCache l h = Ok (bool_decide (is_Some (list_find (with_height h) bs)), l') ∧
    is_list l' (match list_find (with_height h) bs with Some (j, _) => delete j bs | None => bs end).
Proof.
  intros Hl. pose proof Hl as (ids & Hlk & Hh & Ht & Hn). unfold deleteTargetCache. rewrite (findNodeUnsafe_spec l ids bs Hlk h Hh), bind_Ok.
  destruct (find_block bs h) as [[j b]|] eqn:E; unfold find_block in E; rewrite E; [|by exists l].
  apply find_block_Some in E as [Hb _]. destruct (linked_at l ids bs Hlk j b Hb) as (p & Hp & En). rewrite Hp, En, bind_Ok.
  pose proof (lk_node _ _ _ Hlk _ _ _ Hp Hb) as Np. pose proof (lookup_lt_Some _ _ _ Hb) as Hj. destruct j as [|j].
  - rewrite Hh, decide_True by done. destruct (delete_head_spec l ids bs Hlk Hh Ht Hn p b _ Hp Hb Np eq_refl) as (l' & -> & Hl').
    rewrite bind_Ok. by exists l'.
  - rewrite decide_False. 2:{ rewrite Hh. intros E. by pose proof (ids_inj l ids bs Hlk _ _ _ Hp (eq_sym E)). }
    destruct (decide (S (S j) = length bs)) as [Hlast|Hlast].
    + rewrite decide_True by (rewrite Ht, last_lookup, (lk_length _ _ _ Hlk), <-Hlast; done).
      destruct (delete_tail_spec l ids bs Hlk Hh Hn j p b _ Hp Hb Np eq_refl Hlast) as (l' & -> & Hl'). rewrite bind_Ok. by exists l'.
    + rewrite decide_False.
      2:{ rewrite Ht, last_lookup, (lk_length _ _ _ Hlk). intros E. pose proof (ids_inj l ids bs Hlk _ _ _ Hp (eq_sym E)). lia. }
      destruct (delete_middle_spec l ids bs Hlk Hh Ht Hn j p b _ Hp Hb Np eq_refl eq_refl ltac:(lia)) as (l' & -> & Hl').
      rewrite bind_Ok. by exists l'.
Qed.

Lemma heights_from_spec l ids bs (Hlk : linked (l_nodes l) ids bs) fuel : ∀ i,
  (length bs - i ≤ fuel)%nat → heights_from fuel l (ids !! i) = Ok ((drop i bs).*1).
Proof.
  induction fuel as [|fuel IH]; intros i Hf.
  { rewrite (ids_None l ids bs Hlk), drop_ge by lia. done. }
  destruct (decide (i < length bs)%nat) as [Hi|Hi]; [|rewrite (ids_None l ids bs Hlk), drop_ge by lia; done].
  destruct (lookup_lt_is_Some_2 bs i Hi) as [b Hb]. destruct (linked_at l ids bs Hlk i b Hb) as (p & Hp & En).
  rewrite Hp. cbn [heights_from]. rewrite En, bind_Ok. cbn [s_next BlockHeight]. rewrite IH, bind_Ok by lia. by rewrite (drop_S bs b i).
Qed.

Lemma getBlockList_spec l bs : is_list l bs → getBlockList l = Ok bs.*1.
Proof.
  intros (ids & Hlk & Hh & _ & Hn). unfold getBlockList. rewrite Hn. destruct (Z.eqb_spec (Z.of_nat (length bs)) 0) as [E|E].
  - by assert (bs = []) as -> by (by destruct bs).
  - rewrite Hh, (heights_from_spec l ids bs Hlk) by (pose proof (linked_size l ids bs Hlk); lia). done.
Qed.

(** * The list as a component *)

Inductive list_op := OpPush (h : Z) (d : tables) | OpCascadeDelete (h : Z) | OpDeleteTarget (h : Z).

Definition run_op (l : SmtCacheList) (o : list_op) : outcome SmtCacheList :=
  match o with
  | OpPush h d => Push l h d
  | OpCascadeDelete h => snd <$> cascadeDeleteCache l h
  | OpDeleteTarget h => snd <$> deleteTargetCache l h
  end.

(** The same on a list of blocks, newest first. *)
Definition drop_from (h : Z) (bs : list (Z * tables)) : list (Z * tables) :=
  match list_find (with_height h) bs with Some (j, _) => take j bs | None => bs end.

Definition drop_one (h : Z) (bs : list (Z * tables)) : list (Z * tables) :=
  match list_find (with_height h) bs with Some (j, _) => delete j bs | None => bs end.

Definition upto (h : Z) (bs : list (Z * tables)) : tables * bool :=
  match list_find (with_height h) bs with Some (j, _) => (merge_blocks ∅ (drop j bs), true) | None => (∅, false) end.

Definition spec_op (bs : list (Z * tables)) (o : list_op) : list (Z * tables) :=
  match o with
  | OpPush h d => (h, d) :: bs
  | OpCascadeDelete h => drop_from h bs
  | OpDeleteTarget h => drop_one h bs
  end.

Lemma run_op_spec l bs o : is_list l bs → ∃ l', run_op l o = Ok l' ∧ is_list l' (spec_op bs o).
Proof.
  intros Hl. destruct o as [h d|h|h]; cbn [run_op spec_op].
  - destruct (Push_spec l bs h d Hl) as (l' & E & Hl' & _). eauto.
  - destruct (cascadeDelete_spec l bs h Hl) as (l' & -> & Hl' & _). rewrite fmap_Ok. eauto.
  - destruct (deleteTarget_spec l bs h Hl) as (l' & -> & Hl'). rewrite fmap_Ok. eauto.
Qed.

(** C23. The linked list of recent blocks implements a list of blocks: after any
    sequence of pushes and deletions no pointer is wrong, the observations are
    those of the list, and a lookup merges the writes of the block and of all
    older ones, newer over older. *)
Theorem SmtCacheList_refines ops :
  ∃ l, foldM run_op NewSmtCacheList ops = Ok l ∧
    let bs := foldl spec_op [] ops in
    getBlockList l = Ok bs.*1 ∧ Length l = Z.of_nat (length bs) ∧
    (∀ h, cascadeGetCacheShapshot l h = Ok (upto h bs)) ∧
    getAllCacheShapshot l = Ok (match bs with [] => (None, false) | _ => (Some (merge_blocks ∅ bs), true) end).
Proof.
  assert (∀ ops l bs, is_list l bs → ∃ l', foldM run_op l ops = Ok l' ∧ is_list l' (foldl spec_op bs ops)) as H.
  { clear ops. induction ops as [|o ops IH]; intros l bs Hl; [by exists l|]. cbn [foldM foldl].
    destruct (run_op_spec l bs o Hl) as (l1 & -> & Hl1). rewrite bind_Ok. by apply IH. }
  destruct (H ops NewSmtCacheList [] NewSmtCacheList_spec) as (l & E & Hl). exists l. split; [done|]. cbv zeta. split_and!.
  - by apply getBlockList_spec.
  - by destruct Hl as (ids & _ & _ & _ & Hn).
  - intros h. by apply cascadeGet_spec.
  - by apply getAll_spec.
Qed.
