(* ===== verification/SmtCache.v ===== *)
(** The asynchronous commit of the state tree (src/zk/smt/smt_cache.go and
    src/turbo/stages/stageloop_xlayer.go).

    The sequencer does not write the state tree to its database.  It records the
    writes of every block in a cache (SetSmtCache), hands those of the finished
    batches to a channel (FlushSmtCache), and workers write them to the database
    (FlushDataToDB) and then drop them from the list of recent blocks
    (TruncateSmtCacheList).  The cache that the next block reads from
    (LongLivedSmtCache) and the database together have to give the state after
    the last block. *)

From stdpp Require Import gmap.
From Stdlib Require Import Strings.Byte.
From S2P Require Import Prelude Bytes SmtDb Kv MemBatch SmtHeap SmtCacheList.

Local Open Scope Z_scope.

(** * The cache *)

Definition flushSmtCachePeriod : Z := 100.
Definition channelSize : nat := 1000.
Definition MetaLastHeight : string := "lastHeight".

Record SmtCacheSave := mkSave { SmtData : tables; SaveHeight : Z }.

Record SmtCache := mkCache {
  PushedHeap : Uint64MinHeap; LastPushedHeight : Z; ConfirmedHeap : Uint64MinHeap;
  SnapshotList : SmtCacheList;
  PreBatchSnapshotImage : tables; PreBatchImageLastUpdateHeight : Z;
  LastRecordBlockHeight : Z; CurrentBatchList : SmtCacheList;
  SmtCacheDataCh : list SmtCacheSave;
  ToPushedSmtCache : tables; LongLivedSmtCache : tables; LastResetHeight : Z
}.

Definition CreateNewSmtCache : SmtCache :=
  mkCache NewUint64MinHeap 0 NewUint64MinHeap NewSmtCacheList ∅ 0 0 NewSmtCacheList [] ∅ ∅ 0.

Definition with_heaps (c : SmtCache) (pushed confirmed : Uint64MinHeap) (l : SmtCacheList) : SmtCache :=
  mkCache pushed (LastPushedHeight c) confirmed l (PreBatchSnapshotImage c) (PreBatchImageLastUpdateHeight c)
    (LastRecordBlockHeight c) (CurrentBatchList c) (SmtCacheDataCh c) (ToPushedSmtCache c) (LongLivedSmtCache c) (LastResetHeight c).

Definition with_image (c : SmtCache) (image : tables) (h : Z) : SmtCache :=
  mkCache (PushedHeap c) (LastPushedHeight c) (ConfirmedHeap c) (SnapshotList c) image h
    (LastRecordBlockHeight c) (CurrentBatchList c) (SmtCacheDataCh c) (ToPushedSmtCache c) (LongLivedSmtCache c) (LastResetHeight c).

Definition with_longLived (c : SmtCache) (t : tables) (h : Z) : SmtCache :=
  mkCache (PushedHeap c) (LastPushedHeight c) (ConfirmedHeap c) (SnapshotList c) (PreBatchSnapshotImage c)
    (PreBatchImageLastUpdateHeight c) (LastRecordBlockHeight c) (CurrentBatchList c) (SmtCacheDataCh c) (ToPushedSmtCache c) t h.

Definition with_lists (c : SmtCache) (snapshots current : SmtCacheList) : SmtCache :=
  mkCache (PushedHeap c) (LastPushedHeight c) (ConfirmedHeap c) snapshots (PreBatchSnapshotImage c)
    (PreBatchImageLastUpdateHeight c) (LastRecordBlockHeight c) current (SmtCacheDataCh c) (ToPushedSmtCache c)
    (LongLivedSmtCache c) (LastResetHeight c).

(** ** Truncation *)

(** The loop over the two heaps; the last component is truncateHeight.  Every turn
    takes a height out of the heap of confirmed ones. *)
Fixpoint truncate_loop (fuel : nat) (pushed confirmed : Uint64MinHeap) (l : SmtCacheList) (truncateHeight : Z)
    : outcome (Uint64MinHeap * Uint64MinHeap * SmtCacheList * Z) :=
  let '(confirmHeight, _) := ThreadSafeTop confirmed in
  let '(pushedHeight, _) := ThreadSafeTop pushed in
  if (confirmHeight =? pushedHeight) && (0 <? confirmHeight) then
    match fuel with
    | O => Panic
    | S fuel =>
        '(_, confirmed) ← ThreadSafePop confirmed;
        '(_, pushed) ← ThreadSafePop pushed;
        '(_, l) ← cascadeDeleteCache l confirmHeight;
        truncate_loop fuel pushed confirmed l confirmHeight
    end
  else Ok (pushed, confirmed, l, truncateHeight).

Definition TruncateSmtCacheList (c : SmtCache) (blockHeight : Z) : outcome SmtCache :=
  '(_, confirmed) ← ThreadSafePush (ConfirmedHeap c) blockHeight;
  '(pushed, confirmed, l, truncateHeight) ←
    truncate_loop (length (hdata confirmed)) (PushedHeap c) confirmed (SnapshotList c) 0;
  let c := with_heaps c pushed confirmed l in
  if 0 <? truncateHeight then
    '(tmpSmtCache, _) ← getAllCacheShapshot (SnapshotList c);
    Ok (with_image c (default ∅ tmpSmtCache) truncateHeight)
  else Ok c.

(** ** Reading *)

Definition GetSmtCache (c : SmtCache) : tables := LongLivedSmtCache c.

(** Values that are not nil and not empty. *)
Definition live (v : option (list byte)) : Prop := match v with Some (_ :: _) => True | _ => False end.

#[export] Instance live_dec v : Decision (live v).
Proof. unfold live. destruct v as [[|]|]; apply _. Defined.

Definition live_bucket (b : bucket) : bucket := filter (λ kv, live kv.2) b.

(** Every table has a goroutine of its own, and no two write to the same map. *)
Definition CascadeGetCurrentBatchSnapshotCache (c : SmtCache) (blockNumber : Z) : outcome tables :=
  '(cacheData, ok) ← cascadeGetCacheShapshot (CurrentBatchList c) blockNumber;
  if negb ok then
    '(cacheData, _) ← cascadeGetCacheShapshot (SnapshotList c) blockNumber;
    Ok cacheData
  else
    let result : tables := live_bucket <$> PreBatchSnapshotImage c in
    Ok (merge (λ r d, match d with
                      | Some d => Some (live_bucket (d ∪ default ∅ r))
                      | None => r
                      end) result cacheData).

(** ** Recording a block *)

Definition SetSmtCache (c : SmtCache) (blockNumber : Z) (blockCache : tables) : outcome SmtCache :=
  snapshots ← Push (SnapshotList c) blockNumber blockCache;
  current ← Push (CurrentBatchList c) blockNumber blockCache;
  Ok (mkCache (PushedHeap c) (LastPushedHeight c) (ConfirmedHeap c) snapshots (PreBatchSnapshotImage c)
        (PreBatchImageLastUpdateHeight c) blockNumber current (SmtCacheDataCh c) (ToPushedSmtCache c)
        (overlay (LongLivedSmtCache c) blockCache) (LastResetHeight c)).

(** ** Handing a batch over *)

Definition ConvertBytesToUint64 (b : option (list byte)) : outcome Z :=
  match b with
  | None | Some [] => Ok 0
  | Some b => BigEndian_Uint64 b
  end.

Definition ConvertUint64ToBytes (n : Z) : list byte := be_bytes 8 n.

(** The height of the last block, in the stores. *)
Definition GetLastHeight {T : Type} `{KVTx T} (t : T) : outcome Z :=
  data ← kv_GetOne t TableStats (str_bytes MetaLastHeight); ConvertBytesToUint64 data.

Definition SetLastHeight {T : Type} `{KVTx T} (t : T) (blockHeight : Z) : outcome T :=
  kv_Put t TableStats (str_bytes MetaLastHeight) (ConvertUint64ToBytes blockHeight).

(** [cache.ToPushedSmtCache["HermezSmtStats"]["lastHeight"]] *)
Definition lastHeight (t : tables) : option (list byte) := default None (lookup2 t TableStats (str_bytes MetaLastHeight)).

(** The three parts of FlushSmtCache.  First the writes of the current batch go to
    PreBatchSnapshotImage and ToPushedSmtCache, and the current batch is emptied. *)
Definition merge_current (c : SmtCache) : outcome SmtCache :=
  '(currentBatchImage, _) ← getAllCacheShapshot (CurrentBatchList c);
  let image : tables := default ∅ currentBatchImage in
  Ok (mkCache (PushedHeap c) (LastPushedHeight c) (ConfirmedHeap c) (SnapshotList c)
        (overlay (PreBatchSnapshotImage c) image) (PreBatchImageLastUpdateHeight c) (LastRecordBlockHeight c)
        NewSmtCacheList (SmtCacheDataCh c) (overlay (ToPushedSmtCache c) image) (LongLivedSmtCache c) (LastResetHeight c)).

(** Then, from time to time, LongLivedSmtCache is reset to the recent blocks. *)
Definition reset_longLived (c : SmtCache) (height : Z) : outcome SmtCache :=
  if 10 * flushSmtCachePeriod <? u64 (height - LastResetHeight c) then
    '(tmpSmtCache, _) ← getAllCacheShapshot (SnapshotList c);
    Ok (with_longLived c (default ∅ tmpSmtCache) height)
  else Ok c.

(** Then the writes are sent, when there are enough of them.  The result has the
    error, which may be nil, and the cache. *)
Definition push_data (c : SmtCache) (height : Z) (batchPush grace : bool) : outcome (option string * SmtCache) :=
  if batchPush && (u64 (height - LastPushedHeight c) <? flushSmtCachePeriod) && negb grace then Ok (None, c)
  else if (length (SmtCacheDataCh c) <? channelSize)%nat then
    '(_, pushed) ← ThreadSafePush (PushedHeap c) height;
    Ok (None, mkCache pushed height (ConfirmedHeap c) (SnapshotList c) (PreBatchSnapshotImage c)
                (PreBatchImageLastUpdateHeight c) (LastRecordBlockHeight c) (CurrentBatchList c)
                (SmtCacheDataCh c ++ [mkSave (ToPushedSmtCache c) height]) ∅ (LongLivedSmtCache c) (LastResetHeight c))
  else Ok (Some "failed to flush: channel is full or no receiver", c).

Definition FlushSmtCache (c : SmtCache) (batchPush grace : bool) : outcome (option string * SmtCache) :=
  c ← merge_current c;
  height ← ConvertBytesToUint64 (lastHeight (ToPushedSmtCache c));
  c ← reset_longLived c height;
  push_data c height batchPush grace.

(** ** Resetting a batch *)

(** [make([]uint64, n)] with a length of type uint64: more than can be addressed
    panics. *)
Definition make_uint64s (n : Z) : outcome (list Z) :=
  if 2 ^ 45 <? n then Panic else Ok (replicate (Z.to_nat n) 0).

Definition delete_blocks (l : SmtCacheList) (blocks : list Z) : outcome SmtCacheList :=
  foldM (λ l h, '(_, l) ← deleteTargetCache l h; Ok l) l blocks.

Definition ResetCurrentBatch (c : SmtCache) (resetBlockHeight : Z) : outcome SmtCache :=
  if LastRecordBlockHeight c <? resetBlockHeight then Ok c
  else
    zeros ← make_uint64s (u64 (resetBlockHeight - LastRecordBlockHeight c + 1));
    let deleteBlockList :=
      zeros ++ seqZ resetBlockHeight (LastRecordBlockHeight c - resetBlockHeight + 1) in
    current ← delete_blocks (CurrentBatchList c) deleteBlockList;
    snapshots ← delete_blocks (SnapshotList c) deleteBlockList;
    '(tmpSmtCache, _) ← getAllCacheShapshot snapshots;
    Ok (with_longLived (with_lists c snapshots current) (default ∅ tmpSmtCache) (u64 (resetBlockHeight - 1))).

(** * The workers *)

Section Workers.
Context {T : Type} `{KVCursor T}.

(** FlushDataToDB: one transaction; its context has no Done channel.  An error is
    logged and nothing else is done. *)
Definition FlushDataToDB (torder : tables → list (string * bucket)) (db : T) (c : SmtCache) (saveData : SmtCacheSave)
    : outcome (T * SmtCache) :=
  let batch := Mapmutation.NewHashBatch (Some db) true in
  let batch := Mapmutation.SetCache batch (SmtData saveData) in
  match Mapmutation.Flush torder (λ _, false) batch (Some db) with
  | Ok (_, db) => c ← TruncateSmtCacheList c (SaveHeight saveData); Ok (db, c)
  | Err _ => Ok (db, c)
  | Panic => Panic
  end.

(** The sequencer, the loop of AsyncFlushSmtData and its workers: [flying] is what
    the workers have taken from the channel, in that order. *)
Record system := mkSystem { sy_cache : SmtCache; sy_db : T; flying : list SmtCacheSave }.

Definition maxWorkers : nat := 6.

Inductive action :=
  | Block (blockNumber : Z) (blockCache : tables)
  | FlushBatch (batchPush grace : bool)
  | ResetBatch (resetBlockHeight : Z)
  | Dispatch
  | Finish (worker : nat).

(** Dispatch and Finish wait until there is something to do. *)
Definition step (torder : tables → list (string * bucket)) (s : system) (a : action) : outcome (option system) :=
  match a with
  | Block n d => c ← SetSmtCache (sy_cache s) n d; Ok (Some (mkSystem c (sy_db s) (flying s)))
  | FlushBatch batchPush grace =>
      '(_, c) ← FlushSmtCache (sy_cache s) batchPush grace; Ok (Some (mkSystem c (sy_db s) (flying s)))
  | ResetBatch h => c ← ResetCurrentBatch (sy_cache s) h; Ok (Some (mkSystem c (sy_db s) (flying s)))
  | Dispatch =>
      if (length (flying s) <? maxWorkers)%nat then
        match SmtCacheDataCh (sy_cache s) with
        | [] => Ok None
        | save :: ch =>
            let c := sy_cache s in
            let c := mkCache (PushedHeap c) (LastPushedHeight c) (ConfirmedHeap c) (SnapshotList c) (PreBatchSnapshotImage c)
                       (PreBatchImageLastUpdateHeight c) (LastRecordBlockHeight c) (CurrentBatchList c) ch
                       (ToPushedSmtCache c) (LongLivedSmtCache c) (LastResetHeight c) in
            Ok (Some (mkSystem c (sy_db s) (flying s ++ [save])))
        end
      else Ok None
  | Finish w =>
      match flying s !! w with
      | None => Ok None
      | Some save =>
          '(db, c) ← FlushDataToDB torder (sy_db s) (sy_cache s) save;
          Ok (Some (mkSystem c db (delete w (flying s))))
      end
  end.

Fixpoint run (torder : tables → list (string * bucket)) (s : system) (tr : list action) : outcome (option system) :=
  match tr with
  | [] => Ok (Some s)
  | a :: tr =>
      o ← step torder s a;
      match o with Some s => run torder s tr | None => Ok None end
  end.

(** What the next block reads: the cache, then the database. *)
Definition read (s : system) (table : string) (key : list byte) : outcome (option (list byte)) :=
  match lookup2 (GetSmtCache (sy_cache s)) table key with
  | Some v => Ok v
  | None => kv_GetOne (sy_db s) table key
  end.
End Workers.
Arguments system T : clear implicits.
