(* ===== verification/SmtCacheSpec.v ===== *)
(** What the asynchronous commit keeps.

    [inv] relates the cache, the channel, the workers and the database to the list
    of all blocks: the blocks that are not in the database yet are, in order, in
    the current batch, in what is to be pushed, in the channel and with the
    workers, and the list of recent blocks and the long-lived cache have all of
    them.  It holds as long as the workers finish in the order in which they
    started ([async_commit_consistent]), and then a shutdown writes everything
    ([shutdown_writes_everything]); when they do not, older writes replace newer
    ones ([workers_out_of_order]).  Batches of more than two blocks cannot be reset
    ([ResetCurrentBatch_panics]), and a batch without blocks stops the truncation
    ([empty_flush_stops_truncation]). *)

From stdpp Require Import gmap.
From Stdlib Require Import Strings.Byte.
From S2P Require Import Prelude Bytes SmtDb Kv MemBatch MemBatchSpec SmtHeap SmtCacheList SmtCache.

Local Open Scope Z_scope.
#[local] Set Warnings "-clear-no-such-hyp".

Abbreviation block := (Z * tables)%type.

(** * Writes *)

(** The newest write of the blocks to a key. *)
Definition written (bs : list block) (b : string) (k : list byte) : option (option (list byte)) :=
  lookup2 (merge_blocks ∅ bs) b k.

Lemma lookup2_empty b k : lookup2 ∅ b k = None.
Proof. unfold lookup2. by rewrite lookup_empty. Qed.

Lemma written_cons x bs b k : written (x :: bs) b k = match lookup2 x.2 b k with Some v => Some v | None => written bs b k end.
Proof. unfold written. cbn [merge_blocks foldr]. by rewrite lookup2_overlay. Qed.

Lemma written_app bs1 bs2 b k : written (bs1 ++ bs2) b k = match written bs1 b k with Some v => Some v | None => written bs2 b k end.
Proof.
  induction bs1 as [|x bs1 IH]; cbn [app]; [unfold written at 2; cbn; by rewrite lookup2_empty|].
  rewrite !written_cons, IH. by destruct (lookup2 x.2 b k).
Qed.

(** Tables that read as the writes of the blocks. *)
Definition reads_as (t : tables) (bs : list block) : Prop := ∀ b k, lookup2 t b k = written bs b k.

Lemma reads_as_overlay t bs t' bs' : reads_as t bs → reads_as t' bs' → reads_as (overlay t t') (bs' ++ bs).
Proof. intros H H' b k. by rewrite lookup2_overlay, written_app, H, H'. Qed.

Lemma reads_as_merge bs : reads_as (merge_blocks ∅ bs) bs.
Proof. by intros b k. Qed.

Lemma getAll_reads l bs :
  is_list l bs → ∃ o ok, getAllCacheShapshot l = Ok (o, ok) ∧ reads_as (default ∅ o) bs.
Proof.
  intros Hl. rewrite (getAll_spec l bs Hl). destruct bs as [|x bs]; do 2 eexists; (split; [done|]); intros b k; [by rewrite lookup2_empty|done].
Qed.

(** * Blocks *)

Lemma ConvertBytes_height n : 0 < n < 2 ^ 64 → ConvertBytesToUint64 (Some (be_bytes 8 n)) = Ok n.
Proof.
  intros Hn. assert (length (be_bytes 8 n) = 8%nat) as Hlen by apply length_be_bytes.
  unfold ConvertBytesToUint64. destruct (be_bytes 8 n) as [|b0 bs0] eqn:E; [done|]. rewrite <-E in *.
  unfold BigEndian_Uint64. rewrite Hlen. cbn [Nat.ltb Nat.leb]. rewrite take_ge by lia. rewrite be_val_bytes. f_equal.
  apply Z.mod_small. lia.
Qed.

(** The block [n] with the writes [d] records its height. *)
Definition block_ok (x : block) : Prop :=
  0 < x.1 < 2 ^ 64 ∧ lookup2 x.2 TableStats (str_bytes MetaLastHeight) = Some (Some (be_bytes 8 x.1)).

(** Blocks of the sequencer do: it calls SetLastHeight before it takes the writes out. *)
Lemma SetLastHeight_block_ok {T : Type} `{KVCursor T} (m : DoubleCache T) n :
  0 < n < 2 ^ 64 →
  ∃ m', SetLastHeight m n = Ok m' ∧ GetLastHeight m' = Ok n ∧ block_ok (n, (EriCacheDb_RetriveAndCleanCache m').1).
Proof.
  intros Hn. unfold SetLastHeight, GetLastHeight. cbn [kv_Put kv_GetOne DoubleCache_KVTx]. unfold DoubleCache.Put.
  destruct (dc_put_spec m TableStats (str_bytes MetaLastHeight) (Some (be_bytes 8 n))) as (m' & E & Hp & Hi & Hd & _).
  exists m'. split; [exact E|]. split.
  - rewrite (dc_GetOne_put m m' _ _ _ _ _ Hp Hi Hd), decide_True, bind_Ok by done. by apply ConvertBytes_height.
  - split; [done|]. pose proof (Retrieve_lookup m' TableStats (str_bytes MetaLastHeight)) as HL.
    destruct (EriCacheDb_RetriveAndCleanCache m') as [delta m'']. destruct HL as [_ HL]. cbn [fst snd]. rewrite HL.
    rewrite decide_True by (vm_compute; set_solver). rewrite Hp, lookup2_insert2. by rewrite decide_True.
Qed.

(** The height of the newest block. *)
Definition newest (bs : list block) : Z := match bs with [] => 0 | x :: _ => x.1 end.

Fixpoint increasing (bs : list block) : Prop :=
  match bs with [] => True | x :: bs => (0 < x.1 ∧ newest bs < x.1) ∧ increasing bs end.

Lemma increasing_newest bs x : increasing bs → x ∈ bs → x.1 ≤ newest bs.
Proof.
  induction bs as [|y bs IH]; intros Hi Hx; [by apply elem_of_nil in Hx|]. destruct Hi as [Hn Hi].
  apply elem_of_cons in Hx as [->|Hx]; [done|]. cbn. specialize (IH Hi Hx). lia.
Qed.

Lemma increasing_app bs1 bs2 : increasing (bs1 ++ bs2) → increasing bs1 ∧ increasing bs2 ∧ ∀ x y, x ∈ bs1 → y ∈ bs2 → y.1 < x.1.
Proof.
  induction bs1 as [|x bs1 IH]; cbn [app increasing]; [intros H; split_and!; [done..|]; by intros x y []%elem_of_nil|].
  intros [Hn Hi]. destruct (IH Hi) as (H1 & H2 & H3). split; [|split; [done|]].
  - split; [|done]. destruct bs1 as [|x' bs1]; [|done]. cbn. lia.
  - intros x' y [->|Hx']%elem_of_cons Hy; [|by apply H3].
    pose proof (increasing_newest _ y Hi ltac:(apply elem_of_app; by right)). lia.
Qed.

(** The height that FlushSmtCache finds is that of the newest block. *)
Lemma lastHeight_newest t bs : Forall block_ok bs → bs ≠ [] → reads_as t bs → ConvertBytesToUint64 (lastHeight t) = Ok (newest bs).
Proof.
  intros Hok Hne Hr. destruct bs as [|x bs]; [done|]. apply Forall_cons in Hok as [[Hx Hl] _].
  unfold lastHeight. rewrite Hr, written_cons, Hl. by apply ConvertBytes_height.
Qed.

Lemma find_newest h bs1 x bs2 :
  increasing (bs1 ++ x :: bs2) → x.1 = h → list_find (with_height h) (bs1 ++ x :: bs2) = Some (length bs1, x).
Proof.
  intros Hi Hx. apply list_find_Some. split_and!; [|exact Hx|].
  - by rewrite lookup_app_r, Nat.sub_diag.
  - intros j y Hy Hj. rewrite lookup_app_l in Hy by done. apply increasing_app in Hi as (_ & _ & Hlt).
    intros Ey. unfold with_height in Ey. specialize (Hlt y x ltac:(by eapply list_elem_of_lookup_2) ltac:(by left)). lia.
Qed.

(** * Truncation *)

Lemma heap_top_singleton h x : hdata h = [x] → ThreadSafeTop h = (x, true).
Proof. intros E. unfold ThreadSafeTop. by rewrite E. Qed.

Lemma pop_min h x hs :
  heap_wf h → hdata h ≡ₚ x :: hs → Forall (λ y, x < y) hs →
  ∃ h', ThreadSafeTop h = (x, true) ∧ ThreadSafePop h = Ok (Some x, h') ∧ heap_wf h' ∧ hdata h' ≡ₚ hs ∧ hset h' = hset h.
Proof.
  intros Hwf HP Hmin. destruct (ThreadSafePop_spec h Hwf) as (y & h' & E & Hwf' & HP' & Hs & Hmin' & Ht).
  { intros E. rewrite E in HP. by apply Permutation_nil_cons in HP. }
  assert (y = x) as ->; [|].
  { assert (y ∈ x :: hs) as Hy by (rewrite <-HP, HP'; left). assert (x ∈ y :: hdata h') as Hx by (rewrite <-HP', HP; left).
    apply elem_of_cons in Hy as [->|Hy]; [done|]. apply elem_of_cons in Hx as [->|Hx]; [done|].
    rewrite Forall_forall in Hmin, Hmin'. specialize (Hmin y Hy). specialize (Hmin' x Hx). cbn in *. lia. }
  exists h'. split_and!; [done..| |done]. apply (Permutation_cons_inv (a := x)). by rewrite <-HP', HP.
Qed.

(** One turn of the loop, and its end. *)
Lemma truncate_turn fuel pushed confirmed l th h hs cs bs1 x bs2 :
  0 < h → heap_wf pushed → hdata pushed ≡ₚ h :: hs → Forall (λ y, h < y) hs →
  heap_wf confirmed → hdata confirmed ≡ₚ h :: cs → Forall (λ y, h < y) cs →
  is_list l (bs1 ++ x :: bs2) → increasing (bs1 ++ x :: bs2) → x.1 = h →
  ∃ pushed' confirmed' l', truncate_loop (S fuel) pushed confirmed l th = truncate_loop fuel pushed' confirmed' l' h ∧
    heap_wf pushed' ∧ hdata pushed' ≡ₚ hs ∧ hset pushed' = hset pushed ∧
    heap_wf confirmed' ∧ hdata confirmed' ≡ₚ cs ∧ hset confirmed' = hset confirmed ∧ is_list l' bs1.
Proof.
  intros Hh Hpw HP Hmin Hcw HC Hcmin Hl Hi Hx.
  destruct (pop_min pushed h hs Hpw HP Hmin) as (pushed' & Htop & Epop & Hpw' & HP' & Hps).
  destruct (pop_min confirmed h cs Hcw HC Hcmin) as (confirmed' & Hctop & Ecpop & Hcw' & HC' & Hcs).
  destruct (cascadeDelete_spec l _ h Hl) as (l' & Ed & Hl' & _). rewrite (find_newest h bs1 x bs2 Hi Hx) in Ed, Hl'.
  rewrite take_app_length in Hl'. exists pushed', confirmed', l'. split; [|done].
  cbn [truncate_loop]. rewrite Hctop, Htop, Z.eqb_refl. destruct (Z.ltb_spec 0 h); [|lia]. cbn [andb].
  by rewrite Ecpop, bind_Ok, Epop, bind_Ok, Ed, bind_Ok.
Qed.

Lemma truncate_end fuel pushed confirmed l th :
  hdata confirmed = [] → truncate_loop fuel pushed confirmed l th = Ok (pushed, confirmed, l, th).
Proof.
  intros Hc. assert (ThreadSafeTop confirmed = (0, false)) as Ht by (unfold ThreadSafeTop; by rewrite Hc).
  destruct fuel; cbn [truncate_loop]; rewrite Ht; destruct (ThreadSafeTop pushed); by rewrite andb_false_r.
Qed.

Lemma Truncate_spec c h hs bs1 x bs2 :
  0 < h → heap_wf (PushedHeap c) → hdata (PushedHeap c) ≡ₚ h :: hs → Forall (λ y, h < y) hs →
  heap_wf (ConfirmedHeap c) → hdata (ConfirmedHeap c) = [] → h ∉ hset (ConfirmedHeap c) →
  is_list (SnapshotList c) (bs1 ++ x :: bs2) → increasing (bs1 ++ x :: bs2) → x.1 = h →
  ∃ pushed confirmed l image, TruncateSmtCacheList c h = Ok (with_image (with_heaps c pushed confirmed l) image h) ∧
    heap_wf pushed ∧ hdata pushed ≡ₚ hs ∧ hset pushed = hset (PushedHeap c) ∧
    heap_wf confirmed ∧ hdata confirmed = [] ∧ hset confirmed = {[h]} ∪ hset (ConfirmedHeap c) ∧ is_list l bs1.
Proof.
  intros Hh Hpw HP Hmin Hcw Hc0 Hnew Hl Hi Hx. unfold TruncateSmtCacheList.
  destruct (ThreadSafePush_new (ConfirmedHeap c) h Hcw Hnew) as (cf & -> & Hcw1 & HP1 & Hset1). rewrite bind_Ok.
  rewrite Hc0 in HP1. assert (hdata cf = [h]) as Hcf by (by apply Permutation_singleton_r). rewrite Hcf. cbn [length].
  destruct (truncate_turn 0 (PushedHeap c) cf (SnapshotList c) 0 h hs [] bs1 x bs2)
    as (pushed & confirmed & l & -> & Hpw' & HP' & Hps & Hcw' & HC' & Hcs & Hl'); [done..|].
  apply Permutation_nil_r in HC'. rewrite truncate_end, bind_Ok by done. destruct (Z.ltb_spec 0 h); [|lia]. cbn [SnapshotList with_heaps].
  destruct (getAll_reads l bs1 Hl') as (o & ok & -> & _). rewrite bind_Ok.
  exists pushed, confirmed, l, (default ∅ o). split_and!; [done..| |done]. by rewrite Hcs, Hset1.
Qed.

(** A height that is confirmed before a lower one waits for it. *)
Lemma Truncate_wait c h p hs :
  heap_wf (PushedHeap c) → hdata (PushedHeap c) ≡ₚ p :: hs → Forall (λ y, p < y) hs → p < h →
  heap_wf (ConfirmedHeap c) → hdata (ConfirmedHeap c) = [] → h ∉ hset (ConfirmedHeap c) →
  ∃ confirmed, TruncateSmtCacheList c h = Ok (with_heaps c (PushedHeap c) confirmed (SnapshotList c)) ∧
    heap_wf confirmed ∧ hdata confirmed = [h] ∧ hset confirmed = {[h]} ∪ hset (ConfirmedHeap c).
Proof.
  intros Hpw HP Hmin Hp Hcw Hc0 Hnew. unfold TruncateSmtCacheList.
  destruct (ThreadSafePush_new (ConfirmedHeap c) h Hcw Hnew) as (cf & -> & Hcw1 & HP1 & Hset1). rewrite bind_Ok.
  rewrite Hc0 in HP1. assert (hdata cf = [h]) as Hcf by (by apply Permutation_singleton_r). rewrite Hcf. cbn [length truncate_loop].
  destruct (pop_min (PushedHeap c) p hs Hpw HP Hmin) as (? & -> & _). rewrite (heap_top_singleton cf h Hcf).
  destruct (Z.eqb_spec h p); [lia|]. cbn [andb]. rewrite bind_Ok. by exists cf.
Qed.

(** When the lower one is confirmed, both are dropped. *)
Lemma Truncate_two c h0 h1 hs bs1 x1 bs2 x0 bs3 :
  0 < h0 < h1 → heap_wf (PushedHeap c) → hdata (PushedHeap c) ≡ₚ h0 :: h1 :: hs → Forall (λ y, h1 < y) hs →
  heap_wf (ConfirmedHeap c) → hdata (ConfirmedHeap c) = [h1] → h0 ∉ hset (ConfirmedHeap c) →
  is_list (SnapshotList c) ((bs1 ++ x1 :: bs2) ++ x0 :: bs3) → increasing ((bs1 ++ x1 :: bs2) ++ x0 :: bs3) →
  x1.1 = h1 → x0.1 = h0 →
  ∃ pushed confirmed l image, TruncateSmtCacheList c h0 = Ok (with_image (with_heaps c pushed confirmed l) image h1) ∧
    hdata confirmed = [] ∧ is_list l bs1.
Proof.
  intros Hh Hpw HP Hmin Hcw Hc1 Hnew Hl Hi Hx1 Hx0. unfold TruncateSmtCacheList.
  destruct (ThreadSafePush_new (ConfirmedHeap c) h0 Hcw Hnew) as (cf & -> & Hcw1 & HP1 & _). rewrite bind_Ok.
  rewrite Hc1 in HP1. pose proof (Permutation_length HP1) as ->. cbn [length].
  assert (Forall (λ y, h0 < y) (h1 :: hs)) as Hmin0 by (constructor; [lia|]; eapply Forall_impl; [exact Hmin|]; cbn; lia).
  destruct (truncate_turn 1 (PushedHeap c) cf (SnapshotList c) 0 h0 (h1 :: hs) [h1] (bs1 ++ x1 :: bs2) x0 bs3)
    as (p1 & c1 & l1 & -> & Hpw1 & HP1' & _ & Hcw2 & HC1 & _ & Hl1); try done; [lia|repeat constructor; lia|].
  destruct (truncate_turn 0 p1 c1 l1 h0 h1 hs [] bs1 x1 bs2)
    as (p2 & c2 & l2 & -> & _ & _ & _ & _ & HC2 & _ & Hl2); try done; [lia|by apply increasing_app in Hi as (? & _)|].
  apply Permutation_nil_r in HC2. rewrite truncate_end, bind_Ok by done. destruct (Z.ltb_spec 0 h1); [|lia]. cbn [SnapshotList with_heaps].
  destruct (getAll_reads l2 bs1 Hl2) as (o & ok & -> & _). rewrite bind_Ok. by exists p2, c2, l2, (default ∅ o).
Qed.

(** * The invariant *)

Section Inv.
Context {T : Type} `{KVCursorLaws T} `{!KVTxLaws T}.
Context (torder : tables → list (string * bucket)).
Context (torder_perm : ∀ ts, torder ts ≡ₚ map_to_list ts).
Context (init : T).

(** What is not in the database yet: the current batch, what is to be pushed, and
    the saves of the channel and the workers, the oldest last. *)
Definition pending (cur tp : list block) (segs : list (list block)) : list block := cur ++ tp ++ concat (rev segs).

Definition save_of (save : SmtCacheSave) (seg : list block) : Prop :=
  seg ≠ [] ∧ reads_as (SmtData save) seg ∧ SaveHeight save = newest seg.

Record inv (s : system T) (cur tp : list block) (segs : list (list block)) (old : list block) : Prop := {
  i_ok : Forall block_ok (pending cur tp segs ++ old);
  i_inc : increasing (pending cur tp segs ++ old);
  i_last : newest (pending cur tp segs ++ old) ≤ LastRecordBlockHeight (sy_cache s);
  i_current : is_list (CurrentBatchList (sy_cache s)) cur;
  i_topush : reads_as (ToPushedSmtCache (sy_cache s)) tp;
  i_saves : Forall2 save_of (flying s ++ SmtCacheDataCh (sy_cache s)) segs;
  i_db : ∀ b k, kv_GetOne (sy_db s) b k = match written old b k with Some v => Ok v | None => kv_GetOne init b k end;
  i_pushed : heap_wf (PushedHeap (sy_cache s));
  i_pushed_data : hdata (PushedHeap (sy_cache s)) ≡ₚ newest <$> segs;
  i_pushed_set : ∀ x, x ∈ hset (PushedHeap (sy_cache s)) → x ≤ newest (concat (rev segs) ++ old);
  i_confirmed : heap_wf (ConfirmedHeap (sy_cache s));
  i_confirmed_data : hdata (ConfirmedHeap (sy_cache s)) = [];
  i_confirmed_set : ∀ x, x ∈ hset (ConfirmedHeap (sy_cache s)) → x ≤ newest old;
  i_snapshots : ∃ rest more, old = rest ++ more ∧ is_list (SnapshotList (sy_cache s)) (pending cur tp segs ++ rest);
  i_longLived : ∃ rest more, old = rest ++ more ∧ reads_as (LongLivedSmtCache (sy_cache s)) (pending cur tp segs ++ rest);
}.

(** The next block reads the newest writes. *)
Lemma inv_read s cur tp segs old b k :
  inv s cur tp segs old →
  read s b k = match written (pending cur tp segs ++ old) b k with Some v => Ok v | None => kv_GetOne init b k end.
Proof.
  intros Hi. destruct (i_longLived _ _ _ _ _ Hi) as (rest & more & Eo & Hr). unfold read, GetSmtCache.
  rewrite Hr, (i_db _ _ _ _ _ Hi), Eo, !written_app. destruct (written (pending cur tp segs) b k); [done|]. by destruct (written rest b k).
Qed.

Lemma inv_init : inv (mkSystem CreateNewSmtCache init []) [] [] [] [].
Proof.
  split; cbn; try done; try apply NewSmtCacheList_spec; try apply NewUint64MinHeap_wf.
  - exists [], []. split; [done|]. apply NewSmtCacheList_spec.
  - by exists [], [].
Qed.

Lemma reads_as_block n d : reads_as d [(n, d)].
Proof. intros b k. rewrite written_cons. cbn [snd]. destruct (lookup2 d b k); [done|]. by rewrite <-(lookup2_empty b k). Qed.

Lemma inv_block s cur tp segs old n d :
  inv s cur tp segs old → block_ok (n, d) → newest (pending cur tp segs ++ old) < n →
  ∃ s', step torder s (Block n d) = Ok (Some s') ∧ inv s' ((n, d) :: cur) tp segs old.
Proof.
  intros [Hok Hinc Hlr Hc Htp Hs Hdb Hp Hpd Hps Hcf Hcd Hcs (r1 & m1 & E1 & Hsn) (r2 & m2 & E2 & Hll)] Hb Hn.
  cbn [step]. unfold SetSmtCache. destruct (Push_spec _ _ n d Hsn) as (sn & -> & Hsn' & _). rewrite bind_Ok.
  destruct (Push_spec _ _ n d Hc) as (cu & -> & Hc' & _). rewrite !bind_Ok. eexists. split; [done|].
  split; cbn [sy_cache sy_db flying CurrentBatchList ToPushedSmtCache SmtCacheDataCh PushedHeap ConfirmedHeap SnapshotList LongLivedSmtCache LastRecordBlockHeight]; try done.
  - by constructor.
  - split; [|exact Hinc]. split; [apply Hb|exact Hn].
  - by exists r1, m1.
  - exists r2, m2. split; [done|]. apply (reads_as_overlay _ _ _ [(n, d)] Hll), reads_as_block.
Qed.

(** ** Handing over *)

Lemma pending_flush cur tp segs : pending [] (cur ++ tp) segs = pending cur tp segs.
Proof. unfold pending. cbn [app]. by rewrite <-app_assoc. Qed.

Lemma pending_push cur tp segs : pending [] [] (segs ++ [cur ++ tp]) = pending cur tp segs.
Proof. unfold pending. cbn [app]. rewrite rev_app_distr. cbn. by rewrite <-app_assoc. Qed.

Definition with_cache (s : system T) (c : SmtCache) : system T := mkSystem c (sy_db s) (flying s).

Lemma merge_current_inv s cur tp segs old :
  inv s cur tp segs old → ∃ c, merge_current (sy_cache s) = Ok c ∧ inv (with_cache s c) [] (cur ++ tp) segs old ∧
    SmtCacheDataCh c = SmtCacheDataCh (sy_cache s).
Proof.
  intros [Hok Hinc Hlr Hc Htp Hs Hdb Hp Hpd Hps Hcf Hcd Hcs Hsn Hll]. unfold merge_current.
  destruct (getAll_reads _ _ Hc) as (o & ok & -> & Ho). rewrite bind_Ok. eexists. split; [done|]. split; [|done]. split; rewrite ?pending_flush; try done.
  - apply NewSmtCacheList_spec.
  - by apply reads_as_overlay.
Qed.

Lemma reset_longLived_inv s cur tp segs old h :
  inv s cur tp segs old → ∃ c, reset_longLived (sy_cache s) h = Ok c ∧ inv (with_cache s c) cur tp segs old ∧
    SmtCacheDataCh c = SmtCacheDataCh (sy_cache s).
Proof.
  intros Hi. unfold reset_longLived. destruct (_ <? _); [|exists (sy_cache s); split; [done|]; split; [|done]; by destruct s].
  destruct Hi as [Hok Hinc Hlr Hc Htp Hs Hdb Hp Hpd Hps Hcf Hcd Hcs (r1 & m1 & E1 & Hsn) Hll].
  destruct (getAll_reads _ _ Hsn) as (o & ok & -> & Ho). rewrite bind_Ok. eexists. split; [done|]. split; [|done]. split; try done; by exists r1, m1.
Qed.

Lemma Forall2_snoc {A B} (P : A → B → Prop) l1 l2 x y : Forall2 P l1 l2 → P x y → Forall2 P (l1 ++ [x]) (l2 ++ [y]).
Proof. intros H1' H2'. apply Forall2_app; [done|by constructor]. Qed.

Lemma push_data_inv s tp segs old batchPush grace :
  inv s [] tp segs old → tp ≠ [] →
  ∃ e c, push_data (sy_cache s) (newest tp) batchPush grace = Ok (e, c) ∧
    ((inv (with_cache s c) [] tp segs old ∧ (grace = false ∨ (1000 ≤ length (SmtCacheDataCh (sy_cache s)))%nat)) ∨
     inv (with_cache s c) [] [] (segs ++ [tp]) old).
Proof.
  intros Hi Hne. unfold push_data. assert (with_cache s (sy_cache s) = s) as Es by (by destruct s).
  destruct (_ && negb grace) eqn:Eg.
  { do 2 eexists. split; [done|]. left. rewrite Es. split; [done|]. left. by apply andb_true_iff in Eg as [_ ?%negb_true_iff]. }
  destruct (Nat.ltb_spec (length (SmtCacheDataCh (sy_cache s))) channelSize) as [Hch|Hch];
    [|do 2 eexists; split; [done|]; left; rewrite Es; split; [done|by right]].
  destruct Hi as [Hok Hinc Hlr Hc Htp Hs Hdb Hp Hpd Hps Hcf Hcd Hcs Hsn Hll].
  assert (newest (concat (rev segs) ++ old) < newest tp) as Hlt.
  { destruct tp as [|x tp]; [done|]. unfold pending in Hinc. cbn [app] in Hinc. destruct Hinc as [[Hpos Hx] Hinc]. cbn [newest].
    rewrite <-app_assoc in Hx. destruct tp as [|y tp]; [done|]. rewrite <-app_assoc in Hinc.
    apply increasing_app in Hinc as (_ & _ & Hlt). cbn in Hx. destruct (concat (rev segs) ++ old) as [|z zs]; [cbn; lia|].
    specialize (Hlt y z ltac:(by left) ltac:(by left)). cbn. lia. }
  destruct (ThreadSafePush_new (PushedHeap (sy_cache s)) (newest tp) Hp) as (ph & -> & Hph & HP & Hset).
  { intros Hin%Hps. lia. }
  rewrite bind_Ok. do 2 eexists. split; [done|]. right. pose proof (pending_push [] tp segs) as Ep. cbn [app] in Ep.
  split; cbn [with_cache sy_cache sy_db flying CurrentBatchList ToPushedSmtCache SmtCacheDataCh PushedHeap ConfirmedHeap SnapshotList LongLivedSmtCache LastRecordBlockHeight];
    rewrite ?Ep; try done.
  - rewrite app_assoc. apply Forall2_snoc; [done|]. by split.
  - rewrite HP, Hpd, fmap_app. cbn. by rewrite Permutation_cons_append.
  - intros x. rewrite Hset, elem_of_union, elem_of_singleton, rev_app_distr. cbn. rewrite <-app_assoc.
    assert (newest (tp ++ concat (rev segs) ++ old) = newest tp) as -> by (by destruct tp). intros [->|Hx%Hps]; lia.
Qed.

Lemma inv_flush s cur tp segs old batchPush grace :
  inv s cur tp segs old → cur ++ tp ≠ [] →
  ∃ s', step torder s (FlushBatch batchPush grace) = Ok (Some s') ∧
    ((inv s' [] (cur ++ tp) segs old ∧ (grace = false ∨ (1000 ≤ length (SmtCacheDataCh (sy_cache s)))%nat)) ∨
     inv s' [] [] (segs ++ [cur ++ tp]) old).
Proof.
  intros Hi Hne. cbn [step]. unfold FlushSmtCache. destruct (merge_current_inv _ _ _ _ _ Hi) as (c1 & -> & Hi1 & Ech1). rewrite bind_Ok.
  pose proof (i_topush _ _ _ _ _ Hi1) as Htp. pose proof (i_ok _ _ _ _ _ Hi1) as Hok. unfold pending in Hok.
  rewrite !Forall_app in Hok. rewrite (lastHeight_newest _ (cur ++ tp)) by (done || (apply Forall_app; naive_solver)). rewrite bind_Ok.
  destruct (reset_longLived_inv _ _ _ _ _ (newest (cur ++ tp)) Hi1) as (c2 & E2 & Hi2 & Ech2). cbn [with_cache sy_cache] in E2, Ech2. rewrite E2, bind_Ok.
  destruct (push_data_inv _ _ _ _ batchPush grace Hi2 Hne) as (e & c3 & E3 & Hi3). cbn [with_cache sy_cache] in E3, Hi3. rewrite E3, bind_Ok.
  rewrite Ech2, Ech1 in Hi3.
  by eexists.
Qed.

Lemma inv_dispatch s cur tp segs old :
  inv s cur tp segs old →
  ∃ o, step torder s Dispatch = Ok o ∧
    match o with
    | Some s' => inv s' cur tp segs old ∧ length (flying s') = S (length (flying s)) ∧
        length (SmtCacheDataCh (sy_cache s)) = S (length (SmtCacheDataCh (sy_cache s')))
    | None => SmtCacheDataCh (sy_cache s) = [] ∨ (6 ≤ length (flying s))%nat
    end.
Proof.
  intros [Hok Hinc Hlr Hc Htp Hs Hdb Hp Hpd Hps Hcf Hcd Hcs Hsn Hll]. cbn [step].
  destruct (Nat.ltb_spec (length (flying s)) maxWorkers) as [Hw|Hw]; [|eexists; split; [done|]; by right].
  destruct (SmtCacheDataCh (sy_cache s)) as [|save ch] eqn:Ech; [eexists; split; [done|]; by left|]. eexists. split; [done|].
  split; [|split; [cbn; by rewrite length_app, Nat.add_comm|done]].
  split; cbn [sy_cache sy_db flying CurrentBatchList ToPushedSmtCache SmtCacheDataCh PushedHeap ConfirmedHeap SnapshotList LongLivedSmtCache LastRecordBlockHeight]; try done.
  by rewrite <-app_assoc.
Qed.

(** ** Finishing in order *)

Lemma pending_first cur tp seg segs old : pending cur tp (seg :: segs) ++ old = pending cur tp segs ++ seg ++ old.
Proof. unfold pending. cbn [rev]. rewrite concat_app. cbn. by rewrite app_nil_r, <-!app_assoc. Qed.

Lemma save_flush (db : T) (c : SmtCache) save :
  ∃ db', (∀ b k, kv_GetOne db' b k = match lookup2 (SmtData save) b k with Some v => Ok v | None => kv_GetOne db b k end) ∧
    FlushDataToDB torder db c save = (c ← TruncateSmtCacheList c (SaveHeight save); Ok (db', c)).
Proof.
  unfold FlushDataToDB. set (batch := Mapmutation.SetCache _ _).
  destruct (Flush_spec torder batch db) as (m' & db' & -> & Hg); [apply torder_perm|done|]. by exists db'.
Qed.

(** The saves that wait are newer than a block before them. *)
Lemma segs_above svs cur tp segs x bs :
  Forall2 save_of svs segs → increasing (pending cur tp segs ++ x :: bs) → Forall (λ y, x.1 < y) (newest <$> segs).
Proof.
  intros Hs (_ & _ & Hlt)%increasing_app. apply Forall_fmap, Forall_forall. intros sg Hsg. cbn.
  pose proof Hsg as [i Hi]%list_elem_of_lookup. destruct (Forall2_lookup_r _ _ _ _ _ Hs Hi) as (sv & _ & Hsne & _).
  destruct sg as [|y sg]; [done|]. cbn [newest]. apply Hlt; [|by left]. unfold pending. rewrite !elem_of_app. right. right.
  apply list_elem_of_In, in_concat. exists (y :: sg). split; [|by left]. apply in_rev. rewrite rev_involutive. by apply list_elem_of_In.
Qed.

Lemma inv_finish s cur tp segs old :
  inv s cur tp segs old →
  ∃ o, step torder s (Finish 0) = Ok o ∧
    match o with
    | Some s' => ∃ seg segs', segs = seg :: segs' ∧ inv s' cur tp segs' (seg ++ old) ∧
        length (flying s) = S (length (flying s')) ∧ SmtCacheDataCh (sy_cache s') = SmtCacheDataCh (sy_cache s)
    | None => flying s = []
    end.
Proof.
  intros [Hok Hinc Hlr Hc Htp Hs Hdb Hp Hpd Hps Hcf Hcd Hcs (r1 & m1 & E1 & Hsn) (r2 & m2 & E2 & Hll)]. cbn [step].
  destruct (flying s) as [|save fl] eqn:Ef; [by exists None|]. cbn [lookup list_lookup].
  destruct segs as [|seg segs]; [by apply Forall2_nil_inv_r in Hs|]. apply Forall2_cons in Hs as [(Hne & Hr & Hh) Hs].
  destruct (save_flush (sy_db s) (sy_cache s) save) as (db' & Hg & ->). rewrite pending_first in Hok, Hinc, Hlr, Hsn, Hll.
  destruct seg as [|x seg]; [done|]. cbn [newest] in Hh. rewrite Hh.
  assert (0 < x.1) as Hx by (apply Forall_app in Hok as [_ Hok]; apply Forall_cons in Hok as [[Hx _] _]; lia).
  assert (newest old < x.1) as Hold.
  { apply increasing_app in Hinc as (_ & Hinc & _). destruct old as [|y old]; [done|].
    change ((x :: seg) ++ y :: old) with (([x] ++ seg) ++ y :: old) in Hinc. apply increasing_app in Hinc as (_ & _ & Hlt).
    apply Hlt; left. }
  assert (pending cur tp segs ++ (x :: seg) ++ old = (pending cur tp segs ++ (x :: seg) ++ r1) ++ m1) as EB by (by rewrite E1, <-!app_assoc).
  destruct (Truncate_spec (sy_cache s) x.1 (newest <$> segs) (pending cur tp segs) x (seg ++ r1))
    as (pushed & confirmed & l & image & -> & Hpw & HPp & Hpset & Hcw & Hc0 & Hcset & Hl); try done.
  { by eapply segs_above. }
  { intros Hin%Hcs. lia. }
  { rewrite EB in Hinc. by apply increasing_app in Hinc as (? & _). }
  rewrite !bind_Ok. eexists. split; [done|]. exists (x :: seg), segs. split; [done|]. split; [|done].
  split; cbn [sy_cache sy_db flying CurrentBatchList ToPushedSmtCache SmtCacheDataCh PushedHeap ConfirmedHeap SnapshotList LongLivedSmtCache LastRecordBlockHeight with_image with_heaps]; try done.
  - intros b k. rewrite Hg, Hr, Hdb, written_app. by destruct (written (x :: seg) b k).
  - intros y. rewrite Hpset. intros Hy%Hps. cbn [rev] in Hy. rewrite concat_app in Hy. cbn [concat] in Hy. by rewrite app_nil_r, <-app_assoc in Hy.
  - intros y. rewrite Hcset, elem_of_union, elem_of_singleton. cbn. intros [->|Hy%Hcs]; lia.
  - exists [], ((x :: seg) ++ old). split; [done|]. by rewrite app_nil_r.
  - exists ((x :: seg) ++ r2), m2. split; [by rewrite E2, <-app_assoc|]. done.
Qed.
(** ** Resetting the batch *)

Lemma filter_ext_in {A} (P Q : A → Prop) `{!∀ x, Decision (P x)} `{!∀ x, Decision (Q x)} (l : list A) :
  (∀ x, x ∈ l → P x ↔ Q x) → filter P l = filter Q l.
Proof.
  induction l as [|x l IH]; intros Hl; [done|]. rewrite !filter_cons, IH by (intros; apply Hl; by right).
  specialize (Hl x ltac:(left)). destruct (decide (P x)), (decide (Q x)); tauto.
Qed.

Lemma filter_all {A} (P : A → Prop) `{!∀ x, Decision (P x)} (l : list A) : (∀ x, x ∈ l → P x) → filter P l = l.
Proof.
  induction l as [|x l IH]; intros Hl; [done|]. rewrite filter_cons_True by (apply Hl; left). f_equal. apply IH. intros. apply Hl. by right.
Qed.

Definition below (h : Z) (bs : list block) : list block := filter (λ x, x.1 < h) bs.

Lemma increasing_filter P `{!∀ x, Decision (P x)} bs : increasing bs → increasing (filter P bs) ∧ newest (filter P bs) ≤ Z.max 0 (newest bs).
Proof.
  induction bs as [|x bs IH]; [done|]. intros [Hx Hi]. destruct (IH Hi) as [IH1 IH2]. rewrite filter_cons.
  destruct (decide (P x)); cbn [newest increasing]; [split; [split; [lia|done]|lia]|split; [done|lia]].
Qed.

Lemma delete_filter bs h :
  increasing bs →
  match list_find (with_height h) bs with Some (j, _) => delete j bs | None => bs end = filter (λ x, x.1 ≠ h) bs.
Proof.
  induction bs as [|x bs IH]; [done|]. intros [Hx Hi]. cbn [list_find]. rewrite filter_cons.
  assert (∀ y, y ∈ bs → y.1 < x.1) as Hlt by (intros y Hy%(increasing_newest _ _ Hi); lia).
  destruct (decide (with_height h x)) as [E|E]; unfold with_height in E.
  - cbn [delete list_delete]. destruct (decide (x.1 ≠ h)); [done|]. symmetry. apply filter_all.
    intros y Hy%Hlt. lia.
  - destruct (decide (x.1 ≠ h)); [|done]. rewrite <-IH by done. destruct (list_find (with_height h) bs) as [[j y]|]; done.
Qed.

Lemma delete_blocks_spec hs : ∀ l bs,
  is_list l bs → increasing bs → ∃ l', delete_blocks l hs = Ok l' ∧ is_list l' (filter (λ x, x.1 ∉ hs) bs).
Proof.
  unfold delete_blocks. induction hs as [|h hs IH]; intros l bs Hl Hi; cbn [foldM].
  { exists l. split; [done|]. rewrite filter_all; [done|]. intros x _. apply not_elem_of_nil. }
  destruct (deleteTarget_spec l bs h Hl) as (l1 & -> & Hl1). rewrite !bind_Ok. rewrite delete_filter in Hl1 by done.
  destruct (IH l1 _ Hl1) as (l2 & E & Hl2); [by apply increasing_filter|]. exists l2. split; [done|].
  rewrite list_filter_filter in Hl2. erewrite list_filter_iff; [exact Hl2|]. intros x. rewrite not_elem_of_cons. tauto.
Qed.

Lemma below_reset bs h last n :
  increasing bs → newest bs ≤ last → filter (λ x, x.1 ∉ replicate n 0 ++ seqZ h (last - h + 1)) bs = below h bs.
Proof.
  intros Hi Hn. apply filter_ext_in. intros x Hx.
  pose proof (increasing_newest _ _ Hi Hx). rewrite elem_of_app, elem_of_replicate, elem_of_seqZ.
  assert (0 < x.1) by (clear -Hi Hx; induction bs as [|y bs IH]; [by apply elem_of_nil in Hx|]; destruct Hi as [Hy Hi];
    apply elem_of_cons in Hx as [->|Hx]; [lia|auto]). lia.
Qed.

Lemma below_app h bs1 bs2 : increasing (bs1 ++ bs2) → newest bs2 < h → below h (bs1 ++ bs2) = below h bs1 ++ bs2.
Proof.
  intros (_ & Hi & _)%increasing_app Hn. unfold below. rewrite filter_app. f_equal. apply filter_all.
  intros y Hy%(increasing_newest _ _ Hi). lia.
Qed.
Lemma newest_prefix bs1 bs2 : increasing (bs1 ++ bs2) → newest bs1 ≤ newest (bs1 ++ bs2).
Proof. destruct bs1 as [|x bs1]; [|done]. destruct bs2 as [|y bs2]; [done|]. cbn. lia. Qed.

Lemma newest_nonneg bs : increasing bs → 0 ≤ newest bs.
Proof. destruct bs; [done|]. cbn. lia. Qed.

Lemma reset_zeros h last : h ≤ last ≤ h + 1 → ∃ n, make_uint64s (u64 (h - last + 1)) = Ok (replicate n 0).
Proof.
  intros Hl. unfold make_uint64s, u64. rewrite Z.mod_small by lia. destruct (Z.ltb_spec (2 ^ 45) (h - last + 1)); [lia|]. by eexists.
Qed.

Lemma reset_lists l bs1 bs2 h last n :
  is_list l (bs1 ++ bs2) → increasing (bs1 ++ bs2) → newest (bs1 ++ bs2) ≤ last → newest bs2 < h →
  ∃ l', delete_blocks l (replicate n 0 ++ seqZ h (last - h + 1)) = Ok l' ∧ is_list l' (below h bs1 ++ bs2).
Proof.
  intros Hl Hi Hn Hh. destruct (delete_blocks_spec (replicate n 0 ++ seqZ h (last - h + 1)) l _ Hl Hi) as (l' & E & Hl').
  exists l'. split; [done|]. by rewrite below_reset, below_app in Hl'.
Qed.

Lemma inv_reset s cur tp segs old h :
  inv s cur tp segs old → newest (tp ++ concat (rev segs) ++ old) < h → LastRecordBlockHeight (sy_cache s) ≤ h + 1 →
  ∃ s', step torder s (ResetBatch h) = Ok (Some s') ∧ inv s' (below h cur) tp segs old.
Proof.
  intros Hi Hrest Hlast. cbn [step]. unfold ResetCurrentBatch.
  pose proof (i_inc _ _ _ _ _ Hi) as Hinc. pose proof (i_last _ _ _ _ _ Hi) as Hlr.
  assert (pending cur tp segs ++ old = cur ++ tp ++ concat (rev segs) ++ old) as Ep by (unfold pending; by rewrite <-!app_assoc).
  rewrite Ep in Hinc, Hlr. pose proof (increasing_app _ _ Hinc) as (Hic & _ & _).
  destruct (Z.ltb_spec (LastRecordBlockHeight (sy_cache s)) h) as [Hlt|Hle].
  { rewrite bind_Ok. eexists. split; [done|]. assert (below h cur = cur) as ->; [|by destruct s].
    apply filter_all. intros x Hx%(increasing_newest _ _ Hic). pose proof (newest_prefix _ _ Hinc). lia. }
  destruct Hi as [Hok _ _ Hc Htp Hs Hdb Hp Hpd Hps Hcf Hcd Hcs (r1 & m1 & E1 & Hsn) _].
  set (last := LastRecordBlockHeight (sy_cache s)) in *. destruct (reset_zeros h last) as (n & ->); [lia|]. rewrite bind_Ok.
  destruct (reset_lists (CurrentBatchList (sy_cache s)) cur [] h last n) as (cu & -> & Hcu).
  { by rewrite app_nil_r. }
  { by rewrite app_nil_r. }
  { rewrite app_nil_r. pose proof (newest_prefix _ _ Hinc). lia. }
  { cbn. pose proof (newest_nonneg _ (proj1 (proj2 (increasing_app _ _ Hinc)))). lia. }
  rewrite app_nil_r in Hcu. rewrite bind_Ok.
  assert (pending (below h cur) tp segs ++ old = below h (pending cur tp segs ++ old)) as Eb.
  { rewrite Ep, below_app by done. unfold pending. by rewrite <-!app_assoc. }
  destruct (increasing_filter (λ x, x.1 < h) (pending cur tp segs ++ old)) as [Hinc' Hn']; [by rewrite Ep|].
  assert (cur ++ tp ++ concat (rev segs) ++ old = (cur ++ tp ++ concat (rev segs) ++ r1) ++ m1) as Em by (by rewrite E1, <-!app_assoc).
  destruct (reset_lists (SnapshotList (sy_cache s)) cur (tp ++ concat (rev segs) ++ r1) h last n)
    as (sn & -> & Hsn').
  { unfold pending in Hsn. by rewrite <-!app_assoc in Hsn. }
  { rewrite Em in Hinc. by apply increasing_app in Hinc as (? & _). }
  { rewrite Em in Hinc, Hlr. pose proof (newest_prefix _ _ Hinc). lia. }
  { apply increasing_app in Hinc as (_ & Hinc & _).
    assert (tp ++ concat (rev segs) ++ old = (tp ++ concat (rev segs) ++ r1) ++ m1) as Em' by (by rewrite E1, <-!app_assoc).
    rewrite Em' in Hinc, Hrest. pose proof (newest_prefix _ _ Hinc). lia. }
  rewrite bind_Ok. destruct (getAll_reads sn _ Hsn') as (o & ok & -> & Ho). rewrite !bind_Ok. eexists. split; [done|].
  assert (pending (below h cur) tp segs ++ r1 = below h cur ++ tp ++ concat (rev segs) ++ r1) as Er by (unfold pending; by rewrite <-!app_assoc).
  split; cbn [with_longLived with_lists sy_cache sy_db flying CurrentBatchList ToPushedSmtCache SmtCacheDataCh PushedHeap ConfirmedHeap SnapshotList LongLivedSmtCache LastRecordBlockHeight];
    rewrite ?Eb; try done.
  - apply Forall_forall. intros x [_ Hx]%list_elem_of_filter. rewrite Forall_forall in Hok. auto.
  - unfold below. rewrite Ep in Hn' |- *. pose proof (newest_nonneg _ Hinc). lia.
  - exists r1, m1. by rewrite Er.
  - exists r1, m1. by rewrite Er.
Qed.

(** * Runs *)

(** What the sequencer does: block heights grow, every block records its height, a
    batch is handed over when there is something to hand over, and only blocks of
    the current batch are reset, at most two.  Of the workers the first to start is
    the first to finish.  [cur] is the current batch, [rest] the earlier blocks. *)
Definition allowed (cur rest : list block) (s : system T) (a : action) : Prop :=
  match a with
  | Block n d => block_ok (n, d) ∧ newest (cur ++ rest) < n
  | FlushBatch _ _ => cur ≠ [] ∨ lastHeight (ToPushedSmtCache (sy_cache s)) ≠ None
  | ResetBatch h => newest rest < h ∧ LastRecordBlockHeight (sy_cache s) ≤ h + 1
  | Dispatch => True
  | Finish w => w = 0%nat
  end.

(** The blocks after an action. *)
Definition after (cur rest : list block) (a : action) : list block * list block :=
  match a with
  | Block n d => ((n, d) :: cur, rest)
  | FlushBatch _ _ => ([], cur ++ rest)
  | ResetBatch h => (below h cur, rest)
  | _ => (cur, rest)
  end.

Inductive reaches : list block → list block → system T → Prop :=
  | reaches_init : reaches [] [] (mkSystem CreateNewSmtCache init [])
  | reaches_step cur rest s a s' :
      reaches cur rest s → allowed cur rest s a → step torder s a = Ok (Some s') →
      reaches (after cur rest a).1 (after cur rest a).2 s'.

Definition inv_rest (s : system T) (cur rest : list block) : Prop :=
  ∃ tp segs old, rest = tp ++ concat (rev segs) ++ old ∧ inv s cur tp segs old.

Lemma pending_rest cur tp segs old : pending cur tp segs ++ old = cur ++ tp ++ concat (rev segs) ++ old.
Proof. unfold pending. by rewrite <-!app_assoc. Qed.

Lemma lastHeight_rest t tp : reads_as t tp → lastHeight t ≠ None → tp ≠ [].
Proof. intros Hr Hl ->. apply Hl. unfold lastHeight. by rewrite Hr. Qed.

Lemma lastHeight_empty t : reads_as t [] → lastHeight t = None.
Proof. intros Hr. unfold lastHeight. by rewrite Hr. Qed.

Lemma lastHeight_none t tp : reads_as t tp → Forall block_ok tp → lastHeight t = None → tp = [].
Proof.
  intros Hr Hok. destruct tp as [|x tp]; [done|]. apply Forall_cons in Hok as [[_ Hx] _]. unfold lastHeight.
  by rewrite Hr, written_cons, Hx.
Qed.

Lemma inv_step s cur rest a :
  inv_rest s cur rest → allowed cur rest s a →
  ∃ o, step torder s a = Ok o ∧ match o with Some s' => inv_rest s' (after cur rest a).1 (after cur rest a).2 | None => True end.
Proof.
  intros (tp & segs & old & -> & Hi). destruct a as [n d|batchPush grace|h| |w]; cbn [allowed after fst snd].
  - intros [Hb Hn]. rewrite <-pending_rest in Hn. destruct (inv_block _ _ _ _ _ n d Hi Hb Hn) as (s' & -> & Hi').
    eexists. split; [done|]. by exists tp, segs, old.
  - intros Ha. destruct (inv_flush s cur tp segs old batchPush grace Hi) as (s' & -> & Hi').
    { destruct Ha as [Ha|Ha%(lastHeight_rest _ _ (i_topush _ _ _ _ _ Hi))]; by destruct cur, tp. }
    eexists. split; [done|]. destruct Hi' as [[Hi' _]|Hi'].
    + exists (cur ++ tp), segs, old. by rewrite <-app_assoc.
    + exists [], (segs ++ [cur ++ tp]), old. rewrite rev_app_distr. cbn. by rewrite <-!app_assoc.
  - intros [Hh Hlast]. destruct (inv_reset _ _ _ _ _ h Hi Hh Hlast) as (s' & -> & Hi'). eexists. split; [done|]. by exists tp, segs, old.
  - intros _. destruct (inv_dispatch _ _ _ _ _ Hi) as ([s'|] & -> & Ho); [|by eexists].
    eexists. split; [done|]. exists tp, segs, old. naive_solver.
  - intros ->. destruct (inv_finish _ _ _ _ _ Hi) as ([s'|] & -> & Ho); [|by eexists].
    destruct Ho as (seg & segs' & -> & Hi' & _). eexists. split; [done|]. exists tp, segs', (seg ++ old). split; [|done].
    cbn [rev]. rewrite concat_app. cbn. by rewrite app_nil_r, <-!app_assoc.
Qed.

Lemma reaches_inv cur rest s : reaches cur rest s → inv_rest s cur rest.
Proof.
  induction 1 as [|cur rest s a s' _ IH Ha Hs]; [exists [], [], []; split; [done|apply inv_init]|].
  destruct (inv_step _ _ _ _ IH Ha) as (o & E & Ho). rewrite Hs in E. by injection E as <-.
Qed.

(** The value of a key after the blocks, over what the database had at first. *)
Definition truth (bs : list block) (b : string) (k : list byte) : outcome (option (list byte)) :=
  match written bs b k with Some v => Ok v | None => kv_GetOne init b k end.

(** Nothing is left to be written. *)
Definition idle (s : system T) : Prop := SmtCacheDataCh (sy_cache s) = [] ∧ flying s = [].

Lemma inv_idle s tp segs old b k :
  inv s [] tp segs old → idle s → lastHeight (ToPushedSmtCache (sy_cache s)) = None →
  kv_GetOne (sy_db s) b k = truth (tp ++ concat (rev segs) ++ old) b k.
Proof.
  intros Hi [Hch Hfl] Hl. pose proof (i_saves _ _ _ _ _ Hi) as Hs. rewrite Hch, Hfl in Hs. apply Forall2_nil_inv_l in Hs as ->.
  rewrite (i_db _ _ _ _ _ Hi), (lastHeight_none _ tp (i_topush _ _ _ _ _ Hi)); [done| |done].
  pose proof (i_ok _ _ _ _ _ Hi) as Hok. unfold pending in Hok. rewrite !Forall_app in Hok. naive_solver.
Qed.


(** ** Shutdown *)

(** The workers and the loop that starts them, and what is left for them to do. *)
Definition worker_action (a : action) : Prop := a = Dispatch ∨ a = Finish 0.

Definition work (s : system T) : nat := 2 * length (SmtCacheDataCh (sy_cache s)) + length (flying s).

Lemma save_step s segs old a s' :
  inv s [] [] segs old → worker_action a → step torder s a = Ok (Some s') →
  ∃ segs' old', concat (rev segs) ++ old = concat (rev segs') ++ old' ∧ inv s' [] [] segs' old' ∧ work s = S (work s').
Proof.
  intros Hi [->| ->] E; unfold work.
  - destruct (inv_dispatch _ _ _ _ _ Hi) as (o & E' & Ho). rewrite E in E'. injection E' as <-. destruct Ho as (Hi' & -> & ->).
    exists segs, old. split; [done|]. split; [done|lia].
  - destruct (inv_finish _ _ _ _ _ Hi) as (o & E' & Ho). rewrite E in E'. injection E' as <-.
    destruct Ho as (seg & segs' & -> & Hi' & -> & ->). exists segs', (seg ++ old). split; [|split; [done|lia]].
    cbn [rev]. rewrite concat_app. cbn. by rewrite app_nil_r, <-!app_assoc.
Qed.

Lemma save_run tr : ∀ s segs old s',
  inv s [] [] segs old → Forall worker_action tr → run torder s tr = Ok (Some s') →
  ∃ segs' old', concat (rev segs) ++ old = concat (rev segs') ++ old' ∧ inv s' [] [] segs' old' ∧ work s = (length tr + work s')%nat.
Proof.
  induction tr as [|a tr IH]; intros s segs old s' Hi Htr E; cbn [run] in E; [injection E as <-; eauto|].
  apply Forall_cons in Htr as [Ha Htr]. apply bind_Ok_inv in E as ([s1|] & E1 & E2); [|done].
  destruct (save_step _ _ _ _ _ Hi Ha E1) as (segs1 & old1 & -> & Hi1 & ->).
  destruct (IH _ _ _ _ Hi1 Htr E2) as (segs2 & old2 & -> & Hi2 & ->). exists segs2, old2. split; [done|]. split; [done|cbn; lia].
Qed.

Lemma save_progress s segs old :
  inv s [] [] segs old → ¬ idle s → ∃ a s', worker_action a ∧ step torder s a = Ok (Some s').
Proof.
  intros Hi Hn. destruct (inv_finish _ _ _ _ _ Hi) as ([s'|] & E & Ho); [exists (Finish 0), s'; split; [by right|done]|].
  destruct (inv_dispatch _ _ _ _ _ Hi) as ([s'|] & E' & Ho'); [exists Dispatch, s'; split; [by left|done]|].
  destruct Hn. destruct Ho' as [Hc|Hw]; [by split|]. rewrite Ho in Hw. cbn in Hw. lia.
Qed.

(** C22. A shutdown loses nothing.  When handleShutdown hands over the last batch and
    there is room in the channel, every schedule of the loop and the workers, in
    order, comes to an end after at most two steps for every waiting save, it is
    never stuck before that, and at its end the database has the newest write of
    every block. *)
Theorem shutdown_writes_everything cur rest s batchPush :
  reaches cur rest s → cur ≠ [] ∨ lastHeight (ToPushedSmtCache (sy_cache s)) ≠ None →
  (length (SmtCacheDataCh (sy_cache s)) < channelSize)%nat →
  ∃ s1, step torder s (FlushBatch batchPush true) = Ok (Some s1) ∧
    ∀ tr s', Forall worker_action tr → run torder s1 tr = Ok (Some s') →
      (length tr ≤ work s1)%nat ∧
      (idle s' → ∀ b k, kv_GetOne (sy_db s') b k = truth (cur ++ rest) b k) ∧
      (¬ idle s' → ∃ a s'', worker_action a ∧ step torder s' a = Ok (Some s'')).
Proof.
  intros (tp & segs & old & -> & Hi)%reaches_inv Ha Hroom. destruct (inv_flush s cur tp segs old batchPush true Hi) as (s1 & E & Hi').
  { destruct Ha as [Ha|Ha%(lastHeight_rest _ _ (i_topush _ _ _ _ _ Hi))]; by destruct cur, tp. }
  exists s1. split; [done|]. destruct Hi' as [[_ [?|Hfull]]|Hi']; [done|unfold channelSize in Hroom; lia|].
  intros tr s' Htr Er. destruct (save_run _ _ _ _ _ Hi' Htr Er) as (segs' & old' & Eo & Hi2 & ->). split; [lia|]. split.
  - intros Hidle b k. rewrite (inv_idle s' [] segs' old') by (done || apply (lastHeight_empty _ (i_topush _ _ _ _ _ Hi2))). cbn [app].
    rewrite <-Eo, rev_app_distr. cbn. by rewrite <-!app_assoc.
  - by apply save_progress with segs' old'.
Qed.
(** ** Workers that finish in another order *)

(** What a database reads after a save is written to it. *)
Definition over (save : SmtCacheSave) (db : string → list byte → outcome (option (list byte))) (b : string) (k : list byte)
    : outcome (option (list byte)) :=
  match lookup2 (SmtData save) b k with Some v => Ok v | None => db b k end.

(** The second worker finishes first: its height waits in the heap of the confirmed
    ones; then the first one finishes, and the blocks of both are dropped. *)
Lemma finish_late s cur tp segs old sv0 sv1 fl :
  inv s cur tp segs old → flying s = sv0 :: sv1 :: fl →
  ∃ late newer, run torder s [Finish 1; Finish 0] = Ok (Some late) ∧
    (∀ b k, kv_GetOne (sy_db late) b k = over sv0 (over sv1 (kv_GetOne (sy_db s))) b k) ∧
    hdata (ConfirmedHeap (sy_cache late)) = [] ∧ is_list (SnapshotList (sy_cache late)) newer ∧
    Forall (λ x, SaveHeight sv1 < x.1) newer.
Proof.
  intros [Hok Hinc _ _ _ Hs _ Hp Hpd _ Hcf Hcd Hcs (r1 & m1 & E1 & Hsn) _] Ef. rewrite Ef in Hs. cbn [app] in Hs.
  destruct segs as [|seg0 [|seg1 segs]]; [by apply Forall2_nil_inv_r in Hs|apply Forall2_cons in Hs as [_ Hs]; by apply Forall2_nil_inv_r in Hs|].
  apply Forall2_cons in Hs as [(Hne0 & _ & Hh0) [(Hne1 & _ & Hh1) Hs]%Forall2_cons].
  rewrite !pending_first in Hok, Hinc, Hsn. destruct seg0 as [|x0 seg0]; [done|]. destruct seg1 as [|x1 seg1]; [done|].
  cbn [newest fmap list_fmap app] in *. rewrite app_comm_cons, app_assoc in Hinc.
  pose proof (increasing_app _ _ Hinc) as (Hinc1 & Hinc0 & Hlt). pose proof (segs_above _ _ _ _ _ _ Hs Hinc1) as Habove.
  assert (newest old < x0.1 ∧ 0 < x0.1) as [Hold H0x].
  { assert (0 < x0.1) by apply Hinc0. split; [|done]. destruct old as [|y old]; [done|].
    apply (proj2 (proj2 (increasing_app (x0 :: seg0) (y :: old) Hinc0))); left. }
  assert (x0.1 < x1.1) as H01 by (apply Hlt; [apply elem_of_app; right; left|left]).
  cbn [run step]. rewrite Ef. cbn [lookup list_lookup]. destruct (save_flush (sy_db s) (sy_cache s) sv1) as (db1 & Hg1 & ->). rewrite Hh1.
  destruct (Truncate_wait (sy_cache s) x1.1 x0.1 (x1.1 :: (newest <$> segs))) as (cf & -> & Hcfw & Hcf1 & Hcfs); try done.
  { constructor; [done|]. eapply Forall_impl; [exact Habove|]. cbn. lia. }
  { intros Hin%Hcs. lia. }
  rewrite !bind_Ok. cbn [flying delete list_delete lookup list_lookup sy_db sy_cache]. set (c1 := with_heaps _ _ _ _).
  destruct (save_flush db1 c1 sv0) as (db0 & Hg0 & ->). rewrite Hh0.
  destruct (Truncate_two c1 x0.1 x1.1 (newest <$> segs) (pending cur tp segs) x1 seg1 x0 (seg0 ++ r1))
    as (pushed & confirmed & l & image & -> & Hc0 & Hl); try done.
  { cbn. rewrite Hcfs. intros [Hin%elem_of_singleton|Hin%Hcs]%elem_of_union; lia. }
  { cbn. by rewrite <-app_assoc. }
  { rewrite E1 in Hinc. rewrite !app_comm_cons, !app_assoc in Hinc. apply increasing_app in Hinc as (Hinc & _). by rewrite <-!app_assoc in *. }
  rewrite !bind_Ok. eexists _, (pending cur tp segs). split; [done|]. cbn [sy_db sy_cache ConfirmedHeap SnapshotList with_image with_heaps].
  split_and!; [|done|done|].
  - intros b k. unfold over. by rewrite Hg0, Hg1.
  - apply Forall_forall. intros y Hy. apply (proj2 (proj2 (increasing_app _ _ Hinc1)) y x1); [done|left].
Qed.

Lemma finish_db s w save s' :
  flying s !! w = Some save → step torder s (Finish w) = Ok (Some s') →
  (∀ b k, kv_GetOne (sy_db s') b k = over save (kv_GetOne (sy_db s)) b k) ∧ flying s' = delete w (flying s).
Proof.
  intros Hw. cbn [step]. rewrite Hw. destruct (save_flush (sy_db s) (sy_cache s) save) as (db & Hg & ->).
  intros ([db' c] & (c' & _ & [= <- <-])%bind_Ok_inv & [= <-])%bind_Ok_inv. split; [exact Hg|done].
Qed.

Lemma finish_in_order s cur tp segs old sv0 sv1 fl :
  inv s cur tp segs old → flying s = sv0 :: sv1 :: fl →
  ∃ s', run torder s [Finish 0; Finish 0] = Ok (Some s') ∧
    ∀ b k, kv_GetOne (sy_db s') b k = over sv1 (over sv0 (kv_GetOne (sy_db s))) b k.
Proof.
  intros Hi Ef. destruct (inv_finish _ _ _ _ _ Hi) as ([s1|] & E1 & Ho1); [|by rewrite Ef in Ho1].
  destruct Ho1 as (seg0 & segs1 & -> & Hi1 & _). destruct (finish_db s 0 sv0 s1) as [Hg1 Ef1]; [by rewrite Ef|done|].
  rewrite Ef in Ef1. cbn in Ef1. destruct (inv_finish _ _ _ _ _ Hi1) as ([s2|] & E2 & Ho2); [|by rewrite Ef1 in Ho2].
  destruct (finish_db s1 0 sv1 s2) as [Hg2 _]; [by rewrite Ef1|done|]. exists s2. cbn [run]. rewrite E1, bind_Ok, E2, bind_Ok.
  split; [done|]. intros b k. rewrite Hg2. unfold over. destruct (lookup2 (SmtData sv1) b k); [done|]. apply Hg1.
Qed.

(** C37. The order of the workers matters, and nothing enforces it.  In any state that
    the sequencer reaches with at least two workers under way, let the second one
    finish before the first: both saves are confirmed and the blocks of both dropped
    from the list of recent blocks, and the database has, for every key that both
    write, the older value; when they finish in order, it has the newer one.  Once the
    long-lived cache is reset to the recent blocks, the next block reads every key of
    the first save that no newer block writes with the value of the first save, whatever
    the second one wrote. *)
Theorem workers_out_of_order cur rest s sv0 sv1 fl :
  reaches cur rest s → flying s = sv0 :: sv1 :: fl →
  ∃ late in_order newer,
    run torder s [Finish 1; Finish 0] = Ok (Some late) ∧ run torder s [Finish 0; Finish 0] = Ok (Some in_order) ∧
    (∀ b k, kv_GetOne (sy_db late) b k = over sv0 (over sv1 (kv_GetOne (sy_db s))) b k) ∧
    (∀ b k, kv_GetOne (sy_db in_order) b k = over sv1 (over sv0 (kv_GetOne (sy_db s))) b k) ∧
    hdata (ConfirmedHeap (sy_cache late)) = [] ∧
    is_list (SnapshotList (sy_cache late)) newer ∧ Forall (λ x, SaveHeight sv1 < x.1) newer ∧
    (∀ h, 10 * flushSmtCachePeriod < u64 (h - LastResetHeight (sy_cache late)) →
      ∃ c, reset_longLived (sy_cache late) h = Ok c ∧
        ∀ b k v, written newer b k = None → lookup2 (SmtData sv0) b k = Some v →
          read (mkSystem c (sy_db late) (flying late)) b k = Ok v).
Proof.
  intros (tp & segs & old & -> & Hi)%reaches_inv Ef.
  destruct (finish_late _ _ _ _ _ _ _ _ Hi Ef) as (late & newer & El & Hdb & Hc & Hl & Hn).
  destruct (finish_in_order _ _ _ _ _ _ _ _ Hi Ef) as (in_order & Ei & Hdi).
  exists late, in_order, newer. split_and!; [done..|]. intros h Hh. unfold reset_longLived.
  destruct (Z.ltb_spec (10 * flushSmtCachePeriod) (u64 (h - LastResetHeight (sy_cache late)))); [|lia].
  destruct (getAll_reads _ _ Hl) as (o & ok & -> & Ho). rewrite bind_Ok. eexists. split; [done|].
  intros b k v Hw Hv. unfold read. cbn. rewrite Ho, Hw, Hdb. unfold over. by rewrite Hv.
Qed.
End Inv.

(** * Defects *)

(** ** A batch without blocks *)

Lemma top_zero h : heap_wf h → Forall (λ y, 0 ≤ y) (hdata h) → 0 ∈ hdata h → ThreadSafeTop h = (0, true).
Proof.
  intros Hwf Hpos H0. destruct (ThreadSafePop_spec h Hwf) as (x & h' & _ & _ & HP & _ & Hmin & ->).
  { intros E. rewrite E in H0. by apply elem_of_nil in H0. }
  rewrite HP in H0, Hpos. apply Forall_cons in Hpos as [Hx _]. apply elem_of_cons in H0 as [->|H0]; [done|].
  rewrite Forall_forall in Hmin. specialize (Hmin 0 H0). cbn in Hmin. by replace x with 0 by lia.
Qed.

Lemma truncate_zero fuel pushed confirmed l h :
  ThreadSafeTop pushed = (0, true) → truncate_loop fuel pushed confirmed l h = Ok (pushed, confirmed, l, h).
Proof.
  intros Hp. destruct fuel; cbn [truncate_loop]; rewrite Hp; destruct (ThreadSafeTop confirmed) as [x ?];
    (destruct (x =? 0) eqn:E; [apply Z.eqb_eq in E as ->|]; done).
Qed.

Lemma Truncate_zero c h :
  ThreadSafeTop (PushedHeap c) = (0, true) → heap_wf (ConfirmedHeap c) →
  ∃ c', TruncateSmtCacheList c h = Ok c' ∧ SnapshotList c' = SnapshotList c ∧ PushedHeap c' = PushedHeap c ∧ heap_wf (ConfirmedHeap c').
Proof.
  intros Hp Hc. unfold TruncateSmtCacheList. destruct (decide (h ∈ hset (ConfirmedHeap c))) as [Hh|Hh].
  - rewrite ThreadSafePush_seen, bind_Ok, truncate_zero, bind_Ok by done. by eexists.
  - destruct (ThreadSafePush_new _ _ Hc Hh) as (cf & -> & Hcf & _). rewrite bind_Ok, truncate_zero, bind_Ok by done. by eexists.
Qed.

Lemma Truncate_zeros heights : ∀ c,
  ThreadSafeTop (PushedHeap c) = (0, true) → heap_wf (ConfirmedHeap c) →
  ∃ c', foldM TruncateSmtCacheList c heights = Ok c' ∧ SnapshotList c' = SnapshotList c.
Proof.
  induction heights as [|h heights IH]; intros c Hp Hc; cbn [foldM]; [by exists c|].
  destruct (Truncate_zero c h Hp Hc) as (c1 & -> & Es & Ep & Hc1). rewrite bind_Ok, <-Es. apply IH; [by rewrite Ep|done].
Qed.

Lemma reset_longLived_keeps c bs h :
  is_list (SnapshotList c) bs → ∃ t n, reset_longLived c h = Ok (with_longLived c t n).
Proof.
  intros Hl. unfold reset_longLived. destruct (_ <? _).
  - rewrite (getAll_spec _ _ Hl). destruct bs; rewrite bind_Ok; by do 2 eexists.
  - exists (LongLivedSmtCache c), (LastResetHeight c). by destruct c.
Qed.

(** Handing over a batch without blocks stops the truncation for good.  When the
    current batch and what is to be pushed are empty, FlushSmtCache finds the height 0
    and pushes it; 0 is then the least pushed height, which TruncateSmtCacheList never
    takes out, and however many saves are confirmed after that, the list of recent
    blocks is never shortened. *)
Theorem empty_flush_stops_truncation c bs grace :
  is_list (SnapshotList c) bs → is_list (CurrentBatchList c) [] → ToPushedSmtCache c = ∅ → (length (SmtCacheDataCh c) < channelSize)%nat →
  heap_wf (PushedHeap c) → Forall (λ y, 0 < y) (hdata (PushedHeap c)) → 0 ∉ hset (PushedHeap c) → heap_wf (ConfirmedHeap c) →
  ∃ c', FlushSmtCache c false grace = Ok (None, c') ∧
    ∀ heights, ∃ c'', foldM TruncateSmtCacheList c' heights = Ok c'' ∧ SnapshotList c'' = SnapshotList c.
Proof.
  intros Hsn Hl Ht Hch Hp Hpos H0 Hcf. unfold FlushSmtCache, merge_current. rewrite (getAll_spec _ _ Hl), !bind_Ok. cbn [default].
  cbn [ToPushedSmtCache]. rewrite Ht. assert (lastHeight (overlay ∅ ∅) = None) as -> by (vm_compute; reflexivity).
  cbn [ConvertBytesToUint64]. rewrite bind_Ok. set (c1 := mkCache _ _ _ _ _ _ _ _ _ _ _ _).
  destruct (reset_longLived_keeps c1 bs 0 Hsn) as (t & n & ->). rewrite bind_Ok. unfold push_data. cbn [andb].
  destruct (Nat.ltb_spec (length (SmtCacheDataCh (with_longLived c1 t n))) channelSize) as [_|Hn]; [|cbn in Hn; lia].
  destruct (ThreadSafePush_new (PushedHeap c) 0 Hp H0) as (ph & Eph & Hph & HP & _). cbn [with_longLived c1 PushedHeap]. rewrite Eph, bind_Ok.
  eexists. split; [done|]. intros heights. apply (Truncate_zeros heights (mkCache ph _ _ _ _ _ _ _ _ _ _ _)); [|done]. apply top_zero; cbn; [done| |rewrite HP; left].
  rewrite HP. constructor; [done|]. eapply Forall_impl; [exact Hpos|]. cbn. lia.
Qed.

(** ** Resetting more than two blocks *)

(** C38. A batch of three or more blocks cannot be reset: the length that
    ResetCurrentBatch gives to make is a difference of unsigned numbers the wrong way
    round, and it panics whenever the first block to be dropped is two or more below
    the last recorded one.  A height above the last recorded one changes nothing. *)
Theorem ResetCurrentBatch_panics c h :
  0 ≤ h → LastRecordBlockHeight c < 2 ^ 63 →
  (h + 2 ≤ LastRecordBlockHeight c → ResetCurrentBatch c h = Panic) ∧
  (LastRecordBlockHeight c < h → ResetCurrentBatch c h = Ok c).
Proof.
  intros Hh Hl. unfold ResetCurrentBatch. split; intros H.
  - destruct (Z.ltb_spec (LastRecordBlockHeight c) h); [lia|]. unfold make_uint64s, u64.
    assert ((h - LastRecordBlockHeight c + 1) mod 2 ^ 64 = h - LastRecordBlockHeight c + 1 + 2 ^ 64) as ->.
    { rewrite <-(Z_mod_plus_full _ 1), Z.mul_1_l. apply Z.mod_small. lia. }
    destruct (Z.ltb_spec (2 ^ 45) (h - LastRecordBlockHeight c + 1 + 2 ^ 64)); [done|lia].
  - destruct (Z.ltb_spec (LastRecordBlockHeight c) h); [done|lia].
Qed.

(** * Examples *)

Definition sample_block (n : Z) (ws : list (list byte * list byte)) : tables :=
  {[TableStats := <[str_bytes MetaLastHeight := Some (be_bytes 8 n)]> (list_to_map (prod_map id Some <$> ws))]}.

Definition next (s : system KVMap) (a : action) : system KVMap :=
  match step map_to_list s a with Ok (Some s') => s' | _ => s end.

Definition enabled (s : system KVMap) (a : action) : bool :=
  match step map_to_list s a with Ok (Some _) => true | _ => false end.

Lemma next_step s a : enabled s a = true → step map_to_list s a = Ok (Some (next s a)).
Proof. unfold enabled, next. by destruct (step map_to_list s a) as [[s'|]| |]. Qed.

Definition sample_start : system KVMap := mkSystem CreateNewSmtCache ∅ [].

Definition sample_end (tr : list action) : system KVMap := foldl next sample_start tr.

Lemma sample_block_ok n ws : 0 < n < 2 ^ 64 → block_ok (n, sample_block n ws).
Proof. intros Hn. split; [done|]. unfold lookup2, sample_block. cbn [snd]. by rewrite lookup_singleton_eq; cbn; rewrite lookup_insert_eq. Qed.

Definition block5 : block := (5, sample_block 5 [([x01], [x0a])]).

Definition one_batch : list action := [Block block5.1 block5.2; FlushBatch false false; Dispatch; Finish 0].

Lemma reaches_next cur rest s a cur' rest' :
  reaches map_to_list (∅ : KVMap) cur rest s → allowed cur rest s a → enabled s a = true → after cur rest a = (cur', rest') →
  reaches map_to_list (∅ : KVMap) cur' rest' (next s a).
Proof.
  intros Hr Ha Hs E. pose proof (reaches_step map_to_list _ _ _ _ _ _ Hr Ha (next_step _ _ Hs)) as Hr'. by rewrite E in Hr'.
Qed.

Lemma one_block_reached : reaches map_to_list (∅ : KVMap) [block5] [] (sample_end (take 1 one_batch)).
Proof.
  apply (reaches_next [] [] sample_start (Block block5.1 block5.2)); [constructor| |vm_compute; reflexivity|reflexivity].
  split; [apply sample_block_ok; lia|reflexivity].
Qed.

Lemma one_batch_reached : reaches map_to_list (∅ : KVMap) [] [block5] (sample_end one_batch).
Proof.
  apply (reaches_next [] [block5] (sample_end (take 3 one_batch)) (Finish 0)); [|reflexivity|vm_compute; reflexivity|reflexivity].
  apply (reaches_next [] [block5] (sample_end (take 2 one_batch)) Dispatch); [|exact I|vm_compute; reflexivity|reflexivity].
  apply (reaches_next [block5] [] (sample_end (take 1 one_batch)) (FlushBatch false false));
    [exact one_block_reached|by left|vm_compute; reflexivity|reflexivity].
Qed.


Lemma shutdown_writes_everything_witness :
  let s1 := next (sample_end (take 1 one_batch)) (FlushBatch true true) in
  work s1 = 2%nat ∧ kv_GetOne (sy_db (foldl next s1 [Dispatch; Finish 0])) TableStats [x01] = Ok (Some [x0a]).
Proof.
  intros s1. split; [vm_compute; reflexivity|].
  destruct (shutdown_writes_everything map_to_list (λ ts, reflexivity _) (∅ : KVMap) [block5] [] (sample_end (take 1 one_batch)) true)
    as (s2 & E & Hs2); [exact one_block_reached|by left|vm_compute; lia|].
  rewrite next_step in E by (vm_compute; reflexivity). injection E as <-. fold s1 in Hs2.
  destruct (Hs2 [Dispatch; Finish 0] (foldl next s1 [Dispatch; Finish 0])) as (_ & Hd & _).
  - constructor; [by left|]. constructor; [by right|constructor].
  - cbn [run foldl]. rewrite next_step, bind_Ok, next_step, bind_Ok by (vm_compute; reflexivity). reflexivity.
  - rewrite Hd; [vm_compute; reflexivity|split; vm_compute; reflexivity].
Defined.

Lemma ResetCurrentBatch_panics_witness :
  ResetCurrentBatch (sy_cache (sample_end [Block 5 (sample_block 5 []); Block 6 (sample_block 6 []); Block 7 (sample_block 7 [])])) 5 = Panic.
Proof. apply (ResetCurrentBatch_panics _ 5); vm_compute; reflexivity || discriminate. Defined.

Lemma empty_flush_stops_truncation_witness :
  ∃ c', FlushSmtCache CreateNewSmtCache false false = Ok (None, c') ∧ ThreadSafeTop (PushedHeap c') = (0, true).
Proof.
  destruct (empty_flush_stops_truncation CreateNewSmtCache [] false) as (c' & E & _).
  - apply NewSmtCacheList_spec.
  - apply NewSmtCacheList_spec.
  - reflexivity.
  - cbn. unfold channelSize. lia.
  - apply NewUint64MinHeap_wf.
  - constructor.
  - apply not_elem_of_empty.
  - apply NewUint64MinHeap_wf.
  - exists c'. split; [exact E|]. vm_compute in E. injection E as <-. vm_compute. reflexivity.
Defined.

(** Two batches that write the same key, with their workers under way. *)
Definition two_batches : list action :=
  [Block 1 (sample_block 1 [([x01], [x0a])]); FlushBatch false false; Block 2 (sample_block 2 [([x01], [x0b])]); FlushBatch false false;
   Dispatch; Dispatch].

Lemma two_batches_reached :
  reaches map_to_list (∅ : KVMap) [] [(2, sample_block 2 [([x01], [x0b])]); (1, sample_block 1 [([x01], [x0a])])] (sample_end two_batches).
Proof.
  set (b1 := (1, sample_block 1 [([x01], [x0a])]) : block). set (b2 := (2, sample_block 2 [([x01], [x0b])]) : block).
  apply (reaches_next [] [b2; b1] (sample_end (take 5 two_batches)) Dispatch); [|exact I|vm_compute; reflexivity|reflexivity].
  apply (reaches_next [] [b2; b1] (sample_end (take 4 two_batches)) Dispatch); [|exact I|vm_compute; reflexivity|reflexivity].
  apply (reaches_next [b2] [b1] (sample_end (take 3 two_batches)) (FlushBatch false false)); [|by left|vm_compute; reflexivity|reflexivity].
  apply (reaches_next [] [b1] (sample_end (take 2 two_batches)) (Block b2.1 b2.2)); [|split; [apply sample_block_ok; lia|reflexivity]|vm_compute; reflexivity|reflexivity].
  apply (reaches_next [b1] [] (sample_end (take 1 two_batches)) (FlushBatch false false)); [|by left|vm_compute; reflexivity|reflexivity].
  apply (reaches_next [] [] sample_start (Block b1.1 b1.2)); [constructor|split; [apply sample_block_ok; lia|reflexivity]|vm_compute; reflexivity|reflexivity].
Qed.

Lemma workers_out_of_order_witness :
  ∃ late in_order, run map_to_list (sample_end two_batches) [Finish 1; Finish 0] = Ok (Some late) ∧
    run map_to_list (sample_end two_batches) [Finish 0; Finish 0] = Ok (Some in_order) ∧
    kv_GetOne (sy_db late) TableStats [x01] = Ok (Some [x0a]) ∧ kv_GetOne (sy_db in_order) TableStats [x01] = Ok (Some [x0b]).
Proof.
  destruct (workers_out_of_order map_to_list (λ ts, reflexivity _) (∅ : KVMap) _ _ _
    (mkSave (sample_block 1 [([x01], [x0a])]) 1) (mkSave (sample_block 2 [([x01], [x0b])]) 2) [] two_batches_reached)
    as (late & in_order & newer & El & Ei & Hl & Hi & _); [vm_compute; reflexivity|].
  exists late, in_order. split_and!; [exact El|exact Ei|rewrite Hl; vm_compute; reflexivity|rewrite Hi; vm_compute; reflexivity].
Defined.
