(* ===== verification/ZkTypes.v ===== *)
(** The records that the node stores, and their byte encodings.

    Models zk/types/zk_types.go (L1BatchInfo, L1InfoTreeUpdate, L1InjectedBatch,
    ForkInterval) and the plain encodings of zk/datastream/types/ger_update.go;
    hashes and addresses are lists of 32 and 20 bytes. *)

From Stdlib Require Import Strings.Byte.
From S2P Require Import Prelude Bytes.

Local Open Scope Z_scope.

Record L1BatchInfo := mkL1BatchInfo {
  bi_BatchNo : Z; bi_L1BlockNo : Z; bi_L1TxHash : list byte; bi_StateRoot : list byte; bi_L1InfoRoot : list byte;
}.

Record ForkInterval := mkForkInterval {
  fi_ForkID : Z; fi_FromBatchNumber : Z; fi_ToBatchNumber : Z; fi_BlockNumber : Z;
}.

(** * Updates of the L1 info tree *)

Record L1InfoTreeUpdate := mkUpdate {
  u_Index : Z;
  u_GER : list byte;
  u_MainnetExitRoot : list byte;
  u_RollupExitRoot : list byte;
  u_ParentHash : list byte;
  u_Timestamp : Z;
  u_BlockNumber : Z;
}.

Definition update_Marshall (l : L1InfoTreeUpdate) : list byte :=
  le_bytes 8 (u_Index l) ++ u_GER l ++ u_MainnetExitRoot l ++ u_RollupExitRoot l ++ u_ParentHash l ++
  le_bytes 8 (u_Timestamp l) ++ le_bytes 8 (u_BlockNumber l).

(** [binary.LittleEndian.Uint64] panics on fewer than eight bytes. *)
Definition le_uint64 (b : list byte) : outcome Z := le_val <$> go_slice b 0 8.

Definition update_Unmarshall (l : L1InfoTreeUpdate) (input : list byte) : outcome L1InfoTreeUpdate :=
  i ← go_slice input 0 8;
  index ← le_uint64 i;
  ger ← go_slice input 8 40;
  mainnet ← go_slice input 40 72;
  rollup ← go_slice input 72 104;
  parent ← go_slice input 104 136;
  ts ← go_slice input 136 (Z.of_nat (length input));
  timestamp ← le_uint64 ts;
  number ← (if 144 <? Z.of_nat (length input)
            then n ← go_slice input 144 (Z.of_nat (length input)); le_uint64 n
            else Ok (u_BlockNumber l));
  Ok (mkUpdate index ger mainnet rollup parent timestamp number).

Definition empty_update : L1InfoTreeUpdate :=
  let zero := replicate 32 x00 in mkUpdate 0 zero zero zero zero 0 0.

(** * Injected batches *)

Record L1InjectedBatch := mkInjected {
  ib_L1BlockNumber : Z;
  ib_Timestamp : Z;
  ib_L1BlockHash : list byte;
  ib_L1ParentHash : list byte;
  ib_LastGlobalExitRoot : list byte;
  ib_Sequencer : list byte;
  ib_Transaction : list byte;
}.

Definition injected_Marshall (ib : L1InjectedBatch) : list byte :=
  le_bytes 8 (ib_L1BlockNumber ib) ++ le_bytes 8 (ib_Timestamp ib) ++ ib_L1BlockHash ib ++ ib_L1ParentHash ib ++
  ib_LastGlobalExitRoot ib ++ ib_Sequencer ib ++ ib_Transaction ib.

Definition injected_Unmarshall (input : list byte) : outcome L1InjectedBatch :=
  if Z.of_nat (length input) <? 132 then Err "unmarshall error, input is too short"
  else
    n ← go_slice input 0 8;
    ts ← go_slice input 8 16;
    hash ← go_slice input 16 48;
    parent ← go_slice input 48 80;
    ger ← go_slice input 80 112;
    sequencer ← go_slice input 112 132;
    tx ← go_slice input 132 (Z.of_nat (length input));
    Ok (mkInjected (le_val n) (le_val ts) hash parent ger sequencer tx).

(** * Updates of the global exit root *)

Record GerUpdate := mkGerUpdate {
  g_BatchNumber : Z;
  g_Timestamp : Z;
  g_GlobalExitRoot : list byte;
  g_Coinbase : list byte;
  g_ForkId : Z;
  g_ChainId : Z;
  g_StateRoot : list byte;
}.

Definition gerUpdateDataLength : Z := 106.
Definition gerUpdateDataLengthPreEtrog : Z := 102.

Definition ger_EncodeToBytes (g : GerUpdate) : list byte :=
  le_bytes 8 (g_BatchNumber g) ++ le_bytes 8 (g_Timestamp g) ++ g_GlobalExitRoot g ++ g_Coinbase g ++
  le_bytes 2 (g_ForkId g) ++ le_bytes 4 (g_ChainId g) ++ g_StateRoot g.

Definition ger_EncodeToBytesBigEndian (g : GerUpdate) : list byte :=
  be_bytes 8 (g_BatchNumber g) ++ be_bytes 8 (g_Timestamp g) ++ g_GlobalExitRoot g ++ g_Coinbase g ++
  be_bytes 2 (g_ForkId g) ++ be_bytes 4 (g_ChainId g) ++ g_StateRoot g.

Definition decodeGerUpdatePreEtrog (data : list byte) : outcome GerUpdate :=
  n ← go_slice data 0 8;
  ts ← go_slice data 8 16;
  ger ← go_slice data 16 48;
  coinbase ← go_slice data 48 68;
  forkId ← go_slice data 68 70;
  root ← go_slice data 70 102;
  Ok (mkGerUpdate (le_val n) (le_val ts) ger coinbase (le_val forkId) 0 root).

Definition DecodeGerUpdate (data : list byte) : outcome GerUpdate :=
  if negb (Z.of_nat (length data) =? gerUpdateDataLength) then
    if Z.of_nat (length data) =? gerUpdateDataLengthPreEtrog then decodeGerUpdatePreEtrog data
    else Err "expected data length"
  else
    n ← go_slice data 0 8;
    ts ← go_slice data 8 16;
    ger ← go_slice data 16 48;
    coinbase ← go_slice data 48 68;
    forkId ← go_slice data 68 70;
    chainId ← go_slice data 70 74;
    root ← go_slice data 74 106;
    Ok (mkGerUpdate (le_val n) (le_val ts) ger coinbase (le_val forkId) (le_val chainId) root).

(** The chain id is read in the other byte order. *)
Definition DecodeGerUpdateBigEndian (data : list byte) : outcome GerUpdate :=
  if negb (Z.of_nat (length data) =? gerUpdateDataLength) then Err "expected data length"
  else
    n ← go_slice data 0 8;
    ts ← go_slice data 8 16;
    ger ← go_slice data 16 48;
    coinbase ← go_slice data 48 68;
    forkId ← go_slice data 68 70;
    chainId ← go_slice data 70 74;
    root ← go_slice data 74 106;
    Ok (mkGerUpdate (be_val n) (be_val ts) ger coinbase (be_val forkId) (le_val chainId) root).

(** * Round trips *)

(** A field of a record that is encoded as the concatenation of its fields. *)
Lemma go_slice_field (data : list byte) fs i f lo hi :
  data = concat fs → fs !! i = Some f → lo = Z.of_nat (length (concat (take i fs))) →
  hi = lo + Z.of_nat (length f) → go_slice data lo hi = Ok f.
Proof.
  intros -> Hi -> ->. rewrite <-(take_drop_middle fs i f Hi) at 1. rewrite concat_app. cbn [concat].
  apply go_slice_app; lia.
Qed.

Definition hash_wf (h : list byte) : Prop := length h = 32%nat.

Record update_wf (u : L1InfoTreeUpdate) : Prop := {
  uw_Index : 0 ≤ u_Index u < 2 ^ 64; uw_GER : hash_wf (u_GER u); uw_Mainnet : hash_wf (u_MainnetExitRoot u);
  uw_Rollup : hash_wf (u_RollupExitRoot u); uw_Parent : hash_wf (u_ParentHash u);
  uw_Timestamp : 0 ≤ u_Timestamp u < 2 ^ 64; uw_Block : 0 ≤ u_BlockNumber u < 2 ^ 64;
}.

(** The fields of the encodings, in order. *)
Definition update_fs (u : L1InfoTreeUpdate) : list (list byte) :=
  [le_bytes 8 (u_Index u); u_GER u; u_MainnetExitRoot u; u_RollupExitRoot u; u_ParentHash u;
   le_bytes 8 (u_Timestamp u) ++ le_bytes 8 (u_BlockNumber u)].
Definition injected_fs (ib : L1InjectedBatch) : list (list byte) :=
  [le_bytes 8 (ib_L1BlockNumber ib); le_bytes 8 (ib_Timestamp ib); ib_L1BlockHash ib; ib_L1ParentHash ib;
   ib_LastGlobalExitRoot ib; ib_Sequencer ib; ib_Transaction ib].
Definition ger_fs (int : nat → Z → list byte) (g : GerUpdate) : list (list byte) :=
  [int 8%nat (g_BatchNumber g); int 8%nat (g_Timestamp g); g_GlobalExitRoot g; g_Coinbase g;
   int 2%nat (g_ForkId g); int 4%nat (g_ChainId g); g_StateRoot g].

(** [field fs i] reads field [i] of the record with the fields [fs]. *)
Ltac lengths :=
  cbv [update_fs injected_fs ger_fs]; cbn [take concat]; rewrite ?length_app, ?length_le_bytes, ?length_be_bytes;
  cbn [length]; repeat match goal with H : length _ = _ |- _ => rewrite H end; lia.

Ltac field fs i :=
  match goal with
  | |- go_slice ?d ?lo ?hi ≫= _ = _ =>
      erewrite (go_slice_field d fs i _ lo hi);
        [|cbv [update_fs injected_fs ger_fs]; cbn [concat]; rewrite ?app_nil_r, <-?app_assoc; reflexivity
         |reflexivity|lengths|lengths];
      rewrite bind_Ok
  end.

Lemma le_uint64_bytes x : 0 ≤ x < 2 ^ 64 → le_uint64 (le_bytes 8 x) = Ok x.
Proof.
  intros Hx. unfold le_uint64. rewrite go_slice_ok by (rewrite ?length_le_bytes; lia).
  change (Z.to_nat (8 - 0)) with 8%nat. rewrite drop_0, take_ge by (by rewrite length_le_bytes).
  rewrite fmap_Ok, le_val_bytes. f_equal. apply Z.mod_small. lia.
Qed.

Lemma le_val_small n x : 0 ≤ x < 256 ^ Z.of_nat n → le_val (le_bytes n x) = x.
Proof. intros H. rewrite le_val_bytes. by apply Z.mod_small. Qed.

Lemma be_val_small n x : 0 ≤ x < 256 ^ Z.of_nat n → be_val (be_bytes n x) = x.
Proof. intros H. rewrite be_val_bytes. by apply Z.mod_small. Qed.

Lemma le_uint64_app x rest : 0 ≤ x < 2 ^ 64 → le_uint64 (le_bytes 8 x ++ rest) = Ok x.
Proof.
  intros Hx. unfold le_uint64. rewrite (go_slice_field _ [le_bytes 8 x; rest] 0%nat (le_bytes 8 x)); [|..].
  - rewrite fmap_Ok, le_val_small by lia. done.
  - cbn. by rewrite app_nil_r.
  - done.
  - done.
  - by rewrite length_le_bytes.
Qed.

Lemma update_roundtrip l u : update_wf u → update_Unmarshall l (update_Marshall u) = Ok u.
Proof.
  intros []. unfold hash_wf in *.
  assert (Z.of_nat (length (update_Marshall u)) = 152) as Hlen by (unfold update_Marshall; lengths).
  assert (go_slice (update_Marshall u) 144 152 = Ok (le_bytes 8 (u_BlockNumber u))) as Hb.
  { apply (go_slice_field _ [concat (take 5 (update_fs u)) ++ le_bytes 8 (u_Timestamp u);
      le_bytes 8 (u_BlockNumber u)] 1%nat); [|reflexivity|lengths|lengths].
    unfold update_Marshall. cbn. by rewrite !app_nil_r, <-!app_assoc. }
  unfold update_Unmarshall. rewrite Hlen, Hb. change (144 <? 152) with true. cbn iota. unfold update_Marshall.
  field (update_fs u) 0%nat. rewrite le_uint64_bytes, bind_Ok by done.
  field (update_fs u) 1%nat. field (update_fs u) 2%nat. field (update_fs u) 3%nat. field (update_fs u) 4%nat.
  field (update_fs u) 5%nat. rewrite le_uint64_app, !bind_Ok, le_uint64_bytes by done. by destruct u.
Qed.

Record injected_wf (ib : L1InjectedBatch) : Prop := {
  iw_Number : 0 ≤ ib_L1BlockNumber ib < 2 ^ 64; iw_Timestamp : 0 ≤ ib_Timestamp ib < 2 ^ 64;
  iw_Hash : hash_wf (ib_L1BlockHash ib); iw_Parent : hash_wf (ib_L1ParentHash ib);
  iw_Ger : hash_wf (ib_LastGlobalExitRoot ib); iw_Sequencer : length (ib_Sequencer ib) = 20%nat;
}.

Lemma injected_roundtrip ib : injected_wf ib → injected_Unmarshall (injected_Marshall ib) = Ok ib.
Proof.
  intros []. unfold hash_wf in *.
  assert (Z.of_nat (length (injected_Marshall ib)) = 132 + Z.of_nat (length (ib_Transaction ib))) as Hlen
    by (unfold injected_Marshall; lengths).
  unfold injected_Unmarshall. rewrite Hlen, (proj2 (Z.ltb_ge _ _)) by lia. unfold injected_Marshall.
  field (injected_fs ib) 0%nat. field (injected_fs ib) 1%nat. field (injected_fs ib) 2%nat. field (injected_fs ib) 3%nat.
  field (injected_fs ib) 4%nat. field (injected_fs ib) 5%nat. field (injected_fs ib) 6%nat.
  rewrite !le_val_small by lia. by destruct ib.
Qed.

Record ger_wf (g : GerUpdate) : Prop := {
  gw_Number : 0 ≤ g_BatchNumber g < 2 ^ 64; gw_Timestamp : 0 ≤ g_Timestamp g < 2 ^ 64;
  gw_Ger : hash_wf (g_GlobalExitRoot g); gw_Coinbase : length (g_Coinbase g) = 20%nat;
  gw_ForkId : 0 ≤ g_ForkId g < 2 ^ 16; gw_ChainId : 0 ≤ g_ChainId g < 2 ^ 32; gw_Root : hash_wf (g_StateRoot g);
}.

Lemma ger_roundtrip g : ger_wf g → DecodeGerUpdate (ger_EncodeToBytes g) = Ok g.
Proof.
  intros []. unfold hash_wf in *.
  assert (Z.of_nat (length (ger_EncodeToBytes g)) = 106) as Hlen by (unfold ger_EncodeToBytes; lengths).
  unfold DecodeGerUpdate. rewrite Hlen. change (106 =? gerUpdateDataLength) with true. cbn [negb]. cbn iota.
  unfold ger_EncodeToBytes. field (ger_fs le_bytes g) 0%nat. field (ger_fs le_bytes g) 1%nat.
  field (ger_fs le_bytes g) 2%nat. field (ger_fs le_bytes g) 3%nat. field (ger_fs le_bytes g) 4%nat.
  field (ger_fs le_bytes g) 5%nat. field (ger_fs le_bytes g) 6%nat. rewrite !le_val_small by lia. by destruct g.
Qed.

Lemma ger_roundtrip_be g :
  ger_wf g → DecodeGerUpdateBigEndian (ger_EncodeToBytesBigEndian g) =
    Ok (mkGerUpdate (g_BatchNumber g) (g_Timestamp g) (g_GlobalExitRoot g) (g_Coinbase g) (g_ForkId g)
          (le_val (be_bytes 4 (g_ChainId g))) (g_StateRoot g)).
Proof.
  intros []. unfold hash_wf in *.
  assert (Z.of_nat (length (ger_EncodeToBytesBigEndian g)) = 106) as Hlen by (unfold ger_EncodeToBytesBigEndian; lengths).
  unfold DecodeGerUpdateBigEndian. rewrite Hlen. change (106 =? gerUpdateDataLength) with true. cbn [negb]. cbn iota.
  unfold ger_EncodeToBytesBigEndian. field (ger_fs be_bytes g) 0%nat. field (ger_fs be_bytes g) 1%nat.
  field (ger_fs be_bytes g) 2%nat. field (ger_fs be_bytes g) 3%nat. field (ger_fs be_bytes g) 4%nat.
  field (ger_fs be_bytes g) 5%nat. field (ger_fs be_bytes g) 6%nat. by rewrite !be_val_small by lia.
Qed.

(** C35. The stored records survive their encodings: an update of the L1 info
    tree, an injected batch and an update of the global exit root are decoded to
    what was encoded. *)
Theorem records_roundtrip l u ib g :
  update_wf u → injected_wf ib → ger_wf g →
  update_Unmarshall l (update_Marshall u) = Ok u ∧
  injected_Unmarshall (injected_Marshall ib) = Ok ib ∧
  DecodeGerUpdate (ger_EncodeToBytes g) = Ok g.
Proof. intros Hu Hi Hg. split_and!; [by apply update_roundtrip|by apply injected_roundtrip|by apply ger_roundtrip]. Qed.

(** The big-endian encoding of an update of the global exit root is decoded
    with the bytes of the chain id reversed. *)
Theorem ger_big_endian_chain_id g :
  ger_wf g → ∃ g', DecodeGerUpdateBigEndian (ger_EncodeToBytesBigEndian g) = Ok g' ∧
    g_BatchNumber g' = g_BatchNumber g ∧ g_ChainId g' = le_val (be_bytes 4 (g_ChainId g)).
Proof. intros Hg. eexists. split; [by apply ger_roundtrip_be|done]. Qed.

Definition sample_update : L1InfoTreeUpdate :=
  mkUpdate 7 (replicate 32 x01) (replicate 32 x02) (replicate 32 x03) (replicate 32 x04) 1700000000 19000000.
Definition sample_injected : L1InjectedBatch :=
  mkInjected 19000000 1700000000 (replicate 32 x01) (replicate 32 x02) (replicate 32 x03) (replicate 20 x04) [xee].
Definition sample_ger : GerUpdate :=
  mkGerUpdate 3 1700000000 (replicate 32 x01) (replicate 20 x02) 7 196 (replicate 32 x03).

Lemma records_roundtrip_witness :
  update_Unmarshall empty_update (update_Marshall sample_update) = Ok sample_update ∧
  injected_Unmarshall (injected_Marshall sample_injected) = Ok sample_injected ∧
  DecodeGerUpdate (ger_EncodeToBytes sample_ger) = Ok sample_ger.
Proof. apply records_roundtrip; split; simpl; try lia; reflexivity. Defined.

(** The chain id 196 comes back as 0xC4000000. *)
Lemma ger_big_endian_chain_id_witness :
  ∃ g', DecodeGerUpdateBigEndian (ger_EncodeToBytesBigEndian sample_ger) = Ok g' ∧
    g_BatchNumber g' = 3 ∧ g_ChainId g' = 0xC4000000.
Proof.
  destruct (ger_big_endian_chain_id sample_ger) as (g' & E & E1 & E2); [split; simpl; try lia; reflexivity|].
  exists g'. split; [exact E|]. split; [exact E1|]. rewrite E2. vm_compute. reflexivity.
Defined.
