(* ===== verification/HermezDb.v ===== *)
(** The database of the zk node: zk/hermez_db/db.go and utils.go.

    Every table is a table of a key-value transaction ([KVTx] with cursors, see
    Kv.v); a function of HermezDb is a function of the transaction.  Loops over
    a cursor are recursions over the entries it visits.  Loops over ranges of
    uint64 have fuel and return [None] when it runs out. *)

From stdpp Require Import gmap.
From Stdlib Require Import Strings.Byte.
From S2P Require Import Prelude Bytes SmtDb Kv ZkTypes.

Local Open Scope Z_scope.

Definition L1VERIFICATIONS : string := "hermez_l1Verifications".
Definition L1SEQUENCES : string := "hermez_l1Sequences".
Definition FORKIDS : string := "hermez_forkIds".
Definition FORKID_BLOCK : string := "hermez_forkIdBlock".
Definition BLOCKBATCHES : string := "hermez_blockBatches".
Definition BLOCK_GLOBAL_EXIT_ROOTS : string := "hermez_globalExitRoots".
Definition GLOBAL_EXIT_ROOTS_BATCHES : string := "hermez_globalExitRoots_batches".
Definition L1_INFO_TREE_UPDATES : string := "l1_info_tree_updates".
Definition BLOCK_L1_INFO_TREE_INDEX : string := "block_l1_info_tree_index".
Definition BLOCK_L1_INFO_TREE_INDEX_PROGRESS : string := "block_l1_info_tree_progress".
Definition L1_INJECTED_BATCHES : string := "l1_injected_batches".
Definition BATCH_BLOCKS : string := "batch_blocks".
Definition SMT_DEPTHS : string := "smt_depths".
Definition FORK_HISTORY : string := "fork_history".

Definition ErrorNotStored : string := "not stored".

(** * Keys and values (utils.go) *)

Definition BytesToUint64 (b : list byte) : Z :=
  if (length b <? 8)%nat then 0 else be_val (take 8 b).
Definition Uint64ToBytes (i : Z) : list byte := be_bytes 8 i.
Definition BytesToUint8 (b : list byte) : Z := match b with [] => 0 | x :: _ => bz x end.
Definition Uint8ToBytes (i : Z) : list byte := [zb i].

Definition SplitKey (data : list byte) : outcome (Z * Z) :=
  if negb (length data =? 16)%nat then Err "data length is not 16 bytes"
  else Ok (BytesToUint64 (take 8 data), BytesToUint64 (drop 8 data)).

Definition ConcatKey (l1BlockNo batchNo : Z) : list byte := be_bytes 8 l1BlockNo ++ be_bytes 8 batchNo.

Definition concatenateBlockNumbers (blocks : list Z) : list byte := concat (map Uint64ToBytes blocks).

(** The blocks of eight bytes of [v]; [count] are left. *)
Fixpoint parse_blocks (count : nat) (v : list byte) : list Z :=
  match count with
  | O => []
  | S count => BytesToUint64 (take 8 v) :: parse_blocks count (drop 8 v)
  end.

Definition parseConcatenatedBlockNumbers (v : list byte) : list Z := parse_blocks (length v / 8) v.

Section HermezDb.
Context {T : Type} `{KVCursor T}.

(** The value of a key, nil when it is missing. *)
Definition GetOne (t : T) (table : string) (k : list byte) : outcome (list byte) :=
  default [] <$> kv_GetOne t table k.

(** * Blocks and batches *)

Definition GetBatchNoByL2Block (t : T) (l2BlockNo : Z) : outcome Z :=
  match kv_Seek t BLOCKBATCHES (Uint64ToBytes l2BlockNo) with
  | None => Err ErrorNotStored
  | Some (k, v) => Ok (if BytesToUint64 k =? l2BlockNo then BytesToUint64 v else 0)
  end.

Definition CheckBatchNoByL2Block (t : T) (l2BlockNo : Z) : outcome (Z * bool) :=
  match kv_Seek t BLOCKBATCHES (Uint64ToBytes l2BlockNo) with
  | None => Ok (0, false)
  | Some (k, v) => Ok (if BytesToUint64 k =? l2BlockNo then (BytesToUint64 v, true) else (0, false))
  end.

Definition GetL2BlockNosByBatch (t : T) (batchNo : Z) : outcome (list Z) :=
  v ← GetOne t BATCH_BLOCKS (Uint64ToBytes batchNo);
  Ok (parseConcatenatedBlockNumbers v).

Definition GetLatestDownloadedBatchNo (t : T) : outcome Z :=
  Ok (match kv_Last t BLOCKBATCHES with Some (_, v) => BytesToUint64 v | None => 0 end).

Definition GetHighestBlockInBatch (t : T) (batchNo : Z) : outcome (Z * bool) :=
  if batchNo =? 0 then Ok (0, true)
  else
    blocks ← GetL2BlockNosByBatch t batchNo;
    Ok (match blocks with [] => (0, false) | _ => (foldl (λ m b, if m <? b then b else m) 0 blocks, true) end).

Definition GetLowestBlockInBatch (t : T) (batchNo : Z) : outcome (Z * bool) :=
  if batchNo =? 0 then Ok (0, true)
  else
    blocks ← GetL2BlockNosByBatch t batchNo;
    Ok (match blocks with
        | [] => (0, false)
        | _ => (foldl (λ m b, if (b <? m) || (m =? 0) then b else m) 0 blocks, true)
        end).

Definition WriteBlockBatch (t : T) (l2BlockNo batchNo : Z) : outcome T :=
  t ← kv_Put t BLOCKBATCHES (Uint64ToBytes l2BlockNo) (Uint64ToBytes batchNo);
  v ← GetOne t BATCH_BLOCKS (Uint64ToBytes batchNo);
  let blocks := parseConcatenatedBlockNumbers v in
  if existsb (Z.eqb l2BlockNo) blocks then Ok t
  else kv_Put t BATCH_BLOCKS (Uint64ToBytes batchNo) (v ++ Uint64ToBytes l2BlockNo).

(** [for i := from; i <= to; i++] over uint64. *)
Fixpoint range_loop {A} (fuel : nat) (i to : Z) (f : Z → A → outcome A) (a : A) : option (outcome A) :=
  if i <=? to then
    match fuel with
    | O => None
    | S fuel =>
        match f i a with
        | Ok a => range_loop fuel (u64 (i + 1)) to f a
        | Err e => Some (Err e)
        | Panic => Some Panic
        end
    end
  else Some (Ok a).

Definition range_fuel (from to : Z) : nat := Z.to_nat (to - from + 1).

Definition deleteFromBucketWithUintKeysRange (t : T) (bucket : string) (fromBlockNum toBlockNum : Z) : option (outcome T) :=
  range_loop (range_fuel fromBlockNum toBlockNum) fromBlockNum toBlockNum
    (λ i t, kv_Delete t bucket (Uint64ToBytes i)) t.

(** The batches of the blocks of a range, without repetitions: the keys of the
    map that the first loop fills. *)
Definition add_batch (t : T) (i : Z) (batches : list Z) : outcome (list Z) :=
  match GetBatchNoByL2Block t i with
  | Ok batch => Ok (if decide (batch ∈ batches) then batches else batches ++ [batch])
  | Err e => if String.eqb e ErrorNotStored
             then Ok (if decide (0 ∈ batches) then batches else batches ++ [0]) else Err e
  | Panic => Panic
  end.

Definition prune_batch (fromBlockNum toBlockNum : Z) (t : T) (batchNumber : Z) : outcome T :=
  data ← GetOne t BATCH_BLOCKS (Uint64ToBytes batchNumber);
  let newBlockNos :=
    List.filter (λ b, (b <? fromBlockNum) || (toBlockNum <? b)) (parseConcatenatedBlockNumbers data) in
  let newData := concatenateBlockNumbers newBlockNos in
  if (length newData =? 0)%nat then kv_Delete t BATCH_BLOCKS (Uint64ToBytes batchNumber)
  else kv_Put t BATCH_BLOCKS (Uint64ToBytes batchNumber) newData.

(** [order] is the unspecified order in which Go walks the keys of a map. *)
Definition DeleteBlockBatches (order : list Z → list Z) (t : T) (fromBlockNum toBlockNum : Z) : option (outcome T) :=
  match range_loop (range_fuel fromBlockNum toBlockNum) fromBlockNum toBlockNum (add_batch t) [] with
  | None => None
  | Some (Ok batches) =>
      match foldM (prune_batch fromBlockNum toBlockNum) t (order batches) with
      | Ok t => deleteFromBucketWithUintKeysRange t BLOCKBATCHES fromBlockNum toBlockNum
      | Err e => Some (Err e)
      | Panic => Some Panic
      end
  | Some (Err e) => Some (Err e)
  | Some Panic => Some Panic
  end.

(** * Sequences and verifications, by L1 block and batch *)

Definition parseL1BatchInfo (l1BlockN batchN : Z) (v : list byte) : outcome L1BatchInfo :=
  if negb (length v =? 96)%nat && negb (length v =? 64)%nat then Err "invalid hash length"
  else Ok (mkL1BatchInfo batchN l1BlockN (BytesToHash (take 32 v)) (BytesToHash (take 32 (drop 32 v)))
             (BytesToHash (drop 64 v))).

(** The first entry whose key satisfies [p]: the loops that return at it. *)
Fixpoint find_entry (p : Z → Z → bool) (l : list entry) : outcome (option L1BatchInfo) :=
  match l with
  | [] => Ok None
  | (k, v) :: l =>
      '(l1Block, batch) ← SplitKey k;
      if p l1Block batch then Some <$> parseL1BatchInfo l1Block batch v else find_entry p l
  end.

Definition getByL1Block (t : T) (table : string) (l1BlockNo : Z) : outcome (option L1BatchInfo) :=
  find_entry (λ l1Block _, l1Block =? l1BlockNo) (kv_entries t table).

Definition getByBatchNo (t : T) (table : string) (batchNo : Z) : outcome (option L1BatchInfo) :=
  find_entry (λ _ batch, batch =? batchNo) (kv_entries t table).

Definition GetSequenceByL1Block (t : T) (l1BlockNo : Z) := getByL1Block t L1SEQUENCES l1BlockNo.
Definition GetSequenceByBatchNo (t : T) (batchNo : Z) := getByBatchNo t L1SEQUENCES batchNo.
Definition GetVerificationByL1Block (t : T) (l1BlockNo : Z) := getByL1Block t L1VERIFICATIONS l1BlockNo.
Definition GetVerificationByBatchNo (t : T) (batchNo : Z) := getByBatchNo t L1VERIFICATIONS batchNo.

(** The batch itself, or the first entry after the key made of the batch number
    whose batch is higher. *)
Definition orHighest (t : T) (table : string) (batchNo : Z) : outcome (option L1BatchInfo) :=
  seq ← getByBatchNo t table batchNo;
  match seq with
  | Some s => Ok (Some s)
  | None => find_entry (λ _ batch, batchNo <? batch) (seek_in (Uint64ToBytes batchNo) (kv_entries t table))
  end.

Definition GetSequenceByBatchNoOrHighest (t : T) (batchNo : Z) := orHighest t L1SEQUENCES batchNo.
Definition GetVerificationByBatchNoOrHighest (t : T) (batchNo : Z) := orHighest t L1VERIFICATIONS batchNo.

(** The entry with the highest batch, the first of them on a tie; a batch of 0
    is never taken. *)
Fixpoint latest_loop (l : list entry) (best : Z * Z * list byte) : outcome (Z * Z * list byte) :=
  match l with
  | [] => Ok best
  | (k, v) :: l =>
      '(tmpL1BlockNo, tmpBatchNo) ← SplitKey k;
      latest_loop l (if best.1.2 <? tmpBatchNo then (tmpL1BlockNo, tmpBatchNo, v) else best)
  end.

Definition getLatest (t : T) (table : string) : outcome (option L1BatchInfo) :=
  '(l1BlockNo, batchNo, value) ← latest_loop (kv_entries t table) (0, 0, []);
  if (length value =? 0)%nat then Ok None else Some <$> parseL1BatchInfo l1BlockNo batchNo value.

Definition GetLatestSequence (t : T) := getLatest t L1SEQUENCES.
Definition GetLatestVerification (t : T) := getLatest t L1VERIFICATIONS.

Definition GetHighestVerifiedBlockNo (t : T) : outcome Z :=
  v ← GetLatestVerification t;
  match v with
  | None => Ok 0
  | Some v => fst <$> GetHighestBlockInBatch t (bi_BatchNo v)
  end.

Definition GetVerificationByL2BlockNo (t : T) (blockNo : Z) : outcome (option L1BatchInfo) :=
  batchNo ← GetBatchNoByL2Block t blockNo;
  GetVerificationByBatchNo t batchNo.

Definition WriteSequence (t : T) (l1BlockNo batchNo : Z) (l1TxHash stateRoot l1InfoRoot : list byte) : outcome T :=
  kv_Put t L1SEQUENCES (ConcatKey l1BlockNo batchNo) (l1TxHash ++ stateRoot ++ l1InfoRoot).

Definition WriteVerification (t : T) (l1BlockNo batchNo : Z) (l1TxHash stateRoot : list byte) : outcome T :=
  kv_Put t L1VERIFICATIONS (ConcatKey l1BlockNo batchNo) (l1TxHash ++ stateRoot).

Fixpoint rollback_loop (fuel : nat) (t : T) (batchNo : Z) : option (outcome T) :=
  match fuel with
  | O => None
  | S fuel =>
      match GetLatestSequence t with
      | Ok None => Some (Ok t)
      | Ok (Some latest) =>
          if bi_BatchNo latest <=? batchNo then Some (Ok t)
          else
            match kv_Delete t L1SEQUENCES (ConcatKey (bi_L1BlockNo latest) (bi_BatchNo latest)) with
            | Ok t => rollback_loop fuel t batchNo
            | Err e => Some (Err e)
            | Panic => Some Panic
            end
      | Err e => Some (Err e)
      | Panic => Some Panic
      end
  end.

Definition RollbackSequences (t : T) (batchNo : Z) : option (outcome T) :=
  rollback_loop (S (length (kv_entries t L1SEQUENCES))) t batchNo.

(** [for i := latest; i > batchNo; i--], [n] iterations. *)
Fixpoint truncate_loop (table : string) (n : nat) (i : Z) (t : T) : outcome T :=
  match n with
  | O => Ok t
  | S n =>
      seq ← getByBatchNo t table i;
      t ← match seq with
          | None => Ok t
          | Some seq => kv_Delete t table (ConcatKey (bi_L1BlockNo seq) (bi_BatchNo seq))
          end;
      truncate_loop table n (i - 1) t
  end.

(** TruncateSequences and TruncateVerifications differ in the table only. *)
Definition truncate (table : string) (t : T) (l2BlockNo : Z) : outcome T :=
  batchNo ← match GetBatchNoByL2Block t l2BlockNo with
            | Err e => if String.eqb e ErrorNotStored then Ok 0 else Err e
            | r => r
            end;
  if batchNo =? 0 then Ok t
  else
    latest ← getLatest t table;
    match latest with
    | None => Ok t
    | Some latest =>
        if bi_BatchNo latest <=? batchNo then Ok t
        else truncate_loop table (Z.to_nat (bi_BatchNo latest - batchNo)) (bi_BatchNo latest) t
    end.

Definition TruncateSequences (t : T) (l2BlockNo : Z) : outcome T := truncate L1SEQUENCES t l2BlockNo.
Definition TruncateVerifications (t : T) (l2BlockNo : Z) : outcome T := truncate L1VERIFICATIONS t l2BlockNo.

(** * Fork ids *)

Definition GetForkId (t : T) (batchNo : Z) : outcome Z :=
  let batchNo := if batchNo =? 0 then 1 else batchNo in
  v ← GetOne t FORKIDS (Uint64ToBytes batchNo);
  Ok (BytesToUint64 v).

Definition WriteForkId (t : T) (batchNo forkId : Z) : outcome T :=
  kv_Put t FORKIDS (Uint64ToBytes batchNo) (Uint64ToBytes forkId).

Definition GetForkIdByBlockNum (t : T) (blockNum : Z) : outcome Z :=
  blockbatch ← GetBatchNoByL2Block t blockNum;
  forkId ← GetForkId t blockbatch;
  if forkId =? 0 then Err "the network cannot have a 0 fork id" else Ok forkId.

(** The package variables forkIdBlockMap and forkIdBlockMapInit: a cache that
    belongs to the process, not to the transaction. *)
Record forkCache := mkForkCache { fc_map : gmap Z Z; fc_init : bool }.

Definition ClearForkIdBlockMap : forkCache := mkForkCache ∅ false.

Definition cache_store (c : forkCache) (forkId blockNum : Z) : forkCache :=
  mkForkCache (<[forkId := blockNum]> (fc_map c)) (fc_init c).

Fixpoint find_fork (forkId : Z) (l : list entry) : option Z :=
  match l with
  | [] => None
  | (k, v) :: l => if BytesToUint64 k =? forkId then Some (BytesToUint64 v) else find_fork forkId l
  end.

Definition GetForkIdBlock (c : forkCache) (t : T) (forkId : Z) : outcome (forkCache * (Z * bool)) :=
  match fc_map c !! forkId with
  | Some blkNum => Ok (c, (blkNum, true))
  | None =>
      match kv_GetOne t FORKID_BLOCK (Uint64ToBytes forkId) with
      | Ok (Some b) => Ok (cache_store c forkId (BytesToUint64 b), (BytesToUint64 b, true))
      | _ =>
          match find_fork forkId (kv_entries t FORKID_BLOCK) with
          | Some blockNum => Ok (cache_store c forkId blockNum, (blockNum, true))
          | None => Ok (c, (0, false))
          end
      end
  end.

Definition WriteForkIdBlockOnce (c : forkCache) (t : T) (forkId blockNum : Z) : outcome (forkCache * T) :=
  '(c, (_, found)) ← GetForkIdBlock c t forkId;
  if found : bool then Ok (c, t)
  else
    t ← kv_Put t FORKID_BLOCK (Uint64ToBytes forkId) (Uint64ToBytes blockNum);
    Ok (cache_store c forkId blockNum, t).

Definition UpdateForkIdBlock (c : forkCache) (t : T) (forkId blockNum : Z) : outcome (forkCache * T) :=
  t ← kv_Put t FORKID_BLOCK (Uint64ToBytes forkId) (Uint64ToBytes blockNum);
  Ok (cache_store c forkId blockNum, t).

Definition ForkIdsOrdered : list Z := [100; 13; 12; 11; 10; 9; 8; 7; 6; 5; 4].

(** The forks in order; one without a block gets the block of the last fork
    before it in the list that has one. *)
Fixpoint fork_blocks (m : gmap Z Z) (ids : list Z) (lastSet : option Z) (forkBlocks : gmap Z Z) : gmap Z Z :=
  match ids with
  | [] => forkBlocks
  | forkId :: ids =>
      match m !! forkId with
      | Some b => fork_blocks m ids (Some b) (<[forkId := b]> forkBlocks)
      | None =>
          fork_blocks m ids lastSet
            (match lastSet with Some b => <[forkId := b]> forkBlocks | None => forkBlocks end)
      end
  end.

Definition GetAllForkIdBlock (c : forkCache) (t : T) : forkCache * gmap Z Z :=
  let c :=
    if fc_init c then c
    else mkForkCache
           (foldl (λ m '(k, v), <[BytesToUint64 k := BytesToUint64 v]> m) (fc_map c) (kv_entries t FORKID_BLOCK)) true in
  (c, fork_blocks (fc_map c) ForkIdsOrdered None ∅).

(** What happens to a fork whose block is in the deleted range: [None] when it is
    kept, [Some None] when it is deleted, [Some (Some b)] when it moves to [b]. *)
Definition fork_change (forkIdBlkNumMap : gmap Z Z) (fromBlockNo toBlockNo forkId : Z) : option (option Z) :=
  match forkIdBlkNumMap !! forkId with
  | Some blkNum =>
      if (fromBlockNo <=? blkNum) && (blkNum <=? toBlockNo) then
        match forkIdBlkNumMap !! (forkId + 1) with
        | Some nextBlkNum => if toBlockNo <? nextBlkNum then Some (Some (u64 (toBlockNo + 1))) else Some None
        | None => Some None
        end
      else None
  | None => None
  end.

(** The deletions come first, then the updates; they concern different forks. *)
Definition DeleteForkIdBlock (c : forkCache) (t : T) (fromBlockNo toBlockNo : Z) : outcome (forkCache * T) :=
  let '(c, m) := GetAllForkIdBlock c t in
  '(c, t) ← foldM (λ '(c, t) forkId,
    match fork_change m fromBlockNo toBlockNo forkId with
    | Some None =>
        t ← kv_Delete t FORKID_BLOCK (Uint64ToBytes forkId);
        Ok (mkForkCache (delete forkId (fc_map c)) (fc_init c), t)
    | _ => Ok (c, t)
    end) (c, t) ForkIdsOrdered;
  foldM (λ '(c, t) forkId,
    match fork_change m fromBlockNo toBlockNo forkId with
    | Some (Some b) => UpdateForkIdBlock c t forkId b
    | _ => Ok (c, t)
    end) (c, t) ForkIdsOrdered.

(** * Fork history *)

Definition WriteNewForkHistory (t : T) (forkId lastVerifiedBatch : Z) : outcome T :=
  let lastIndex := match kv_Last t FORK_HISTORY with Some (k, _) => k | None => [] end in
  let nextIndex := u64 (BytesToUint64 lastIndex + 1) in
  kv_Put t FORK_HISTORY (Uint64ToBytes nextIndex) (Uint64ToBytes forkId ++ Uint64ToBytes lastVerifiedBatch).

Definition GetLatestForkHistory (t : T) : outcome (Z * Z) :=
  match kv_Last t FORK_HISTORY with
  | None | Some (_, []) => Ok (0, 0)
  | Some (_, v) =>
      f ← go_slice v 0 8;
      b ← go_slice v 8 (Z.of_nat (length v));
      Ok (BytesToUint64 f, BytesToUint64 b)
  end.

Fixpoint fork_history_loop (l : list entry) : outcome (list (Z * Z)) :=
  match l with
  | [] => Ok []
  | (_, v) :: l =>
      f ← go_slice v 0 8;
      b ← go_slice v 8 (Z.of_nat (length v));
      rest ← fork_history_loop l;
      Ok ((BytesToUint64 f, BytesToUint64 b) :: rest)
  end.

Definition GetAllForkHistory (t : T) : outcome (list (Z * Z)) := fork_history_loop (kv_entries t FORK_HISTORY).

(** * Indexes of the L1 info tree *)

Definition GetLatestBlockL1InfoTreeIndexProgress (t : T) : outcome (Z * Z) :=
  Ok (match kv_Last t BLOCK_L1_INFO_TREE_INDEX_PROGRESS with
      | Some (k, v) => (BytesToUint64 k, BytesToUint64 v)
      | None => (0, 0)
      end).

Definition WriteBlockL1InfoTreeIndexProgress (t : T) (blockNumber l1Index : Z) : outcome T :=
  '(latestBlockNumber, latestL1Index) ← GetLatestBlockL1InfoTreeIndexProgress t;
  if blockNumber <? latestBlockNumber then Err "unable to set l1index"
  else if l1Index <=? latestL1Index then Ok t
  else kv_Put t BLOCK_L1_INFO_TREE_INDEX_PROGRESS (Uint64ToBytes blockNumber) (Uint64ToBytes l1Index).

(** SeekExact and Prev: the entry before the one with the key. *)
Fixpoint prev_of (k : list byte) (prev : option entry) (l : list entry) : option entry :=
  match l with
  | [] => None
  | p :: l => if bool_decide (p.1 = k) then prev else prev_of k (Some p) l
  end.

Definition GetPreviousIndexBlock (t : T) (currentIndexBlockNumber : Z) : outcome (option (Z * Z)) :=
  Ok ((λ '(k, v), (BytesToUint64 k, BytesToUint64 v)) <$>
      prev_of (Uint64ToBytes currentIndexBlockNumber) None (kv_entries t BLOCK_L1_INFO_TREE_INDEX)).

Definition WriteL1InfoTreeUpdate (t : T) (update : L1InfoTreeUpdate) : outcome T :=
  kv_Put t L1_INFO_TREE_UPDATES (Uint64ToBytes (u_Index update)) (update_Marshall update).

Definition GetL1InfoTreeUpdate (t : T) (idx : Z) : outcome (option L1InfoTreeUpdate) :=
  data ← GetOne t L1_INFO_TREE_UPDATES (Uint64ToBytes idx);
  match data with [] => Ok None | _ => Some <$> update_Unmarshall empty_update data end.

Definition GetLatestL1InfoTreeUpdate (t : T) : outcome (option L1InfoTreeUpdate) :=
  match kv_Last t L1_INFO_TREE_UPDATES with
  | None | Some (_, []) => Ok None
  | Some (_, v) => Some <$> update_Unmarshall empty_update v
  end.

(** * Injected batches *)

Definition WriteL1InjectedBatch (t : T) (batch : L1InjectedBatch) : outcome T :=
  let count := kv_Count t L1_INJECTED_BATCHES in
  let nextIndex := if 0 <? count then count + 1 else 0 in
  kv_Put t L1_INJECTED_BATCHES (Uint64ToBytes nextIndex) (injected_Marshall batch).

Definition GetL1InjectedBatch (t : T) (index : Z) : outcome L1InjectedBatch :=
  v ← GetOne t L1_INJECTED_BATCHES (Uint64ToBytes index);
  injected_Unmarshall v.

(** * Global exit roots by block and by batch *)

(** The last root at or before a block. *)
Fixpoint last_ger_loop (l : list entry) (l2BlockNo : Z) (ger : list byte) (lastBlockNumber : Z) : list byte * Z :=
  match l with
  | [] => (ger, lastBlockNumber)
  | (k, v) :: l =>
      let current := BytesToUint64 k in
      if l2BlockNo <? current then (ger, lastBlockNumber)
      else if negb (length v =? 0)%nat && (lastBlockNumber <? current) && (current <=? l2BlockNo)
      then last_ger_loop l l2BlockNo (BytesToHash v) current
      else last_ger_loop l l2BlockNo ger lastBlockNumber
  end.

Definition GetLastBlockGlobalExitRoot (t : T) (l2BlockNo : Z) : outcome (list byte * Z) :=
  Ok (last_ger_loop (kv_entries t BLOCK_GLOBAL_EXIT_ROOTS) l2BlockNo (replicate 32 x00) 0).

Definition WriteBlockGlobalExitRoot (t : T) (l2BlockNo : Z) (ger : list byte) : outcome T :=
  kv_Put t BLOCK_GLOBAL_EXIT_ROOTS (Uint64ToBytes l2BlockNo) ger.

Definition GetBlockGlobalExitRoot (t : T) (l2BlockNo : Z) : outcome (list byte) :=
  v ← GetOne t BLOCK_GLOBAL_EXIT_ROOTS (Uint64ToBytes l2BlockNo);
  Ok (BytesToHash v).

Definition WriteBatchGlobalExitRoot (t : T) (batchNumber : Z) (ger : GerUpdate) : outcome T :=
  kv_Put t GLOBAL_EXIT_ROOTS_BATCHES (Uint64ToBytes batchNumber) (ger_EncodeToBytes ger).

(** The variable currentBatchNo that is returned is shadowed in the loop and
    stays 0. *)
Fixpoint last_batch_ger_loop (l : list entry) (batchNum : Z) (ger : option GerUpdate) (lastWritten : Z) :
    outcome (option GerUpdate) :=
  match l with
  | [] => Ok ger
  | (k, v) :: l =>
      let current := BytesToUint64 k in
      if negb (length v =? 0)%nat && (lastWritten <? current) && (current <=? batchNum) then
        g ← DecodeGerUpdate v;
        last_batch_ger_loop l batchNum (Some g) current
      else last_batch_ger_loop l batchNum ger lastWritten
  end.

Definition GetLastBatchGlobalExitRoot (t : T) (batchNum : Z) : outcome (option GerUpdate * Z) :=
  ger ← last_batch_ger_loop (kv_entries t GLOBAL_EXIT_ROOTS_BATCHES) batchNum None 0;
  Ok (ger, 0).

(** * Depths of the state tree *)

Definition WriteSmtDepth (t : T) (l2BlockNo depth : Z) : outcome T :=
  kv_Put t SMT_DEPTHS (Uint64ToBytes l2BlockNo) (Uint64ToBytes depth).

Fixpoint closest_loop (l : list entry) (l2BlockNo closestBlock depth closestRange : Z) : Z * Z :=
  match l with
  | [] => (closestBlock, depth)
  | (k, v) :: l =>
      let currentBlock := BytesToUint64 k in
      let currentRange :=
        if l2BlockNo <? currentBlock then currentBlock - l2BlockNo else l2BlockNo - currentBlock in
      if currentRange <? closestRange
      then closest_loop l l2BlockNo currentBlock (BytesToUint64 v) currentRange
      else closest_loop l l2BlockNo closestBlock depth closestRange
  end.

Definition GetClosestSmtDepth (t : T) (l2BlockNo : Z) : outcome (Z * Z) :=
  Ok (closest_loop (kv_entries t SMT_DEPTHS) l2BlockNo 0 0 (2 ^ 64 - 1)).
End HermezDb.
