(* ===== verification/HermezDbSpec.v ===== *)
(** Properties of the database of the zk node.

    The two tables that relate blocks and batches implement a finite map from
    blocks to batches; rolling sequences back terminates and removes exactly the
    later batches; the recorded progress of the L1 info tree only grows; the
    cache of fork blocks agrees with its table as long as the transaction that
    filled it is the one that is read. *)

From stdpp Require Import gmap sorting.
From Stdlib Require Import Strings.Byte.
From S2P Require Import Prelude Bytes SmtDb Kv ZkTypes HermezDb.

Local Open Scope Z_scope.

(** * Numbers as keys and values *)

Definition uint64 (n : Z) : Prop := 0 ≤ n < 2 ^ 64.

Lemma length_Uint64ToBytes n : length (Uint64ToBytes n) = 8%nat.
Proof. apply length_be_bytes. Qed.

Lemma BytesToUint64_bytes n rest : uint64 n → BytesToUint64 (Uint64ToBytes n ++ rest) = n.
Proof.
  intros Hn. unfold BytesToUint64. rewrite length_app, length_Uint64ToBytes.
  destruct (Nat.ltb_spec (8 + length rest) 8); [lia|].
  rewrite take_app_le by (rewrite length_Uint64ToBytes; lia). rewrite take_ge by (rewrite length_Uint64ToBytes; lia).
  apply be_val_small. unfold uint64 in Hn. lia.
Qed.

Lemma BytesToUint64_Uint64ToBytes n : uint64 n → BytesToUint64 (Uint64ToBytes n) = n.
Proof. intros Hn. rewrite <-(app_nil_r (Uint64ToBytes n)). by apply BytesToUint64_bytes. Qed.

Lemma Uint64ToBytes_inj m n : uint64 m → uint64 n → Uint64ToBytes m = Uint64ToBytes n → m = n.
Proof. intros Hm Hn E. by rewrite <-(BytesToUint64_Uint64ToBytes m), <-(BytesToUint64_Uint64ToBytes n), E. Qed.

Lemma BytesToUint64_range b : uint64 (BytesToUint64 b).
Proof.
  unfold BytesToUint64, uint64. destruct (Nat.ltb_spec (length b) 8); [lia|].
  pose proof (be_val_range (take 8 b)) as H1. rewrite length_take, Nat.min_l in H1 by lia. lia.
Qed.

(** A key of eight bytes is the key of its number. *)
Lemma Uint64ToBytes_BytesToUint64 b : length b = 8%nat → Uint64ToBytes (BytesToUint64 b) = b.
Proof.
  intros Hb. unfold BytesToUint64, Uint64ToBytes. rewrite Hb. change (8 <? 8)%nat with false. cbn iota. rewrite take_ge by lia. by apply be_bytes_val'.
Qed.

Lemma bytes_leb_Uint64 m n : uint64 m → uint64 n → bytes_leb (Uint64ToBytes m) (Uint64ToBytes n) = (m <=? n).
Proof.
  intros Hm Hn. unfold uint64 in *. rewrite bytes_leb_val by (by rewrite !length_Uint64ToBytes).
  unfold Uint64ToBytes. by rewrite !be_val_small by lia.
Qed.

(** ** Lists of numbers *)

Lemma length_concatenate bs : length (concatenateBlockNumbers bs) = (8 * length bs)%nat.
Proof.
  unfold concatenateBlockNumbers. induction bs as [|n bs IH]; [done|].
  cbn [map concat]. rewrite length_app, length_Uint64ToBytes, IH. simpl. lia.
Qed.

Lemma parse_concatenate bs : Forall uint64 bs → parseConcatenatedBlockNumbers (concatenateBlockNumbers bs) = bs.
Proof.
  intros H. unfold parseConcatenatedBlockNumbers. rewrite length_concatenate, Nat.mul_comm, Nat.div_mul by done.
  induction H as [|n bs Hn _ IH]; [done|]. cbn [length parse_blocks].
  change (concatenateBlockNumbers (n :: bs)) with (Uint64ToBytes n ++ concatenateBlockNumbers bs).
  rewrite take_app_le, take_ge by (rewrite length_Uint64ToBytes; lia).
  rewrite drop_app_le, drop_ge by (rewrite length_Uint64ToBytes; lia).
  cbn [app]. by rewrite BytesToUint64_Uint64ToBytes, IH.
Qed.

Lemma concatenate_snoc bs n : concatenateBlockNumbers (bs ++ [n]) = concatenateBlockNumbers bs ++ Uint64ToBytes n.
Proof. unfold concatenateBlockNumbers. rewrite map_app, concat_app. cbn [map concat]. by rewrite app_nil_r. Qed.

#[local] Arguments Uint64ToBytes : simpl never.
#[local] Arguments BytesToUint64 : simpl never.

(** * Seek *)

Lemma seek_in_spec k l :
  StronglySorted key_lt l →
  match head (seek_in k l) with
  | None => ∀ v, (k, v) ∉ l
  | Some (k', v') => (k', v') ∈ l ∧ (k' ≠ k → ∀ v, (k, v) ∉ l)
  end.
Proof.
  induction 1 as [|[k1 v1] l Hs IH Hp]; [intros v Hv; inversion Hv|]. cbn [seek_in fst].
  destruct (bytes_leb k k1) eqn:E; cbn [head].
  - split; [by left|]. intros Hne v Hin. apply elem_of_cons in Hin as [Hin|Hin]; [by simplify_eq|].
    rewrite Forall_forall in Hp. destruct (Hp _ Hin) as [Hle Hk]. cbn in *. apply Hk. by apply (anti_symm bytes_le).
  - assert (k1 ≠ k) as Hne by (intros ->; pose proof (reflexivity k : bytes_le k k); unfold bytes_le in *; congruence).
    assert (∀ v, (k, v) ∉ l → (k, v) ∉ (k1, v1) :: l) as Hc
      by (intros v Hn Hin; apply elem_of_cons in Hin as [Hin|Hin]; [by simplify_eq|done]).
    destruct (head (seek_in k l)) as [[k' v']|]; [|by auto].
    destruct IH as [IH1 IH2]. split; [by right|]. intros Hk v. by apply Hc, IH2.
Qed.

(** * Loops over ranges of uint64 *)

Lemma range_loop_foldM {A} fuel i to (f : Z → A → outcome A) a :
  0 ≤ i → to < 2 ^ 64 - 1 → (Z.to_nat (to - i + 1) ≤ fuel)%nat →
  range_loop fuel i to f a = Some (foldM (λ a i, f i a) a (seqZ i (to - i + 1))).
Proof.
  intros Hi Ht. revert i a Hi. induction fuel as [|fuel IH]; intros i a Hi Hf; cbn [range_loop];
    destruct (Z.leb_spec i to) as [Hle|Hgt]; try lia; try (rewrite (seqZ_nil i) by lia; done).
  rewrite seqZ_cons by lia. cbn [foldM]. destruct (f i a) as [a'|e|]; [|done..].
  assert (u64 (i + 1) = i + 1) as -> by (unfold u64; rewrite Z.mod_small; lia).
  rewrite IH by lia. rewrite bind_Ok. repeat f_equal; lia.
Qed.

(** The last uint64 is never passed: the loop does not end. *)
Lemma range_loop_diverges {A} fuel i (f : Z → A → outcome A) a :
  uint64 i → (∀ i a, ∃ a', f i a = Ok a') → range_loop fuel i (2 ^ 64 - 1) f a = None.
Proof.
  intros Hi Hf. revert i a Hi. induction fuel as [|fuel IH]; intros i a Hi; cbn [range_loop];
    rewrite (proj2 (Z.leb_le _ _)) by (unfold uint64 in Hi; lia); [done|].
  destruct (Hf i a) as [a' ->]. apply IH. unfold u64, uint64. apply Z.mod_pos_bound. lia.
Qed.

(** * Reading and writing tables *)

Section spec.
Context {T : Type} `{KVCursorLaws T} `{!KVTxLaws T}.
Implicit Types t : T.

Definition val t (table : string) (k : list byte) : option (list byte) :=
  match kv_GetOne t table k with Ok o => o | _ => None end.

Lemma kv_GetOne_val t b k : kv_GetOne t b k = Ok (val t b k).
Proof. unfold val. by destruct (kv_open t b k) as [o ->]. Qed.

Lemma GetOne_val t b k : GetOne t b k = Ok (default [] (val t b k)).
Proof. unfold GetOne. by rewrite kv_GetOne_val. Qed.

Lemma put_val t b k v : ∃ t', kv_Put t b k v = Ok t' ∧
  (∀ k', val t' b k' = if decide (k' = k) then Some v else val t b k') ∧
  (∀ b' k', b' ≠ b → val t' b' k' = val t b' k').
Proof.
  destruct (kv_Put_ok t b k v) as (t' & E & E1 & E2). exists t'. unfold val. split_and!; [done| |].
  - intros k'. case_decide as Hd; [by subst k'; rewrite E1|]. by rewrite E2 by congruence.
  - intros b' k' Hb. by rewrite E2 by congruence.
Qed.

Lemma delete_val t b k : ∃ t', kv_Delete t b k = Ok t' ∧
  (∀ k', val t' b k' = if decide (k' = k) then None else val t b k') ∧
  (∀ b' k', b' ≠ b → val t' b' k' = val t b' k').
Proof.
  destruct (kv_Delete_ok t b k) as (t' & E & E1 & E2). exists t'. unfold val. split_and!; [done| |].
  - intros k'. case_decide as Hd; [by subst k'; rewrite E1|]. by rewrite E2 by congruence.
  - intros b' k' Hb. by rewrite E2 by congruence.
Qed.

Lemma entries_val t b k v : (k, v) ∈ kv_entries t b ↔ val t b k = Some v.
Proof. rewrite kv_entries_iff, kv_GetOne_val. split; congruence. Qed.

(** Seek finds the key itself, or another one when there is no such key. *)
Lemma seek_val t b k :
  match kv_Seek t b k with
  | None => val t b k = None
  | Some (k', v) => val t b k' = Some v ∧ (k' ≠ k → val t b k = None)
  end.
Proof.
  assert (∀ k, (∀ v, (k, v) ∉ kv_entries t b) → val t b k = None) as Hn.
  { intros k0 Hk. destruct (val t b k0) as [v|] eqn:E; [|done]. apply entries_val in E. by apply Hk in E. }
  unfold kv_Seek. pose proof (seek_in_spec k _ (kv_entries_sorted t b)) as Hs.
  destruct (head _) as [[k' v']|]; [|by apply Hn]. destruct Hs as [Hin Hs]. split; [by apply entries_val|auto].
Qed.

(** * Blocks and batches *)

(** The list of blocks that is stored for a batch. *)
Definition blocks_of t (batch : Z) : list Z :=
  parseConcatenatedBlockNumbers (default [] (val t BATCH_BLOCKS (Uint64ToBytes batch))).

(** The two tables represent the map [m] from blocks to batches. *)
Record represents t (m : gmap Z Z) : Prop := {
  r_range : map_Forall (λ n b, uint64 n ∧ uint64 b) m;
  r_blocks : ∀ n, uint64 n → val t BLOCKBATCHES (Uint64ToBytes n) = Uint64ToBytes <$> m !! n;
  r_keys : ∀ k v, val t BLOCKBATCHES k = Some v → length k = 8%nat;
  r_batches : ∀ b, uint64 b → ∃ bs, Forall uint64 bs ∧ (∀ n, n ∈ bs ↔ m !! n = Some b) ∧
    default [] (val t BATCH_BLOCKS (Uint64ToBytes b)) = concatenateBlockNumbers bs;
}.

Lemma blocks_of_elem t m b n : represents t m → uint64 b → n ∈ blocks_of t b ↔ m !! n = Some b.
Proof.
  intros Hr Hb. destruct (r_batches _ _ Hr b Hb) as (bs & Hbs & Hin & E).
  unfold blocks_of. by rewrite E, parse_concatenate.
Qed.

(** What the cursor finds at the key of a block. *)
Lemma seek_block t m n :
  represents t m → uint64 n →
  match kv_Seek t BLOCKBATCHES (Uint64ToBytes n) with
  | None => m !! n = None
  | Some (k, v) => m !! n = if BytesToUint64 k =? n then Some (BytesToUint64 v) else None
  end.
Proof.
  intros Hr Hun. pose proof (seek_val t BLOCKBATCHES (Uint64ToBytes n)) as Hs.
  pose proof (r_blocks _ _ Hr n Hun) as Hv.
  destruct (kv_Seek _ _ _) as [[k v]|]; [|rewrite Hs in Hv; by destruct (m !! n)].
  destruct Hs as [Hk Hs]. pose proof (r_keys _ _ Hr _ _ Hk) as Hlen.
  destruct (Z.eqb_spec (BytesToUint64 k) n) as [E|E].
  - rewrite <-E, Uint64ToBytes_BytesToUint64, Hk in Hv by done. rewrite E in Hv.
    destruct (m !! n) as [b|] eqn:Em; [|done]. injection Hv as ->.
    by rewrite BytesToUint64_Uint64ToBytes by apply (r_range _ _ Hr _ _ Em).
  - rewrite Hs in Hv by (intros ->; by rewrite BytesToUint64_Uint64ToBytes in E). by destruct (m !! n).
Qed.

Lemma GetBatchNoByL2Block_Some t m n b :
  represents t m → m !! n = Some b → GetBatchNoByL2Block t n = Ok b.
Proof.
  intros Hr Hn. destruct (r_range _ _ Hr _ _ Hn) as [Hun Hub]. pose proof (seek_block t m n Hr Hun) as Hs.
  unfold GetBatchNoByL2Block. rewrite Hn in Hs. destruct (kv_Seek _ _ _) as [[k v]|]; [|done].
  destruct (_ =? _); congruence.
Qed.

Lemma GetBatchNoByL2Block_None t m n :
  represents t m → uint64 n → m !! n = None → GetBatchNoByL2Block t n = Ok 0 ∨ GetBatchNoByL2Block t n = Err ErrorNotStored.
Proof.
  intros Hr Hun Hn. pose proof (seek_block t m n Hr Hun) as Hs. unfold GetBatchNoByL2Block. rewrite Hn in Hs.
  destruct (kv_Seek _ _ _) as [[k v]|]; [|by right]. left. by destruct (_ =? _).
Qed.

Lemma CheckBatchNoByL2Block_eq t m n :
  represents t m → uint64 n →
  CheckBatchNoByL2Block t n = Ok (default 0 (m !! n), bool_decide (is_Some (m !! n))).
Proof.
  intros Hr Hun. pose proof (seek_block t m n Hr Hun) as Hs. unfold CheckBatchNoByL2Block.
  destruct (kv_Seek _ _ _) as [[k v]|]; rewrite Hs; [by destruct (_ =? _)|done].
Qed.

Lemma represents_write t t' m n b bs :
  represents t m → uint64 n → uint64 b → m !! n = None ∨ m !! n = Some b →
  (∀ k, val t' BLOCKBATCHES k = if decide (k = Uint64ToBytes n) then Some (Uint64ToBytes b) else val t BLOCKBATCHES k) →
  (∀ c, uint64 c → default [] (val t' BATCH_BLOCKS (Uint64ToBytes c)) =
    if decide (c = b) then concatenateBlockNumbers bs else default [] (val t BATCH_BLOCKS (Uint64ToBytes c))) →
  Forall uint64 bs → (∀ x, x ∈ bs ↔ <[n := b]> m !! x = Some b) →
  represents t' (<[n := b]> m).
Proof.
  intros Hr Hn Hb Hfree Hw1 Hw2 Hbs Hin. split.
  - apply map_Forall_insert_2; [done|apply Hr].
  - intros x Hx. rewrite Hw1. case_decide as Hd.
    + apply Uint64ToBytes_inj in Hd; [|done..]. subst x. by rewrite lookup_insert_eq.
    + rewrite lookup_insert_ne by congruence. by apply Hr.
  - intros k v. rewrite Hw1. case_decide as Hd; [intros _; subst k; apply length_Uint64ToBytes|apply Hr].
  - intros c Hc. rewrite (Hw2 c Hc). case_decide as Hd; [subst c; by exists bs|].
    destruct (r_batches _ _ Hr c Hc) as (cs & Hcs & Hic & Ec). exists cs. split; [done|]. split; [|done].
    intros x. rewrite Hic. destruct (decide (x = n)) as [->|]; [|by rewrite lookup_insert_ne].
    rewrite lookup_insert_eq. split; intros E; [|congruence]. destruct Hfree; congruence.
Qed.

Lemma WriteBlockBatch_represents t m n b :
  represents t m → uint64 n → uint64 b → m !! n = None ∨ m !! n = Some b →
  ∃ t', WriteBlockBatch t n b = Ok t' ∧ represents t' (<[n := b]> m).
Proof.
  intros Hr Hn Hb Hfree. unfold WriteBlockBatch.
  destruct (put_val t BLOCKBATCHES (Uint64ToBytes n) (Uint64ToBytes b)) as (t1 & -> & E1 & F1).
  rewrite bind_Ok, GetOne_val, bind_Ok. destruct (r_batches _ _ Hr b Hb) as (bs & Hbs & Hin & Eb).
  rewrite F1, Eb, (parse_concatenate bs Hbs) by done. cbv zeta.
  destruct (existsb (Z.eqb n) bs) eqn:Ex.
  - exists t1. split; [done|]. apply (represents_write t t1 m n b bs); try done.
    + intros c Hc. rewrite F1 by done. case_decide; [by subst c|done].
    + apply existsb_exists in Ex as (x & Hx & E%Z.eqb_eq). subst x. apply list_elem_of_In, Hin in Hx.
      intros x. by rewrite insert_id.
  - destruct (put_val t1 BATCH_BLOCKS (Uint64ToBytes b) (concatenateBlockNumbers bs ++ Uint64ToBytes n)) as (t2 & E & E2 & F2).
    exists t2. split; [done|]. apply (represents_write t t2 m n b (bs ++ [n])); try done.
    + intros k. by rewrite F2, E1 by done.
    + intros c Hc. rewrite E2, F1 by done. destruct (decide (c = b)) as [->|Hcb].
      * rewrite decide_True by done. by rewrite concatenate_snoc.
      * rewrite decide_False; [done|]. intros Hd. by apply Uint64ToBytes_inj in Hd.
    + apply Forall_app. split; [done|by apply Forall_singleton].
    + intros x. rewrite elem_of_app, list_elem_of_singleton, Hin. destruct (decide (x = n)) as [->|].
      * rewrite lookup_insert_eq. naive_solver.
      * rewrite lookup_insert_ne by done. naive_solver.
Qed.

(** ** Deletion of a range of blocks *)

Lemma delete_keys t b (ns : list Z) : ∃ t',
  foldM (λ t i, kv_Delete t b (Uint64ToBytes i)) t ns = Ok t' ∧
  (∀ k, val t' b k = if decide (k ∈ map Uint64ToBytes ns) then None else val t b k) ∧
  (∀ b' k, b' ≠ b → val t' b' k = val t b' k).
Proof.
  revert t. induction ns as [|i ns IH]; intros t; cbn [foldM map].
  { exists t. split_and!; [done| |done]. intros k. rewrite decide_False; [done|]. apply not_elem_of_nil. }
  destruct (delete_val t b (Uint64ToBytes i)) as (t1 & -> & E1 & F1). rewrite bind_Ok.
  destruct (IH t1) as (t2 & E2 & V2 & F2). exists t2. split_and!; [done| |].
  - intros k. rewrite V2, E1. destruct (decide (k ∈ map Uint64ToBytes ns)) as [Hk|Hk].
    + by rewrite decide_True by (by right).
    + destruct (decide (k = Uint64ToBytes i)) as [->|Hne]; [by rewrite decide_True by (by left)|].
      rewrite decide_False; [done|]. by intros [?|?]%elem_of_cons.
  - intros b' k Hb. by rewrite F2, F1.
Qed.

(** The keys of a range. *)
Lemma elem_of_range_keys from to n :
  uint64 from → to < 2 ^ 64 → uint64 n →
  Uint64ToBytes n ∈ map Uint64ToBytes (seqZ from (to - from + 1)) ↔ from ≤ n ≤ to.
Proof.
  intros Hf Ht Hn. unfold uint64 in *. rewrite list_elem_of_fmap. split.
  - intros (x & E & Hx%elem_of_seqZ). apply Uint64ToBytes_inj in E; unfold uint64; lia.
  - intros Hx. exists n. split; [done|]. apply elem_of_seqZ. lia.
Qed.

Lemma add_batch_step t m i batches :
  represents t m → uint64 i → ∃ b, uint64 b ∧ (∀ b', m !! i = Some b' → b = b') ∧
    add_batch t i batches = Ok (if decide (b ∈ batches) then batches else batches ++ [b]).
Proof.
  intros Hr Hi. unfold add_batch. destruct (m !! i) as [b|] eqn:E.
  - exists b. rewrite (GetBatchNoByL2Block_Some _ _ _ _ Hr E).
    split_and!; [apply (r_range _ _ Hr _ _ E)|congruence|done].
  - exists 0. split_and!; [done|done|]. by destruct (GetBatchNoByL2Block_None _ _ _ Hr Hi E) as [->| ->].
Qed.

Lemma add_batches t m (ns : list Z) batches :
  represents t m → Forall uint64 ns → NoDup batches → Forall uint64 batches → ∃ batches',
    foldM (λ a i, add_batch t i a) batches ns = Ok batches' ∧ NoDup batches' ∧ Forall uint64 batches' ∧
    (∀ b, b ∈ batches → b ∈ batches') ∧ (∀ i b, i ∈ ns → m !! i = Some b → b ∈ batches').
Proof.
  intros Hr His. revert batches. induction His as [|i ns Hi His IH]; intros batches Hd Hu; cbn [foldM].
  { exists batches. split_and!; [done..|]. intros i b Hin. inversion Hin. }
  destruct (add_batch_step t m i batches Hr Hi) as (b & Hb & Hm & ->). rewrite bind_Ok.
  destruct (IH (if decide (b ∈ batches) then batches else batches ++ [b])) as (bs & E & H1' & H2' & H3' & H4').
  - case_decide; [done|]. apply NoDup_app. split_and!; [done|set_solver|apply NoDup_singleton].
  - case_decide; [done|]. apply Forall_app. split; [done|by apply Forall_singleton].
  - exists bs. split_and!; [done..| |].
    + intros x Hx. apply H3'. case_decide; set_solver.
    + intros x b' [->|Hx]%elem_of_cons Hxb; [|by eapply H4']. apply H3'. rewrite <-(Hm _ Hxb). case_decide; set_solver.
Qed.

Definition outside (from to : Z) (n : Z) : bool := (n <? from) || (to <? n).

(** What is stored for a batch after the blocks of a range have left it. *)
Definition pruned t (from to b : Z) : list byte :=
  concatenateBlockNumbers (List.filter (outside from to) (blocks_of t b)).

Lemma prune_batch_val t from to b : uint64 b → ∃ t', prune_batch from to t b = Ok t' ∧
  (∀ c, uint64 c → default [] (val t' BATCH_BLOCKS (Uint64ToBytes c)) =
    if decide (c = b) then pruned t from to b else default [] (val t BATCH_BLOCKS (Uint64ToBytes c))) ∧
  (∀ b' k, b' ≠ BATCH_BLOCKS → val t' b' k = val t b' k).
Proof.
  intros Hb. unfold prune_batch. rewrite GetOne_val, bind_Ok. fold (blocks_of t b). cbv zeta.
  change (λ b0 : Z, (b0 <? from) || (to <? b0)) with (outside from to). fold (pruned t from to b).
  destruct (Nat.eqb_spec (length (pruned t from to b)) 0) as [E|E].
  - destruct (delete_val t BATCH_BLOCKS (Uint64ToBytes b)) as (t' & E' & V & F). exists t'. split_and!; [done| |done].
    intros c Hc. rewrite V. destruct (decide (c = b)) as [->|Hne].
    + rewrite decide_True by done. by apply length_zero_iff_nil in E as ->.
    + rewrite decide_False; [done|]. intros Hk. by apply Uint64ToBytes_inj in Hk.
  - destruct (put_val t BATCH_BLOCKS (Uint64ToBytes b) (pruned t from to b)) as (t' & E' & V & F).
    exists t'. split_and!; [done| |done].
    intros c Hc. rewrite V. destruct (decide (c = b)) as [->|Hne]; [by rewrite decide_True by done|].
    rewrite decide_False; [done|]. intros Hk. by apply Uint64ToBytes_inj in Hk.
Qed.

Lemma prune_batches t from to bs : NoDup bs → Forall uint64 bs → ∃ t',
  foldM (prune_batch from to) t bs = Ok t' ∧
  (∀ c, uint64 c → default [] (val t' BATCH_BLOCKS (Uint64ToBytes c)) =
    if decide (c ∈ bs) then pruned t from to c else default [] (val t BATCH_BLOCKS (Uint64ToBytes c))) ∧
  (∀ b' k, b' ≠ BATCH_BLOCKS → val t' b' k = val t b' k).
Proof.
  intros Hd Hu. revert t. induction bs as [|b bs IH]; intros t; cbn [foldM].
  { exists t. split_and!; [done| |done]. intros c Hc. by rewrite decide_False by apply not_elem_of_nil. }
  apply NoDup_cons in Hd as [Hn Hd]. apply Forall_cons in Hu as [Hb Hu].
  destruct (prune_batch_val t from to b Hb) as (t1 & -> & V1 & F1). rewrite bind_Ok.
  destruct (IH Hd Hu t1) as (t2 & E2 & V2 & F2). exists t2. split_and!; [done| |].
  - intros c Hc. rewrite (V2 c Hc), (V1 c Hc). destruct (decide (c ∈ bs)) as [Hin|Hin].
    + rewrite decide_True by (by right). unfold pruned, blocks_of. rewrite (V1 c Hc), decide_False by congruence. done.
    + destruct (decide (c = b)) as [->|Hne]; [by rewrite decide_True by (by left)|].
      rewrite decide_False; [done|]. by intros [?|?]%elem_of_cons.
  - intros b' k Hb'. by rewrite F2, F1.
Qed.

(** The map without the blocks of a range. *)
Definition remove_range (from to : Z) (m : gmap Z Z) : gmap Z Z :=
  filter (λ p : Z * Z, outside from to p.1 = true) m.

Lemma lookup_remove_range from to m n :
  remove_range from to m !! n = if outside from to n then m !! n else None.
Proof.
  unfold remove_range. rewrite map_lookup_filter. destruct (m !! n) as [b|]; cbn.
  - destruct (outside from to n); [by rewrite option_guard_True|by rewrite option_guard_False].
  - by destruct (outside from to n).
Qed.

Lemma DeleteBlockBatches_represents order t m from to :
  (∀ l, order l ≡ₚ l) → represents t m → uint64 from → 0 ≤ to < 2 ^ 64 - 1 →
  ∃ t', DeleteBlockBatches order t from to = Some (Ok t') ∧ represents t' (remove_range from to m).
Proof.
  intros Ho Hr Hf Ht. unfold DeleteBlockBatches. unfold uint64 in Hf.
  rewrite range_loop_foldM by (unfold range_fuel; lia).
  destruct (add_batches t m (seqZ from (to - from + 1)) [] Hr) as (bs & -> & Hd & Hu & _ & Hin).
  { apply Forall_forall. intros i Hi%elem_of_seqZ. unfold uint64. lia. }
  { apply NoDup_nil_2. } { apply Forall_nil_2. }
  destruct (prune_batches t from to (order bs)) as (t1 & -> & V1 & F1); [by rewrite Ho|by rewrite Ho|].
  unfold deleteFromBucketWithUintKeysRange. rewrite range_loop_foldM by (unfold range_fuel; lia).
  destruct (delete_keys t1 BLOCKBATCHES (seqZ from (to - from + 1))) as (t2 & -> & V2 & F2).
  exists t2. split; [done|]. split.
  - intros n b. rewrite lookup_remove_range. destruct (outside from to n); [|done]. apply (r_range _ _ Hr).
  - intros n Hn. rewrite V2, F1, lookup_remove_range, (r_blocks _ _ Hr n Hn) by done. unfold outside.
    assert (Uint64ToBytes n ∈ map Uint64ToBytes (seqZ from (to - from + 1)) ↔ from ≤ n ≤ to) as Hk
      by (apply elem_of_range_keys; unfold uint64 in *; lia).
    case_decide as Hd'; destruct (Z.ltb_spec n from), (Z.ltb_spec to n); cbn; try done; exfalso; naive_solver lia.
  - intros k v. rewrite V2. case_decide; [done|]. rewrite F1 by done. apply (r_keys _ _ Hr).
  - intros b Hb. rewrite F2, (V1 b Hb) by done. destruct (r_batches _ _ Hr b Hb) as (cs & Hcs & Hic & Ec).
    exists (List.filter (outside from to) cs).
    assert (∀ n, n ∈ List.filter (outside from to) cs ↔ n ∈ cs ∧ outside from to n = true) as Hfl
      by (intros n; rewrite !list_elem_of_In; apply filter_In).
    split_and!.
    + apply Forall_forall. intros n [Hn _]%Hfl. rewrite Forall_forall in Hcs. by apply Hcs.
    + intros n. rewrite Hfl, lookup_remove_range, Hic. destruct (outside from to n); naive_solver.
    + destruct (decide (b ∈ order bs)) as [Hin'|Hin'].
      * unfold pruned, blocks_of. by rewrite Ec, parse_concatenate.
      * rewrite Ec. f_equal. symmetry. apply forallb_filter_id, forallb_forall. intros n Hn%list_elem_of_In.
        destruct (outside from to n) eqn:Eo; [done|]. exfalso. apply Hin'. rewrite Ho. apply (Hin n); [|by apply Hic].
        apply elem_of_seqZ. unfold outside in Eo. lia.
Qed.


(** * Sequences of writes and deletions *)

Inductive block_op := BWrite (block batch : Z) | BDelete (from to : Z).

Definition run_op (order : list Z → list Z) t (op : block_op) : option (outcome T) :=
  match op with
  | BWrite n b => Some (WriteBlockBatch t n b)
  | BDelete from to => DeleteBlockBatches order t from to
  end.

Fixpoint run_ops (order : list Z → list Z) t (ops : list block_op) : option (outcome T) :=
  match ops with
  | [] => Some (Ok t)
  | op :: ops =>
      match run_op order t op with
      | Some (Ok t) => run_ops order t ops
      | r => r
      end
  end.

(** The same on the map. *)
Definition spec_op (m : gmap Z Z) (op : block_op) : gmap Z Z :=
  match op with BWrite n b => <[n := b]> m | BDelete from to => remove_range from to m end.

(** A block is written to one batch, unless it has been deleted in between; a
    deleted range ends below the last uint64. *)
Fixpoint ops_ok (m : gmap Z Z) (ops : list block_op) : Prop :=
  match ops with
  | [] => True
  | op :: ops =>
      match op with
      | BWrite n b => uint64 n ∧ uint64 b ∧ (m !! n = None ∨ m !! n = Some b)
      | BDelete from to => uint64 from ∧ 0 ≤ to < 2 ^ 64 - 1
      end ∧ ops_ok (spec_op m op) ops
  end.

(** Without the first condition of [ops_ok] the two tables part: a block that is
    written to a second batch is in the lists of both. *)
Theorem WriteBlockBatch_moved_block_stays t m n b1 b2 :
  represents t m → m !! n = Some b1 → uint64 b2 → b1 ≠ b2 →
  ∃ t' bs1 bs2, WriteBlockBatch t n b2 = Ok t' ∧ GetBatchNoByL2Block t' n = Ok b2 ∧
    GetL2BlockNosByBatch t' b1 = Ok bs1 ∧ GetL2BlockNosByBatch t' b2 = Ok bs2 ∧ n ∈ bs1 ∧ n ∈ bs2.
Proof.
  intros Hr Hm Hb2 Hne. destruct (r_range _ _ Hr _ _ Hm) as [Hn Hb1]. unfold WriteBlockBatch.
  destruct (put_val t BLOCKBATCHES (Uint64ToBytes n) (Uint64ToBytes b2)) as (t1 & -> & E1 & F1).
  rewrite bind_Ok, GetOne_val, bind_Ok. destruct (r_batches _ _ Hr b1 Hb1) as (bs1 & Hbs1 & Hin1 & Eb1).
  destruct (r_batches _ _ Hr b2 Hb2) as (bs2 & Hbs2 & Hin2 & Eb2).
  rewrite F1, Eb2, (parse_concatenate bs2 Hbs2) by done. cbv zeta.
  destruct (existsb (Z.eqb n) bs2) eqn:Ex.
  { apply existsb_exists in Ex as (x & Hx & <-%Z.eqb_eq). apply list_elem_of_In, Hin2 in Hx. congruence. }
  destruct (put_val t1 BATCH_BLOCKS (Uint64ToBytes b2) (concatenateBlockNumbers bs2 ++ Uint64ToBytes n)) as (t2 & E & E2 & F2).
  assert (b1 ≠ b2 → Uint64ToBytes b1 ≠ Uint64ToBytes b2) as Hk by (intros Hb Hd; by apply Uint64ToBytes_inj in Hd).
  exists t2, bs1, (bs2 ++ [n]). split; [exact E|]. unfold GetL2BlockNosByBatch.
  rewrite !GetOne_val, !bind_Ok, !E2, (decide_True (P := Uint64ToBytes b2 = _)), (decide_False (P := Uint64ToBytes b1 = _)) by auto.
  rewrite F1, Eb1 by done. rewrite <-concatenate_snoc.
  split_and!; [|by rewrite parse_concatenate| | |].
  - unfold GetBatchNoByL2Block. pose proof (seek_val t2 BLOCKBATCHES (Uint64ToBytes n)) as Hs.
    assert (val t2 BLOCKBATCHES (Uint64ToBytes n) = Some (Uint64ToBytes b2)) as Hv by (by rewrite F2, E1, decide_True).
    destruct (kv_Seek _ _ _) as [[k v]|]; [|congruence]. destruct Hs as [Hkv Hs].
    destruct (decide (k = Uint64ToBytes n)) as [->|Hkn]; [|specialize (Hs Hkn); congruence].
    rewrite BytesToUint64_Uint64ToBytes, Z.eqb_refl by done. rewrite Hv in Hkv. injection Hkv as <-.
    by rewrite BytesToUint64_Uint64ToBytes.
  - cbn [from_option]. unfold id. rewrite parse_concatenate; [done|]. apply Forall_app. split; [done|by apply Forall_singleton].
  - by apply Hin1.
  - apply elem_of_app. right. by apply list_elem_of_singleton.
Qed.

Lemma represents_empty t :
  (∀ k, val t BLOCKBATCHES k = None) → (∀ k, val t BATCH_BLOCKS k = None) → represents t ∅.
Proof.
  intros H1' H2'. split.
  - apply map_Forall_empty.
  - intros n _. by rewrite H1'.
  - intros k v. by rewrite H1'.
  - intros b _. exists []. rewrite H2'. split_and!; [apply Forall_nil_2| |done]. intros n. rewrite lookup_empty. set_solver.
Qed.

Lemma run_ops_represents order t m ops :
  (∀ l, order l ≡ₚ l) → represents t m → ops_ok m ops →
  ∃ t', run_ops order t ops = Some (Ok t') ∧ represents t' (foldl spec_op m ops).
Proof.
  intros Ho. revert t m. induction ops as [|op ops IH]; intros t m Hr Hok; [by exists t|].
  destruct Hok as [Hop Hok]. cbn [run_ops foldl]. destruct op as [n b|from to]; cbn [run_op].
  - destruct Hop as (Hn & Hb & Hf). destruct (WriteBlockBatch_represents t m n b Hr Hn Hb Hf) as (t1 & -> & Hr1). by apply IH.
  - destruct Hop as [Hf Ht]. destruct (DeleteBlockBatches_represents order t m from to Ho Hr Hf Ht) as (t1 & -> & Hr1). by apply IH.
Qed.

(** C18. The block and batch tables implement a finite map from blocks to batches:
    after a sequence of WriteBlockBatch and DeleteBlockBatches on an empty
    database, whatever the order in which Go walks its maps, every operation has
    succeeded, GetBatchNoByL2Block returns the batch of every block of the map,
    and GetL2BlockNosByBatch returns exactly the blocks of a batch.  The sequences
    ([ops_ok]) are those in which a block that is in a batch is not written to
    another one before it is deleted, and in which a deletion ends below 2^64 - 1. *)
Theorem BlockBatches_refines order t ops :
  (∀ l, order l ≡ₚ l) →
  (∀ k, val t BLOCKBATCHES k = None) → (∀ k, val t BATCH_BLOCKS k = None) → ops_ok ∅ ops →
  let m := foldl spec_op ∅ ops in
  ∃ t', run_ops order t ops = Some (Ok t') ∧
    (∀ n b, m !! n = Some b → GetBatchNoByL2Block t' n = Ok b) ∧
    (∀ n, uint64 n → CheckBatchNoByL2Block t' n = Ok (default 0 (m !! n), bool_decide (is_Some (m !! n)))) ∧
    (∀ b, uint64 b → ∃ bs, GetL2BlockNosByBatch t' b = Ok bs ∧ ∀ n, n ∈ bs ↔ m !! n = Some b).
Proof.
  intros Ho H1' H2' Hok m.
  destruct (run_ops_represents order t ∅ ops Ho (represents_empty t H1' H2') Hok) as (t' & E & Hr).
  exists t'. split; [done|]. split_and!.
  - intros n b. by apply GetBatchNoByL2Block_Some.
  - intros n. by apply CheckBatchNoByL2Block_eq.
  - intros b Hb. exists (blocks_of t' b). split; [|intros n; by apply blocks_of_elem].
    unfold GetL2BlockNosByBatch. by rewrite GetOne_val, bind_Ok.
Qed.

End spec.

(** Two batches, a deletion that cuts the first and removes the second, and a
    block written again. *)
Lemma BlockBatches_refines_witness :
  let ops := [BWrite 1 1; BWrite 2 1; BWrite 3 2; BDelete 2 3; BWrite 2 2] in
  ∃ t', run_ops (@rev Z) (∅ : KVMap) ops = Some (Ok t') ∧
    GetBatchNoByL2Block t' 2 = Ok 2 ∧ CheckBatchNoByL2Block t' 3 = Ok (0, false) ∧
    ∃ bs, GetL2BlockNosByBatch t' 1 = Ok bs ∧ ∀ n, n ∈ bs ↔ foldl spec_op ∅ ops !! n = Some 1.
Proof.
  intros ops.
  destruct (BlockBatches_refines (@rev Z) (∅ : KVMap) ops) as (t' & E & H1 & H2 & H3).
  - intros l. symmetry. apply Permutation_rev.
  - reflexivity.
  - reflexivity.
  - repeat split; try (unfold uint64; lia); try (by left); vm_compute; discriminate || reflexivity || (left; reflexivity).
  - exists t'. split; [exact E|]. split; [apply H1; reflexivity|]. split; [apply (H2 3); unfold uint64; lia|].
    apply H3. unfold uint64. lia.
Defined.

(** * Rolling sequences back *)

(** The L1 block and the batch of a key. *)
Definition key_block (k : list byte) : Z := BytesToUint64 (take 8 k).
Definition key_batch (k : list byte) : Z := BytesToUint64 (drop 8 k).

Lemma SplitKey_ok k : length k = 16%nat → SplitKey k = Ok (key_block k, key_batch k).
Proof. intros Hk. unfold SplitKey. by rewrite Hk. Qed.

Lemma ConcatKey_split k : length k = 16%nat → ConcatKey (key_block k) (key_batch k) = k.
Proof.
  intros Hk. unfold ConcatKey, key_block, key_batch. rewrite <-(take_drop 8 k) at 3.
  f_equal; apply Uint64ToBytes_BytesToUint64; rewrite ?length_take, ?length_drop; lia.
Qed.

Lemma latest_loop_spec l best :
  Forall (λ p : entry, length p.1 = 16%nat) l →
  ∃ r, latest_loop l best = Ok r ∧ best.1.2 ≤ r.1.2 ∧ Forall (λ p : entry, key_batch p.1 ≤ r.1.2) l ∧
    (r = best ∨ ∃ k, length k = 16%nat ∧ (k, r.2) ∈ l ∧ r.1 = (key_block k, key_batch k)).
Proof.
  intros Hl. revert best. induction Hl as [|[k v] l Hk Hl IH]; intros best; cbn [latest_loop].
  { exists best. split_and!; [done|lia|apply Forall_nil_2|by left]. }
  cbn in Hk. rewrite (SplitKey_ok k Hk), bind_Ok. destruct (Z.ltb_spec best.1.2 (key_batch k)) as [Hlt|Hge].
  - destruct (IH (key_block k, key_batch k, v)) as (r & E & Hle & Hall & Hr). exists r. cbn in Hle.
    split_and!; [done|lia|by apply Forall_cons_2|]. right. destruct Hr as [->|(k' & Hk' & Hin & Er)].
    + exists k. split_and!; [done|by left|done].
    + exists k'. split_and!; [done|by right|done].
  - destruct (IH best) as (r & E & Hle & Hall & Hr). exists r.
    split_and!; [done|lia|apply Forall_cons_2; [cbn; lia|done]|]. destruct Hr as [->|(k' & Hk' & Hin & Er)]; [by left|].
    right. exists k'. split_and!; [done|by right|done].
Qed.

Section rollback.
Context {T : Type} `{KVCursorLaws T} `{!KVTxLaws T}.
Implicit Types t : T.

(** The entries that WriteSequence and WriteVerification write. *)
Definition batch_table_ok t (table : string) : Prop :=
  ∀ k v, val t table k = Some v → length k = 16%nat ∧ (length v = 96%nat ∨ length v = 64%nat).

Lemma parseL1BatchInfo_ok l1 b v :
  length v = 96%nat ∨ length v = 64%nat → ∃ i, parseL1BatchInfo l1 b v = Ok i ∧ bi_BatchNo i = b ∧ bi_L1BlockNo i = l1.
Proof. unfold parseL1BatchInfo. intros [-> | ->]; by eexists. Qed.

(** The latest entry: none when every batch is 0. *)
Lemma getLatest_spec t table :
  batch_table_ok t table → ∃ o, getLatest t table = Ok o ∧
    match o with
    | None => ∀ k v, val t table k = Some v → key_batch k ≤ 0
    | Some i => ∃ k v, val t table k = Some v ∧ length k = 16%nat ∧ bi_BatchNo i = key_batch k ∧ bi_L1BlockNo i = key_block k ∧
        ∀ k' v', val t table k' = Some v' → key_batch k' ≤ key_batch k
    end.
Proof.
  intros Hok. unfold getLatest.
  destruct (latest_loop_spec (kv_entries t table) (0, 0, [])) as ([[l1 b] v] & -> & _ & Hall & Hr).
  { apply Forall_forall. intros [k v] Hin%entries_val. by apply (Hok k v). }
  rewrite bind_Ok. rewrite Forall_forall in Hall. cbn in *.
  assert (∀ k' v', val t table k' = Some v' → key_batch k' ≤ b) as Hmax.
  { intros k' v' Hv'%entries_val. exact (Hall _ Hv'). }
  destruct Hr as [[= -> -> ->]|(k & Hk & Hin & [= -> ->])]; [by eexists|].
  apply entries_val in Hin. destruct (Hok _ _ Hin) as [_ Hv].
  destruct (Nat.eqb_spec (length v) 0) as [E|_]; [destruct Hv; congruence|].
  destruct (parseL1BatchInfo_ok (key_block k) (key_batch k) v Hv) as (i & -> & Hb & Hl1). cbn.
  eexists. split; [done|]. cbn. exists k, v. by split_and!.
Qed.

(** The entries after a batch. *)
Definition later t (n : Z) : list entry := List.filter (λ p : entry, n <? key_batch p.1) (kv_entries t L1SEQUENCES).

Lemma NoDup_entries t b : NoDup (kv_entries t b).
Proof.
  pose proof (kv_entries_sorted t b) as Hs. induction Hs as [|p l _ IH Hp]; [apply NoDup_nil_2|].
  apply NoDup_cons. split; [|done]. intros Hin. rewrite Forall_forall in Hp. destruct (Hp p Hin) as [_ Hne]. done.
Qed.

Lemma elem_of_later t n p : p ∈ later t n ↔ p ∈ kv_entries t L1SEQUENCES ∧ n < key_batch p.1.
Proof. unfold later. rewrite !list_elem_of_In, filter_In, Z.ltb_lt. done. Qed.

Lemma later_delete t t' n k v :
  val t L1SEQUENCES k = Some v → n < key_batch k →
  (∀ k', val t' L1SEQUENCES k' = if decide (k' = k) then None else val t L1SEQUENCES k') →
  (length (later t' n) < length (later t n))%nat.
Proof.
  intros Hv Hk Hd. assert ((k, v) :: later t' n ⊆+ later t n) as Hsub.
  { apply NoDup_submseteq.
    - apply NoDup_cons. split.
      + rewrite elem_of_later, entries_val, Hd. intros [E _]. by rewrite decide_True in E.
      + unfold later. apply NoDup_ListNoDup, List.NoDup_filter, NoDup_ListNoDup, NoDup_entries.
    - intros [k' v'] [[= -> ->]|Hin]%elem_of_cons; [by rewrite elem_of_later, entries_val|].
      rewrite elem_of_later, entries_val, Hd in Hin. rewrite elem_of_later, entries_val. destruct Hin as [E Hn].
      by case_decide. }
  apply submseteq_length in Hsub. exact Hsub.
Qed.

Lemma rollback_loop_spec fuel t n :
  0 ≤ n → batch_table_ok t L1SEQUENCES → (length (later t n) < fuel)%nat →
  ∃ t', rollback_loop fuel t n = Some (Ok t') ∧
    (∀ k, val t' L1SEQUENCES k = if n <? key_batch k then None else val t L1SEQUENCES k) ∧
    (∀ b k, b ≠ L1SEQUENCES → val t' b k = val t b k).
Proof.
  intros Hn. revert t. induction fuel as [|fuel IH]; intros t Hok Hf; [lia|]. cbn [rollback_loop].
  assert ((∀ k v, val t L1SEQUENCES k = Some v → key_batch k ≤ n) →
    ∀ k, val t L1SEQUENCES k = if n <? key_batch k then None else val t L1SEQUENCES k) as Hdone.
  { intros Hle k. destruct (Z.ltb_spec n (key_batch k)); [|done].
    destruct (val t L1SEQUENCES k) as [v|] eqn:E; [|done]. apply Hle in E. lia. }
  destruct (getLatest_spec t L1SEQUENCES Hok) as (o & Eo & Ho). unfold GetLatestSequence. rewrite Eo.
  destruct o as [i|]; [|exists t; split_and!; [done| |done]; apply Hdone; intros k v E; apply Ho in E; lia].
  destruct Ho as (k & v & Hv & Hk & Eb & El & Hmax). rewrite Eb, El, (ConcatKey_split k Hk).
  destruct (Z.leb_spec (key_batch k) n) as [Hle|Hgt].
  { exists t. split_and!; [done| |done]. apply Hdone. intros k' v' E. apply Hmax in E. lia. }
  destruct (delete_val t L1SEQUENCES k) as (t1 & -> & V1 & F1).
  destruct (IH t1) as (t2 & E2 & V2 & F2).
  - intros k' v'. rewrite V1. case_decide; [done|]. apply Hok.
  - pose proof (later_delete t t1 n k v Hv Hgt V1). lia.
  - exists t2. split_and!; [done| |intros b k' Hb; by rewrite F2, F1]. intros k'. rewrite V2, V1.
    destruct (Z.ltb_spec n (key_batch k')); [done|]. rewrite decide_False; [done|]. intros ->. lia.
Qed.

(** C34. RollbackSequences terminates and deletes exactly the sequences of the
    batches after the given one: every other sequence, and every other table, is
    as before. *)
Theorem RollbackSequences_spec t batchNo :
  0 ≤ batchNo → batch_table_ok t L1SEQUENCES →
  ∃ t', RollbackSequences t batchNo = Some (Ok t') ∧
    (∀ k, val t' L1SEQUENCES k = if batchNo <? key_batch k then None else val t L1SEQUENCES k) ∧
    (∀ b k, b ≠ L1SEQUENCES → val t' b k = val t b k).
Proof.
  intros Hn Hok. apply rollback_loop_spec; [done|done|]. unfold later.
  pose proof (List.filter_length_le (λ p : entry, batchNo <? key_batch p.1) (kv_entries t L1SEQUENCES)). lia.
Qed.

End rollback.

(** Three sequences, rolled back to the first. *)
Definition sample_hash : list byte := replicate 32 x01.
Definition sample_seqs : KVMap :=
  list_to_map [((L1SEQUENCES, ConcatKey 100 1), sample_hash ++ sample_hash ++ sample_hash);
               ((L1SEQUENCES, ConcatKey 120 3), sample_hash ++ sample_hash ++ sample_hash);
               ((L1SEQUENCES, ConcatKey 110 2), sample_hash ++ sample_hash)].

Lemma RollbackSequences_spec_witness :
  ∃ t', RollbackSequences sample_seqs 1 = Some (Ok t') ∧
    (∀ k, val t' L1SEQUENCES k = if 1 <? key_batch k then None else val sample_seqs L1SEQUENCES k) ∧
    (∀ b k, b ≠ L1SEQUENCES → val t' b k = val sample_seqs b k).
Proof.
  apply (RollbackSequences_spec sample_seqs 1); [lia|].
  intros k v E. assert (((L1SEQUENCES, k), v) ∈ map_to_list sample_seqs) as Hin.
  { apply elem_of_map_to_list. unfold val in E. cbn in E. exact E. }
  assert (forallb (λ p : string * list byte * list byte,
    (length p.1.2 =? 16)%nat && ((length p.2 =? 96)%nat || (length p.2 =? 64)%nat)) (map_to_list sample_seqs) = true) as Hall
    by (vm_compute; reflexivity).
  rewrite forallb_forall in Hall. apply list_elem_of_In in Hin. specialize (Hall _ Hin). cbn [fst snd] in Hall. lia.
Defined.

(** * Progress of the L1 info tree *)

Section progress.
Context {T : Type} `{KVCursorLaws T} `{!KVTxLaws T}.
Implicit Types t : T.

Lemma last_max t b :
  match kv_Last t b with
  | None => ∀ k v, val t b k ≠ Some v
  | Some (k, v) => val t b k = Some v ∧ ∀ k' v', val t b k' = Some v' → k' ≠ k → key_lt (k', v') (k, v)
  end.
Proof.
  unfold kv_Last. destruct (last (kv_entries t b)) as [[k v]|] eqn:E.
  - apply last_Some in E as [l El]. split; [apply entries_val; rewrite El; set_solver|].
    intros k' v' Hv' Hne. apply entries_val in Hv'. pose proof (kv_entries_sorted t b) as Hs. rewrite El in Hv', Hs.
    apply elem_of_app in Hv' as [Hin|Hin]; [|set_solver].
    clear El. induction l as [|p l IH]; [set_solver|]. cbn in Hs. apply StronglySorted_inv in Hs as [Hs Hp].
    apply elem_of_cons in Hin as [<-|Hin]; [|by apply IH]. rewrite Forall_forall in Hp. apply Hp. set_solver.
  - apply last_None in E. intros k v Hv%entries_val. rewrite E in Hv. set_solver.
Qed.

(** The recorded blocks and indexes: numbers, and a later block has a higher
    index. *)
Record progress_ok t : Prop := {
  po_keys : ∀ k v, val t BLOCK_L1_INFO_TREE_INDEX_PROGRESS k = Some v → length k = 8%nat ∧ length v = 8%nat;
  po_grows : ∀ k v k' v', val t BLOCK_L1_INFO_TREE_INDEX_PROGRESS k = Some v →
    val t BLOCK_L1_INFO_TREE_INDEX_PROGRESS k' = Some v' →
    BytesToUint64 k < BytesToUint64 k' → BytesToUint64 v < BytesToUint64 v';
}.

Lemma key_lt_num (p q : entry) :
  length p.1 = 8%nat → length q.1 = 8%nat → key_lt p q → BytesToUint64 p.1 < BytesToUint64 q.1.
Proof.
  intros Hp Hq [Hle Hne]. unfold bytes_le in Hle.
  rewrite <-(Uint64ToBytes_BytesToUint64 _ Hp), <-(Uint64ToBytes_BytesToUint64 _ Hq) in Hle, Hne.
  rewrite bytes_leb_Uint64 in Hle by apply BytesToUint64_range.
  apply Z.leb_le in Hle. destruct (Z.eq_dec (BytesToUint64 p.1) (BytesToUint64 q.1)) as [E|]; [by rewrite E in Hne|lia].
Qed.

(** The latest entry bounds all of them. *)
Lemma latest_progress t : progress_ok t → ∃ lb li, GetLatestBlockL1InfoTreeIndexProgress t = Ok (lb, li) ∧
  (∀ k v, val t BLOCK_L1_INFO_TREE_INDEX_PROGRESS k = Some v → BytesToUint64 k ≤ lb ∧ BytesToUint64 v ≤ li) ∧
  0 ≤ lb ∧ (0 < lb → ∃ k v, val t BLOCK_L1_INFO_TREE_INDEX_PROGRESS k = Some v ∧ BytesToUint64 k = lb).
Proof.
  intros [Hk Hg]. unfold GetLatestBlockL1InfoTreeIndexProgress.
  pose proof (last_max t BLOCK_L1_INFO_TREE_INDEX_PROGRESS) as Hl.
  destruct (kv_Last _ _) as [[k v]|]; [|exists 0, 0; split_and!; [done| |lia|lia]; intros k v E; by apply Hl in E].
  destruct Hl as [Hv Hmax]. exists (BytesToUint64 k), (BytesToUint64 v). split_and!; [done| |apply BytesToUint64_range|by eexists _, _].
  intros k' v' Hv'. destruct (decide (k' = k)) as [->|Hne]; [rewrite Hv in Hv'; injection Hv' as <-; lia|].
  assert (BytesToUint64 k' < BytesToUint64 k) as Hlt.
  { apply (key_lt_num (k', v') (k, v)); [by apply (Hk _ _ Hv')|by apply (Hk _ _ Hv)|by apply Hmax]. }
  split; [lia|]. pose proof (Hg _ _ _ _ Hv' Hv Hlt). lia.
Qed.

Lemma progress_put t t' n i :
  progress_ok t → uint64 n → uint64 i →
  (∀ k v, val t BLOCK_L1_INFO_TREE_INDEX_PROGRESS k = Some v → BytesToUint64 k ≤ n ∧ BytesToUint64 v < i) →
  (∀ k, val t' BLOCK_L1_INFO_TREE_INDEX_PROGRESS k =
    if decide (k = Uint64ToBytes n) then Some (Uint64ToBytes i) else val t BLOCK_L1_INFO_TREE_INDEX_PROGRESS k) →
  progress_ok t'.
Proof.
  intros [Hk Hg] Hn Hi Hb Hv. split.
  - intros k v. rewrite Hv. case_decide; [|apply Hk]. intros [= <-]. subst k. by rewrite !length_Uint64ToBytes.
  - intros k v k' v'. rewrite !Hv. case_decide as H1'; case_decide as H2'.
    + subst. intros _ _. lia.
    + subst k. intros _ E. rewrite BytesToUint64_Uint64ToBytes by done. apply Hb in E. lia.
    + intros E [= <-] _. rewrite BytesToUint64_Uint64ToBytes by done. apply Hb in E. lia.
    + apply Hg.
Qed.

(** The progress of the L1 info tree only grows: writing an index for a block
    fails exactly when a later block has one, never lowers what is recorded for a
    block, and keeps the indexes strictly increasing with the blocks. *)
Theorem L1InfoTreeIndexProgress_monotone t blockNumber l1Index :
  progress_ok t → uint64 blockNumber → uint64 l1Index →
  match WriteBlockL1InfoTreeIndexProgress t blockNumber l1Index with
  | Ok t' => progress_ok t' ∧
      (∀ k v, val t BLOCK_L1_INFO_TREE_INDEX_PROGRESS k = Some v →
        BytesToUint64 k ≤ blockNumber ∧ ∃ v', val t' BLOCK_L1_INFO_TREE_INDEX_PROGRESS k = Some v' ∧
          BytesToUint64 v ≤ BytesToUint64 v')
  | Err _ => ∃ k v, val t BLOCK_L1_INFO_TREE_INDEX_PROGRESS k = Some v ∧ blockNumber < BytesToUint64 k
  | Panic => False
  end.
Proof.
  intros Hok Hn Hi. destruct (latest_progress t Hok) as (lb & li & E & Hb & Hlb & Hex).
  unfold WriteBlockL1InfoTreeIndexProgress. rewrite E, bind_Ok.
  destruct (Z.ltb_spec blockNumber lb) as [Hlt|Hge].
  { destruct Hex as (k & v & Hv & Hk); [unfold uint64 in Hn; lia|]. exists k, v. split; [done|lia]. }
  destruct (Z.leb_spec l1Index li) as [Hle|Hgt].
  { split; [done|]. intros k v Hv. destruct (Hb k v Hv). split; [lia|]. exists v. split; [done|lia]. }
  destruct (put_val t BLOCK_L1_INFO_TREE_INDEX_PROGRESS (Uint64ToBytes blockNumber) (Uint64ToBytes l1Index)) as (t' & -> & V & _).
  split.
  - apply (progress_put t t' blockNumber l1Index); try done. intros k v Hv. destruct (Hb k v Hv). lia.
  - intros k v Hv. destruct (Hb k v Hv). split; [lia|]. rewrite V. case_decide; [|by exists v; split; [|lia]].
    eexists. split; [done|]. rewrite BytesToUint64_Uint64ToBytes by done. lia.
Qed.

End progress.

(** Two entries, and a write at a later block. *)
Definition sample_progress : KVMap :=
  list_to_map [((BLOCK_L1_INFO_TREE_INDEX_PROGRESS, Uint64ToBytes 10), Uint64ToBytes 1);
               ((BLOCK_L1_INFO_TREE_INDEX_PROGRESS, Uint64ToBytes 20), Uint64ToBytes 4)].

Lemma sample_progress_ok : progress_ok sample_progress.
Proof.
  assert (∀ k v, val sample_progress BLOCK_L1_INFO_TREE_INDEX_PROGRESS k = Some v →
    (k, v) ∈ [(Uint64ToBytes 10, Uint64ToBytes 1); (Uint64ToBytes 20, Uint64ToBytes 4)]) as Hv.
  { intros k v E%entries_val. vm_compute in E. exact E. }
  split; [intros k v E%Hv|intros k v k' v' E%Hv E'%Hv]; rewrite !elem_of_cons in *; destruct_or?; simplify_eq; try done;
    try set_solver; vm_compute; done.
Qed.

Lemma L1InfoTreeIndexProgress_monotone_witness :
  ∃ t', WriteBlockL1InfoTreeIndexProgress sample_progress 25 6 = Ok t' ∧ progress_ok t'.
Proof.
  pose proof (L1InfoTreeIndexProgress_monotone sample_progress 25 6 sample_progress_ok) as Hm.
  assert (match WriteBlockL1InfoTreeIndexProgress sample_progress 25 6 with Ok _ => true | _ => false end = true) as Hok
    by (vm_compute; reflexivity).
  destruct (WriteBlockL1InfoTreeIndexProgress sample_progress 25 6) as [t'|e|]; [|discriminate Hok..].
  exists t'. split; [reflexivity|]. apply Hm; unfold uint64; lia.
Defined.

(** * The cache of fork blocks *)

Section forks.
Context {T : Type} `{KVCursorLaws T} `{!KVTxLaws T}.
Implicit Types (t : T) (c : forkCache).

(** The block that is stored for a fork. *)
Definition fork_block t (forkId : Z) : option Z := BytesToUint64 <$> val t FORKID_BLOCK (Uint64ToBytes forkId).

(** The table has numbers as keys and the cache holds what the table holds. *)
Record forks_ok c t : Prop := {
  fo_keys : ∀ k v, val t FORKID_BLOCK k = Some v → length k = 8%nat;
  fo_cache : ∀ f b, fc_map c !! f = Some b → uint64 f ∧ fork_block t f = Some b;
}.

Lemma find_fork_none t forkId :
  (∀ k v, val t FORKID_BLOCK k = Some v → length k = 8%nat) → fork_block t forkId = None →
  find_fork forkId (kv_entries t FORKID_BLOCK) = None.
Proof.
  intros Hk Hn. assert (∀ k v, (k, v) ∈ kv_entries t FORKID_BLOCK → val t FORKID_BLOCK k = Some v) as He
    by (intros k v; apply entries_val).
  induction (kv_entries t FORKID_BLOCK) as [|[k v] l IH]; [done|]. cbn [find_fork].
  destruct (Z.eqb_spec (BytesToUint64 k) forkId) as [E|]; [|apply IH; intros k' v' Hin; apply He; by right].
  exfalso. assert (val t FORKID_BLOCK k = Some v) as Hv by (apply He; by left).
  unfold fork_block in Hn. rewrite <-E, Uint64ToBytes_BytesToUint64, Hv in Hn by (by apply (Hk k v)). done.
Qed.

Lemma forks_ok_store c t forkId b :
  forks_ok c t → uint64 forkId → fork_block t forkId = Some b → forks_ok (cache_store c forkId b) t.
Proof.
  intros [Hk Hc] Hf Hb. split; [done|]. intros f b' E. cbn in E. destruct (decide (f = forkId)) as [->|].
  - rewrite lookup_insert_eq in E. by injection E as <-.
  - rewrite lookup_insert_ne in E by done. by apply Hc.
Qed.

Lemma GetForkIdBlock_eq c t forkId :
  forks_ok c t → uint64 forkId → ∃ c', forks_ok c' t ∧
    GetForkIdBlock c t forkId = Ok (c', (default 0 (fork_block t forkId), bool_decide (is_Some (fork_block t forkId)))).
Proof.
  intros Hok Hf. pose proof Hok as [Hk Hc]. unfold GetForkIdBlock. destruct (fc_map c !! forkId) as [b|] eqn:E.
  { exists c. split; [done|]. destruct (Hc _ _ E) as [_ ->]. done. }
  rewrite kv_GetOne_val. destruct (val t FORKID_BLOCK (Uint64ToBytes forkId)) as [v|] eqn:Ev.
  - assert (fork_block t forkId = Some (BytesToUint64 v)) as Eb by (unfold fork_block; by rewrite Ev).
    rewrite Eb. eexists. split; [|done]. by apply forks_ok_store.
  - assert (fork_block t forkId = None) as Eb by (unfold fork_block; by rewrite Ev).
    rewrite (find_fork_none t forkId Hk Eb), Eb. by exists c.
Qed.

Lemma forks_ok_put c t t' forkId b :
  forks_ok c t → uint64 forkId → uint64 b →
  (∀ k, val t' FORKID_BLOCK k = if decide (k = Uint64ToBytes forkId) then Some (Uint64ToBytes b) else val t FORKID_BLOCK k) →
  forks_ok (cache_store c forkId b) t' ∧ fork_block t' forkId = Some b ∧
  (∀ f, uint64 f → f ≠ forkId → fork_block t' f = fork_block t f).
Proof.
  intros [Hk Hc] Hf Hb V. assert (∀ f, uint64 f → f ≠ forkId → fork_block t' f = fork_block t f) as Ho.
  { intros f Hf' Hne. unfold fork_block. rewrite V, decide_False; [done|]. intros E. by apply Uint64ToBytes_inj in E. }
  assert (fork_block t' forkId = Some b) as Hn.
  { unfold fork_block. rewrite V, decide_True by done. cbn. by rewrite BytesToUint64_Uint64ToBytes. }
  split_and!; [|done|done]. split.
  - intros k v. rewrite V. case_decide; [intros _; subst k; apply length_Uint64ToBytes|apply Hk].
  - intros f b' E. cbn in E. destruct (decide (f = forkId)) as [->|Hne].
    + rewrite lookup_insert_eq in E. by injection E as <-.
    + rewrite lookup_insert_ne in E by done. destruct (Hc _ _ E) as [Hf' Hb']. split; [done|]. by rewrite Ho.
Qed.

(** The cache of fork blocks agrees with the table: GetForkIdBlock returns
    what the table holds and keeps the agreement, and WriteForkIdBlockOnce keeps
    it and sets the block of a fork only once. *)
Theorem forkIdBlock_cache_coherent c t forkId blockNum :
  forks_ok c t → uint64 forkId → uint64 blockNum →
  (∃ c', GetForkIdBlock c t forkId =
      Ok (c', (default 0 (fork_block t forkId), bool_decide (is_Some (fork_block t forkId)))) ∧ forks_ok c' t) ∧
  (∃ c' t', WriteForkIdBlockOnce c t forkId blockNum = Ok (c', t') ∧ forks_ok c' t' ∧
      fork_block t' forkId = Some (default blockNum (fork_block t forkId)) ∧
      ∀ f, uint64 f → f ≠ forkId → fork_block t' f = fork_block t f).
Proof.
  intros Hok Hf Hb. destruct (GetForkIdBlock_eq c t forkId Hok Hf) as (c' & Hok' & E). split; [by exists c'|].
  unfold WriteForkIdBlockOnce. rewrite E, bind_Ok. destruct (fork_block t forkId) as [b|] eqn:Eb; cbn [default bool_decide].
  - rewrite bool_decide_true by done. exists c', t. by split_and!.
  - rewrite bool_decide_false by (by intros []).
    destruct (put_val t FORKID_BLOCK (Uint64ToBytes forkId) (Uint64ToBytes blockNum)) as (t' & -> & V & _).
    rewrite bind_Ok. exists (cache_store c' forkId blockNum), t'.
    destruct (forks_ok_put c' t t' forkId blockNum Hok' Hf Hb V) as (H1' & H2' & H3'). by split_and!.
Qed.

(** The cache outlives the transaction: when the block of a new fork has been
    written and the transaction is then discarded, GetForkIdBlock still returns
    that block, although the table does not hold one. *)
Theorem forkIdBlock_cache_survives_rollback c t forkId blockNum c' t' :
  forks_ok c t → uint64 forkId → fork_block t forkId = None →
  WriteForkIdBlockOnce c t forkId blockNum = Ok (c', t') →
  GetForkIdBlock c' t forkId = Ok (c', (blockNum, true)).
Proof.
  intros Hok Hf Hn E. unfold WriteForkIdBlockOnce in E.
  destruct (GetForkIdBlock_eq c t forkId Hok Hf) as (c1 & _ & E1). rewrite E1, Hn, bind_Ok in E. cbn in E.
  destruct (put_val t FORKID_BLOCK (Uint64ToBytes forkId) (Uint64ToBytes blockNum)) as (t1 & Ep & _).
  rewrite Ep, bind_Ok in E. injection E as <- <-. unfold GetForkIdBlock. cbn. by rewrite lookup_insert_eq.
Qed.

(** The fork ids that the result of GetAllForkIdBlock can have. *)
Lemma fork_blocks_dom m ids lastSet forkBlocks f :
  f ∉ ids → forkBlocks !! f = None → fork_blocks m ids lastSet forkBlocks !! f = None.
Proof.
  revert lastSet forkBlocks. induction ids as [|x ids IH]; intros lastSet fb Hin Hn; [done|].
  apply not_elem_of_cons in Hin as [Hx Hin]. cbn [fork_blocks].
  destruct (m !! x); [|destruct lastSet]; apply IH; try done; by rewrite lookup_insert_ne.
Qed.

Lemma ForkIdsOrdered_uint64 f : f ∈ ForkIdsOrdered → uint64 f.
Proof. unfold ForkIdsOrdered. intros Hin. repeat (apply elem_of_cons in Hin as [->|Hin]; [unfold uint64; lia|]). inversion Hin. Qed.

Lemma fork_block_delete t t' f g :
  uint64 f → uint64 g →
  (∀ k, val t' FORKID_BLOCK k = if decide (k = Uint64ToBytes f) then None else val t FORKID_BLOCK k) →
  fork_block t' g = if decide (g = f) then None else fork_block t g.
Proof.
  intros Hf Hg V. unfold fork_block. rewrite V. destruct (decide (g = f)) as [->|]; [by rewrite decide_True|].
  rewrite decide_False; [done|]. intros E. by apply Uint64ToBytes_inj in E.
Qed.

(** The deletions of DeleteForkIdBlock remove the forks that are to be deleted. *)
Lemma fork_deletions m from to g (l : list Z) c t :
  (∀ f, f ∈ l → uint64 f) → uint64 g → fork_change m from to g = Some None →
  g ∈ l ∨ fork_block t g = None →
  ∃ c' t', foldM (λ '(c, t) forkId,
    match fork_change m from to forkId with
    | Some None =>
        t ← kv_Delete t FORKID_BLOCK (Uint64ToBytes forkId);
        Ok (mkForkCache (delete forkId (fc_map c)) (fc_init c), t)
    | _ => Ok (c, t)
    end) (c, t) l = Ok (c', t') ∧ fork_block t' g = None.
Proof.
  revert c t. induction l as [|f l IH]; intros c t Hl Hg Hc Hor.
  { exists c, t. split; [done|]. by destruct Hor as [Hin|]; [inversion Hin|]. }
  assert (∀ f, f ∈ l → uint64 f) as Hl' by (intros f' ?; apply Hl; by right).
  assert (uint64 f) as Hf by (apply Hl; by left). cbn [foldM].
  destruct (fork_change m from to f) as [[b|]|] eqn:Ef.
  2: { destruct (delete_val t FORKID_BLOCK (Uint64ToBytes f)) as (t' & -> & V & _). rewrite !bind_Ok.
       apply IH; [done..|]. rewrite (fork_block_delete t t' f g) by done. case_decide; [by right|].
       destruct Hor as [[?|?]%elem_of_cons|?]; [done|by left|by right]. }
  all: rewrite bind_Ok; apply IH; [done..|]; destruct Hor as [[->|?]%elem_of_cons|?]; [congruence|by left|by right].
Qed.

(** Unwinding blocks within the fork before the last one forgets it: when the
    block of fork 13 is in the deleted range and that of fork 100 is after it,
    DeleteForkIdBlock removes fork 13 instead of moving it to the block after the
    range, because it looks for the next fork at 14. *)
Theorem DeleteForkIdBlock_forgets_Durian c t from to b b' :
  snd (GetAllForkIdBlock c t) !! 13 = Some b → snd (GetAllForkIdBlock c t) !! 100 = Some b' →
  from ≤ b ≤ to → to < b' →
  ∃ c' t', DeleteForkIdBlock c t from to = Ok (c', t') ∧ fork_block t' 13 = None.
Proof.
  intros E13 _ Hr _. unfold DeleteForkIdBlock.
  assert (snd (GetAllForkIdBlock c t) !! 14 = None) as E14.
  { apply fork_blocks_dom; [|done]. by apply (bool_decide_unpack _). }
  destruct (GetAllForkIdBlock c t) as [c0 m]. cbn [snd] in *.
  assert (fork_change m from to 13 = Some None) as Hc.
  { unfold fork_change. change (13 + 1) with 14. rewrite E13, E14, !(proj2 (Z.leb_le _ _)) by lia. done. }
  destruct (fork_deletions m from to 13 ForkIdsOrdered c0 t) as (c1 & t1 & -> & H13);
    [apply ForkIdsOrdered_uint64|unfold uint64; lia|done|left; by apply (bool_decide_unpack _)|].
  rewrite bind_Ok.
  destruct (foldM_invariant (λ '(c, t) forkId,
    match fork_change m from to forkId with
    | Some (Some b) => UpdateForkIdBlock c t forkId b
    | _ => Ok (c, t)
    end) (λ '(_, t), fork_block t 13 = None) (λ f, uint64 f) (c1, t1) ForkIdsOrdered) as ([c2 t2] & E & Hn);
    [done|apply Forall_forall, ForkIdsOrdered_uint64| |by exists c2, t2].
  intros [c3 t3] f Hn Hf. destruct (fork_change m from to f) as [[x|]|] eqn:Ef; [|by exists (c3, t3)..].
  unfold UpdateForkIdBlock.
  destruct (put_val t3 FORKID_BLOCK (Uint64ToBytes f) (Uint64ToBytes x)) as (t4 & -> & V & _).
  rewrite bind_Ok. eexists. split; [done|]. unfold fork_block in *. rewrite V, decide_False; [done|].
  intros E%Uint64ToBytes_inj; [|unfold uint64; lia|done]. congruence.
Qed.

(** Deleting up to the last uint64 does not terminate: the counter of the
    loop wraps around to 0 before it exceeds the bound. *)
Theorem delete_to_MaxUint64_diverges t bucket from fuel :
  uint64 from →
  range_loop fuel from (2 ^ 64 - 1) (λ i t, kv_Delete t bucket (Uint64ToBytes i)) t = None ∧
  deleteFromBucketWithUintKeysRange t bucket from (2 ^ 64 - 1) = None.
Proof.
  intros Hf. assert (∀ i (t : T), ∃ t', kv_Delete t bucket (Uint64ToBytes i) = Ok t') as Hd
    by (intros i t0; destruct (delete_val t0 bucket (Uint64ToBytes i)) as (t1 & E & _); by exists t1).
  split; apply range_loop_diverges; done.
Qed.

End forks.

Definition sample_forks : KVMap := list_to_map [((FORKID_BLOCK, Uint64ToBytes 12), Uint64ToBytes 5000)].

Lemma sample_forks_ok : forks_ok ClearForkIdBlockMap sample_forks.
Proof.
  split; [|done]. intros k v E%entries_val. vm_compute in E.
  apply elem_of_cons in E as [[= -> ->]|E]; [done|inversion E].
Qed.

Lemma forkIdBlock_cache_coherent_witness :
  ∃ c' t', WriteForkIdBlockOnce ClearForkIdBlockMap sample_forks 13 9000 = Ok (c', t') ∧ forks_ok c' t' ∧
    fork_block t' 13 = Some 9000.
Proof.
  destruct (forkIdBlock_cache_coherent ClearForkIdBlockMap sample_forks 13 9000 sample_forks_ok)
    as [_ (c' & t' & E & Hok & Hb & _)]; [unfold uint64; lia..|].
  exists c', t'. split; [exact E|]. split; [exact Hok|]. rewrite Hb. vm_compute. reflexivity.
Defined.

Lemma forkIdBlock_cache_survives_rollback_witness :
  ∃ c', GetForkIdBlock c' sample_forks 13 = Ok (c', (9000, true)).
Proof.
  exists (cache_store ClearForkIdBlockMap 13 9000).
  apply (forkIdBlock_cache_survives_rollback ClearForkIdBlockMap sample_forks 13 9000 _
    (<[(FORKID_BLOCK, Uint64ToBytes 13) := Uint64ToBytes 9000]> sample_forks)).
  - exact sample_forks_ok.
  - unfold uint64. lia.
  - vm_compute. reflexivity.
  - reflexivity.
Defined.

Lemma delete_to_MaxUint64_diverges_witness :
  deleteFromBucketWithUintKeysRange sample_forks FORKID_BLOCK 7 (2 ^ 64 - 1) = None.
Proof. apply (delete_to_MaxUint64_diverges sample_forks FORKID_BLOCK 7 0). unfold uint64. lia. Defined.

Definition durian_forks : KVMap :=
  list_to_map [((FORKID_BLOCK, Uint64ToBytes 13), Uint64ToBytes 10); ((FORKID_BLOCK, Uint64ToBytes 100), Uint64ToBytes 20)].

Lemma DeleteForkIdBlock_forgets_Durian_witness :
  ∃ c' t', DeleteForkIdBlock ClearForkIdBlockMap durian_forks 5 12 = Ok (c', t') ∧ fork_block t' 13 = None.
Proof.
  apply (DeleteForkIdBlock_forgets_Durian ClearForkIdBlockMap durian_forks 5 12 10 20);
    [vm_compute; reflexivity|vm_compute; reflexivity|lia|lia].
Defined.
